(* ===== verification/_CoqProject ===== *)
-Q . S2P
Prelude.v
RustStr.v
Json.v
JsonPath.v
Delta.v
Schema.v
Acl.v
Frame.v
Log.v
LogIO.v
Store.v
StoreRace.v
StorePersist.v
LogFaults.v
PersistRace.v
StoreLinear.v
Session.v
Middleware.v
WritePool.v
Fanout.v
Cluster.v
Server.v
ServerLogic.v
ServerSafety.v
HandlerRace.v
HandlerSerial.v
ServerWatch.v
ServerReply.v
Connection.v
ServerSystem.v
Subscriptions.v
WatchRace.v
Startup.v
Shutdown.v
UnitTests.v
ClusterSystem.v
Subscriber.v
Bench.v
BenchRun.v
