(* ===== verification/Prelude.v ===== *)
(** * A verification development of the SODP server

    SODP is a server for shared JSON state.  Clients connect over WebSocket, watch
    keys, and write them with CALL frames; every write is stored with a version,
    compared with the old value, and the difference is sent to all watchers.  This
    development models the Rust code under src/src and src/sodp-middleware/src.

    ** The program and the files that model it

    - Prelude.v: Rust's [Result], machine-width addition, bytes, the iteration order
      of hash maps (class [HashOrder]: some permutation of the elements, not a
      fixed one), shared list lemmas, the hint database [sodp] and tactics.
    - RustStr.v: the [str] methods the code uses.  Json.v: [serde_json::Value],
      objects being [BTreeMap]s (sorted association lists), and its equality,
      under which integers and floats keep their own kinds.
    - JsonPath.v: [json_set_in], [json_remove_in], [json_merge] of server.rs.
    - Delta.v: delta.rs.  [Module Replica] is the specification: what a client does
      with an operation.  [Module Rel] relates string paths and lists of segments.
    - Schema.v: schema.rs, with the declarative predicate [conforms].
    - Acl.v: acl.rs, with a positional specification of patterns.
    - Frame.v: frame.rs, with a reader of MessagePack integers as specification.
    - Log.v: log.rs over a directory (a map from file names to bytes); [EntryCodec]
      stands for rmp_serde on entries.  LogIO.v: the same operations through the
      [BufWriter], and [open] with its replay, on a file system whose calls may fail
      (short writes, interruptions, errors); its theorems relate them to those of Log.v.
    - Store.v: state.rs, operation by operation, and its invariant.  StorePersist.v:
      what a restart restores.  StoreRace.v: [apply] as four atomic steps that
      interleave with those of other calls.  LogFaults.v: histories of appends,
      compactions, crashes and restarts, failed ones included, under I/O errors.  PersistRace.v: [apply],
      [delete] and compaction of a persistent store access by access.
      StoreLinear.v: what such runs return, compared with sequential ones.
    - Session.v: session.rs; the clock is an argument of each call.
    - WritePool.v: write_pool.rs.  Handles are shared by reference, so that the model
      has a store of handles ([Net]).  [Module Pool] is a step relation for pool mode:
      every atomic operation of senders and workers is a step, threads are counted
      by program point, and there may be any number of them.
    - Fanout.v: fanout.rs; [BodyCodec] stands for rmp_serde on delta bodies.
    - Cluster.v: cluster.rs: the tasks it spawns, run against a Redis that is a hash
      and a list of published messages.
    - Server.v: the handlers of server.rs in a state monad over the connection's
      session and the shared [World] (store, bus, handles, cluster tasks): one
      definition per handler and CALL method, with every early return.
      ServerLogic.v: triples and "quiet" actions.  ServerSafety.v: access and
      schema.  ServerReply.v: answers.  ServerWatch.v: what clients see.
      HandlerRace.v: each handler again, as a program of single accesses to what the
      connections share, and the programs of many connections interleaved.
      HandlerSerial.v: such runs compared with sequential ones.
    - Connection.v: [listen], [handle_connection], [auth_handshake], the event loop
      and the configuration read from the environment.
    - ServerSystem.v: a node as a transition system of connections
      ([sys_step_by], with what the clients may do as a parameter).  Subscriptions.v: the
      same system with clients that do what they like.
      WatchRace.v: the atomic steps of a WATCH (subscribe, read, announce) among
      those of writes (apply, snapshot, send, own delta).  ClusterSystem.v: two nodes, both
      serving connections, and Redis.
      Subscriber.v: the task that relays the deltas of peers, with its reconnections,
      pauses and shutdown.
    - Startup.v: the constructors of [SodpServer], what [main] makes of its arguments
      and environment, joining a cluster, and the HTTP endpoints of main.rs.
      Shutdown.v: the process (accept loop, connection tasks in and after the
      handshake, signal) and its end.
    - Bench.v: the pure parts of bin/bench.rs (workload, statistics, scanner).
      BenchRun.v: its reference servers over a broadcast channel (class [Broadcast]),
      and its RESUME smoke test as a client of the model of the server.
    - Middleware.v: the glob ACL and rate limiter of the middleware crate.
    - UnitTests.v: a validation of the definitions above: the unit tests of delta.rs,
      acl.rs, log.rs and the middleware crate, evaluated on them.

    ** What is shown

    - Synchronisation (ServerSystem.v): in every reachable state of a node, each
      watch of a live session that was not evicted is subscribed on the bus, and
      what its client will hold after the queued messages is the stored value.
      The invariant [sys_with] is kept by every frame, event, delivery, socket
      failure and session end; it rests on the round trip of [diff] (Delta.v) and
      on what a broadcast delivers (Fanout.v).  What is asked of the clients
      ([event_ok], [frame_ok]): a CALL writes no field name that a path cannot carry
      ([pointer_safe]), and a WATCH or RESUME names no key that the session watches
      already; UNWATCH and all other frames are free.  The theorems next to it show what
      goes wrong otherwise.  Handlers run one at a time, and counters are not exhausted.
    - Ownership (Subscriptions.v): with clients that send anything, a subscription on
      the bus always belongs to a live session and to a watch it has.
    - Access control (ServerSafety.v, Acl.v, Connection.v): no frame changes or
      subscribes to a key the ACL does not allow; the identity the checks use is that
      of a token accepted on the same connection; rules are first match wins.
    - Validation (Schema.v, ServerSafety.v): validation is the declarative predicate,
      and CALLs keep the store conformant.
    - Store and persistence (Store.v, StorePersist.v, Log.v): [apply] and [delete] on
      every branch, the store's invariant, RESUME replay, log append, rotation,
      compaction, crash recovery from any prefix of the live segment, restart.  That a
      restart restores everything needs a codec that reads back every entry it wrote
      ([enc_ok]).  rmp_serde, as delta.rs derives it, does not do so for the entry of a
      delete or of a write that removes a field; delete_entry_rejected_loses_writes
      (StorePersist.v) has the consequence.  The theorem on crash recovery does without:
      each segment is read up to the first record that is refused or incomplete.
    - Durability under errors (LogIO.v, LogFaults.v): without faults the buffered log is
      the log of Log.v; with faults, as long as no record is torn, no read fails while the
      log is replayed and every entry is read back ([contained]), a start that succeeds
      has every key whose newest entry was acknowledged, and no entry that was
      not given to the log.
    - Concurrent writes (PersistRace.v, StoreLinear.v): a call that runs alone is the
      operation of Store.v; interleaved calls with one writer per key are
      linearizable, and at any moment a restart gives back the keys that are not just
      being logged, provided the map is not written between a compaction's snapshot
      and the compaction.
    - Delivery (WritePool.v, Fanout.v, ServerReply.v, Cluster.v): no lost wake-up and
      no deadlock in the pool under any interleaving, FIFO draining, one answer per
      CALL with the effect its method and arguments call for, delivery to peers.  The pool terminates: when no [try_send] is left, an
      explicit bound ([Pool.step_bound]) on the number of further steps holds for
      every interleaving.
    - Errors (ServerReply.v, Startup.v): a refused CALL is answered with one ERROR frame
      and changes neither store nor bus; when each start-up error (schema, log, address)
      is reported.
    - Start-up (Startup.v): the synchronisation theorem holds of a node started by
      [main], with or without a log directory left by earlier runs and a cluster to
      join, whose values are as those of the clients; the HTTP responses read back.
    - Shutdown (Shutdown.v): when the connections' tasks run to their end after the
      signal, nothing is left of any session.  The code does not wait for them.
    - Cluster (ClusterSystem.v): once the writing node's tasks ran and the peer
      received what was published, the peer's watchers hold the written value, provided
      they started to watch before a delta of their key arrived and make no CALLs; a
      node that joins has what was synced (Cluster.v).  The
      subscriber (Subscriber.v) relays everything while it listens, and stops within
      two seconds of its shutdown whatever Redis does.
    - Races (WatchRace.v): a WATCH that overlaps writes, also writes of sessions that
      watch the key themselves, ends in sync if one write is in
      flight at a time and no DELTA is queued for its stream between its read of the
      store and its STATE_INIT; without the latter a write is lost.
    - Interleaved handlers (HandlerRace.v, HandlerSerial.v): a program that runs
      alone is its handler ([alone_handle_frame]); access control and schema hold under
      every interleaving; and connections whose CALLs name different keys are
      serializable, each ending with the session and the values it would have had alone.
    - Encoding (Frame.v): the hand-written MessagePack header.
    - Tests (UnitTests.v): the repository's unit tests pass on the model; the
      compaction test, too large to evaluate, is proved for any number of entries.

    Theorems that name a surprising behaviour are kept with the component they
    concern: ambiguous paths (Delta.v), replay after eviction (Store.v), deleted keys
    after a restart (StorePersist.v), races of [apply] (StoreRace.v), the field that one
    of two [state.set_in] on a key loses (HandlerSerial.v), entries behind a
    torn record and behind a failed read (LogFaults.v), a compaction with an old snapshot (PersistRace.v), what
    is published while the subscriber is away (Subscriber.v), watching a key
    twice (ServerReply.v), unvalidated cleanup (ServerSafety.v), configuration that
    fails open (Connection.v), reordered cluster tasks (Cluster.v), a watch that
    meets a write half way (WatchRace.v), a process that ends before its sessions
    have (Shutdown.v), a peer's store that is not updated by the
    messages it relays (ClusterSystem.v), glob panics and pattern injection
    (Middleware.v).

    ** Choices

    A [u64] or [u32] is a [Z] with its wrap-around written out ([u64_add]); a
    theorem that needs a counter not to wrap says so.  A float is its sign and
    magnitude bits.  A string is its UTF-8 bytes, except in Middleware.v, where
    characters and byte offsets both matter.  Fuel: [replay_loop] runs on the length
    of the segment plus one, and each record is at least four bytes long; [to_dec]
    has the twenty digits of a [u64]; [watch_events] receives at most what is in the
    channel, and lags at most once.  In LogIO.v the answers of the operating system are
    lists that the calls consume; when they are used up, calls succeed.  In
    PersistRace.v a snapshot of the map is one step, while [DashMap::iter] goes shard by
    shard; the theorems exclude writes of the map in between.  Interleaving: handlers of different
    connections are atomic with respect to each other in ServerSystem.v and
    ClusterSystem.v.  In HandlerRace.v they switch between any two accesses to the store,
    the bus or a write handle, and the queues and sockets may change in any way
    at any time; [apply], [delete] and a broadcast are one access each there, and sessions
    are open from the start and do not end.  The
    interleavings inside [apply], inside the pool and between a WATCH and writes
    are in StoreRace.v, PersistRace.v, WritePool.v and WatchRace.v.
    Serialisers, the JWT library, the file system's contents, the
    binding of the address and the clock are parameters; where a theorem needs a law of a codec (that it decodes
    what it encodes) the law is a class or hypothesis, and its witness an instance.

    ** Not modelled

    Metrics and tracing; sockets and the operating system's signals themselves, which
    are events of the model; opening Redis connections; the measuring clients and result
    tables of the benchmark programs, which are clocks, sockets and the formatting of
    floats around the helpers that Bench.v has; the accept and upgrade of a WebSocket, whose
    failure ends a connection as a failed handshake does; the clients and servers in other languages (what a client does
    with a delta is [Module Replica] of Delta.v).  Two nodes that both write one key
    are left to the reordering theorem of Cluster.v: the code orders neither their
    syncs nor their deltas, so that there is no common value to state.  *)

From Stdlib Require Export ZArith Lia Bool.
From Stdlib Require Export Strings.Byte.
From Stdlib Require Strings.Ascii.
From stdpp Require Export base tactics option list gmap strings sorting.
Export Stdlib.Strings.Ascii (ascii(..)).
Export (notations) Stdlib.Strings.Ascii.

#[global] Arguments String.append !_ _ / : simpl nomatch.

(** ** Rust's [Result] and the [?] operator *)

Inductive result (A E : Type) : Type :=
| Ok (a : A)
| Err (e : E).
Arguments Ok {A E} _.
Arguments Err {A E} _.

Definition is_ok {A E} (r : result A E) : bool :=
  match r with Ok _ => true | Err _ => false end.

Definition result_bind {A B E} (r : result A E) (k : A → result B E) : result B E :=
  match r with Ok a => k a | Err e => Err e end.

Declare Scope sodp_scope.
Delimit Scope sodp_scope with sodp.
Open Scope sodp_scope.

Notation "'let?' x ':=' m 'in' k" := (result_bind m (λ x, k))
  (at level 10, x pattern, m at level 100, k at level 200,
   format "'let?'  x  ':='  m  'in' '//' k") : sodp_scope.

(** ** Machine integers

    A Rust [u8]/[u32]/[u64] is a [Z] in its range; wrap-around is written out.
    Release builds of the server (Cargo.toml, [profile.release]) leave
    overflow checks off, so [+= 1] wraps, as the atomic [fetch_add] always does. *)

Definition u32_max : Z := 2 ^ 32 - 1.
Definition u64_max : Z := 2 ^ 64 - 1.
Definition u32_add (a b : Z) : Z := (a + b) mod 2 ^ 32.
Definition u64_add (a b : Z) : Z := (a + b) mod 2 ^ 64.

(** A [u8] is a [Byte.byte]; [as_u8] is the truncating cast [v as u8]. *)
Definition as_u8 (z : Z) : byte :=
  match Byte.of_N (Z.to_N (z mod 256)) with Some b => b | None => x00 end.
Definition u8_val (b : byte) : Z := Z.of_N (Byte.to_N b).

Lemma u8_val_range b : (0 ≤ u8_val b < 256)%Z.
Proof. unfold u8_val. pose proof (Byte.to_N_bounded b). lia. Qed.

Lemma u8_val_as_u8 z : u8_val (as_u8 z) = (z mod 256)%Z.
Proof.
  unfold as_u8, u8_val. pose proof (Z.mod_pos_bound z 256 ltac:(lia)).
  destruct (Byte.of_N (Z.to_N (z mod 256))) as [b|] eqn:Hb.
  - apply Byte.to_of_N in Hb. rewrite Hb. lia.
  - apply Byte.of_N_None_iff in Hb. lia.
Qed.

Lemma as_u8_u8_val b : as_u8 (u8_val b) = b.
Proof.
  unfold as_u8, u8_val. pose proof (Byte.to_N_bounded b).
  rewrite Z.mod_small by lia. rewrite N2Z.id, Byte.of_to_N. done.
Qed.

Lemma u64_add_small a b : (0 ≤ a + b ≤ u64_max → u64_add a b = a + b)%Z.
Proof. unfold u64_add, u64_max. intros. rewrite Z.mod_small; lia. Qed.

Lemma u32_add_small a b : (0 ≤ a + b ≤ u32_max → u32_add a b = a + b)%Z.
Proof. unfold u32_add, u32_max. intros. rewrite Z.mod_small; lia. Qed.

(** ** Automation *)

Create HintDb sodp.

(** Split the first [if]/[match] scrutinee of the goal, keeping its equation. *)
Ltac case_goal :=
  match goal with
  | |- context [match ?x with _ => _ end] => destruct x eqn:?
  end.

(** Replace boolean tests on strings and integers by the facts they decide. *)
Ltac bool_to_prop :=
  repeat match goal with
  | H : String.eqb _ _ = true |- _ => apply String.eqb_eq in H
  | H : String.eqb _ _ = false |- _ => apply String.eqb_neq in H
  | H : Z.eqb _ _ = true |- _ => apply Z.eqb_eq in H
  | H : Z.eqb _ _ = false |- _ => apply Z.eqb_neq in H
  | H : Z.ltb _ _ = true |- _ => apply Z.ltb_lt in H
  | H : Z.ltb _ _ = false |- _ => apply Z.ltb_ge in H
  | H : Z.leb _ _ = true |- _ => apply Z.leb_le in H
  | H : Z.leb _ _ = false |- _ => apply Z.leb_gt in H
  | H : Nat.leb _ _ = true |- _ => apply Nat.leb_le in H
  | H : Nat.leb _ _ = false |- _ => apply Nat.leb_gt in H
  | H : Nat.ltb _ _ = true |- _ => apply Nat.ltb_lt in H
  | H : Nat.ltb _ _ = false |- _ => apply Nat.ltb_ge in H
  | H : Nat.eqb _ _ = true |- _ => apply Nat.eqb_eq in H
  | H : Nat.eqb _ _ = false |- _ => apply Nat.eqb_neq in H
  | H : _ && _ = true |- _ => apply andb_true_iff in H; destruct H
  | H : _ || _ = false |- _ => apply orb_false_iff in H; destruct H
  | H : negb _ = true |- _ => apply negb_true_iff in H
  | H : negb _ = false |- _ => apply negb_false_iff in H
  end.

(** ** Generic list lemmas *)

Section ListLemmas.
Context {A B : Type}.
Implicit Types (l : list A).

Lemma fold_left_app_acc (f : B → A → B) l1 l2 b :
  fold_left f (l1 ++ l2) b = fold_left f l2 (fold_left f l1 b).
Proof. apply fold_left_app. Qed.

Lemma existsb_elem (p : A → bool) l : existsb p l = true ↔ ∃ x, x ∈ l ∧ p x = true.
Proof.
  rewrite existsb_exists. split; intros (x & Hx & Hp); exists x;
    [rewrite list_elem_of_In | rewrite <- list_elem_of_In]; done.
Qed.

Lemma forallb_elem (p : A → bool) l x : forallb p l = true → x ∈ l → p x = true.
Proof. intros Hl Hx. rewrite forallb_forall in Hl. apply Hl. by apply list_elem_of_In. Qed.

Lemma existsb_not_elem (p : A → bool) l :
  existsb p l = false ↔ ∀ x, x ∈ l → p x = false.
Proof.
  split.
  - intros H x Hx. destruct (p x) eqn:Hp; [|done].
    enough (existsb p l = true) by congruence. apply existsb_elem; eauto.
  - intros H. destruct (existsb p l) eqn:E; [|done].
    apply existsb_elem in E as (x & Hx & Hp). rewrite H in Hp; done.
Qed.

Lemma flat_map_nil (f : A → list B) l : (∀ x, x ∈ l → f x = []) → flat_map f l = [].
Proof.
  induction l as [|x l IH]; intros H; [done|]. simpl.
  rewrite (H x) by left. rewrite IH; [done|]. intros y Hy. apply H. by right.
Qed.

Lemma elem_of_flat_map (f : A → list B) l y :
  y ∈ flat_map f l ↔ ∃ x, x ∈ l ∧ y ∈ f x.
Proof.
  rewrite list_elem_of_In, in_flat_map.
  split; intros (x & Hx & Hy); exists x; rewrite !list_elem_of_In in *; done.
Qed.

Lemma flat_map_ext_elem (f g : A → list B) l :
  (∀ x, x ∈ l → f x = g x) → flat_map f l = flat_map g l.
Proof.
  induction l as [|x l IH]; intros H; [done|]. simpl.
  rewrite (H x) by left. rewrite IH; [done|]. intros y Hy. apply H. by right.
Qed.

Lemma fmap_flat_map {C} (g : B → C) (f : A → list B) l :
  g <$> flat_map f l = flat_map (λ x, g <$> f x) l.
Proof. induction l as [|x l IH]; [done|]. simpl. by rewrite fmap_app, IH. Qed.

Lemma find_Some_elem (p : A → bool) l x : List.find p l = Some x → x ∈ l ∧ p x = true.
Proof. intros H. apply find_some in H. rewrite list_elem_of_In. done. Qed.

Lemma find_None_elem (p : A → bool) l : List.find p l = None → ∀ x, x ∈ l → p x = false.
Proof. intros H x Hx. eapply find_none; [done|]. by apply list_elem_of_In. Qed.

End ListLemmas.

(** ** Iteration order of hash maps

    [HashMap] and [DashMap] iterate in an order that no caller may rely on: a
    permutation of the entries, chosen by the implementation. *)

Class HashOrder : Type := {
  hash_iter : ∀ {K V : Type} `{Countable K}, gmap K V → list (K * V);
  hash_iter_perm : ∀ {K V : Type} `{Countable K} (m : gmap K V), hash_iter m ≡ₚ map_to_list m;
}.

Definition map_order : HashOrder := {|
  hash_iter _ _ _ _ m := map_to_list m;
  hash_iter_perm _ _ _ _ m := Permutation_refl (map_to_list m);
|}.

Section HashIter.
Context `{HashOrder} {K V : Type} `{Countable K}.
Implicit Types m : gmap K V.

Lemma elem_of_hash_iter m k v : (k, v) ∈ hash_iter m ↔ m !! k = Some v.
Proof. by rewrite hash_iter_perm, elem_of_map_to_list. Qed.

Lemma NoDup_hash_iter m : NoDup (hash_iter m).*1.
Proof. rewrite hash_iter_perm. apply NoDup_fst_map_to_list. Qed.
End HashIter.
