(* ===== verification/RustStr.v ===== *)
(** * The parts of Rust's [str] the server uses

    A [&str]/[String] is Stdlib's [string], read as the bytes of its UTF-8
    encoding; every separator the code splits on ('.', '/', ':') is ASCII, so
    splitting bytes and splitting characters coincide.  This file models
    [split(char)], [split_once(char)], [contains(char)], [starts_with(char)],
    [trim_start_matches(char)], [strip_prefix] and [strip_suffix], with the
    lemmas about them the other files share. *)

From S2P Require Import Prelude.

Local Open Scope string_scope.

(** The two separators of the protocol as characters. *)
Definition slash : ascii := "/"%char.
Definition dot : ascii := "."%char.
Definition colon : ascii := ":"%char.

(** [s.contains(c)] *)
Fixpoint str_contains (c : ascii) (s : string) : bool :=
  match s with
  | EmptyString => false
  | String a s' => Ascii.eqb a c || str_contains c s'
  end.

(** [s.starts_with(c)] *)
Definition str_starts_with (c : ascii) (s : string) : bool :=
  match s with
  | EmptyString => false
  | String a _ => Ascii.eqb a c
  end.

(** [s.trim_start_matches(c)]: drops every leading [c], not only one. *)
Fixpoint str_trim_start_matches (c : ascii) (s : string) : string :=
  match s with
  | EmptyString => EmptyString
  | String a s' => if Ascii.eqb a c then str_trim_start_matches c s' else s
  end.

(** [s.split(c).collect()]: n separators give n + 1 pieces, empty ones included. *)
Fixpoint str_split (c : ascii) (s : string) : list string :=
  match s with
  | EmptyString => [""]
  | String a s' =>
      if Ascii.eqb a c then "" :: str_split c s'
      else match str_split c s' with
           | [] => [String a ""]
           | p :: ps => String a p :: ps
           end
  end.

(** [s.split_once(c)]: around the first [c]. *)
Fixpoint str_split_once (c : ascii) (s : string) : option (string * string) :=
  match s with
  | EmptyString => None
  | String a s' =>
      if Ascii.eqb a c then Some ("", s')
      else match str_split_once c s' with
           | Some (l, r) => Some (String a l, r)
           | None => None
           end
  end.

(** [s.strip_prefix(p)] *)
Fixpoint str_strip_prefix (p s : string) : option string :=
  match p, s with
  | EmptyString, _ => Some s
  | String a p', String b s' => if Ascii.eqb a b then str_strip_prefix p' s' else None
  | String _ _, EmptyString => None
  end.

(** [s.strip_suffix(p)] *)
Fixpoint str_strip_suffix (p s : string) : option string :=
  if String.eqb s p then Some ""
  else match s with
       | EmptyString => None
       | String a s' => match str_strip_suffix p s' with
                        | Some r => Some (String a r)
                        | None => None
                        end
       end.

(** Pieces glued back with a separator: the specification [str_split] inverts. *)
Fixpoint str_join (c : ascii) (ps : list string) : string :=
  match ps with
  | [] => ""
  | [p] => p
  | p :: ps' => p ++ String c (str_join c ps')
  end.

(** ** Append *)

Lemma str_app_nil_r s : s ++ "" = s.
Proof. induction s; simpl; congruence. Qed.

Lemma str_app_assoc s1 s2 s3 : s1 ++ (s2 ++ s3) = (s1 ++ s2) ++ s3.
Proof. induction s1; simpl; congruence. Qed.

Lemma str_app_cons_ne s c t : s ++ String c t ≠ "".
Proof. destruct s; done. Qed.

#[global] Instance str_app_inj s : Inj (=) (=) (String.append s).
Proof. intros t1 t2. induction s; simpl; [done|]. intros [=]. auto. Qed.

Lemma str_contains_app c s t :
  str_contains c (s ++ t) = str_contains c s || str_contains c t.
Proof. induction s as [|a s IH]; simpl; [done|]. by rewrite IH, orb_assoc. Qed.

(** ** Splitting *)

Lemma str_split_nonempty c s : str_split c s ≠ [].
Proof. destruct s as [|a s]; simpl; [done|]. repeat case_match; done. Qed.

Lemma str_split_cons c s : ∃ p ps, str_split c s = p :: ps.
Proof. destruct (str_split c s) eqn:E; [by apply str_split_nonempty in E|eauto]. Qed.

(** A string without the separator is a single piece. *)
Lemma str_split_single c s : str_contains c s = false → str_split c s = [s].
Proof.
  induction s as [|a s IH]; simpl; [done|]. intros [Ha Hs]%orb_false_iff.
  rewrite Ha, IH; done.
Qed.

(** The first separator ends the first piece. *)
Lemma str_split_app c p s :
  str_contains c p = false → str_split c (p ++ String c s) = p :: str_split c s.
Proof.
  induction p as [|a p IH]; simpl; intros H.
  - by rewrite Ascii.eqb_refl.
  - apply orb_false_iff in H as [Ha Hp]. rewrite Ha, IH; done.
Qed.

Lemma str_split_join c ps :
  ps ≠ [] → Forall (λ p, str_contains c p = false) ps →
  str_split c (str_join c ps) = ps.
Proof.
  intros Hne Hall. induction Hall as [|p ps Hp Hps IH]; [done|].
  destruct ps as [|q ps]; simpl.
  - by apply str_split_single.
  - rewrite str_split_app by done. f_equal. by apply IH.
Qed.

Lemma str_join_split c s : str_join c (str_split c s) = s.
Proof.
  induction s as [|a s IH]; simpl; [done|].
  destruct (str_split_cons c s) as (p & ps & E). rewrite E in *.
  destruct (Ascii.eqb a c) eqn:Ha.
  - apply Ascii.eqb_eq in Ha as ->. simpl. simpl in IH. by rewrite IH.
  - destruct ps as [|q ps]; simpl in *; by rewrite IH.
Qed.

Lemma str_split_pieces c s : Forall (λ p, str_contains c p = false) (str_split c s).
Proof.
  induction s as [|a s IH]; simpl; [by repeat constructor|].
  destruct (Ascii.eqb a c) eqn:Ha; [by constructor|].
  destruct (str_split_cons c s) as (p & ps & E). rewrite E in *.
  apply Forall_cons in IH as [Hp Hps]. constructor; [|done].
  simpl. by rewrite Ha, Hp.
Qed.

#[global] Instance str_split_inj c : Inj (=) (=) (str_split c).
Proof. intros s t E. by rewrite <- (str_join_split c s), E, str_join_split. Qed.

Lemma str_split_once_spec c s l r :
  str_split_once c s = Some (l, r) ↔ s = l ++ String c r ∧ str_contains c l = false.
Proof.
  revert l. induction s as [|a s IH]; intros l; simpl.
  - split; [done|]. intros [H _]. by apply symmetry, str_app_cons_ne in H.
  - destruct (Ascii.eqb a c) eqn:Ha.
    + apply Ascii.eqb_eq in Ha as ->. split.
      * intros [= <- <-]. done.
      * intros [H Hl]. destruct l as [|b l]; simpl in *; [by simplify_eq|].
        injection H as -> _. by rewrite Ascii.eqb_refl in Hl.
    + destruct (str_split_once c s) as [[l' r']|] eqn:E.
      * split.
        -- intros [= <- <-]. destruct (proj1 (IH l') eq_refl) as [-> Hl].
           simpl. rewrite Ha, Hl. done.
        -- intros [H Hl]. destruct l as [|b l]; simpl in *; simplify_eq.
           { by rewrite Ascii.eqb_refl in Ha. }
           apply orb_false_iff in Hl as [_ Hl].
           pose proof (proj2 (IH l) (conj eq_refl Hl)). congruence.
      * split; [done|]. intros [H Hl].
        destruct l as [|b l]; simpl in *; simplify_eq.
        { by rewrite Ascii.eqb_refl in Ha. }
        apply orb_false_iff in Hl as [_ Hl].
        pose proof (proj2 (IH l) (conj eq_refl Hl)). congruence.
Qed.

Lemma str_split_once_contains c s :
  str_contains c s = true ↔ is_Some (str_split_once c s).
Proof.
  induction s as [|a s IH]; simpl.
  - split; [done|]. intros [? [=]].
  - destruct (Ascii.eqb a c); simpl; [split; eauto|]. rewrite IH.
    destruct (str_split_once c s) as [[? ?]|]; split; eauto; intros [? [=]].
Qed.

(** ** Prefix and suffix *)

Lemma str_strip_prefix_app p s : str_strip_prefix p (p ++ s) = Some s.
Proof. induction p as [|a p IH]; simpl; [done|]. by rewrite Ascii.eqb_refl. Qed.

Lemma str_strip_prefix_Some p s r : str_strip_prefix p s = Some r → s = p ++ r.
Proof.
  revert s. induction p as [|a p IH]; intros [|b s]; simpl; try naive_solver.
  destruct (Ascii.eqb a b) eqn:E; [|done]. apply Ascii.eqb_eq in E as ->.
  intros ->%IH. done.
Qed.

Lemma str_length_app s t : String.length (s ++ t) = String.length s + String.length t.
Proof. induction s; simpl; congruence. Qed.

Lemma str_strip_suffix_self p : str_strip_suffix p p = Some "".
Proof.
  transitivity (if String.eqb p p then Some "" else str_strip_suffix p p).
  - destruct p; cbn [str_strip_suffix]; by rewrite String.eqb_refl.
  - by rewrite String.eqb_refl.
Qed.

Lemma str_strip_suffix_app p s : str_strip_suffix p (s ++ p) = Some s.
Proof.
  induction s as [|a s IH]; cbn [String.append].
  - apply str_strip_suffix_self.
  - cbn [str_strip_suffix]. destruct (String.eqb (String a (s ++ p)) p) eqn:E.
    + apply String.eqb_eq in E. apply (f_equal String.length) in E.
      simpl in E. rewrite str_length_app in E. lia.
    + by rewrite IH.
Qed.

Lemma str_trim_start_nonslash c s :
  str_starts_with c s = false → str_trim_start_matches c s = s.
Proof. destruct s; simpl; [done|]. by intros ->. Qed.
