(* ===== verification/Json.v ===== *)
(** * JSON values as the server holds them (serde_json 1.0, default features)

    [Value] has serde_json's constructors.  Without the [preserve_order]
    feature [serde_json::Map] is a [BTreeMap<String, Value>]: an object is an
    association list in strictly increasing byte order of the keys, which is
    also the order the code's loops visit.  [Value]'s [PartialEq] identifies
    the floats [0.0] and [-0.0], so it is coarser than Leibniz equality: it is
    modelled by [value_eqb], characterised by a normal form, and exported as
    stdpp's [≡] with [Proper] instances. *)

From S2P Require Import Prelude.
From Stdlib Require Import OrdersEx.

Local Open Scope string_scope.

(** ** [BTreeMap<String, V>] *)

Module BTree.

Definition key_lt : relation string := String_as_OT.lt.

#[global] Instance key_lt_strict : StrictOrder key_lt := String_as_OT.lt_strorder.

Section BTree.
Context {V : Type}.
Implicit Types (m : list (string * V)) (k j : string).

(** [map.get(k)] *)
Fixpoint bt_get k m : option V :=
  match m with
  | [] => None
  | (k', v) :: m' => if String.eqb k k' then Some v else bt_get k m'
  end.

(** [map.contains_key(k)] *)
Definition bt_contains_key k m : bool :=
  match bt_get k m with Some _ => true | None => false end.

(** [map.insert(k, v)]: at the key's place in the order, replacing its value. *)
Fixpoint bt_insert k (v : V) m : list (string * V) :=
  match m with
  | [] => [(k, v)]
  | (k', v') :: m' =>
      match String_as_OT.compare k k' with
      | Lt => (k, v) :: m
      | Eq => (k, v) :: m'
      | Gt => (k', v') :: bt_insert k v m'
      end
  end.

(** [map.remove(k)] *)
Fixpoint bt_remove k m : list (string * V) :=
  match m with
  | [] => []
  | (k', v') :: m' => if String.eqb k k' then bt_remove k m' else (k', v') :: bt_remove k m'
  end.

(** The representation invariant: strictly increasing keys. *)
Definition bt_sorted m : Prop := StronglySorted key_lt (m.*1).

(** *** Lookup laws *)

Lemma compare_cases k j :
  (String_as_OT.compare k j = Lt ∧ key_lt k j ∧ k ≠ j) ∨
  (String_as_OT.compare k j = Eq ∧ k = j) ∨
  (String_as_OT.compare k j = Gt ∧ key_lt j k ∧ k ≠ j).
Proof.
  destruct (String_as_OT.compare_spec k j) as [H|H|H]; unfold String_as_OT.eq in *.
  - subst. auto.
  - left. split_and!; try done. intros ->. by eapply irreflexivity in H; [|apply _].
  - right; right. split_and!; try done. intros ->. by eapply irreflexivity in H; [|apply _].
Qed.

Lemma bt_get_insert_eq k v m : bt_get k (bt_insert k v m) = Some v.
Proof.
  induction m as [|[k' v'] m IH]; simpl; [by rewrite String.eqb_refl|].
  destruct (compare_cases k k') as [(-> & _)|[(-> & ->)|(-> & _ & Hne)]]; simpl;
    rewrite ?String.eqb_refl; try done.
  apply String.eqb_neq in Hne. by rewrite Hne.
Qed.

Lemma bt_get_insert_ne k j v m : j ≠ k → bt_get j (bt_insert k v m) = bt_get j m.
Proof.
  intros Hj. induction m as [|[k' v'] m IH]; simpl.
  - apply String.eqb_neq in Hj. by rewrite Hj.
  - destruct (compare_cases k k') as [(-> & _)|[(-> & ->)|(-> & _ & Hne)]]; simpl;
      apply String.eqb_neq in Hj; rewrite ?Hj; try done.
    by rewrite IH.
Qed.

Lemma bt_get_insert k j v m :
  bt_get j (bt_insert k v m) = if decide (j = k) then Some v else bt_get j m.
Proof. case_decide; subst; [apply bt_get_insert_eq|by apply bt_get_insert_ne]. Qed.

Lemma bt_get_remove k j m :
  bt_get j (bt_remove k m) = if decide (j = k) then None else bt_get j m.
Proof.
  induction m as [|[k' v'] m IH]; simpl; [by case_decide|].
  destruct (String.eqb k k') eqn:E; bool_to_prop; subst; simpl.
  - rewrite IH. case_decide; [done|]. by rewrite (proj2 (String.eqb_neq _ _)).
  - rewrite IH. destruct (String.eqb j k') eqn:E'; bool_to_prop; [|done].
    subst. by rewrite decide_False.
Qed.

Lemma bt_get_elem k v m : bt_get k m = Some v → (k, v) ∈ m.
Proof.
  induction m as [|[k' v'] m IH]; simpl; [done|].
  destruct (String.eqb k k') eqn:E; bool_to_prop.
  - intros [= ->]. subst. left.
  - right. auto.
Qed.

Lemma bt_get_None k m : bt_get k m = None ↔ k ∉ m.*1.
Proof.
  induction m as [|[k' v'] m IH]; simpl; [set_solver|].
  rewrite not_elem_of_cons.
  destruct (String.eqb k k') eqn:E; bool_to_prop; rewrite ?IH; [|tauto].
  split; [done|]. by intros [? _].
Qed.

Lemma bt_contains_key_spec k m : bt_contains_key k m = true ↔ is_Some (bt_get k m).
Proof. unfold bt_contains_key. destruct (bt_get k m); [by split; eauto|]. by split; [|intros [? ?]]. Qed.

Lemma bt_contains_key_false k m : bt_contains_key k m = false ↔ bt_get k m = None.
Proof. unfold bt_contains_key. by destruct (bt_get k m). Qed.

(** *** Representation invariant *)

Lemma bt_sorted_cons_inv k v m :
  bt_sorted ((k, v) :: m) → bt_sorted m ∧ Forall (key_lt k) (m.*1).
Proof. intros H. by inversion H. Qed.

Lemma bt_sorted_elem k v m : bt_sorted m → (k, v) ∈ m → bt_get k m = Some v.
Proof.
  induction m as [|[k' v'] m IH]; simpl; intros Hs Hin; [set_solver|].
  apply bt_sorted_cons_inv in Hs as [Hs Hlt].
  apply elem_of_cons in Hin as [[= -> ->]|Hin]; [by rewrite String.eqb_refl|].
  rewrite (proj2 (String.eqb_neq k k')); [auto|].
  intros ->. rewrite Forall_forall in Hlt.
  assert (key_lt k' k') as Habs by (apply Hlt, list_elem_of_fmap; by exists (k', v)).
  by eapply irreflexivity in Habs; [|apply _].
Qed.

Lemma bt_keys_insert j k v m : j ∈ (bt_insert k v m).*1 ↔ j = k ∨ j ∈ m.*1.
Proof.
  destruct (decide (j ∈ (bt_insert k v m).*1)) as [H|H].
  - split; [|done]. intros _. destruct (decide (j = k)) as [->|Hne]; [auto|right].
    apply dec_stable. rewrite <- bt_get_None. intros Hn.
    rewrite <- (bt_get_insert_ne k j v m), bt_get_None in Hn by done. done.
  - split; [done|]. rewrite <- bt_get_None, bt_get_insert in H. case_decide; [done|].
    apply bt_get_None in H. naive_solver.
Qed.

Lemma bt_sorted_insert k v m : bt_sorted m → bt_sorted (bt_insert k v m).
Proof.
  induction m as [|[k' v'] m IH]; simpl; intros Hs; [by repeat constructor|].
  pose proof (bt_sorted_cons_inv _ _ _ Hs) as [Hm Hlt].
  destruct (compare_cases k k') as [(-> & Hk & _)|[(-> & ->)|(-> & Hk & _)]].
  - constructor; [done|]. constructor; [done|]. simpl.
    eapply Forall_impl; [done|]. intros x Hx. simpl. by transitivity k'.
  - by constructor.
  - constructor; [by apply IH|]. rewrite Forall_forall in *.
    intros x [->|Hx]%bt_keys_insert; auto.
Qed.

Lemma bt_keys_remove j k m : j ∈ (bt_remove k m).*1 → j ∈ m.*1.
Proof.
  intros H. apply dec_stable. rewrite <- bt_get_None. intros Hn.
  revert H. apply bt_get_None. rewrite bt_get_remove. by case_decide.
Qed.

Lemma bt_sorted_remove k m : bt_sorted m → bt_sorted (bt_remove k m).
Proof.
  induction m as [|[k' v'] m IH]; simpl; intros Hs; [done|].
  pose proof (bt_sorted_cons_inv _ _ _ Hs) as [Hm Hlt].
  case_match; [by apply IH|]. constructor; [by apply IH|].
  rewrite Forall_forall in *. intros x Hx%bt_keys_remove. auto.
Qed.

(** Two well-formed maps with the same lookups are the same map. *)
Lemma bt_ext m1 m2 :
  bt_sorted m1 → bt_sorted m2 → (∀ k, bt_get k m1 = bt_get k m2) → m1 = m2.
Proof.
  revert m2. induction m1 as [|[k1 v1] m1 IH]; intros [|[k2 v2] m2] Hs1 Hs2 Hget.
  - done.
  - specialize (Hget k2). simpl in Hget. by rewrite String.eqb_refl in Hget.
  - specialize (Hget k1). simpl in Hget. by rewrite String.eqb_refl in Hget.
  - apply bt_sorted_cons_inv in Hs1 as [Hs1 Hlt1].
    apply bt_sorted_cons_inv in Hs2 as [Hs2 Hlt2].
    assert (∀ k v, bt_get k m1 = Some v → key_lt k1 k) as Hb1.
    { intros k v Hk. rewrite Forall_forall in Hlt1. apply Hlt1.
      apply list_elem_of_fmap. exists (k, v). split; [done|]. by apply bt_get_elem. }
    assert (∀ k v, bt_get k m2 = Some v → key_lt k2 k) as Hb2.
    { intros k v Hk. rewrite Forall_forall in Hlt2. apply Hlt2.
      apply list_elem_of_fmap. exists (k, v). split; [done|]. by apply bt_get_elem. }
    assert (k1 = k2) as <-.
    { pose proof (Hget k1) as H1. pose proof (Hget k2) as H2. simpl in *.
      rewrite String.eqb_refl in *. rewrite (String.eqb_sym k2 k1) in *.
      destruct (String.eqb k1 k2) eqn:E; bool_to_prop; [done|].
      symmetry in H1. apply Hb2 in H1. apply Hb1 in H2.
      exfalso. eapply (irreflexivity key_lt k1). by transitivity k2. }
    pose proof (Hget k1) as H1. simpl in H1. rewrite String.eqb_refl in H1.
    injection H1 as ->. f_equal. apply IH; [done..|]. intros k.
    specialize (Hget k). simpl in Hget.
    destruct (String.eqb k k1) eqn:E; bool_to_prop; [|done]. subst.
    destruct (bt_get k1 m1) as [v|] eqn:E1.
    { apply Hb1 in E1. by eapply irreflexivity in E1; [|apply _]. }
    destruct (bt_get k1 m2) as [v|] eqn:E2; [|done].
    apply Hb2 in E2. by eapply irreflexivity in E2; [|apply _].
Qed.

Lemma bt_insert_insert k v w m : bt_insert k v (bt_insert k w m) = bt_insert k v m.
Proof.
  induction m as [|[k' v'] m IH]; simpl.
  - destruct (compare_cases k k) as [(_ & _ & ?)|[(-> & _)|(_ & _ & ?)]]; done.
  - destruct (compare_cases k k') as [(E & _)|[(E & ->)|(E & _)]]; rewrite E; simpl;
      rewrite ?E, ?IH; try done.
    destruct (compare_cases k k) as [(_ & _ & ?)|[(-> & _)|(_ & _ & ?)]]; done.
Qed.

Lemma bt_insert_remove k v m : bt_sorted m → bt_insert k v (bt_remove k m) = bt_insert k v m.
Proof.
  intros Hs. apply bt_ext; auto using bt_sorted_insert, bt_sorted_remove.
  intros j. rewrite !bt_get_insert, bt_get_remove. by case_decide.
Qed.

Lemma bt_insert_id k v m : bt_sorted m → bt_get k m = Some v → bt_insert k v m = m.
Proof.
  intros Hs Hk. apply bt_ext; auto using bt_sorted_insert.
  intros j. rewrite bt_get_insert. case_decide; naive_solver.
Qed.

Lemma bt_remove_absent k m : bt_get k m = None → bt_remove k m = m.
Proof.
  induction m as [|[j w] m IH]; [done|]. cbn.
  destruct (String.eqb k j); [done|]. intros H. by rewrite IH.
Qed.

Lemma bt_remove_insert k v m : bt_remove k (bt_insert k v m) = bt_remove k m.
Proof.
  induction m as [|[k' v'] m IH]; simpl; [by rewrite String.eqb_refl|].
  destruct (compare_cases k k') as [(-> & _ & Hne)|[(-> & ->)|(-> & _ & Hne)]]; simpl;
    rewrite ?String.eqb_refl; try done.
  apply String.eqb_neq in Hne. by rewrite Hne, IH.
Qed.

(** Inserting adds at most the new value. *)
Lemma bt_elem_insert k v m kv : kv ∈ bt_insert k v m → kv = (k, v) ∨ kv ∈ m.
Proof.
  induction m as [|[k' v'] m IH]; simpl; [set_solver|].
  destruct (String_as_OT.compare k k'); set_solver.
Qed.

Lemma bt_elem_remove k m kv : kv ∈ bt_remove k m → kv ∈ m.
Proof. induction m as [|[k' v'] m IH]; simpl; [done|]. case_match; set_solver. Qed.

End BTree.

Lemma bt_get_fmap {V W} (f : V → W) k (m : list (string * V)) :
  bt_get k (prod_map id f <$> m) = f <$> bt_get k m.
Proof. induction m as [|[k' v'] m IH]; simpl; [done|]. by case_match. Qed.

Lemma bt_sorted_fmap {V W} (f : V → W) (m : list (string * V)) :
  bt_sorted (prod_map id f <$> m) ↔ bt_sorted m.
Proof. unfold bt_sorted. by rewrite <- list_fmap_compose. Qed.

Lemma bt_insert_fmap {V W} (f : V → W) k v (m : list (string * V)) :
  prod_map id f <$> bt_insert k v m = bt_insert k (f v) (prod_map id f <$> m).
Proof. induction m as [|[k' v'] m IH]; simpl; [done|]. case_match; cbn; rewrite ?IH; done. Qed.

Lemma bt_remove_fmap {V W} (f : V → W) k (m : list (string * V)) :
  prod_map id f <$> bt_remove k m = bt_remove k (prod_map id f <$> m).
Proof. induction m as [|[k' v'] m IH]; simpl; [done|]. case_match; cbn; rewrite ?IH; done. Qed.

End BTree.
Export BTree.

#[export] Hint Resolve bt_sorted_insert bt_sorted_remove : sodp.

(** The invariant as a test, so that concrete values can be checked by evaluation. *)
Fixpoint bt_sortedb {V} (m : list (string * V)) : bool :=
  match m with
  | (k1, _) :: (((k2, _) :: _) as m') =>
      match String_as_OT.compare k1 k2 with Lt => bt_sortedb m' | _ => false end
  | _ => true
  end.

Lemma bt_sortedb_spec {V} (m : list (string * V)) : bt_sortedb m = true ↔ bt_sorted m.
Proof.
  unfold bt_sorted. induction m as [|[k1 v1] m IH]; [by repeat constructor|].
  destruct m as [|[k2 v2] m]; [simpl; split; by repeat constructor|].
  cbn [bt_sortedb]. destruct (compare_cases k1 k2) as [(E & Hlt & _)|[(E & Heq)|(E & Hgt & _)]];
    rewrite E; [rewrite IH|..]; split; try done.
  - intros Hs. constructor; [done|]. inversion Hs as [|? ? ? Hall]; subst.
    constructor; [done|]. eapply Forall_impl; [done|]. intros x Hx. simpl. by transitivity k2.
  - by inversion 1.
  - inversion 1 as [|? ? ? Hall]; subst. inversion Hall as [|? ? Habs]; subst.
    by eapply irreflexivity in Habs; [|apply _].
  - inversion 1 as [|? ? ? Hall]; subst. inversion Hall as [|? ? Habs]; subst.
    exfalso. eapply (irreflexivity key_lt k1). by transitivity k2.
Qed.

(** ** Numbers

    serde_json's [N]: a [u64], a negative [i64], or a finite [f64].  A float is
    its sign and its magnitude bits (exponent and significand), below the bit
    pattern of infinity: [Number::from_f64] refuses infinities and NaN. *)

Inductive Number : Type :=
| PosInt (n : Z)
| NegInt (n : Z)
| Float (neg : bool) (mag : Z).

Definition f64_inf_bits : Z := 9218868437227405312. (* 0x7ff0_0000_0000_0000 *)

Definition wf_number (n : Number) : bool :=
  match n with
  | PosInt n => (0 <=? n)%Z && (n <=? u64_max)%Z
  | NegInt n => (- 2 ^ 63 <=? n)%Z && (n <? 0)%Z
  | Float _ mag => (0 <=? mag)%Z && (mag <? f64_inf_bits)%Z
  end.

(** [PartialEq for N]: floats by IEEE equality, so [0.0 == -0.0]. *)
Definition number_eqb (a b : Number) : bool :=
  match a, b with
  | PosInt m, PosInt n => (m =? n)%Z
  | NegInt m, NegInt n => (m =? n)%Z
  | Float s m, Float t n => (m =? n)%Z && ((m =? 0)%Z || Bool.eqb s t)
  | _, _ => false
  end.

(** [n.is_i64()], [n.is_u64()], [n.is_f64()], [n.as_u64()] *)
Definition number_is_i64 (n : Number) : bool :=
  match n with PosInt n => (n <=? 2 ^ 63 - 1)%Z | NegInt _ => true | Float _ _ => false end.
Definition number_is_u64 (n : Number) : bool :=
  match n with PosInt _ => true | _ => false end.
Definition number_is_f64 (n : Number) : bool :=
  match n with Float _ _ => true | _ => false end.
Definition number_as_u64 (n : Number) : option Z :=
  match n with PosInt n => Some n | _ => None end.

Definition number_norm (n : Number) : Number :=
  match n with
  | Float _ m => if (m =? 0)%Z then Float false 0 else n
  | _ => n
  end.

Lemma number_eqb_norm a b : number_eqb a b = true ↔ number_norm a = number_norm b.
Proof.
  destruct a as [m|m|s m], b as [n|n|t n]; simpl; rewrite ?Z.eqb_eq;
    try (split; [done|]; repeat case_match; congruence); try (split; congruence).
  rewrite andb_true_iff, orb_true_iff, !Z.eqb_eq, eqb_true_iff.
  repeat case_match; bool_to_prop; subst; split; intros; destruct_and?; destruct_or?;
    try congruence; split; try congruence; auto; right; congruence.
Qed.

(** ** Values *)

Unset Elimination Schemes.
Inductive Value : Type :=
| VNull
| VBool (b : bool)
| VNumber (n : Number)
| VString (s : string)
| VArray (l : list Value)
| VObject (m : list (string * Value)).
Set Elimination Schemes.

(** Induction with the hypothesis for every element and every field. *)
Fixpoint value_induction (P : Value → Prop)
  (Hnull : P VNull) (Hbool : ∀ b, P (VBool b)) (Hnum : ∀ n, P (VNumber n))
  (Hstr : ∀ s, P (VString s))
  (Harr : ∀ l, Forall P l → P (VArray l))
  (Hobj : ∀ m, Forall (λ kv, P kv.2) m → P (VObject m)) (v : Value) : P v :=
  let rec := value_induction P Hnull Hbool Hnum Hstr Harr Hobj in
  match v with
  | VNull => Hnull
  | VBool b => Hbool b
  | VNumber n => Hnum n
  | VString s => Hstr s
  | VArray l => Harr l ((fix go l : Forall P l :=
      match l with [] => Forall_nil_2 _ | x :: l' => Forall_cons_2 _ _ _ (rec x) (go l') end) l)
  | VObject m => Hobj m ((fix go m : Forall (λ kv, P kv.2) m :=
      match m with
      | [] => Forall_nil_2 _
      | kv :: m' => Forall_cons_2 _ _ _ (rec kv.2) (go m')
      end) m)
  end.

#[global] Instance Number_eq_dec : EqDecision Number.
Proof. solve_decision. Defined.

(** Syntactic equality of values is decidable. *)
#[global] Instance Value_eq_dec : EqDecision Value.
Proof.
  refine (fix go (x y : Value) {struct x} : Decision (x = y) :=
    match x, y with
    | VNull, VNull => left eq_refl
    | VBool a, VBool b => cast_if (decide (a = b))
    | VNumber a, VNumber b => cast_if (decide (a = b))
    | VString a, VString b => cast_if (decide (a = b))
    | VArray a, VArray b => cast_if (@decide (a = b) (@list_eq_dec Value go a b))
    | VObject a, VObject b => cast_if (@decide (a = b) (@list_eq_dec _ (@prod_eq_dec string _ Value go) a b))
    | _, _ => right _
    end); clear go; abstract congruence.
Defined.

(** [v.get("k")], [v.as_str()], [v.as_u64()], [v.as_array()], [v.as_object()] *)
Definition value_get (k : string) (v : Value) : option Value :=
  match v with VObject m => bt_get k m | _ => None end.
Definition as_str (v : Value) : option string :=
  match v with VString s => Some s | _ => None end.
Definition as_u64 (v : Value) : option Z :=
  match v with VNumber n => number_as_u64 n | _ => None end.
Definition as_array (v : Value) : option (list Value) :=
  match v with VArray l => Some l | _ => None end.
Definition as_object (v : Value) : option (list (string * Value)) :=
  match v with VObject m => Some m | _ => None end.

(** [v.is_null()], [v.is_boolean()], ... *)
Definition is_null (v : Value) : bool := match v with VNull => true | _ => false end.
Definition is_boolean (v : Value) : bool := match v with VBool _ => true | _ => false end.
Definition is_number (v : Value) : bool := match v with VNumber _ => true | _ => false end.
Definition is_string (v : Value) : bool := match v with VString _ => true | _ => false end.
Definition is_array (v : Value) : bool := match v with VArray _ => true | _ => false end.
Definition is_object (v : Value) : bool := match v with VObject _ => true | _ => false end.
Definition is_i64 (v : Value) : bool := match v with VNumber n => number_is_i64 n | _ => false end.
Definition is_u64 (v : Value) : bool := match v with VNumber n => number_is_u64 n | _ => false end.

(** Well-formed values: numbers in range, objects with their keys in order. *)
Fixpoint wf_value (v : Value) : bool :=
  match v with
  | VNumber n => wf_number n
  | VArray l => forallb wf_value l
  | VObject m => bt_sortedb m && forallb (λ kv, wf_value kv.2) m
  | _ => true
  end.

(** [PartialEq for Value] *)
Fixpoint value_eqb (a b : Value) {struct a} : bool :=
  match a, b with
  | VNull, VNull => true
  | VBool x, VBool y => Bool.eqb x y
  | VNumber x, VNumber y => number_eqb x y
  | VString x, VString y => String.eqb x y
  | VArray l, VArray l' =>
      (fix go (l l' : list Value) : bool :=
         match l, l' with
         | [], [] => true
         | x :: l, y :: l' => value_eqb x y && go l l'
         | _, _ => false
         end) l l'
  | VObject m, VObject m' =>
      (fix go (m m' : list (string * Value)) : bool :=
         match m, m' with
         | [], [] => true
         | (k, x) :: m, (k', y) :: m' => String.eqb k k' && value_eqb x y && go m m'
         | _, _ => false
         end) m m'
  | _, _ => false
  end.

(** The normal form of a value: every [-0.0] replaced by [0.0]. *)
Fixpoint value_norm (v : Value) : Value :=
  match v with
  | VNumber n => VNumber (number_norm n)
  | VArray l => VArray (value_norm <$> l)
  | VObject m => VObject (prod_map id value_norm <$> m)
  | _ => v
  end.

#[global] Instance value_equiv : Equiv Value := λ a b, value_norm a = value_norm b.
#[global] Instance value_equivalence : Equivalence (≡@{Value}).
Proof. split; unfold equiv, value_equiv; repeat intro; congruence. Qed.

Lemma value_eqb_equiv a b : value_eqb a b = true ↔ a ≡ b.
Proof.
  unfold equiv, value_equiv. revert b.
  induction a as [|x|x|x|l IH|m IH] using value_induction; intros b; destruct b as [|y|y|y|l'|m'];
    try (split; simpl; congruence).
  - simpl. rewrite eqb_true_iff. split; congruence.
  - simpl. rewrite number_eqb_norm. split; congruence.
  - simpl. rewrite String.eqb_eq. split; congruence.
  - trans (value_norm <$> l = value_norm <$> l'); [|simpl; split; congruence].
    cbn [value_eqb]. revert l'. induction IH as [|x l Hx _ IHl]; intros [|y l']; try (split; done).
    rewrite andb_true_iff, Hx, IHl. simpl.
    split; [intros [? ?]; by f_equal|]. intros [=]. auto.
  - trans (prod_map id value_norm <$> m = prod_map id value_norm <$> m');
      [|simpl; split; congruence].
    cbn [value_eqb]. revert m'.
    induction IH as [|[k x] m Hx _ IHm]; intros [|[k' y] m']; try (split; done).
    rewrite !andb_true_iff, Hx, IHm, String.eqb_eq. simpl.
    split; [intros [[? ?] ?]; f_equal; [by f_equal|done]|]. intros [=]. auto.
Qed.

Lemma value_eqb_refl v : value_eqb v v = true.
Proof. by apply value_eqb_equiv. Qed.

Lemma value_eqb_neq a b : value_eqb a b = false ↔ ¬ a ≡ b.
Proof. rewrite <- value_eqb_equiv. by destruct (value_eqb a b). Qed.

#[global] Instance value_eqb_proper : Proper ((≡) ==> (≡) ==> (=)) value_eqb.
Proof.
  intros a a' Ha b b' Hb. apply eq_true_iff_eq. rewrite !value_eqb_equiv.
  by rewrite Ha, Hb.
Qed.

(** Objects are equal exactly when their lookups are. *)
Lemma object_equiv_ext m1 m2 :
  bt_sorted m1 → bt_sorted m2 →
  (∀ k, value_norm <$> bt_get k m1 = value_norm <$> bt_get k m2) →
  VObject m1 ≡ VObject m2.
Proof.
  intros H1 H2 H. unfold equiv, value_equiv. simpl. f_equal.
  apply bt_ext; rewrite ?bt_sorted_fmap; try done. intros k. by rewrite !bt_get_fmap.
Qed.

Lemma wf_object m :
  wf_value (VObject m) = true ↔ bt_sorted m ∧ ∀ k v, (k, v) ∈ m → wf_value v = true.
Proof.
  simpl. rewrite andb_true_iff, bt_sortedb_spec, forallb_forall. f_equiv. split.
  - intros H k v Hin. by apply (H (k, v)), list_elem_of_In.
  - intros H [k v] Hin. by apply (H k v), list_elem_of_In.
Qed.

Lemma wf_object_get m k v :
  wf_value (VObject m) = true → bt_get k m = Some v → wf_value v = true.
Proof. intros [_ H]%wf_object Hk. eapply H. by apply bt_get_elem. Qed.

Lemma wf_object_insert m k v :
  wf_value (VObject m) = true → wf_value v = true → wf_value (VObject (bt_insert k v m)) = true.
Proof.
  rewrite !wf_object. intros [Hs Hm] Hv. split; [by apply bt_sorted_insert|].
  intros k' v' [[= -> ->]|Hin]%bt_elem_insert; eauto.
Qed.

Lemma wf_object_remove m k :
  wf_value (VObject m) = true → wf_value (VObject (bt_remove k m)) = true.
Proof.
  rewrite !wf_object. intros [Hs Hm]. split; [by apply bt_sorted_remove|].
  intros k' v' Hin%bt_elem_remove. eauto.
Qed.

#[export] Hint Resolve wf_object_insert wf_object_remove wf_object_get : sodp.
