(* ===== verification/JsonPath.v ===== *)
(** * Nested reads and writes of JSON values

    The helper functions at the end of src/src/server.rs: [json_set_in],
    [json_remove_in] and [json_merge], which the CALL methods
    [state.set_in], [state.presence] and [state.patch] apply to the stored
    value.  A path is "/seg/seg/..."; leading slashes are all stripped before
    splitting and segments are not unescaped. *)

From S2P Require Import Prelude RustStr Json.

Local Open Scope string_scope.

(** ** [json_set_in] *)

Fixpoint set_in_recursive (node : Value) (parts : list string) (val : Value) : Value :=
  match parts with
  | [] => val
  | key :: rest =>
      let map := match node with VObject m => m | _ => [] end in
      match rest with
      | [] => VObject (bt_insert key val map)
      | _ =>
          let child := default VNull (bt_get key map) in
          let updated := set_in_recursive child rest val in
          VObject (bt_insert key updated (bt_remove key map))
      end
  end.

(** [path.trim_start_matches('/').split('/').collect()] *)
Definition path_parts (path : string) : list string :=
  str_split slash (str_trim_start_matches slash path).

Definition json_set_in (root : Value) (path : string) (new_val : Value) : result Value string :=
  if String.eqb path "/" then Ok new_val
  else if negb (str_starts_with slash path)
  then Err ("state.set_in: path must start with '/', got '" ++ path ++ "'")
  else Ok (set_in_recursive root (path_parts path) new_val).

(** ** [json_remove_in]

    The recursion is only entered with a non-empty slice ([split] yields at
    least one piece), so the slice is given as its head and tail. *)

Fixpoint remove_in_recursive (node : Value) (part : string) (rest : list string) : Value :=
  match node with
  | VObject map =>
      match rest with
      | [] => VObject (bt_remove part map)
      | next :: rest' =>
          match bt_get part map with
          | Some child =>
              VObject (bt_insert part (remove_in_recursive child next rest') (bt_remove part map))
          | None => VObject (bt_remove part map)
          end
      end
  | other => other
  end.

Definition json_remove_in (root : Value) (path : string) : Value :=
  if String.eqb path "" || String.eqb path "/" then VNull
  else if negb (str_starts_with slash path) then root
  else match path_parts path with
       | part :: rest => remove_in_recursive root part rest
       | [] => root
       end.

(** ** [json_merge] *)

Fixpoint json_merge (base patch : Value) {struct patch} : Value :=
  match base, patch with
  | VObject base_map, VObject patch_map =>
      VObject ((fix go (pm bm : list (string * Value)) : list (string * Value) :=
        match pm with
        | [] => bm
        | (k, v) :: pm' =>
            let existing := default VNull (bt_get k bm) in
            go pm' (bt_insert k (json_merge existing v) (bt_remove k bm))
        end) patch_map base_map)
  | _, patch => patch
  end.

(** ** The writes respect value equality and well-formedness *)

Lemma set_in_recursive_norm node parts val :
  value_norm (set_in_recursive node parts val) =
  set_in_recursive (value_norm node) parts (value_norm val).
Proof.
  revert node. induction parts as [|key rest IH]; intros node; [done|].
  assert (Hm : ∀ m, m = match node with VObject m => m | _ => [] end →
    prod_map id value_norm <$> m = match value_norm node with VObject m => m | _ => [] end)
    by (intros ? ->; by destruct node).
  cbn [set_in_recursive]. remember (match node with VObject m => m | _ => [] end) as m.
  rewrite <- (Hm m eq_refl). destruct rest as [|k rest].
  - cbn [value_norm]. by rewrite bt_insert_fmap.
  - cbn [value_norm]. rewrite bt_insert_fmap, bt_remove_fmap, IH, bt_get_fmap.
    by destruct (bt_get key m).
Qed.

Lemma remove_in_recursive_norm node part rest :
  value_norm (remove_in_recursive node part rest) =
  remove_in_recursive (value_norm node) part rest.
Proof.
  revert node part. induction rest as [|k rest IH]; intros [| | | | |m] part; try done;
    cbn [remove_in_recursive value_norm].
  - by rewrite bt_remove_fmap.
  - rewrite bt_get_fmap. destruct (bt_get part m); cbn [fmap option_fmap option_map value_norm].
    + by rewrite bt_insert_fmap, bt_remove_fmap, IH.
    + by rewrite bt_remove_fmap.
Qed.

#[global] Instance set_in_recursive_proper : Proper ((≡) ==> (=) ==> (≡) ==> (≡)) set_in_recursive.
Proof.
  intros a b Hab p ? <- x y Hxy. unfold equiv, value_equiv in *.
  by rewrite !set_in_recursive_norm, Hab, Hxy.
Qed.

#[global] Instance remove_in_recursive_proper :
  Proper ((≡) ==> (=) ==> (=) ==> (≡)) remove_in_recursive.
Proof.
  intros a b Hab p ? <- ps ? <-. unfold equiv, value_equiv in *.
  by rewrite !remove_in_recursive_norm, Hab.
Qed.

(** ** Reading along a path *)

Fixpoint value_at (parts : list string) (v : Value) : option Value :=
  match parts with
  | [] => Some v
  | key :: rest => value_get key v ≫= value_at rest
  end.

(** Two paths part ways: neither is a prefix of the other. *)
Fixpoint diverges (p q : list string) : bool :=
  match p, q with
  | a :: p', b :: q' => if String.eqb a b then diverges p' q' else true
  | _, _ => false
  end.

(** ** Laws of [json_set_in] *)

Lemma set_in_cons node key rest val :
  set_in_recursive node (key :: rest) val =
  let map := match node with VObject m => m | _ => [] end in
  VObject (bt_insert key (set_in_recursive (default VNull (bt_get key map)) rest val)
             (match rest with [] => map | _ => bt_remove key map end)).
Proof. destruct rest; done. Qed.

Lemma value_get_set_in node key rest val k :
  value_get k (set_in_recursive node (key :: rest) val) =
  if decide (k = key)
  then Some (set_in_recursive (default VNull (value_get key node)) rest val)
  else value_get k node.
Proof.
  rewrite set_in_cons. simpl. rewrite bt_get_insert. case_decide.
  - destruct node; done.
  - destruct rest, node; simpl; rewrite ?bt_get_remove, ?decide_False by done; done.
Qed.

Lemma value_at_set_in parts node val :
  value_at parts (set_in_recursive node parts val) = Some val.
Proof.
  revert node. induction parts as [|key rest IH]; intros node; [done|].
  cbn [value_at]. rewrite value_get_set_in, decide_True by done. simpl. apply IH.
Qed.

Lemma value_at_null p : p ≠ [] → value_at p VNull = None.
Proof. by destruct p. Qed.

Lemma diverges_nonempty p q : diverges p q = true → q ≠ [].
Proof. by destruct p, q. Qed.

Lemma value_at_set_in_diverges parts q node val :
  diverges parts q = true →
  value_at q (set_in_recursive node parts val) = value_at q node.
Proof.
  revert q node. induction parts as [|key rest IH]; intros [|k q] node; [done..|].
  cbn [diverges value_at]. destruct (String.eqb key k) eqn:E; bool_to_prop; intros Hd.
  - subst. rewrite value_get_set_in, decide_True by done. simpl. rewrite IH by done.
    destruct (value_get k node); [done|]. simpl.
    apply value_at_null. by eapply diverges_nonempty.
  - rewrite value_get_set_in, decide_False by done. done.
Qed.

(** Storing what is already there changes nothing. *)
Lemma set_in_same q v x : wf_value v = true → value_at q v = Some x → set_in_recursive v q x = v.
Proof.
  revert v. induction q as [|k q IH]; intros v Hv H; [by injection H as ->|].
  destruct v as [| | | | |m]; try done. cbn in H. destruct (bt_get k m) as [c|] eqn:E; [|done].
  pose proof (proj1 (wf_object _) Hv) as [Hs _]. rewrite set_in_cons. cbv zeta. rewrite E.
  change (default VNull (Some c)) with c.
  rewrite (IH c); [|by eauto with sodp|done].
  destruct q; rewrite ?bt_insert_remove by done; by rewrite bt_insert_id.
Qed.

Lemma set_in_wf parts node val :
  wf_value node = true → wf_value val = true →
  wf_value (set_in_recursive node parts val) = true.
Proof.
  revert node. induction parts as [|key rest IH]; intros node Hn Hv; [done|].
  rewrite set_in_cons. cbv zeta.
  set (map := match node with VObject m => m | _ => [] end).
  assert (wf_value (VObject map) = true) as Hm by (destruct node; done).
  apply wf_object_insert; [destruct rest; auto with sodp|].
  apply IH; [|done]. destruct (bt_get key map) eqn:E; simpl; eauto with sodp.
Qed.

(** Removing what is not there changes nothing. *)
Lemma remove_in_absent p ps v :
  wf_value v = true → value_at (p :: ps) v = None → remove_in_recursive v p ps = v.
Proof.
  revert p v. induction ps as [|p' ps IH]; intros p v Hv H; destruct v as [| | | | |m]; try done;
    cbn in H; pose proof (proj1 (wf_object _) Hv) as [Hs _]; cbn [remove_in_recursive];
    destruct (bt_get p m) as [c|] eqn:E; try done; try by rewrite bt_remove_absent.
  rewrite (IH p' c); [|by eauto with sodp|done]. by rewrite bt_insert_remove, bt_insert_id.
Qed.

(** ** Laws of [json_remove_in] *)

Lemma value_get_remove_in node part rest k :
  value_get k (remove_in_recursive node part rest) =
  if decide (k = part)
  then match rest with
       | [] => None
       | next :: rest' => (λ c, remove_in_recursive c next rest') <$> value_get part node
       end
  else value_get k node.
Proof.
  destruct node as [| | | | |m]; simpl; try (case_decide; destruct rest; done).
  destruct rest as [|next rest']; simpl; [by rewrite bt_get_remove|].
  destruct (bt_get part m) as [c|] eqn:E; simpl.
  - rewrite bt_get_insert, bt_get_remove. by case_decide.
  - rewrite bt_get_remove. by case_decide.
Qed.

Lemma value_at_remove_in node part rest :
  value_at (part :: rest) (remove_in_recursive node part rest) = None.
Proof.
  revert node part. induction rest as [|next rest' IH]; intros node part;
    cbn [value_at]; rewrite value_get_remove_in, decide_True by done; [done|].
  destruct (value_get part node) as [c|]; [|done]. simpl. apply IH.
Qed.

Lemma value_at_remove_in_diverges node part rest q :
  diverges (part :: rest) q = true →
  value_at q (remove_in_recursive node part rest) = value_at q node.
Proof.
  revert node part q. induction rest as [|next rest' IH]; intros node part [|k q]; try done;
    cbn [diverges value_at]; destruct (String.eqb part k) eqn:E; bool_to_prop; intros Hd;
    rewrite value_get_remove_in.
  - done.
  - by rewrite decide_False.
  - subst. rewrite decide_True by done.
    destruct (value_get k node) as [c|]; [|done]. simpl. by apply IH.
  - by rewrite decide_False.
Qed.

Lemma remove_in_wf node part rest :
  wf_value node = true → wf_value (remove_in_recursive node part rest) = true.
Proof.
  revert node part. induction rest as [|next rest' IH]; intros node part Hn;
    destruct node; try done; cbn [remove_in_recursive]; [auto with sodp|].
  case_match; eauto with sodp.
Qed.

(** Writing below a path and removing the path again: what presence relies on. *)
Lemma remove_set_in node part rest val :
  remove_in_recursive (set_in_recursive node (part :: rest) val) part rest =
  remove_in_recursive (set_in_recursive node (part :: rest) VNull) part rest.
Proof.
  revert node part. induction rest as [|next rest' IH]; intros node part;
    rewrite !set_in_cons; cbv zeta; cbn [remove_in_recursive].
  - by rewrite !bt_remove_insert.
  - by rewrite !bt_get_insert_eq, !bt_remove_insert, IH.
Qed.

(** ** Laws of [json_merge] *)

(** The loop of [json_merge] over the patch's fields, as a function of its own. *)
Fixpoint merge_fields (pm bm : list (string * Value)) : list (string * Value) :=
  match pm with
  | [] => bm
  | (k, v) :: pm' =>
      merge_fields pm' (bt_insert k (json_merge (default VNull (bt_get k bm)) v) (bt_remove k bm))
  end.

Lemma json_merge_object bm pm :
  json_merge (VObject bm) (VObject pm) = VObject (merge_fields pm bm).
Proof. reflexivity. Qed.

Lemma json_merge_other base patch :
  is_object base && is_object patch = false → json_merge base patch = patch.
Proof. by destruct base, patch. Qed.

Lemma merge_fields_sorted pm bm : bt_sorted bm → bt_sorted (merge_fields pm bm).
Proof. revert bm. induction pm as [|[k v] pm IH]; intros bm Hb; simpl; auto with sodp. Qed.

Lemma merge_fields_get pm bm k :
  bt_sorted pm →
  bt_get k (merge_fields pm bm) =
  match bt_get k pm with
  | Some v => Some (json_merge (default VNull (bt_get k bm)) v)
  | None => bt_get k bm
  end.
Proof.
  revert bm. induction pm as [|[k' v'] pm IH]; intros bm Hs; [done|].
  pose proof (bt_sorted_cons_inv _ _ _ Hs) as [Hs' Hlt]. cbn [merge_fields]. rewrite IH by done.
  rewrite bt_get_insert, bt_get_remove. simpl.
  destruct (String.eqb k k') eqn:E; bool_to_prop; subst.
  - rewrite decide_True by done. enough (bt_get k' pm = None) as -> by done.
    apply bt_get_None. rewrite Forall_forall in Hlt. intros Hin%Hlt.
    by eapply irreflexivity in Hin; [|apply _].
  - by rewrite !decide_False.
Qed.

(** Patching a non-object with an object is patching the empty object. *)
Lemma json_merge_as_object base pm :
  bt_sorted pm →
  json_merge base (VObject pm) =
  VObject (merge_fields pm (match base with VObject m => m | _ => [] end)).
Proof.
  intros Hs. destruct base as [| | | | |bm]; [..|done].
  all: rewrite json_merge_other by done; f_equal; symmetry.
  all: apply bt_ext; [by apply merge_fields_sorted; constructor|done|].
  all: intros k; rewrite merge_fields_get by done; simpl; by destruct (bt_get k pm) as [[]|].
Qed.

Lemma merge_fields_wf pm bm :
  (∀ k v, (k, v) ∈ pm → ∀ base, wf_value base = true → wf_value (json_merge base v) = true) →
  wf_value (VObject bm) = true → wf_value (VObject (merge_fields pm bm)) = true.
Proof.
  revert bm. induction pm as [|[k v] pm IH]; intros bm Hpm Hb; [done|].
  cbn [merge_fields]. apply IH; [set_solver|]. apply wf_object_insert; [auto with sodp|].
  apply (Hpm k); [set_solver|]. destruct (bt_get k bm) eqn:E; simpl; eauto with sodp.
Qed.

Lemma json_merge_wf base patch :
  wf_value base = true → wf_value patch = true → wf_value (json_merge base patch) = true.
Proof.
  revert base. induction patch as [| | | | |pm IH] using value_induction; intros base Hb Hp;
    try by rewrite json_merge_other by apply andb_false_r.
  destruct base as [| | | | |bm]; try done. rewrite json_merge_object.
  rewrite Forall_forall in IH. pose proof (proj1 (wf_object _) Hp) as [_ Hfields].
  apply merge_fields_wf; [|done]. intros k v Hin base Hbase. eapply (IH (k, v)); eauto.
Qed.

(** ** Properties *)

(** The segments an operation on [path] addresses: none for the root. *)
Definition target_parts (path : string) : list string :=
  if String.eqb path "/" then [] else path_parts path.

(** [json_set_in] on every branch: a path that is neither "/" nor starts
    with '/' is an error; otherwise the result holds the new value at the path,
    every path that parts ways with it reads what it read before (missing
    intermediate objects are created, nothing else appears), and the
    well-formedness of objects is kept. *)
Theorem json_set_in_correct root path v :
  match json_set_in root path v with
  | Ok r =>
      value_at (target_parts path) r = Some v ∧
      (∀ q, diverges (target_parts path) q = true → value_at q r = value_at q root) ∧
      (wf_value root = true → wf_value v = true → wf_value r = true)
  | Err _ => str_starts_with slash path = false
  end.
Proof.
  unfold json_set_in, target_parts. destruct (String.eqb path "/") eqn:E.
  - split_and!; try done.
  - destruct (str_starts_with slash path); [|done]. simpl.
    split_and!; eauto using value_at_set_in, value_at_set_in_diverges, set_in_wf.
Qed.

(** Presence registers a path with [json_set_in] and gives it back with
    [json_remove_in] when the session ends: afterwards nothing is left at the
    path, and every path that parts ways with it reads as before the
    registration. *)
Theorem presence_set_remove root path v r :
  json_set_in root path v = Ok r → path ≠ "/" →
  value_at (target_parts path) (json_remove_in r path) = None ∧
  ∀ q, diverges (target_parts path) q = true →
       value_at q (json_remove_in r path) = value_at q root.
Proof.
  unfold json_set_in, json_remove_in, target_parts. intros Hset Hne.
  rewrite (proj2 (String.eqb_neq _ _) Hne) in *. rewrite orb_false_r.
  destruct (str_starts_with slash path) eqn:Hs; [|done]. simpl in *. injection Hset as <-.
  destruct (String.eqb path "") eqn:E; bool_to_prop; [by subst|].
  destruct (str_split_cons slash (str_trim_start_matches slash path)) as (part & rest & Hp).
  unfold path_parts. rewrite Hp. split; [apply value_at_remove_in|].
  intros q Hq. rewrite value_at_remove_in_diverges by done.
  by apply value_at_set_in_diverges.
Qed.

Lemma presence_set_remove_witness :
  value_at ["users"; "alice"]
    (json_remove_in (VObject [("users", VObject [("alice", VNull)])]) "/users/alice") = None.
Proof.
  refine (proj1 (presence_set_remove VNull "/users/alice" VNull
           (VObject [("users", VObject [("alice", VNull)])]) eq_refl _)). done.
Defined.

(** [json_merge] field by field: a field of the patch is merged recursively
    into the base's field (or [null] when absent), every other field of the
    base is kept, no field is ever dropped; when either side is not an object
    the patch replaces the base. *)
Theorem json_merge_fields base patch k :
  wf_value patch = true →
  value_get k (json_merge base patch) =
  match value_get k patch with
  | Some v => Some (json_merge (default VNull (value_get k base)) v)
  | None => if is_object patch then value_get k base else None
  end.
Proof.
  intros Hp. destruct (is_object patch) eqn:Eo.
  - destruct patch as [| | | | |pm]; try done. apply wf_object in Hp as [Hs _].
    rewrite json_merge_as_object by done. simpl. rewrite merge_fields_get by done.
    by destruct base.
  - rewrite json_merge_other by (rewrite Eo; apply andb_false_r). by destruct patch.
Qed.

Lemma json_merge_fields_witness :
  value_get "a" (json_merge (VObject [("a", VObject [("x", VNull)])])
                   (VObject [("a", VObject [("y", VBool true)])])) =
  Some (VObject [("x", VNull); ("y", VBool true)]).
Proof.
  rewrite (json_merge_fields _ (VObject [("a", VObject [("y", VBool true)])]) "a" eq_refl).
  reflexivity.
Defined.

(** Applying the same patch twice is applying it once, so a retried
    [state.patch] produces no further change. *)
Theorem json_merge_idempotent base patch :
  wf_value base = true → wf_value patch = true →
  json_merge (json_merge base patch) patch = json_merge base patch.
Proof.
  revert base. induction patch as [| | | | |pm IH] using value_induction; intros base Hb Hp;
    try by rewrite !json_merge_other by apply andb_false_r.
  rewrite Forall_forall in IH. pose proof (proj1 (wf_object _) Hp) as [Hs Hfields].
  assert (∀ bm, wf_value (VObject bm) = true →
          merge_fields pm (merge_fields pm bm) = merge_fields pm bm) as Habs.
  { intros bm Hbm. pose proof (proj1 (wf_object _) Hbm) as [Hsb _].
    apply bt_ext; auto using merge_fields_sorted.
    intros k. rewrite !merge_fields_get by done.
    destruct (bt_get k pm) as [v|] eqn:E; [|done]. f_equal. simpl.
    apply (IH (k, v) (bt_get_elem _ _ _ E)).
    - destruct (bt_get k bm) eqn:E'; simpl; eauto with sodp.
    - simpl. eauto with sodp. }
  rewrite (json_merge_as_object base pm), json_merge_object by done. f_equal.
  apply Habs. by destruct base.
Qed.

Lemma json_merge_idempotent_witness :
  let b := VObject [("a", VNumber (PosInt 1))] in
  let p := VObject [("a", VObject [("x", VNull)]); ("b", VNull)] in
  json_merge (json_merge b p) p = VObject [("a", VObject [("x", VNull)]); ("b", VNull)].
Proof. intros b p. rewrite (json_merge_idempotent b p eq_refl eq_refl). reflexivity. Defined.
