(* ===== verification/Delta.v ===== *)
(** * Structural diff (src/src/delta.rs)

    [diff old new] is the list of ADD/UPDATE/REMOVE operations the server
    sends to the watchers of a key instead of the new value.  The file models
    [DeltaOp], [diff], [diff_at] and [join_path], states what a replica does
    with an operation ([Replica.apply_op], SPECIFICATION.md section 7.3, for
    the object paths the diff emits), and proves that a replica that applies a
    diff to the old value holds the new one. *)

From S2P Require Import Prelude RustStr Json JsonPath.

Local Open Scope string_scope.

(** ** Data *)

Inductive DeltaOpKind : Type := Add | Update | Remove.

Record DeltaOp : Type := mkDeltaOp {
  op : DeltaOpKind;
  op_path : string;
  op_value : option Value;
}.

#[global] Instance DeltaOpKind_eq_dec : EqDecision DeltaOpKind.
Proof. solve_decision. Defined.
#[global] Instance DeltaOp_eq_dec : EqDecision DeltaOp.
Proof. solve_decision. Defined.

(** [DeltaOp::add], [DeltaOp::update], [DeltaOp::remove] *)
Definition delta_add (path : string) (v : Value) : DeltaOp := mkDeltaOp Add path (Some v).
Definition delta_update (path : string) (v : Value) : DeltaOp := mkDeltaOp Update path (Some v).
Definition delta_remove (path : string) : DeltaOp := mkDeltaOp Remove path None.

(** ** [diff] *)

Definition join_path (base key : string) : string :=
  if String.eqb base "/" then "/" ++ key else base ++ "/" ++ key.

(** The operations [diff_at] pushes, in order.  The recursion is on [new]: the
    loop visits the new object's fields and descends into their values. *)
Fixpoint diff_at (path : string) (old new : Value) {struct new} : list DeltaOp :=
  match old, new with
  | VObject old_map, VObject new_map =>
      ((fix go (nm : list (string * Value)) : list DeltaOp :=
         match nm with
         | [] => []
         | (key, new_val) :: nm' =>
             let child := join_path path key in
             (match bt_get key old_map with
              | None => [delta_add child new_val]
              | Some old_val =>
                  if negb (value_eqb old_val new_val) then
                    if is_object old_val && is_object new_val
                    then diff_at child old_val new_val
                    else [delta_update child new_val]
                  else []
              end ++ go nm')%list
         end) new_map
       ++ flat_map (λ kv, if negb (bt_contains_key kv.1 new_map)
                          then [delta_remove (join_path path kv.1)] else []) old_map)%list
  | _, _ => if negb (value_eqb old new) then [delta_update path new] else []
  end.

Definition diff (old new : Value) : list DeltaOp := diff_at "/" old new.

(** ** What a replica does with an operation *)

Module Replica.

(** "/" addresses the root; otherwise the segments after the first slash. *)
Definition parse_path (path : string) : list string :=
  if String.eqb path "/" then []
  else match path with
       | EmptyString => []
       | String _ rest => str_split slash rest
       end.

(** ADD and UPDATE store the value at the path, creating intermediate objects;
    REMOVE deletes the field, and at the root leaves no value ([null]). *)
Definition apply_op (v : Value) (o : DeltaOp) : Value :=
  match op o, op_value o with
  | Remove, _ =>
      match parse_path (op_path o) with
      | [] => VNull
      | p :: ps => remove_in_recursive v p ps
      end
  | _, Some x => set_in_recursive v (parse_path (op_path o)) x
  | _, None => v
  end.

Definition apply_ops (v : Value) (ops : list DeltaOp) : Value := fold_left apply_op ops v.

Lemma apply_ops_app v ops1 ops2 : apply_ops v (ops1 ++ ops2) = apply_ops (apply_ops v ops1) ops2.
Proof. apply fold_left_app. Qed.

#[global] Instance apply_op_proper : Proper ((≡) ==> (=) ==> (≡)) apply_op.
Proof.
  intros a b Hab o ? <-. unfold apply_op. by repeat case_match; rewrite ?Hab.
Qed.

#[global] Instance apply_ops_proper : Proper ((≡) ==> (=) ==> (≡)) apply_ops.
Proof.
  intros a b Hab ops ? <-. revert a b Hab. induction ops as [|o ops IH]; intros a b Hab; [done|].
  cbn. apply IH. by rewrite Hab.
Qed.

End Replica.

(** ** Key names a path can carry

    Keys are joined into paths without escaping.  A key that contains '/' or a
    top-level empty key gives a path that addresses something else; the
    round-trip theorem is about values without such keys. *)

Definition key_ok (k : string) : bool := negb (str_contains slash k).

Fixpoint keys_ok (v : Value) : bool :=
  match v with
  | VObject m => forallb (λ kv, key_ok kv.1 && keys_ok kv.2) m
  | _ => true
  end.

Definition pointer_safe (v : Value) : bool :=
  keys_ok v && match value_get "" v with Some _ => false | None => true end.

Lemma keys_ok_norm v : keys_ok (value_norm v) = keys_ok v.
Proof.
  induction v as [| | | | |m IH] using value_induction; try done. cbn [value_norm keys_ok].
  induction IH as [|[k x] m Hx _ IHm]; [done|]. cbn in *. by rewrite Hx, IHm.
Qed.

#[global] Instance pointer_safe_proper : Proper ((≡) ==> (=)) pointer_safe.
Proof.
  assert (Hn : ∀ v, pointer_safe (value_norm v) = pointer_safe v).
  { intros v. unfold pointer_safe. rewrite keys_ok_norm. f_equal.
    destruct v; try done. cbn. rewrite bt_get_fmap. by destruct (bt_get "" _). }
  intros a b Hab. unfold equiv, value_equiv in Hab. by rewrite <- (Hn a), <- (Hn b), Hab.
Qed.

(** ** The diff with structured, relative paths *)

Module Rel.

Abbreviation rop := (DeltaOpKind * list string * option Value)%type.

Definition under (k : string) (o : rop) : rop := let '(d, q, x) := o in (d, k :: q, x).

Fixpoint diff_rel (old new : Value) {struct new} : list rop :=
  match old, new with
  | VObject old_map, VObject new_map =>
      ((fix go (nm : list (string * Value)) : list rop :=
         match nm with
         | [] => []
         | (key, new_val) :: nm' =>
             (match bt_get key old_map with
              | None => [(Add, [key], Some new_val)]
              | Some old_val =>
                  if negb (value_eqb old_val new_val) then
                    if is_object old_val && is_object new_val
                    then under key <$> diff_rel old_val new_val
                    else [(Update, [key], Some new_val)]
                  else []
              end ++ go nm')%list
         end) new_map
       ++ flat_map (λ kv, if negb (bt_contains_key kv.1 new_map)
                          then [(Remove, [kv.1], None)] else []) old_map)%list
  | _, _ => if negb (value_eqb old new) then [(Update, [], Some new)] else []
  end.

(** One field of the first loop, and the two loops, as functions. *)
Definition field_ops (om : list (string * Value)) (key : string) (nv : Value) : list rop :=
  match bt_get key om with
  | None => [(Add, [key], Some nv)]
  | Some ov =>
      if negb (value_eqb ov nv) then
        if is_object ov && is_object nv then under key <$> diff_rel ov nv
        else [(Update, [key], Some nv)]
      else []
  end.

Definition removed_ops (om nm : list (string * Value)) : list rop :=
  flat_map (λ kv, if negb (bt_contains_key kv.1 nm) then [(Remove, [kv.1], None)] else []) om.

Definition rapply (v : Value) (o : rop) : Value :=
  match o with
  | (Remove, [], _) => VNull
  | (Remove, p :: ps, _) => remove_in_recursive v p ps
  | (_, q, Some x) => set_in_recursive v q x
  | (_, _, None) => v
  end.

Definition rapplys (v : Value) (ops : list rop) : Value := fold_left rapply ops v.

Lemma diff_rel_object om nm :
  diff_rel (VObject om) (VObject nm) =
  (flat_map (λ kv, field_ops om kv.1 kv.2) nm ++ removed_ops om nm)%list.
Proof.
  cbn [diff_rel]. f_equal. induction nm as [|[k nv] nm IH]; [done|].
  cbn [flat_map]. by rewrite <- IH.
Qed.

Lemma diff_rel_other old new :
  is_object old && is_object new = false →
  diff_rel old new = if negb (value_eqb old new) then [(Update, [], Some new)] else [].
Proof. by destruct old, new. Qed.

(** Operations between two objects never address the root. *)
Lemma diff_rel_paths_nonempty old new d q x :
  is_object old = true → is_object new = true → (d, q, x) ∈ diff_rel old new → q ≠ [].
Proof.
  intros Ho Hn. destruct old, new; try done. rewrite diff_rel_object, elem_of_app.
  unfold removed_ops. rewrite !list_elem_of_In, !in_flat_map. intros [([k v] & _ & H)|([k v] & _ & H)];
    apply list_elem_of_In in H; [unfold field_ops in H|]; repeat case_match; simpl in *;
    try rewrite list_elem_of_fmap in H; try set_solver.
  destruct H as ([[d' q'] x'] & [= -> -> ->] & _). done.
Qed.

(** *** Applying operations below a key *)

Lemma rapply_under k d q x m c :
  bt_sorted m → bt_get k m = Some c → q ≠ [] →
  rapply (VObject m) (under k (d, q, x)) = VObject (bt_insert k (rapply c (d, q, x)) m).
Proof.
  intros Hs Hk Hq. destruct q as [|q0 q]; [done|].
  assert (∀ v, set_in_recursive (VObject m) (k :: q0 :: q) v =
          VObject (bt_insert k (set_in_recursive c (q0 :: q) v) m)) as Hset.
  { intros v. rewrite set_in_cons. cbv zeta. rewrite Hk. simpl default.
    by rewrite bt_insert_remove. }
  destruct d, x; cbn -[set_in_recursive]; rewrite ?Hset, ?Hk, ?bt_insert_remove by done;
    rewrite ?(bt_insert_id _ _ _ Hs Hk); done.
Qed.

Lemma rapplys_under k ops m c :
  bt_sorted m → bt_get k m = Some c → (∀ d q x, (d, q, x) ∈ ops → q ≠ []) →
  rapplys (VObject m) (under k <$> ops) = VObject (bt_insert k (rapplys c ops) m).
Proof.
  revert m c. induction ops as [|[[d q] x] ops IH]; intros m c Hs Hk Hq.
  - simpl. by rewrite bt_insert_id.
  - cbn [fmap list_fmap]. unfold rapplys in *. cbn [fold_left].
    rewrite (rapply_under k d q x m c) by (eauto; set_solver).
    rewrite (IH _ (rapply c (d, q, x)));
      [by rewrite bt_insert_insert|by apply bt_sorted_insert|apply bt_get_insert_eq|set_solver].
Qed.

(** *** The loops *)

(** The invariant of the first loop: the fields visited have their new value,
    the others what they had. *)
Lemma apply_field_ops om k nv m :
  (∀ old, wf_value old = true → wf_value nv = true → rapplys old (diff_rel old nv) ≡ nv) →
  wf_value (VObject om) = true → wf_value nv = true →
  bt_sorted m → bt_get k m = bt_get k om →
  ∃ m', rapplys (VObject m) (field_ops om k nv) = VObject m' ∧ bt_sorted m' ∧
        (∃ v, bt_get k m' = Some v ∧ v ≡ nv) ∧ ∀ j, j ≠ k → bt_get j m' = bt_get j m.
Proof.
  intros IH Hom Hnv Hs Hk. unfold field_ops.
  assert (∀ v, v ≡ nv → ∃ m', VObject (bt_insert k v m) = VObject m' ∧ bt_sorted m' ∧
    (∃ v, bt_get k m' = Some v ∧ v ≡ nv) ∧ ∀ j, j ≠ k → bt_get j m' = bt_get j m) as Hins.
  { intros v Hv. eexists; split_and!; [done|by apply bt_sorted_insert|..].
    - eexists; split; [apply bt_get_insert_eq|done].
    - intros j Hj. by apply bt_get_insert_ne. }
  destruct (bt_get k om) as [ov|] eqn:E; [|by apply (Hins nv)].
  destruct (value_eqb ov nv) eqn:Eq; simpl.
  - apply value_eqb_equiv in Eq. eexists; split_and!; eauto.
  - destruct (is_object ov && is_object nv) eqn:Eo; [|by apply (Hins nv)].
    apply andb_true_iff in Eo as [Eo En].
    rewrite (rapplys_under k _ m ov) by eauto using diff_rel_paths_nonempty.
    apply Hins, IH; eauto with sodp.
Qed.

Lemma apply_field_loop om nm m :
  (∀ k nv, (k, nv) ∈ nm → ∀ old, wf_value old = true → wf_value nv = true →
           rapplys old (diff_rel old nv) ≡ nv) →
  (∀ k nv, (k, nv) ∈ nm → wf_value nv = true) →
  wf_value (VObject om) = true → bt_sorted nm →
  bt_sorted m → (∀ k, is_Some (bt_get k nm) → bt_get k m = bt_get k om) →
  ∃ m', rapplys (VObject m) (flat_map (λ kv, field_ops om kv.1 kv.2) nm) = VObject m' ∧
        bt_sorted m' ∧
        ∀ k, match bt_get k nm with
             | Some nv => ∃ v, bt_get k m' = Some v ∧ v ≡ nv
             | None => bt_get k m' = bt_get k m
             end.
Proof.
  revert m. induction nm as [|[k nv] nm IHn]; intros m IH Hwf Hom Hnm Hs Hget.
  { simpl. eauto. }
  pose proof (bt_sorted_cons_inv _ _ _ Hnm) as [Hnm' Hlt].
  assert (bt_get k nm = None) as Hknm.
  { apply bt_get_None. rewrite Forall_forall in Hlt. intros Hin%Hlt.
    by eapply irreflexivity in Hin; [|apply _]. }
  assert (bt_get k m = bt_get k om) as Hkm.
  { apply Hget. simpl. rewrite String.eqb_refl. eauto. }
  destruct (apply_field_ops om k nv m) as (m1 & Happ & Hs1 & Hk1 & Ho1);
    [apply (IH k); left|done|apply (Hwf k); left|done..|].
  destruct (IHn m1) as (m2 & Happ2 & Hs2 & Hget2);
    [intros j v Hin; apply (IH j); by right|intros j v Hin; apply (Hwf j); by right|done..| |].
  { intros j Hj. assert (j ≠ k) as Hne by (intros ->; rewrite Hknm in Hj; by destruct Hj).
    rewrite Ho1 by done. apply Hget. simpl. rewrite (proj2 (String.eqb_neq _ _) Hne). done. }
  exists m2. split_and!; [|done|].
  { cbn [flat_map]. unfold rapplys in *. rewrite fold_left_app. simpl fst; simpl snd.
    by rewrite Happ. }
  intros j. specialize (Hget2 j). simpl.
  destruct (String.eqb j k) eqn:E; bool_to_prop; subst.
  - rewrite Hknm in Hget2. by rewrite Hget2.
  - destruct (bt_get j nm); [done|]. by rewrite Hget2, Ho1.
Qed.

Lemma apply_removed_loop om nm m :
  bt_sorted m →
  ∃ m', rapplys (VObject m) (removed_ops om nm) = VObject m' ∧ bt_sorted m' ∧
        ∀ k, bt_get k m' = match bt_get k nm with
                           | Some _ => bt_get k m
                           | None => match bt_get k om with
                                     | Some _ => None
                                     | None => bt_get k m
                                     end
                           end.
Proof.
  revert m. induction om as [|[k ov] om IH]; intros m Hs.
  { exists m. split_and!; [done..|]. intros j. by destruct (bt_get j nm). }
  unfold removed_ops, rapplys in *. cbn [flat_map]. rewrite fold_left_app. simpl fst.
  destruct (bt_contains_key k nm) eqn:Ek;
    cbn [negb fold_left rapply remove_in_recursive].
  - destruct (IH m Hs) as (m' & -> & Hs' & Hget). exists m'. split_and!; [done..|].
    apply bt_contains_key_spec in Ek as [v Hv].
    intros j. rewrite Hget. cbn [bt_get].
    destruct (String.eqb j k) eqn:E; bool_to_prop; [|done]. subst. by rewrite Hv.
  - destruct (IH (bt_remove k m)) as (m' & -> & Hs' & Hget); [by apply bt_sorted_remove|].
    exists m'. split_and!; [done..|]. intros j. rewrite Hget, bt_get_remove.
    cbn [bt_get]. apply bt_contains_key_false in Ek.
    destruct (String.eqb j k) eqn:E; bool_to_prop; subst.
    + rewrite Ek, decide_True by done. by destruct (bt_get k om).
    + by rewrite decide_False.
Qed.

(** The round trip, on structured paths. *)
Lemma rapplys_diff_rel old new :
  wf_value old = true → wf_value new = true → rapplys old (diff_rel old new) ≡ new.
Proof.
  revert old. induction new as [| | | | |nm IH] using value_induction; intros old Ho Hn;
    try (rewrite diff_rel_other by apply andb_false_r;
         destruct (value_eqb old _) eqn:E; [by apply value_eqb_equiv|done]).
  destruct old as [| | | | |om]; try done.
  rewrite Forall_forall in IH. pose proof (proj1 (wf_object _) Hn) as [Hsn Hwn].
  pose proof (proj1 (wf_object _) Ho) as [Hso _].
  rewrite diff_rel_object. unfold rapplys. rewrite fold_left_app.
  destruct (apply_field_loop om nm om) as (m1 & H1 & Hs1 & Hg1); [|done..|].
  { intros k nv Hin o Hwo Hwv. by apply (IH (k, nv)). }
  unfold rapplys in H1. rewrite H1.
  destruct (apply_removed_loop om nm m1 Hs1) as (m2 & H2 & Hs2 & Hg2).
  unfold rapplys in H2. rewrite H2.
  apply object_equiv_ext; [done..|]. intros k. rewrite Hg2. specialize (Hg1 k).
  destruct (bt_get k nm) as [nv|]; [destruct Hg1 as (v & -> & Hv); simpl; by f_equal|].
  destruct (bt_get k om) eqn:E; by rewrite ?Hg1.
Qed.

(** Equal values have an empty diff. *)
Lemma diff_rel_equiv old new : wf_value new = true → old ≡ new → diff_rel old new = [].
Proof.
  intros Hwf H. assert (value_eqb old new = true) as E by by apply value_eqb_equiv.
  destruct (is_object old && is_object new) eqn:Eo; [|by rewrite diff_rel_other, E].
  destruct old as [| | | | |om], new as [| | | | |nm]; try done.
  assert (∀ k, value_norm <$> bt_get k om = value_norm <$> bt_get k nm) as Hg.
  { intros k. unfold equiv, value_equiv in H. simpl in H. injection H as H.
    by rewrite <- !bt_get_fmap, H. }
  apply wf_object in Hwf as [Hsn _]. rewrite diff_rel_object.
  assert (∀ k nv, (k, nv) ∈ nm → field_ops om k nv = []) as Hf.
  { intros k nv Hin%bt_sorted_elem; [|done]. specialize (Hg k). rewrite Hin in Hg.
    unfold field_ops. destruct (bt_get k om) as [ov|]; [|done].
    injection Hg as Hg. by rewrite (proj2 (value_eqb_equiv ov nv) Hg). }
  assert (∀ k ov, (k, ov) ∈ om → bt_contains_key k nm = true) as Hr.
  { intros k ov Hin. apply bt_contains_key_spec. specialize (Hg k).
    destruct (bt_get k nm) eqn:En; [eauto|].
    destruct (bt_get k om) eqn:Eo'; [done|]. apply bt_get_None in Eo'.
    exfalso. apply Eo', list_elem_of_fmap. by exists (k, ov). }
  unfold removed_ops. rewrite !flat_map_nil; [done|..].
  - intros [k ov] Hin. simpl. by rewrite (Hr k ov).
  - intros [k nv] Hin. by apply Hf.
Qed.

(** *** Every operation states a fact about the two values *)

Definition justified (old new : Value) (o : rop) : Prop :=
  match o with
  | (Add, q, Some v) => value_at q old = None ∧ value_at q new = Some v
  | (Update, q, Some v) => ∃ w, value_at q old = Some w ∧ value_at q new = Some v ∧ ¬ w ≡ v
  | (Remove, q, None) => is_Some (value_at q old) ∧ value_at q new = None
  | _ => False
  end.

Lemma justified_under k o om nm ov nv :
  bt_get k om = Some ov → bt_get k nm = Some nv →
  justified ov nv o → justified (VObject om) (VObject nm) (under k o).
Proof.
  intros Ho Hn. destruct o as [[[] q] [v|]]; simpl; rewrite ?Ho, ?Hn; done.
Qed.

Lemma diff_rel_justified old new o :
  wf_value old = true → wf_value new = true → o ∈ diff_rel old new → justified old new o.
Proof.
  revert old o. induction new as [| | | | |nm IH] using value_induction; intros old o Ho Hn;
    try (rewrite diff_rel_other by apply andb_false_r;
         destruct (value_eqb old _) eqn:E; [set_solver|];
         apply value_eqb_neq in E; intros ->%list_elem_of_singleton; simpl; eauto).
  destruct old as [| | | | |om];
    try (intros ->%list_elem_of_singleton; simpl; eexists; split_and!; [done..|];
         by apply value_eqb_neq).
  rewrite Forall_forall in IH. pose proof (proj1 (wf_object _) Hn) as [Hsn Hwn].
  pose proof (proj1 (wf_object _) Ho) as [Hso Hwo].
  rewrite diff_rel_object, elem_of_app. unfold removed_ops.
  rewrite !list_elem_of_In, !in_flat_map. intros [([k nv] & Hin & H)|([k ov] & Hin & H)];
    apply list_elem_of_In in Hin; apply list_elem_of_In in H; simpl in H.
  - pose proof (bt_sorted_elem _ _ _ Hsn Hin) as Hk. unfold field_ops in H.
    destruct (bt_get k om) as [ov|] eqn:E.
    + destruct (value_eqb ov nv) eqn:Eq; simpl in H; [set_solver|].
      destruct (is_object ov && is_object nv) eqn:Eo.
      * apply list_elem_of_fmap in H as (o' & -> & H).
        eapply justified_under; [done..|].
        apply (IH (k, nv)); simpl; eauto with sodp.
      * apply list_elem_of_singleton in H as ->. simpl. rewrite E, Hk. simpl.
        eexists; split_and!; [done..|]. by apply value_eqb_neq.
    + apply list_elem_of_singleton in H as ->. simpl. by rewrite E, Hk.
  - pose proof (bt_sorted_elem _ _ _ Hso Hin) as Hk.
    destruct (bt_contains_key k nm) eqn:Ek; simpl in H; [set_solver|].
    apply bt_contains_key_false in Ek. apply list_elem_of_singleton in H as ->.
    simpl. rewrite Hk, Ek. simpl. eauto.
Qed.

(** The operations leave the new value as it is. *)
Lemma rapply_justified old new o : wf_value new = true → justified old new o → rapply new o = new.
Proof.
  intros Hn. destruct o as [[[] q] [v|]]; cbn [justified]; try done.
  - intros [_ H]. destruct q; by apply set_in_same.
  - intros (w & _ & H & _). destruct q; by apply set_in_same.
  - intros [_ H]. destruct q; [done|]. by apply remove_in_absent.
Qed.

Lemma rapplys_diff_again old new :
  wf_value old = true → wf_value new = true → rapplys new (diff_rel old new) = new.
Proof.
  intros Ho Hn. assert (Hj := λ o, diff_rel_justified old new o Ho Hn).
  revert Hj. generalize (diff_rel old new). unfold rapplys.
  induction l as [|o l IH]; intros Hj; [done|]. cbn [fold_left].
  rewrite (rapply_justified old) by (auto; apply Hj; left). apply IH. intros o' Hin. apply Hj. by right.
Qed.

(** *** Paths are rendered without loss *)

(** The path string [diff_at] builds for segments [q] below the root. *)
Fixpoint render_tail (q : list string) : string :=
  match q with [] => "" | k :: q' => "/" ++ k ++ render_tail q' end.

Definition render (q : list string) : string :=
  match q with [] => "/" | _ => render_tail q end.

#[local] Arguments render : simpl never.

Definition good_path (q : list string) : Prop :=
  Forall (λ k, key_ok k = true) q ∧ head q ≠ Some "".

Lemma render_tail_join q : q ≠ [] → render_tail q = String slash (str_join slash q).
Proof.
  induction q as [|k q IH]; [done|]. intros _. destruct q as [|k' q].
  - simpl. by rewrite str_app_nil_r.
  - cbn [render_tail str_join] in *. by rewrite IH.
Qed.

Lemma render_root_iff q : head q ≠ Some "" → render q = "/" → q = [].
Proof.
  destruct q as [|k q]; [done|]. simpl. intros Hk H. exfalso.
  destruct k as [|a k]; [done|]. discriminate H.
Qed.

Lemma parse_render q : good_path q → Replica.parse_path (render q) = q.
Proof.
  intros [Hk Hh]. unfold Replica.parse_path.
  destruct (String.eqb (render q) "/") eqn:E; bool_to_prop.
  - symmetry. by apply render_root_iff.
  - destruct q as [|k q]; [done|]. unfold render. rewrite render_tail_join by done.
    apply str_split_join; [done|]. eapply Forall_impl; [done|].
    intros x. unfold key_ok. by rewrite negb_true_iff.
Qed.

Lemma render_app q k : q ≠ [] → render (q ++ [k])%list = render q ++ "/" ++ k.
Proof.
  assert (∀ q, render_tail (q ++ [k])%list = render_tail q ++ "/" ++ k) as Htail.
  { intros p. induction p as [|x p IH]; simpl; [by rewrite str_app_nil_r|].
    rewrite IH. by rewrite <- str_app_assoc. }
  intros Hq. destruct q as [|x q]; [done|]. exact (Htail (x :: q)).
Qed.

Lemma join_path_render q k : head q ≠ Some "" → join_path (render q) k = render (q ++ [k])%list.
Proof.
  intros Hh. unfold join_path. destruct (String.eqb (render q) "/") eqn:E; bool_to_prop.
  - apply render_root_iff in E as ->; [|done]. unfold render. simpl. by rewrite str_app_nil_r.
  - rewrite render_app; [done|]. by intros ->.
Qed.

(** The operation [diff_at] emits below [p] for a structured operation. *)
Definition emit (p : list string) (o : rop) : DeltaOp :=
  let '(d, q, x) := o in mkDeltaOp d (render (p ++ q)%list) x.

Lemma emit_under p k o : emit p (under k o) = emit (p ++ [k])%list o.
Proof. destruct o as [[d q] x]. simpl. by rewrite <- app_assoc. Qed.

Lemma keys_ok_object m k v :
  keys_ok (VObject m) = true → (k, v) ∈ m → key_ok k = true ∧ keys_ok v = true.
Proof.
  simpl. rewrite forallb_forall. intros H Hin%list_elem_of_In%H.
  by apply andb_true_iff in Hin.
Qed.

(** The two loops of [diff_at] as [flat_map]s. *)
Lemma diff_at_object path om nm :
  diff_at path (VObject om) (VObject nm) =
  (flat_map (λ kv, match bt_get kv.1 om with
                   | None => [delta_add (join_path path kv.1) kv.2]
                   | Some ov =>
                       if negb (value_eqb ov kv.2) then
                         if is_object ov && is_object kv.2
                         then diff_at (join_path path kv.1) ov kv.2
                         else [delta_update (join_path path kv.1) kv.2]
                       else []
                   end) nm
   ++ flat_map (λ kv, if negb (bt_contains_key kv.1 nm)
                      then [delta_remove (join_path path kv.1)] else []) om)%list.
Proof.
  cbn [diff_at]. f_equal. generalize nm at 1 2. intros l.
  induction l as [|[k nv] l IH]; [done|]. cbn [flat_map]. by rewrite <- IH.
Qed.

Lemma diff_at_other path old new :
  is_object old && is_object new = false →
  diff_at path old new = if negb (value_eqb old new) then [delta_update path new] else [].
Proof. by destruct old, new. Qed.

(** [diff_at] emits the structured diff below its path. *)
Lemma diff_at_emit p old new :
  head p ≠ Some "" →
  (p = [] → value_get "" old = None ∧ value_get "" new = None) →
  diff_at (render p) old new = emit p <$> diff_rel old new.
Proof.
  revert p old. induction new as [| | | | |nm IH] using value_induction; intros p old Hh Htop;
    try (rewrite diff_rel_other, diff_at_other by apply andb_false_r;
         case_match; cbn; rewrite ?app_nil_r; done).
  destruct (is_object old) eqn:Eo;
    [|rewrite diff_rel_other, diff_at_other by (by rewrite Eo);
      case_match; cbn; rewrite ?app_nil_r; done].
  destruct old as [| | | | |om]; try done.
  assert (∀ k v, (k, v) ∈ om ∨ (k, v) ∈ nm →
    join_path (render p) k = render (p ++ [k])%list ∧ head (p ++ [k])%list ≠ Some "") as Hj.
  { intros k v Hin. split; [by apply join_path_render|].
    destruct p as [|p0 p]; [|done]. simpl. intros [= ->].
    destruct (Htop eq_refl) as [H1 H2]; simpl in *. rewrite bt_get_None in *.
    destruct Hin as [Hin|Hin]; [apply H1|apply H2]; apply list_elem_of_fmap; by exists ("", v). }
  rewrite diff_rel_object, fmap_app, diff_at_object. unfold removed_ops.
  rewrite !fmap_flat_map. f_equal; apply flat_map_ext_elem; intros [k v] Hin; simpl.
  - destruct (Hj k v (or_intror Hin)) as [-> Hk]. unfold field_ops.
    destruct (bt_get k om) as [ov|]; [|done]. repeat case_match; try done.
    rewrite <- list_fmap_compose. rewrite Forall_forall in IH.
    pose proof (IH (k, v) Hin (p ++ [k])%list ov) as Hi. simpl in Hi.
    rewrite Hi by (done || by destruct p).
    apply list_fmap_ext. intros _ o _. simpl. by rewrite emit_under.
  - destruct (Hj k v (or_introl Hin)) as [-> _]. by case_match.
Qed.

Lemma value_at_keys q v w : keys_ok v = true → value_at q v = Some w → Forall (λ k, key_ok k = true) q.
Proof.
  revert v. induction q as [|k q IH]; intros v Hv H; [constructor|]. simpl in H.
  destruct v as [| | | | |m]; try done. simpl in H.
  destruct (bt_get k m) as [c|] eqn:E; [|done].
  apply bt_get_elem in E. apply (keys_ok_object _ _ _ Hv) in E as [Hk Hc].
  constructor; eauto.
Qed.

Lemma value_at_head q v w : pointer_safe v = true → value_at q v = Some w → good_path q.
Proof.
  intros [Hk Hn]%andb_true_iff H. split; [by eapply value_at_keys|].
  destruct q as [|k q]; [done|]. simpl in *. intros [= ->].
  destruct (value_get "" v); done.
Qed.

Lemma justified_good_path old new d q x :
  pointer_safe old = true → pointer_safe new = true → justified old new (d, q, x) → good_path q.
Proof.
  intros Ho Hn. destruct d, x; simpl; try done.
  - intros [_ H]. exact (value_at_head _ _ _ Hn H).
  - intros (w & H & _). exact (value_at_head _ _ _ Ho H).
  - intros [[w H] _]. exact (value_at_head _ _ _ Ho H).
Qed.

Lemma apply_op_emit v o : good_path o.1.2 → Replica.apply_op v (emit [] o) = rapply v o.
Proof.
  destruct o as [[d q] x]. simpl. intros Hq. unfold Replica.apply_op. simpl.
  rewrite parse_render by done. by destruct d, x, q.
Qed.

(** The emitted diff acts on a replica as the structured one. *)
Lemma diff_emit old new :
  pointer_safe old = true → pointer_safe new = true →
  diff old new = emit [] <$> diff_rel old new.
Proof.
  intros [_ Ho]%andb_true_iff [_ Hn]%andb_true_iff. unfold diff.
  change "/" with (render []). apply diff_at_emit; [done|]. intros _.
  by destruct (value_get "" old), (value_get "" new).
Qed.

Lemma apply_ops_emit v ops :
  (∀ o, o ∈ ops → good_path o.1.2) →
  Replica.apply_ops v (emit [] <$> ops) = rapplys v ops.
Proof.
  unfold Replica.apply_ops, rapplys. revert v. induction ops as [|o ops IH]; intros v H; [done|].
  cbn [fmap list_fmap fold_left]. rewrite apply_op_emit by (apply H; left).
  apply IH. intros o' Ho'. apply H. by right.
Qed.

(** Whether the diff is empty does not depend on the paths. *)
Lemma flat_map_nil_iff {A B} (f : A → list B) l : flat_map f l = [] ↔ ∀ x, x ∈ l → f x = [].
Proof.
  split; [|apply flat_map_nil]. intros H x Hx. apply elem_of_nil_inv. intros y Hy.
  enough (y ∈ flat_map f l) as Hin by (rewrite H in Hin; by apply elem_of_nil in Hin).
  apply elem_of_flat_map. eauto.
Qed.

Lemma flat_map_nil_equiv {A B C} (f : A → list B) (g : A → list C) l :
  (∀ x, x ∈ l → f x = [] ↔ g x = []) → flat_map f l = [] ↔ flat_map g l = [].
Proof. rewrite !flat_map_nil_iff. naive_solver. Qed.

Lemma app_nil_equiv {A B} (a b : list A) (c d : list B) :
  (a = [] ↔ c = []) → (b = [] ↔ d = []) → (a ++ b)%list = [] ↔ (c ++ d)%list = [].
Proof. intros H1 H2. rewrite !app_nil. naive_solver. Qed.

Lemma diff_at_nil_rel path old new : diff_at path old new = [] ↔ diff_rel old new = [].
Proof.
  revert path old. induction new as [| | | | |nm IH] using value_induction; intros path old;
    try (rewrite diff_at_other, diff_rel_other by apply andb_false_r; case_match; naive_solver).
  destruct old as [| | | | |om]; try (cbn; naive_solver).
  rewrite Forall_forall in IH. rewrite diff_at_object, diff_rel_object. unfold removed_ops.
  apply app_nil_equiv; apply flat_map_nil_equiv; intros [k v] Hin; cbn [fst snd].
  - unfold field_ops. specialize (IH (k, v) Hin). cbn [snd] in IH.
    destruct (bt_get k om) as [ov|]; [|done]. destruct (negb (value_eqb ov v)); [|done].
    destruct (is_object ov && is_object v); [|done]. rewrite IH.
    by destruct (diff_rel ov v).
  - by destruct (negb (bt_contains_key k nm)).
Qed.

End Rel.

(** ** Properties *)

Lemma diff_nil_equiv old new :
  wf_value old = true → wf_value new = true → diff old new = [] ↔ old ≡ new.
Proof.
  intros Ho Hn. unfold diff. rewrite Rel.diff_at_nil_rel. split.
  - intros H. pose proof (Rel.rapplys_diff_rel old new Ho Hn) as Happ. by rewrite H in Happ.
  - by apply Rel.diff_rel_equiv.
Qed.

(** The diff is empty exactly when the two values are equal: a write that
    changes nothing broadcasts nothing, and any change is broadcast. *)
Theorem diff_nil_iff old new :
  wf_value old = true → wf_value new = true → diff old new = [] ↔ old ≡ new.
Proof. apply diff_nil_equiv. Qed.

Section DiffProperties.
Variables old new : Value.
Hypothesis old_wf : wf_value old = true.
Hypothesis new_wf : wf_value new = true.
Hypothesis old_safe : pointer_safe old = true.
Hypothesis new_safe : pointer_safe new = true.

Lemma diff_good_path o : o ∈ Rel.diff_rel old new → Rel.good_path o.1.2.
Proof.
  intros Ho. destruct o as [[d q] x].
  apply (Rel.justified_good_path old new d q x); auto. by apply Rel.diff_rel_justified.
Qed.

Lemma apply_diff : Replica.apply_ops old (diff old new) ≡ new.
Proof.
  rewrite Rel.diff_emit, Rel.apply_ops_emit by auto using diff_good_path.
  by apply Rel.rapplys_diff_rel.
Qed.

(** Applying the diff to the new value changes nothing. *)
Lemma apply_diff_again : Replica.apply_ops new (diff old new) = new.
Proof.
  rewrite Rel.diff_emit, Rel.apply_ops_emit by auto using diff_good_path.
  by apply Rel.rapplys_diff_again.
Qed.

(** C3. For two well-formed values whose field names a path can carry (no "/" in one, no
    empty one at the top; diff_slash_key_ambiguous and diff_empty_key_hits_root show
    what happens otherwise): a replica that holds the old value and applies the diff's
    operations in order holds the new value (up to serde_json's equality, which identifies
    0.0 and -0.0): what a watcher sees after a DELTA is what the server stored. *)
Theorem diff_roundtrip : value_eqb (Replica.apply_ops old (diff old new)) new = true.
Proof. apply value_eqb_equiv, apply_diff. Qed.

(** Every operation is needed: an ADD addresses a path absent from the old
    value, an UPDATE a path present in both with different values, a REMOVE a
    path absent from the new value; the value carried is the new value's. *)
Theorem diff_ops_justified o :
  o ∈ diff old new →
  let q := Replica.parse_path (op_path o) in
  match op o, op_value o with
  | Add, Some v => value_at q old = None ∧ value_at q new = Some v
  | Update, Some v => ∃ w, value_at q old = Some w ∧ value_at q new = Some v ∧ value_eqb w v = false
  | Remove, None => is_Some (value_at q old) ∧ value_at q new = None
  | _, _ => False
  end.
Proof.
  rewrite Rel.diff_emit by done. intros ([[d q] x] & -> & Hin)%list_elem_of_fmap.
  pose proof (diff_good_path _ Hin) as Hq. apply Rel.diff_rel_justified in Hin; [|done..].
  simpl in *. rewrite Rel.parse_render by done. destruct d, x; simpl in *; try done.
  destruct Hin as (w & ? & ? & ?). exists w. by rewrite value_eqb_neq.
Qed.
End DiffProperties.

(** The nested update of the unit tests, and a value with an added, an updated
    and a removed field, as concrete inputs. *)
Definition sample_old : Value :=
  VObject [("a", VNumber (PosInt 1)); ("c", VNumber (PosInt 3));
           ("post", VObject [("likes", VNumber (PosInt 10)); ("title", VString "x")])].
Definition sample_new : Value :=
  VObject [("a", VNumber (PosInt 99)); ("d", VArray [VNull]);
           ("post", VObject [("likes", VNumber (PosInt 11)); ("title", VString "x")])].

Lemma diff_roundtrip_witness :
  value_eqb (Replica.apply_ops sample_old (diff sample_old sample_new)) sample_new = true.
Proof. apply (diff_roundtrip sample_old sample_new); reflexivity. Defined.

Lemma diff_nil_iff_witness : diff sample_old sample_new ≠ [] ∧ ¬ sample_old ≡ sample_new.
Proof.
  assert (diff sample_old sample_new ≠ []) as H by (vm_compute; done).
  split; [exact H|]. intros He. apply H.
  apply (diff_nil_iff sample_old sample_new); [reflexivity..|exact He].
Defined.

Lemma diff_ops_justified_witness :
  value_at ["post"; "likes"] sample_new = Some (VNumber (PosInt 11)).
Proof.
  destruct (diff_ops_justified sample_old sample_new eq_refl eq_refl eq_refl eq_refl
              (delta_update "/post/likes" (VNumber (PosInt 11)))) as (w & _ & H & _).
  - vm_compute. right. right. left.
  - exact H.
Defined.

(** The unit tests of delta.rs, evaluated. *)
Example diff_multiple_changes :
  diff (VObject [("a", VNumber (PosInt 1)); ("b", VNumber (PosInt 2)); ("c", VNumber (PosInt 3))])
       (VObject [("a", VNumber (PosInt 99)); ("b", VNumber (PosInt 2)); ("d", VNumber (PosInt 4))])
  = [delta_update "/a" (VNumber (PosInt 99)); delta_add "/d" (VNumber (PosInt 4)); delta_remove "/c"].
Proof. reflexivity. Qed.

Example diff_nested :
  diff (VObject [("post", VObject [("likes", VNumber (PosInt 10)); ("title", VString "x")])])
       (VObject [("post", VObject [("likes", VNumber (PosInt 11)); ("title", VString "x")])])
  = [delta_update "/post/likes" (VNumber (PosInt 11))].
Proof. reflexivity. Qed.

(** Keys are joined into paths unescaped, so a key that contains '/' makes
    two different changes indistinguishable on the wire: the same DELTA follows
    from adding the field "a/b" and from adding "b" inside "a", and a replica of
    the former ends with another value than the server. *)
Theorem diff_slash_key_ambiguous :
  let old := VObject [("a", VObject [])] in
  let flat := VObject [("a", VObject []); ("a/b", VBool true)] in
  let nested := VObject [("a", VObject [("b", VBool true)])] in
  diff old flat = diff old nested ∧
  wf_value flat = true ∧
  value_eqb (Replica.apply_ops old (diff old flat)) flat = false.
Proof. vm_compute. done. Qed.

(** An empty top-level key is addressed as "/", the root: the DELTA for
    adding it makes a replica replace its whole value. *)
Theorem diff_empty_key_hits_root :
  let old := VObject [("a", VNull)] in
  let new := VObject [("", VBool true); ("a", VNull)] in
  json_set_in old "//" (VBool true) = Ok new ∧
  diff old new = [delta_add "/" (VBool true)] ∧
  Replica.apply_ops old (diff old new) = VBool true.
Proof. vm_compute. done. Qed.
