(* ===== verification/Schema.v ===== *)
(** * Schema validation (src/src/schema.rs)

    [validate_node] walks a schema node and a value together and reports the
    first violation with its path.  The declarative reading is the relation
    [conforms]; validation is proved sound and complete for it, independent of
    the iteration order of the declared fields, and permissive in undeclared
    ones. *)

From S2P Require Import Prelude RustStr Json.

Local Open Scope string_scope.

(** ** Schema nodes

    The fields of an object schema are a [HashMap]; they are given as the list
    of its entries in the order the map iterates, which is arbitrary. *)

Unset Elimination Schemes.
Inductive SchemaNode : Type :=
| Simple (type_name : string)
| Full (type_name : string) (nullable : bool) (fields : list (string * SchemaNode)).
Set Elimination Schemes.

Fixpoint schema_induction (P : SchemaNode → Prop)
  (Hs : ∀ t, P (Simple t))
  (Hf : ∀ t n fs, Forall (λ kf, P kf.2) fs → P (Full t n fs)) (node : SchemaNode) : P node :=
  match node with
  | Simple t => Hs t
  | Full t n fs => Hf t n fs ((fix go fs : Forall (λ kf, P kf.2) fs :=
      match fs with
      | [] => Forall_nil_2 _
      | kf :: fs' => Forall_cons_2 _ _ _ (schema_induction P Hs Hf kf.2) (go fs')
      end) fs)
  end.

(** [SchemaNode::type_name], [SchemaNode::nullable], [SchemaNode::fields] *)
Definition type_name (node : SchemaNode) : string :=
  match node with Simple t => t | Full t _ _ => t end.
Definition nullable (node : SchemaNode) : bool :=
  match node with Simple _ => false | Full _ n _ => n end.
Definition fields (node : SchemaNode) : option (list (string * SchemaNode)) :=
  match node with Simple _ => None | Full _ _ fs => Some fs end.

(** ** Validation *)

Definition kind (v : Value) : string :=
  match v with
  | VNull => "null"
  | VBool _ => "Bool"
  | VNumber n => if number_is_f64 n then "Float" else "Int"
  | VString _ => "String"
  | VArray _ => "Array"
  | VObject _ => "Object"
  end.

Definition expected (path ty : string) (value : Value) : result unit string :=
  Err (path ++ ": expected " ++ ty ++ ", got " ++ kind value).

Fixpoint validate_node (value : Value) (node : SchemaNode) (path : string) {struct node} :
    result unit string :=
  if is_null value then
    if nullable node then Ok tt
    else Err (path ++ ": unexpected null (field is not nullable)")
  else
    let t := type_name node in
    if String.eqb t "Any" then Ok tt
    else if String.eqb t "String" then
      if is_string value then Ok tt else expected path "String" value
    else if String.eqb t "Int" then
      if is_i64 value || is_u64 value then Ok tt else expected path "Int" value
    else if String.eqb t "Float" then
      if is_number value then Ok tt else expected path "Float" value
    else if String.eqb t "Bool" then
      if is_boolean value then Ok tt else expected path "Bool" value
    else if String.eqb t "Array" then
      if is_array value then Ok tt else expected path "Array" value
    else if String.eqb t "Object" then
      match as_object value with
      | None => expected path "Object" value
      | Some obj =>
          match node with
          | Simple _ => Ok tt
          | Full _ _ fs =>
              (fix go (fs : list (string * SchemaNode)) : result unit string :=
                 match fs with
                 | [] => Ok tt
                 | (field_name, field_schema) :: fs' =>
                     let field_val := default VNull (bt_get field_name obj) in
                     let field_path := path ++ "." ++ field_name in
                     let? _ := validate_node field_val field_schema field_path in
                     go fs'
                 end) fs
          end
      end
    else Err (path ++ ": unknown schema type '" ++ t ++ "'").

(** ** Registry *)

Record SchemaRegistry : Type := mkSchemaRegistry {
  states : gmap string SchemaNode;
}.

Definition schema_validate (r : SchemaRegistry) (key : string) (value : Value) :
    result unit string :=
  match states r !! key with
  | None => Ok tt
  | Some node => validate_node value node key
  end.

(** [SchemaRegistry::from_file], over the file system and serde_json's parser. *)
Section FromFile.
Context {E : Type} (read_to_string : string → result string E)
  (from_str : string → result (gmap string SchemaNode) E).

Definition schema_from_file (path : string) : result SchemaRegistry E :=
  let? raw := read_to_string path in
  let? sts := from_str raw in
  Ok (mkSchemaRegistry sts).
End FromFile.

(** ** The declarative reading of a schema *)

Inductive conforms : Value → SchemaNode → Prop :=
| conforms_null n : nullable n = true → conforms VNull n
| conforms_any v n : v ≠ VNull → type_name n = "Any" → conforms v n
| conforms_string s n : type_name n = "String" → conforms (VString s) n
| conforms_int z n : type_name n = "Int" → conforms (VNumber (PosInt z)) n
| conforms_negint z n : type_name n = "Int" → conforms (VNumber (NegInt z)) n
| conforms_float x n : type_name n = "Float" → conforms (VNumber x) n
| conforms_bool b n : type_name n = "Bool" → conforms (VBool b) n
| conforms_array l n : type_name n = "Array" → conforms (VArray l) n
| conforms_object m n :
    type_name n = "Object" →
    (∀ f s, (f, s) ∈ default [] (fields n) → conforms (default VNull (bt_get f m)) s) →
    conforms (VObject m) n.

(** The loop over the declared fields, as a function of its own. *)
Definition validate_fields (obj : list (string * Value)) (path : string) :
    list (string * SchemaNode) → result unit string :=
  fix go fs :=
    match fs with
    | [] => Ok tt
    | (f, s) :: fs' =>
        let? _ := validate_node (default VNull (bt_get f obj)) s (path ++ "." ++ f) in
        go fs'
    end.

Lemma validate_object m n path :
  type_name n = "Object" →
  validate_node (VObject m) n path = validate_fields m path (default [] (fields n)).
Proof. intros H. by destruct n as [t|t nl fs]; simpl in H; subst. Qed.

Lemma is_ok_bind {A B E} (r : result A E) (k : A → result B E) :
  is_ok (result_bind r k) = true ↔ ∃ a, r = Ok a ∧ is_ok (k a) = true.
Proof. destruct r; simpl; naive_solver. Qed.

Lemma is_ok_Ok {E} (r : result unit E) : is_ok r = true ↔ r = Ok tt.
Proof. destruct r as [[]|]; simpl; naive_solver. Qed.

Lemma validate_fields_ok obj path fs :
  is_ok (validate_fields obj path fs) = true ↔
  ∀ f s, (f, s) ∈ fs →
         is_ok (validate_node (default VNull (bt_get f obj)) s (path ++ "." ++ f)) = true.
Proof.
  induction fs as [|[f s] fs IH]; [by split; [set_solver|]|].
  change (validate_fields obj path ((f, s) :: fs)) with
    (let? _ := validate_node (default VNull (bt_get f obj)) s (path ++ "." ++ f) in
     validate_fields obj path fs).
  rewrite is_ok_bind. split.
  - intros ([] & H & Hr) f' s' [[= -> ->]|Hin]%elem_of_cons; [by rewrite H|].
    by apply IH.
  - intros H. exists tt. split; [apply is_ok_Ok, H; left|].
    apply IH. intros f' s' Hin. apply H. by right.
Qed.

(** The type names that do not recurse. *)
Definition scalar_ok (t : string) (v : Value) : bool :=
  String.eqb t "Any" || String.eqb t "String" && is_string v ||
  String.eqb t "Int" && (is_i64 v || is_u64 v) || String.eqb t "Float" && is_number v ||
  String.eqb t "Bool" && is_boolean v || String.eqb t "Array" && is_array v.

Lemma validate_node_scalar v n path :
  v ≠ VNull → type_name n ≠ "Object" →
  is_ok (validate_node v n path) = scalar_ok (type_name n) v.
Proof.
  intros Hv Ht. assert (is_null v = false) as Hnull by by destruct v.
  unfold scalar_ok. destruct n as [t|t nl fs]; simpl in *; rewrite Hnull;
    repeat match goal with
      | |- context [String.eqb t ?b] =>
          destruct (String.eqb t b) eqn:?; bool_to_prop; 
            [subst t; destruct v as [| |[]| | |]; simpl; rewrite ?orb_true_r; done|]
      end; done.
Qed.

Lemma scalar_conforms v n :
  v ≠ VNull → type_name n ≠ "Object" → scalar_ok (type_name n) v = true ↔ conforms v n.
Proof.
  intros Hv Ht. unfold scalar_ok. split.
  - rewrite !orb_true_iff, !andb_true_iff, !String.eqb_eq, orb_true_iff. intros H.
    destruct_or?; destruct_and?; destruct_or?; try (by constructor);
      destruct v as [| |[]| | |]; try done; by constructor.
  - intros H. destruct H; try done;
      match goal with E : type_name _ = _ |- _ => rewrite E end; simpl;
      rewrite ?orb_true_r; done.
Qed.

Lemma validate_node_null n path :
  is_ok (validate_node VNull n path) = true ↔ conforms VNull n.
Proof.
  trans (nullable n = true).
  - by destruct n as [t|t [] fs].
  - split; [by constructor|]. by inversion 1.
Qed.

Lemma validate_node_conforms v n path :
  is_ok (validate_node v n path) = true ↔ conforms v n.
Proof.
  revert v path. induction n as [t|t nl fs IH] using schema_induction; intros v path;
    (destruct (decide (is_null v = true)) as [Hv|Hv];
     [destruct v; try done; apply validate_node_null|]);
    assert (v ≠ VNull) as Hnn by (by intros ->).
  - destruct (decide (t = "Object")) as [->|Ht];
      [|rewrite validate_node_scalar by done; by apply scalar_conforms].
    destruct v; simpl; split; try done; try (by inversion 1).
    intros _. apply conforms_object; [done|]. simpl. set_solver.
  - destruct (decide (t = "Object")) as [->|Ht];
      [|rewrite validate_node_scalar by done; by apply scalar_conforms].
    destruct v as [| | | | |m]; try (simpl; split; [done|by inversion 1]).
    rewrite validate_object, validate_fields_ok by done. simpl. rewrite Forall_forall in IH. split.
    + intros H. apply conforms_object; [done|]. intros f s Hin. eapply (IH (f, s)); eauto.
    + inversion 1 as [| | | | | | | |? ? _ Hf]; subst; [done|]. intros f s Hin.
      apply (IH (f, s)); [done|]. by apply Hf.
Qed.

(** ** Properties *)

(** C30. A value passes validation for a key exactly when the key has no schema
    or the value conforms to it: nulls only where the node is nullable, the
    declared type, and every declared field (an absent one counting as null)
    conforming in turn. *)
Theorem schema_validate_correct r key v :
  schema_validate r key v = Ok tt ↔
  match states r !! key with Some n => conforms v n | None => True end.
Proof.
  unfold schema_validate. destruct (states r !! key) as [n|]; [|done].
  by rewrite <- is_ok_Ok, validate_node_conforms.
Qed.

(** Validation errors name the offending place: the message of a failed
    validation begins with the path that was validated, extended by the field
    names down to the violation. *)
Theorem schema_error_located v n path msg :
  validate_node v n path = Err msg → ∃ rest, msg = path ++ rest.
Proof.
  revert v path msg. induction n as [t|t nl fs IH] using schema_induction; intros v path msg H;
    (destruct (decide (is_object v = true ∧ t = "Object")) as [[Ho ->]|Hno]).
  - by destruct v.
  - simpl in H. unfold expected in H. repeat case_match; simplify_eq; try by eexists.
  - destruct v as [| | | | |m]; try done. rewrite validate_object in H by done. simpl in H.
    rewrite Forall_forall in IH. induction fs as [|[f s] fs IHfs]; [done|]. simpl in H.
    destruct (validate_node _ s _) as [[]|e] eqn:E; simpl in H.
    + apply IHfs; [|done]. intros kf Hkf. refine (IH kf _). by right.
    + injection H as ->. apply (IH (f, s)) in E as [rest ->]; [|left].
      exists ("." ++ f ++ rest). by rewrite <- !str_app_assoc.
  - cbn [validate_node] in H. unfold expected in H.
    repeat (case_match; simplify_eq; try by eexists).
    exfalso. apply Hno. bool_to_prop. destruct v; try done.
Qed.

Lemma schema_error_located_witness :
  ∃ rest, "user.age: expected Int, got String" = "user" ++ rest.
Proof.
  apply (schema_error_located (VObject [("age", VString "x")])
           (Full "Object" false [("age", Simple "Int")]) "user"). reflexivity.
Defined.

(** The verdict does not depend on the order in which the map of declared
    fields iterates, nor on fields the schema does not declare. *)
Theorem schema_verdict_stable m k v t nl fs fs' path :
  fs ≡ₚ fs' → k ∉ fs.*1 →
  is_ok (validate_node (VObject (bt_insert k v m)) (Full t nl fs') path) =
  is_ok (validate_node (VObject m) (Full t nl fs) path).
Proof.
  intros Hp Hk. apply eq_true_iff_eq.
  destruct (decide (t = "Object")) as [->|Ht].
  - rewrite !validate_object, !validate_fields_ok by done. simpl.
    assert (∀ f s, (f, s) ∈ fs → bt_get f (bt_insert k v m) = bt_get f m) as Hget.
    { intros f s Hin. apply bt_get_insert_ne. intros ->.
      apply Hk, list_elem_of_fmap. by exists (k, s). }
    split; intros H f s Hin.
    + rewrite <- (Hget f s) by done. apply H. by rewrite <- Hp.
    + rewrite <- Hp in Hin. rewrite (Hget f s) by done. by apply H.
  - by rewrite !validate_node_scalar by done.
Qed.

Lemma schema_verdict_stable_witness :
  is_ok (validate_node (VObject (bt_insert "extra" VNull [("a", VBool true); ("b", VString "x")]))
           (Full "Object" false [("b", Simple "String"); ("a", Simple "Bool")]) "s") = true.
Proof.
  rewrite (schema_verdict_stable _ "extra" VNull "Object" false
             [("a", Simple "Bool"); ("b", Simple "String")]); [reflexivity| |].
  - apply perm_swap.
  - apply (bool_decide_unpack _). reflexivity.
Defined.
