(* ===== verification/Acl.v ===== *)
(** * Per-key access control (src/src/acl.rs)

    Rules are matched against the dot-separated segments of a key; the first
    rule that matches decides with its read or write permission, and no match
    denies.  Claims are resolved in the JWT body through a mapping table. *)

From S2P Require Import Prelude RustStr Json.

Local Open Scope string_scope.

(** ** Presets *)

Definition preset_mappings (name : string) : option (gmap string string) :=
  if String.eqb name "keycloak" then Some (list_to_map
    [("role", "realm_access.roles"); ("group", "groups"); ("perm", "permissions");
     ("tenant", "tenant_id")])
  else if String.eqb name "auth0" then Some (list_to_map
    [("role", "roles"); ("group", "groups"); ("perm", "permissions"); ("tenant", "org_id")])
  else if String.eqb name "okta" then Some (list_to_map
    [("role", "groups"); ("group", "groups"); ("perm", "permissions"); ("tenant", "tenant_id")])
  else if String.eqb name "cognito" then Some (list_to_map
    [("role", "cognito:groups"); ("group", "cognito:groups"); ("perm", "permissions");
     ("tenant", "custom:tenant_id")])
  else if String.eqb name "generic" then Some (list_to_map
    [("role", "roles"); ("group", "groups"); ("perm", "permissions"); ("tenant", "tenant_id")])
  else None.

(** ** Rules and registry *)

Record AclRule : Type := mkAclRule {
  rule_key : string;
  rule_read : string;
  rule_write : string;
}.

Record AclFile : Type := mkAclFile {
  preset : option string;
  claim_mappings : gmap string string;
  file_rules : list AclRule;
}.

Record AclRegistry : Type := mkAclRegistry {
  rules : list AclRule;
  mappings : gmap string string;
}.

(** [AclRegistry::from_file] after the file is parsed: preset, then overrides. *)
Definition acl_from_parsed (file : AclFile) : AclRegistry :=
  let base := match preset file with
              | None => ∅
              | Some name => match preset_mappings name with Some m => m | None => ∅ end
              end in
  mkAclRegistry (file_rules file) (claim_mappings file ∪ base).

Section FromFile.
Context {E : Type} (read_to_string : string → result string E)
  (from_str : string → result AclFile E).

Definition acl_from_file (path : string) : result AclRegistry E :=
  let? content := read_to_string path in
  let? file := from_str content in
  Ok (acl_from_parsed file).
End FromFile.

(** ** Pattern matching

    The loop of [match_pattern], on what is left of the pattern and of the key. *)
Fixpoint match_loop (pat key : list string) (captured : option string) :
    option (option string) :=
  match pat with
  | [] => match key with [] => Some captured | _ => None end
  | p :: pat' =>
      if String.eqb p "*" then
        match key with [] => None | _ => Some captured end
      else if String.eqb p "{sub}" then
        match key with [] => None | k :: key' => match_loop pat' key' (Some k) end
      else
        match key with
        | [] => None
        | k :: key' => if negb (String.eqb k p) then None else match_loop pat' key' captured
        end
  end.

Definition match_pattern (pattern key : string) : option (option string) :=
  match_loop (str_split dot pattern) (str_split dot key) None.

(** ** Claims *)

Fixpoint traverse (current : Value) (parts : list string) : option Value :=
  match parts with
  | [] => Some current
  | part :: parts' =>
      as_object current ≫= λ obj, bt_get part obj ≫= λ v, traverse v parts'
  end.

Definition resolve_claim (claims : Value) (path : string) : option Value :=
  as_object claims ≫= λ obj,
  match bt_get path obj with
  | Some v => Some v
  | None => traverse claims (str_split dot path)
  end.

(** ** Permissions *)

Definition opt_str_eqb (a b : option string) : bool :=
  match a, b with
  | Some x, Some y => String.eqb x y
  | None, None => true
  | _, _ => false
  end.

Definition is_some {A} (o : option A) : bool :=
  match o with Some _ => true | None => false end.

Definition check_permission (perm : string) (sub captured : option string) (claims : Value)
    (maps : gmap string string) : bool :=
  if String.eqb perm "*" then true
  else if String.eqb perm "{sub}" then is_some sub && opt_str_eqb sub captured
  else if str_contains colon perm then
    match str_split_once colon perm with
    | None => false (* not reached: the colon is there *)
    | Some (prefix, raw_value) =>
        match (if String.eqb raw_value "{sub}" then captured else Some raw_value) with
        | None => false
        | Some value =>
            match maps !! prefix with
            | None => false
            | Some claim_path =>
                match resolve_claim claims claim_path with
                | Some (VArray arr) => existsb (λ item, opt_str_eqb (as_str item) (Some value)) arr
                | Some (VString s) => String.eqb s value
                | _ => false
                end
            end
        end
    end
  else opt_str_eqb sub (Some perm).

(** ** Decisions *)

Definition acl_check (acl : AclRegistry) (key : string) (sub : option string) (claims : Value)
    (write : bool) : bool :=
  (fix go (rs : list AclRule) : bool :=
     match rs with
     | [] => false
     | rule :: rs' =>
         match match_pattern (rule_key rule) key with
         | Some captured =>
             let perm := if write then rule_write rule else rule_read rule in
             check_permission perm sub captured claims (mappings acl)
         | None => go rs'
         end
     end) (rules acl).

Definition can_read (acl : AclRegistry) (key : string) (sub : option string) (claims : Value) : bool :=
  acl_check acl key sub claims false.

Definition can_write (acl : AclRegistry) (key : string) (sub : option string) (claims : Value) : bool :=
  acl_check acl key sub claims true.

(** ** Positional reading of a pattern

    Up to the first "*" (or the end) the pattern's segments are aligned with
    the key's: "{sub}" accepts any segment and captures it, a literal accepts
    itself.  With a "*" the key must go on for at least one more segment;
    without one the key must end with the pattern. *)

Fixpoint fixed_part (pat : list string) : list string :=
  match pat with
  | [] => []
  | p :: pat' => if String.eqb p "*" then [] else p :: fixed_part pat'
  end.

Definition has_star (pat : list string) : bool := existsb (λ p, String.eqb p "*") pat.

Lemma has_star_cons p pat : has_star (p :: pat) = String.eqb p "*" || has_star pat.
Proof. done. Qed.

Definition seg_accepts (p k : string) : Prop := p = "{sub}" ∨ p = k.

(** The segment under the last "{sub}" of the fixed part. *)
Fixpoint last_capture (fixed key : list string) (acc : option string) : option string :=
  match fixed, key with
  | p :: fixed', k :: key' => last_capture fixed' key' (if String.eqb p "{sub}" then Some k else acc)
  | _, _ => acc
  end.

Lemma match_loop_positional pat key acc r :
  match_loop pat key acc = Some r ↔
  Forall2 seg_accepts (fixed_part pat) (take (length (fixed_part pat)) key) ∧
  (if has_star pat then length (fixed_part pat) < length key
   else length (fixed_part pat) = length key) ∧
  r = last_capture (fixed_part pat) key acc.
Proof.
  revert key acc. induction pat as [|p pat IH]; intros key acc.
  - simpl. destruct key; simpl.
    + split; [intros [= ->]; split_and!; [constructor|done|done]|by intros (_ & _ & ->)].
    + split; [done|]. by intros (_ & ? & _).
  - rewrite has_star_cons. cbn [match_loop fixed_part].
    destruct (String.eqb p "*") eqn:Es; bool_to_prop; cbn [orb].
    { subst. destruct key; simpl.
      - split; [done|]. intros (_ & ? & _). lia.
      - split; [intros [= ->]; split_and!; [constructor|lia|done]|by intros (_ & _ & ->)]. }
    destruct key as [|k key].
    { destruct (String.eqb p "{sub}"); split; try done; intros (H & _ & _); inversion H. }
    destruct (String.eqb p "{sub}") eqn:Eb; bool_to_prop.
    + subst. rewrite IH. simpl. split.
      * intros (? & ? & ?). split_and!; [constructor; [by left|done]|destruct (has_star pat); lia|done].
      * intros (H & ? & ?). inversion H; subst.
        split_and!; [done|destruct (has_star pat); lia|done].
    + destruct (String.eqb k p) eqn:Ek; simpl; bool_to_prop; subst.
      * rewrite IH. simpl. rewrite (proj2 (String.eqb_neq _ _) Eb). split.
        -- intros (? & ? & ?). split_and!; [constructor; [by right|done]|destruct (has_star pat); lia|done].
        -- intros (H & ? & ?). inversion H; subst.
           split_and!; [done|destruct (has_star pat); lia|done].
      * split; [done|]. intros (H & _). inversion H as [|? ? ? ? [?|?]]; subst; done.
Qed.

(** ** Deciding rule *)

(** The permission that decides for a key: that of the first matching rule. *)
Fixpoint deciding_rule (rs : list AclRule) (key : string) : option (AclRule * option string) :=
  match rs with
  | [] => None
  | rule :: rs' =>
      match match_pattern (rule_key rule) key with
      | Some captured => Some (rule, captured)
      | None => deciding_rule rs' key
      end
  end.

Lemma acl_check_deciding acl key sub claims write :
  acl_check acl key sub claims write =
  match deciding_rule (rules acl) key with
  | Some (rule, captured) =>
      check_permission (if write then rule_write rule else rule_read rule)
        sub captured claims (mappings acl)
  | None => false
  end.
Proof.
  unfold acl_check. destruct acl as [rs maps]. simpl.
  induction rs as [|rule rs IH]; [done|]. simpl. by destruct (match_pattern _ key).
Qed.

Lemma deciding_rule_spec rs key rule captured :
  deciding_rule rs key = Some (rule, captured) ↔
  ∃ i, rs !! i = Some rule ∧ match_pattern (rule_key rule) key = Some captured ∧
       ∀ j r, j < i → rs !! j = Some r → match_pattern (rule_key r) key = None.
Proof.
  induction rs as [|r rs IH]; simpl.
  - split; [done|]. intros (i & H & _). by rewrite lookup_nil in H.
  - destruct (match_pattern (rule_key r) key) as [c|] eqn:E.
    + split.
      * intros [= <- <-]. exists 0. split_and!; [done..|lia].
      * intros ([|i] & Hi & Hm & Hmin); simpl in *; [congruence|].
        specialize (Hmin 0 r ltac:(lia) eq_refl). congruence.
    + rewrite IH. split.
      * intros (i & Hi & Hm & Hmin). exists (S i). split_and!; [done..|].
        intros [|j] r' Hj Hr; simpl in *; [congruence|]. eapply Hmin; [|done]. lia.
      * intros ([|i] & Hi & Hm & Hmin); simpl in *; [congruence|].
        exists i. split_and!; [done..|]. intros j r' Hj Hr. apply (Hmin (S j)); [lia|done].
Qed.

(** ** Properties *)

(** C32. A pattern matches a key segment by segment: up to its first "*" every
    segment is "{sub}" or equal to the key's, a "*" requires the key to go on,
    without one both end together; the capture is the key segment under the
    last "{sub}" before the "*". *)
Theorem match_pattern_positional pattern key r :
  let pat := str_split dot pattern in
  let ks := str_split dot key in
  match_pattern pattern key = Some r ↔
  Forall2 seg_accepts (fixed_part pat) (take (length (fixed_part pat)) ks) ∧
  (if has_star pat then length (fixed_part pat) < length ks
   else length (fixed_part pat) = length ks) ∧
  r = last_capture (fixed_part pat) ks None.
Proof. apply match_loop_positional. Qed.

(** Access is granted exactly when some rule matches the key, no earlier
    rule does, and that rule's permission holds: the first match wins and a key
    no rule matches is denied. *)
Theorem acl_first_match_wins acl key sub claims write :
  acl_check acl key sub claims write = true ↔
  ∃ i rule captured,
    rules acl !! i = Some rule ∧ match_pattern (rule_key rule) key = Some captured ∧
    (∀ j r, j < i → rules acl !! j = Some r → match_pattern (rule_key r) key = None) ∧
    check_permission (if write then rule_write rule else rule_read rule)
      sub captured claims (mappings acl) = true.
Proof.
  rewrite acl_check_deciding. split.
  - destruct (deciding_rule (rules acl) key) as [[rule captured]|] eqn:E; [|done].
    intros H. apply deciding_rule_spec in E as (i & ? & ? & ?). by exists i, rule, captured.
  - intros (i & rule & captured & Hi & Hm & Hmin & Hp).
    rewrite (proj2 (deciding_rule_spec (rules acl) key rule captured)); [done|].
    by exists i.
Qed.

(** A "KEY:VALUE" permission holds exactly when the mapping has a claim
    path for KEY and the claim found there is an array with the string VALUE
    or the string VALUE itself, VALUE being the captured segment when it is
    written "{sub}". *)
Theorem claim_permission_spec prefix raw sub captured claims maps :
  str_contains colon prefix = false →
  check_permission (prefix ++ ":" ++ raw) sub captured claims maps = true ↔
  ∃ path value, maps !! prefix = Some path ∧
    (if String.eqb raw "{sub}" then captured = Some value else raw = value) ∧
    match resolve_claim claims path with
    | Some (VArray arr) => VString value ∈ arr
    | Some (VString s) => s = value
    | _ => False
    end.
Proof.
  intros Hp. unfold check_permission.
  assert (str_split_once colon (prefix ++ ":" ++ raw) = Some (prefix, raw)) as Hs
    by by apply str_split_once_spec.
  assert (str_contains colon (prefix ++ ":" ++ raw) = true) as Hc
    by (apply str_split_once_contains; eauto).
  rewrite (proj2 (String.eqb_neq _ "*")), (proj2 (String.eqb_neq _ "{sub}")), Hc, Hs
    by (intros He; rewrite He in Hc; discriminate).
  assert (∀ value arr, existsb (λ item, opt_str_eqb (as_str item) (Some value)) arr = true ↔
          VString value ∈ arr) as Harr.
  { intros value arr. rewrite existsb_elem. split.
    - intros ([] & Hin & Heq); try done. simpl in Heq. bool_to_prop. by subst.
    - intros Hin. exists (VString value). split; [done|]. simpl. apply String.eqb_refl. }
  destruct (if String.eqb raw "{sub}" then captured else Some raw) as [v|] eqn:Ev.
  - assert (∀ value, (if String.eqb raw "{sub}" then captured = Some value else raw = value)
                     ↔ value = v) as Hval by (intros value; case_match; naive_solver).
    setoid_rewrite Hval. destruct (maps !! prefix) as [path|] eqn:Em; [|naive_solver].
    destruct (resolve_claim claims path) as [[]|] eqn:Er; try (split; [done|]);
      rewrite ?Harr, ?String.eqb_eq; try (intros (? & ? & [= <-] & -> & H); by rewrite Er in H);
      (split; [intros; exists path, v; by rewrite Er|
               intros (? & ? & [= <-] & -> & H); by rewrite Er in H]).
  - split; [done|]. intros (path & value & _ & H & _). case_match; congruence.
Qed.

Lemma claim_permission_spec_witness :
  check_permission ("role" ++ ":" ++ "admin") (Some "alice") None
    (VObject [("realm_access", VObject [("roles", VArray [VString "user"; VString "admin"])])])
    {[ "role" := "realm_access.roles" ]} = true.
Proof.
  apply (claim_permission_spec "role" "admin"); [reflexivity|].
  exists "realm_access.roles", "admin". split_and!; [reflexivity..|].
  simpl. right. left.
Defined.

(** C31. An owner rule isolates users. Take any registry, and a key for which some rule is
    the first whose pattern matches, capturing the segment [owner], with "{sub}" as the
    permission for the access at hand: the access is granted exactly when the session's
    subject is [owner], whatever the rules after it and the claims say. *)
Theorem owner_rule_isolates before rule after maps key owner sub claims (write : bool) :
  Forall (λ r : AclRule, match_pattern (rule_key r) key = None) before →
  match_pattern (rule_key rule) key = Some (Some owner) →
  (if write then rule_write rule else rule_read rule) = "{sub}" →
  acl_check (mkAclRegistry (before ++ rule :: after)%list maps) key sub claims write = true ↔ sub = Some owner.
Proof.
  intros Hb Hm Hp. rewrite acl_check_deciding.
  assert (deciding_rule (before ++ rule :: after)%list key = Some (rule, Some owner)) as Hd.
  { induction Hb as [|r rs Hr _ IH]; cbn; [by rewrite Hm|by rewrite Hr]. }
  cbn [rules mappings]. rewrite Hd, Hp. cbn. destruct sub as [s|]; cbn; rewrite ?String.eqb_eq; naive_solver.
Qed.

(** The rule for "user.{sub}.*" comes second; Bob's subject does not open Alice's key. *)
Lemma owner_rule_isolates_witness :
  acl_check (mkAclRegistry [mkAclRule "public.*" "*" "*"; mkAclRule "user.{sub}.*" "{sub}" "{sub}"; mkAclRule "*" "*" "*"] ∅)
    "user.alice.notes" (Some "alice") VNull true = true ∧
  acl_check (mkAclRegistry [mkAclRule "public.*" "*" "*"; mkAclRule "user.{sub}.*" "{sub}" "{sub}"; mkAclRule "*" "*" "*"] ∅)
    "user.alice.notes" (Some "bob") VNull true ≠ true.
Proof.
  pose proof (λ sub, owner_rule_isolates [mkAclRule "public.*" "*" "*"] (mkAclRule "user.{sub}.*" "{sub}" "{sub}")
    [mkAclRule "*" "*" "*"] ∅ "user.alice.notes" "alice" sub VNull true ltac:(repeat constructor) eq_refl eq_refl) as Ho.
  split; [by apply Ho|]. intros E%Ho. done.
Defined.

(** A session without identity (no subject, no claims, as when no token was
    presented) passes no permission but "*": every other permission needs a
    subject or a claim. *)
Theorem anonymous_needs_star perm captured maps :
  check_permission perm None captured (VObject []) maps = true ↔ perm = "*".
Proof.
  unfold check_permission. destruct (String.eqb perm "*") eqn:E; bool_to_prop; [done|].
  split; [|done]. intros H. exfalso. revert H.
  assert (∀ path, resolve_claim (VObject []) path = None) as Hr.
  { intros path. unfold resolve_claim. simpl.
    by destruct (str_split_cons dot path) as (p & ps & ->). }
  repeat case_match; simpl; try done; by rewrite Hr in *.
Qed.

(** Claim mappings of the file win over the preset's, and the preset fills
    the rest; an unknown preset contributes nothing. *)
Theorem mappings_override file k :
  mappings (acl_from_parsed file) !! k =
  match claim_mappings file !! k with
  | Some path => Some path
  | None => preset file ≫= λ name, preset_mappings name ≫= λ m, m !! k
  end.
Proof.
  unfold acl_from_parsed. simpl.
  destruct (claim_mappings file !! k) as [path|] eqn:E.
  - by apply lookup_union_Some_l.
  - rewrite lookup_union_r by done. destruct (preset file) as [name|]; simpl; [|done].
    by destruct (preset_mappings name).
Qed.

(** The scenario of the module's tests. *)
Example keycloak_scenario :
  let acl := acl_from_parsed (mkAclFile (Some "keycloak") ∅
    [mkAclRule "public.*" "*" "*"; mkAclRule "tenant.{sub}.*" "tenant:{sub}" "tenant:{sub}";
     mkAclRule "admin.*" "role:admin" "role:admin"; mkAclRule "user.{sub}.*" "{sub}" "{sub}"]) in
  let alice := VObject [("realm_access", VObject [("roles", VArray [VString "user"])]);
                        ("tenant_id", VString "acme")] in
  can_read acl "public.board" (Some "alice") alice = true ∧
  can_write acl "tenant.acme.docs" (Some "alice") alice = true ∧
  can_write acl "tenant.other.docs" (Some "alice") alice = false ∧
  can_read acl "admin.config" (Some "alice") alice = false ∧
  can_write acl "user.bob.notes" (Some "alice") alice = false.
Proof. vm_compute. done. Qed.
