(* ===== verification/Frame.v ===== *)
(** * Wire frames (src/src/frame.rs)

    The frame record and its constructors, the hand-written MessagePack
    encoder of unsigned integers, and [delta_bytes], which assembles a DELTA
    frame around a body encoded once for all subscribers.  rmp_serde, which
    encodes everything else, is a parameter. *)

From S2P Require Import Prelude Json.

Local Open Scope string_scope.

(** ** Frame type codes ([frame::types]) *)

Module types.
Definition HELLO : Z := 1.
Definition WATCH : Z := 2.
Definition STATE_INIT : Z := 3.
Definition DELTA : Z := 4.
Definition CALL : Z := 5.
Definition RESULT : Z := 6.
Definition ERROR : Z := 7.
Definition ACK : Z := 8.
Definition HEARTBEAT : Z := 9.
Definition RESUME : Z := 10.
Definition AUTH : Z := 11.
Definition AUTH_OK : Z := 12.
Definition UNWATCH : Z := 13.
End types.

(** ** Frames *)

Record Frame : Type := mkFrame {
  frame_type : Z;
  stream_id : Z;
  seq : Z;
  body : Value;
}.

(** The [json!({...})] macro: the fields inserted one after the other. *)
Definition json_object (l : list (string * Value)) : Value :=
  VObject (fold_left (λ m kv, bt_insert kv.1 kv.2 m) l []).

Definition json_u64 (n : Z) : Value := VNumber (PosInt n).

Definition hello (auth : bool) (capabilities : Value) : Frame :=
  mkFrame types.HELLO 0 0
    (json_object [("version", VString "0.1"); ("server", VString "SODP-RS");
                  ("auth", VBool auth); ("capabilities", capabilities)]).

Definition auth_ok (sub : string) : Frame :=
  mkFrame types.AUTH_OK 0 0 (json_object [("sub", VString sub)]).

Definition state_init (sid sq : Z) (state_key : string) (version : Z) (value : Value)
    (initialized : bool) (params : option Value) : Frame :=
  let base := json_object [("state", VString state_key); ("version", json_u64 version);
                           ("value", value); ("initialized", VBool initialized)] in
  let b := match params, base with
           | Some p, VObject m => VObject (bt_insert "params" p m)
           | _, _ => base
           end in
  mkFrame types.STATE_INIT sid sq b.

Definition delta (sid sq version : Z) (ops : Value) : Frame :=
  mkFrame types.DELTA sid sq (json_object [("version", json_u64 version); ("ops", ops)]).

Definition result_ok (sid sq : Z) (call_id : string) (data : option Value) : Frame :=
  mkFrame types.RESULT sid sq
    (json_object [("call_id", VString call_id); ("success", VBool true);
                  ("data", default VNull data)]).

Definition error (sid sq code : Z) (message : string) : Frame :=
  mkFrame types.ERROR sid sq
    (json_object [("code", json_u64 code); ("message", VString message)]).

Definition heartbeat : Frame := mkFrame types.HEARTBEAT 0 0 VNull.

(** ** Outbound messages *)

Inductive OutboundMsg : Type :=
| OFrame (f : Frame)
| OBytes (b : list byte)
| OArcDelta (stream_id : Z) (body_mp : list byte)
| OPing
| OPong (data : list byte).

(** ** The unsigned-integer encoder *)

Definition write_uint (buf : list byte) (v : Z) : list byte :=
  (buf ++
   if (v <=? 127)%Z then [as_u8 v]
   else if (v <=? 255)%Z then [xcc; as_u8 v]
   else if (v <=? 65535)%Z then [xcd; as_u8 (Z.shiftr v 8); as_u8 v]
   else if (v <=? 4294967295)%Z then
     [xce; as_u8 (Z.shiftr v 24); as_u8 (Z.shiftr v 16); as_u8 (Z.shiftr v 8); as_u8 v]
   else xcf :: ((λ i, as_u8 (Z.shiftr v (i * 8))) <$> [7; 6; 5; 4; 3; 2; 1; 0]%Z))%list.

Definition delta_bytes (sid sq : Z) (body_mp : list byte) : list byte :=
  let buf := [x94; as_u8 types.DELTA] in
  let buf := write_uint buf sid in
  let buf := write_uint buf sq in
  (buf ++ body_mp)%list.

(** ** [Frame::encode] and [Frame::decode], over rmp_serde *)

Section Codec.
Context {EncErr DecErr : Type}
  (to_vec : Z * Z * Z * Value → result (list byte) EncErr)
  (from_slice : list byte → result (Z * Z * Z * Value) DecErr).

Definition frame_encode (f : Frame) : result (list byte) EncErr :=
  to_vec (frame_type f, stream_id f, seq f, body f).

Definition frame_decode (bytes : list byte) : result Frame DecErr :=
  let? fields := from_slice bytes in
  let '(t, s, q, b) := fields in
  Ok (mkFrame t s q b).
End Codec.

(** ** Reading MessagePack unsigned integers (the format's specification) *)

Fixpoint be_value (bs : list byte) (acc : Z) : Z :=
  match bs with
  | [] => acc
  | b :: bs' => be_value bs' (256 * acc + u8_val b)
  end.

Definition take_be (n : nat) (bs : list byte) : option (Z * list byte) :=
  if Nat.leb n (length bs) then Some (be_value (take n bs) 0, drop n bs) else None.

Definition read_uint (bs : list byte) : option (Z * list byte) :=
  match bs with
  | [] => None
  | b :: rest =>
      if (u8_val b <=? 127)%Z then Some (u8_val b, rest)
      else if (u8_val b =? 204)%Z then take_be 1 rest
      else if (u8_val b =? 205)%Z then take_be 2 rest
      else if (u8_val b =? 206)%Z then take_be 4 rest
      else if (u8_val b =? 207)%Z then take_be 8 rest
      else None
  end.

(** A frame header: an array of four, then three unsigned integers. *)
Definition read_header (bs : list byte) : option (Z * Z * Z * list byte) :=
  match bs with
  | b :: rest =>
      if (u8_val b =? 148)%Z then
        read_uint rest ≫= λ '(t, r1), read_uint r1 ≫= λ '(s, r2),
        read_uint r2 ≫= λ '(q, r3), Some (t, s, q, r3)
      else None
  | [] => None
  end.

(** ** Big-endian bytes *)

Fixpoint be_bytes (n : nat) (v : Z) : list byte :=
  match n with
  | O => []
  | S n' => as_u8 (Z.shiftr v (Z.of_nat n' * 8)) :: be_bytes n' v
  end.

Lemma be_bytes_length n v : length (be_bytes n v) = n.
Proof. induction n; simpl; congruence. Qed.

Lemma pow2_bytes n : (2 ^ (Z.of_nat n * 8) = 256 ^ Z.of_nat n)%Z.
Proof. rewrite Z.mul_comm, Z.pow_mul_r by lia. done. Qed.

Lemma be_value_be_bytes n v acc :
  be_value (be_bytes n v) acc = (acc * 256 ^ Z.of_nat n + v mod 256 ^ Z.of_nat n)%Z.
Proof.
  revert acc. induction n as [|n IH]; intros acc; cbn [be_bytes be_value].
  - rewrite Z.mod_1_r. lia.
  - rewrite IH, u8_val_as_u8, Z.shiftr_div_pow2 by lia.
    rewrite pow2_bytes. rewrite Nat2Z.inj_succ, Z.pow_succ_r by lia.
    rewrite (Z.mul_comm 256 (256 ^ Z.of_nat n)).
    assert (0 < 256 ^ Z.of_nat n)%Z by (apply Z.pow_pos_nonneg; lia).
    rewrite (Z.rem_mul_r v (256 ^ Z.of_nat n) 256) by lia. ring.
Qed.

Lemma be_value_bounds bs acc :
  (0 ≤ acc → acc * 256 ^ Z.of_nat (length bs) ≤ be_value bs acc
             < (acc + 1) * 256 ^ Z.of_nat (length bs))%Z.
Proof.
  revert acc. induction bs as [|b bs IH]; intros acc Hacc; cbn [be_value length].
  - rewrite Z.pow_0_r. lia.
  - pose proof (u8_val_range b). specialize (IH (256 * acc + u8_val b)%Z ltac:(lia)).
    rewrite Nat2Z.inj_succ, Z.pow_succ_r by lia. nia.
Qed.

Lemma be_bytes_be_value bs acc :
  (0 ≤ acc)%Z → be_bytes (length bs) (be_value bs acc) = bs.
Proof.
  revert acc. induction bs as [|b bs IH]; intros acc Hacc; cbn [be_bytes be_value length]; [done|].
  pose proof (u8_val_range b).
  f_equal; [|apply IH; lia].
  pose proof (be_value_bounds bs (256 * acc + u8_val b) ltac:(lia)) as Hb.
  rewrite Z.shiftr_div_pow2, pow2_bytes by lia.
  set (q := (256 ^ Z.of_nat (length bs))%Z) in *.
  assert (be_value bs (256 * acc + u8_val b) / q = 256 * acc + u8_val b)%Z as ->.
  { symmetry. apply (Z.div_unique_pos _ _ _ (be_value bs (256 * acc + u8_val b)
                                             - q * (256 * acc + u8_val b))); nia. }
  transitivity (as_u8 (u8_val b)); [|apply as_u8_u8_val].
  unfold as_u8. do 2 f_equal. rewrite Z.add_comm, Z.mul_comm, Z_mod_plus_full. done.
Qed.

(** [write_uint] in terms of big-endian bytes: the marker and the width. *)
Lemma write_uint_be buf v :
  (0 ≤ v ≤ u64_max)%Z →
  write_uint buf v =
  (buf ++ if (v <=? 127)%Z then [as_u8 v]
          else if (v <=? 255)%Z then xcc :: be_bytes 1 v
          else if (v <=? 65535)%Z then xcd :: be_bytes 2 v
          else if (v <=? 4294967295)%Z then xce :: be_bytes 4 v
          else xcf :: be_bytes 8 v)%list.
Proof. intros _. unfold write_uint. by rewrite ?Z.shiftr_0_r. Qed.

Lemma take_be_app bs rest n :
  length bs = n → take_be n (bs ++ rest)%list = Some (be_value bs 0, rest).
Proof.
  intros <-. unfold take_be. rewrite length_app, (proj2 (Nat.leb_le _ _)) by lia.
  by rewrite take_app_length, drop_app_length.
Qed.

Lemma take_be_bytes n v rest :
  (0 ≤ v < 256 ^ Z.of_nat n)%Z → take_be n (be_bytes n v ++ rest)%list = Some (v, rest).
Proof.
  intros Hv. rewrite take_be_app by apply be_bytes_length.
  rewrite be_value_be_bytes, Z.mod_small by lia. done.
Qed.

Lemma read_write_uint v rest :
  (0 ≤ v ≤ u64_max)%Z → read_uint (write_uint [] v ++ rest)%list = Some (v, rest).
Proof.
  unfold u64_max. intros Hv. rewrite write_uint_be by done. rewrite app_nil_l.
  destruct (v <=? 127)%Z eqn:E1; bool_to_prop.
  { simpl. rewrite u8_val_as_u8, Z.mod_small by lia.
    by rewrite (proj2 (Z.leb_le v 127)). }
  repeat case_match; bool_to_prop; rewrite <- app_comm_cons; cbn [read_uint];
    apply take_be_bytes; simpl; lia.
Qed.

Lemma read_delta_bytes sid sq body_mp :
  (0 ≤ sid ≤ u32_max)%Z → (0 ≤ sq ≤ u64_max)%Z →
  read_header (delta_bytes sid sq body_mp) = Some (types.DELTA, sid, sq, body_mp).
Proof.
  intros Hs Hq. assert (0 ≤ sid ≤ u64_max)%Z as Hs' by (unfold u32_max, u64_max in *; lia).
  assert (∀ buf v, write_uint buf v = (buf ++ write_uint [] v)%list) as Hbuf by done.
  unfold delta_bytes. rewrite (Hbuf (write_uint _ _)), (Hbuf [x94; as_u8 types.DELTA]).
  rewrite <- !app_assoc. cbn [app read_header].
  change (u8_val x94 =? 148)%Z with true. cbv iota.
  assert (read_uint (as_u8 types.DELTA :: (write_uint [] sid ++ write_uint [] sq ++ body_mp)%list)
          = Some (types.DELTA, (write_uint [] sid ++ write_uint [] sq ++ body_mp)%list)) as ->
    by done.
  simpl. rewrite read_write_uint by done. simpl. by rewrite read_write_uint.
Qed.

(** ** Properties *)

(** What [write_uint] appends for a [u64] reads back, by the MessagePack
    format, as that integer, and leaves what follows untouched. *)
Theorem write_uint_roundtrip buf v rest :
  (0 ≤ v ≤ u64_max)%Z →
  ∃ enc, write_uint buf v = (buf ++ enc)%list ∧ read_uint (enc ++ rest)%list = Some (v, rest).
Proof.
  intros Hv. exists (write_uint [] v). split; [done|]. by apply read_write_uint.
Qed.

Lemma write_uint_roundtrip_witness :
  ∃ enc, write_uint [x94] 70000 = ([x94] ++ enc)%list ∧
         read_uint (enc ++ [x00])%list = Some (70000%Z, [x00]).
Proof. apply (write_uint_roundtrip [x94] 70000 [x00]). by vm_compute. Defined.

(** [write_uint] is the most compact representation: no unsigned encoding
    of the integer is shorter, and one of the same length is the same bytes. *)
Theorem write_uint_shortest bs v :
  read_uint bs = Some (v, []) →
  (length (write_uint [] v) ≤ length bs)%nat ∧
  (length bs = length (write_uint [] v) → bs = write_uint [] v).
Proof.
  assert (∀ n rest, take_be n rest = Some (v, []) →
    length rest = n ∧ rest = be_bytes n v ∧ (0 ≤ v < 256 ^ Z.of_nat n)%Z) as Htake.
  { intros n rest. unfold take_be. destruct (Nat.leb n (length rest)) eqn:E; [|done].
    apply Nat.leb_le in E. intros [= <- Hd].
    assert (length rest = n) as <-.
    { apply (f_equal length) in Hd. rewrite length_drop in Hd. simpl in Hd. lia. }
    rewrite firstn_all. pose proof (be_value_bounds rest 0 ltac:(lia)).
    rewrite be_bytes_be_value by lia. split_and!; done || lia. }
  destruct bs as [|b rest]; [done|]. unfold read_uint.
  assert (∀ z, u8_val b = z → b = as_u8 z) as Hb by (intros z <-; by rewrite as_u8_u8_val).
  repeat case_match; bool_to_prop; try done; intros Hread;
    [|apply Htake in Hread as (Hlen & -> & Hv);
      match goal with E : u8_val b = _ |- _ => apply Hb in E as -> end;
      simpl in Hv; rewrite write_uint_be by (unfold u64_max; lia); rewrite app_nil_l;
      repeat case_match; bool_to_prop; cbn [length]; rewrite ?be_bytes_length; split;
      try lia; try (intros; lia); done..].
  injection Hread as <- ->. pose proof (u8_val_range b). unfold write_uint.
  rewrite (proj2 (Z.leb_le _ 127)) by done. rewrite app_nil_l, as_u8_u8_val. done.
Qed.

Lemma write_uint_shortest_witness :
  [xcd; x01; x00] = write_uint [] 256.
Proof. apply (write_uint_shortest [xcd; x01; x00] 256); reflexivity. Defined.

(** C33. The bytes of [delta_bytes] are a four-element array whose first three
    elements are the DELTA code, the stream id and the sequence number, followed
    by the shared body untouched. *)
Theorem delta_bytes_header sid sq body_mp :
  (0 ≤ sid ≤ u32_max)%Z → (0 ≤ sq ≤ u64_max)%Z →
  read_header (delta_bytes sid sq body_mp) = Some (types.DELTA, sid, sq, body_mp).
Proof. apply read_delta_bytes. Qed.

Lemma delta_bytes_header_witness :
  read_header (delta_bytes 10 0 [xc0]) = Some (types.DELTA, 10%Z, 0%Z, [xc0]).
Proof. apply (delta_bytes_header 10 0 [xc0]); by vm_compute. Defined.
