(* ===== verification/Log.v ===== *)
(** * The segmented on-disk log (src/src/log.rs)

    A directory is a finite map from file names to contents.  Segment files
    are named "seg_{n:010}.log" and hold records of a little-endian [u32]
    length and an rmp_serde payload.  The file models writing, reading and
    replaying records, rotation and compaction, with the directory passed
    explicitly; the payload codec is a parameter.

    Each operation returns the log and the directory it leaves behind also
    when it fails.  Of the operating system's errors the model has those the
    code provokes itself (opening a missing file, [create_new] on an existing
    one); a crash is a prefix of the bytes written.  The other errors, and the
    [BufWriter] between an entry and its file, are in LogIO.v. *)

From S2P Require Import Prelude RustStr Json Delta.

Local Open Scope string_scope.

(** ** Entries and their codec *)

Record LogEntry : Type := mkLogEntry {
  le_version : Z;
  le_key : string;
  le_ops : list DeltaOp;
  le_value : Value;
}.

#[global] Instance LogEntry_eq_dec : EqDecision LogEntry.
Proof. solve_decision. Defined.

(** rmp_serde on [LogEntry]: [to_vec] and [from_slice]. *)
Class EntryCodec : Type := {
  entry_to_vec : LogEntry → result (list byte) string;
  entry_from_slice : list byte → result LogEntry string;
}.

(** ** Little-endian integers ([u32::to_le_bytes], [u32::from_le_bytes]) *)

Fixpoint le_bytes (n : nat) (v : Z) : list byte :=
  match n with
  | O => []
  | S n' => as_u8 v :: le_bytes n' (v / 256)
  end.

Fixpoint le_val (bs : list byte) : Z :=
  match bs with
  | [] => 0
  | b :: bs' => (u8_val b + 256 * le_val bs')%Z
  end.

Lemma le_bytes_length n v : length (le_bytes n v) = n.
Proof. revert v. induction n; intros; simpl; congruence. Qed.

Lemma le_val_bytes n v : le_val (le_bytes n v) = (v mod 256 ^ Z.of_nat n)%Z.
Proof.
  revert v. induction n as [|n IH]; intros v; cbn [le_bytes le_val]; [by rewrite Z.mod_1_r|].
  rewrite IH, u8_val_as_u8, Nat2Z.inj_succ, Z.pow_succ_r by lia.
  assert (0 < 256 ^ Z.of_nat n)%Z by (apply Z.pow_pos_nonneg; lia).
  rewrite (Z.rem_mul_r v 256 (256 ^ Z.of_nat n)) by lia. done.
Qed.

(** ** Segment names *)

Definition digit (d : Z) : ascii := Ascii.ascii_of_N (Z.to_N (48 + d)).

Fixpoint to_dec (fuel : nat) (n : Z) (acc : string) : string :=
  match fuel with
  | O => acc
  | S f =>
      let acc' := String (digit (n mod 10)) acc in
      if (n <? 10)%Z then acc' else to_dec f (n / 10) acc'
  end.

Fixpoint zeros (n : nat) (s : string) : string :=
  match n with O => s | S n' => String "0" (zeros n' s) end.

(** [format!("{n:010}")] for a [u64]: at most 20 digits, padded to 10. *)
Definition pad10 (n : Z) : string :=
  let s := to_dec 20 n "" in zeros (10 - String.length s) s.

Definition SEGMENT_PREFIX : string := "seg_".
Definition SEGMENT_SUFFIX : string := ".log".
Definition MAX_ENTRIES_PER_SEGMENT : Z := 100000.
Definition MAX_SEGMENTS_BEFORE_COMPACT : Z := 3.

Definition segment_path (seg_num : Z) : string :=
  SEGMENT_PREFIX ++ pad10 seg_num ++ SEGMENT_SUFFIX.

(** [str::parse::<u64>]: an optional '+', at least one digit, in range. *)
Definition digit_val (c : ascii) : option Z :=
  let d := (Z.of_N (Ascii.N_of_ascii c) - 48)%Z in
  if (0 <=? d)%Z && (d <=? 9)%Z then Some d else None.

Fixpoint parse_digits (s : string) (acc : Z) : option Z :=
  match s with
  | EmptyString => Some acc
  | String c s' => digit_val c ≫= λ d, parse_digits s' (10 * acc + d)
  end.

Definition parse_u64 (s : string) : option Z :=
  let body := match s with String "+" s' => s' | _ => s end in
  match body with
  | EmptyString => None
  | _ => parse_digits body 0 ≫= λ n, if (n <=? u64_max)%Z then Some n else None
  end.

(** ** The directory *)

Abbreviation Dir := (gmap string (list byte)).

Definition segment_number (name : string) : option Z :=
  str_strip_prefix SEGMENT_PREFIX name ≫= λ rest,
  str_strip_suffix SEGMENT_SUFFIX rest ≫= parse_u64.

#[global] Arguments segment_number : simpl never.
#[global] Arguments segment_path : simpl never.

Definition list_segments (dir : Dir) : list Z :=
  merge_sort Z.le (omap segment_number (map_to_list dir).*1).

(** ** Records *)

Section Records.
Context `{EntryCodec}.

Definition write_entry (w : list byte) (entry : LogEntry) : result (list byte) string :=
  let? payload := entry_to_vec entry in
  Ok ((w ++ le_bytes 4 (Z.of_nat (length payload))) ++ payload)%list.

(** What [read_entry] returns: [Ok(None)], an error, or an entry and the rest. *)
Inductive ReadRes : Type :=
| REof
| RErr
| REntry (e : LogEntry) (rest : list byte).

Definition read_entry (r : list byte) : ReadRes :=
  if Nat.ltb (length r) 4 then REof
  else
    let len := Z.to_nat (le_val (take 4 r)) in
    let r' := drop 4 r in
    if Nat.ltb (length r') len then RErr
    else match entry_from_slice (take len r') with
         | Ok e => REntry e (drop len r')
         | Err _ => RErr
         end.

(** The loop of [replay_segment]: the entries read and the position after the
    last complete one.  Every round that goes on consumes at least four bytes. *)
Fixpoint replay_loop (fuel : nat) (r : list byte) (pos : nat) : list LogEntry * nat :=
  match fuel with
  | O => ([], pos)
  | S fuel' =>
      match read_entry r with
      | REntry e rest =>
          let '(es, pos') := replay_loop fuel' rest (pos + (length r - length rest)) in
          (e :: es, pos')
      | _ => ([], pos)
      end
  end.

Definition replay_content (content : list byte) : list LogEntry * nat :=
  replay_loop (S (length content)) content 0.

(** [replay_segment]: the entries, and the file truncated to the last complete
    record. *)
Definition replay_segment (dir : Dir) (path : string) : result (list LogEntry * Dir) string :=
  match dir !! path with
  | None => Err "not found"
  | Some content =>
      let '(entries, valid_pos) := replay_content content in
      Ok (entries, if Nat.eqb (length content) valid_pos then dir
                   else <[path := take valid_pos content]> dir)
  end.
End Records.

(** ** [SegmentedLog] *)

Record SegmentedLog : Type := mkLog {
  current_seg : Z;
  writer : string;         (* the file the [BufWriter] appends to *)
  entry_count : Z;
  segment_count : Z;
}.

Section Segments.
Context `{EntryCodec}.

(** The replay loop of [open]. *)
Fixpoint replay_all (dir : Dir) (segs : list Z) : result (list LogEntry * Z * Dir) string :=
  match segs with
  | [] => Ok ([], 0%Z, dir)
  | seg_num :: segs' =>
      let? r := replay_segment dir (segment_path seg_num) in
      let '(chunk, dir1) := r in
      let? r' := replay_all dir1 segs' in
      let '(rest, last_count, dir2) := r' in
      Ok ((chunk ++ rest)%list,
          match segs' with [] => Z.of_nat (length chunk) | _ => last_count end, dir2)
  end.

(** [open] on a file system whose calls succeed; [io_open] of LogIO.v has those that fail. *)
Definition log_open (dir : Dir) : result (SegmentedLog * list LogEntry * Dir) string :=
  let segments := list_segments dir in
  let? r := replay_all dir segments in
  let '(all_entries, last_seg_count, dir1) := r in
  let current := default 0%Z (last segments) in
  let seg_path := segment_path current in
  let dir2 := match dir1 !! seg_path with Some _ => dir1 | None => <[seg_path := []]> dir1 end in
  Ok (mkLog current seg_path last_seg_count (Z.max (Z.of_nat (length segments)) 1),
      all_entries, dir2).

(** [OpenOptions::new().create_new(true)] *)
Definition create_new (dir : Dir) (path : string) : result Dir string :=
  match dir !! path with
  | Some _ => Err "file exists"
  | None => Ok (<[path := []]> dir)
  end.

Definition rotate (l : SegmentedLog) (dir : Dir) : result unit string * SegmentedLog * Dir :=
  let cur := u64_add (current_seg l) 1 in
  let path := segment_path cur in
  match create_new dir path with
  | Err e => (Err e, mkLog cur (writer l) (entry_count l) (segment_count l), dir)
  | Ok dir' => (Ok tt, mkLog cur path 0 (segment_count l + 1), dir')
  end.

Definition log_append (l : SegmentedLog) (dir : Dir) (entry : LogEntry) :
    result unit string * SegmentedLog * Dir :=
  let '(r, l1, dir1) :=
    if (MAX_ENTRIES_PER_SEGMENT <=? entry_count l)%Z then rotate l dir else (Ok tt, l, dir) in
  match r with
  | Err e => (Err e, l1, dir1)
  | Ok _ =>
      match write_entry (default [] (dir1 !! writer l1)) entry with
      | Err e => (Err e, l1, dir1)
      | Ok content =>
          (Ok tt, mkLog (current_seg l1) (writer l1) (entry_count l1 + 1) (segment_count l1),
           <[writer l1 := content]> dir1)
      end
  end.

Definition needs_compact (l : SegmentedLog) : bool :=
  (MAX_SEGMENTS_BEFORE_COMPACT <? segment_count l)%Z.

(** The snapshot loop of [compact]: the bytes written, also when it fails. *)
Fixpoint write_entries (w : list byte) (es : list LogEntry) : result unit string * list byte :=
  match es with
  | [] => (Ok tt, w)
  | e :: es' =>
      match write_entry w e with
      | Ok w' => write_entries w' es'
      | Err err => (Err err, w)
      end
  end.

Definition log_compact (l : SegmentedLog) (dir : Dir) (snapshot : list LogEntry) :
    result unit string * SegmentedLog * Dir :=
  let old_segs := list_segments dir in
  let cur1 := u64_add (current_seg l) 1 in
  let snap_path := segment_path cur1 in
  let l1 := mkLog cur1 (writer l) (entry_count l) (segment_count l) in
  match create_new dir snap_path with
  | Err e => (Err e, l1, dir)
  | Ok dir1 =>
      let '(r, bytes) := write_entries [] snapshot in
      let dir2 := <[snap_path := bytes]> dir1 in
      match r with
      | Err e => (Err e, l1, dir2)
      | Ok _ =>
          let cur2 := u64_add cur1 1 in
          let new_path := segment_path cur2 in
          match create_new dir2 new_path with
          | Err e => (Err e, mkLog cur2 (writer l) (entry_count l) (segment_count l), dir2)
          | Ok dir3 =>
              (Ok tt, mkLog cur2 new_path 0 2,
               fold_left (λ d seg_num, delete (segment_path seg_num) d) old_segs dir3)
          end
      end
  end.
End Segments.

(** ** Segment names round-trip *)

Lemma digit_val_digit d : (0 ≤ d ≤ 9)%Z → digit_val (digit d) = Some d.
Proof.
  intros Hd. unfold digit_val, digit. rewrite Ascii.N_ascii_embedding by lia.
  rewrite Z2N.id by lia. replace (48 + d - 48)%Z with d by lia.
  by rewrite !(proj2 (Z.leb_le _ _)) by lia.
Qed.

Lemma parse_digits_to_dec f n acc :
  (0 ≤ n < 10 ^ Z.of_nat (S f))%Z →
  parse_digits (to_dec (S f) n acc) 0 = parse_digits acc n.
Proof.
  revert n acc. induction f as [|f IH]; intros n acc Hn.
  - change (10 ^ Z.of_nat 1)%Z with 10%Z in Hn.
    cbn [to_dec]. rewrite (proj2 (Z.ltb_lt _ _)) by lia.
    cbn [parse_digits]. rewrite Z.mod_small, digit_val_digit by lia.
    cbn. f_equal; lia.
  - remember (S f) as g. cbn [to_dec]. subst g. destruct (n <? 10)%Z eqn:E; bool_to_prop.
    + cbn [parse_digits]. rewrite Z.mod_small, digit_val_digit by lia.
      cbn. f_equal; lia.
    + assert (Hlt : (n / 10 < 10 ^ Z.of_nat (S f))%Z).
      { apply Z.div_lt_upper_bound; [lia|]. rewrite <- Z.pow_succ_r by lia.
        replace (Z.succ (Z.of_nat (S f))) with (Z.of_nat (S (S f))) by lia. lia. }
      pose proof (Z.mod_pos_bound n 10 ltac:(lia)).
      rewrite IH by (split; [apply Z.div_pos; lia|done]).
      cbn [parse_digits]. rewrite digit_val_digit by lia. cbn.
      f_equal. rewrite (Z.div_mod n 10) at 3; lia.
Qed.

Lemma parse_digits_zeros k s : parse_digits (zeros k s) 0 = parse_digits s 0.
Proof. induction k as [|k IH]; [done|]. cbn [zeros parse_digits]. rewrite <- IH. done. Qed.

(** A decimal rendering is not empty and does not start with a sign. *)
Definition digit_first (s : string) : Prop :=
  ∃ c s', s = String c s' ∧ is_Some (digit_val c).

Lemma to_dec_first f n acc : (0 ≤ n)%Z → digit_first (to_dec (S f) n acc).
Proof.
  revert n acc. induction f as [|f IH]; intros n acc Hn.
  all: pose proof (Z.mod_pos_bound n 10 ltac:(lia)).
  all: assert (Hd : is_Some (digit_val (digit (n mod 10)))) by (rewrite digit_val_digit by lia; eauto).
  - cbn [to_dec]. case_match; (eexists _, _; split; [done|done]).
  - remember (S f) as g. cbn [to_dec]. case_match; [by eexists _, _|].
    subst g. apply IH. apply Z.div_pos; lia.
Qed.

Lemma zeros_first k s : digit_first s → digit_first (zeros k s).
Proof. destruct k; [done|]. intros _. cbn. eexists _, _; split; [done|]. by exists 0%Z. Qed.

Lemma parse_u64_digits s n :
  digit_first s → parse_digits s 0 = Some n → (n ≤ u64_max)%Z → parse_u64 s = Some n.
Proof.
  intros (c & s' & -> & Hc) Hs Hn. unfold parse_u64.
  destruct (decide (c = "+"%char)) as [->|Hne]; [by destruct Hc|].
  replace (match String c s' with String "+" s'' => s'' | _ => String c s' end) with (String c s').
  - rewrite Hs. cbn. by rewrite (proj2 (Z.leb_le _ _)).
  - destruct c as [[] [] [] [] [] [] [] []]; done.
Qed.

Lemma parse_u64_pad10 n : (0 ≤ n ≤ u64_max)%Z → parse_u64 (pad10 n) = Some n.
Proof.
  intros Hn. unfold pad10. apply parse_u64_digits; [|rewrite parse_digits_zeros|lia].
  - apply zeros_first, to_dec_first. lia.
  - rewrite parse_digits_to_dec; [done|]. unfold u64_max in Hn.
    change (Z.of_nat 20) with 20%Z. lia.
Qed.

(** Plain decimal renderings. *)
Lemma parse_u64_to_dec n : (0 ≤ n ≤ u64_max)%Z → parse_u64 (to_dec 20 n "") = Some n.
Proof.
  intros Hn. apply parse_u64_digits; [apply to_dec_first; lia| |lia].
  rewrite parse_digits_to_dec; [done|]. unfold u64_max in Hn. change (Z.of_nat 20) with 20%Z. lia.
Qed.

Lemma to_dec_contains c f n acc :
  digit_val c = None → (0 ≤ n)%Z → str_contains c (to_dec f n acc) = str_contains c acc.
Proof.
  intros Hc. revert n acc. induction f as [|f IH]; intros n acc Hn; [done|]. cbn [to_dec].
  assert (Hd : str_contains c (String (digit (n mod 10)) acc) = str_contains c acc).
  { cbn. destruct (Ascii.eqb (digit (n mod 10)) c) eqn:E; [|done]. apply Ascii.eqb_eq in E.
    pose proof (digit_val_digit (n mod 10) ltac:(pose proof (Z.mod_pos_bound n 10); lia)) as Hv. congruence. }
  destruct (n <? 10)%Z; [done|]. rewrite IH; [done|]. apply Z.div_pos; lia.
Qed.

Lemma segment_number_path n : (0 ≤ n ≤ u64_max)%Z → segment_number (segment_path n) = Some n.
Proof.
  intros Hn. unfold segment_number, segment_path.
  rewrite str_strip_prefix_app. cbn. rewrite str_strip_suffix_app. by apply parse_u64_pad10.
Qed.

Lemma segment_path_inj n m :
  (0 ≤ n ≤ u64_max)%Z → (0 ≤ m ≤ u64_max)%Z → segment_path n = segment_path m → n = m.
Proof.
  intros Hn Hm E. apply segment_number_path in Hn, Hm. congruence.
Qed.

(** ** Listing the directory *)

Lemma list_segments_perm dir : list_segments dir ≡ₚ omap segment_number (map_to_list dir).*1.
Proof. apply merge_sort_Permutation. Qed.

Lemma list_segments_sorted dir : StronglySorted Z.le (list_segments dir).
Proof. apply StronglySorted_merge_sort; apply _. Qed.

(** The listing is the one sorted arrangement of the numbers present. *)
Lemma list_segments_unique dir ns :
  StronglySorted Z.le ns → ns ≡ₚ omap segment_number (map_to_list dir).*1 →
  list_segments dir = ns.
Proof.
  intros Hs Hp. apply (StronglySorted_unique Z.le); [apply list_segments_sorted|done|].
  by rewrite list_segments_perm, Hp.
Qed.

Lemma list_segments_keys_perm dir name c :
  dir !! name = None →
  list_segments (<[name := c]> dir) ≡ₚ (option_list (segment_number name) ++ list_segments dir)%list.
Proof.
  intros Hn. rewrite !list_segments_perm.
  rewrite (map_to_list_insert dir name c Hn). cbn.
  destruct (segment_number name); done.
Qed.

(** ** Replaying records *)

Section Replay.
Context `{EntryCodec}.

(** The codec reads back what it wrote for [e], and the length field holds it. *)
Definition enc_ok (e : LogEntry) : Prop :=
  ∃ bs, entry_to_vec e = Ok bs ∧ entry_from_slice bs = Ok e ∧ (Z.of_nat (length bs) < 2 ^ 32)%Z.

#[global] Instance enc_ok_dec e : Decision (enc_ok e).
Proof.
  refine (match entry_to_vec e as r return entry_to_vec e = r → Decision (enc_ok e) with
    | Ok bs => λ E, match entry_from_slice bs as r return entry_from_slice bs = r → _ with
        | Ok e' => λ E', cast_if_and (decide (e' = e)) (decide (Z.of_nat (length bs) < 2 ^ 32)%Z)
        | Err _ => λ E', right _
        end eq_refl
    | Err _ => λ E, right _
    end eq_refl).
  1: abstract (exists bs; split_and!; congruence).
  all: abstract (intros (bs' & E1 & E2 & E3); rewrite E in E1; (discriminate || injection E1 as <-); congruence).
Defined.

(** The bytes of one record and of a sequence of records. *)
Definition frame_record (payload : list byte) : list byte :=
  (le_bytes 4 (Z.of_nat (length payload)) ++ payload)%list.
Definition record_of (e : LogEntry) : list byte :=
  match entry_to_vec e with Ok bs => frame_record bs | Err _ => [] end.
Definition records (es : list LogEntry) : list byte := flat_map record_of es.

Lemma records_app es1 es2 : records (es1 ++ es2) = (records es1 ++ records es2)%list.
Proof. apply flat_map_app. Qed.

Lemma record_of_ok e : enc_ok e → ∃ bs,
  record_of e = frame_record bs ∧ entry_from_slice bs = Ok e ∧ (Z.of_nat (length bs) < 2 ^ 32)%Z.
Proof. intros (bs & E & ?). exists bs. unfold record_of. rewrite E. done. Qed.

Lemma frame_record_length bs : length (frame_record bs) = 4 + length bs.
Proof. unfold frame_record. by rewrite length_app, le_bytes_length. Qed.

Lemma write_entry_ok w e : enc_ok e → write_entry w e = Ok (w ++ record_of e)%list.
Proof.
  intros (bs & E & _). unfold write_entry, record_of, frame_record. rewrite E. cbn.
  by rewrite <- app_assoc.
Qed.

Lemma write_entries_ok w es :
  Forall enc_ok es → write_entries w es = (Ok tt, (w ++ records es)%list).
Proof.
  intros Hes. revert w. induction Hes as [|e es He _ IH]; intros w; cbn [write_entries].
  - by rewrite app_nil_r.
  - rewrite write_entry_ok by done. rewrite IH. cbn. by rewrite <- app_assoc.
Qed.

(** Reading a complete record: the decoder sees exactly its payload. *)
Lemma read_frame_record bs rest :
  (Z.of_nat (length bs) < 2 ^ 32)%Z →
  read_entry (frame_record bs ++ rest) =
    match entry_from_slice bs with Ok e => REntry e rest | Err _ => RErr end.
Proof.
  intros Hlen. unfold read_entry, frame_record.
  rewrite <- app_assoc.
  rewrite (take_app_length' _ _ 4), (drop_app_length' _ _ 4) by (by rewrite le_bytes_length).
  rewrite le_val_bytes. change (256 ^ Z.of_nat 4)%Z with (2 ^ 32)%Z.
  rewrite Z.mod_small, Nat2Z.id by lia.
  rewrite !length_app, le_bytes_length.
  rewrite !(proj2 (Nat.ltb_ge _ _)) by lia.
  by rewrite take_app_length, drop_app_length.
Qed.

Lemma read_record e rest : enc_ok e → read_entry (record_of e ++ rest) = REntry e rest.
Proof.
  intros (bs & -> & E & Hlen)%record_of_ok. rewrite read_frame_record by done. by rewrite E.
Qed.

(** A reader yields an entry only when a whole record is there. *)
Definition stops (r : list byte) : Prop := ∀ e rest, read_entry r ≠ REntry e rest.

(** An entry whose record was written, whether or not the decoder accepts it. *)
Definition written (e : LogEntry) : Prop :=
  ∃ bs, entry_to_vec e = Ok bs ∧ (Z.of_nat (length bs) < 2 ^ 32)%Z.

Lemma enc_ok_written e : enc_ok e → written e.
Proof. intros (bs & ? & _ & ?). by exists bs. Qed.

Lemma enc_ok_written_all es : Forall enc_ok es → Forall written es.
Proof. intros Hes. eapply Forall_impl; [exact Hes|]. apply enc_ok_written. Qed.

(** What the decoder makes of the record of an entry. *)
Definition read_back (e : LogEntry) : option LogEntry :=
  match entry_to_vec e with
  | Ok bs => match entry_from_slice bs with Ok e' => Some e' | Err _ => None end
  | Err _ => None
  end.

(** What a reader gets from records: up to the first that the decoder refuses. *)
Fixpoint read_all (es : list LogEntry) : list LogEntry :=
  match es with
  | [] => []
  | e :: es' => match read_back e with Some e' => e' :: read_all es' | None => [] end
  end.

Lemma read_all_ok es : Forall enc_ok es → read_all es = es.
Proof.
  induction 1 as [|e es (bs & E & D & _) _ IH]; [done|]. cbn. unfold read_back. by rewrite E, D, IH.
Qed.

Lemma read_partial_record e k :
  written e → k < length (record_of e) → stops (take k (record_of e)).
Proof.
  intros (bs & E & Hlen) Hk. unfold record_of in *. rewrite E in *. rewrite frame_record_length in Hk.
  intros e' rest. unfold read_entry.
  rewrite length_take, frame_record_length, Nat.min_l by lia.
  destruct (Nat.ltb k 4) eqn:E4; [done|]. bool_to_prop.
  rewrite take_take, Nat.min_l by lia. unfold frame_record.
  rewrite (take_app_length' _ _ 4) by (by rewrite le_bytes_length).
  rewrite le_val_bytes. change (256 ^ Z.of_nat 4)%Z with (2 ^ 32)%Z.
  rewrite Z.mod_small, Nat2Z.id by lia.
  rewrite length_drop, length_take, length_app, le_bytes_length.
  by rewrite (proj2 (Nat.ltb_lt _ _)) by lia.
Qed.

Lemma stops_nil : stops [].
Proof. done. Qed.

Lemma replay_loop_stops fuel r pos : stops r → replay_loop fuel r pos = ([], pos).
Proof. intros Hr. destruct fuel; [done|]. cbn. destruct (read_entry r) eqn:E; [done..|]. by apply Hr in E. Qed.

Lemma replay_loop_records fuel es tail pos :
  Forall enc_ok es → stops tail → (length es ≤ fuel)%nat →
  replay_loop fuel (records es ++ tail) pos = (es, pos + length (records es)).
Proof.
  intros Hes Ht. revert fuel pos. induction Hes as [|e es He _ IH]; intros fuel pos Hf.
  - cbn. rewrite replay_loop_stops by done. f_equal. lia.
  - destruct fuel as [|fuel]; [cbn in Hf; lia|]. cbn in Hf.
    cbn [records flat_map]. change (flat_map record_of es) with (records es).
    rewrite <- app_assoc. cbn [replay_loop].
    rewrite read_record by done. rewrite IH by lia.
    rewrite !length_app. f_equal. lia.
Qed.

(** The same for records the decoder may refuse. *)
Lemma replay_loop_written fuel es tail pos :
  Forall written es → stops tail → (length es ≤ fuel)%nat →
  replay_loop fuel (records es ++ tail) pos =
    (read_all es, pos + length (records (take (length (read_all es)) es))).
Proof.
  intros Hes Ht. revert fuel pos. induction Hes as [|e es (bs & E & Hlen) _ IH]; intros fuel pos Hf.
  - cbn. rewrite replay_loop_stops by done. f_equal. lia.
  - destruct fuel as [|fuel]; [cbn in Hf; lia|]. cbn in Hf.
    cbn [records flat_map read_all]. change (flat_map record_of es) with (records es).
    rewrite <- app_assoc. cbn [replay_loop]. unfold read_back, record_of at 1 2. rewrite E, read_frame_record by done.
    destruct (entry_from_slice bs) as [e'|err]; [|cbn; f_equal; lia].
    rewrite IH by lia. cbn [length take records flat_map].
    change (flat_map record_of (take (length (read_all es)) es)) with (records (take (length (read_all es)) es)).
    unfold record_of. rewrite E, !length_app. f_equal. lia.
Qed.

Lemma records_length_written es : Forall written es → (length es ≤ length (records es))%nat.
Proof.
  induction 1 as [|e es (bs & E & _) _ IH]; [done|]. cbn. rewrite length_app.
  unfold record_of at 1. rewrite E, frame_record_length. unfold records in IH. lia.
Qed.

Lemma replay_segment_written dir path es tail :
  Forall written es → stops tail → dir !! path = Some (records es ++ tail)%list →
  replay_segment dir path =
    Ok (read_all es, <[path := records (take (length (read_all es)) es)]> dir).
Proof.
  intros Hes Ht Hd. unfold replay_segment, replay_content. rewrite Hd.
  rewrite replay_loop_written; [|done|done|rewrite length_app; pose proof (records_length_written es Hes); lia].
  cbn [Nat.add]. set (m := length (read_all es)).
  assert (Hsplit : (records es ++ tail)%list = (records (take m es) ++ records (drop m es) ++ tail)%list).
  { rewrite app_assoc. f_equal. unfold records. rewrite <- flat_map_app. by rewrite take_drop. }
  rewrite Hsplit in *. rewrite length_app. destruct (Nat.eqb _ _) eqn:E; bool_to_prop.
  - destruct (records (drop m es) ++ tail)%list; [|cbn in E; lia]. rewrite app_nil_r in Hd. by rewrite insert_id.
  - by rewrite take_app_length.
Qed.

Lemma records_length_ge es : Forall enc_ok es → (length es ≤ length (records es))%nat.
Proof.
  induction 1 as [|e es He _ IH]; [done|]. cbn. rewrite length_app.
  apply record_of_ok in He as (bs & -> & _). rewrite frame_record_length.
  unfold records in IH. lia.
Qed.

Lemma replay_content_records es tail :
  Forall enc_ok es → stops tail →
  replay_content (records es ++ tail) = (es, length (records es)).
Proof.
  intros Hes Ht. unfold replay_content. rewrite replay_loop_records; [done|done|done|].
  rewrite length_app. pose proof (records_length_ge es Hes). lia.
Qed.

(** Replaying a segment heals it: what remains is the records replayed. *)
Lemma replay_segment_records dir path es tail :
  Forall enc_ok es → stops tail → dir !! path = Some (records es ++ tail)%list →
  replay_segment dir path = Ok (es, <[path := records es]> dir).
Proof.
  intros Hes Ht Hd. unfold replay_segment. rewrite Hd, replay_content_records by done.
  rewrite length_app. destruct (Nat.eqb _ _) eqn:E; bool_to_prop.
  - destruct tail; [|cbn in E; lia]. rewrite app_nil_r in Hd. by rewrite insert_id.
  - by rewrite take_app_length.
Qed.

(** A byte prefix of records is a prefix of the entries and an incomplete one. *)
Lemma records_prefix_split es k :
  Forall written es → ∃ n tail,
    take k (records es) = (records (take n es) ++ tail)%list ∧ stops tail ∧
    (length (records (take n es)) ≤ k)%nat ∧ (n < length es → k < length (records (take (S n) es))).
Proof.
  intros Hes. revert k. induction Hes as [|e es He _ IH]; intros k.
  - exists 0, []. cbn. split_and!; [by rewrite take_nil|apply stops_nil|lia|lia].
  - destruct (decide (k < length (record_of e))) as [Hk|Hk].
    + exists 0, (take k (record_of e)). cbn. split_and!.
      * by rewrite take_app_le by lia.
      * by apply read_partial_record.
      * lia.
      * intros _. rewrite length_app. lia.
    + destruct (IH (k - length (record_of e))) as (n & tail & E & Ht & Hle & Hlt).
      exists (S n), tail. cbn. rewrite !length_app. split_and!.
      * rewrite take_app_ge, <- app_assoc by lia. f_equal. exact E.
      * done.
      * unfold records in Hle. lia.
      * intros Hn. unfold records in Hlt. cbn in Hlt. specialize (Hlt ltac:(lia)). lia.
Qed.

End Replay.

(** ** The directory under insertion and deletion *)

Lemma list_segments_insert_present dir name c c0 :
  dir !! name = Some c0 → list_segments (<[name := c]> dir) = list_segments dir.
Proof.
  intros Hn. apply list_segments_unique; [apply list_segments_sorted|].
  rewrite <- list_segments_perm.
  assert (Hp : ∀ c', list_segments (<[name := c']> dir) ≡ₚ
    (option_list (segment_number name) ++ list_segments (delete name dir))%list).
  { intros c'. rewrite <- insert_delete_eq. apply list_segments_keys_perm, lookup_delete_eq. }
  rewrite (Hp c), <- (Hp c0). by rewrite insert_id.
Qed.

Lemma list_segments_delete dir n c :
  (0 ≤ n ≤ u64_max)%Z → dir !! segment_path n = Some c →
  list_segments dir ≡ₚ n :: list_segments (delete (segment_path n) dir).
Proof.
  intros Hn Hc. rewrite <- (insert_delete_id dir _ c Hc) at 1.
  rewrite list_segments_keys_perm by apply lookup_delete_eq.
  by rewrite segment_number_path.
Qed.

Lemma list_segments_insert_last dir n c :
  (0 ≤ n ≤ u64_max)%Z → Forall (λ m, m < n)%Z (list_segments dir) →
  dir !! segment_path n = None ∧
  list_segments (<[segment_path n := c]> dir) = (list_segments dir ++ [n])%list.
Proof.
  intros Hn Hlt.
  assert (Hfresh : dir !! segment_path n = None).
  { destruct (dir !! segment_path n) as [c0|] eqn:E; [|done].
    pose proof (list_segments_delete dir n c0 Hn E) as Hp.
    rewrite Hp in Hlt. apply Forall_cons in Hlt as [? _]. lia. }
  split; [done|]. apply list_segments_unique; [|rewrite <- list_segments_perm].
  - apply StronglySorted_app_2; [|apply list_segments_sorted|repeat constructor].
    intros x1 x2 H1 H2%list_elem_of_singleton. subst.
    rewrite Forall_forall in Hlt. specialize (Hlt _ H1). lia.
  - rewrite list_segments_keys_perm, segment_number_path by done.
    cbn. by rewrite Permutation_app_comm.
Qed.

(** Removing the old segments, as [compact] does, leaves the others. *)
Lemma remove_segments ns rest dir :
  NoDup ns → Forall (λ n, 0 ≤ n ≤ u64_max)%Z ns →
  Forall (λ n, is_Some (dir !! segment_path n)) ns →
  list_segments dir ≡ₚ (ns ++ rest)%list →
  list_segments (fold_left (λ d n, delete (segment_path n) d) ns dir) ≡ₚ rest.
Proof.
  intros Hnd. revert dir. induction Hnd as [|n ns Hn _ IH]; intros dir Hr Hp Hl; [done|].
  apply Forall_cons in Hr as [Hrn Hr]. apply Forall_cons in Hp as [[c Hc] Hp].
  cbn. apply IH; [done| |].
  - rewrite Forall_forall in Hp, Hr |- *. intros m Hm.
    rewrite lookup_delete_ne; [by apply Hp|].
    intros E%segment_path_inj; [by subst|done|by apply Hr].
  - rewrite (list_segments_delete dir n c) in Hl by done.
    by apply Permutation_cons_inv in Hl.
Qed.

Lemma remove_segments_lookup ns (dir : Dir) n :
  (0 ≤ n ≤ u64_max)%Z → Forall (λ n, 0 ≤ n ≤ u64_max)%Z ns → n ∉ ns →
  fold_left (λ d n, delete (segment_path n) d) ns dir !! segment_path n = dir !! segment_path n.
Proof.
  intros Hn. revert dir. induction ns as [|m ns IH]; intros dir Hr Hnot; [done|].
  apply Forall_cons in Hr as [Hm Hr]. apply not_elem_of_cons in Hnot as [Hne Hnot].
  cbn. rewrite IH by done. rewrite lookup_delete_ne; [done|].
  intros E%segment_path_inj; done.
Qed.

Lemma last_default_app {A} (l : list A) x d : default d (last (l ++ [x])) = x.
Proof. by rewrite last_snoc. Qed.

(** ** The log's invariant *)

Section LogInv.
Context `{EntryCodec}.

(** [log_inv l dir old es]: the directory holds the closed segments [old], in
    increasing order, and the live segment, whose entries are [es]. *)
Record log_inv (l : SegmentedLog) (dir : Dir) (old : list (Z * list LogEntry))
    (es : list LogEntry) : Prop := {
  li_names : list_segments dir = (old.*1 ++ [current_seg l])%list;
  li_sorted : StronglySorted Z.lt (old.*1 ++ [current_seg l]);
  li_range : Forall (λ n, 0 ≤ n ≤ u64_max)%Z (old.*1 ++ [current_seg l]);
  li_old : Forall (λ s, dir !! segment_path s.1 = Some (records s.2) ∧ Forall enc_ok s.2) old;
  li_live : dir !! segment_path (current_seg l) = Some (records es) ∧ Forall enc_ok es;
  li_writer : writer l = segment_path (current_seg l);
  li_entries : entry_count l = Z.of_nat (length es);
  li_segments : segment_count l = Z.of_nat (S (length old));
}.

Definition log_entries (old : list (Z * list LogEntry)) (es : list LogEntry) : list LogEntry :=
  (flat_map snd old ++ es)%list.

Lemma log_inv_lt l dir old es : log_inv l dir old es →
  Forall (λ n, n < current_seg l)%Z old.*1.
Proof.
  intros Hi. apply Forall_forall. intros n Hn.
  eapply (StronglySorted_app_1_elem_of Z.lt); [apply (li_sorted _ _ _ _ Hi)|done|by left].
Qed.

Lemma log_inv_path_ne l dir old es n c :
  log_inv l dir old es → (n, c) ∈ old → segment_path n ≠ segment_path (current_seg l).
Proof.
  intros Hi Hn E. pose proof (li_range _ _ _ _ Hi) as Hr.
  pose proof (log_inv_lt _ _ _ _ Hi) as Hlt. apply Forall_app in Hr as [Hr Hc].
  rewrite Forall_forall in Hr, Hlt. rewrite Forall_singleton in Hc.
  assert (n ∈ old.*1) by (apply list_elem_of_fmap; by exists (n, c)).
  apply segment_path_inj in E; [|by apply Hr|exact Hc]. specialize (Hlt n ltac:(done)). lia.
Qed.

Lemma replay_all_snoc dir old c es dir' :
  Forall (λ s, dir !! segment_path s.1 = Some (records s.2) ∧ Forall enc_ok s.2) old →
  replay_segment dir (segment_path c) = Ok (es, dir') →
  replay_all dir (old.*1 ++ [c]) = Ok (log_entries old es, Z.of_nat (length es), dir').
Proof.
  intros Hold Hc. induction Hold as [|[n ss] old [Hn Hss] _ IH]; cbn in *.
  - rewrite Hc. cbn. by rewrite app_nil_r.
  - erewrite (replay_segment_records dir _ ss []); [|done|apply stops_nil|by rewrite app_nil_r].
    cbn. rewrite insert_id by done. rewrite IH. cbn.
    rewrite <- app_assoc. by destruct old.
Qed.

(** Rewriting the live segment keeps the rest of the invariant. *)
Lemma log_inv_live l l' dir old es es' :
  log_inv l dir old es → Forall enc_ok es' →
  current_seg l' = current_seg l → writer l' = writer l → segment_count l' = segment_count l →
  entry_count l' = Z.of_nat (length es') →
  log_inv l' (<[segment_path (current_seg l) := records es']> dir) old es'.
Proof.
  intros Hi He Hc Hw Hs Hn. pose proof Hi as [Hnm Hso Hr Ho [Hl Hle] Hwr Hec Hsc].
  split; rewrite ?Hc, ?Hw, ?Hs; try done.
  - by rewrite (list_segments_insert_present _ _ _ _ Hl).
  - apply Forall_forall. intros [n ss] Hin. rewrite Forall_forall in Ho.
    destruct (Ho _ Hin) as [Ho1 Ho2]. split; [|done].
    rewrite lookup_insert_ne; [done|]. cbn. intros E. by eapply log_inv_path_ne.
  - by rewrite lookup_insert_eq.
Qed.

(** Opening a new segment after the live one, as [rotate] does. *)
Lemma log_inv_fresh l dir old es c :
  log_inv l dir old es → (current_seg l < u64_max)%Z →
  u64_add (current_seg l) 1 = (current_seg l + 1)%Z ∧
  dir !! segment_path (current_seg l + 1) = None ∧
  list_segments (<[segment_path (current_seg l + 1) := c]> dir) =
    (old.*1 ++ [current_seg l; current_seg l + 1]%Z)%list.
Proof.
  intros Hi Hm. pose proof (li_range _ _ _ _ Hi) as [_ Hr]%Forall_app.
  rewrite Forall_singleton in Hr. split; [apply u64_add_small; lia|].
  destruct (list_segments_insert_last dir (current_seg l + 1) c) as [Hf Hl]; [lia| |].
  - rewrite (li_names _ _ _ _ Hi). apply Forall_app. split; [|apply Forall_singleton; lia].
    eapply Forall_impl; [apply (log_inv_lt _ _ _ _ Hi)|]. cbn. lia.
  - split; [done|]. rewrite Hl, (li_names _ _ _ _ Hi). by rewrite <- app_assoc.
Qed.

End LogInv.

(** ** Correctness of the log *)

Section LogCorrect.
Context `{EntryCodec}.

(** [open] on the directory of [log_inv], the live segment torn anywhere. *)
Lemma log_open_torn l dir old es es' tail :
  log_inv l dir old es → Forall enc_ok es' → stops tail →
  let l' := mkLog (current_seg l) (writer l) (Z.of_nat (length es')) (segment_count l) in
  let dir' := <[segment_path (current_seg l) := records es']> dir in
  log_open (<[segment_path (current_seg l) := (records es' ++ tail)%list]> dir) =
    Ok (l', log_entries old es', dir') ∧ log_inv l' dir' old es'.
Proof.
  intros Hi He Ht l' dir'. pose proof Hi as [Hnm Hso Hr Ho [Hl Hle] Hwr Hec Hsc].
  split; [|by eapply log_inv_live].
  unfold log_open. rewrite (list_segments_insert_present _ _ _ _ Hl), Hnm.
  rewrite (replay_all_snoc _ old (current_seg l) es' dir').
  - cbn. rewrite last_default_app. unfold dir'. rewrite lookup_insert_eq.
    rewrite length_app, length_fmap. cbn. unfold l'. rewrite Hwr, Hsc.
    repeat f_equal. lia.
  - apply Forall_forall. intros [n ss] Hin. rewrite Forall_forall in Ho.
    destruct (Ho _ Hin). split; [|done]. cbn.
    rewrite lookup_insert_ne; [done|]. intros E. by eapply log_inv_path_ne.
  - rewrite (replay_segment_records _ _ es' tail) by (done || apply lookup_insert_eq).
    by rewrite insert_insert_eq.
Qed.

(** The files of [log_inv] without what it asks of the codec: the entries were
    written, and the decoder may refuse their records. *)
Record log_files (l : SegmentedLog) (dir : Dir) (old : list (Z * list LogEntry))
    (es : list LogEntry) : Prop := {
  lf_names : list_segments dir = (old.*1 ++ [current_seg l])%list;
  lf_nodup : NoDup (old.*1 ++ [current_seg l]);
  lf_range : Forall (λ n, 0 ≤ n ≤ u64_max)%Z (old.*1 ++ [current_seg l]);
  lf_old : Forall (λ s, dir !! segment_path s.1 = Some (records s.2) ∧ Forall written s.2) old;
  lf_live : dir !! segment_path (current_seg l) = Some (records es) ∧ Forall written es;
  lf_writer : writer l = segment_path (current_seg l);
}.

Lemma log_inv_files l dir old es : log_inv l dir old es → log_files l dir old es.
Proof.
  intros Hi. pose proof (log_inv_lt _ _ _ _ Hi) as Hlt. destruct Hi as [H1 H2 H3 H4 [H5' H5] H6 _ _].
  split; try done; [| |split; [done|by apply enc_ok_written_all]].
  - clear -H2. revert H2. generalize (old.*1 ++ [current_seg l])%list. intros ns Hs.
    induction Hs as [|n ns _ IH Hall]; constructor; [|done]. intros Hin. rewrite Forall_forall in Hall.
    specialize (Hall n Hin). lia.
  - eapply Forall_impl; [exact H4|]. intros s [? ?]. split; [done|by apply enc_ok_written_all].
Qed.

(** Replaying segments whose records may be refused: each is read up to its first
    refused or incomplete record, and truncated there. *)
Lemma replay_all_written segs dir :
  NoDup segs.*1 → Forall (λ n, 0 ≤ n ≤ u64_max)%Z segs.*1 →
  Forall (λ s, Forall written s.2 ∧ ∃ tail, stops tail ∧ dir !! segment_path s.1 = Some (records s.2 ++ tail)%list) segs →
  ∃ c dir', replay_all dir segs.*1 = Ok (flat_map (λ s, read_all s.2) segs, c, dir') ∧
    Forall (λ s, dir' !! segment_path s.1 = Some (records (take (length (read_all s.2)) s.2))) segs ∧
    (∀ n, (0 ≤ n ≤ u64_max)%Z → n ∉ segs.*1 → dir' !! segment_path n = dir !! segment_path n).
Proof.
  revert dir. induction segs as [|[n es] segs IH]; intros dir; cbn.
  { intros _ _ _. by exists 0%Z, dir. }
  intros [Hn Hnd]%NoDup_cons [Hr Hrs]%Forall_cons [(Hes & tail & Ht & Hd) Hsegs]%Forall_cons. cbn in *.
  rewrite (replay_segment_written dir _ es tail) by done. cbn [result_bind].
  set (left := records (take (length (read_all es)) es)).
  assert (Hother : ∀ m, (0 ≤ m ≤ u64_max)%Z → m ≠ n → <[segment_path n := left]> dir !! segment_path m = dir !! segment_path m).
  { intros m Hm Hne. rewrite lookup_insert_ne; [done|]. intros E%segment_path_inj; [by subst|done|done]. }
  destruct (IH (<[segment_path n := left]> dir)) as (c & dir' & -> & Hall & Hrest); [done|done|..].
  { rewrite Forall_forall in Hsegs |- *. rewrite Forall_forall in Hrs. intros s Hs. destruct (Hsegs s Hs) as (? & tl & ? & ?).
    assert (s.1 ∈ segs.*1) by (apply list_elem_of_fmap; eauto). split; [done|]. exists tl. split; [done|].
    rewrite Hother; [done|by apply Hrs|]. intros E. by rewrite <- E in Hn. }
  cbn [result_bind]. eexists _, dir'. split; [done|]. split.
  - apply Forall_cons. split; [|done]. cbn. rewrite Hrest by done. by rewrite lookup_insert_eq.
  - intros m Hm [Hne Hnot]%not_elem_of_cons. rewrite Hrest by done. by apply Hother.
Qed.

(** C15. Crash recovery. The directory holds the records appended to the closed
    segments, whether or not the decoder accepts them, and the process died while the
    live segment held any byte prefix of what was appended to it.  Then
    [SegmentedLog::open] succeeds.  It returns, for each segment in order, what the decoder
    makes of its records up to the first that it refuses; of the live segment just the
    records that lie completely inside the prefix count.  It leaves each segment
    truncated to the records read.  When every record is read back as the entry written,
    that is every entry of the closed segments and the complete ones of the live one, and
    the log is in order again. *)
Theorem log_crash_recovery l dir old es k :
  log_files l dir old es →
  ∃ n l' dir',
    log_open (<[writer l := take k (records es)]> dir) =
      Ok (l', (flat_map (λ s, read_all s.2) old ++ read_all (take n es))%list, dir') ∧
    Forall (λ s, dir' !! segment_path s.1 = Some (records (take (length (read_all s.2)) s.2)))
      (old ++ [(current_seg l, take n es)]) ∧
    (length (records (take n es)) ≤ k)%nat ∧
    (n < length es → k < length (records (take (S n) es))) ∧
    (log_inv l dir old es →
      (flat_map (λ s, read_all s.2) old ++ read_all (take n es))%list = log_entries old (take n es) ∧
      log_inv l' dir' old (take n es)).
Proof.
  intros [Hnm Hnd Hr Ho [Hp Hl] Hw]. destruct (records_prefix_split es k Hl) as (n & tail & E & Ht & Hle & Hlt).
  rewrite E, Hw. set (dir0 := <[segment_path (current_seg l) := _]> dir).
  assert (Hsegs : (old ++ [(current_seg l, take n es)])%list.*1 = (old.*1 ++ [current_seg l])%list) by (by rewrite fmap_app).
  destruct (replay_all_written (old ++ [(current_seg l, take n es)]) dir0) as (c & dir' & Hra & Hall & _).
  { by rewrite Hsegs. } { by rewrite Hsegs. }
  { apply Forall_app. split.
    - apply NoDup_app in Hnd as (_ & Hnd & _). apply Forall_app in Hr as [Hr Hc]. rewrite Forall_singleton in Hc.
      rewrite Forall_forall in Ho |- *. rewrite Forall_forall in Hr. intros s Hs. destruct (Ho s Hs) as [Hd Hwr]. split; [done|].
      assert (Hin : s.1 ∈ old.*1) by (apply list_elem_of_fmap; eauto).
      exists []. split; [apply stops_nil|]. unfold dir0. rewrite lookup_insert_ne, app_nil_r; [done|].
      intros Ep%segment_path_inj; [|done|by apply Hr]. apply (Hnd s.1 Hin). rewrite <- Ep. by left.
    - apply Forall_singleton. split; [by apply Forall_take|]. exists tail. split; [done|]. apply lookup_insert_eq. }
  rewrite Hsegs in Hra.
  assert (Hopen : ∃ l', log_open dir0 = Ok (l', (flat_map (λ s, read_all s.2) old ++ read_all (take n es))%list, dir')).
  { unfold log_open. assert (Hls : list_segments dir0 = (old.*1 ++ [current_seg l])%list).
    { unfold dir0. by rewrite (list_segments_insert_present _ _ _ _ Hp). }
    rewrite Hls, Hra. cbn [result_bind]. rewrite last_default_app.
    apply Forall_app in Hall as [_ Hlast]. rewrite Forall_singleton in Hlast. cbn in Hlast. rewrite Hlast.
    rewrite flat_map_app. cbn. rewrite app_nil_r. by eexists. }
  destruct Hopen as [l' Hopen]. exists n, l', dir'. split_and!; [done..|].
  intros Hi. pose proof (li_live _ _ _ _ Hi) as [_ He].
  destruct (log_open_torn l dir old es (take n es) tail) as [Ho' Hi']; [done|by apply Forall_take|done|].
  fold dir0 in Ho'. rewrite Hopen in Ho'. injection Ho' as -> <- ->. done.
Qed.

(** Without a crash [open] returns every entry and the handle as it was. *)
Lemma log_reopen l dir old es :
  log_inv l dir old es → log_open dir = Ok (l, log_entries old es, dir).
Proof.
  intros Hi. pose proof Hi as [Hnm Hso Hr Ho [Hl Hle] Hwr Hec Hsc].
  pose proof (log_open_torn l dir old es es [] Hi Hle stops_nil) as [Hopen _].
  rewrite app_nil_r, insert_id in Hopen by done. rewrite Hopen.
  destruct l; cbn in *. by subst.
Qed.

Lemma log_open_empty :
  ∃ l dir, log_open ∅ = Ok (l, [], dir) ∧ log_inv l dir [] [].
Proof.
  eexists _, _. split; [reflexivity|].
  split; cbn; repeat constructor; try (vm_compute; congruence).
Qed.

Lemma rotate_ok l dir old es :
  log_inv l dir old es → (current_seg l < u64_max)%Z →
  ∃ l' dir', rotate l dir = (Ok tt, l', dir') ∧
    log_inv l' dir' (old ++ [(current_seg l, es)]) [] ∧ (current_seg l' ≤ current_seg l + 1)%Z.
Proof.
  intros Hi Hm. pose proof Hi as [Hnm Hso Hr Ho [Hl Hle] Hwr Hec Hsc].
  destruct (log_inv_fresh l dir old es [] Hi Hm) as (Hadd & Hfresh & Hls).
  unfold rotate, create_new. rewrite Hadd, Hfresh. eexists _, _. split; [done|]. split; [|cbn; lia].
  apply Forall_app in Hr as [Hro Hrc]. rewrite Forall_singleton in Hrc.
  split; cbn; rewrite ?fmap_app; cbn; try done.
  - rewrite Hls. by rewrite <- app_assoc.
  - apply StronglySorted_app_2; [|done|repeat constructor].
    intros x y Hx ->%list_elem_of_singleton.
    apply elem_of_app in Hx as [Hx| ->%list_elem_of_singleton]; [|lia].
    pose proof (log_inv_lt _ _ _ _ Hi) as Hlt. rewrite Forall_forall in Hlt.
    specialize (Hlt x Hx). lia.
  - rewrite <- app_assoc. apply Forall_app. split; [done|].
    repeat (apply Forall_cons; split; [lia|]). by apply Forall_nil.
  - apply Forall_app. split; [|apply Forall_singleton; cbn].
    + eapply Forall_impl; [exact Ho|]. cbn. intros [n ss] [Hn Hss]. split; [|done].
      rewrite lookup_insert_ne; [done|]. cbn in *. congruence.
    + rewrite lookup_insert_ne by congruence. done.
  - rewrite lookup_insert_eq. done.
  - rewrite Hsc, length_app. cbn. lia.
Qed.

Lemma append_live l dir old es e :
  log_inv l dir old es → enc_ok e →
  let l' := mkLog (current_seg l) (writer l) (entry_count l + 1) (segment_count l) in
  write_entry (default [] (dir !! writer l)) e = Ok (records (es ++ [e])) ∧
  log_inv l' (<[writer l := records (es ++ [e])]> dir) old (es ++ [e]).
Proof.
  intros Hi He l'. pose proof Hi as [Hnm Hso Hr Ho [Hl Hle] Hwr Hec Hsc].
  rewrite Hwr, Hl. cbn. split.
  - rewrite write_entry_ok by done. rewrite records_app. cbn. by rewrite app_nil_r.
  - eapply log_inv_live; try done.
    + apply Forall_app. by repeat constructor.
    + cbn. rewrite Hec, length_app. cbn. lia.
Qed.

Lemma log_append_ok l dir old es e :
  log_inv l dir old es → enc_ok e → (current_seg l < u64_max)%Z →
  ∃ l' dir' old' es',
    log_append l dir e = (Ok tt, l', dir') ∧ log_inv l' dir' old' es' ∧
    log_entries old' es' = (log_entries old es ++ [e])%list ∧
    (current_seg l' ≤ current_seg l + 1)%Z ∧
    (entry_count l' ≤ Z.max (entry_count l) MAX_ENTRIES_PER_SEGMENT)%Z.
Proof.
  intros Hi He Hm. unfold log_append, log_entries.
  destruct (_ <=? _)%Z eqn:Hfull; bool_to_prop.
  - destruct (rotate_ok l dir old es Hi Hm) as (l1 & dir1 & -> & Hi1 & Hc).
    destruct (append_live l1 dir1 _ [] e Hi1 He) as [-> Hi2].
    pose proof (li_entries _ _ _ _ Hi1) as Hn.
    eexists _, _, _, _. split_and!; [done|done| |cbn; lia|].
    + rewrite flat_map_app. cbn. by rewrite app_nil_r.
    + unfold MAX_ENTRIES_PER_SEGMENT. cbn in *. lia.
  - destruct (append_live l dir old es e Hi He) as [-> Hi2].
    eexists _, _, _, _. split_and!; [done|done|by rewrite app_assoc|cbn; lia|cbn; lia].
Qed.

(** Appending. [append] of an encodable entry succeeds, through a rotation
    or not; the log's invariant holds afterwards, no segment grows past the
    limit, and reopening the directory gives back everything that was there
    followed by the new entry. *)
Theorem log_append_reopen l dir old es e :
  log_inv l dir old es → enc_ok e → (current_seg l < u64_max)%Z →
  ∃ l' dir' old' es',
    log_append l dir e = (Ok tt, l', dir') ∧ log_inv l' dir' old' es' ∧
    log_open dir' = Ok (l', (log_entries old es ++ [e])%list, dir') ∧
    (entry_count l' ≤ Z.max (entry_count l) MAX_ENTRIES_PER_SEGMENT)%Z.
Proof.
  intros Hi He Hm. destruct (log_append_ok l dir old es e Hi He Hm)
    as (l' & dir' & old' & es' & Ha & Hi' & Hl & _ & Hc).
  exists l', dir', old', es'. by rewrite (log_reopen _ _ _ _ Hi'), Hl.
Qed.

(** Undecodable records. A complete record whose payload the decoder
    rejects ends the replay of its segment: everything after it is not read,
    and the file is truncated before it, whatever valid records followed. *)
Theorem replay_stops_at_bad_record dir path es bad later err :
  Forall enc_ok es → (Z.of_nat (length bad) < 2 ^ 32)%Z → entry_from_slice bad = Err err →
  dir !! path = Some (records es ++ frame_record bad ++ records later)%list →
  replay_segment dir path = Ok (es, <[path := records es]> dir).
Proof.
  intros Hes Hlen Hbad Hd. eapply replay_segment_records; [done| |done].
  intros e rest. rewrite read_frame_record by done. by rewrite Hbad.
Qed.

(** The directory between the creation of the two new segments and the removal
    of the old ones. *)
Lemma compact_two_segments l dir old es snapshot :
  log_inv l dir old es → (current_seg l + 2 ≤ u64_max)%Z →
  let snap := (current_seg l + 1)%Z in let live := (current_seg l + 2)%Z in
  let dir2 := <[segment_path snap := records snapshot]> dir in
  let dir3 := <[segment_path live := []]> dir2 in
  dir !! segment_path snap = None ∧ dir2 !! segment_path live = None ∧
  list_segments dir3 = (list_segments dir ++ [snap; live])%list ∧
  dir3 !! segment_path snap = Some (records snapshot).
Proof.
  intros Hi Hm snap live dir2 dir3.
  pose proof (li_range _ _ _ _ Hi) as [_ Hr]%Forall_app. rewrite Forall_singleton in Hr.
  destruct (log_inv_fresh l dir old es (records snapshot) Hi ltac:(lia)) as (_ & Hf & Hls).
  destruct (list_segments_insert_last dir2 live []) as [Hf2 Hls2]; [lia| |].
  - unfold dir2, snap. rewrite Hls. apply Forall_app. split.
    + eapply Forall_impl; [apply (log_inv_lt _ _ _ _ Hi)|]. cbn. lia.
    + repeat (apply Forall_cons; split; [lia|]). by apply Forall_nil.
  - split_and!; [done|done| |].
    + unfold dir3. rewrite Hls2. unfold dir2, snap. rewrite Hls, (li_names _ _ _ _ Hi).
      by rewrite <- !app_assoc.
    + unfold dir3. rewrite lookup_insert_ne; [by apply lookup_insert_eq|].
      intros E%segment_path_inj; lia.
Qed.

Lemma log_inv_present l dir old es :
  log_inv l dir old es → Forall (λ n, is_Some (dir !! segment_path n)) (list_segments dir).
Proof.
  intros Hi. rewrite (li_names _ _ _ _ Hi). apply Forall_app. split.
  - apply Forall_fmap. eapply Forall_impl; [apply (li_old _ _ _ _ Hi)|].
    cbn. intros [n ss] [Hn _]. eauto.
  - apply Forall_singleton. destruct (li_live _ _ _ _ Hi). eauto.
Qed.

Lemma log_inv_NoDup l dir old es : log_inv l dir old es → NoDup (list_segments dir).
Proof.
  intros Hi. rewrite (li_names _ _ _ _ Hi).
  pose proof (li_sorted _ _ _ _ Hi) as Hs. induction Hs as [|n ns _ IH Hlt]; constructor; [|done].
  intros Hin. rewrite Forall_forall in Hlt. specialize (Hlt n Hin). lia.
Qed.

Lemma log_compact_ok l dir old es snapshot :
  log_inv l dir old es → Forall enc_ok snapshot → (current_seg l + 2 ≤ u64_max)%Z →
  ∃ dir',
    log_compact l dir snapshot =
      (Ok tt, mkLog (current_seg l + 2) (segment_path (current_seg l + 2)) 0 2, dir') ∧
    log_inv (mkLog (current_seg l + 2) (segment_path (current_seg l + 2)) 0 2) dir'
      [((current_seg l + 1)%Z, snapshot)] [].
Proof.
  intros Hi Hsnap Hm.
  destruct (compact_two_segments l dir old es snapshot Hi Hm) as (Hf1 & Hf2 & Hls & Hl1).
  pose proof (li_range _ _ _ _ Hi) as Hr. rewrite <- (li_names _ _ _ _ Hi) in Hr.
  pose proof (log_inv_lt _ _ _ _ Hi) as Hlt.
  assert (Hcur : (0 ≤ current_seg l)%Z).
  { rewrite (li_names _ _ _ _ Hi) in Hr. apply Forall_app in Hr as [_ Hr].
    rewrite Forall_singleton in Hr. lia. }
  assert (Hnot : ∀ n, (current_seg l < n)%Z → n ∉ list_segments dir).
  { intros n Hn. rewrite (li_names _ _ _ _ Hi). rewrite Forall_forall in Hlt.
    intros [Hin| ->%list_elem_of_singleton]%elem_of_app; [specialize (Hlt n Hin)|]; lia. }
  unfold log_compact, create_new.
  rewrite (u64_add_small (current_seg l)) by lia. rewrite Hf1.
  rewrite write_entries_ok by done. rewrite insert_insert_eq.
  rewrite (u64_add_small (current_seg l + 1)) by lia.
  replace (current_seg l + 1 + 1)%Z with (current_seg l + 2)%Z by lia. cbn [app]. rewrite Hf2.
  eexists. split; [done|].
  split; cbn.
  - apply list_segments_unique; [repeat constructor; lia|]. rewrite <- list_segments_perm.
    symmetry. apply remove_segments; [by eapply log_inv_NoDup|done| |by rewrite Hls].
    eapply Forall_impl; [eapply log_inv_present; exact Hi|]. cbn. intros n Hn.
    apply lookup_insert_is_Some'. right. apply lookup_insert_is_Some'. by right.
  - repeat constructor; lia.
  - repeat (apply Forall_cons; split; [lia|]). by apply Forall_nil.
  - apply Forall_singleton. cbn. rewrite remove_segments_lookup by (done || lia || (apply Hnot; lia)).
    done.
  - rewrite remove_segments_lookup by (done || lia || (apply Hnot; lia)).
    rewrite lookup_insert_eq. done.
  - done.
  - done.
  - done.
Qed.

(** C39. Compaction. On a log in order, with a snapshot that the codec reads back and
    segment numbers left, [compact] succeeds: exactly two
    segments remain, the snapshot and an empty live one, the handle no longer
    asks for compaction, and reopening the directory returns the snapshot. *)
Theorem log_compact_reopen l dir old es snapshot :
  log_inv l dir old es → Forall enc_ok snapshot → (current_seg l + 2 ≤ u64_max)%Z →
  ∃ l' dir',
    log_compact l dir snapshot = (Ok tt, l', dir') ∧
    log_inv l' dir' [((current_seg l + 1)%Z, snapshot)] [] ∧
    list_segments dir' = [current_seg l + 1; current_seg l + 2]%Z ∧
    needs_compact l' = false ∧ log_open dir' = Ok (l', snapshot, dir').
Proof.
  intros Hi Hsnap Hm. destruct (log_compact_ok l dir old es snapshot Hi Hsnap Hm) as (dir' & Hc & Hi').
  eexists _, _. split_and!; [done|done|by rewrite (li_names _ _ _ _ Hi')|done|].
  rewrite (log_reopen _ _ _ _ Hi'). unfold log_entries. cbn. by rewrite !app_nil_r.
Qed.
End LogCorrect.

(** ** A concrete codec, on which the theorems are instantiated *)

Module ToyCodec.

(** Four bytes per entry: version, number, key, and the kind of its operations.
    It encodes entries of one-character keys whose value is a small number, and
    deletions; [removes] says whether it reads deletions back. *)
Definition toy_num (n : byte) : Value := VNumber (PosInt (u8_val n)).

Definition codec_of (removes : bool) : EntryCodec := {|
  entry_to_vec e :=
    match le_key e, le_value e, le_ops e with
    | String c EmptyString, VNumber (PosInt n), [] =>
        Ok [as_u8 (le_version e); as_u8 n; Ascii.byte_of_ascii c; x00]
    | String c EmptyString, VNumber (PosInt n), [mkDeltaOp Add _ _] =>
        Ok [as_u8 (le_version e); as_u8 n; Ascii.byte_of_ascii c; x01]
    | String c EmptyString, VNumber (PosInt n), [mkDeltaOp Update _ _] =>
        Ok [as_u8 (le_version e); as_u8 n; Ascii.byte_of_ascii c; x02]
    | String c EmptyString, VNull, [mkDeltaOp Remove _ _] =>
        Ok [as_u8 (le_version e); x00; Ascii.byte_of_ascii c; x03]
    | String c EmptyString, VNull, [] =>
        Ok [as_u8 (le_version e); x00; Ascii.byte_of_ascii c; x04]
    | _, _, _ => Err "unsupported"
    end;
  entry_from_slice bs :=
    match bs with
    | [v; n; c; kind] =>
        let entry := mkLogEntry (u8_val v) (String (Ascii.ascii_of_byte c) "") in
        match kind with
        | x00 => Ok (entry [] (toy_num n))
        | x01 => Ok (entry [delta_add "/" (toy_num n)] (toy_num n))
        | x02 => Ok (entry [delta_update "/" (toy_num n)] (toy_num n))
        | x03 => if removes then Ok (entry [delta_remove "/"] VNull) else Err "invalid length 2"
        | x04 => Ok (entry [] VNull)
        | _ => Err "unknown variant"
        end
    | _ => Err "invalid length"
    end;
|}.

Definition codec : EntryCodec := codec_of true.

Definition toy_entry (v : Z) : LogEntry :=
  mkLogEntry v "k" [delta_add "/" (VNumber (PosInt v))] (VNumber (PosInt v)).
Definition toy_log : SegmentedLog := mkLog 0 (segment_path 0) 2 1.
Definition toy_dir : Dir := {[ segment_path 0 := @records codec [toy_entry 1; toy_entry 2] ]}.

(** Encodability of a concrete entry is a computation. *)
Definition enc_eval `{EntryCodec} (e : LogEntry) : Prop :=
  match entry_to_vec e with
  | Ok bs => entry_from_slice bs = Ok e ∧ (Z.of_nat (length bs) < 2 ^ 32)%Z
  | Err _ => False
  end.

Lemma enc_eval_ok `{EntryCodec} e : enc_eval e → enc_ok e.
Proof. unfold enc_eval, enc_ok. destruct (entry_to_vec e); [|done]. intros []. eauto. Qed.

Lemma enc_eval_all `{EntryCodec} es : Forall enc_eval es → Forall enc_ok es.
Proof. intros Hes. eapply Forall_impl; [exact Hes|]. apply enc_eval_ok. Qed.

Lemma toy_inv : @log_inv codec toy_log toy_dir [] [toy_entry 1; toy_entry 2].
Proof.
  split; cbn; try done.
  - repeat constructor.
  - repeat constructor; vm_compute; congruence.
  - split; [done|]. apply enc_eval_all. repeat constructor.
Qed.

(** A log whose closed segment has the record of a delete, which [codec_of false] does
    not read back, between two writes. *)
Definition removal : LogEntry := mkLogEntry 2 "k" [delta_remove "/"] VNull.
Definition picky : EntryCodec := codec_of false.
Definition picky_log : SegmentedLog := mkLog 1 (segment_path 1) 2 2.
Definition picky_old : list (Z * list LogEntry) := [(0%Z, [toy_entry 1; removal; toy_entry 3])].
Definition picky_live : list LogEntry := [toy_entry 4; toy_entry 5].
Definition picky_dir : Dir :=
  {[ segment_path 0 := @records picky [toy_entry 1; removal; toy_entry 3];
     segment_path 1 := @records picky picky_live ]}.

Lemma picky_files : @log_files picky picky_log picky_dir picky_old picky_live.
Proof.
  assert (Hw : ∀ es, forallb (λ e, match @entry_to_vec picky e with
    | Ok bs => (Z.of_nat (length bs) <? 2 ^ 32)%Z | Err _ => false end) es = true → Forall (@written picky) es).
  { intros es. induction es as [|e es IH]; [done|]. intros [He Hes]%andb_true_iff. constructor; [|by apply IH].
    destruct (@entry_to_vec picky e) as [bs|] eqn:E; [|done]. exists bs. split; [done|by apply Z.ltb_lt]. }
  split; cbn; try done.
  - apply NoDup_cons. split; [|by apply NoDup_singleton]. by intros ?%list_elem_of_singleton.
  - repeat constructor; vm_compute; congruence.
  - apply Forall_singleton. split; [done|]. by apply Hw.
  - split; [done|]. by apply Hw.
Qed.
End ToyCodec.
Import ToyCodec.

Lemma log_crash_recovery_witness :
  ∃ n l' dir',
    @log_open picky (<[writer picky_log := take 10 (@records picky picky_live)]> picky_dir) =
      Ok (l', [toy_entry 1; toy_entry 4], dir') ∧ n = 1 ∧
    dir' !! segment_path 0 = Some (@records picky [toy_entry 1]).
Proof.
  destruct (@log_crash_recovery picky _ _ _ _ 10 picky_files) as (n & l' & dir' & Ho & Hd & Hle & Hlt & _).
  assert (n = 1) as ->.
  { destruct n as [|[|n]]; [specialize (Hlt ltac:(cbn; lia)); vm_compute in Hlt; lia|done|].
    cbn in Hle. destruct n; cbn in Hle; lia. }
  exists 1, l', dir'. split; [exact Ho|]. split; [done|]. by apply Forall_cons in Hd as [Hd _].
Defined.

Lemma log_append_reopen_witness :
  ∃ l' dir', @log_append codec toy_log toy_dir (toy_entry 3) = (Ok tt, l', dir') ∧
    @log_open codec dir' = Ok (l', [toy_entry 1; toy_entry 2; toy_entry 3], dir').
Proof.
  destruct (@log_append_reopen codec _ _ _ _ (toy_entry 3) toy_inv) as (l' & dir' & ? & ? & Ha & _ & Ho & _);
    [by apply enc_eval_ok|done|eauto].
Defined.

Lemma log_compact_reopen_witness :
  ∃ l' dir', @log_compact codec toy_log toy_dir [toy_entry 2] = (Ok tt, l', dir') ∧
    list_segments dir' = [1; 2]%Z ∧ @log_open codec dir' = Ok (l', [toy_entry 2], dir').
Proof.
  destruct (@log_compact_reopen codec _ _ _ _ [toy_entry 2] toy_inv)
    as (l' & dir' & Hc & _ & Hls & _ & Ho); [|done|eauto].
  apply enc_eval_all. repeat constructor.
Defined.

Lemma replay_stops_at_bad_record_witness :
  @replay_segment codec
    {[ "f" := (@records codec [toy_entry 1] ++ frame_record [] ++ @records codec [toy_entry 2])%list ]} "f" =
  Ok ([toy_entry 1], {[ "f" := @records codec [toy_entry 1] ]}).
Proof.
  rewrite (@replay_stops_at_bad_record codec _ "f" [toy_entry 1] [] [toy_entry 2] "invalid length").
  - reflexivity.
  - apply enc_eval_all. repeat constructor.
  - done.
  - done.
  - reflexivity.
Defined.
