(* ===== verification/LogIO.v ===== *)
(** * The log above an operating system that fails (src/src/log.rs)

    Log.v takes every file operation to succeed.  Here the operations of
    [SegmentedLog] run on a directory whose system calls answer from a list of
    outcomes: a [write] may take part of the bytes, be interrupted or fail, and
    reading the directory, creating or removing a file may fail.  A list that is used
    up stands for calls that succeed, so every list is finite and the retry loops
    of the standard library are structural recursion on it.

    The [BufWriter] of the live segment is part of the state: the bytes that did
    not reach the file stay in its buffer and are written by a later flush.  The
    last theorem shows that with no failing call the operations are those of Log.v;
    LogFaults.v has what holds under failures. *)

From S2P Require Import Prelude RustStr Json Delta Log.

Local Open Scope string_scope.

(** ** System calls *)

Inductive IoError : Type :=
| WriteZero
| OsError.

(** What one [write] call answers: that it took at most [n] bytes,
    [ErrorKind::Interrupted], or another error. *)
Inductive WriteOutcome : Type :=
| Wrote (n : nat)
| Interrupted
| Failed.

Record Os : Type := mkOs {
  os_dir : Dir;
  os_writes : list WriteOutcome;   (* for the coming [write] calls *)
  os_reads : list bool;            (* for the coming reads of a record *)
  os_calls : list bool;            (* for the coming calls of every other kind *)
}.

(** A call that is neither a [write] nor a [read]: whether it goes through. *)
Definition os_call (os : Os) : bool * Os :=
  match os_calls os with
  | [] => (true, os)
  | b :: bs => (b, mkOs (os_dir os) (os_writes os) (os_reads os) bs)
  end.

(** The reads of one record: whether they go through. *)
Definition os_read (os : Os) : bool * Os :=
  match os_reads os with
  | [] => (true, os)
  | b :: bs => (b, mkOs (os_dir os) (os_writes os) bs (os_calls os))
  end.

Definition set_dir (os : Os) (dir : Dir) : Os := mkOs dir (os_writes os) (os_reads os) (os_calls os).

(** The retry loop shared by [Write::write_all] and [BufWriter::flush_buf]: what the
    file holds then, what was not written, and the outcomes left. *)
Fixpoint write_loop (ws : list WriteOutcome) (content buf : list byte) :
    result unit IoError * list byte * list byte * list WriteOutcome :=
  match buf with
  | [] => (Ok tt, content, [], ws)
  | _ =>
      match ws with
      | [] => (Ok tt, (content ++ buf)%list, [], [])
      | Wrote n :: ws' =>
          match Nat.min n (length buf) with
          | O => (Err WriteZero, content, buf, ws')
          | k => write_loop ws' (content ++ take k buf)%list (drop k buf)
          end
      | Interrupted :: ws' => write_loop ws' content buf
      | Failed :: ws' => (Err OsError, content, buf, ws')
      end
  end.

(** The loop on the file at [path], opened for appending. *)
Definition write_file (path : string) (data : list byte) (os : Os) :
    result unit IoError * list byte * Os :=
  let '(r, content, rest, ws) := write_loop (os_writes os) (default [] (os_dir os !! path)) data in
  (r, rest, mkOs (<[path := content]> (os_dir os)) ws (os_reads os) (os_calls os)).

(** ** [BufWriter<File>] *)

(** [DEFAULT_BUF_SIZE] *)
Definition BUF_CAPACITY : Z := 8192.

Record BufWriter : Type := mkWriter {
  bw_path : string;
  bw_buf : list byte;
}.

Definition blen (bs : list byte) : Z := Z.of_nat (length bs).

(** [flush_buf], and [flush], since flushing a [File] does nothing: what could not be
    written stays in the buffer. *)
Definition bw_flush (w : BufWriter) (os : Os) : result unit IoError * BufWriter * Os :=
  let '(r, rest, os') := write_file (bw_path w) (bw_buf w) os in
  (r, mkWriter (bw_path w) rest, os').

Definition bw_push (w : BufWriter) (data : list byte) : BufWriter :=
  mkWriter (bw_path w) (bw_buf w ++ data).

(** [write_all]: into the buffer when there is room, after a flush when there is
    not, and straight to the file when the buffer could not hold it at all. *)
Definition bw_write_all (w : BufWriter) (data : list byte) (os : Os) :
    result unit IoError * BufWriter * Os :=
  let spare := (BUF_CAPACITY - blen (bw_buf w))%Z in
  if (blen data <? spare)%Z then (Ok tt, bw_push w data, os)
  else
    let '(r, w1, os1) := if (spare <? blen data)%Z then bw_flush w os else (Ok tt, w, os) in
    match r with
    | Err e => (Err e, w1, os1)
    | Ok _ =>
        if (BUF_CAPACITY <=? blen data)%Z then
          let '(r2, _, os2) := write_file (bw_path w1) data os1 in (r2, w1, os2)
        else (Ok tt, bw_push w1 data, os1)
    end.

(** Dropping a writer flushes it and ignores the result. *)
Definition bw_drop (w : BufWriter) (os : Os) : Os := (bw_flush w os).2.

(** ** The log's operations *)

(** The errors of [anyhow::Result]: of the codec or of the system. *)
Inductive LogError : Type :=
| EEncode (e : string)
| EIo (e : IoError).

Definition io {A} (r : result A IoError) : result A LogError :=
  match r with Ok a => Ok a | Err e => Err (EIo e) end.

Record IoLog : Type := mkIoLog {
  io_seg : Z;
  io_writer : BufWriter;
  io_entries : Z;
  io_segments : Z;
}.

(** [OpenOptions::new().create_new(true)] *)
Definition os_create_new (os : Os) (path : string) : bool * Os :=
  let '(ok, os1) := os_call os in
  if ok then
    match create_new (os_dir os1) path with
    | Ok dir => (true, set_dir os1 dir)
    | Err _ => (false, os1)
    end
  else (false, os1).

(** [fs::remove_file], whose error is only reported. *)
Definition os_remove (os : Os) (path : string) : Os :=
  let '(ok, os1) := os_call os in
  if ok then set_dir os1 (delete path (os_dir os1)) else os1.

Section Operations.
Context `{EntryCodec}.

Definition io_write_entry (w : BufWriter) (entry : LogEntry) (os : Os) :
    result unit LogError * BufWriter * Os :=
  match entry_to_vec entry with
  | Err e => (Err (EEncode e), w, os)
  | Ok payload =>
      let '(r, w1, os1) := bw_write_all w (le_bytes 4 (Z.of_nat (length payload))) os in
      match r with
      | Err e => (Err (EIo e), w1, os1)
      | Ok _ => let '(r2, w2, os2) := bw_write_all w1 payload os1 in (io r2, w2, os2)
      end
  end.

Definition io_rotate (l : IoLog) (os : Os) : result unit LogError * IoLog * Os :=
  let '(r, w1, os1) := bw_flush (io_writer l) os in
  match r with
  | Err e => (Err (EIo e), mkIoLog (io_seg l) w1 (io_entries l) (io_segments l), os1)
  | Ok _ =>
      let cur := u64_add (io_seg l) 1 in
      let path := segment_path cur in
      let '(ok, os2) := os_create_new os1 path in
      if ok then
        (Ok tt, mkIoLog cur (mkWriter path []) 0 (io_segments l + 1), bw_drop w1 os2)
      else (Err (EIo OsError), mkIoLog cur w1 (io_entries l) (io_segments l), os2)
  end.

Definition io_append (l : IoLog) (entry : LogEntry) (os : Os) :
    result unit LogError * IoLog * Os :=
  let '(r, l1, os1) :=
    if (MAX_ENTRIES_PER_SEGMENT <=? io_entries l)%Z then io_rotate l os else (Ok tt, l, os) in
  match r with
  | Err e => (Err e, l1, os1)
  | Ok _ =>
      let '(r2, w2, os2) := io_write_entry (io_writer l1) entry os1 in
      match r2 with
      | Err e => (Err e, mkIoLog (io_seg l1) w2 (io_entries l1) (io_segments l1), os2)
      | Ok _ =>
          let '(r3, w3, os3) := bw_flush w2 os2 in
          match r3 with
          | Err e => (Err (EIo e), mkIoLog (io_seg l1) w3 (io_entries l1) (io_segments l1), os3)
          | Ok _ => (Ok tt, mkIoLog (io_seg l1) w3 (io_entries l1 + 1) (io_segments l1), os3)
          end
      end
  end.

(** The snapshot loop of [compact]. *)
Fixpoint io_write_entries (w : BufWriter) (es : list LogEntry) (os : Os) :
    result unit LogError * BufWriter * Os :=
  match es with
  | [] => (Ok tt, w, os)
  | e :: es' =>
      let '(r, w1, os1) := io_write_entry w e os in
      match r with
      | Err err => (Err err, w1, os1)
      | Ok _ => io_write_entries w1 es' os1
      end
  end.

(** The block of [compact] that fills the snapshot segment.  Its writer is dropped
    whether the block succeeds or not. *)
Definition io_snapshot (path : string) (snapshot : list LogEntry) (os : Os) :
    result unit LogError * Os :=
  let '(r, w1, os1) := io_write_entries (mkWriter path []) snapshot os in
  match r with
  | Err e => (Err e, bw_drop w1 os1)
  | Ok _ => let '(r2, w2, os2) := bw_flush w1 os1 in (io r2, bw_drop w2 os2)
  end.

Definition io_compact (l : IoLog) (snapshot : list LogEntry) (os : Os) :
    result unit LogError * IoLog * Os :=
  let '(listed, os0) := os_call os in
  if negb listed then (Err (EIo OsError), l, os0) else
  let old_segs := list_segments (os_dir os0) in
  let '(r, w1, os1) := bw_flush (io_writer l) os0 in
  match r with
  | Err e => (Err (EIo e), mkIoLog (io_seg l) w1 (io_entries l) (io_segments l), os1)
  | Ok _ =>
      let cur1 := u64_add (io_seg l) 1 in
      let l1 := mkIoLog cur1 w1 (io_entries l) (io_segments l) in
      let snap_path := segment_path cur1 in
      let '(ok, os2) := os_create_new os1 snap_path in
      if negb ok then (Err (EIo OsError), l1, os2) else
      let '(r3, os3) := io_snapshot snap_path snapshot os2 in
      match r3 with
      | Err e => (Err e, l1, os3)
      | Ok _ =>
          let cur2 := u64_add cur1 1 in
          let new_path := segment_path cur2 in
          let '(ok4, os4) := os_create_new os3 new_path in
          if negb ok4 then
            (Err (EIo OsError), mkIoLog cur2 w1 (io_entries l) (io_segments l), os4)
          else
            (Ok tt, mkIoLog cur2 (mkWriter new_path []) 0 2,
             fold_left (λ o seg_num, os_remove o (segment_path seg_num)) old_segs (bw_drop w1 os4))
      end
  end.

(** ** [open]

    A sequence of system calls that returns at the first error, [?] in the source. *)
Definition IoM (A : Type) : Type := Os → result A IoError * Os.

#[local] Instance IoM_ret : MRet IoM := λ _ a os, (Ok a, os).
#[local] Instance IoM_bind : MBind IoM := λ _ _ f m os,
  match m os with
  | (Ok a, os') => f a os'
  | (Err e, os') => (Err e, os')
  end.

(** One call, with the effect it has when it goes through. *)
Definition io_call (effect : Dir → Dir) : IoM unit := λ os,
  let '(ok, os1) := os_call os in
  if ok then (Ok tt, set_dir os1 (effect (os_dir os1))) else (Err OsError, os1).

Definition io_dir : IoM Dir := λ os, (Ok (os_dir os), os).

(** The reads of [read_entry].  Whatever error they end with, it is an error of
    [read_entry], as an incomplete record is. *)
Definition io_read_entry (r : list byte) : IoM ReadRes := λ os,
  let '(ok, os1) := os_read os in (Ok (if ok then read_entry r else RErr), os1).

(** The loop of [replay_segment]: [stream_position] asks the system too. *)
Fixpoint io_replay_loop (fuel : nat) (r : list byte) (pos : nat) : IoM (list LogEntry * nat) :=
  match fuel with
  | O => mret ([], pos)
  | S fuel' =>
      io_call id;;
      res ← io_read_entry r;
      match res with
      | REntry e rest =>
          io_call id;;
          es_pos ← io_replay_loop fuel' rest (pos + (length r - length rest));
          mret (e :: es_pos.1, es_pos.2)
      | _ => mret ([], pos)
      end
  end.

(** [File::open], the loop, [fs::metadata], and when the lengths differ the
    truncation: [OpenOptions::open] and [set_len]. *)
Definition io_replay_segment (path : string) : IoM (list LogEntry) :=
  io_call id;;
  dir ← io_dir;
  match dir !! path with
  | None => λ os, (Err OsError, os)
  | Some content =>
      es_pos ← io_replay_loop (S (length content)) content 0;
      io_call id;;
      if Nat.eqb (length content) es_pos.2 then mret es_pos.1
      else
        io_call id;;
        io_call (λ dir, <[path := take es_pos.2 content]> dir);;
        mret es_pos.1
  end.

Fixpoint io_replay_all (segs : list Z) : IoM (list LogEntry * Z) :=
  match segs with
  | [] => mret ([], 0%Z)
  | seg_num :: segs' =>
      chunk ← io_replay_segment (segment_path seg_num);
      rest ← io_replay_all segs';
      mret ((chunk ++ rest.1)%list, match segs' with [] => Z.of_nat (length chunk) | _ => rest.2 end)
  end.

(** [create_dir_all], [read_dir], the replay, and the live segment opened or created. *)
Definition io_open : IoM (IoLog * list LogEntry) :=
  io_call id;;
  io_call id;;
  dir ← io_dir;
  let segments := list_segments dir in
  all ← io_replay_all segments;
  let current := default 0%Z (last segments) in
  let seg_path := segment_path current in
  io_call (λ dir, match dir !! seg_path with Some _ => dir | None => <[seg_path := []]> dir end);;
  mret (mkIoLog current (mkWriter seg_path []) all.2 (Z.max (Z.of_nat (length segments)) 1), all.1).
End Operations.

(** ** What a writer does to its file

    [accepts w os data w' os']: from [w] to [w'] the writer took [data]; its file grew,
    and what is not in the file is in the buffer.  No other file changed. *)
Definition accepts (w : BufWriter) (os : Os) (data : list byte) (w' : BufWriter) (os' : Os) : Prop :=
  bw_path w' = bw_path w ∧
  ∃ c c', os_dir os !! bw_path w = Some c ∧ os_dir os' = <[bw_path w := c']> (os_dir os) ∧
    c `prefix_of` c' ∧ (c' ++ bw_buf w' = c ++ bw_buf w ++ data)%list.

Lemma accepts_refl w os : is_Some (os_dir os !! bw_path w) → accepts w os [] w os.
Proof.
  intros [c Hc]. split; [done|]. exists c, c. split_and!; [done|by rewrite insert_id|done|].
  by rewrite app_nil_r.
Qed.

Lemma accepts_present w os data w' os' :
  accepts w os data w' os' → is_Some (os_dir os' !! bw_path w').
Proof. intros (Hp & c & c' & _ & -> & _). rewrite Hp, lookup_insert_eq. eauto. Qed.

Lemma accepts_nothing w os w' os' :
  accepts w os [] w' os' → bw_buf w = [] → bw_buf w' = [] ∧ os_dir os' = os_dir os.
Proof.
  intros (_ & c & c' & Hc & -> & [more ->] & E) Hb. rewrite Hb, !app_nil_r, <- app_assoc in E.
  rewrite <- (app_nil_r c) in E at 2. apply app_inv_head, app_nil in E as [-> ->].
  split; [done|]. by rewrite app_nil_r, insert_id.
Qed.

Lemma accepts_trans w os d1 w1 os1 d2 w2 os2 :
  accepts w os d1 w1 os1 → accepts w1 os1 d2 w2 os2 → accepts w os (d1 ++ d2) w2 os2.
Proof.
  intros (P1 & c & c1 & Hc & D1 & Pre1 & E1) (P2 & c1' & c2 & Hc1 & D2 & Pre2 & E2).
  rewrite P1, D1 in *. rewrite lookup_insert_eq in Hc1. injection Hc1 as <-.
  split; [congruence|]. exists c, c2. split_and!; [done|by rewrite D2, insert_insert_eq|by etrans|].
  by rewrite E2, app_assoc, E1, <- !app_assoc.
Qed.

Lemma accepts_push w os data :
  is_Some (os_dir os !! bw_path w) → accepts w os data (bw_push w data) os.
Proof.
  intros [c Hc]. split; [done|]. exists c, c. split_and!; [done|by rewrite insert_id|done|done].
Qed.

Lemma write_loop_spec ws c buf r c' rest ws' :
  write_loop ws c buf = (r, c', rest, ws') →
  c `prefix_of` c' ∧ (c' ++ rest = c ++ buf)%list ∧ (r = Ok tt → rest = []).
Proof.
  revert c buf. induction ws as [|[n| |] ws IH]; intros c [|b buf] E; cbn -[take drop Nat.min length] in E;
    try (injection E as <- <- <- <-); try (by split_and!; rewrite ?app_nil_r).
  - split_and!; [by apply prefix_app_r|by rewrite app_nil_r|done].
  - destruct (Nat.min n (length (b :: buf))) as [|k] eqn:Ek; [by injection E as <- <- <- <-|].
    apply IH in E as (Hp & He & Hr). split_and!; [|by rewrite He, <- app_assoc, take_drop|done].
    etrans; [|exact Hp]. by apply prefix_app_r.
  - by apply IH in E.
Qed.

Lemma write_file_spec path data os r rest os' c :
  os_dir os !! path = Some c → write_file path data os = (r, rest, os') →
  ∃ c', os_dir os' = <[path := c']> (os_dir os) ∧ c `prefix_of` c' ∧ (c' ++ rest = c ++ data)%list ∧
    (r = Ok tt → rest = []).
Proof.
  intros Hc. unfold write_file. rewrite Hc. change (default [] (Some c)) with c.
  destruct (write_loop _ _ _) as [[[r0 c'] rest0] ws] eqn:E. intros [= <- <- <-].
  apply write_loop_spec in E as (? & ? & ?). cbn. eauto.
Qed.

Lemma bw_flush_spec w os r w' os' :
  is_Some (os_dir os !! bw_path w) → bw_flush w os = (r, w', os') →
  accepts w os [] w' os' ∧ (r = Ok tt → bw_buf w' = []).
Proof.
  intros [c Hc]. unfold bw_flush. destruct (write_file _ _ _) as [[r0 rest] os0] eqn:E. intros [= <- <- <-].
  destruct (write_file_spec _ _ _ _ _ _ _ Hc E) as (c' & Hd & Hp & He & Hr).
  split; [|done]. split; [done|]. exists c, c'. split_and!; [done..|]. cbn. by rewrite app_nil_r.
Qed.

Lemma bw_drop_spec w os :
  is_Some (os_dir os !! bw_path w) → ∃ w', accepts w os [] w' (bw_drop w os).
Proof.
  intros Hp. unfold bw_drop. destruct (bw_flush w os) as [[r w'] os'] eqn:E.
  exists w'. by apply bw_flush_spec in E as [? _].
Qed.

(** [write_all] takes some of the data, all of it when it succeeds. *)
Lemma bw_write_all_spec w data os r w' os' :
  is_Some (os_dir os !! bw_path w) → bw_write_all w data os = (r, w', os') →
  ∃ k, accepts w os (take k data) w' os' ∧ (r = Ok tt → take k data = data).
Proof.
  intros Hp. unfold bw_write_all. destruct (blen data <? _)%Z.
  { intros [= <- <- <-]. exists (length data). rewrite firstn_all. split; [by apply accepts_push|done]. }
  destruct (if (_ <? _)%Z then _ else _) as [[r1 w1] os1] eqn:E1.
  assert (H1 : accepts w os [] w1 os1 ∧ (r1 = Ok tt → (BUF_CAPACITY ≤ blen data)%Z → bw_buf w1 = [])).
  { destruct (_ <? blen data)%Z eqn:Es; bool_to_prop; [by destruct (bw_flush_spec _ _ _ _ _ Hp E1); eauto|].
    injection E1 as <- <- <-. split; [by apply accepts_refl|]. intros _ Hb.
    destruct (bw_buf w); [done|]. unfold blen in *. cbn in *. lia. }
  destruct H1 as [H1 Hempty]. destruct r1 as [[]|e].
  - destruct (_ <=? _)%Z eqn:Eb; bool_to_prop.
    + destruct (write_file _ _ _) as [[r2 rest] os2] eqn:E2. intros [= <- <- <-].
      destruct (accepts_present _ _ _ _ _ H1) as [c Hc].
      destruct (write_file_spec _ _ _ _ _ _ _ Hc E2) as (c' & Hd & Hpre & He & Hr).
      destruct Hpre as [taken ->]. rewrite <- app_assoc in He. apply app_inv_head in He.
      exists (length taken). rewrite <- He, take_app_length. split.
      * apply (accepts_trans _ _ [] w1 os1); [done|]. split; [done|]. exists c, (c ++ taken)%list.
        rewrite Hempty by done. split_and!; [done..|by apply prefix_app_r|by rewrite app_nil_r].
      * intros Hok. by rewrite Hr, app_nil_r.
    + intros [= <- <- <-]. exists (length data). rewrite firstn_all. split; [|done].
      apply (accepts_trans _ _ [] w1 os1); [done|]. apply accepts_push. by eapply accepts_present.
  - intros [= <- <- <-]. exists 0. by rewrite take_0.
Qed.

(** Data that fits in the buffer is taken whatever the system answers. *)
Lemma bw_write_all_fits w data os :
  (blen (bw_buf w) + blen data ≤ BUF_CAPACITY)%Z → (blen data < BUF_CAPACITY)%Z →
  bw_write_all w data os = (Ok tt, bw_push w data, os).
Proof.
  intros Hs Hd. unfold bw_write_all. destruct (_ <? _)%Z eqn:E; [done|]. bool_to_prop.
  rewrite (proj2 (Z.ltb_ge _ _)) by lia. by rewrite (proj2 (Z.leb_gt _ _)) by lia.
Qed.

Section EntrySpecs.
Context `{EntryCodec}.

Lemma io_ok {A} (r : result A IoError) a : io r = Ok a → r = Ok a.
Proof. by destruct r; intros [= ->]. Qed.

Lemma io_write_entry_spec w e os r w' os' :
  is_Some (os_dir os !! bw_path w) → io_write_entry w e os = (r, w', os') →
  ∃ k, accepts w os (take k (record_of e)) w' os' ∧ (r = Ok tt → take k (record_of e) = record_of e).
Proof.
  intros Hp. unfold io_write_entry, record_of. destruct (entry_to_vec e) as [payload|err].
  2:{ intros [= <- <- <-]. exists 0. split; [by apply accepts_refl|done]. }
  unfold frame_record. set (header := le_bytes 4 _).
  destruct (bw_write_all w header os) as [[r1 w1] os1] eqn:E1.
  destruct (bw_write_all_spec _ _ _ _ _ _ Hp E1) as (k1 & H1 & Hr1). destruct r1 as [[]|err].
  - destruct (bw_write_all w1 payload os1) as [[r2 w2] os2] eqn:E2. intros [= <- <- <-].
    destruct (bw_write_all_spec _ _ _ _ _ _ (accepts_present _ _ _ _ _ H1) E2) as (k2 & H2 & Hr2).
    rewrite Hr1 in H1 by done. exists (length header + k2). rewrite take_app_add. split.
    + by eapply accepts_trans.
    + intros ->%io_ok. by rewrite Hr2.
  - intros [= <- <- <-]. exists (Nat.min k1 (length header)).
    rewrite take_app_le by lia. by rewrite <- take_take, firstn_all.
Qed.

Lemma io_write_entries_spec w es os r w' os' :
  is_Some (os_dir os !! bw_path w) → io_write_entries w es os = (r, w', os') →
  ∃ k, accepts w os (take k (records es)) w' os' ∧ (r = Ok tt → take k (records es) = records es).
Proof.
  revert w os. induction es as [|e es IH]; intros w os Hp; cbn [io_write_entries].
  { intros [= <- <- <-]. exists 0. split; [by apply accepts_refl|done]. }
  destruct (io_write_entry w e os) as [[r1 w1] os1] eqn:E1.
  destruct (io_write_entry_spec _ _ _ _ _ _ Hp E1) as (k1 & H1 & Hr1).
  change (records (e :: es)) with (record_of e ++ records es)%list. destruct r1 as [[]|err].
  - intros E. destruct (IH _ _ (accepts_present _ _ _ _ _ H1) E) as (k2 & H2 & Hr2).
    rewrite Hr1 in H1 by done. exists (length (record_of e) + k2). rewrite take_app_add. split.
    + by eapply accepts_trans.
    + intros Hok. by rewrite Hr2.
  - intros [= <- <- <-]. exists (Nat.min k1 (length (record_of e))).
    rewrite take_app_le by lia. by rewrite <- take_take, firstn_all.
Qed.

(** The snapshot segment holds a byte prefix of the snapshot's records, all of
    them when the block succeeds, and no other file changes. *)
Lemma io_snapshot_spec path snapshot os r os' :
  os_dir os !! path = Some [] → io_snapshot path snapshot os = (r, os') →
  ∃ k, os_dir os' = <[path := take k (records snapshot)]> (os_dir os) ∧
    (r = Ok tt → take k (records snapshot) = records snapshot).
Proof.
  intros Hp. unfold io_snapshot. set (w := mkWriter path []).
  destruct (io_write_entries w snapshot os) as [[r1 w1] os1] eqn:E1.
  assert (Hpath : is_Some (os_dir os !! bw_path w)) by eauto.
  destruct (io_write_entries_spec _ _ _ _ _ _ Hpath E1) as (k & H1 & Hr1).
  assert (Hend : ∀ w2 os2, accepts w os (take k (records snapshot)) w2 os2 →
    ∃ j, os_dir os2 = <[path := take j (records snapshot)]> (os_dir os) ∧
      (bw_buf w2 = [] → take j (records snapshot) = take k (records snapshot))).
  { intros w2 os2 (_ & c & c' & Hc & Hd & _ & He). cbn in Hc, Hd, He. rewrite Hp in Hc. injection Hc as <-.
    cbn in He. exists (Nat.min (length c') k). rewrite Hd, <- take_take, <- He, take_app_length.
    split; [done|]. intros ->. by rewrite app_nil_r. }
  pose proof (accepts_present _ _ _ _ _ H1) as Hp1. destruct r1 as [[]|err].
  - destruct (bw_flush w1 os1) as [[r2 w2] os2] eqn:E2. intros [= <- <-].
    destruct (bw_flush_spec _ _ _ _ _ Hp1 E2) as [H2 Hempty].
    destruct (bw_drop_spec w2 os2 (accepts_present _ _ _ _ _ H2)) as (w3 & H3).
    pose proof (accepts_trans _ _ _ _ _ _ _ _ H2 H3) as H23. cbn in H23.
    pose proof (accepts_trans _ _ _ _ _ _ _ _ H1 H23) as H123. rewrite app_nil_r in H123.
    destruct (Hend _ _ H123) as (j & Hj & Hj'). exists j. split; [done|]. intros ->%io_ok.
    destruct (accepts_nothing _ _ _ _ H3 (Hempty eq_refl)) as [Hb _]. by rewrite Hj', Hr1.
  - intros [= <- <-]. destruct (bw_drop_spec w1 os1 Hp1) as (w3 & H3).
    pose proof (accepts_trans _ _ _ _ _ _ _ _ H1 H3) as H13. rewrite app_nil_r in H13.
    destruct (Hend _ _ H13) as (j & Hj & _). by exists j.
Qed.

(** An entry whose record fits next to what is pending is taken whole. *)
Definition entry_fits (w : BufWriter) (e : LogEntry) : Prop :=
  (blen (bw_buf w) + blen (record_of e) ≤ BUF_CAPACITY)%Z.

Lemma io_write_entry_fits w e os :
  enc_ok e → entry_fits w e → io_write_entry w e os = (Ok tt, bw_push w (record_of e), os).
Proof.
  intros (bs & E & _) Hf. unfold entry_fits, io_write_entry, record_of in *. rewrite E in *.
  unfold frame_record, blen in *. rewrite length_app, le_bytes_length in Hf.
  rewrite bw_write_all_fits; unfold blen, BUF_CAPACITY in *; cbn [bw_buf bw_push]; rewrite ?le_bytes_length; [|lia..].
  rewrite bw_write_all_fits; unfold blen, BUF_CAPACITY; cbn [bw_buf bw_push];
    rewrite ?length_app, ?le_bytes_length; [|lia..].
  unfold bw_push. cbn. by rewrite <- app_assoc.
Qed.
End EntrySpecs.

(** ** What [open] does when its reads succeed *)

Definition of_log (l : SegmentedLog) : IoLog :=
  mkIoLog (current_seg l) (mkWriter (writer l) []) (entry_count l) (segment_count l).

(** No read will fail. *)
Definition readable (os : Os) : Prop := Forall (λ b, b = true) (os_reads os).

Lemma io_call_spec effect os r os' :
  io_call effect os = (r, os') → readable os →
  readable os' ∧ os_dir os' = (match r with Ok _ => effect (os_dir os) | Err _ => os_dir os end).
Proof.
  unfold io_call, os_call. destruct (os_calls os) as [|[] ?]; cbn; intros [= <- <-] Hr; done.
Qed.

Section OpenSpecs.
Context `{EntryCodec}.

Lemma io_read_entry_spec r os res os' :
  io_read_entry r os = (res, os') → readable os → res = Ok (read_entry r) ∧ os_dir os' = os_dir os ∧ readable os'.
Proof.
  unfold io_read_entry, os_read, readable. destruct (os_reads os) as [|b bs] eqn:E; intros [= <- <-] Hr.
  - split_and!; [done|done|by rewrite E].
  - apply Forall_cons in Hr as [-> Hr]. done.
Qed.

(** The loop reads what [replay_loop] reads, or stops with an error. *)
Lemma io_replay_loop_spec fuel r pos os res os' :
  io_replay_loop fuel r pos os = (res, os') → readable os →
  os_dir os' = os_dir os ∧ readable os' ∧ (∀ a, res = Ok a → a = replay_loop fuel r pos).
Proof.
  revert r pos os res os'. induction fuel as [|fuel IH]; intros r pos os res os'; cbn [io_replay_loop replay_loop].
  { intros [= <- <-] Hr. split_and!; [done|done|]. by intros a [= <-]. }
  unfold mbind, IoM_bind. destruct (io_call id os) as [r1 os1] eqn:E1. intros E Hr.
  destruct (io_call_spec _ _ _ _ E1 Hr) as [Hr1 Hd1]. destruct r1 as [[]|e]; [|by injection E as <- <-].
  cbn in Hd1. destruct (io_read_entry r os1) as [r2 os2] eqn:E2.
  destruct (io_read_entry_spec _ _ _ _ E2 Hr1) as (-> & Hd2 & Hr2).
  destruct (read_entry r) as [| |e rest]; [injection E as <- <-; split_and!; [congruence|done|by intros a [= <-]]..|].
  destruct (io_call id os2) as [r3 os3] eqn:E3. destruct (io_call_spec _ _ _ _ E3 Hr2) as [Hr3 Hd3].
  destruct r3 as [[]|err]; [|injection E as <- <-; split_and!; [congruence|done|done]]. cbn in Hd3.
  destruct (io_replay_loop fuel rest _ os3) as [r4 os4] eqn:E4.
  destruct (IH _ _ _ _ _ E4 Hr3) as (Hd4 & Hr4 & Ha).
  destruct r4 as [[es p]|err]; injection E as <- <-; (split_and!; [congruence|done|]); [|done].
  intros a [= <-]. by rewrite <- (Ha _ eq_refl).
Qed.

(** A segment is replayed as Log.v does it, or an error leaves the directory alone. *)
Lemma io_replay_segment_spec path os res os' :
  io_replay_segment path os = (res, os') → readable os →
  readable os' ∧
  match res with
  | Ok es => replay_segment (os_dir os) path = Ok (es, os_dir os')
  | Err _ => os_dir os' = os_dir os
  end.
Proof.
  unfold io_replay_segment, io_dir, mbind, IoM_bind. intros E Hr.
  destruct (io_call id os) as [r1 os1] eqn:E1. destruct (io_call_spec _ _ _ _ E1 Hr) as [Hr1 Hd1].
  destruct r1 as [[]|e]; [|by injection E as <- <-]. cbn in Hd1. rewrite Hd1 in E.
  unfold replay_segment, replay_content. destruct (os_dir os !! path) as [content|]; [|by injection E as <- <-].
  destruct (io_replay_loop _ content 0 os1) as [r2 os2] eqn:E2.
  destruct (io_replay_loop_spec _ _ _ _ _ _ E2 Hr1) as (Hd2 & Hr2 & Ha).
  destruct r2 as [[es p]|e]; [|injection E as <- <-; split; [done|congruence]].
  rewrite <- (Ha _ eq_refl). clear Ha. cbn [fst snd] in E.
  destruct (io_call id os2) as [r3 os3] eqn:E3. destruct (io_call_spec _ _ _ _ E3 Hr2) as [Hr3 Hd3].
  destruct r3 as [[]|e]; [cbn in Hd3|injection E as <- <-; split; [done|congruence]].
  destruct (Nat.eqb (length content) p); [injection E as <- <-; split; [done|by rewrite Hd3, Hd2, Hd1]|].
  destruct (io_call id os3) as [r4 os4] eqn:E4. destruct (io_call_spec _ _ _ _ E4 Hr3) as [Hr4 Hd4].
  destruct r4 as [[]|e]; [cbn in Hd4|injection E as <- <-; split; [done|congruence]].
  destruct (io_call _ os4) as [r5 os5] eqn:E5. destruct (io_call_spec _ _ _ _ E5 Hr4) as [Hr5 Hd5].
  destruct r5 as [[]|e]; injection E as <- <-; (split; [done|]); [|congruence].
  rewrite Hd5. congruence.
Qed.

(** The replay keeps what each replay of a segment keeps, also when it stops halfway,
    and when it succeeds it is the one of Log.v. *)
Lemma io_replay_all_spec (P : Dir → Prop) segs os res os' :
  (∀ n dir es dir', n ∈ segs → P dir → replay_segment dir (segment_path n) = Ok (es, dir') → P dir') →
  P (os_dir os) → io_replay_all segs os = (res, os') → readable os →
  readable os' ∧ P (os_dir os') ∧
  (∀ a, res = Ok a → replay_all (os_dir os) segs = Ok (a.1, a.2, os_dir os')).
Proof.
  revert os res os'. induction segs as [|n segs IH]; intros os res os' Hstep HP; cbn [io_replay_all replay_all].
  { intros [= <- <-] Hr. split_and!; [done|done|]. by intros a [= <-]. }
  unfold mbind, IoM_bind. destruct (io_replay_segment _ os) as [r1 os1] eqn:E1. intros E Hr.
  destruct (io_replay_segment_spec _ _ _ _ E1 Hr) as [Hr1 Hs].
  destruct r1 as [chunk|e]; [|injection E as <- <-; split_and!; [done|by rewrite Hs|done]].
  destruct (io_replay_all segs os1) as [r2 os2] eqn:E2.
  destruct (IH os1 r2 os2) as (Hr2 & HP2 & Ha); [|by eapply Hstep; [left|..]|done|done|].
  { intros m dir es dir' Hm. apply Hstep. by right. }
  destruct r2 as [b|e]; injection E as <- <-; (split_and!; [done|done|]); [|done].
  intros a [= <-]. rewrite Hs. cbn [result_bind]. by rewrite (Ha _ eq_refl).
Qed.

(** When [open] succeeds, it is the [open] of Log.v; when it fails, some segments may
    have been replayed. *)
Lemma io_open_spec (P : Dir → Prop) os res os' :
  (∀ n dir es dir', n ∈ list_segments (os_dir os) → P dir →
     replay_segment dir (segment_path n) = Ok (es, dir') → P dir') →
  P (os_dir os) → io_open os = (res, os') → readable os →
  readable os' ∧
  match res with
  | Ok (l, es) => ∃ l0, l = of_log l0 ∧ log_open (os_dir os) = Ok (l0, es, os_dir os')
  | Err _ => P (os_dir os')
  end.
Proof.
  unfold io_open, io_dir, mbind, IoM_bind. intros Hstep HP E Hr.
  destruct (io_call id os) as [r1 os1] eqn:E1. destruct (io_call_spec _ _ _ _ E1 Hr) as [Hr1 Hd1].
  destruct r1 as [[]|e]; [cbn in Hd1|injection E as <- <-; by rewrite Hd1].
  destruct (io_call id os1) as [r2 os2] eqn:E2. destruct (io_call_spec _ _ _ _ E2 Hr1) as [Hr2 Hd2].
  destruct r2 as [[]|e]; [cbn in Hd2|injection E as <- <-; by rewrite Hd2, Hd1]. rewrite Hd2, Hd1 in E.
  assert (Hd : os_dir os2 = os_dir os) by congruence.
  destruct (io_replay_all _ os2) as [r3 os3] eqn:E3.
  destruct (io_replay_all_spec P _ _ _ _ Hstep ltac:(by rewrite Hd) E3 Hr2) as (Hr3 & HP3 & Ha). rewrite Hd in Ha.
  destruct r3 as [[es c]|e]; [|by injection E as <- <-].
  destruct (io_call _ os3) as [r4 os4] eqn:E4. destruct (io_call_spec _ _ _ _ E4 Hr3) as [Hr4 Hd4].
  destruct r4 as [[]|e]; injection E as <- <-; (split; [done|]); [|by rewrite Hd4].
  eexists (mkLog _ _ _ _). split; [done|]. unfold log_open. rewrite (Ha _ eq_refl). cbn [result_bind]. by rewrite Hd4.
Qed.
End OpenSpecs.

(** ** Without failures it is the log of Log.v *)

(** A system on which no call will fail. *)
Definition sound (dir : Dir) : Os := mkOs dir [] [] [].

Lemma sound_write_file path data dir :
  write_file path data (sound dir) =
  (Ok tt, [], sound (<[path := (default [] (dir !! path) ++ data)%list]> dir)).
Proof. unfold write_file. cbn. destruct data; cbn; [by rewrite app_nil_r|done]. Qed.

Lemma sound_flush w dir : ∃ dir',
  bw_flush w (sound dir) = (Ok tt, mkWriter (bw_path w) [], sound dir').
Proof. unfold bw_flush. rewrite sound_write_file. eauto. Qed.

(** Flushing an empty buffer, and dropping its writer. *)
Lemma sound_flush_empty path dir :
  is_Some (dir !! path) →
  bw_flush (mkWriter path []) (sound dir) = (Ok tt, mkWriter path [], sound dir) ∧
  bw_drop (mkWriter path []) (sound dir) = sound dir.
Proof.
  intros [c Hc]. unfold bw_drop, bw_flush. cbn [bw_path bw_buf]. rewrite sound_write_file, Hc.
  change (default [] (Some c)) with c. rewrite app_nil_r. by rewrite insert_id.
Qed.

Lemma sound_write_all w data dir : ∃ w' dir',
  bw_write_all w data (sound dir) = (Ok tt, w', sound dir').
Proof.
  unfold bw_write_all. case_goal; [eauto|]. destruct (sound_flush w dir) as [d1 ->].
  destruct (_ <? blen data)%Z; cbn; case_goal; rewrite ?sound_write_file; eauto.
Qed.

Lemma sound_create_new dir path :
  os_create_new (sound dir) path =
  match create_new dir path with Ok dir' => (true, sound dir') | Err _ => (false, sound dir) end.
Proof. unfold os_create_new. cbn. by destruct (create_new dir path). Qed.

Section NoFaults.
Context `{EntryCodec}.

Lemma sound_write_entry w e dir : ∃ w' dir',
  io_write_entry w e (sound dir) =
  (match entry_to_vec e with Ok _ => Ok tt | Err err => Err (EEncode err) end, w', sound dir').
Proof.
  unfold io_write_entry. destruct (entry_to_vec e); [|eauto].
  destruct (sound_write_all w (le_bytes 4 (Z.of_nat (length a))) dir) as (w1 & d1 & ->).
  destruct (sound_write_all w1 a d1) as (w2 & d2 & ->). eauto.
Qed.

(** The snapshot loop takes the bytes that [write_entries] computes. *)
Lemma sound_write_entries w es dir acc :
  is_Some (dir !! bw_path w) →
  ∃ r w' dir' data, io_write_entries w es (sound dir) = (r, w', sound dir') ∧
    accepts w (sound dir) data w' (sound dir') ∧
    is_ok r = is_ok (write_entries acc es).1 ∧ (write_entries acc es).2 = (acc ++ data)%list.
Proof.
  revert w dir acc. induction es as [|e es IH]; intros w dir acc Hp; cbn [io_write_entries write_entries].
  { eexists _, _, _, []. split_and!; [done|by apply accepts_refl|done|by rewrite app_nil_r]. }
  destruct (sound_write_entry w e dir) as (w1 & d1 & E1). rewrite E1.
  destruct (io_write_entry_spec w e (sound dir) _ _ _ Hp E1) as (k & H1 & Hk).
  unfold write_entry, record_of, frame_record in *.
  destruct (entry_to_vec e) as [bs|err]; cbn [result_bind].
  - rewrite Hk in H1 by done. rewrite <- app_assoc. set (rec := (le_bytes 4 _ ++ bs)%list) in *.
    destruct (IH w1 d1 (acc ++ rec)%list (accepts_present _ _ _ _ _ H1)) as (r & w' & d' & data & -> & H2 & Hr & Ha).
    exists r, w', d', (rec ++ data)%list. split_and!; [done|by eapply accepts_trans|done|].
    by rewrite Ha, <- app_assoc.
  - eexists _, _, _, []. rewrite take_nil in H1. split_and!; [done|done|done|by rewrite app_nil_r].
Qed.

Lemma sound_snapshot path es dir :
  dir !! path = Some [] →
  ∃ r, io_snapshot path es (sound dir) = (r, sound (<[path := (write_entries [] es).2]> dir)) ∧
    is_ok r = is_ok (write_entries [] es).1.
Proof.
  intros Hp. unfold io_snapshot.
  destruct (sound_write_entries (mkWriter path []) es dir []) as (r & w1 & d1 & data & -> & H1 & <- & ->); [eauto|].
  pose proof (accepts_present _ _ _ _ _ H1) as Hp1. destruct (sound_flush w1 d1) as [d2 E2].
  destruct (bw_flush_spec _ _ _ _ _ Hp1 E2) as [H2 _].
  pose proof (accepts_trans _ _ _ _ _ _ _ _ H1 H2) as (_ & c & c' & Hc & Hd & _ & E).
  cbn in Hc, Hd, E. rewrite Hp in Hc. injection Hc as <-. rewrite !app_nil_r in E. cbn in E. subst c'.
  cbn [app]. rewrite <- Hd. destruct r as [[]|err].
  - rewrite E2. destruct (sound_flush_empty (bw_path w1) d2) as [_ ->]; [|by eexists].
    by apply (accepts_present _ _ _ _ _ H2).
  - unfold bw_drop. rewrite E2. by eexists.
Qed.

Lemma sound_remove segs dir :
  fold_left (λ o n, os_remove o (segment_path n)) segs (sound dir) =
  sound (fold_left (λ d n, delete (segment_path n) d) segs dir).
Proof. revert dir. induction segs as [|n segs IH]; intros dir; [done|]. apply IH. Qed.

Lemma create_new_other dir path dir' p :
  create_new dir path = Ok dir' → is_Some (dir !! p) → is_Some (dir' !! p) ∧ dir' !! path = Some [].
Proof.
  unfold create_new. destruct (dir !! path); [done|]. intros [= <-] Hp.
  split; [apply lookup_insert_is_Some'; eauto|by rewrite lookup_insert_eq].
Qed.

(** One record through an empty buffer: written and flushed, it is the record of
    [write_entry]. *)
Lemma sound_write_record path e dir c :
  dir !! path = Some c →
  let '(r, w, os) := io_write_entry (mkWriter path []) e (sound dir) in
  match write_entry c e with
  | Ok c' => r = Ok tt ∧ bw_flush w os = (Ok tt, mkWriter path [], sound (<[path := c']> dir))
  | Err _ => is_ok r = false ∧ w = mkWriter path [] ∧ os = sound dir
  end.
Proof.
  intros Hc. set (w := mkWriter path []).
  destruct (sound_write_entry w e dir) as (w1 & d1 & E1). rewrite E1.
  assert (Hp1 : is_Some (os_dir (sound dir) !! bw_path w)) by (cbn; eauto).
  destruct (io_write_entry_spec _ _ _ _ _ _ Hp1 E1) as (k & H1 & Hk).
  unfold io_write_entry in E1. unfold write_entry, record_of, frame_record in *.
  destruct (entry_to_vec e) as [bs|err]; cbn [result_bind]; [|by injection E1 as <- <-].
  split; [done|]. rewrite Hk in H1 by done. destruct (sound_flush w1 d1) as [d2 E2]. rewrite E2.
  destruct (bw_flush_spec _ _ _ _ _ (accepts_present _ _ _ _ _ H1) E2) as [H2 _].
  pose proof H1 as [Hpath _]. rewrite Hpath.
  pose proof (accepts_trans _ _ _ _ _ _ _ _ H1 H2) as (_ & c0 & c' & Hc0 & Hd & _ & E).
  cbn in Hc0, Hd, E. rewrite Hc in Hc0. injection Hc0 as <-. rewrite !app_nil_r in E. subst c' d2.
  by rewrite <- app_assoc.
Qed.

Lemma sound_append l e dir :
  is_Some (dir !! writer l) →
  let '(r, l', dir') := log_append l dir e in
  ∃ r', io_append (of_log l) e (sound dir) = (r', of_log l', sound dir') ∧ is_ok r' = is_ok r.
Proof.
  intros Hp. unfold log_append, io_append. cbn [io_entries of_log].
  set (full := (_ <=? _)%Z). unfold rotate, io_rotate. cbn [io_writer of_log io_seg io_entries io_segments].
  destruct (sound_flush_empty (writer l) dir Hp) as [-> _]. rewrite sound_create_new.
  destruct full; [destruct (create_new dir _) as [dir1|err] eqn:Ec; [|by eexists];
    destruct (create_new_other _ _ _ _ Ec Hp) as [Hp1 Hnew];
    destruct (sound_flush_empty (writer l) dir1 Hp1) as [_ ->]|destruct Hp as [c Hnew]].
  all: cbn [io_writer writer of_log]; rewrite Hnew; pose proof (sound_write_record _ e _ _ Hnew) as Hw;
    destruct (io_write_entry _ _ _) as [[r2 w2] os2]; change (default [] (Some ?x)) with x;
    destruct (write_entry _ _) as [c'|err]; [destruct Hw as [-> ->]; by eexists|];
    destruct Hw as (Hr & -> & ->); destruct r2; [done|]; by eexists.
Qed.

Lemma sound_compact l snapshot dir :
  is_Some (dir !! writer l) →
  let '(r, l', dir') := log_compact l dir snapshot in
  ∃ r', io_compact (of_log l) snapshot (sound dir) = (r', of_log l', sound dir') ∧ is_ok r' = is_ok r.
Proof.
  intros Hp. unfold log_compact, io_compact. cbn [os_call sound os_calls os_dir negb io_writer of_log io_seg io_entries io_segments].
  destruct (sound_flush_empty (writer l) dir Hp) as [-> _]. rewrite sound_create_new.
  destruct (create_new dir _) as [dir1|err] eqn:E1; [|by eexists]. cbn [negb].
  destruct (create_new_other _ _ _ _ E1 Hp) as [Hp1 Hnew1].
  destruct (sound_snapshot _ snapshot _ Hnew1) as (r3 & -> & Hr3).
  destruct (write_entries [] snapshot) as [r bytes]. cbn [fst snd] in *.
  destruct r as [[]|err], r3 as [[]|err3]; try done; [|by eexists].
  rewrite sound_create_new. set (dir2 := <[_ := bytes]> dir1).
  assert (Hp2 : is_Some (dir2 !! writer l)) by (apply lookup_insert_is_Some'; eauto).
  destruct (create_new dir2 _) as [dir3|err] eqn:E2; [|by eexists]. cbn [negb].
  destruct (create_new_other _ _ _ _ E2 Hp2) as [Hp3 _].
  destruct (sound_flush_empty (writer l) dir3 Hp3) as [_ ->]. rewrite sound_remove. by eexists.
Qed.

Lemma sound_replay_loop fuel r pos dir :
  io_replay_loop fuel r pos (sound dir) = (Ok (replay_loop fuel r pos), sound dir).
Proof.
  revert r pos. induction fuel as [|fuel IH]; intros r pos; [done|]. cbn [io_replay_loop replay_loop].
  unfold mbind, IoM_bind, io_call, io_read_entry. cbn [os_call os_read sound os_calls os_reads os_dir set_dir id].
  destruct (read_entry r) as [| |e rest]; [done..|]. cbn. fold (sound dir). rewrite IH. by destruct (replay_loop _ _ _).
Qed.

Lemma sound_replay_segment path dir :
  io_replay_segment path (sound dir) =
  match replay_segment dir path with Ok (es, dir') => (Ok es, sound dir') | Err _ => (Err OsError, sound dir) end.
Proof.
  unfold io_replay_segment, replay_segment, replay_content, mbind, IoM_bind.
  cbn [io_call os_call sound os_calls set_dir os_dir id io_dir].
  destruct (dir !! path) as [content|]; [|done]. fold (sound dir). rewrite sound_replay_loop.
  destruct (replay_loop _ content 0) as [es p]. cbn. by case_goal.
Qed.

(** With no failing call, [open] is the [open] of Log.v. *)
Lemma sound_open dir :
  match log_open dir with
  | Ok (l, es, dir') => io_open (sound dir) = (Ok (of_log l, es), sound dir')
  | Err _ => is_ok (io_open (sound dir)).1 = false
  end.
Proof.
  assert (Hall : ∀ segs dir, match replay_all dir segs with
    | Ok (es, c, dir') => io_replay_all segs (sound dir) = (Ok (es, c), sound dir')
    | Err _ => is_ok (io_replay_all segs (sound dir)).1 = false end).
  { intros segs. induction segs as [|n segs IH]; intros d; [done|]. cbn [io_replay_all replay_all].
    unfold mbind, IoM_bind. rewrite sound_replay_segment.
    destruct (replay_segment d (segment_path n)) as [[chunk d1]|e]; [cbn [result_bind]|done].
    specialize (IH d1). destruct (replay_all d1 segs) as [[[es c] d2]|e]; cbn [result_bind].
    - by rewrite IH.
    - destruct (io_replay_all segs (sound d1)) as [[]]; done. }
  assert (Hcall : ∀ f d, io_call f (sound d) = (Ok tt, sound (f d))) by done.
  unfold log_open, io_open, mbind, IoM_bind. rewrite !Hcall. unfold io_dir, id. cbn [os_dir sound].
  fold (sound dir). specialize (Hall (list_segments dir) dir).
  destruct (replay_all dir (list_segments dir)) as [[[es c] d1]|e]; cbn [result_bind].
  - rewrite Hall. cbn beta. by rewrite Hcall.
  - destruct (io_replay_all _ (sound dir)) as [[]]; done.
Qed.

(** C28. The buffered log is the log. When no system call fails, [append] and [compact]
    with the [BufWriter], its flushes and its drops written out, leave the directory and
    the handle that Log.v computes record by record, with nothing left in the
    buffer, and fail exactly when the codec refuses an entry or a segment exists. *)
Theorem faultless_log_refines l dir :
  is_Some (dir !! writer l) →
  (∀ e, let '(r, l', dir') := log_append l dir e in
     ∃ r', io_append (of_log l) e (sound dir) = (r', of_log l', sound dir') ∧ is_ok r' = is_ok r) ∧
  (∀ snapshot, let '(r, l', dir') := log_compact l dir snapshot in
     ∃ r', io_compact (of_log l) snapshot (sound dir) = (r', of_log l', sound dir') ∧ is_ok r' = is_ok r).
Proof. intros Hp. split; intros; [by apply sound_append|by apply sound_compact]. Qed.
End NoFaults.

Import ToyCodec.

(** An append and a compaction on the directory of two entries. *)
Lemma faultless_log_refines_witness :
  ∃ r' l' dir', @io_append codec (of_log toy_log) (toy_entry 3) (sound toy_dir) = (r', l', sound dir') ∧
    dir' !! segment_path 0 = Some (@records codec [toy_entry 1; toy_entry 2; toy_entry 3]) ∧
    ∃ r2 l2 dir2, @io_compact codec (of_log toy_log) [toy_entry 2] (sound toy_dir) = (r2, l2, sound dir2) ∧
      list_segments dir2 = [1; 2]%Z.
Proof.
  destruct (@faultless_log_refines codec toy_log toy_dir) as [Ha Hc]; [vm_compute; eauto|].
  specialize (Ha (toy_entry 3)). specialize (Hc [toy_entry 2]).
  destruct (@log_append _ _ _ _) as [[r l'] dir'] eqn:E. destruct Ha as (r' & -> & _).
  destruct (@log_compact _ _ _ _) as [[r1 l1] dir1] eqn:E1. destruct Hc as (r2 & -> & _).
  exists r', (of_log l'), dir'. split; [done|]. vm_compute in E. injection E as <- <- <-.
  split; [by vm_compute|]. exists r2, (of_log l1), dir1. split; [done|].
  vm_compute in E1. injection E1 as <- <- <-. by vm_compute.
Defined.
