(* ===== verification/Store.v ===== *)
(** * The versioned state store (src/src/state.rs)

    [StateStore] keeps one versioned value per key, a global version counter,
    a capped per-key log of deltas for RESUME, and optionally the segmented
    log of Log.v.  The methods take [&self]; the model runs them one at a time
    and passes the store explicitly.  The directory that the on-disk log
    writes to is part of the state. *)

From S2P Require Import Prelude RustStr Json JsonPath Delta Log.

Local Open Scope string_scope.

(** ** Data *)

Record StateEntry : Type := mkEntry {
  se_version : Z;
  se_value : Value;
}.

Definition MAX_DELTA_LOG_ENTRIES_PER_KEY : nat := 1000.

Abbreviation DeltaLog := (gmap string (list (Z * list DeltaOp))).

Definition dlog_append (log : DeltaLog) (key : string) (version : Z) (ops : list DeltaOp) : DeltaLog :=
  let entry := (default [] (log !! key) ++ [(version, ops)])%list in
  let entry' :=
    if Nat.ltb MAX_DELTA_LOG_ENTRIES_PER_KEY (length entry)
    then drop (length entry - MAX_DELTA_LOG_ENTRIES_PER_KEY) entry
    else entry in
  <[key := entry']> log.

Definition dlog_since (log : DeltaLog) (key : string) (since_version : Z) : list (Z * list DeltaOp) :=
  match log !! key with
  | None => []
  | Some entries => List.filter (λ '(v, _), since_version <? v)%Z entries
  end.

Record StateStore : Type := mkStore {
  st_entries : gmap string StateEntry;
  st_version : Z;
  st_log : DeltaLog;
  st_plog : option SegmentedLog;
  st_disk : Dir;
}.

Definition store_new (disk : Dir) : StateStore := mkStore ∅ 0 ∅ None disk.

(** [sort_unstable_by_key(|e| e.version)]: sorted, equal versions in any order. *)
Class VersionSort : Type := {
  sort_by_version : list LogEntry → list LogEntry;
  sort_by_version_perm : ∀ l, sort_by_version l ≡ₚ l;
  sort_by_version_sorted : ∀ l,
    StronglySorted (λ a b, le_version a ≤ le_version b)%Z (sort_by_version l);
}.

Section StoreOps.
Context `{EntryCodec, HashOrder}.

(** ** Reads *)

Definition key_count (s : StateStore) : nat := size (st_entries s).
Definition store_get (s : StateStore) (key : string) : option StateEntry := st_entries s !! key.
Definition deltas_since (s : StateStore) (key : string) (since_version : Z) :
    list (Z * list DeltaOp) := dlog_since (st_log s) key since_version.
Definition current_version (s : StateStore) : Z := st_version s.

(** ** The on-disk log *)

Definition snapshot (s : StateStore) : list LogEntry :=
  (λ '(k, e), mkLogEntry (se_version e) k [] (se_value e)) <$> hash_iter (st_entries s).

Definition compact_plog (s : StateStore) : StateStore :=
  match st_plog s with
  | None => s
  | Some l =>
      let '(_, l', disk') := log_compact l (st_disk s) (snapshot s) in
      mkStore (st_entries s) (st_version s) (st_log s) (Some l') disk'
  end.

(** The persistence block of [apply] and [delete]: append the entry (an error
    is only reported to the tracing log), then compact when needed. *)
Definition persist (s : StateStore) (log_entry : LogEntry) : StateStore :=
  match st_plog s with
  | None => s
  | Some l =>
      let '(_, l', disk') := log_append l (st_disk s) log_entry in
      let s' := mkStore (st_entries s) (st_version s) (st_log s) (Some l') disk' in
      if needs_compact l' then compact_plog s' else s'
  end.

(** ** Writes *)

Definition store_apply (s : StateStore) (key : string) (new_value : Value) :
    (Z * list DeltaOp) * StateStore :=
  let version := u64_add (st_version s) 1 in
  let ops := match st_entries s !! key with
             | Some existing => diff (se_value existing) new_value
             | None => [delta_add "/" new_value]
             end in
  let entries' := <[key := mkEntry version new_value]> (st_entries s) in
  match ops with
  | [] => ((version, ops), mkStore entries' version (st_log s) (st_plog s) (st_disk s))
  | _ =>
      let log' := dlog_append (st_log s) key version ops in
      let s' := mkStore entries' version log' (st_plog s) (st_disk s) in
      ((version, ops), persist s' (mkLogEntry version key ops new_value))
  end.

Definition store_delete (s : StateStore) (key : string) :
    option (Z * list DeltaOp) * StateStore :=
  match st_entries s !! key with
  | None => (None, s)
  | Some _ =>
      let version := u64_add (st_version s) 1 in
      let ops := [delta_remove "/"] in
      let log' := dlog_append (st_log s) key version ops in
      let s' := mkStore (delete key (st_entries s)) version log' (st_plog s) (st_disk s) in
      (Some (version, ops), persist s' (mkLogEntry version key ops VNull))
  end.

(** One round of the loop of [load_entries]. *)
Definition load_entry (entries : gmap string StateEntry) (kvv : string * Z * Value) :
    gmap string StateEntry :=
  let '(key, version, value) := kvv in
  let current := match entries !! key with Some e => se_version e | None => 0%Z end in
  if (current <? version)%Z then <[key := mkEntry version value]> entries else entries.

Definition load_entries (s : StateStore) (es : list (string * Z * Value)) : StateStore :=
  let max_version := fold_left (λ m '(_, version, _), Z.max m version) es 0%Z in
  let entries' := fold_left load_entry es (st_entries s) in
  let version' := if (st_version s <? max_version)%Z then max_version else st_version s in
  mkStore entries' version' (st_log s) (st_plog s) (st_disk s).

(** ** Opening *)

(** One round of the rebuild loop of [open]. *)
Definition replay_entry (acc : gmap string StateEntry * DeltaLog) (e : LogEntry) :
    gmap string StateEntry * DeltaLog :=
  let '(entries, log) := acc in
  (<[le_key e := mkEntry (le_version e) (le_value e)]> entries,
   match le_ops e with
   | [] => log
   | ops => dlog_append log (le_key e) (le_version e) ops
   end).

Definition store_open `{VersionSort} (disk : Dir) : result StateStore string :=
  let? r := log_open disk in
  let '(l, all_entries, disk') := r in
  let sorted := sort_by_version all_entries in
  let max_version := match last sorted with Some e => le_version e | None => 0%Z end in
  let '(entries, log) := fold_left replay_entry sorted (∅, ∅) in
  Ok (mkStore entries max_version log (Some l) disk').

(** ** Sequences of writes *)

Inductive StoreOp : Type :=
| SApply (key : string) (v : Value)
| SDelete (key : string)
| SLoad (es : list (string * Z * Value)).

Definition store_step (s : StateStore) (o : StoreOp) : StateStore :=
  match o with
  | SApply key v => (store_apply s key v).2
  | SDelete key => (store_delete s key).2
  | SLoad es => load_entries s es
  end.

Definition store_run (s : StateStore) (os : list StoreOp) : StateStore := fold_left store_step os s.
End StoreOps.

(** ** What the store holds for a key *)

Definition store_value (s : StateStore) (key : string) : Value :=
  match store_get s key with Some e => se_value e | None => VNull end.

Definition key_log (s : StateStore) (key : string) : list (Z * list DeltaOp) :=
  default [] (st_log s !! key).

(** ** Projections through the persistence block *)

Section Persist.
Context `{EntryCodec, HashOrder}.

Lemma compact_plog_entries s : st_entries (compact_plog s) = st_entries s.
Proof. unfold compact_plog. by repeat case_match. Qed.
Lemma compact_plog_version s : st_version (compact_plog s) = st_version s.
Proof. unfold compact_plog. by repeat case_match. Qed.
Lemma compact_plog_log s : st_log (compact_plog s) = st_log s.
Proof. unfold compact_plog. by repeat case_match. Qed.

Lemma persist_entries s e : st_entries (persist s e) = st_entries s.
Proof. unfold persist. repeat case_match; rewrite ?compact_plog_entries; done. Qed.
Lemma persist_version s e : st_version (persist s e) = st_version s.
Proof. unfold persist. repeat case_match; rewrite ?compact_plog_version; done. Qed.
Lemma persist_log s e : st_log (persist s e) = st_log s.
Proof. unfold persist. repeat case_match; rewrite ?compact_plog_log; done. Qed.

(** The operations [apply] emits. *)
Definition apply_emits (s : StateStore) (key : string) (v : Value) : list DeltaOp :=
  match store_get s key with
  | Some existing => diff (se_value existing) v
  | None => [delta_add "/" v]
  end.

Lemma store_apply_result s key v :
  (store_apply s key v).1 = (u64_add (st_version s) 1, apply_emits s key v).
Proof. unfold store_apply, apply_emits, store_get. by repeat case_match. Qed.

Lemma store_apply_entries s key v :
  st_entries (store_apply s key v).2 = <[key := mkEntry (u64_add (st_version s) 1) v]> (st_entries s).
Proof. unfold store_apply. case_match; cbn [snd]; rewrite ?persist_entries; done. Qed.

Lemma store_apply_version s key v : st_version (store_apply s key v).2 = u64_add (st_version s) 1.
Proof. unfold store_apply. case_match; cbn [snd]; rewrite ?persist_version; done. Qed.

Lemma store_apply_log s key v :
  st_log (store_apply s key v).2 =
  match apply_emits s key v with
  | [] => st_log s
  | ops => dlog_append (st_log s) key (u64_add (st_version s) 1) ops
  end.
Proof.
  unfold store_apply, apply_emits, store_get.
  destruct (match st_entries s !! key with Some _ => _ | None => _ end);
    cbn [snd]; rewrite ?persist_log; done.
Qed.

Lemma store_delete_present s key e :
  store_get s key = Some e →
  (store_delete s key).1 = Some (u64_add (st_version s) 1, [delta_remove "/"]) ∧
  st_entries (store_delete s key).2 = delete key (st_entries s) ∧
  st_version (store_delete s key).2 = u64_add (st_version s) 1 ∧
  st_log (store_delete s key).2 =
    dlog_append (st_log s) key (u64_add (st_version s) 1) [delta_remove "/"].
Proof.
  unfold store_get, store_delete. intros ->. cbn [fst snd].
  by rewrite persist_entries, persist_version, persist_log.
Qed.

Lemma store_delete_absent s key : store_get s key = None → store_delete s key = (None, s).
Proof. unfold store_get, store_delete. by intros ->. Qed.
End Persist.

(** ** The delta log *)

Definition log_sorted (l : list (Z * list DeltaOp)) : Prop := StronglySorted Z.lt l.*1.

Lemma dlog_append_eq log key v ops :
  default [] (dlog_append log key v ops !! key) =
  let l := (default [] (log !! key) ++ [(v, ops)])%list in
  drop (length l - MAX_DELTA_LOG_ENTRIES_PER_KEY) l.
Proof.
  unfold dlog_append. rewrite lookup_insert_eq. cbn [default]. cbv zeta.
  destruct (Nat.ltb _ _) eqn:E; [done|]. bool_to_prop.
  by replace (_ - MAX_DELTA_LOG_ENTRIES_PER_KEY) with 0 by lia.
Qed.

Lemma dlog_append_last log key v ops :
  last (default [] (dlog_append log key v ops !! key)) = Some (v, ops).
Proof.
  rewrite dlog_append_eq. cbv zeta. rewrite drop_app_le, last_snoc; [done|].
  rewrite length_app. unfold MAX_DELTA_LOG_ENTRIES_PER_KEY. cbn. lia.
Qed.

Lemma dlog_append_ne log key key' v ops :
  key' ≠ key → dlog_append log key v ops !! key' = log !! key'.
Proof. intros. unfold dlog_append. by rewrite lookup_insert_ne. Qed.

Lemma dlog_since_filter log key since :
  dlog_since log key since = List.filter (λ '(v, _), since <? v)%Z (default [] (log !! key)).
Proof. unfold dlog_since. by destruct (log !! key). Qed.

Lemma log_sorted_snoc l v ops :
  log_sorted l → Forall (λ x, x < v)%Z l.*1 → log_sorted (l ++ [(v, ops)]).
Proof.
  intros Hs Hlt. unfold log_sorted. rewrite fmap_app. cbn.
  apply StronglySorted_app_2; [|done|repeat constructor].
  intros x y Hx ->%list_elem_of_singleton. rewrite Forall_forall in Hlt. by apply Hlt.
Qed.

Lemma log_sorted_drop n l : log_sorted l → log_sorted (drop n l).
Proof.
  unfold log_sorted. intros Hs. rewrite <- (take_drop n l), fmap_app in Hs.
  by apply StronglySorted_app_1_r in Hs.
Qed.

(** A per-key log: increasing versions up to the bound, capped, no empty delta. *)
Record klog_ok (bound : Z) (l : list (Z * list DeltaOp)) : Prop := {
  kl_sorted : log_sorted l;
  kl_bound : Forall (λ ve, 0 ≤ ve.1 ≤ bound)%Z l;
  kl_cap : (length l ≤ MAX_DELTA_LOG_ENTRIES_PER_KEY)%nat;
  kl_ops : Forall (λ ve, ve.2 ≠ []) l;
}.

Definition dlog_ok (bound : Z) (log : DeltaLog) : Prop :=
  ∀ k, klog_ok bound (default [] (log !! k)).

Lemma klog_ok_mono b b' l : (b ≤ b')%Z → klog_ok b l → klog_ok b' l.
Proof.
  intros Hb [? Hl ? ?]. split; try done.
  eapply Forall_impl; [exact Hl|]. cbn. lia.
Qed.

Lemma dlog_append_ok b b' v log key ops :
  dlog_ok b log → Forall (λ ve, ve.1 < v)%Z (default [] (log !! key)) →
  (0 ≤ v ≤ b')%Z → (b ≤ b')%Z → ops ≠ [] → dlog_ok b' (dlog_append log key v ops).
Proof.
  intros Hl Hlt Hv Hbb Ho k. destruct (decide (k = key)) as [->|Hne].
  - rewrite dlog_append_eq. cbv zeta. destruct (Hl key) as [Hs Hb Hc Hops]. split.
    + by apply log_sorted_drop, log_sorted_snoc, Forall_fmap.
    + apply Forall_drop, Forall_app. split; [|apply Forall_singleton; cbn; lia].
      eapply Forall_impl; [exact Hb|]. cbn. lia.
    + rewrite length_drop. lia.
    + apply Forall_drop, Forall_app. split; [done|by apply Forall_singleton].
  - rewrite dlog_append_ne by done. eapply klog_ok_mono; [|apply Hl]. lia.
Qed.

(** The case of a version above everything logged. *)
Lemma dlog_append_next b log key ops :
  dlog_ok b log → (0 ≤ b)%Z → ops ≠ [] → dlog_ok (b + 1) (dlog_append log key (b + 1) ops).
Proof.
  intros Hl Hb Ho. eapply dlog_append_ok; [done| |lia|lia|done].
  eapply Forall_impl; [apply (kl_bound _ _ (Hl key))|]. cbn. lia.
Qed.

(** ** The store's invariant *)

Record store_inv (s : StateStore) : Prop := {
  si_version : (0 ≤ st_version s ≤ u64_max)%Z;
  si_entries : ∀ k e, store_get s k = Some e →
    (0 ≤ se_version e ≤ st_version s)%Z ∧ wf_value (se_value e) = true;
  si_log : dlog_ok (st_version s) (st_log s);
}.

Lemma store_new_inv disk : store_inv (store_new disk).
Proof. split; [done|done|]. intros k. cbn. rewrite lookup_empty. split; cbn; try constructor. lia. Qed.

Section Invariant.
Context `{EntryCodec, HashOrder}.

Lemma store_apply_inv s key v :
  store_inv s → wf_value v = true → (st_version s < u64_max)%Z → store_inv (store_apply s key v).2.
Proof.
  intros [Hv He Hl] Hwf Hm. assert (Hadd := u64_add_small (st_version s) 1 ltac:(lia)).
  unfold store_get in He.
  split; unfold store_get; rewrite ?store_apply_version, ?store_apply_entries, ?store_apply_log, ?Hadd.
  - lia.
  - intros k e. rewrite lookup_insert_Some. intros [[_ <-]|[_ Hk]]; [cbn; split; [lia|done]|].
    apply He in Hk as [? ?]. split; [lia|done].
  - case_match; [|apply dlog_append_next; [done|lia|done]].
    intros k. eapply klog_ok_mono; [|apply Hl]. lia.
Qed.

Lemma store_delete_inv s key :
  store_inv s → (st_version s < u64_max)%Z → store_inv (store_delete s key).2.
Proof.
  intros Hi Hm. destruct (store_get s key) as [e0|] eqn:E; [|by rewrite store_delete_absent].
  destruct (store_delete_present s key e0 E) as (_ & Hen & Hve & Hlo).
  destruct Hi as [Hv He Hl]. assert (Hadd := u64_add_small (st_version s) 1 ltac:(lia)).
  unfold store_get in He. split; unfold store_get; rewrite ?Hen, ?Hve, ?Hlo, ?Hadd.
  - lia.
  - intros k e. rewrite lookup_delete_Some. intros [_ Hk].
    apply He in Hk as [? ?]. split; [lia|done].
  - apply dlog_append_next; [done|lia|done].
Qed.

Definition load_ok (es : list (string * Z * Value)) : Prop :=
  Forall (λ '(_, v, x), (0 ≤ v ≤ u64_max)%Z ∧ wf_value x = true) es.

Definition max_loaded (es : list (string * Z * Value)) (m : Z) : Z :=
  fold_left (λ m '(_, version, _), Z.max m version) es m.

Lemma max_loaded_spec es m :
  (m ≤ max_loaded es m)%Z ∧ Forall (λ '(_, v, _), v ≤ max_loaded es m)%Z es ∧
  (load_ok es → (m ≤ u64_max)%Z → (max_loaded es m ≤ u64_max)%Z).
Proof.
  revert m. induction es as [|[[k v] x] es IH]; intros m; cbn [max_loaded fold_left].
  - split_and!; [lia|constructor|done].
  - fold (max_loaded es (Z.max m v)). destruct (IH (Z.max m v)) as (H1 & H2 & H3).
    split_and!; [lia|constructor; [lia|done]|].
    intros [[? ?] ?]%Forall_cons ?. apply H3; [done|lia].
Qed.

Lemma load_fold_inv es entries b :
  (∀ k e, entries !! k = Some e → (0 ≤ se_version e ≤ b)%Z ∧ wf_value (se_value e) = true) →
  load_ok es → Forall (λ '(_, v, _), v ≤ b)%Z es →
  ∀ k e, fold_left load_entry es entries !! k = Some e →
    (0 ≤ se_version e ≤ b)%Z ∧ wf_value (se_value e) = true.
Proof.
  revert entries. induction es as [|[[k0 v] x] es IH]; intros entries He Hok Hb; [done|].
  apply Forall_cons in Hok as [[Hv Hx] Hok]. apply Forall_cons in Hb as [Hvb Hb].
  cbn [fold_left]. apply IH; [|done|done]. intros k e. unfold load_entry.
  case_goal; [|by apply He]. rewrite lookup_insert_Some. intros [[_ <-]|[_ Hk]]; [|by apply (He k)].
  cbn. split; [lia|done].
Qed.

Lemma load_entries_inv s es : store_inv s → load_ok es → store_inv (load_entries s es).
Proof.
  intros [Hv He Hl] Hok. destruct (max_loaded_spec es 0) as (H1 & H2 & H3).
  specialize (H3 Hok ltac:(unfold u64_max; lia)). unfold max_loaded in *.
  assert (Hge : ∀ m : Z, (st_version s ≤ (if (st_version s <? m)%Z then m else st_version s) ∧
    m ≤ (if (st_version s <? m)%Z then m else st_version s))%Z) by (intros m; case_goal; bool_to_prop; lia).
  specialize (Hge (fold_left (λ m '(_, version, _), Z.max m version) es 0)%Z).
  split; cbn [st_version st_log load_entries].
  - split; [lia|]. case_goal; lia.
  - unfold store_get, load_entries. cbn. apply load_fold_inv; [|done|].
    + intros k e Hk. destruct (He k e Hk). split; [lia|done].
    + eapply Forall_impl; [exact H2|]. intros [[? ?] ?]. lia.
  - intros k. eapply klog_ok_mono; [|apply Hl]. lia.
Qed.

(** Arguments as serde_json produces them: well-formed values, [u64] versions. *)
Definition op_ok (o : StoreOp) : Prop :=
  match o with
  | SApply _ v => wf_value v = true
  | SDelete _ => True
  | SLoad es => load_ok es
  end.

(** No operation of the sequence wraps the counter. *)
Fixpoint no_wrap (s : StateStore) (os : list StoreOp) : Prop :=
  match os with
  | [] => True
  | o :: os' => (st_version s < u64_max)%Z ∧ no_wrap (store_step s o) os'
  end.

Lemma store_step_inv s o :
  store_inv s → op_ok o → (st_version s < u64_max)%Z → store_inv (store_step s o).
Proof.
  intros Hi Ho Hm. destruct o; cbn [store_step].
  - by apply store_apply_inv.
  - by apply store_delete_inv.
  - by apply load_entries_inv.
Qed.

Lemma store_run_inv s os :
  store_inv s → Forall op_ok os → no_wrap s os → store_inv (store_run s os).
Proof.
  intros Hi Hos. revert s Hi. induction Hos as [|o os Ho _ IH]; intros s Hi Hm; [done|].
  destruct Hm as [Hm Hw]. cbn. apply IH; [|done]. by apply store_step_inv.
Qed.

Lemma store_step_version_mono s o :
  store_inv s → (st_version s < u64_max)%Z → (st_version s ≤ st_version (store_step s o))%Z.
Proof.
  intros [Hv _ _] Hm. destruct o; cbn [store_step].
  - rewrite store_apply_version, u64_add_small; lia.
  - destruct (store_get s key) as [e0|] eqn:E; [|rewrite store_delete_absent by done; cbn; lia].
    destruct (store_delete_present s key e0 E) as (_ & _ & -> & _). rewrite u64_add_small; lia.
  - cbn. case_goal; bool_to_prop; lia.
Qed.
End Invariant.

(** ** Behaviour of [apply] and [delete] *)

Section Behaviour.
Context `{EntryCodec, HashOrder}.

Lemma store_value_wf s key : store_inv s → wf_value (store_value s key) = true.
Proof.
  intros Hi. unfold store_value. destruct (store_get s key) as [e|] eqn:E; [|done].
  by apply (si_entries s Hi) in E as [_ ?].
Qed.

Lemma store_value_apply s key v : store_value (store_apply s key v).2 key = v.
Proof. unfold store_value, store_get. by rewrite store_apply_entries, lookup_insert_eq. Qed.

(** What a write leaves of the log on disk: nothing without one; otherwise the entry is
    given to [append], and the map's snapshot to [compact] when that is due. *)
Definition written_to_log (s : StateStore) (e : LogEntry) (s' : StateStore) : Prop :=
  match st_plog s with
  | None => st_plog s' = None ∧ st_disk s' = st_disk s
  | Some l =>
      let '(_, l1, disk1) := log_append l (st_disk s) e in
      if needs_compact l1
      then let '(_, l2, disk2) := log_compact l1 disk1 (snapshot s') in st_plog s' = Some l2 ∧ st_disk s' = disk2
      else st_plog s' = Some l1 ∧ st_disk s' = disk1
  end.

Lemma persist_written s e s0 :
  st_plog s0 = st_plog s → st_disk s0 = st_disk s → written_to_log s0 e (persist s e).
Proof.
  intros Hp Hd. unfold written_to_log, persist. rewrite Hp, Hd. destruct (st_plog s) as [l|] eqn:E; [|done].
  destruct (log_append l (st_disk s) e) as [[res l1] disk1]. destruct (needs_compact l1); [|done].
  assert (Hsnap : ∀ v log pl disk, snapshot (mkStore (st_entries s) v log pl disk) = snapshot s) by done.
  unfold compact_plog. cbn [st_plog st_disk st_entries]. rewrite Hsnap.
  destruct (log_compact l1 disk1 (snapshot s)) as [[res2 l2] disk2] eqn:Ec. by rewrite Hsnap, Ec.
Qed.

Lemma store_apply_disk s key v :
  let s' := (store_apply s key v).2 in
  match apply_emits s key v with
  | [] => st_plog s' = st_plog s ∧ st_disk s' = st_disk s
  | ops => written_to_log s (mkLogEntry (u64_add (st_version s) 1) key ops v) s'
  end.
Proof.
  unfold store_apply, apply_emits, store_get. destruct (st_entries s !! key) as [x|]; cbn zeta.
  - destruct (diff (se_value x) v); [done|]. by apply persist_written.
  - by apply persist_written.
Qed.

Lemma store_apply_other s key v k :
  k ≠ key → store_get (store_apply s key v).2 k = store_get s k ∧
            key_log (store_apply s key v).2 k = key_log s k.
Proof.
  intros Hne. unfold store_get, key_log. rewrite store_apply_entries, store_apply_log.
  rewrite lookup_insert_ne by done. split; [done|]. case_match; [done|].
  by rewrite dlog_append_ne.
Qed.

Lemma store_value_other s key v k :
  k ≠ key → store_value (store_apply s key v).2 k = store_value s k.
Proof. intros Hk. unfold store_value. by destruct (store_apply_other s key v k Hk) as [-> _]. Qed.

(** A replica that holds the key's value reaches the written one. *)
Lemma apply_emits_sound s key v :
  store_inv s → wf_value v = true →
  pointer_safe (store_value s key) = true → pointer_safe v = true →
  Replica.apply_ops (store_value s key) (apply_emits s key v) ≡ v.
Proof.
  intros Hi Hwf Hs Hsv. pose proof (store_value_wf s key Hi) as Hw.
  unfold apply_emits, store_value in *. destruct (store_get s key) as [e|]; [|done].
  by apply apply_diff.
Qed.

(** A replica that already holds the written value keeps it. *)
Lemma apply_emits_again s key v :
  store_inv s → wf_value v = true →
  pointer_safe (store_value s key) = true → pointer_safe v = true →
  Replica.apply_ops v (apply_emits s key v) ≡ v.
Proof.
  intros Hi Hwf Hs Hsv. pose proof (store_value_wf s key Hi) as Hw.
  unfold apply_emits, store_value in *. destruct (store_get s key) as [e|]; [|done].
  by rewrite apply_diff_again.
Qed.

Lemma apply_emits_nil s key v :
  store_inv s → wf_value v = true →
  apply_emits s key v = [] ↔ ∃ e, store_get s key = Some e ∧ se_value e ≡ v.
Proof.
  intros Hi Hwf. pose proof (store_value_wf s key Hi) as Hw.
  unfold apply_emits, store_value in *. destruct (store_get s key) as [e|].
  - rewrite diff_nil_equiv by done. naive_solver.
  - naive_solver.
Qed.

(** C5. [StateStore::apply]. On a well-formed store, for a value with field names that a
    path can carry (the stored one's too): the version returned is the counter plus one, it
    exceeds every version in the store, and becomes the version of the key,
    whose value is now exactly the one given; other keys and their delta logs
    are untouched; the operations returned turn any value equal to the previous one
    into the new one, and are empty exactly when the key existed with an equal
    value.  If they are empty, delta log and disk stay as they are; if not, they
    are added to the key's delta log, whose oldest entries beyond the cap are dropped and
    no others, and the entry is given to the log on disk. *)
Theorem store_apply_correct s key v :
  store_inv s → wf_value v = true → (st_version s < u64_max)%Z →
  pointer_safe (store_value s key) = true → pointer_safe v = true →
  let '((version, ops), s') := store_apply s key v in
  store_inv s' ∧
  version = (st_version s + 1)%Z ∧ current_version s' = version ∧
  (∀ k e, store_get s k = Some e → (se_version e < version)%Z) ∧
  store_get s' key = Some (mkEntry version v) ∧
  (∀ k, k ≠ key → store_get s' k = store_get s k ∧ key_log s' k = key_log s k) ∧
  (∀ replica, replica ≡ store_value s key → Replica.apply_ops replica ops ≡ v) ∧
  (ops = [] ↔ ∃ e, store_get s key = Some e ∧ se_value e ≡ v) ∧
  (ops = [] → key_log s' key = key_log s key ∧ st_plog s' = st_plog s ∧ st_disk s' = st_disk s) ∧
  (ops ≠ [] →
     key_log s' key = (let l := key_log s key ++ [(version, ops)] in drop (length l - MAX_DELTA_LOG_ENTRIES_PER_KEY) l)%list ∧
     written_to_log s (mkLogEntry version key ops v) s').
Proof.
  intros Hi Hwf Hm Hs Hsv. pose proof (store_apply_inv s key v Hi Hwf Hm) as Hi'.
  pose proof (store_apply_result s key v) as Hr. pose proof (store_apply_entries s key v) as He.
  pose proof (store_apply_version s key v) as Hv. pose proof (store_apply_log s key v) as Hl.
  pose proof (store_apply_other s key v) as Ho. pose proof (store_apply_disk s key v) as Hd.
  pose proof (u64_add_small (st_version s) 1) as Hadd. pose proof (si_version s Hi).
  destruct (store_apply s key v) as [[version ops] s']. cbn [fst snd] in *.
  rewrite Hadd in * by lia. injection Hr as -> ->.
  split_and!; [done|done|done| | |done| | | |].
  - intros k e [Hk _]%(si_entries s Hi). lia.
  - unfold store_get. by rewrite He, lookup_insert_eq.
  - intros replica ->. by apply apply_emits_sound.
  - by apply apply_emits_nil.
  - intros E. unfold key_log. rewrite Hl, E in *. done.
  - intros Hne. unfold key_log. rewrite Hl. destruct (apply_emits s key v); [done|]. split; [apply dlog_append_eq|done].
Qed.

(** [StateStore::delete]. An absent key is a no-op that returns [None]; a
    present key is removed, other keys stay, the counter advances by one, and
    the single operation is REMOVE at the root, which is also logged. *)
Theorem store_delete_correct s key :
  store_inv s → (st_version s < u64_max)%Z →
  let '(r, s') := store_delete s key in
  store_inv s' ∧ store_get s' key = None ∧ (∀ k, k ≠ key → store_get s' k = store_get s k) ∧
  match store_get s key with
  | None => r = None ∧ s' = s
  | Some _ =>
      r = Some ((st_version s + 1)%Z, [delta_remove "/"]) ∧
      current_version s' = (st_version s + 1)%Z ∧
      last (key_log s' key) = Some ((st_version s + 1)%Z, [delta_remove "/"])
  end.
Proof.
  intros Hi Hm. pose proof (store_delete_inv s key Hi Hm) as Hi'. pose proof (si_version s Hi).
  destruct (store_get s key) as [e|] eqn:E.
  - destruct (store_delete_present s key e E) as (Hr & He & Hv & Hl).
    destruct (store_delete s key) as [r s']. cbn [fst snd] in *.
    rewrite u64_add_small in * by lia.
    split_and!; [done| | |done|done|].
    + unfold store_get. by rewrite He, lookup_delete_eq.
    + intros k Hk. unfold store_get. by rewrite He, lookup_delete_ne.
    + unfold key_log. rewrite Hl. apply dlog_append_last.
  - by rewrite store_delete_absent.
Qed.

(** C27. Every store reached from an empty one by writes, deletes and loads has
    its counter above every stored version, well-formed values, and per-key
    delta logs that are strictly increasing, bounded by the counter, free of
    empty deltas and never longer than the cap. *)
Theorem store_reachable_inv disk os :
  Forall op_ok os → no_wrap (store_new disk) os → store_inv (store_run (store_new disk) os).
Proof. intros. apply store_run_inv; [apply store_new_inv|done|done]. Qed.
End Behaviour.

(** ** RESUME: replaying the delta log to a replica *)

Section Resume.
Context `{EntryCodec, HashOrder}.

(** The writes of a sequence that may append to the log of [key]. *)
Definition writes_key (key : string) (o : StoreOp) : bool :=
  match o with
  | SApply k _ | SDelete k => String.eqb k key
  | SLoad _ => false
  end.

Definition is_load (o : StoreOp) : bool := match o with SLoad _ => true | _ => false end.

Fixpoint count_writes (key : string) (os : list StoreOp) : nat :=
  match os with
  | [] => 0
  | o :: os' => (if writes_key key o then 1 else 0) + count_writes key os'
  end.

(** [missed] is what was logged for [key] after the log was [base], nothing of
    it evicted, and it takes the replica [r] to the stored value. *)
Record caught_up (base : list (Z * list DeltaOp)) (since : Z) (r : Value) (key : string)
    (s : StateStore) (missed : list (Z * list DeltaOp)) : Prop := {
  cu_inv : store_inv s;
  cu_since : (since ≤ st_version s)%Z;
  cu_log : ∃ n, key_log s key = (drop n base ++ missed)%list;
  cu_new : Forall (λ ve, since < ve.1)%Z missed;
  cu_value : Replica.apply_ops r (flat_map snd missed) ≡ store_value s key;
  cu_safe : pointer_safe (store_value s key) = true;
}.

(** Logging one more delta of [key]. *)
Lemma caught_up_append base since r key s missed s' v ops :
  caught_up base since r key s missed →
  (S (length missed) ≤ MAX_DELTA_LOG_ENTRIES_PER_KEY)%nat →
  store_inv s' → (st_version s < v)%Z → st_version s' = v →
  st_log s' = dlog_append (st_log s) key v ops →
  Replica.apply_ops (store_value s key) ops ≡ store_value s' key →
  pointer_safe (store_value s' key) = true →
  caught_up base since r key s' (missed ++ [(v, ops)]).
Proof.
  intros [Hi Hs [n Hl] Hn Hv Hsafe] Hlen Hi' Hlt Hver Hlog Happ Hsafe'. split; try done.
  - lia.
  - unfold key_log in *. rewrite Hlog, dlog_append_eq, Hl. cbv zeta.
    rewrite <- app_assoc.
    rewrite drop_app_le by (rewrite !length_app; cbn; lia).
    rewrite drop_drop. eauto.
  - apply Forall_app. split; [done|]. apply Forall_singleton. cbn. lia.
  - rewrite flat_map_app, Replica.apply_ops_app. cbn [flat_map snd]. rewrite app_nil_r.
    by rewrite Hv.
Qed.

(** A step that leaves the key's log and value alone. *)
Lemma caught_up_same base since r key s missed s' :
  caught_up base since r key s missed → store_inv s' → (st_version s ≤ st_version s')%Z →
  key_log s' key = key_log s key → store_value s key ≡ store_value s' key →
  pointer_safe (store_value s' key) = true →
  caught_up base since r key s' missed.
Proof.
  intros [Hi Hs Hl Hn Hv Hsafe] Hi' Hle Hlog Hval Hsafe'. split; try done.
  - lia.
  - by rewrite Hlog.
  - by rewrite Hv.
Qed.

(** What a step of [o] gives: the missed deltas grow by at most one. *)
Definition step_caught base since r key s missed (o : StoreOp) : Prop :=
  ∃ more, caught_up base since r key (store_step s o) (missed ++ more) ∧
          (length more ≤ if writes_key key o then 1 else 0)%nat.

Lemma step_caught_stay base since r key s missed o :
  caught_up base since r key s missed → op_ok o → (st_version s < u64_max)%Z →
  key_log (store_step s o) key = key_log s key →
  store_value s key ≡ store_value (store_step s o) key →
  pointer_safe (store_value (store_step s o) key) = true →
  step_caught base since r key s missed o.
Proof.
  intros Hc Ho Hm Hl Hv Hs. pose proof (cu_inv _ _ _ _ _ _ Hc) as Hi.
  exists []. rewrite app_nil_r. split; [|cbn; lia].
  eapply caught_up_same; eauto using store_step_inv, store_step_version_mono.
Qed.

Lemma caught_up_apply base since r key s missed v :
  caught_up base since r key s missed →
  wf_value v = true → (st_version s < u64_max)%Z → pointer_safe v = true →
  (length missed + 1 ≤ MAX_DELTA_LOG_ENTRIES_PER_KEY)%nat →
  step_caught base since r key s missed (SApply key v).
Proof.
  intros Hc Ho Hm Hsafe Hlen. pose proof (cu_inv _ _ _ _ _ _ Hc) as Hi.
  pose proof (si_version s Hi) as Hver. pose proof (cu_safe _ _ _ _ _ _ Hc) as Hss.
  pose proof (store_value_apply s key v) as Hval.
  pose proof (apply_emits_sound s key v Hi Ho Hss Hsafe) as Hsound.
  destruct (apply_emits s key v) as [|op ops] eqn:Eops.
  - apply step_caught_stay; cbn [store_step]; rewrite ?Hval; try done.
    unfold key_log. by rewrite store_apply_log, Eops.
  - exists [(u64_add (st_version s) 1, op :: ops)].
    cbn [store_step writes_key]. rewrite String.eqb_refl. split; [|done].
    eapply caught_up_append; eauto using store_apply_inv;
      rewrite ?Hval, ?store_apply_version; try done.
    + lia.
    + rewrite u64_add_small; lia.
    + by rewrite store_apply_log, Eops.
Qed.

Lemma caught_up_delete base since r key s missed e :
  caught_up base since r key s missed → store_get s key = Some e → (st_version s < u64_max)%Z →
  (length missed + 1 ≤ MAX_DELTA_LOG_ENTRIES_PER_KEY)%nat →
  step_caught base since r key s missed (SDelete key).
Proof.
  intros Hc Hk Hm Hlen. pose proof (cu_inv _ _ _ _ _ _ Hc) as Hi. pose proof (si_version s Hi).
  destruct (store_delete_present s key e Hk) as (_ & Hen & Hve & Hlo).
  assert (store_value (store_delete s key).2 key = VNull) as Hval
    by (unfold store_value, store_get; by rewrite Hen, lookup_delete_eq).
  exists [(u64_add (st_version s) 1, [delta_remove "/"])].
  cbn [store_step writes_key]. rewrite String.eqb_refl. split; [|done].
  eapply caught_up_append; eauto using store_delete_inv; rewrite ?Hval; try done.
  - lia.
  - rewrite u64_add_small; lia.
Qed.

Lemma caught_up_step base since r key s missed o :
  caught_up base since r key s missed →
  op_ok o → is_load o = false → (st_version s < u64_max)%Z →
  (∀ v, o = SApply key v → pointer_safe v = true) →
  (length missed + (if writes_key key o then 1 else 0) ≤ MAX_DELTA_LOG_ENTRIES_PER_KEY)%nat →
  step_caught base since r key s missed o.
Proof.
  intros Hc Ho Hload Hm Hsafe Hlen. pose proof (cu_safe _ _ _ _ _ _ Hc) as Hss.
  assert (Hstay : store_get (store_step s o) key = store_get s key →
    key_log (store_step s o) key = key_log s key → step_caught base since r key s missed o).
  { intros Hg Hl. assert (store_value (store_step s o) key = store_value s key) as E
      by (unfold store_value; by rewrite Hg).
    apply step_caught_stay; by rewrite ?E. }
  destruct o as [k v|k|es]; [| |done]; cbn [store_step writes_key] in *.
  - destruct (String.eqb k key) eqn:E; bool_to_prop; [subst k|].
    + apply caught_up_apply; auto.
    + apply Hstay; apply store_apply_other; congruence.
  - destruct (store_get s k) as [e|] eqn:Ek.
    2:{ rewrite store_delete_absent in * by done. by apply Hstay. }
    destruct (String.eqb k key) eqn:E; bool_to_prop; [subst k|].
    + by eapply caught_up_delete.
    + destruct (store_delete_present s k e Ek) as (_ & Hen & Hve & Hlo). apply Hstay.
      * unfold store_get. by rewrite Hen, lookup_delete_ne by congruence.
      * unfold key_log. by rewrite Hlo, dlog_append_ne by congruence.
Qed.

Lemma caught_up_run base since r key os s missed :
  caught_up base since r key s missed →
  Forall op_ok os → Forall (λ o, is_load o = false) os → no_wrap s os →
  (∀ v, SApply key v ∈ os → pointer_safe v = true) →
  (length missed + count_writes key os ≤ MAX_DELTA_LOG_ENTRIES_PER_KEY)%nat →
  ∃ missed', caught_up base since r key (store_run s os) missed'.
Proof.
  revert s missed. induction os as [|o os IH]; intros s missed Hc Hok Hl Hw Hs Hlen; [eauto|].
  apply Forall_cons in Hok as [Ho Hok]. apply Forall_cons in Hl as [Hlo Hl].
  destruct Hw as [Hm Hw]. cbn [count_writes] in Hlen. cbn [store_run fold_left].
  destruct (caught_up_step base since r key s missed o) as (more & Hc' & Hmore); eauto.
  - intros v ->. apply Hs. by left.
  - lia.
  - eapply IH; eauto.
    + intros v Hv. apply Hs. by right.
    + rewrite length_app. lia.
Qed.

Lemma caught_up_since base since r key s missed :
  caught_up base since r key s missed → Forall (λ ve, ve.1 ≤ since)%Z base →
  deltas_since s key since = missed.
Proof.
  intros [_ _ [n Hl] Hn _ _] Hb. unfold deltas_since. rewrite dlog_since_filter.
  fold (key_log s key). rewrite Hl, List.filter_app.
  assert (Hnil : List.filter (λ '(v, _), since <? v)%Z (drop n base) = []).
  { apply Forall_drop with (n := n) in Hb. revert Hb. generalize (drop n base). clear.
    induction l as [|[v ops] l IH]; [done|]. intros [Hv Hb]%Forall_cons.
    cbn in *. rewrite (proj2 (Z.ltb_ge _ _)) by lia. by apply IH. }
  rewrite Hnil. cbn. clear Hl Hnil. induction Hn as [|[v ops] l Hv _ IH]; [done|].
  cbn in *. rewrite (proj2 (Z.ltb_lt _ _)) by lia. by rewrite IH.
Qed.

(** C21. The replay of RESUME is lossless. A replica holds (a value equal to) the key's
    value at some moment, and a version [since] > 0 of that moment: at least that of the key's
    last logged delta and at most the counter, as the version that came with its last
    DELTA or STATE_INIT.  It reconnects after any sequence of writes and deletes (and no
    load from the cluster) in which the key was written at most 1000 times, with values
    whose field names a path can carry.  Applying the deltas that
    [deltas_since] returns for [since], which RESUME sends when it is positive, in
    order, it holds a value equal to the stored one; a deleted key is [null]. *)
Theorem resume_replay_converges s os key since r :
  store_inv s → Forall op_ok os → Forall (λ o, is_load o = false) os → no_wrap s os →
  pointer_safe (store_value s key) = true → (∀ v, SApply key v ∈ os → pointer_safe v = true) →
  (count_writes key os ≤ MAX_DELTA_LOG_ENTRIES_PER_KEY)%nat →
  (0 < since ≤ current_version s)%Z → Forall (λ ve, ve.1 ≤ since)%Z (key_log s key) →
  r ≡ store_value s key →
  let s' := store_run s os in
  Replica.apply_ops r (flat_map snd (deltas_since s' key since)) ≡ store_value s' key.
Proof.
  intros Hi Hok Hl Hw Hsafe Hsv Hlen Hsince Hlog Hr s'. unfold current_version in Hsince.
  destruct (caught_up_run (key_log s key) since r key os s []) as [missed Hc]; try done.
  - split; try done; [lia|by exists 0; rewrite app_nil_r].
  - erewrite caught_up_since; [apply Hc|exact Hc|done].
Qed.
End Resume.

(** ** Loading entries from an external source *)

Section Load.
Context `{EntryCodec, HashOrder}.

(** [e] is at least as new as what was there: kept, or replaced by a newer one. *)
Definition newer_or_same (o : option StateEntry) (e : StateEntry) : Prop :=
  match o with Some e0 => e = e0 ∨ (se_version e0 < se_version e)%Z | None => True end.

Lemma load_entry_lookup entries key version value k :
  load_entry entries (key, version, value) !! k =
  if String.eqb k key &&
     (match entries !! key with Some e => se_version e | None => 0 end <? version)%Z
  then Some (mkEntry version value) else entries !! k.
Proof.
  unfold load_entry. destruct (_ <? version)%Z; [|by rewrite andb_false_r].
  destruct (String.eqb k key) eqn:E; bool_to_prop; cbn.
  - subst. apply lookup_insert_eq.
  - by apply lookup_insert_ne.
Qed.

Lemma load_fold_spec es entries k :
  let r := fold_left load_entry es entries !! k in
  (∀ e0, entries !! k = Some e0 → ∃ e, r = Some e ∧ newer_or_same (Some e0) e) ∧
  (∀ version value, (k, version, value) ∈ es → (0 < version)%Z →
    ∃ e, r = Some e ∧ (version ≤ se_version e)%Z) ∧
  (∀ e, r = Some e → entries !! k = Some e ∨ (k, se_version e, se_value e) ∈ es).
Proof.
  revert entries. induction es as [|[[key version] value] es IH]; intros entries; cbn [fold_left].
  - split_and!; [intros e0 ->; exists e0; split; [done|by left]|by intros ? ? ?%elem_of_nil|by left].
  - destruct (IH (load_entry entries (key, version, value))) as (I1 & I2 & I3).
    pose proof (load_entry_lookup entries key version value k) as Hk.
    destruct (String.eqb k key && _) eqn:E; bool_to_prop; subst.
    + destruct (I1 _ Hk) as (e & He & Hne). split_and!.
      * intros e0 E0. rewrite E0 in *. exists e. split; [done|]. cbn in *. naive_solver lia.
      * intros v x [[= -> ->]|Hin]%elem_of_cons Hv; [|by eapply I2].
        exists e. split; [done|]. cbn in Hne. naive_solver lia.
      * intros e' [Hl|Hr]%I3; right; [|by right]. rewrite Hk in Hl. injection Hl as <-. left.
    + rewrite Hk in I1, I3. split_and!; [done| |].
      * intros v x [[= -> -> ->]|Hin]%elem_of_cons Hv; [|by eapply I2].
        rewrite String.eqb_refl in E. cbn in E. bool_to_prop.
        destruct (entries !! key) as [e0|] eqn:E0; [|lia].
        destruct (I1 e0 eq_refl) as (e & He & Hne). exists e. split; [done|].
        cbn in Hne. naive_solver lia.
      * intros e [?|?]%I3; [by left|by right; right].
Qed.

(** The version a table holds for a key, 0 for none, as [load_entries] reads it. *)
Definition held_version (entries : gmap string StateEntry) (k : string) : Z :=
  match entries !! k with Some e => se_version e | None => 0 end.

Lemma load_fold_stable es entries k :
  (∀ v x, (k, v, x) ∈ es → (v ≤ held_version entries k)%Z) →
  fold_left load_entry es entries !! k = entries !! k.
Proof.
  unfold held_version. revert entries.
  induction es as [|[[key version] value] es IH]; intros entries Hle; [done|]. cbn [fold_left].
  assert (Hk : load_entry entries (key, version, value) !! k = entries !! k).
  { rewrite load_entry_lookup. destruct (String.eqb k key) eqn:E; bool_to_prop; [subst|done].
    cbn. rewrite (proj2 (Z.ltb_ge _ _)); [done|]. eapply Hle. left. }
  rewrite IH, Hk; [done|]. rewrite Hk. intros v x Hin. apply (Hle v x). by right.
Qed.

(** A key that the loaded list names once: the newer of the two wins. *)
Lemma load_fold_single es entries k v x :
  (∀ v' x', (k, v', x') ∈ es → v' = v ∧ x' = x) → (k, v, x) ∈ es →
  fold_left load_entry es entries !! k =
  if (held_version entries k <? v)%Z then Some (mkEntry v x) else entries !! k.
Proof.
  revert entries. induction es as [|[[key version] value] es IH]; intros entries Hu Hin;
    [by apply elem_of_nil in Hin|]. cbn [fold_left].
  pose proof (load_entry_lookup entries key version value k) as Hl.
  destruct (String.eqb k key) eqn:E; bool_to_prop.
  - subst key. destruct (Hu version value) as [-> ->]; [left|].
    cbn [andb] in Hl. fold (held_version entries k) in Hl.
    rewrite load_fold_stable; [done|]. intros v' x' Hin'. destruct (Hu v' x') as [-> ->]; [by right|].
    unfold held_version at 1. rewrite Hl. destruct (_ <? v)%Z eqn:Hv; bool_to_prop; [done|].
    exact Hv.
  - cbn [andb] in Hl. assert (Hv : held_version (load_entry entries (key, version, value)) k =
      held_version entries k) by (unfold held_version; by rewrite Hl).
    rewrite IH, Hl, Hv; [done| |].
    + intros v' x' Hin'. apply Hu. by right.
    + apply elem_of_cons in Hin as [[= -> -> ->]|Hin]; done.
Qed.

(** [load_entries] is a newest-wins merge: each key ends with its local entry
    or with one of the loaded ones; the local entry is replaced only by a
    strictly newer one; no loaded version (from 1 up) exceeds the final one;
    and the counter ends at the maximum of all versions involved. *)
Theorem load_entries_newest_wins s es k :
  let s' := load_entries s es in
  (∀ e0, store_get s k = Some e0 →
    ∃ e, store_get s' k = Some e ∧ (e = e0 ∨ (se_version e0 < se_version e)%Z)) ∧
  (∀ version value, (k, version, value) ∈ es → (0 < version)%Z →
    ∃ e, store_get s' k = Some e ∧ (version ≤ se_version e)%Z) ∧
  (∀ e, store_get s' k = Some e → store_get s k = Some e ∨ (k, se_version e, se_value e) ∈ es) ∧
  (st_version s ≤ current_version s')%Z ∧
  Forall (λ '(_, version, _), version ≤ current_version s')%Z es.
Proof.
  cbv zeta. destruct (load_fold_spec es (st_entries s) k) as (H1 & H2 & H3).
  destruct (max_loaded_spec es 0) as (_ & H4 & _). unfold max_loaded in *.
  split_and!; [done..| |].
  - cbn. case_goal; bool_to_prop; lia.
  - eapply Forall_impl; [exact H4|]. intros [[? ?] ?]. cbn. case_goal; bool_to_prop; lia.
Qed.
End Load.

(** ** Eviction *)

Definition num (n : Z) : Value := VNumber (PosInt n).

(** One write of field "a", then 1001 writes of field "b". *)
Definition evicting_writes : list StoreOp :=
  SApply "k" (VObject [("a", num 1)]) ::
  ((λ i, SApply "k" (VObject [("a", num 1); ("b", num (Z.of_nat i))])) <$> seq 0 1001).

(** Once more than 1000 deltas of a key follow the version a client resumes
    from, [deltas_since] returns the newest 1000: the replay is not empty, as
    the comments on the cap promise, but has a gap, and the replica that applies
    it ends with a value different from the stored one. *)
Theorem resume_after_eviction_diverges `{EntryCodec, HashOrder} :
  let s0 := store_run (store_new ∅) [SApply "k" (VObject [])] in
  let s := store_run s0 evicting_writes in
  let replay := deltas_since s "k" (current_version s0) in
  length replay = 1000 ∧
  value_eqb (Replica.apply_ops (store_value s0 "k") (flat_map snd replay)) (store_value s "k") = false.
Proof. vm_compute. done. Qed.

(** ** Concrete instances *)

Module StoreExamples.

#[local] Instance codec : EntryCodec := ToyCodec.codec.
#[local] Instance order : HashOrder := map_order.

Definition s1 : StateStore := store_run (store_new ∅) [SApply "k" (num 1); SApply "j" (num 7)].
Definition later : list StoreOp :=
  [SApply "k" (VObject [("x", num 1)]); SApply "j" (num 8); SApply "k" (VObject [("y", num 2)])].

Lemma s1_inv : store_inv s1.
Proof.
  apply store_run_inv; [apply store_new_inv| |]; [repeat constructor|vm_compute; done].
Qed.
End StoreExamples.
Import StoreExamples.

Lemma store_apply_correct_witness :
  ∃ version ops s', @store_apply codec order s1 "k" (num 2) = ((version, ops), s') ∧
    version = 3%Z ∧ store_get s' "k" = Some (mkEntry 3 (num 2)) ∧
    last (key_log s' "k") = Some (3%Z, [delta_update "/" (num 2)]).
Proof.
  pose proof (@store_apply_correct codec order s1 "k" (num 2) s1_inv eq_refl eq_refl eq_refl eq_refl) as H.
  destruct (store_apply s1 "k" (num 2)) as [[version ops] s'] eqn:E.
  destruct H as (_ & Hv & _ & _ & Hg & _ & _ & _ & _ & Hl).
  exists version, ops, s'. split; [done|]. split; [by rewrite Hv|].
  assert (ops = [delta_update "/" (num 2)]) as Hops.
  { change ops with (version, ops, s').1.2. by rewrite <- E. }
  subst ops version. destruct Hl as [Hl _]; [done|]. rewrite Hg, Hl. split; reflexivity.
Defined.

Lemma store_delete_correct_witness :
  ∃ s', @store_delete codec order s1 "k" = (Some (3%Z, [delta_remove "/"]), s') ∧
    store_get s' "k" = None ∧ store_get s' "j" = store_get s1 "j".
Proof.
  pose proof (@store_delete_correct codec order s1 "k" s1_inv eq_refl) as H.
  destruct (store_delete s1 "k") as [r s'] eqn:E. destruct H as (_ & Hk & Ho & Hr & _).
  exists s'. split; [by rewrite Hr|]. split; [exact Hk|]. by apply Ho.
Defined.

Lemma store_reachable_inv_witness : store_inv (@store_run codec order (store_new ∅) later).
Proof. apply store_reachable_inv; [repeat constructor|vm_compute; done]. Defined.

Lemma resume_replay_converges_witness :
  Replica.apply_ops (num 1)
    (flat_map snd (deltas_since (@store_run codec order s1 later) "k" 1))
  ≡ VObject [("y", num 2)].
Proof.
  apply (@resume_replay_converges codec order s1 later "k" 1 (num 1)).
  - apply s1_inv.
  - repeat constructor.
  - repeat constructor.
  - vm_compute; done.
  - reflexivity.
  - intros v Hv. unfold later in Hv. rewrite !elem_of_cons, elem_of_nil in Hv.
    destruct Hv as [E|[E|[E|[]]]]; injection E as E; by subst.
  - cbn. unfold MAX_DELTA_LOG_ENTRIES_PER_KEY. lia.
  - vm_compute. split; congruence.
  - vm_compute. repeat constructor; congruence.
  - reflexivity.
Defined.
