(* ===== verification/StoreRace.v ===== *)
(** * Concurrent writes to the store (src/src/state.rs, [apply])

    [StateStore::apply] takes no lock across its four accesses to shared state:
    the version counter, the read of the old value, the replacement and the delta
    log.  Here each access is one atomic step, and any number of calls interleave
    between them.  The store is ephemeral, so that there is no on-disk step. *)

From S2P Require Import Prelude Json JsonPath Delta Log Store.

Local Open Scope string_scope.

(** ** One call of [apply], step by step *)

Inductive Call : Type :=
| CStart (key : string) (v : Value)
| CVersion (key : string) (v : Value) (version : Z)                   (* after [fetch_add] *)
| CDiffed (key : string) (v : Value) (version : Z) (ops : list DeltaOp)  (* after the read *)
| CInserted (key : string) (version : Z) (ops : list DeltaOp)          (* after [insert] *)
| CDone (version : Z) (ops : list DeltaOp).

Definition with_entries (s : StateStore) (es : gmap string StateEntry) : StateStore :=
  mkStore es (st_version s) (st_log s) (st_plog s) (st_disk s).

Definition advance (s : StateStore) (c : Call) : StateStore * Call :=
  match c with
  | CStart key v =>
      let version := u64_add (st_version s) 1 in
      (mkStore (st_entries s) version (st_log s) (st_plog s) (st_disk s), CVersion key v version)
  | CVersion key v version =>
      (s, CDiffed key v version
            (match st_entries s !! key with
             | Some existing => diff (se_value existing) v
             | None => [delta_add "/" v]
             end))
  | CDiffed key v version ops =>
      (with_entries s (<[key := mkEntry version v]> (st_entries s)), CInserted key version ops)
  | CInserted key version ops =>
      (match ops with
       | [] => s
       | _ => mkStore (st_entries s) (st_version s) (dlog_append (st_log s) key version ops)
                (st_plog s) (st_disk s)
       end, CDone version ops)
  | CDone version ops => (s, CDone version ops)
  end.

(** The shared store and the calls in flight. *)
Record Race : Type := mkRace {
  ra_store : StateStore;
  ra_calls : list Call;
}.

(** Call [i] takes its next step. *)
Definition race_step (r : Race) (i : nat) : Race :=
  match ra_calls r !! i with
  | Some c => let '(s', c') := advance (ra_store r) c in mkRace s' (<[i := c']> (ra_calls r))
  | None => r
  end.

(** A schedule. *)
Definition race_run (r : Race) (sched : list nat) : Race := fold_left race_step sched r.

(** ** A call that runs alone is [apply] *)

(** The steps refine [apply]. A call whose four steps run without interruption
    returns what [apply] returns and leaves the store [apply] leaves. *)
Theorem alone_is_apply `{EntryCodec, HashOrder} s key v others :
  st_plog s = None →
  race_run (mkRace s (CStart key v :: others)) [0; 0; 0; 0] =
  let '((version, ops), s') := store_apply s key v in mkRace s' (CDone version ops :: others).
Proof.
  intros Hp. unfold store_apply, persist. destruct s as [es ver log plog disk]. cbn in *. subst plog.
  destruct (es !! key) as [x|] eqn:E; unfold race_run, race_step; cbn; rewrite ?E; cbn; [|done].
  by destruct (diff (se_value x) v).
Qed.

Lemma alone_is_apply_witness :
  race_run (mkRace (store_new ∅) [CStart "k" (num 1)]) [0; 0; 0; 0] =
  let '((version, ops), s') := @store_apply ToyCodec.codec map_order (store_new ∅) "k" (num 1) in
  mkRace s' [CDone version ops].
Proof. by apply (@alone_is_apply ToyCodec.codec map_order (store_new ∅) "k" (num 1) []). Defined.

(** ** What every interleaving keeps *)

Definition call_version (c : Call) : option Z :=
  match c with
  | CStart _ _ => None
  | CVersion _ _ n | CDiffed _ _ n _ | CInserted _ n _ | CDone n _ => Some n
  end.

(** How many calls have not taken their version yet. *)
Definition unstarted (cs : list Call) : nat :=
  length (filter (λ c, call_version c = None) cs).

#[global] Arguments unstarted : simpl never.

(** From the initial version [base]: taken versions lie above it, up to the
    counter, and no two calls have the same. *)
Record race_inv (base : Z) (r : Race) : Prop := {
  ri_base : (0 ≤ base ≤ st_version (ra_store r))%Z;
  ri_room : (st_version (ra_store r) + Z.of_nat (unstarted (ra_calls r)) ≤ u64_max)%Z;
  ri_range : ∀ i c n, ra_calls r !! i = Some c → call_version c = Some n →
    (base < n ≤ st_version (ra_store r))%Z;
  ri_unique : ∀ i j ci cj n, ra_calls r !! i = Some ci → ra_calls r !! j = Some cj →
    call_version ci = Some n → call_version cj = Some n → i = j;
}.

Lemma unstarted_insert cs i c c' :
  cs !! i = Some c →
  (unstarted (<[i := c']> cs) + (if call_version c is Some _ then 0 else 1) =
   unstarted cs + (if call_version c' is Some _ then 0 else 1))%nat.
Proof.
  revert i. induction cs as [|d cs IH]; intros [|i] Hi; try done; cbn in Hi; cbn [insert list_insert]; unfold unstarted in *.
  - injection Hi as ->. rewrite !filter_cons.
    destruct (call_version c), (call_version c'); repeat case_decide; try done; cbn [length]; lia.
  - rewrite !filter_cons. specialize (IH i Hi). case_decide; cbn [length Nat.add]; [f_equal|]; exact IH.
Qed.

Lemma advance_version s c :
  call_version (advance s c).2 =
    match call_version c with Some n => Some n | None => Some (u64_add (st_version s) 1) end ∧
  st_version (advance s c).1 =
    match call_version c with Some _ => st_version s | None => u64_add (st_version s) 1 end.
Proof. destruct c as [| | |key n ops|]; cbn; try done. by destruct ops. Qed.

Lemma race_step_inv base r i : race_inv base r → race_inv base (race_step r i).
Proof.
  intros [Hb Hr Hn Hu]. unfold race_step. destruct (ra_calls r !! i) as [c|] eqn:Ei; [|done].
  destruct (advance_version (ra_store r) c) as [Hv Hs]. destruct (advance (ra_store r) c) as [s' c']. cbn in Hv, Hs.
  pose proof (unstarted_insert _ _ _ c' Ei) as Hun.
  assert (Hlook : ∀ j d n, <[i := c']> (ra_calls r) !! j = Some d → call_version d = Some n →
    (j = i ∧ call_version c' = Some n) ∨ (j ≠ i ∧ ra_calls r !! j = Some d)).
  { intros j d n Hj Hd. destruct (decide (j = i)) as [->|Hne]; [|right; by rewrite list_lookup_insert_ne in Hj].
    left. rewrite list_lookup_insert_eq in Hj by (by eapply lookup_lt_Some). by injection Hj as <-. }
  destruct (call_version c) as [m|] eqn:Em.
  - rewrite Hv in Hun. cbn iota in Hun. split; cbn -[unstarted]; rewrite ?Hs; [done|lia| |].
    + intros j d n Hj Hd. destruct (Hlook j d n Hj Hd) as [[-> E]|[_ Hj']]; [|by eapply Hn].
      eapply (Hn i c); [done|congruence].
    + intros j k d e n Hj Hk Hd He. destruct (Hlook _ _ _ Hj Hd) as [[-> E1]|[Hne1 Hj']], (Hlook _ _ _ Hk He) as [[-> E2]|[Hne2 Hk']]; try done.
      * eapply (Hu i k c e n); [done|done|congruence|done].
      * eapply (Hu j i d c n); [done|done|done|congruence].
      * by eapply Hu.
  - rewrite Hv in Hun. cbn iota in Hun. rewrite u64_add_small in * by lia. split; cbn -[unstarted]; rewrite ?Hs; [lia|lia| |].
    + intros j d n Hj Hd. destruct (Hlook j d n Hj Hd) as [[-> E]|[_ Hj']].
      * rewrite Hv in E. injection E as <-. lia.
      * specialize (Hn j d n Hj' Hd). lia.
    + intros j k d e n Hj Hk Hd He. destruct (Hlook _ _ _ Hj Hd) as [[-> E1]|[Hne1 Hj']], (Hlook _ _ _ Hk He) as [[-> E2]|[Hne2 Hk']]; try done.
      * rewrite Hv in E1. injection E1 as <-. specialize (Hn k e _ Hk' He). lia.
      * rewrite Hv in E2. injection E2 as <-. specialize (Hn j d _ Hj' Hd). lia.
      * by eapply Hu.
Qed.

Lemma race_run_inv base r sched : race_inv base r → race_inv base (race_run r sched).
Proof. revert r. induction sched as [|i sched IH]; intros r Hr; [done|]. by apply IH, race_step_inv. Qed.

(** Versions are never shared. However concurrent calls of [apply] interleave,
    every version returned is above the initial one and at most the counter, and
    no two calls return the same version. *)
Theorem concurrent_versions_unique s calls sched :
  (∀ c, c ∈ calls → call_version c = None) → (0 ≤ st_version s)%Z →
  (st_version s + Z.of_nat (length calls) ≤ u64_max)%Z →
  let r := race_run (mkRace s calls) sched in
  (∀ i c n, ra_calls r !! i = Some c → call_version c = Some n →
     (st_version s < n ≤ st_version (ra_store r))%Z) ∧
  (∀ i j ci cj n, ra_calls r !! i = Some ci → ra_calls r !! j = Some cj →
     call_version ci = Some n → call_version cj = Some n → i = j).
Proof.
  intros Hc H0 Hm r.
  assert (Hi : race_inv (st_version s) (mkRace s calls)).
  { assert (Hno : ∀ i c n, calls !! i = Some c → call_version c ≠ Some n).
    { intros i c n Hl%list_elem_of_lookup_2 E. rewrite Hc in E; done. }
    split; cbn; [lia| |intros i c n Hl E; by destruct (Hno i c n)|intros i j ci cj n Hl _ E; by destruct (Hno i ci n)].
    pose proof (length_filter (λ c, call_version c = None) calls) as Hl. unfold unstarted. lia. }
  apply (race_run_inv _ _ sched) in Hi. destruct Hi as [_ _ Hr Hu]. done.
Qed.

(** ** What some interleavings break *)

Definition two_calls : Race := mkRace (store_new ∅) [CStart "k" (num 1); CStart "k" (num 2)].

Lemma concurrent_versions_unique_witness :
  (st_version (store_new ∅) < 2 ≤ st_version (ra_store (race_run two_calls [0; 1; 1; 0; 0; 1; 1; 0]%nat)))%Z.
Proof.
  destruct (concurrent_versions_unique (store_new ∅) [CStart "k" (num 1); CStart "k" (num 2)]
    [0; 1; 1; 0; 0; 1; 1; 0]) as [Hr _].
  - intros c Hc. set_unfold in Hc. naive_solver.
  - cbn. lia.
  - cbn. unfold u64_max. lia.
  - apply (Hr 1 (CDone 2 [delta_add "/" (num 2)])); vm_compute; reflexivity.
Defined.

(** [apply] is not atomic. Two concurrent writes of one key can leave the older
    version's value in the store while the version counter and the delta log have
    moved on: replaying the deltas of versions 1 and 2 in order gives the value 2,
    the store holds the value 1 at version 1. *)
Theorem apply_race_diverges :
  let r := race_run two_calls [0; 1; 1; 1; 0; 0; 0; 1] in
  ra_calls r = [CDone 1 [delta_update "/" (num 1)]; CDone 2 [delta_add "/" (num 2)]] ∧
  store_get (ra_store r) "k" = Some (mkEntry 1 (num 1)) ∧ current_version (ra_store r) = 2%Z ∧
  Replica.apply_ops (Replica.apply_ops VNull [delta_update "/" (num 1)]) [delta_add "/" (num 2)] = num 2.
Proof. vm_compute. done. Qed.

(** A lost update. Two [state.set_in] calls that both read the key before
    either has stored its result keep only one of the two fields, though both are
    answered with success. *)
Theorem set_in_lost_update `{EntryCodec, HashOrder} :
  let s0 := store_new ∅ in
  let va := VObject [("a", num 1)] in
  let vb := VObject [("b", num 2)] in
  let s1 := (store_apply s0 "k" va).2 in
  json_set_in (store_value s0 "k") "/a" (num 1) = Ok va ∧
  json_set_in (store_value s0 "k") "/b" (num 2) = Ok vb ∧
  store_value (store_apply s1 "k" vb).2 "k" = VObject [("b", num 2)] ∧
  json_set_in (store_value s1 "k") "/b" (num 2) = Ok (VObject [("a", num 1); ("b", num 2)]).
Proof. intros s0 va vb s1. unfold s1. rewrite !store_value_apply. by split_and!. Qed.
