(* ===== verification/StorePersist.v ===== *)
(** * Persistence of the state store

    [StateStore] over [SegmentedLog]: what a restart recovers.  The invariant
    [persist_inv] relates the store in memory to the entries on disk; it is
    kept by writes, deletes, compaction and restarts, and gives what
    [StateStore::open] rebuilds. *)

From S2P Require Import Prelude RustStr Json JsonPath Delta Log Store.

Local Open Scope string_scope.

(** ** The newest entry of a key *)

Definition is_latest (L : list LogEntry) (k : string) (e : LogEntry) : Prop :=
  e ∈ L ∧ le_key e = k ∧ ∀ e', e' ∈ L → le_key e' = k → (le_version e' ≤ le_version e)%Z.

(** Two entries of one key have different versions. *)
Definition versions_unique (L : list LogEntry) : Prop :=
  ∀ e1 e2, e1 ∈ L → e2 ∈ L → le_key e1 = le_key e2 → le_version e1 = le_version e2 → e1 = e2.

Lemma is_latest_unique L k e1 e2 :
  versions_unique L → is_latest L k e1 → is_latest L k e2 → e1 = e2.
Proof.
  intros Hu (H1 & K1 & M1) (H2 & K2 & M2). apply Hu; [done..|congruence|].
  specialize (M1 e2 H2 K2). specialize (M2 e1 H1 K1). lia.
Qed.

(** An entry above all versions of the log becomes the newest of its key. *)
Lemma is_latest_app L b e k e' :
  Forall (λ e, le_version e ≤ b)%Z L → (b < le_version e)%Z →
  is_latest (L ++ [e]) k e' ↔ if String.eqb (le_key e) k then e' = e else is_latest L k e'.
Proof.
  intros Hb Hlt. rewrite Forall_forall in Hb.
  destruct (String.eqb (le_key e) k) eqn:E; bool_to_prop.
  - split.
    + intros (Hin & Hk & Hmax). apply elem_of_app in Hin as [Hin|Hin%list_elem_of_singleton]; [|done].
      specialize (Hb e' Hin). specialize (Hmax e ltac:(apply elem_of_app; right; left) E). lia.
    + intros ->. split_and!; [apply elem_of_app; right; left|done|].
      intros e'' [Hin|Hin%list_elem_of_singleton]%elem_of_app _; [|by subst].
      specialize (Hb e'' Hin). lia.
  - split.
    + intros (Hin & Hk & Hmax). apply elem_of_app in Hin as [Hin|Hin%list_elem_of_singleton]; [|congruence].
      split_and!; [done..|]. intros e'' Hin''. apply Hmax, elem_of_app. by left.
    + intros (Hin & Hk & Hmax). split_and!; [apply elem_of_app; by left|done|].
      intros e'' [Hin''|Hin''%list_elem_of_singleton]%elem_of_app Hk''; [by apply Hmax|congruence].
Qed.

Lemma versions_unique_app L b e :
  versions_unique L → Forall (λ e, le_version e ≤ b)%Z L → (b < le_version e)%Z →
  versions_unique (L ++ [e]).
Proof.
  intros Hu Hb Hlt e1 e2 H1 H2 Hk Hv. rewrite Forall_forall in Hb.
  apply elem_of_app in H1 as [H1|H1%list_elem_of_singleton];
    apply elem_of_app in H2 as [H2|H2%list_elem_of_singleton]; subst; [by apply Hu| | |done].
  - specialize (Hb e1 H1). lia.
  - specialize (Hb e2 H2). lia.
Qed.

(** ** What the rebuild loop of [open] computes *)

Definition of_key (k : string) (M : list LogEntry) : list LogEntry :=
  filter (λ e, le_key e = k) M.

Lemma replay_entries_lookup M k :
  (fold_left replay_entry M (∅, ∅)).1 !! k =
  (λ e, mkEntry (le_version e) (le_value e)) <$> last (of_key k M).
Proof.
  induction M as [|e M IH] using rev_ind; [done|].
  rewrite fold_left_app. unfold of_key in *. rewrite filter_app. cbn [fold_left].
  destruct (fold_left replay_entry M (∅, ∅)) as [entries log]. cbn [fst replay_entry] in *.
  rewrite filter_cons, filter_nil. destruct (decide (le_key e = k)) as [<-|Hne].
  - by rewrite lookup_insert_eq, last_snoc.
  - by rewrite lookup_insert_ne, app_nil_r.
Qed.

Lemma StronglySorted_of_key (R : relation LogEntry) k M :
  StronglySorted R M → StronglySorted R (of_key k M).
Proof.
  unfold of_key. induction 1 as [|e M Hs IH Hf]; [constructor|].
  rewrite filter_cons. case_decide; [|done]. constructor; [done|].
  rewrite Forall_forall in *. intros x [_ Hx]%list_elem_of_filter. by apply Hf.
Qed.

Lemma sorted_snoc_le M e e' :
  StronglySorted (λ a b, le_version a ≤ le_version b)%Z (M ++ [e]) → e' ∈ M →
  (le_version e' ≤ le_version e)%Z.
Proof.
  intros Hs Hin. refine (StronglySorted_app_1_elem_of _ _ _ e' e Hs Hin _). left.
Qed.

Lemma last_of_key_latest M k e :
  StronglySorted (λ a b, le_version a ≤ le_version b)%Z M → last (of_key k M) = Some e →
  is_latest M k e.
Proof.
  intros Hs He. assert (e ∈ of_key k M) as Hin by (by apply last_Some_elem_of).
  apply list_elem_of_filter in Hin as [Hk Hin]. split_and!; [done..|].
  intros e' Hin' Hk'. assert (e' ∈ of_key k M) as Ho by (by apply list_elem_of_filter).
  assert (Hs' : StronglySorted (λ a b, le_version a ≤ le_version b)%Z (of_key k M))
    by (by apply StronglySorted_of_key).
  apply last_Some in He as [l Hl]. rewrite Hl in Ho, Hs'.
  apply elem_of_app in Ho as [Ho|Ho%list_elem_of_singleton]; [|by subst].
  by eapply sorted_snoc_le.
Qed.

Lemma last_of_key_None M k e : last (of_key k M) = None → e ∈ M → le_key e ≠ k.
Proof.
  intros Hn%last_None Hin Hk. assert (e ∈ of_key k M) as Ho by (by apply list_elem_of_filter).
  rewrite Hn in Ho. by apply elem_of_nil in Ho.
Qed.

(** The rebuilt delta log is well formed. *)
Lemma replay_entries_log b M :
  StronglySorted (λ a b, le_version a ≤ le_version b)%Z M → versions_unique M → NoDup M →
  Forall (λ e, 0 ≤ le_version e ≤ b)%Z M →
  dlog_ok b (fold_left replay_entry M (∅, ∅)).2 ∧
  ∀ k ve, ve ∈ default [] ((fold_left replay_entry M (∅, ∅)).2 !! k) →
    ∃ e, e ∈ M ∧ le_key e = k ∧ le_version e = ve.1.
Proof.
  induction M as [|e M IH] using rev_ind; intros Hs Hu Hnd Hb.
  { split; cbn; [intros k|intros k ve]; rewrite lookup_empty; cbn.
    - split; cbn; try constructor. lia.
    - by intros ?%elem_of_nil. }
  apply Forall_app in Hb as [Hb Hbe]. rewrite Forall_singleton in Hbe.
  apply NoDup_app in Hnd as (Hnd & Hfresh & _).
  destruct IH as [Hok Hin]; [by eapply StronglySorted_app_1_l| |done|done|].
  { intros e1 e2 H1 H2. apply Hu; apply elem_of_app; by left. }
  rewrite fold_left_app. cbn [fold_left].
  destruct (fold_left replay_entry M (∅, ∅)) as [entries log]. cbn [snd replay_entry] in *.
  assert (Hold : ∀ k ve, ve ∈ default [] (log !! k) →
    ∃ e0, e0 ∈ (M ++ [e])%list ∧ le_key e0 = k ∧ le_version e0 = ve.1).
  { intros k ve (e0 & ? & ?)%Hin. exists e0. rewrite elem_of_app. naive_solver. }
  destruct (le_ops e) as [|o ops] eqn:Eo; [done|]. split.
  - eapply dlog_append_ok; [done| |done|lia|done]. apply Forall_forall. intros ve Hve.
    destruct (Hin _ _ Hve) as (e0 & He0 & Hk0 & Hv0). rewrite <- Hv0.
    pose proof (sorted_snoc_le M e e0 Hs He0).
    enough (le_version e0 ≠ le_version e) by lia. intros Heq.
    assert (e0 = e) as -> by (apply Hu; rewrite ?elem_of_app, ?list_elem_of_singleton; auto).
    apply (Hfresh e He0). left.
  - intros k ve. destruct (decide (k = le_key e)) as [->|Hne]; [|rewrite dlog_append_ne by done; apply Hold].
    rewrite dlog_append_eq. cbv zeta. intros Hve%subseteq_drop.
    apply elem_of_app in Hve as [Hve|Hve%list_elem_of_singleton]; [by apply Hold|].
    subst ve. exists e. rewrite elem_of_app, list_elem_of_singleton. auto.
Qed.

(** ** Store and log entries *)

(** The entries [L] on disk describe the store: for a present key the newest
    entry has its value (a no-op write is not logged, so its version may be
    older); for an absent key the newest entry, if any, is a deletion. *)
Record covers (L : list LogEntry) (s : StateStore) : Prop := {
  cv_range : Forall (λ e, 0 ≤ le_version e ≤ st_version s)%Z L;
  cv_wf : Forall (λ e, wf_value (le_value e) = true) L;
  cv_nodup : NoDup L;
  cv_unique : versions_unique L;
  cv_keys : ∀ k, match store_get s k with
                 | Some x => ∃ e, is_latest L k e ∧ le_value e ≡ se_value x ∧
                                  (le_version e ≤ se_version x)%Z
                 | None => ∀ e, is_latest L k e → le_value e = VNull
                 end;
}.

(** Logging an entry of the next version for a key, whose stored entry it describes. *)
Lemma covers_append L s s' e :
  covers L s → store_inv s → le_version e = (st_version s + 1)%Z → st_version s' = (st_version s + 1)%Z →
  wf_value (le_value e) = true →
  (∀ k, k ≠ le_key e → store_get s' k = store_get s k) →
  match store_get s' (le_key e) with
  | Some x => x = mkEntry (le_version e) (le_value e)
  | None => le_value e = VNull
  end → covers (L ++ [e]) s'.
Proof.
  intros [Hr Hw Hn Hu Hk] Hi Hv Hv' Hwf Hother Hkey.
  assert (Hle : Forall (λ e, le_version e ≤ st_version s)%Z L)
    by (eapply Forall_impl; [exact Hr|cbn; lia]).
  pose proof (si_version s Hi). pose proof (λ k e', is_latest_app L _ e k e' Hle ltac:(lia)) as Hlat.
  split.
  - apply Forall_app. split; [eapply Forall_impl; [exact Hr|cbn; lia]|apply Forall_singleton; lia].
  - apply Forall_app. split; [done|by apply Forall_singleton].
  - apply NoDup_app. split_and!; [done| |apply NoDup_singleton].
    intros e' Hin ->%list_elem_of_singleton. rewrite Forall_forall in Hle. specialize (Hle e Hin). lia.
  - eapply versions_unique_app; [done|exact Hle|lia].
  - intros k. specialize (Hlat k). destruct (String.eqb (le_key e) k) eqn:E; bool_to_prop.
    + subst k. destruct (store_get s' (le_key e)) as [x|].
      * subst x. exists e. rewrite Hlat. cbn. split_and!; [done..|lia].
      * intros e' ->%Hlat. done.
    + rewrite Hother by congruence. specialize (Hk k).
      destruct (store_get s k) as [x|]; [|intros e' He'%Hlat; by apply Hk].
      destruct Hk as (e' & He' & ?). exists e'. by rewrite Hlat.
Qed.

(** A write that changes nothing is not logged. *)
Lemma covers_noop L s s' key x v :
  covers L s → store_inv s → store_get s key = Some x → se_value x ≡ v →
  st_version s' = (st_version s + 1)%Z →
  st_entries s' = <[key := mkEntry (st_version s + 1) v]> (st_entries s) → covers L s'.
Proof.
  intros [Hr Hw Hn Hu Hk] Hi Hg Heq Hv He. split; try done.
  - eapply Forall_impl; [exact Hr|cbn; lia].
  - intros k. specialize (Hk k). unfold store_get in *. rewrite He.
    destruct (decide (k = key)) as [->|Hne]; [|by rewrite lookup_insert_ne].
    rewrite lookup_insert_eq. rewrite Hg in Hk. destruct Hk as (e & Hl & Hval & Hle).
    exists e. cbn. split_and!; [done|by rewrite Hval|].
    destruct (si_entries s Hi key x Hg) as [? _]. lia.
Qed.

Lemma elem_of_snapshot `{HashOrder} s e :
  e ∈ snapshot s ↔ ∃ k x, store_get s k = Some x ∧ e = mkLogEntry (se_version x) k [] (se_value x).
Proof.
  unfold snapshot. rewrite list_elem_of_fmap. split.
  - intros ([k x] & -> & Hin). apply elem_of_hash_iter in Hin. eauto.
  - intros (k & x & Hx & ->). exists (k, x). by rewrite elem_of_hash_iter.
Qed.

(** A snapshot describes the store exactly. *)
Lemma covers_snapshot `{HashOrder} s : store_inv s → covers (snapshot s) s.
Proof.
  intros Hi. assert (Huniq : ∀ e1 e2, e1 ∈ snapshot s → e2 ∈ snapshot s →
    le_key e1 = le_key e2 → e1 = e2).
  { intros e1 e2 (k1 & x1 & H1 & ->)%elem_of_snapshot (k2 & x2 & H2 & ->)%elem_of_snapshot Hk.
    cbn in Hk. subst k2. congruence. }
  split.
  - apply Forall_forall. intros e (k & x & Hx & ->)%elem_of_snapshot. by apply (si_entries s Hi) in Hx as [? _].
  - apply Forall_forall. intros e (k & x & Hx & ->)%elem_of_snapshot. by apply (si_entries s Hi) in Hx as [_ ?].
  - apply (NoDup_fmap_1 le_key). unfold snapshot. rewrite <- list_fmap_compose.
    rewrite (list_fmap_ext _ fst); [apply NoDup_hash_iter|]. by intros ? [k x].
  - intros e1 e2 H1 H2 Hk _. by apply Huniq.
  - intros k. destruct (store_get s k) as [x|] eqn:Ex.
    + exists (mkLogEntry (se_version x) k [] (se_value x)). split_and!; [|done|cbn; lia].
      assert (mkLogEntry (se_version x) k [] (se_value x) ∈ snapshot s) as Hin
        by (apply elem_of_snapshot; eauto).
      split_and!; [done..|]. intros e' Hin' Hk'. rewrite (Huniq e' _ Hin' Hin); done.
    + intros e (Hin & Hk & _). apply elem_of_snapshot in Hin as (k' & x & Hx & ->).
      cbn in Hk. congruence.
Qed.

(** ** The invariant of a persistent store *)

Section PersistInv.
Context `{EntryCodec, HashOrder, VersionSort}.

Record persist_inv (s : StateStore) : Prop := {
  pi_store : store_inv s;
  pi_log : ∃ l old es, st_plog s = Some l ∧ log_inv l (st_disk s) old es ∧
                       covers (log_entries old es) s;
}.

(** Room for the segment numbers that one operation may use. *)
Definition seg_room (s : StateStore) : Prop :=
  match st_plog s with Some l => (current_seg l + 3 ≤ u64_max)%Z | None => True end.

(** The persistence block of [apply] and [delete]: [s'] is the store with the
    write done in memory, [e] the entry logged for it. *)
Lemma persist_persists s l old es e :
  store_inv s → st_plog s = Some l → log_inv l (st_disk s) old es →
  (current_seg l + 3 ≤ u64_max)%Z → enc_ok e → Forall enc_ok (snapshot s) →
  covers (log_entries old es ++ [e]) s →
  persist_inv (persist s e).
Proof.
  intros Hi Hl Hlog Hroom He Hsnap Hc.
  assert (Hcov : ∀ L s', covers L s → st_entries s' = st_entries s → st_version s' = st_version s →
    covers L s').
  { intros L s' [C1 C2 C3 C4 C5] E1 E2. split; rewrite ?E2; try done.
    unfold store_get. by rewrite E1. }
  assert (Hinv : store_inv (persist s e)).
  { destruct Hi as [I1 I2 I3]. split; unfold store_get;
      rewrite ?persist_version, ?persist_entries, ?persist_log; done. }
  split; [exact Hinv|]. clear Hinv. unfold persist. rewrite Hl.
  destruct (log_append_ok l (st_disk s) old es e) as (l' & dir' & old' & es' & -> & Hi' & Hents & Hseg & _);
    [done|done|lia|].
  destruct (needs_compact l').
  - unfold compact_plog. cbn [st_plog st_disk].
    destruct (log_compact_ok l' dir' old' es' (snapshot s)) as (dir2 & Hcomp & Hi2); [done|done|lia|].
    unfold snapshot in Hcomp. unfold snapshot. cbn [st_entries]. rewrite Hcomp.
    eexists _, _, _. split_and!; [done|exact Hi2|].
    unfold log_entries. cbn. rewrite !app_nil_r.
    apply Hcov; [by apply covers_snapshot|done|done].
  - eexists _, _, _. split_and!; [done|exact Hi'|]. rewrite Hents. by apply Hcov.
Qed.

Lemma store_apply_persists s key v :
  persist_inv s → wf_value v = true → (st_version s < u64_max)%Z → seg_room s →
  (apply_emits s key v ≠ [] →
     enc_ok (mkLogEntry (st_version s + 1) key (apply_emits s key v) v)) →
  Forall enc_ok (snapshot (store_apply s key v).2) →
  persist_inv (store_apply s key v).2.
Proof.
  intros [Hi (l & old & es & Hl & Hlog & Hc)] Hwf Hm Hroom He Hsnap.
  unfold seg_room in Hroom. rewrite Hl in Hroom.
  pose proof (store_apply_inv s key v Hi Hwf Hm) as Hi'. pose proof (si_version s Hi).
  pose proof (apply_emits_nil s key v Hi Hwf) as Hnil.
  pose proof (u64_add_small (st_version s) 1 ltac:(lia)) as Hadd.
  unfold store_apply in *. fold (store_get s key) in *.
  change (match store_get s key with Some e => diff (se_value e) v | None => [delta_add "/" v] end)
    with (apply_emits s key v) in *.
  rewrite Hadd in *. destruct (apply_emits s key v) as [|op ops]; cbn [snd] in *.
  - split; [done|]. destruct Hnil as [Hnil _]. destruct (Hnil eq_refl) as (x & Hx & Heq).
    exists l, old, es. split_and!; [done|done|]. eapply covers_noop; eauto.
  - set (s' := mkStore _ _ _ _ _) in *.
    eapply (persist_persists s' l); [|done|exact Hlog|done|by apply He|..].
    + destruct Hi' as [I1 I2 I3]. unfold store_get in I2.
      rewrite persist_version, ?persist_entries, ?persist_log in *. done.
    + unfold snapshot in *. by rewrite persist_entries in Hsnap.
    + eapply (covers_append _ s); try done; unfold store_get, s'; cbn.
      * intros k Hk. by rewrite lookup_insert_ne.
      * by rewrite lookup_insert_eq.
Qed.

Lemma store_delete_persists s key :
  persist_inv s → (st_version s < u64_max)%Z → seg_room s →
  enc_ok (mkLogEntry (st_version s + 1) key [delta_remove "/"] VNull) →
  Forall enc_ok (snapshot (store_delete s key).2) →
  persist_inv (store_delete s key).2.
Proof.
  intros Hp Hm Hroom He Hsnap. pose proof Hp as [Hi (l & old & es & Hl & Hlog & Hc)].
  unfold seg_room in Hroom. rewrite Hl in Hroom.
  pose proof (store_delete_inv s key Hi Hm) as Hi'. pose proof (si_version s Hi).
  pose proof (u64_add_small (st_version s) 1 ltac:(lia)) as Hadd.
  destruct (store_get s key) as [x|] eqn:Ex; [|by rewrite store_delete_absent].
  unfold store_delete in *. fold (store_get s key) in *. rewrite Ex, Hadd in *. cbn [snd] in *.
  set (s' := mkStore _ _ _ _ _) in *.
  eapply (persist_persists s' l); [|done|exact Hlog|done|done|..].
  - destruct Hi' as [I1 I2 I3]. unfold store_get in I2.
    rewrite persist_version, ?persist_entries, ?persist_log in *. done.
  - unfold snapshot in *. by rewrite persist_entries in Hsnap.
  - eapply (covers_append _ s); try done; unfold store_get, s'; cbn.
    + intros k Hk. by rewrite lookup_delete_ne.
    + by rewrite lookup_delete_eq.
Qed.

(** ** Restart *)

(** [max_version] of [open]. *)
Definition newest_version (M : list LogEntry) : Z :=
  match last M with Some e => le_version e | None => 0%Z end.

Lemma newest_version_ge M :
  StronglySorted (λ a b, le_version a ≤ le_version b)%Z M →
  Forall (λ e, le_version e ≤ newest_version M)%Z M.
Proof.
  intros Hs. unfold newest_version. destruct (last M) as [e|] eqn:E.
  - apply last_Some in E as [M' ->]. apply Forall_app. split; [|apply Forall_singleton; lia].
    apply Forall_forall. intros e' Hin. by eapply sorted_snoc_le.
  - apply last_None in E as ->. constructor.
Qed.

Lemma newest_version_range b M :
  (0 ≤ b)%Z → Forall (λ e, 0 ≤ le_version e ≤ b)%Z M → (0 ≤ newest_version M ≤ b)%Z.
Proof.
  intros Hb HM. unfold newest_version. destruct (last M) as [e|] eqn:E; [|lia].
  rewrite Forall_forall in HM. by apply HM, last_Some_elem_of.
Qed.

Lemma is_latest_perm L M k e : L ≡ₚ M → is_latest L k e ↔ is_latest M k e.
Proof. intros HP. unfold is_latest. by setoid_rewrite HP. Qed.

Lemma versions_unique_perm L M : L ≡ₚ M → versions_unique L → versions_unique M.
Proof. intros HP Hu e1 e2. rewrite <- !HP. apply Hu. Qed.

(** The store that [open] builds from the entries [L], [b] bounding their versions. *)
Lemma rebuilt_store L b l disk :
  (0 ≤ b ≤ u64_max)%Z →
  Forall (λ e, 0 ≤ le_version e ≤ b)%Z L → Forall (λ e, wf_value (le_value e) = true) L →
  NoDup L → versions_unique L →
  let M := sort_by_version L in let r := fold_left replay_entry M (∅, ∅) in
  let s' := mkStore r.1 (newest_version M) r.2 l disk in
  store_inv s' ∧ covers L s' ∧ (st_version s' ≤ b)%Z ∧
  ∀ k, match store_get s' k with
       | Some x => ∃ e, is_latest L k e ∧ x = mkEntry (le_version e) (le_value e)
       | None => ∀ e, ¬ is_latest L k e
       end.
Proof.
  intros Hb Hr Hw Hn Hu M r s'. pose proof (sort_by_version_perm L) as HP. fold M in HP.
  pose proof (sort_by_version_sorted L) as Hs. fold M in Hs. symmetry in HP.
  assert (HrM := Hr). rewrite HP in HrM. assert (HwM := Hw). rewrite HP in HwM.
  pose proof (newest_version_range b M ltac:(lia) HrM) as Hnv.
  pose proof (newest_version_ge M Hs) as Hge.
  assert (HrM' : Forall (λ e, 0 ≤ le_version e ≤ newest_version M)%Z M).
  { rewrite Forall_forall in *. intros e He. specialize (HrM e He). specialize (Hge e He). lia. }
  assert (Hkey : ∀ k, match store_get s' k with
       | Some x => ∃ e, is_latest L k e ∧ x = mkEntry (le_version e) (le_value e)
       | None => ∀ e, ¬ is_latest L k e end).
  { intros k. unfold store_get, s', r. cbn. rewrite replay_entries_lookup.
    destruct (last (of_key k M)) as [e|] eqn:E; cbn.
    - exists e. rewrite (is_latest_perm L M) by done. split; [by apply last_of_key_latest|done].
    - intros e. rewrite (is_latest_perm L M) by done. intros (Hin & Hk & _).
      by eapply last_of_key_None. }
  split_and!; [split| | |done].
  - cbn. lia.
  - intros k x Hx. specialize (Hkey k). rewrite Hx in Hkey.
    destruct Hkey as (e & (Hin & _ & _) & ->). rewrite HP in Hin.
    rewrite Forall_forall in HrM', HwM. split; [by apply HrM'|by apply HwM].
  - apply replay_entries_log; [done|by eapply versions_unique_perm|by rewrite <- HP|done].
  - split; [by rewrite HP|done|done|done|]. intros k. specialize (Hkey k).
    destruct (store_get s' k); [|naive_solver].
    destruct Hkey as (e & He & ->). exists e. cbn. split_and!; [done..|lia].
  - cbn. lia.
Qed.

(** What a restart brings back of [s]. *)
Definition recovered (s s' : StateStore) : Prop :=
  (∀ k, match store_get s k with
        | Some x => ∃ x', store_get s' k = Some x' ∧ se_value x' ≡ se_value x ∧
                          (se_version x' ≤ se_version x)%Z
        | None => store_get s' k = None ∨ ∃ x', store_get s' k = Some x' ∧ se_value x' = VNull
        end) ∧
  (st_version s' ≤ st_version s)%Z ∧ st_plog s' = st_plog s ∧ st_disk s' = st_disk s.

Lemma store_open_recovers s :
  persist_inv s → ∃ s', store_open (st_disk s) = Ok s' ∧ persist_inv s' ∧ recovered s s'.
Proof.
  intros [Hi (l & old & es & Hl & Hlog & [C1 C2 C3 C4 C5])].
  destruct (rebuilt_store (log_entries old es) (st_version s) (Some l) (st_disk s))
    as (Hi' & Hc' & Hle & Hk'); [apply (si_version s Hi)|done..|].
  unfold store_open. rewrite (log_reopen _ _ _ _ Hlog). cbn [result_bind].
  fold (newest_version (sort_by_version (log_entries old es))).
  destruct (fold_left replay_entry (sort_by_version (log_entries old es)) (∅, ∅)) as [entries log].
  cbn [fst snd] in *. eexists. split; [done|]. split; [split; [done|]; eauto 10|].
  split; [|done]. intros k. specialize (Hk' k). specialize (C5 k).
  destruct (store_get s k) as [x|].
  - destruct C5 as (e & He & Hval & Hv). destruct (store_get _ k) as [x'|]; [|by apply Hk' in He].
    destruct Hk' as (e' & He' & ->). eexists. split; [done|].
    by rewrite (is_latest_unique _ _ _ _ C4 He' He).
  - destruct (store_get _ k) as [x'|]; [|by left]. right.
    destruct Hk' as (e' & He' & ->). eexists. split; [done|]. by apply C5 in He'.
Qed.

(** Histories of a persistent store: started on an empty directory, then
    written to and restarted any number of times. *)
Inductive persisted : StateStore → Prop :=
| P_start s : store_open ∅ = Ok s → persisted s
| P_apply s key v :
    persisted s → wf_value v = true → (st_version s < u64_max)%Z → seg_room s →
    (apply_emits s key v ≠ [] →
       enc_ok (mkLogEntry (st_version s + 1) key (apply_emits s key v) v)) →
    Forall enc_ok (snapshot (store_apply s key v).2) →
    persisted (store_apply s key v).2
| P_delete s key :
    persisted s → (st_version s < u64_max)%Z → seg_room s →
    enc_ok (mkLogEntry (st_version s + 1) key [delta_remove "/"] VNull) →
    Forall enc_ok (snapshot (store_delete s key).2) →
    persisted (store_delete s key).2
| P_restart s s' : persisted s → store_open (st_disk s) = Ok s' → persisted s'.

Lemma store_open_empty s : store_open ∅ = Ok s → persist_inv s.
Proof.
  destruct log_open_empty as (l & dir & Ho & Hlog). unfold store_open. rewrite Ho. cbn [result_bind].
  destruct (rebuilt_store [] 0 (Some l) dir) as (Hi & Hc & _);
    [done|constructor..|by intros ? ? ?%elem_of_nil|].
  fold (newest_version (sort_by_version [])).
  destruct (fold_left replay_entry (sort_by_version []) (∅, ∅)) as [entries log].
  intros [= <-]. split; [done|]. by exists l, [], [].
Qed.

Lemma persisted_inv s : persisted s → persist_inv s.
Proof.
  induction 1 as [| | |s s' _ IH Ho].
  - by apply store_open_empty.
  - by apply store_apply_persists.
  - by apply store_delete_persists.
  - destruct (store_open_recovers s IH) as (s'' & Ho' & Hp & _). congruence.
Qed.

(** C11. Persistence. After any history of writes, deletes and restarts (through
    rotations and compactions) in which the codec reads back every entry written (a
    condition that rmp_serde does not meet for the entry of a delete or of a write that
    removes a field), no file operation fails and no counter is exhausted,
    [StateStore::open] on the directory succeeds and rebuilds every present key
    with a value equal to the one in memory; a key that was absent is absent or
    [null]; the version counter does not exceed the one before. *)
Theorem store_reopen_recovers s :
  persisted s → ∃ s', store_open (st_disk s) = Ok s' ∧ store_inv s' ∧ recovered s s'.
Proof.
  intros Hp%persisted_inv. destruct (store_open_recovers s Hp) as (s' & Ho & [Hi _] & Hr). eauto.
Qed.

(** An append into a segment with room only adds the record's bytes. *)
Lemma log_append_room l disk content e payload :
  (entry_count l < MAX_ENTRIES_PER_SEGMENT)%Z → disk !! writer l = Some content →
  entry_to_vec e = Ok payload →
  log_append l disk e =
    (Ok tt, mkLog (current_seg l) (writer l) (entry_count l + 1) (segment_count l),
     <[writer l := (content ++ frame_record payload)%list]> disk).
Proof.
  intros Hroom Hc He. unfold log_append. rewrite (proj2 (Z.leb_gt _ _)) by lia.
  rewrite Hc. unfold write_entry. rewrite He. cbn [default result_bind]. unfold frame_record. by rewrite <- app_assoc.
Qed.

Lemma persist_room s l content e payload :
  st_plog s = Some l → needs_compact l = false →
  (entry_count l < MAX_ENTRIES_PER_SEGMENT)%Z → st_disk s !! writer l = Some content →
  entry_to_vec e = Ok payload →
  st_plog (persist s e) = Some (mkLog (current_seg l) (writer l) (entry_count l + 1) (segment_count l)) ∧
  st_disk (persist s e) = <[writer l := (content ++ frame_record payload)%list]> (st_disk s).
Proof.
  intros Hl Hn Hroom Hc He. unfold persist. rewrite Hl.
  erewrite log_append_room by done. unfold needs_compact in *. cbn. by rewrite Hn.
Qed.

Lemma store_delete_room s key x l content payload :
  store_get s key = Some x → st_plog s = Some l → needs_compact l = false →
  (entry_count l < MAX_ENTRIES_PER_SEGMENT)%Z → st_disk s !! writer l = Some content →
  entry_to_vec (mkLogEntry (u64_add (st_version s) 1) key [delta_remove "/"] VNull) = Ok payload →
  st_plog (store_delete s key).2 =
    Some (mkLog (current_seg l) (writer l) (entry_count l + 1) (segment_count l)) ∧
  st_disk (store_delete s key).2 = <[writer l := (content ++ frame_record payload)%list]> (st_disk s).
Proof.
  unfold store_get, store_delete. intros -> Hl Hn Hroom Hc He. cbn [snd].
  match goal with |- context [persist ?s' ?e] =>
    exact (persist_room s' l content e payload Hl Hn Hroom Hc He) end.
Qed.

Lemma store_apply_room s key v l content payload :
  store_get s key = None → st_plog s = Some l → needs_compact l = false →
  (entry_count l < MAX_ENTRIES_PER_SEGMENT)%Z → st_disk s !! writer l = Some content →
  entry_to_vec (mkLogEntry (u64_add (st_version s) 1) key [delta_add "/" v] v) = Ok payload →
  st_disk (store_apply s key v).2 = <[writer l := (content ++ frame_record payload)%list]> (st_disk s).
Proof.
  unfold store_get, store_apply. intros -> Hl Hn Hroom Hc He. cbn [snd].
  match goal with |- context [persist ?s' ?e] =>
    exact (proj2 (persist_room s' l content e payload Hl Hn Hroom Hc He)) end.
Qed.

(** Everything in the live segment from an undecodable record on is lost. *)
Lemma store_open_bad_tail s l old es bad err tail :
  persist_inv s → st_plog s = Some l → log_inv l (st_disk s) old es → covers (log_entries old es) s →
  (Z.of_nat (length bad) < 2 ^ 32)%Z → entry_from_slice bad = Err err →
  ∃ s', store_open (<[writer l := (records es ++ frame_record bad ++ tail)%list]> (st_disk s)) = Ok s' ∧
        recovered s s'.
Proof.
  intros Hp Hl Hlog Hc Hlen Hbad. pose proof Hlog as [Hnm Hso Hr Ho [Hlv Hle] Hwr Hec Hsc].
  destruct (store_open_recovers s Hp) as (s' & Hopen & _ & Hrec).
  exists s'. split; [|done]. rewrite <- Hopen. unfold store_open.
  assert (Hst : stops (frame_record bad ++ tail)).
  { intros e rest. rewrite read_frame_record by done. by rewrite Hbad. }
  rewrite Hwr. destruct (log_open_torn l (st_disk s) old es es _ Hlog Hle Hst) as [-> _].
  rewrite (log_reopen _ _ _ _ Hlog), insert_id by done.
  by destruct l; cbn in *; subst.
Qed.

(** A record that the decoder rejects costs every later write. If the codec
    does not read the log entry of a deletion back, then after deleting a key
    and writing another one (in one segment) a restart rebuilds the store from
    before the deletion: the deleted key is back with its value, and the later
    write, although acknowledged, is gone. *)
Theorem delete_entry_rejected_loses_writes s key key2 v2 x bad err payload l :
  persisted s → st_plog s = Some l → needs_compact l = false →
  (entry_count l + 1 < MAX_ENTRIES_PER_SEGMENT)%Z →
  store_get s key = Some x → store_get s key2 = None → key ≠ key2 →
  entry_to_vec (mkLogEntry (u64_add (st_version s) 1) key [delta_remove "/"] VNull) = Ok bad →
  (Z.of_nat (length bad) < 2 ^ 32)%Z → entry_from_slice bad = Err err →
  entry_to_vec (mkLogEntry (u64_add (u64_add (st_version s) 1) 1) key2 [delta_add "/" v2] v2) = Ok payload →
  let s2 := (store_apply (store_delete s key).2 key2 v2).2 in
  ∃ s', store_open (st_disk s2) = Ok s' ∧
    (∃ x', store_get s' key = Some x' ∧ se_value x' ≡ se_value x) ∧
    store_value s2 key2 = v2 ∧ store_value s' key2 = VNull.
Proof.
  intros Hp%persisted_inv Hl Hnc Hroom Hx Hx2 Hne Hdel Hlen Hbad Happ s2.
  pose proof Hp as [Hi (l' & old & es & Hl' & Hlog & Hcov)]. rewrite Hl in Hl'. injection Hl' as <-.
  pose proof (li_live _ _ _ _ Hlog) as [Hlive _]. rewrite <- (li_writer _ _ _ _ Hlog) in Hlive.
  destruct (store_open_bad_tail s l old es bad err (frame_record payload)) as (s' & Ho & Hk & _);
    [done..|].
  exists s'. split; [|split_and!].
  - rewrite <- Ho. f_equal. unfold s2.
    destruct (store_delete_present s key x Hx) as (_ & Hen & Hve & _).
    destruct (store_delete_room s key x l (records es) bad) as [Hl1 Hd1]; [done..|lia|done|done|].
    rewrite (store_apply_room _ key2 v2 _ (records es ++ frame_record bad)%list payload) with (2 := Hl1).
    + cbn [writer]. rewrite Hd1, insert_insert_eq. by rewrite <- app_assoc.
    + unfold store_get in *. by rewrite Hen, lookup_delete_ne.
    + done.
    + cbn. lia.
    + cbn [writer]. by rewrite Hd1, lookup_insert_eq.
    + by rewrite Hve.
  - specialize (Hk key). rewrite Hx in Hk. naive_solver.
  - apply store_value_apply.
  - specialize (Hk key2). rewrite Hx2 in Hk. unfold store_value.
    destruct Hk as [->|(x' & -> & ?)]; done.
Qed.
End PersistInv.

(** ** Concrete instances *)

Module PersistExamples.

Definition version_le (a b : LogEntry) : Prop := (le_version a ≤ le_version b)%Z.
#[local] Instance version_le_dec a b : Decision (version_le a b).
Proof. unfold version_le. apply _. Defined.
#[local] Instance version_le_total : Total version_le.
Proof. intros a b. unfold version_le. lia. Qed.
#[local] Instance version_le_trans : Transitive version_le.
Proof. intros a b c. unfold version_le. lia. Qed.

Definition merge_by_version : VersionSort := {|
  sort_by_version := merge_sort version_le;
  sort_by_version_perm := merge_sort_Permutation version_le;
  sort_by_version_sorted := StronglySorted_merge_sort version_le;
|}.

#[export] Existing Instance merge_by_version.
#[export] Existing Instance map_order.

Definition open0 (c : EntryCodec) : StateStore :=
  match @store_open c merge_by_version ∅ with Ok s => s | Err _ => store_new ∅ end.

(** "k" written, then written again with an equal value; on the second codec. *)
Definition p1 (c : EntryCodec) : StateStore := (@store_apply c map_order (open0 c) "k" (num 5)).2.
End PersistExamples.
Import PersistExamples.

Lemma p1_persisted c :
  c = ToyCodec.codec_of true ∨ c = ToyCodec.codec_of false →
  @persisted c map_order merge_by_version (p1 c).
Proof.
  intros Hc. apply (@P_apply c map_order merge_by_version (open0 c) "k" (num 5)).
  - apply P_start. by destruct Hc as [-> | ->].
  - done.
  - destruct Hc as [-> | ->]; vm_compute; done.
  - destruct Hc as [-> | ->]; vm_compute; done.
  - intros _. apply ToyCodec.enc_eval_ok. destruct Hc as [-> | ->]; vm_compute; done.
  - apply ToyCodec.enc_eval_all.
    assert (snapshot (p1 c) = [mkLogEntry 1 "k" [] (num 5)]) as Hs
      by (destruct Hc as [-> | ->]; vm_compute; done).
    unfold p1 in Hs. rewrite Hs. apply Forall_singleton.
    by destruct Hc as [-> | ->].
Qed.

(** "k" deleted, the server restarted, and "j" written. *)
Module RestartExample.
Import ToyCodec.
Definition deleted : StateStore := (@store_delete codec map_order (p1 codec) "k").2.
Definition restarted : StateStore :=
  match @store_open codec merge_by_version (st_disk deleted) with Ok s => s | Err _ => store_new ∅ end.
Definition rewritten : StateStore := (@store_apply codec map_order restarted "j" (num 7)).2.

Lemma rewritten_persisted : @persisted codec map_order merge_by_version rewritten.
Proof.
  assert (Hd : @persisted codec map_order merge_by_version deleted).
  { apply P_delete; [apply p1_persisted; by left|vm_compute; done|vm_compute; done|by apply enc_eval_ok|].
    apply enc_eval_all.
    assert (Hs : snapshot deleted = []) by (vm_compute; reflexivity). unfold deleted in Hs. by rewrite Hs. }
  apply P_apply; [|done|vm_compute; done|vm_compute; done| |].
  - eapply P_restart; [exact Hd|]. vm_compute. reflexivity.
  - intros _. apply enc_eval_ok. vm_compute. done.
  - apply enc_eval_all.
    assert (Hs : snapshot rewritten = [mkLogEntry 2 "k" [] VNull; mkLogEntry 3 "j" [] (num 7)])
      by (vm_compute; reflexivity).
    unfold rewritten in Hs. rewrite Hs. by repeat constructor.
Qed.
End RestartExample.
Import RestartExample.

Lemma store_reopen_recovers_witness :
  let c := ToyCodec.codec in
  ∃ s', @store_open c merge_by_version (st_disk rewritten) = Ok s' ∧
    (∃ x', store_get s' "j" = Some x' ∧ se_value x' ≡ num 7) ∧
    (∃ x', store_get s' "k" = Some x' ∧ se_value x' ≡ VNull).
Proof.
  intros c.
  destruct (@store_reopen_recovers c map_order merge_by_version rewritten rewritten_persisted) as (s' & Ho & _ & Hr & _).
  assert (Hj : store_get rewritten "j" = Some (mkEntry 3 (num 7))) by (vm_compute; reflexivity).
  assert (Hk : store_get rewritten "k" = Some (mkEntry 2 VNull)) by (vm_compute; reflexivity).
  pose proof (Hr "j") as Hrj. pose proof (Hr "k") as Hrk. rewrite Hj in Hrj. rewrite Hk in Hrk. clear Hr Hj Hk.
  destruct Hrj as (xj & Hj & Hvj & _). destruct Hrk as (xk & Hk & Hvk & _).
  exists s'. exact (conj Ho (conj (ex_intro _ xj (conj Hj Hvj)) (ex_intro _ xk (conj Hk Hvk)))).
Defined.

Lemma delete_entry_rejected_loses_writes_witness :
  let c := ToyCodec.codec_of false in
  let s2 := (@store_apply c map_order (@store_delete c map_order (p1 c) "k").2 "j" (num 7)).2 in
  ∃ s', @store_open c merge_by_version (st_disk s2) = Ok s' ∧
    (∃ x', store_get s' "k" = Some x' ∧ se_value x' ≡ num 5) ∧
    store_value s2 "j" = num 7 ∧ store_value s' "j" = VNull.
Proof.
  intros c s2.
  eapply (@delete_entry_rejected_loses_writes c map_order merge_by_version (p1 c) "k" "j" (num 7)
    (mkEntry 1 (num 5))).
  - apply p1_persisted. by right.
  - reflexivity.
  - reflexivity.
  - reflexivity.
  - reflexivity.
  - reflexivity.
  - done.
  - reflexivity.
  - reflexivity.
  - reflexivity.
  - reflexivity.
Defined.

(** What a restart does not keep, even with a codec that reads every entry
    back: a deleted key returns as a present key holding [null], and after a
    write that changes nothing (it advances the counter but is not logged) the
    counter restarts at a version that had already been given out. *)
Theorem restart_revives_deleted_and_reuses_versions :
  let c := ToyCodec.codec in
  let deleted := (@store_delete c map_order (p1 c) "k").2 in
  let same := (@store_apply c map_order (p1 c) "k" (num 5)).2 in
  store_get deleted "k" = None ∧
  (∃ s', @store_open c merge_by_version (st_disk deleted) = Ok s' ∧
         store_get s' "k" = Some (mkEntry 2 VNull)) ∧
  current_version same = 2%Z ∧
  (∃ s', @store_open c merge_by_version (st_disk same) = Ok s' ∧ current_version s' = 1%Z).
Proof.
  intros c deleted same. split; [reflexivity|]. split; [|split; [reflexivity|]].
  - eexists. split; vm_compute; reflexivity.
  - eexists. split; vm_compute; reflexivity.
Qed.
