(* ===== verification/LogFaults.v ===== *)
(** * What the log keeps when the operating system fails (src/src/log.rs, state.rs)

    A history is a list of appends, compactions and process deaths, run against any
    answers of the system (LogIO.v); a restart may fail too, and the process is then
    down until one succeeds.  [must] is what the log has acknowledged (the
    entries appended with success since the last successful compaction, and its
    snapshot), [may] all it was ever given.  The invariant [io_inv] describes the
    segments on disk and what is pending in the buffer; from it follows what
    [SegmentedLog::open] and [StateStore::open] find.  An append that fails halfway
    through a record tears the segment, and a read that fails while a segment is replayed
    has it truncated; the condition [contained] excludes both, and the last two
    theorems show what happens otherwise. *)

From S2P Require Import Prelude RustStr Json Delta Log LogIO Store StorePersist.

Local Open Scope string_scope.

#[local] Arguments records {_} _ : simpl never.

(** ** Histories *)

Inductive LogOp : Type :=
| LAppend (e : LogEntry)
| LCompact (snapshot : list LogEntry)
| LRestart.                        (* the process dies, if it runs, and starts again *)

Record History : Type := mkHistory {
  h_log : option IoLog;            (* [None]: the last start failed *)
  h_os : Os;
  h_must : list LogEntry;
  h_may : list LogEntry;
}.

Section Histories.
Context `{EntryCodec}.

Definition log_step (h : History) (op : LogOp) : History :=
  match op, h_log h with
  | LAppend e, Some l =>
      let '(r, l', os) := io_append l e (h_os h) in
      mkHistory (Some l') os (if is_ok r then h_must h ++ [e] else h_must h)%list (h_may h ++ [e])
  | LCompact snapshot, Some l =>
      let '(r, l', os) := io_compact l snapshot (h_os h) in
      mkHistory (Some l') os (if is_ok r then snapshot else h_must h) (h_may h ++ snapshot)
  | LRestart, _ =>
      let '(r, os) := io_open (h_os h) in
      mkHistory (match r with Ok (l, _) => Some l | Err _ => None end) os (h_must h) (h_may h)
  | _, None => h
  end.

(** The log just opened on an empty directory. *)
Definition log_start (ws : list WriteOutcome) (rs cs : list bool) : History :=
  mkHistory (Some (mkIoLog 0 (mkWriter (segment_path 0) []) 0 1)) (mkOs {[ segment_path 0 := [] ]} ws rs cs) [] [].

(** Entries the codec reads back, and appends that succeed or whose record fits
    in the buffer next to the bytes of earlier appends that failed; no read fails at
    a restart. *)
Definition contained (h : History) (op : LogOp) : Prop :=
  match op, h_log h with
  | LAppend e, Some l =>
      enc_ok e ∧ (is_ok (io_append l e (h_os h)).1.1 = true ∨ entry_fits (io_writer l) e)
  | LCompact snapshot, Some _ => Forall enc_ok snapshot
  | LRestart, _ => readable (h_os h)
  | _, None => True
  end.

Fixpoint contained_run (h : History) (ops : list LogOp) : Prop :=
  match ops with
  | [] => True
  | op :: ops' => contained h op ∧ contained_run (log_step h op) ops'
  end.

Definition log_run (h : History) (ops : list LogOp) : History := fold_left log_step ops h.

(** ** Segments on disk *)

(** A segment that replays as [s.2], perhaps with an incomplete record at its end. *)
Definition seg_ok (dir : Dir) (s : Z * list LogEntry) : Prop :=
  ∃ tail, dir !! segment_path s.1 = Some (records s.2 ++ tail)%list ∧ stops tail ∧ Forall enc_ok s.2.

Definition in_range (n : Z) : Prop := (0 ≤ n ≤ u64_max)%Z.

Lemma seg_ok_other dir n c s :
  in_range n → in_range s.1 → n ≠ s.1 → seg_ok dir s → seg_ok (<[segment_path n := c]> dir) s.
Proof.
  intros Hn Hs Hne (tail & Hd & ?). exists tail. rewrite lookup_insert_ne; [done|].
  by intros E%segment_path_inj.
Qed.

Lemma segs_ok_other dir n c segs :
  in_range n → Forall in_range segs.*1 → n ∉ segs.*1 →
  Forall (seg_ok dir) segs → Forall (seg_ok (<[segment_path n := c]> dir)) segs.
Proof.
  intros Hn Hr Hnot Hs. rewrite Forall_forall in Hr. rewrite Forall_forall in Hs |- *. intros s Hin.
  assert (s.1 ∈ segs.*1) by (apply list_elem_of_fmap; eauto).
  apply seg_ok_other; [done|by apply Hr|intros E; by rewrite E in Hnot|by apply Hs].
Qed.

(** [open] reads every segment, in whatever order, and heals them. *)
Lemma replay_all_ok segs dir :
  NoDup segs.*1 → Forall in_range segs.*1 → Forall (seg_ok dir) segs →
  ∃ n dir', replay_all dir segs.*1 = Ok (flat_map snd segs, n, dir') ∧
    list_segments dir' = list_segments dir ∧
    Forall (λ s, dir' !! segment_path s.1 = Some (records s.2)) segs ∧
    (∀ n, in_range n → n ∉ segs.*1 → dir' !! segment_path n = dir !! segment_path n).
Proof.
  revert dir. induction segs as [|[n es] segs IH]; intros dir; cbn.
  { intros _ _ _. by exists 0%Z, dir. }
  intros [Hn Hnd]%NoDup_cons [Hr Hrs]%Forall_cons [(tail & Hd & Ht & Hes) Hsegs]%Forall_cons. cbn in *.
  rewrite (replay_segment_records dir _ es tail) by done. cbn [result_bind].
  destruct (IH (<[segment_path n := records es]> dir)) as (c & dir' & -> & Hls & Hall & Hother); [done|done|..].
  { by apply segs_ok_other. }
  cbn [result_bind]. eexists _, dir'. split; [done|]. split_and!.
  - by rewrite Hls, (list_segments_insert_present _ _ _ _ Hd).
  - apply Forall_cons. split; [|done]. cbn. rewrite Hother by done. by rewrite lookup_insert_eq.
  - intros m Hm [Hmn Hms]%not_elem_of_cons. rewrite Hother by done. rewrite lookup_insert_ne; [done|].
    by intros E%segment_path_inj.
Qed.

(** ** The invariant *)

(** The live segment number and the entries of the other segments; of the live
    segment, the entries all on disk and those some bytes of which are in the buffer. *)
Record Ghost : Type := mkGhost {
  g_live : Z;
  g_closed : list (Z * list LogEntry);
  g_durable : list LogEntry;
  g_pending : list LogEntry;
}.

Definition g_numbers (g : Ghost) : list Z := g_live g :: (g_closed g).*1.

Record io_inv (l : IoLog) (dir : Dir) (must may : list LogEntry) (g : Ghost) : Prop := {
  ii_names : list_segments dir ≡ₚ g_numbers g;
  ii_nodup : NoDup (g_numbers g);
  ii_range : Forall (λ n, 0 ≤ n ≤ io_seg l)%Z (g_numbers g);
  ii_seg : (io_seg l ≤ u64_max)%Z;
  ii_closed : Forall (seg_ok dir) (g_closed g);
  ii_live : ∃ part, dir !! segment_path (g_live g) = Some (records (g_durable g) ++ part)%list ∧
    (part ++ bw_buf (io_writer l))%list = records (g_pending g);
  ii_enc : Forall enc_ok (g_durable g ++ g_pending g);
  ii_path : bw_path (io_writer l) = segment_path (g_live g);
  ii_must : must ⊆ (flat_map snd (g_closed g) ++ g_durable g)%list;
  ii_may : (flat_map snd (g_closed g) ++ g_durable g ++ g_pending g)%list ⊆ may;
}.

Lemma ii_in_range l dir must may g : io_inv l dir must may g → Forall in_range (g_numbers g).
Proof.
  intros Hi. eapply Forall_impl; [apply (ii_range _ _ _ _ _ Hi)|]. cbn.
  pose proof (ii_seg _ _ _ _ _ Hi). unfold in_range. lia.
Qed.

Lemma ii_below l dir must may g n :
  io_inv l dir must may g → n ∈ list_segments dir → (0 ≤ n ≤ io_seg l)%Z.
Proof. intros [Hn _ Hr _ _ _ _ _ _ _] Hin. rewrite Hn in Hin. rewrite Forall_forall in Hr. by apply Hr. Qed.

(** The writer's file exists. *)
Lemma ii_present l dir must may g : io_inv l dir must may g → is_Some (dir !! bw_path (io_writer l)).
Proof. intros Hi. rewrite (ii_path _ _ _ _ _ Hi). destruct (ii_live _ _ _ _ _ Hi) as (part & -> & _). eauto. Qed.

(** The live segment as a process death leaves it. *)
Lemma ii_torn l dir must may g :
  io_inv l dir must may g → ∃ n, seg_ok dir (g_live g, g_durable g ++ take n (g_pending g))%list.
Proof.
  intros Hi. destruct (ii_live _ _ _ _ _ Hi) as (part & Hd & Hp).
  pose proof (ii_enc _ _ _ _ _ Hi) as [Hdur Hpend]%Forall_app.
  destruct (records_prefix_split (g_pending g) (length part) (enc_ok_written_all _ Hpend)) as (n & tail & E & Ht & _).
  rewrite <- Hp, take_app_length in E. exists n, tail. cbn. rewrite records_app, <- app_assoc, <- E.
  split_and!; [done|done|]. apply Forall_app. split; [done|by apply Forall_take].
Qed.

(** ** Growing the live segment *)

(** The writer takes the records of [new]; the counters of the handle do not matter. *)
Lemma inv_accepts l os must may may' g new w' os' seg ec sc :
  io_inv l (os_dir os) must may g → accepts (io_writer l) os (records new) w' os' →
  Forall enc_ok new → (io_seg l ≤ seg ≤ u64_max)%Z → may ⊆ may' → new ⊆ may' →
  io_inv (mkIoLog seg w' ec sc) (os_dir os') must may'
    (mkGhost (g_live g) (g_closed g) (g_durable g) (g_pending g ++ new)).
Proof.
  intros Hi (Hpath & c & c' & Hc & Hd & [more ->] & E) Hnew Hseg Hmay Hn.
  pose proof (ii_in_range _ _ _ _ _ Hi) as [Hrl Hrc]%Forall_cons.
  pose proof Hi as [I1 [I2 I2']%NoDup_cons I3 I4 I5 (part & I6 & I6') I7 I8 I9 I10].
  rewrite I8 in *. rewrite I6 in Hc. injection Hc as <-. split; cbn; try done.
  - rewrite Hd, (list_segments_insert_present _ _ _ _ I6). done.
  - by apply NoDup_cons.
  - eapply Forall_impl; [exact I3|]. cbn. lia.
  - lia.
  - rewrite Hd. by apply segs_ok_other.
  - exists (part ++ more)%list. rewrite Hd, lookup_insert_eq, records_app, <- I6'. split; [by rewrite <- app_assoc|].
    rewrite <- !app_assoc in E. apply app_inv_head in E. rewrite <- app_assoc. apply app_inv_head in E.
    by rewrite E, <- app_assoc.
  - rewrite app_assoc. by apply Forall_app.
  - set_solver.
Qed.

(** With an empty buffer everything pending is on disk. *)
Lemma inv_flushed l dir must may g new :
  io_inv l dir must may g → bw_buf (io_writer l) = [] → new ⊆ g_pending g →
  io_inv l dir (must ++ new) may (mkGhost (g_live g) (g_closed g) (g_durable g ++ g_pending g) []).
Proof.
  intros [I1 I2 I3 I4 I5 (part & I6 & I6') I7 I8 I9 I10] Hb Hn.
  rewrite Hb, app_nil_r in I6'. subst part. split; cbn; try done.
  - exists []. rewrite app_nil_r, records_app, Hb. done.
  - by rewrite app_nil_r.
  - set_solver.
  - set_solver.
Qed.

Lemma inv_must l dir must must' may g :
  io_inv l dir must may g → must' ⊆ (flat_map snd (g_closed g) ++ g_durable g)%list →
  io_inv l dir must' may g.
Proof. by intros [I1 I2 I3 I4 I5 I6 I7 I8 I9 I10] Hs. Qed.

(** ** New segments *)

(** A segment [n] above all others is added, empty, and becomes live. *)
Lemma inv_new_live l dir must may g n l' :
  io_inv l dir must may g → g_pending g = [] → (io_seg l < n ≤ u64_max)%Z →
  io_seg l' = n → io_writer l' = mkWriter (segment_path n) [] →
  dir !! segment_path n = None ∧
  io_inv l' (<[segment_path n := []]> dir) must may
    (mkGhost n (g_closed g ++ [(g_live g, g_durable g)]) [] []).
Proof.
  intros Hi Hp Hn Hs Hw. pose proof (ii_in_range _ _ _ _ _ Hi) as Hr.
  pose proof Hi as [I1 I2 I3 I4 I5 (part & I6 & I6') I7 I8 I9 I10].
  destruct (list_segments_insert_last dir n []) as [Hfresh Hls].
  { apply Forall_cons in I3 as [? _]. lia. }
  { rewrite I1. eapply Forall_impl; [exact I3|]. cbn. lia. }
  split; [done|]. rewrite Hp in *. apply app_nil in I6' as [-> _].
  assert (Hne : ∀ m, m ∈ g_numbers g → n ≠ m).
  { intros m Hm. rewrite Forall_forall in I3. specialize (I3 m Hm). cbn in I3. lia. }
  assert (Hin : in_range n) by (apply Forall_cons in I3 as [? _]; unfold in_range; lia).
  assert (HP : (g_closed g ++ [(g_live g, g_durable g)])%list.*1 ≡ₚ g_numbers g)
    by (rewrite fmap_app; cbn; by rewrite <- Permutation_cons_append).
  assert (HN : g_numbers (mkGhost n (g_closed g ++ [(g_live g, g_durable g)]) [] []) ≡ₚ n :: g_numbers g)
    by (unfold g_numbers at 1; cbn [g_live g_closed]; by rewrite HP).
  split; rewrite ?HN; cbn; rewrite ?Hw; try done.
  - rewrite Hls, I1. by rewrite Permutation_app_comm.
  - apply NoDup_cons. split; [|done]. intros Hm. by apply (Hne n).
  - apply Forall_cons. rewrite Hs. split; [cbn; unfold in_range in Hin; lia|]. eapply Forall_impl; [exact I3|]. cbn. lia.
  - lia.
  - apply segs_ok_other; [done|by rewrite HP|rewrite HP; intros Hm; by apply (Hne n)|].
    apply Forall_app. split; [done|]. apply Forall_singleton. exists []. rewrite app_nil_r in I7.
    split_and!; [done|by apply stops_nil|done].
  - exists []. by rewrite lookup_insert_eq.
  - rewrite flat_map_app. cbn. set_solver.
  - rewrite flat_map_app. cbn. set_solver.
Qed.

(** A segment [n] above all others is added as a closed one, a byte prefix of [es]. *)
Lemma inv_new_closed l dir must may g n es k l' :
  io_inv l dir must may g → (io_seg l < n ≤ u64_max)%Z → Forall enc_ok es →
  io_seg l' = n → io_writer l' = io_writer l →
  ∃ m, (take k (records es) = records es → take m es = es) ∧
  io_inv l' (<[segment_path n := take k (records es)]> dir) must (may ++ es)
    (mkGhost (g_live g) ((n, take m es) :: g_closed g) (g_durable g) (g_pending g)).
Proof.
  intros Hi Hn He Hs Hw. pose proof (ii_in_range _ _ _ _ _ Hi) as Hr.
  pose proof Hi as [I1 I2 I3 I4 I5 (part & I6 & I6') I7 I8 I9 I10].
  destruct (list_segments_insert_last dir n (take k (records es))) as [Hfresh Hls].
  { apply Forall_cons in I3 as [? _]. lia. }
  { rewrite I1. eapply Forall_impl; [exact I3|]. cbn. lia. }
  destruct (records_prefix_split es k (enc_ok_written_all _ He)) as (m & tail & E & Ht & _ & Hlt). exists m. split.
  { intros Hall. destruct (decide (m < length es)) as [Hm|Hm]; [|by apply take_ge; lia].
    specialize (Hlt Hm). apply (f_equal length) in Hall. rewrite length_take in Hall.
    rewrite <- (take_drop (S m) es) in Hall at 2. rewrite records_app, length_app in Hall. lia. }
  assert (Hne : ∀ m, m ∈ g_numbers g → n ≠ m).
  { intros j Hj. rewrite Forall_forall in I3. specialize (I3 j Hj). cbn in I3. lia. }
  assert (Hin : in_range n) by (apply Forall_cons in I3 as [? _]; unfold in_range; lia).
  apply Forall_cons in Hr as [Hrl Hrc]. split; cbn; rewrite ?Hw; try done.
  - rewrite Hls, I1, Permutation_app_comm. apply perm_swap.
  - unfold g_numbers in *. cbn. apply NoDup_cons in I2 as [I2 I2']. apply NoDup_cons. split.
    + apply not_elem_of_cons. split; [|done]. apply not_eq_sym, Hne. left.
    + apply NoDup_cons. split; [|done]. intros Hm. by apply (Hne n); [right|].
  - unfold g_numbers in *. cbn. apply Forall_cons in I3 as [I3 I3']. rewrite Hs. unfold in_range in Hin. repeat (apply Forall_cons; split; [lia|]).
    eapply Forall_impl; [exact I3'|]. cbn. lia.
  - lia.
  - apply Forall_cons. split.
    + exists tail. cbn. rewrite lookup_insert_eq, E. split_and!; [done|done|by apply Forall_take].
    + apply segs_ok_other; [done|done| |done]. intros Hm. by apply (Hne n); [right|].
  - exists part. rewrite lookup_insert_ne; [done|]. intros Ep%segment_path_inj; [|done|done].
    by apply (Hne (g_live g)); [left|].
  - set_solver.
  - assert (take m es ⊆ es) by (intros x Hx; by eapply elem_of_sublist, sublist_take). set_solver.
Qed.

(** Removing segment [n], neither the live one nor the one that carries [must]. *)
Lemma inv_remove l os must may live snap closed n :
  io_inv l (os_dir os) must may (mkGhost live (snap :: closed) [] []) → must ⊆ snap.2 →
  in_range n → n ≠ live → n ≠ snap.1 →
  ∃ closed', io_inv l (os_dir (os_remove os (segment_path n))) must may
    (mkGhost live (snap :: closed') [] []).
Proof.
  intros Hi Hmust Hn Hlive Hsnap. unfold os_remove. destruct (os_call os) as [ok os1] eqn:Ec.
  assert (Hd : os_dir os1 = os_dir os) by (unfold os_call in Ec; destruct (os_calls os); by injection Ec as <- <-).
  destruct ok; cbn [set_dir os_dir]; rewrite Hd; [|by eexists]. set (dir := os_dir os) in *. clearbody dir.
  destruct (dir !! segment_path n) as [c|] eqn:Hc; [|exists closed; by rewrite delete_id].
  pose proof (list_segments_delete dir n c Hn Hc) as Hls.
  pose proof (ii_in_range _ _ _ _ _ Hi) as Hr.
  pose proof Hi as [I1 I2 I3 I4 I5 (part & I6 & I6') I7 I8 I9 I10]. cbn in *.
  assert (Hmem : n ∈ closed.*1) by (rewrite I1 in Hls; assert (n ∈ g_numbers (mkGhost live (snap :: closed) [] [])) by (rewrite Hls; left); set_solver).
  apply list_elem_of_fmap in Hmem as ([n' es] & -> & (c1 & c2 & ->)%list_elem_of_split). exists (c1 ++ c2)%list.
  assert (HP : live :: snap.1 :: (c1 ++ (n', es) :: c2)%list.*1 ≡ₚ n' :: live :: snap.1 :: (c1 ++ c2)%list.*1)
    by (rewrite !fmap_app; cbn; solve_Permutation).
  unfold g_numbers in *. cbn [fst g_live g_closed fmap list_fmap] in *. rewrite HP in I1, I2, I3, Hr.
  apply NoDup_cons in I2 as [I2n I2]. apply Forall_cons in I3 as [_ I3]. apply Forall_cons in Hr as [_ Hr].
  assert (Hlook : ∀ m, m ∈ live :: snap.1 :: (c1 ++ c2)%list.*1 → delete (segment_path n') dir !! segment_path m = dir !! segment_path m).
  { intros m Hm. rewrite lookup_delete_ne; [done|]. intros E. rewrite Forall_forall in Hr.
    apply segment_path_inj in E; [by subst|done|by apply Hr]. }
  split; cbn; try done.
  - rewrite I1 in Hls. symmetry. by apply Permutation_cons_inv in Hls.
  - rewrite Forall_forall in I5 |- *. intros s Hs. destruct (I5 s) as (tail & Ht & ?); [set_solver|].
    exists tail. rewrite Hlook; [done|]. right. destruct s as [m ms]. cbn.
    apply elem_of_cons in Hs as [<-|Hs]; [by left|right]. apply list_elem_of_fmap. by exists (m, ms).
  - exists part. rewrite Hlook; [done|by left].
  - set_solver.
  - rewrite !flat_map_app in *. set_solver.
Qed.

Lemma inv_remove_all l os must may live snap closed ns :
  io_inv l (os_dir os) must may (mkGhost live (snap :: closed) [] []) → must ⊆ snap.2 →
  Forall (λ n, in_range n ∧ n ≠ live ∧ n ≠ snap.1) ns →
  ∃ g, io_inv l (os_dir (fold_left (λ o n, os_remove o (segment_path n)) ns os)) must may g.
Proof.
  revert os closed. induction ns as [|n ns IH]; intros os closed Hi Hm Hns; [by eexists|].
  apply Forall_cons in Hns as [(? & ? & ?) Hns]. cbn.
  destruct (inv_remove _ _ _ _ _ _ _ n Hi Hm) as [closed' Hi']; [done..|]. by eapply IH.
Qed.

(** ** The steps keep the invariant *)

Lemma inv_may l dir must may may' g :
  io_inv l dir must may g → may ⊆ may' → io_inv l dir must may' g.
Proof. intros [I1 I2 I3 I4 I5 I6 I7 I8 I9 I10] Hs. split; try done. set_solver. Qed.

Lemma inv_flush l os must may g r w os' :
  io_inv l (os_dir os) must may g → bw_flush (io_writer l) os = (r, w, os') →
  ∀ ec sc, io_inv (mkIoLog (io_seg l) w ec sc) (os_dir os') must may g ∧ (r = Ok tt → bw_buf w = []).
Proof.
  intros Hi E ec sc. destruct (bw_flush_spec _ _ _ _ _ (ii_present _ _ _ _ _ Hi) E) as [Ha Hb].
  split; [|done]. pose proof (ii_seg _ _ _ _ _ Hi).
  pose proof (inv_accepts l os must may may g [] w os' (io_seg l) ec sc Hi Ha) as Hi'.
  rewrite app_nil_r in Hi'. destruct g. apply Hi'; [constructor|lia|done|set_solver].
Qed.

(** A handle with another number and other counters. *)
Lemma inv_handle l dir must may g seg ec sc :
  io_inv l dir must may g → (io_seg l ≤ seg ≤ u64_max)%Z →
  io_inv (mkIoLog seg (io_writer l) ec sc) dir must may g.
Proof.
  intros [I1 I2 I3 I4 I5 I6 I7 I8 I9 I10] Hs. split; cbn; try done; [|lia].
  eapply Forall_impl; [exact I3|]. cbn. lia.
Qed.

Lemma os_create_new_spec os path ok os' :
  os_create_new os path = (ok, os') →
  os_dir os' = if ok then <[path := []]> (os_dir os) else os_dir os.
Proof.
  unfold os_create_new. destruct (os_call os) as [b os1] eqn:Ec.
  assert (Hd : os_dir os1 = os_dir os) by (unfold os_call in Ec; destruct (os_calls os); by injection Ec as <- <-).
  destruct b; [|by intros [= <- <-]]. unfold create_new. rewrite Hd.
  destruct (os_dir os !! path); by intros [= <- <-].
Qed.

(** Dropping a writer with an empty buffer changes no file. *)
Lemma bw_drop_empty w os :
  is_Some (os_dir os !! bw_path w) → bw_buf w = [] → os_dir (bw_drop w os) = os_dir os.
Proof. intros Hp Hb. destruct (bw_drop_spec w os Hp) as [w' Ha]. by apply accepts_nothing in Ha as [_ ?]. Qed.

Lemma inv_rotate l os must may g r l' os' :
  io_inv l (os_dir os) must may g → (io_seg l < u64_max)%Z → io_rotate l os = (r, l', os') →
  (∃ g', io_inv l' (os_dir os') must may g') ∧ (io_seg l ≤ io_seg l' ≤ io_seg l + 1)%Z ∧
  (r = Ok tt → bw_buf (io_writer l') = []).
Proof.
  intros Hi Hm. unfold io_rotate. destruct (bw_flush _ _) as [[r1 w1] os1] eqn:E1.
  pose proof (inv_flush _ _ _ _ _ _ _ _ Hi E1) as Hf. destruct r1 as [[]|err].
  2:{ intros [= <- <- <-]. destruct (Hf (io_entries l) (io_segments l)) as [Hi' _]. split_and!; [eauto|cbn; lia..|done]. }
  destruct (Hf (io_entries l) (io_segments l)) as [Hi1 Hb]. specialize (Hb eq_refl).
  assert (H0 : (0 ≤ io_seg l)%Z) by (pose proof (ii_range _ _ _ _ _ Hi) as [? _]%Forall_cons; lia).
  rewrite u64_add_small by lia. set (n := (io_seg l + 1)%Z) in *.
  pose proof (inv_flushed _ _ _ _ _ [] Hi1 Hb ltac:(set_solver)) as Hi2. rewrite app_nil_r in Hi2.
  destruct (os_create_new os1 (segment_path n)) as [ok os2] eqn:E2. pose proof (os_create_new_spec _ _ _ _ E2) as Hd.
  destruct ok; intros [= <- <- <-].
  - destruct (inv_new_live _ _ _ _ _ n (mkIoLog n (mkWriter (segment_path n) []) 0 (io_segments l + 1)) Hi2) as [_ Hi3];
      [done|cbn; lia|done|done|]. split_and!; [|cbn; lia..|done].
    eexists. rewrite bw_drop_empty, Hd; [exact Hi3| |done]. rewrite Hd.
    apply lookup_insert_is_Some'. right. apply (ii_present _ _ _ _ _ Hi1).
  - split_and!; [|cbn; lia..|done]. eexists. rewrite Hd.
    apply (inv_handle _ _ _ _ _ n (io_entries l) (io_segments l) Hi2). cbn. lia.
Qed.

(** The record is taken and flushed, or taken and pending. *)
Lemma inv_append_entry l os must may g e r2 w2 os2 r3 w3 os3 ec sc :
  io_inv l (os_dir os) must may g → enc_ok e →
  io_write_entry (io_writer l) e os = (r2, w2, os2) → r2 = Ok tt → bw_flush w2 os2 = (r3, w3, os3) →
  ∃ g', io_inv (mkIoLog (io_seg l) w3 ec sc) (os_dir os3)
    (if is_ok r3 then must ++ [e] else must)%list (may ++ [e]) g'.
Proof.
  intros Hi He E2 Hr2 E3. pose proof (ii_present _ _ _ _ _ Hi) as Hp. pose proof (ii_seg _ _ _ _ _ Hi).
  destruct (io_write_entry_spec _ _ _ _ _ _ Hp E2) as (k & Ha & Hk). rewrite Hk in Ha by done.
  destruct (bw_flush_spec _ _ _ _ _ (accepts_present _ _ _ _ _ Ha) E3) as [Ha3 Hb].
  pose proof (accepts_trans _ _ _ _ _ _ _ _ Ha Ha3) as Ha'. rewrite app_nil_r in Ha'.
  assert (Hrec : record_of e = records [e]) by (unfold records; cbn; by rewrite app_nil_r). rewrite Hrec in Ha'.
  pose proof (inv_accepts _ _ _ may (may ++ [e])%list _ [e] w3 os3 (io_seg l) ec sc Hi Ha' ltac:(by apply Forall_singleton)
    ltac:(lia) ltac:(set_solver) ltac:(set_solver)) as Hi'.
  destruct r3 as [[]|err]; cbn; [|eauto]. eexists.
  apply (inv_flushed _ _ _ _ _ [e] Hi'); [by apply Hb|cbn; set_solver].
Qed.

Lemma inv_append l os must may g e r l' os' :
  io_inv l (os_dir os) must may g → (io_seg l < u64_max)%Z → enc_ok e →
  io_append l e os = (r, l', os') → is_ok r = true ∨ entry_fits (io_writer l) e →
  (∃ g', io_inv l' (os_dir os') (if is_ok r then must ++ [e] else must)%list (may ++ [e]) g') ∧
  (io_seg l ≤ io_seg l' ≤ io_seg l + 1)%Z.
Proof.
  intros Hi Hm He. unfold io_append.
  destruct (if (_ <=? _)%Z then _ else _) as [[r1 l1] os1] eqn:E1.
  assert (H1 : (∃ g1, io_inv l1 (os_dir os1) must may g1) ∧ (io_seg l ≤ io_seg l1 ≤ io_seg l + 1)%Z ∧
    (r1 = Ok tt → bw_buf (io_writer l1) = [] ∨ l1 = l)).
  { destruct (_ <=? _)%Z; [|injection E1 as <- <- <-; split_and!; [by exists g|lia..|by right]].
    destruct (inv_rotate _ _ _ _ _ _ _ _ Hi Hm E1) as (? & ? & Hb). split_and!; [done|lia..|]. intros Hr. left. by apply Hb. }
  destruct H1 as ((g1 & Hi1) & Hseg & Hbuf). destruct r1 as [[]|err].
  2:{ intros [= <- <- <-] _. split; [|done]. exists g1. eapply inv_may; [done|set_solver]. }
  destruct (io_write_entry _ _ _) as [[r2 w2] os2] eqn:E2. intros E Hfit.
  assert (Hr2 : r2 = Ok tt).
  { destruct r2 as [[]|err]; [done|]. injection E as <- <- <-. destruct Hfit as [?|Hfit]; [done|].
    rewrite io_write_entry_fits in E2; [done|done|]. unfold entry_fits in *.
    destruct (Hbuf eq_refl) as [->| ->]; [|done]. unfold blen in *. cbn. lia. }
  subst r2. destruct (bw_flush w2 os2) as [[r3 w3] os3] eqn:E3.
  assert (Hall := λ ec sc, inv_append_entry _ _ _ _ _ _ _ _ _ _ _ _ ec sc Hi1 He E2 eq_refl E3).
  destruct r3 as [[]|err]; injection E as <- <- <-; (split; [apply Hall|done]).
Qed.

(** The two new segments of a compaction, the first holding the snapshot. *)
Lemma inv_compact_segments l os must may g snapshot r l' os' segs :
  io_inv l (os_dir os) must may g → bw_buf (io_writer l) = [] → g_pending g = [] →
  (io_seg l + 2 ≤ u64_max)%Z → Forall enc_ok snapshot →
  Forall (λ n, 0 ≤ n ≤ io_seg l)%Z segs →
  (let cur1 := (io_seg l + 1)%Z in let l1 := mkIoLog cur1 (io_writer l) (io_entries l) (io_segments l) in
   let '(ok, os2) := os_create_new os (segment_path cur1) in
   if negb ok then (Err (EIo OsError), l1, os2) else
   let '(r3, os3) := io_snapshot (segment_path cur1) snapshot os2 in
   match r3 with
   | Err e => (Err e, l1, os3)
   | Ok _ =>
       let cur2 := (io_seg l + 2)%Z in
       let '(ok4, os4) := os_create_new os3 (segment_path cur2) in
       if negb ok4 then (Err (EIo OsError), mkIoLog cur2 (io_writer l) (io_entries l) (io_segments l), os4)
       else (Ok tt, mkIoLog cur2 (mkWriter (segment_path cur2) []) 0 2,
             fold_left (λ o seg_num, os_remove o (segment_path seg_num)) segs (bw_drop (io_writer l) os4))
   end) = (r, l', os') →
  (∃ g', io_inv l' (os_dir os') (if is_ok r then snapshot else must) (may ++ snapshot) g') ∧
  (io_seg l ≤ io_seg l' ≤ io_seg l + 2)%Z.
Proof.
  intros Hi Hb Hp Hm He Hsegs. cbn zeta.
  assert (H0 : (0 ≤ io_seg l)%Z) by (pose proof (ii_range _ _ _ _ _ Hi) as [? _]%Forall_cons; lia).
  set (n1 := (io_seg l + 1)%Z). set (n2 := (io_seg l + 2)%Z). set (l1 := mkIoLog n1 _ _ _).
  destruct (os_create_new os (segment_path n1)) as [ok os2] eqn:E2. pose proof (os_create_new_spec _ _ _ _ E2) as Hd2.
  assert (Hkeep : ∀ seg dir, (io_seg l ≤ seg ≤ io_seg l + 2)%Z → dir = os_dir os → ∃ g',
    io_inv (mkIoLog seg (io_writer l) (io_entries l) (io_segments l)) dir must (may ++ snapshot) g').
  { intros seg dir Hs ->. exists g. eapply inv_may; [apply inv_handle; [done|lia]|set_solver]. }
  destruct ok; cbn [negb]; [|intros [= <- <- <-]; cbn; split; [apply Hkeep; [lia|done]|lia]].
  destruct (io_snapshot _ snapshot os2) as [r3 os3] eqn:E3.
  destruct (io_snapshot_spec _ _ _ _ _ ltac:(rewrite Hd2; apply lookup_insert_eq) E3) as (k & Hd3 & Hk).
  rewrite Hd2, insert_insert_eq in Hd3.
  destruct (inv_new_closed l (os_dir os) must may g n1 snapshot k l1 Hi) as (m & Hall & Hi3); [lia|done|done|done|].
  rewrite <- Hd3 in Hi3. destruct r3 as [[]|err]; [|intros [= <- <- <-]; cbn; split; [eauto|lia]].
  rewrite Hall in Hi3 by (by apply Hk). clear Hall Hk.
  destruct (os_create_new os3 (segment_path n2)) as [ok4 os4] eqn:E4. pose proof (os_create_new_spec _ _ _ _ E4) as Hd4.
  destruct ok4; cbn [negb]; intros [= <- <- <-]; cbn [is_ok io_seg]; (split; [|lia]).
  2:{ eexists. rewrite Hd4. apply (inv_handle _ _ _ _ _ n2 (io_entries l) (io_segments l) Hi3). cbn. lia. }
  set (l2 := mkIoLog n2 _ _ _).
  destruct (inv_new_live l1 _ _ _ _ n2 l2 Hi3) as [_ Hi4]; [by cbn|cbn; lia|done|done|]. rewrite <- Hd4 in Hi4.
  pose proof (inv_must _ _ _ snapshot _ _ Hi4 ltac:(cbn; set_solver)) as Hi5.
  eapply inv_remove_all with (snap := (n1, snapshot)).
  - rewrite bw_drop_empty; [exact Hi5| |done]. rewrite Hd4. apply lookup_insert_is_Some'. right.
    apply (ii_present _ _ _ _ _ Hi3).
  - done.
  - eapply Forall_impl; [exact Hsegs|]. cbn. unfold in_range. lia.
Qed.

Lemma inv_compact l os must may g snapshot r l' os' :
  io_inv l (os_dir os) must may g → (io_seg l + 2 ≤ u64_max)%Z → Forall enc_ok snapshot →
  io_compact l snapshot os = (r, l', os') →
  (∃ g', io_inv l' (os_dir os') (if is_ok r then snapshot else must) (may ++ snapshot) g') ∧
  (io_seg l ≤ io_seg l' ≤ io_seg l + 2)%Z.
Proof.
  intros Hi Hm He. unfold io_compact. destruct (os_call os) as [listed os0] eqn:E0.
  assert (Hd : os_dir os0 = os_dir os) by (unfold os_call in E0; destruct (os_calls os); by injection E0 as <- <-).
  rewrite <- Hd in Hi. assert (H0 : (0 ≤ io_seg l)%Z) by (pose proof (ii_range _ _ _ _ _ Hi) as [? _]%Forall_cons; lia).
  destruct listed; cbn [negb].
  2:{ intros [= <- <- <-]. cbn. split; [|lia]. exists g. eapply inv_may; [done|set_solver]. }
  destruct (bw_flush _ _) as [[r1 w1] os1] eqn:E1.
  destruct (inv_flush _ _ _ _ _ _ _ _ Hi E1 (io_entries l) (io_segments l)) as [Hi1 Hb].
  destruct r1 as [[]|err].
  2:{ intros [= <- <- <-]. cbn. split; [|lia]. exists g. eapply inv_may; [done|set_solver]. }
  specialize (Hb eq_refl). rewrite (u64_add_small (io_seg l)) by lia. rewrite u64_add_small by lia.
  replace (io_seg l + 1 + 1)%Z with (io_seg l + 2)%Z by lia. intros E.
  pose proof (inv_flushed _ _ _ _ _ [] Hi1 Hb ltac:(set_solver)) as Hi2. rewrite app_nil_r in Hi2.
  eapply (inv_compact_segments _ _ _ _ _ snapshot r l' os' (list_segments (os_dir os0)) Hi2); [done|done|done|done| |exact E].
  apply Forall_forall. intros n Hn. by apply (ii_below _ _ _ _ _ _ Hi).
Qed.

(** ** Death and restart *)

Lemma elem_of_seg_entries (segs segs' : list (Z * list LogEntry)) e :
  segs ≡ₚ segs' → e ∈ flat_map snd segs → e ∈ flat_map snd segs'.
Proof. intros HP. rewrite !elem_of_flat_map. setoid_rewrite HP. done. Qed.

(** What a process death leaves: the segments on disk, each with the entries that it
    replays as. *)
Record disk_inv (dir : Dir) (must may : list LogEntry) (top : Z) (segs : list (Z * list LogEntry)) : Prop := {
  di_names : list_segments dir = segs.*1;
  di_some : segs ≠ [];
  di_nodup : NoDup segs.*1;
  di_range : Forall (λ n, 0 ≤ n ≤ top)%Z segs.*1;
  di_top : (top ≤ u64_max)%Z;
  di_segs : Forall (seg_ok dir) segs;
  di_must : must ⊆ flat_map snd segs;
  di_may : flat_map snd segs ⊆ may;
}.

Lemma di_in_range dir must may top segs : disk_inv dir must may top segs → Forall in_range segs.*1.
Proof.
  intros Hd. eapply Forall_impl; [apply (di_range _ _ _ _ _ Hd)|]. cbn.
  pose proof (di_top _ _ _ _ _ Hd). unfold in_range. lia.
Qed.

Lemma inv_death l dir must may g :
  io_inv l dir must may g → ∃ segs, disk_inv dir must may (io_seg l) segs.
Proof.
  intros Hi. destruct (ii_torn _ _ _ _ _ Hi) as [n Hlive]. pose proof (ii_seg _ _ _ _ _ Hi) as Hseg.
  destruct Hi as [I1 I2 I3 _ I5 _ I7 _ I9 I10].
  set (live := (g_live g, g_durable g ++ take n (g_pending g))%list) in *.
  change (g_numbers g) with (live :: g_closed g).*1 in *.
  destruct (Permutation_map_inv fst (live :: g_closed g) I1) as (segs & Hsegs & HP).
  change (map fst segs) with segs.*1 in Hsegs.
  assert (HPn : segs.*1 ≡ₚ (live :: g_closed g).*1) by (by rewrite HP). rewrite <- HPn in I2, I3.
  assert (HR : ∀ e, e ∈ flat_map snd segs ↔ e ∈ flat_map snd (live :: g_closed g)).
  { intros e. split; apply elem_of_seg_entries; [by symmetry|done]. }
  assert (Htake : take n (g_pending g) ⊆ g_pending g) by (intros x Hx; by eapply elem_of_sublist, sublist_take).
  exists segs. split; try done.
  - intros ->. by symmetry in HP; apply Permutation_nil_cons in HP.
  - rewrite <- HP. by apply Forall_cons.
  - intros e He%I9. apply HR. unfold live. cbn. set_solver.
  - intros e He%HR. apply I10. unfold live in He. cbn in He. set_solver.
Qed.

Lemma segs_unique (segs : list (Z * list LogEntry)) s s' :
  NoDup segs.*1 → s ∈ segs → s' ∈ segs → s.1 = s'.1 → s = s'.
Proof.
  intros Hnd [i Hi]%list_elem_of_lookup [j Hj]%list_elem_of_lookup E.
  assert (i = j) as -> by (eapply (NoDup_lookup _ _ _ s.1 Hnd); rewrite list_lookup_fmap; [by rewrite Hi|by rewrite Hj, E]).
  congruence.
Qed.

(** Replaying a segment heals it, and changes nothing of this. *)
Lemma disk_replay dir must may top segs n es dir' :
  disk_inv dir must may top segs → n ∈ segs.*1 → replay_segment dir (segment_path n) = Ok (es, dir') →
  disk_inv dir' must may top segs.
Proof.
  intros Hi Hn E. pose proof (di_in_range _ _ _ _ _ Hi) as Hr. destruct Hi as [I1 I2 I3 I4 I5 I6 I7 I8].
  apply list_elem_of_fmap in Hn as (s & -> & Hs). rewrite Forall_forall in I6.
  pose proof (I6 s Hs) as (tail & Hd & Ht & Hes). rewrite (replay_segment_records dir _ s.2 tail) in E by done.
  injection E as <- <-. split; try done.
  - by rewrite (list_segments_insert_present _ _ _ _ Hd).
  - apply Forall_forall. intros s' Hs'. destruct (decide (s'.1 = s.1)) as [Heq|Hne].
    + assert (s' = s) as -> by (by eapply segs_unique).
      exists []. rewrite lookup_insert_eq, app_nil_r. split_and!; [done|by apply stops_nil|done].
    + rewrite Forall_forall in Hr. apply seg_ok_other; [apply Hr..|done|by apply I6];
        apply list_elem_of_fmap; eauto.
Qed.

(** [open] on what a death leaves: all that was acknowledged, nothing that was not
    given, and a directory on which the log goes on. *)
Lemma disk_open dir must may top segs :
  disk_inv dir must may top segs →
  ∃ l' dir' g', log_open dir = Ok (l', flat_map snd segs, dir') ∧
    io_inv (of_log l') dir' must may g' ∧ (current_seg l' ≤ top)%Z.
Proof.
  intros Hi. pose proof (di_in_range _ _ _ _ _ Hi) as Hr. destruct Hi as [Hsegs Hne I2 I3 Hseg Hok Hmust Hmay].
  destruct (replay_all_ok segs dir I2 Hr Hok) as (c & dir' & Hreplay & Hls & Hall & _).
  destruct segs as [|[last es] segs _] using rev_ind; [done|].
  assert (Hlast : dir' !! segment_path last = Some (records es)).
  { apply Forall_app in Hall as [_ Hall]. by rewrite Forall_singleton in Hall. }
  rewrite fmap_app in *. cbn [fmap list_fmap fst] in *.
  assert (Hcur : (0 ≤ last ≤ top)%Z) by (apply Forall_app in I3 as [_ I3]; by rewrite Forall_singleton in I3).
  unfold log_open. rewrite Hsegs, Hreplay. cbn [result_bind]. rewrite last_snoc. cbn [default from_option id].
  change (default 0%Z (Some last)) with last. rewrite Hlast.
  eexists _, dir', (mkGhost last segs es []). split; [done|]. split; [|cbn; lia].
  apply Forall_app in Hall as [Hall _]. apply Forall_app in Hok as [Hok [(tail & _ & _ & Hes) _]%Forall_cons].
  assert (HN : last :: segs.*1 ≡ₚ (segs.*1 ++ [last])%list) by apply Permutation_cons_append.
  split; unfold g_numbers; cbn; rewrite ?HN; try done.
  - by rewrite Hls, Hsegs.
  - apply Forall_forall. intros m Hm. split; [rewrite Forall_forall in I3; by apply I3|].
    assert (Hso : StronglySorted Z.le (segs.*1 ++ [last])) by (rewrite <- Hsegs; apply list_segments_sorted).
    apply elem_of_app in Hm as [Hm|Hm%list_elem_of_singleton]; [|lia].
    apply (StronglySorted_app_1_elem_of Z.le _ _ m last Hso Hm). by left.
  - lia.
  - rewrite Forall_forall in Hall, Hok |- *. intros s Hs. exists [].
    rewrite app_nil_r. split_and!; [by apply Hall|by apply stops_nil|]. by destruct (Hok s Hs) as (? & _ & _ & ?).
  - exists []. by rewrite app_nil_r.
  - by rewrite app_nil_r.
  - rewrite flat_map_app in Hmust. cbn in Hmust. by rewrite app_nil_r in Hmust.
  - rewrite flat_map_app in Hmay. cbn in Hmay. by rewrite app_nil_r in Hmay |- *.
Qed.

(** ** Histories keep the invariant *)

(** Segment numbers up to [top]; the process runs on its log, or is down. *)
Definition h_inv (top : Z) (h : History) : Prop :=
  match h_log h with
  | Some l => (io_seg l ≤ top)%Z ∧ ∃ g, io_inv l (os_dir (h_os h)) (h_must h) (h_may h) g
  | None => ∃ segs, disk_inv (os_dir (h_os h)) (h_must h) (h_may h) top segs
  end.

Lemma disk_inv_top dir must may top top' segs :
  disk_inv dir must may top segs → (top ≤ top' ≤ u64_max)%Z → disk_inv dir must may top' segs.
Proof.
  intros [I1 I2 I3 I4 I5 I6 I7 I8] Ht. split; try done; [|lia].
  eapply Forall_impl; [exact I4|]. cbn. lia.
Qed.

Lemma h_inv_disk top h :
  h_inv top h → (top ≤ u64_max)%Z → ∃ segs, disk_inv (os_dir (h_os h)) (h_must h) (h_may h) top segs.
Proof.
  unfold h_inv. destruct (h_log h) as [l|]; [|done]. intros [Hl [g Hi]] Ht.
  destruct (inv_death _ _ _ _ _ Hi) as [segs Hd]. exists segs. by eapply disk_inv_top; [exact Hd|].
Qed.

Lemma log_start_inv ws rs cs : h_inv 0 (log_start ws rs cs).
Proof.
  split; [done|]. exists (mkGhost 0 [] [] []). split; cbn; try done.
  - by apply NoDup_singleton.
  - by apply Forall_singleton.
  - by exists [].
Qed.

Lemma restart_inv top h :
  h_inv top h → readable (h_os h) → (top ≤ u64_max)%Z → h_inv top (log_step h LRestart).
Proof.
  intros Hi Hr Ht. destruct (h_inv_disk _ _ Hi Ht) as [segs Hd]. unfold log_step.
  destruct (io_open (h_os h)) as [r os] eqn:E.
  destruct (io_open_spec (λ dir, disk_inv dir (h_must h) (h_may h) top segs) _ _ _
    ltac:(intros n dir es dir' Hn Hdi; eapply disk_replay; [exact Hdi|by rewrite <- (di_names _ _ _ _ _ Hd)]) Hd E Hr)
    as [_ Ho].
  destruct r as [[l es]|e]; cbn; [|by exists segs]. destruct Ho as (l0 & -> & Ho).
  destruct (disk_open _ _ _ _ _ Hd) as (l' & dir' & g' & Ho' & Hi' & Hs).
  rewrite Ho in Ho'. injection Ho' as -> _ ->. split; [done|by exists g'].
Qed.

Lemma log_step_inv top h op :
  h_inv top h → contained h op → (top + 2 ≤ u64_max)%Z → h_inv (top + 2) (log_step h op).
Proof.
  intros Hi Hc Hm.
  assert (Hup : ∀ h', h_inv top h' → h_inv (top + 2) h').
  { unfold h_inv. intros h'. destruct (h_log h'); [intros [? ?]; split; [lia|done]|].
    intros [segs Hd]. exists segs. eapply disk_inv_top; [exact Hd|lia]. }
  destruct op as [e|snapshot|]; [..|apply Hup, restart_inv; [done|by destruct (h_log h)|lia]];
    unfold contained, log_step in *; (destruct (h_log h) as [l|] eqn:El; [|by apply Hup]);
    unfold h_inv in Hi; rewrite El in Hi; destruct Hi as [Hl [g Hi]].
  - destruct Hc as [He Hfit]. destruct (io_append _ _ _) as [[r l'] os'] eqn:E. cbn [fst] in Hfit.
    destruct (inv_append _ _ _ _ _ _ _ _ _ Hi ltac:(lia) He E Hfit) as [[g' Hi'] Hs].
    split; [cbn; lia|by exists g'].
  - destruct (io_compact _ _ _) as [[r l'] os'] eqn:E.
    destruct (inv_compact _ _ _ _ _ _ _ _ _ Hi ltac:(lia) Hc E) as [[g' Hi'] Hs]. split; [cbn; lia|by exists g'].
Qed.

Lemma log_run_inv top h ops :
  h_inv top h → contained_run h ops → (top + 2 * Z.of_nat (length ops) ≤ u64_max)%Z →
  h_inv (top + 2 * Z.of_nat (length ops)) (log_run h ops).
Proof.
  revert top h. induction ops as [|op ops IH]; intros top h Hi Hc Hm.
  { cbn in *. by rewrite Z.add_0_r. }
  destruct Hc as [Hc Hcs]. cbn [length] in *.
  pose proof (log_step_inv top h op Hi Hc ltac:(lia)) as Hi'.
  replace (top + 2 * Z.of_nat (S (length ops)))%Z with (top + 2 + 2 * Z.of_nat (length ops))%Z by lia.
  apply IH; [done|done|lia].
Qed.

(** Nothing newer of the key of [e] was ever given to the log, a copy of [e] aside. *)
Definition newest_given (given : list LogEntry) (e : LogEntry) : Prop :=
  ∀ e', e' ∈ given → le_key e' = le_key e → (le_version e ≤ le_version e')%Z →
    le_version e' = le_version e ∧ le_value e' = le_value e.

End Histories.

(** ** Examples *)

Module FaultExamples.
Import ToyCodec PersistExamples.

(** The first append writes three bytes and fails; the second succeeds and flushes
    both; a compaction cannot create its segment; the process dies; its first start
    cannot list the directory, the second succeeds. *)
Definition faults : list WriteOutcome := [Wrote 3; Failed; Interrupted].
Definition refusals : list bool := [true; false; true; false].
Definition bumpy : list LogOp :=
  [LAppend (toy_entry 1); LAppend (toy_entry 2); LCompact [toy_entry 2]; LRestart; LAppend (toy_entry 9);
   LRestart; LAppend (toy_entry 3)].

(** Three appends and a restart in which the read of the second record fails. *)
Definition flaky_read : History :=
  @log_run codec (log_start [] [true; false] [])
    [LAppend (toy_entry 1); LAppend (toy_entry 2); LAppend (toy_entry 3); LRestart].

(** Records of nine kilobytes: larger than the buffer. *)
Definition big_codec : EntryCodec := {|
  entry_to_vec e := let? bs := @entry_to_vec codec e in Ok (bs ++ replicate (Z.to_nat 9000) x00)%list;
  entry_from_slice bs :=
    if (blen bs =? 9004)%Z && forallb (Byte.eqb x00) (drop 4 bs) then @entry_from_slice codec (take 4 bs) else Err "trailing bytes";
|}.

Definition torn_run : History :=
  @log_run big_codec (log_start [Wrote 4; Wrote 100; Failed] [] []) [LAppend (toy_entry 1); LAppend (toy_entry 2)].
End FaultExamples.
Import ToyCodec PersistExamples FaultExamples.


(** A read error at start-up. [replay_segment] takes an error of the system while it reads
    a record for a record cut short by a crash: it stops there, and truncates the
    segment.  One failing read and the acknowledged entries from that record on are
    gone for good, although the server has started without an error. *)
Theorem read_error_truncates_log :
  is_Some (h_log flaky_read) ∧ h_must flaky_read = [toy_entry 1; toy_entry 2; toy_entry 3] ∧
  os_dir (h_os flaky_read) !! segment_path 0 = Some (@records codec [toy_entry 1]).
Proof. split_and!; vm_compute; [by eexists|reflexivity..]. Qed.

(** A torn record. The append of a record larger than the [BufWriter] fails after part
    of its bytes reached the file; [append] reports the error and leaves them there.
    The next append succeeds, but [open] reads the torn record's length, takes the
    bytes of the next record for its payload, and drops both: an acknowledged entry
    is lost. *)
Theorem torn_append_loses_later_entries :
  h_must torn_run = [toy_entry 2] ∧
  ∃ l dir, @log_open big_codec (os_dir (h_os torn_run)) = Ok (l, [], dir).
Proof.
  split; [vm_compute; reflexivity|].
  destruct (@log_open big_codec (os_dir (h_os torn_run))) as [[[l es] dir]|err] eqn:E.
  - exists l, dir. replace es with ([] : list LogEntry); [done|].
    enough (Hes : (match @log_open big_codec (os_dir (h_os torn_run)) with Ok (_, es, _) => es | Err _ => [] end) = []).
    { by rewrite E in Hes. }
    vm_compute. reflexivity.
  - assert (Ho : is_ok (@log_open big_codec (os_dir (h_os torn_run))) = true) by (vm_compute; reflexivity).
    by rewrite E in Ho.
Qed.
