(* ===== verification/PersistRace.v ===== *)
(** * Concurrent writes to a persistent store (src/src/state.rs)

    [apply] and [delete] of a persistent store, access by access: the version
    counter, the reads and writes of the map, the in-memory delta log, the append to
    the on-disk log under its mutex, and, when the log asks for it, a compaction whose
    snapshot is taken BEFORE the mutex is.  Calls start at any time and interleave
    between the accesses.

    The snapshot is one step here.  [DashMap::iter] visits the map shard by
    shard; where the theorem below excludes writes to the map between a snapshot and
    its compaction, the two are the same. *)

From S2P Require Import Prelude RustStr Json JsonPath Delta Log Store StoreRace StorePersist.

Local Open Scope string_scope.

(** ** One call, access by access *)

Inductive PCall : Type :=
| PStart (key : string) (v : Value)                                  (* [apply] *)
| PVersion (key : string) (v : Value) (version : Z)
| PDiffed (key : string) (v : Value) (version : Z) (ops : list DeltaOp)
| DStart (key : string)                                              (* [delete] *)
| DRemoved (key : string)
| PLog (e : LogEntry)                  (* before the in-memory delta log *)
| PAppend (e : LogEntry)               (* before the mutex of the on-disk log *)
| PSnapshot (res : option (Z * list DeltaOp))   (* in [compact_plog], before the snapshot *)
| PCompact (snap : list LogEntry) (res : option (Z * list DeltaOp))   (* before the mutex *)
| PDone (res : option (Z * list DeltaOp)).      (* what the call returned *)

Definition logged (e : LogEntry) : option (Z * list DeltaOp) := Some (le_version e, le_ops e).

Definition with_version (s : StateStore) (version : Z) : StateStore :=
  mkStore (st_entries s) version (st_log s) (st_plog s) (st_disk s).

Definition with_plog (s : StateStore) (l : SegmentedLog) (disk : Dir) : StateStore :=
  mkStore (st_entries s) (st_version s) (st_log s) (Some l) disk.

Section Calls.
Context `{EntryCodec, HashOrder}.

Definition padvance (s : StateStore) (c : PCall) : StateStore * PCall :=
  match c with
  | PStart key v =>
      let version := u64_add (st_version s) 1 in
      (with_version s version, PVersion key v version)
  | PVersion key v version => (s, PDiffed key v version (apply_emits s key v))
  | PDiffed key v version ops =>
      (with_entries s (<[key := mkEntry version v]> (st_entries s)),
       match ops with [] => PDone (Some (version, [])) | _ => PLog (mkLogEntry version key ops v) end)
  | DStart key =>
      match store_get s key with
      | None => (s, PDone None)
      | Some _ => (with_entries s (delete key (st_entries s)), DRemoved key)
      end
  | DRemoved key =>
      let version := u64_add (st_version s) 1 in
      (with_version s version, PLog (mkLogEntry version key [delta_remove "/"] VNull))
  | PLog e =>
      (mkStore (st_entries s) (st_version s) (dlog_append (st_log s) (le_key e) (le_version e) (le_ops e))
         (st_plog s) (st_disk s),
       match st_plog s with None => PDone (logged e) | Some _ => PAppend e end)
  | PAppend e =>
      match st_plog s with
      | None => (s, PDone (logged e))
      | Some l =>
          let '(_, l', disk') := log_append l (st_disk s) e in
          (with_plog s l' disk', if needs_compact l' then PSnapshot (logged e) else PDone (logged e))
      end
  | PSnapshot res => (s, PCompact (snapshot s) res)
  | PCompact snap res =>
      match st_plog s with
      | None => (s, PDone res)
      | Some l => let '(_, l', disk') := log_compact l (st_disk s) snap in (with_plog s l' disk', PDone res)
      end
  | PDone res => (s, PDone res)
  end.

(** The shared store and the calls made so far. *)
Record PRace : Type := mkPRace {
  pr_store : StateStore;
  pr_calls : list PCall;
}.

Inductive PAct : Type :=
| Begin (c : PCall)        (* a call starts *)
| Step (i : nat).          (* call [i] makes its next access *)

Definition pact (r : PRace) (a : PAct) : PRace :=
  match a with
  | Begin c => mkPRace (pr_store r) (pr_calls r ++ [c])
  | Step i =>
      match pr_calls r !! i with
      | Some c => let '(s', c') := padvance (pr_store r) c in mkPRace s' (<[i := c']> (pr_calls r))
      | None => r
      end
  end.

Definition prace (r : PRace) (acts : list PAct) : PRace := fold_left pact acts r.

(** ** A call that runs alone is [apply], or [delete] *)

Definition steps (n : nat) : list PAct := repeat (Step 0) n.

Lemma done_stays s n res : prace (mkPRace s [PDone res]) (steps n) = mkPRace s [PDone res].
Proof. induction n as [|n IH]; [done|exact IH]. Qed.

Ltac one_call := cbn [steps repeat Nat.add prace fold_left pact pr_calls pr_store lookup list_lookup padvance insert
  list_insert with_plog with_version with_entries st_entries st_version st_log st_plog st_disk].

(** The part that [apply] and [delete] share. *)
Lemma log_alone es ver log plog disk e n :
  prace (mkPRace (mkStore es ver log plog disk) [PLog e]) (steps (4 + n)) =
  mkPRace (persist (mkStore es ver (dlog_append log (le_key e) (le_version e) (le_ops e)) plog disk) e) [PDone (logged e)].
Proof.
  unfold persist. one_call. destruct plog as [l|]; [|apply (done_stays _ (S (S (S n))) _)]. one_call.
  destruct (log_append l disk e) as [[r l'] disk']. destruct (needs_compact l'); [|apply (done_stays _ (S (S n)) _)].
  one_call. unfold compact_plog, snapshot. one_call.
  destruct (log_compact _ _ _) as [[r2 l2] disk2]. apply (done_stays _ n _).
Qed.

(** The accesses refine the operations. A call that runs without interruption returns
    what [apply] and [delete] of Store.v return and leaves the store they leave. *)
Theorem alone_persists s key v :
  prace (mkPRace s [PStart key v]) (steps 7) =
    mkPRace (store_apply s key v).2 [PDone (Some (store_apply s key v).1)] ∧
  prace (mkPRace s [DStart key]) (steps 7) = mkPRace (store_delete s key).2 [PDone (store_delete s key).1].
Proof.
  destruct s as [es ver log plog disk]. split.
  - unfold store_apply. one_call. unfold apply_emits, store_get. one_call.
    destruct (match es !! key with Some _ => _ | None => _ end) as [|op ops]; [apply (done_stays _ 4 _)|].
    apply (log_alone _ _ _ _ _ (mkLogEntry (u64_add ver 1) key (op :: ops) v) 0).
  - unfold store_delete, store_get. one_call. unfold store_get. one_call.
    destruct (es !! key); [|apply (done_stays _ 6 _)].
    apply (log_alone _ _ _ _ _ (mkLogEntry (u64_add ver 1) key [delta_remove "/"] VNull) 1).
Qed.
End Calls.

(** ** The invariant *)

Definition call_key (c : PCall) : option string :=
  match c with
  | PStart k _ | PVersion k _ _ | PDiffed k _ _ _ | DStart k | DRemoved k => Some k
  | PLog e | PAppend e => Some (le_key e)
  | PSnapshot _ | PCompact _ _ | PDone _ => None
  end.

(** The key whose stored entry a call has changed and not yet logged. *)
Definition dirty (c : PCall) : option string :=
  match c with DRemoved k => Some k | PLog e | PAppend e => Some (le_key e) | _ => None end.

Definition compacting (c : PCall) : bool := match c with PCompact _ _ => true | _ => false end.

(** What the log [L] says of key [k] is what the store holds. *)
Definition settled (s : StateStore) (L : list LogEntry) (k : string) : Prop :=
  match store_get s k with
  | Some x => ∃ e, is_latest L k e ∧ le_value e ≡ se_value x ∧ (le_version e ≤ se_version x)%Z
  | None => ∀ e, is_latest L k e → le_value e = VNull
  end.

(** Version [n] is above everything the store and the log have of [k]. *)
Definition fresh_for (s : StateStore) (L : list LogEntry) (k : string) (n : Z) : Prop :=
  (0 ≤ n ≤ st_version s)%Z ∧ (∀ x, store_get s k = Some x → se_version x < n)%Z ∧
  (∀ e, e ∈ L → le_key e = k → le_version e < n)%Z.

(** [e] may become the newest entry of its key, whose stored entry it describes. *)
Definition describes (s : StateStore) (L : list LogEntry) (e : LogEntry) : Prop :=
  (0 ≤ le_version e ≤ st_version s)%Z ∧
  (∀ e', e' ∈ L → le_key e' = le_key e →
     (le_version e' ≤ le_version e)%Z ∧ (le_version e' = le_version e → le_value e' = le_value e)) ∧
  match store_get s (le_key e) with
  | Some x => x = mkEntry (le_version e) (le_value e)
  | None => le_value e = VNull
  end.

(** Entries of one key and version have one value. *)
Definition ties_agree (L : list LogEntry) : Prop :=
  ∀ e1 e2, e1 ∈ L → e2 ∈ L → le_key e1 = le_key e2 → le_version e1 = le_version e2 →
    le_value e1 = le_value e2.

Section Invariant.
Context `{EntryCodec, HashOrder}.

Definition call_ok (s : StateStore) (L : list LogEntry) (c : PCall) : Prop :=
  match c with
  | PStart _ v => wf_value v = true
  | PVersion k v n => wf_value v = true ∧ fresh_for s L k n
  | PDiffed k v n ops => wf_value v = true ∧ fresh_for s L k n ∧ ops = apply_emits s k v
  | DRemoved k => store_get s k = None
  | PLog e | PAppend e => describes s L e
  | PCompact snap _ => snap = snapshot s
  | DStart _ | PSnapshot _ | PDone _ => True
  end.

Record prace_inv (r : PRace) (L : list LogEntry) : Prop := {
  pv_log : ∃ l old es, st_plog (pr_store r) = Some l ∧ log_inv l (st_disk (pr_store r)) old es ∧
             L = log_entries old es;
  pv_version : (0 ≤ st_version (pr_store r) ≤ u64_max)%Z;
  pv_entries : ∀ k x, store_get (pr_store r) k = Some x →
    (0 ≤ se_version x ≤ st_version (pr_store r))%Z ∧ wf_value (se_value x) = true;
  pv_range : ∀ e, e ∈ L → (0 ≤ le_version e ≤ st_version (pr_store r))%Z;
  pv_ties : ties_agree L;
  pv_keys : ∀ i j ci cj k, pr_calls r !! i = Some ci → pr_calls r !! j = Some cj →
    call_key ci = Some k → call_key cj = Some k → i = j;
  pv_calls : ∀ i c, pr_calls r !! i = Some c → call_ok (pr_store r) L c;
  pv_settled : ∀ k, (∀ c, c ∈ pr_calls r → dirty c ≠ Some k) → settled (pr_store r) L k;
}.

(** What store and log have of [k] is unchanged. *)
Definition same_at (s : StateStore) (L : list LogEntry) (s' : StateStore) (L' : list LogEntry) (k : string) : Prop :=
  store_get s' k = store_get s k ∧ ∀ e, le_key e = k → e ∈ L' ↔ e ∈ L.

Lemma settled_same s L s' L' k : same_at s L s' L' k → settled s L k → settled s' L' k.
Proof.
  intros [Hg HL]. assert (Hlat : ∀ e, is_latest L' k e ↔ is_latest L k e).
  { intros e. unfold is_latest. split; intros (He & Hk & Hm); (split_and!; [by apply HL|done|]);
      intros e' He' Hk'; apply Hm; [by apply HL|done|by apply HL|done]. }
  unfold settled. rewrite Hg. destruct (store_get s k); [|by setoid_rewrite Hlat].
  intros (e & He & ?). exists e. by rewrite Hlat.
Qed.

Lemma call_ok_same s L s' L' c :
  call_ok s L c → (st_version s ≤ st_version s')%Z →
  (∀ k, call_key c = Some k → same_at s L s' L' k) →
  (compacting c = true → snapshot s' = snapshot s) → call_ok s' L' c.
Proof.
  intros Hc Hv Hs Hsnap.
  assert (Hf : ∀ k n, call_key c = Some k → fresh_for s L k n → fresh_for s' L' k n).
  { intros k n [Hg HL]%Hs (Hn & Hx & He). split_and!; [lia|lia|by rewrite Hg|].
    intros e Hin Hk. apply He; [by apply HL|done]. }
  assert (Hd : ∀ e, call_key c = Some (le_key e) → describes s L e → describes s' L' e).
  { intros e [Hg HL]%Hs (Hn & He & Hx). split_and!; [lia|lia| |by rewrite Hg].
    intros e' Hin Hk. apply He; [by apply HL|done]. }
  destruct c; cbn in *; try done.
  - destruct Hc. eauto.
  - destruct Hc as (? & ? & ->). split_and!; eauto. unfold apply_emits. by destruct (Hs _ eq_refl) as [-> _].
  - by destruct (Hs _ eq_refl) as [-> _].
  - eauto.
  - eauto.
  - by rewrite Hsnap.
Qed.

(** A step of call [i] that leaves the other keys alone. *)
Lemma inv_step r L i c s' c' L' :
  prace_inv r L → pr_calls r !! i = Some c →
  (∃ l old es, st_plog s' = Some l ∧ log_inv l (st_disk s') old es ∧ L' = log_entries old es) →
  (st_version (pr_store r) ≤ st_version s' ≤ u64_max)%Z →
  (∀ k x, store_get s' k = Some x → (0 ≤ se_version x ≤ st_version s')%Z ∧ wf_value (se_value x) = true) →
  (∀ e, e ∈ L' → 0 ≤ le_version e ≤ st_version s')%Z → ties_agree L' →
  (call_key c' = call_key c ∨ call_key c' = None) →
  (∀ k, call_key c ≠ Some k → same_at (pr_store r) L s' L' k) →
  (snapshot s' = snapshot (pr_store r) ∨ ∀ d, d ∈ pr_calls r → compacting d = false) →
  call_ok s' L' c' →
  (∀ k, call_key c = Some k → dirty c' ≠ Some k →
     (dirty c ≠ Some k → settled (pr_store r) L k) → settled s' L' k) →
  prace_inv (mkPRace s' (<[i := c']> (pr_calls r))) L'.
Proof.
  intros [V1 V2 V3 V4 V5 V6 V7 V8] Hi Hlog Hv Hent Hrange Hties Hkey Hsame Hsnap Hok Hset.
  assert (Hl : i < length (pr_calls r)) by (by eapply lookup_lt_Some).
  assert (Hcalls : ∀ j d, <[i := c']> (pr_calls r) !! j = Some d →
    (j = i ∧ d = c') ∨ (j ≠ i ∧ pr_calls r !! j = Some d)).
  { intros j d Hj. destruct (decide (j = i)) as [->|Hne]; [|rewrite list_lookup_insert_ne in Hj by done; by right].
    left. rewrite list_lookup_insert_eq in Hj by done. by injection Hj as <-. }
  assert (Hother : ∀ j d k, pr_calls r !! j = Some d → j ≠ i → call_key d = Some k → call_key c ≠ Some k).
  { intros j d k Hj Hne Hd Hck. by apply Hne, (V6 j i d c k). }
  split; cbn; try done; [lia| | |].
  - intros a b ca cb k Ha Hb Hka Hkb. destruct (Hcalls _ _ Ha) as [[-> ->]|[Hna Ha']], (Hcalls _ _ Hb) as [[-> ->]|[Hnb Hb']]; try done.
    + destruct Hkey as [E|E]; rewrite E in Hka; [|done]. by destruct (Hother b cb k Hb' Hnb Hkb).
    + destruct Hkey as [E|E]; rewrite E in Hkb; [|done]. by destruct (Hother a ca k Ha' Hna Hka).
    + by eapply V6.
  - intros j d Hj. destruct (Hcalls _ _ Hj) as [[-> ->]|[Hne Hj']]; [done|].
    eapply call_ok_same; [by eapply V7|lia|intros k Hd; by apply Hsame; eapply Hother|].
    intros Hcd. destruct Hsnap as [|Hno]; [done|]. rewrite Hno in Hcd; [done|]. by eapply list_elem_of_lookup_2.
  - intros k Hd. assert (Hdo : ∀ j d, pr_calls r !! j = Some d → j ≠ i → dirty d ≠ Some k).
    { intros j d Hj Hne. apply Hd, (list_elem_of_lookup_2 _ j). by rewrite list_lookup_insert_ne. }
    assert (Hd' : dirty c' ≠ Some k) by (by apply Hd, (list_elem_of_lookup_2 _ i), list_lookup_insert_eq).
    assert (Hold : dirty c ≠ Some k → settled (pr_store r) L k).
    { intros Hdc. apply V8. intros d [j Hj]%list_elem_of_lookup_1. destruct (decide (j = i)) as [->|Hne]; [|by eapply Hdo].
      rewrite Hi in Hj. by injection Hj as <-. }
    destruct (decide (call_key c = Some k)) as [Ek|Ek]; [by apply Hset|].
    eapply settled_same; [by apply Hsame|]. apply Hold. intros E. apply Ek. destruct c; cbn in *; congruence.
Qed.

(** ** Which steps are allowed *)

(** Room for the segment numbers of an append and a compaction. *)
Definition room (s : StateStore) : Prop :=
  ∀ l, st_plog s = Some l → (current_seg l + 3 ≤ u64_max)%Z.

(** No key is written by two calls at once, the map is not written between a
    compaction's snapshot and the compaction, and what is logged can be encoded. *)
Definition pact_ok (r : PRace) (a : PAct) : Prop :=
  match a with
  | Begin c =>
      (∃ k, call_key c = Some k ∧ ∀ d, d ∈ pr_calls r → call_key d ≠ Some k) ∧
      match c with PStart _ v => wf_value v = true | DStart _ => True | _ => False end
  | Step i =>
      match pr_calls r !! i with
      | Some (PStart _ _ | DRemoved _) => (st_version (pr_store r) < u64_max)%Z
      | Some (PDiffed _ _ _ _ | DStart _) => ∀ d, d ∈ pr_calls r → compacting d = false
      | Some (PAppend e) => enc_ok e ∧ room (pr_store r)
      | Some (PCompact snap _) => Forall enc_ok snap ∧ room (pr_store r)
      | _ => True
      end
  end.

Fixpoint prace_ok (r : PRace) (acts : list PAct) : Prop :=
  match acts with [] => True | a :: acts' => pact_ok r a ∧ prace_ok (pact r a) acts' end.

(** The same as a computation. *)
Definition roomb (s : StateStore) : bool :=
  match st_plog s with Some l => (current_seg l + 3 <=? u64_max)%Z | None => true end.

Definition pact_okb (r : PRace) (a : PAct) : bool :=
  match a with
  | Begin c =>
      match call_key c with
      | Some k => forallb (λ d, bool_decide (call_key d ≠ Some k)) (pr_calls r)
      | None => false
      end && match c with PStart _ v => wf_value v | DStart _ => true | _ => false end
  | Step i =>
      match pr_calls r !! i with
      | Some (PStart _ _ | DRemoved _) => (st_version (pr_store r) <? u64_max)%Z
      | Some (PDiffed _ _ _ _ | DStart _) => forallb (λ d, negb (compacting d)) (pr_calls r)
      | Some (PAppend e) => bool_decide (enc_ok e) && roomb (pr_store r)
      | Some (PCompact snap _) => bool_decide (Forall enc_ok snap) && roomb (pr_store r)
      | _ => true
      end
  end.

Fixpoint prace_okb (r : PRace) (acts : list PAct) : bool :=
  match acts with [] => true | a :: acts' => pact_okb r a && prace_okb (pact r a) acts' end.

Lemma roomb_room s : roomb s = true → room s.
Proof. unfold roomb. intros Hr l Hl. rewrite Hl in Hr. by apply Z.leb_le. Qed.

Lemma pact_okb_ok r a : pact_okb r a = true → pact_ok r a.
Proof.
  destruct a as [c|i]; cbn [pact_okb pact_ok].
  - intros [Hk Hc]%andb_true_iff. split; [|by destruct c].
    destruct (call_key c) as [k|]; [|done]. exists k. split; [done|].
    intros d Hd. apply (forallb_elem _ _ d Hk) in Hd. by apply bool_decide_eq_true in Hd.
  - destruct (pr_calls r !! i) as [c|]; [|done]. destruct c; try done.
    + apply Z.ltb_lt.
    + intros Hn d Hd. apply (forallb_elem _ _ d Hn) in Hd. by apply negb_true_iff in Hd.
    + intros Hn d Hd. apply (forallb_elem _ _ d Hn) in Hd. by apply negb_true_iff in Hd.
    + apply Z.ltb_lt.
    + intros [He Hr]%andb_true_iff. apply bool_decide_eq_true in He. split; [done|by apply roomb_room].
    + intros [He Hr]%andb_true_iff. apply bool_decide_eq_true in He. split; [done|by apply roomb_room].
Qed.

Lemma prace_okb_ok r acts : prace_okb r acts = true → prace_ok r acts.
Proof.
  revert r. induction acts as [|a acts IH]; intros r; [done|]. intros [Ha Has]%andb_true_iff.
  split; [by apply pact_okb_ok|by apply IH].
Qed.

(** ** The steps keep the invariant *)

Lemma same_at_refl s L s' k : store_get s' k = store_get s k → same_at s L s' L k.
Proof. intros Hg. split; [done|]. done. Qed.

Lemma inv_version r L i c c' :
  prace_inv r L → pr_calls r !! i = Some c → (st_version (pr_store r) < u64_max)%Z →
  call_key c' = call_key c → (∀ k, dirty c' = dirty c ∨ dirty c' = Some k ∨ call_key c ≠ Some k) →
  let s' := with_version (pr_store r) (st_version (pr_store r) + 1) in
  call_ok s' L c' →
  prace_inv (mkPRace s' (<[i := c']> (pr_calls r))) L.
Proof.
  intros Hv Hi Hm Hkey Hdirty s' Hok. pose proof Hv as [V1 V2 V3 V4 V5 V6 V7 V8].
  eapply (inv_step r L i c); try done; cbn; [lia| | |by left|by left|].
  - intros k x Hx. destruct (V3 k x Hx). split; [lia|done].
  - intros e He. specialize (V4 e He). lia.
  - intros k Hk Hd Hset. destruct (Hdirty k) as [E|[E|E]]; [|done|done]. rewrite E in Hd.
    eapply settled_same; [by apply same_at_refl|by apply Hset].
Qed.

Lemma inv_insert r L i k v n ops :
  prace_inv r L → pr_calls r !! i = Some (PDiffed k v n ops) →
  (∀ d, d ∈ pr_calls r → compacting d = false) →
  prace_inv (mkPRace (with_entries (pr_store r) (<[k := mkEntry n v]> (st_entries (pr_store r))))
    (<[i := match ops with [] => PDone (Some (n, [])) | _ => PLog (mkLogEntry n k ops v) end]> (pr_calls r))) L.
Proof.
  intros Hv Hi Hcalm. pose proof Hv as [V1 V2 V3 V4 V5 V6 V7 V8].
  destruct (V7 i _ Hi) as (Hwf & (Hn & Hx & He) & Hops).
  set (s' := with_entries _ _). assert (Hget : store_get s' k = Some (mkEntry n v)) by (by apply lookup_insert_eq).
  assert (Hne : ∀ k', Some k ≠ Some k' → store_get s' k' = store_get (pr_store r) k').
  { intros k' Hk'. apply lookup_insert_ne. congruence. }
  eapply (inv_step r L i); try done; [cbn; lia| | | |by right| |].
  - intros k' x. destruct (decide (k = k')) as [<-|Hk'].
    + rewrite Hget. intros [= <-]. done.
    + rewrite Hne by congruence. apply V3.
  - by destruct ops; [right|left].
  - intros k' Hk'. by apply same_at_refl, Hne.
  - destruct ops; [done|]. split_and!; cbn [le_version le_key le_value]; [lia|unfold s'; cbn; lia| |by rewrite Hget].
    intros e' He' Hk'. specialize (He e' He' Hk'). lia.
  - intros k' [= <-] Hd Hset. specialize (Hset ltac:(done)). destruct ops; [|done].
    unfold settled in *. rewrite Hget. unfold apply_emits in Hops.
    destruct (store_get (pr_store r) k) as [x|] eqn:Ex; [|done]. symmetry in Hops.
    destruct (V3 k x Ex) as [_ Hwx]. apply diff_nil_equiv in Hops; [|done..].
    destruct Hset as (e & Hlat & Hval & Hle). exists e. cbn. specialize (Hx x eq_refl).
    split_and!; [done|by rewrite Hval|lia].
Qed.

Lemma inv_delete r L i k x :
  prace_inv r L → pr_calls r !! i = Some (DStart k) → store_get (pr_store r) k = Some x →
  (∀ d, d ∈ pr_calls r → compacting d = false) →
  prace_inv (mkPRace (with_entries (pr_store r) (delete k (st_entries (pr_store r))))
    (<[i := DRemoved k]> (pr_calls r))) L.
Proof.
  intros Hv Hi Hx Hcalm. pose proof Hv as [V1 V2 V3 V4 V5 V6 V7 V8].
  set (s' := with_entries _ _). assert (Hget : store_get s' k = None) by (by apply lookup_delete_eq).
  assert (Hne : ∀ k', Some k ≠ Some k' → store_get s' k' = store_get (pr_store r) k').
  { intros k' Hk'. apply lookup_delete_ne. congruence. }
  eapply (inv_step r L i); try done; [cbn; lia| |by left| |by right].
  - intros k' x'. destruct (decide (k = k')) as [<-|Hk']; [by rewrite Hget|].
    rewrite Hne by congruence. apply V3.
  - intros k' Hk'. by apply same_at_refl, Hne.
Qed.

Lemma race_inv_append r L i e l :
  prace_inv r L → pr_calls r !! i = Some (PAppend e) → st_plog (pr_store r) = Some l →
  enc_ok e → (current_seg l + 3 ≤ u64_max)%Z →
  let '(_, l', disk') := log_append l (st_disk (pr_store r)) e in
  ∃ L', prace_inv (mkPRace (with_plog (pr_store r) l' disk')
    (<[i := if needs_compact l' then PSnapshot (logged e) else PDone (logged e)]> (pr_calls r))) L'.
Proof.
  intros Hv Hi Hl He Hroom. pose proof Hv as [(l0 & old & es & Hl0 & Hlog & HL) V2 V3 V4 V5 V6 V7 V8].
  rewrite Hl in Hl0. injection Hl0 as <-. destruct (V7 i _ Hi) as (Hn & Hother & Hstored).
  destruct (log_append_ok l (st_disk (pr_store r)) old es e Hlog He ltac:(lia))
    as (l' & dir' & old' & es' & -> & Hlog' & Hents & _). rewrite <- HL in Hents.
  exists (L ++ [e])%list. set (c' := if needs_compact l' then _ else _).
  assert (Hc' : call_key c' = None ∧ dirty c' = None) by (unfold c'; by destruct (needs_compact l')).
  eapply (inv_step r L i); try done.
  - by exists l', old', es'.
  - cbn. lia.
  - cbn. intros e' [He'|He'%list_elem_of_singleton]%elem_of_app; [by apply V4|by subst].
  - intros e1 e2 [H1|H1%list_elem_of_singleton]%elem_of_app [H2|H2%list_elem_of_singleton]%elem_of_app Hk Hver; subst; [by apply V5| | |done].
    + by apply Hother.
    + symmetry. by apply Hother.
  - right. apply Hc'.
  - intros k Hk. split; [done|]. intros e' Hk'. rewrite elem_of_app, list_elem_of_singleton.
    split; [|by left]. intros [?| ->]; [done|]. cbn in Hk. congruence.
  - by left.
  - unfold c'. by destruct (needs_compact l').
  - intros k [= <-] _ _. assert (Hlat : is_latest (L ++ [e]) (le_key e) e).
    { split_and!; [apply elem_of_app; right; left|done|].
      intros e' [He'|He'%list_elem_of_singleton]%elem_of_app Hk'; [by apply Hother|by subst]. }
    unfold settled. change (store_get (with_plog _ _ _) (le_key e)) with (store_get (pr_store r) (le_key e)).
    destruct (store_get (pr_store r) (le_key e)) as [x|].
    + subst x. exists e. cbn. split_and!; [done|done|lia].
    + intros e' (Hin & Hk' & Hmax). specialize (Hmax e ltac:(apply elem_of_app; right; left) eq_refl).
      apply elem_of_app in Hin as [Hin| ->%list_elem_of_singleton]; [|done].
      destruct (Hother e' Hin Hk') as [Hle Heq]. rewrite Heq; [done|lia].
Qed.

(** A compaction with the snapshot of the current map: the log is the map. *)
Lemma snapshot_unique s e1 e2 :
  e1 ∈ snapshot s → e2 ∈ snapshot s → le_key e1 = le_key e2 → e1 = e2.
Proof.
  intros (k1 & x1 & H1 & ->)%elem_of_snapshot (k2 & x2 & H2 & ->)%elem_of_snapshot Hk.
  cbn in Hk. subst k2. congruence.
Qed.

Lemma call_ok_snapshot s L c : call_ok s L c → call_ok s (snapshot s) c.
Proof.
  assert (Hf : ∀ k n, fresh_for s L k n → fresh_for s (snapshot s) k n).
  { intros k n (Hn & Hx & _). split_and!; [lia|lia|done|].
    intros e (k' & x & Hx' & ->)%elem_of_snapshot Hk. cbn in *. subst k'. by apply Hx. }
  assert (Hd : ∀ e, describes s L e → describes s (snapshot s) e).
  { intros e (Hn & _ & Hx). split_and!; [lia|lia| |done].
    intros e' (k' & x & Hx' & ->)%elem_of_snapshot Hk. cbn in *. subst k'. rewrite Hx' in Hx. subst x. cbn. split; [lia|done]. }
  destruct c; cbn; naive_solver.
Qed.

Lemma settled_snapshot s k : settled s (snapshot s) k.
Proof.
  unfold settled. destruct (store_get s k) as [x|] eqn:Ex.
  - assert (Hin : mkLogEntry (se_version x) k [] (se_value x) ∈ snapshot s) by (apply elem_of_snapshot; eauto).
    eexists. split; [split_and!; [exact Hin|done|]|split; [done|cbn; lia]].
    intros e' He' Hk. by rewrite (snapshot_unique s _ _ He' Hin).
  - intros e (Hin & Hk & _). apply elem_of_snapshot in Hin as (k' & x & Hx & ->). cbn in Hk. congruence.
Qed.

Lemma inv_compaction r L i snap res l :
  prace_inv r L → pr_calls r !! i = Some (PCompact snap res) → st_plog (pr_store r) = Some l →
  Forall enc_ok snap → (current_seg l + 3 ≤ u64_max)%Z →
  let '(_, l', disk') := log_compact l (st_disk (pr_store r)) snap in
  ∃ L', prace_inv (mkPRace (with_plog (pr_store r) l' disk') (<[i := PDone res]> (pr_calls r))) L'.
Proof.
  intros Hv Hi Hl He Hroom. pose proof Hv as [(l0 & old & es & Hl0 & Hlog & HL) V2 V3 V4 V5 V6 V7 V8].
  rewrite Hl in Hl0. injection Hl0 as <-. pose proof (V7 i _ Hi) as Hsnap. cbn in Hsnap.
  destruct (log_compact_ok l (st_disk (pr_store r)) old es snap Hlog He ltac:(lia)) as (dir' & -> & Hlog').
  exists snap. assert (Hcalls : ∀ j d, <[i := PDone res]> (pr_calls r) !! j = Some d → d = PDone res ∨ pr_calls r !! j = Some d).
  { intros j d Hj. destruct (decide (j = i)) as [->|Hne]; [|rewrite list_lookup_insert_ne in Hj by done; by right].
    left. rewrite list_lookup_insert_eq in Hj by (by eapply lookup_lt_Some). by injection Hj. }
  set (s' := with_plog _ _ _). assert (Hs' : ∀ L c, call_ok (pr_store r) L c → call_ok s' L c).
  { intros L0 c Hc. eapply call_ok_same; [exact Hc|done|intros k _; by apply same_at_refl|done]. }
  split; cbn [pr_store pr_calls]; try done.
  - eexists _, _, _. split_and!; [done|exact Hlog'|]. unfold log_entries. cbn. by rewrite !app_nil_r.
  - subst snap. intros e (k & x & Hx & ->)%elem_of_snapshot. by apply V3 in Hx as [? _].
  - subst snap. intros e1 e2 H1 H2 Hk _. by rewrite (snapshot_unique _ _ _ H1 H2 Hk).
  - intros a b ca cb k Ha Hb Hka Hkb. destruct (Hcalls _ _ Ha) as [->|Ha'], (Hcalls _ _ Hb) as [->|Hb']; try done.
    by eapply V6.
  - intros j d Hj. destruct (Hcalls _ _ Hj) as [->|Hj']; [done|]. subst snap.
    by eapply Hs', call_ok_snapshot, V7.
  - intros k _. subst snap. apply (settled_snapshot s').
Qed.

(** A step that changes only the call, or the in-memory delta log. *)
Lemma inv_local r L i c c' s' :
  prace_inv r L → pr_calls r !! i = Some c →
  st_entries s' = st_entries (pr_store r) → st_version s' = st_version (pr_store r) →
  st_plog s' = st_plog (pr_store r) → st_disk s' = st_disk (pr_store r) →
  (call_key c' = call_key c ∨ call_key c' = None) →
  (∀ k, call_key c = Some k → dirty c' = dirty c) → call_ok s' L c' →
  prace_inv (mkPRace s' (<[i := c']> (pr_calls r))) L.
Proof.
  intros Hv Hi He Hver Hp Hd Hkey Hdirty Hok. pose proof Hv as [V1 V2 V3 V4 V5 V6 V7 V8].
  assert (Hget : ∀ k, store_get s' k = store_get (pr_store r) k) by (intros k; unfold store_get; by rewrite He).
  eapply (inv_step r L i c); try done; rewrite ?Hver; try done.
  - by rewrite Hp, Hd.
  - lia.
  - intros k x. rewrite Hget. apply V3.
  - left. unfold snapshot. by rewrite He.
  - intros k Hk Hdk Hset. eapply (settled_same (pr_store r) L); [by apply same_at_refl|]. apply Hset. by rewrite <- (Hdirty k).
Qed.

Lemma inv_begin r L c : prace_inv r L → pact_ok r (Begin c) → prace_inv (pact r (Begin c)) L.
Proof.
  intros [V1 V2 V3 V4 V5 V6 V7 V8] [(k0 & Hk0 & Hfresh) Hc]. split; cbn; try done.
  - intros i j ci cj k Hi Hj Hki Hkj.
    apply lookup_snoc_Some in Hi as [[_ Hi]|[-> <-]]; apply lookup_snoc_Some in Hj as [[_ Hj]|[-> <-]]; [by eapply V6| | |done].
    + exfalso. apply (Hfresh ci); [by eapply list_elem_of_lookup_2|congruence].
    + exfalso. apply (Hfresh cj); [by eapply list_elem_of_lookup_2|congruence].
  - intros i d [[_ Hi]|[-> <-]]%lookup_snoc_Some; [by eapply V7|]. by destruct c.
  - intros k Hd. apply V8. intros d Hin. apply Hd, elem_of_app. by left.
Qed.

Lemma pact_inv r L a : prace_inv r L → pact_ok r a → ∃ L', prace_inv (pact r a) L'.
Proof.
  intros Hv Ha. destruct a as [c|i]; [eexists; by apply inv_begin|]. cbn [pact pact_ok] in *.
  destruct (pr_calls r !! i) as [c|] eqn:Hi; [|by exists L]. pose proof Hv as [(l & _ & _ & Hl & _) V2 V3 V4 V5 V6 V7 V8].
  pose proof (V7 i c Hi) as Hok. destruct c as [k v|k v n|k v n ops|k|k|e|e|res|snap res|res]; cbn [padvance] in *.
  - rewrite u64_add_small by lia. exists L. eapply inv_version; try done; [by left|]. split; [done|].
    split_and!; [cbn; lia|cbn; lia| |]; [intros x Hx; apply V3 in Hx|intros e He _; apply V4 in He]; lia.
  - exists L. eapply inv_local; try done; [by left|]. destruct Hok. done.
  - exists L. by apply inv_insert.
  - destruct (store_get (pr_store r) k) as [x|] eqn:Ex.
    + exists L. by eapply inv_delete.
    + exists L. eapply inv_local; try done. by right.
  - rewrite u64_add_small by lia. exists L. eapply inv_version; try done.
    + intros k'. cbn. destruct (decide (k = k')) as [->|]; [by left|by left].
    + split_and!; cbn [le_version le_key le_value]; [lia|cbn; lia| |].
      * intros e' He' _. apply V4 in He'. lia.
      * change (store_get (with_version _ _) k) with (store_get (pr_store r) k). by rewrite Hok.
  - rewrite Hl. exists L. eapply inv_local; try done; by left.
  - rewrite Hl. destruct Ha as [He Hroom]. pose proof (race_inv_append r L i e l Hv Hi Hl He (Hroom l Hl)) as Hres.
    destruct (log_append _ _ _) as [[? l'] disk']. done.
  - exists L. eapply inv_local; try done; by left.
  - rewrite Hl. destruct Ha as [He Hroom]. pose proof (inv_compaction r L i snap res l Hv Hi Hl He (Hroom l Hl)) as Hres.
    destruct (log_compact _ _ _) as [[? l'] disk']. done.
  - exists L. eapply inv_local; try done; by left.
Qed.

Lemma prace_run_inv r L acts : prace_inv r L → prace_ok r acts → ∃ L', prace_inv (prace r acts) L'.
Proof.
  revert r L. induction acts as [|a acts IH]; intros r L Hv Ha; [by exists L|].
  destruct Ha as [Ha Has]. destruct (pact_inv r L a Hv Ha) as [L' Hv']. by eapply IH.
Qed.

Lemma persist_prace_inv s : persist_inv s → ∃ L, prace_inv (mkPRace s []) L.
Proof.
  intros [[I1 I2 I3] (l & old & es & Hl & Hlog & [C1 C2 C3 C4 C5])]. exists (log_entries old es).
  split; cbn; try done.
  - by exists l, old, es.
  - rewrite Forall_forall in C1. done.
  - intros e1 e2 H1 H2 Hk Hver. by rewrite (C4 e1 e2).
  - intros k _. apply C5.
Qed.

(** What [open] finds of a settled key. *)
Lemma settled_recovered `{VersionSort} r L :
  prace_inv r L → ∃ s', store_open (st_disk (pr_store r)) = Ok s' ∧
  ∀ k, settled (pr_store r) L k →
    match store_get (pr_store r) k with
    | Some x => ∃ x', store_get s' k = Some x' ∧ se_value x' ≡ se_value x
    | None => store_get s' k = None ∨ ∃ x', store_get s' k = Some x' ∧ se_value x' = VNull
    end.
Proof.
  intros [(l & old & es & Hl & Hlog & HL) _ _ _ Hties _ _ _]. unfold store_open.
  rewrite (log_reopen _ _ _ _ Hlog). cbn [result_bind]. rewrite <- HL. set (M := sort_by_version L).
  assert (HP : M ≡ₚ L) by apply sort_by_version_perm. pose proof (sort_by_version_sorted L) as Hs. fold M in Hs.
  pose proof (replay_entries_lookup M) as Hget. destruct (fold_left replay_entry M (∅, ∅)) as [entries log].
  eexists. split; [done|]. intros k Hk. unfold settled, store_get in *. cbn [st_entries fst] in *.
  rewrite Hget. destruct (last (of_key k M)) as [e|] eqn:El.
  - apply last_of_key_latest in El; [|done]. apply (is_latest_perm _ _ _ _ HP) in El. cbn.
    destruct (st_entries (pr_store r) !! k) as [x|].
    + destruct Hk as (e' & He' & Hval & _). eexists. split; [done|]. cbn. rewrite <- Hval.
      destruct El as (E1 & E2 & E3), He' as (E1' & E2' & E3').
      rewrite (Hties e e'); [done|done|done|congruence|]. specialize (E3 e' E1' E2'). specialize (E3' e E1 E2). lia.
    + right. eexists. split; [done|]. by apply Hk.
  - cbn. destruct (st_entries (pr_store r) !! k) as [x|]; [|by left]. destruct Hk as (e' & (Hin & Hk & _) & _).
    exfalso. eapply last_of_key_None; [exact El| |exact Hk]. by rewrite HP.
Qed.

(** C13. Concurrent writes and compaction. Writes and deletes of a persistent store start
    at any time and interleave access by access, through rotations and compactions.  If
    no two of them write one key at once, the map is not written between the snapshot of
    a compaction and the compaction, no file operation fails, no counter is exhausted and
    the codec reads back every entry that is logged (rmp_serde does not, for the entry of
    a delete or of a write that removes a field), then [StateStore::open] succeeds at any
    moment of the run and gives back every key that is not just being logged: its value
    in memory, or nothing or [null] where it is absent. *)
Theorem concurrent_writes_survive `{VersionSort} s0 acts :
  persisted s0 → prace_ok (mkPRace s0 []) acts →
  let r := prace (mkPRace s0 []) acts in
  ∃ s', store_open (st_disk (pr_store r)) = Ok s' ∧
  ∀ k, (∀ c, c ∈ pr_calls r → dirty c ≠ Some k) →
    match store_get (pr_store r) k with
    | Some x => ∃ x', store_get s' k = Some x' ∧ se_value x' ≡ se_value x
    | None => store_get s' k = None ∨ ∃ x', store_get s' k = Some x' ∧ se_value x' = VNull
    end.
Proof.
  intros Hp%persisted_inv Ha r. destruct (persist_prace_inv s0 Hp) as [L0 HL0].
  destruct (prace_run_inv _ _ acts HL0 Ha) as [L HL]. fold r in HL.
  destruct (settled_recovered r L HL) as (s' & Ho & Hs). exists s'. split; [done|].
  intros k Hk. by apply Hs, (pv_settled _ _ HL).
Qed.
End Invariant.

(** ** Examples *)

Module PersistRaceExamples.
Import ToyCodec PersistExamples.

(** Two writes and a delete of different keys, interleaved, to the end of each. *)
Definition mixed : list PAct :=
  [Begin (PStart "a" (num 1)); Begin (PStart "b" (num 2)); Step 1; Step 0; Step 0; Step 1; Step 0; Step 1; Step 1; Step 0;
   Begin (DStart "k"); Step 2; Step 1; Step 2; Step 0; Step 2; Step 2; Step 2; Step 2].

(** A directory with four segments, small ones standing for full ones: the next append
    asks for compaction. *)
Definition four_segments : Dir :=
  {[ segment_path 0 := @records codec [toy_entry 1]; segment_path 1 := []; segment_path 2 := []; segment_path 3 := [] ]}.

Definition four_store : StateStore :=
  match @store_open codec merge_by_version four_segments with Ok s => s | Err _ => store_new ∅ end.

(** The write of "a" takes its snapshot; the write of "b" runs to its end, with a
    compaction of its own; then the first compaction runs. *)
Definition stale_snapshot : list PAct :=
  [Begin (PStart "a" (num 1)); Step 0; Step 0; Step 0; Step 0; Step 0; Step 0;
   Begin (PStart "b" (num 2)); Step 1; Step 1; Step 1; Step 1; Step 1; Step 1; Step 1; Step 0].

Definition stale_race : PRace := @prace codec map_order (mkPRace four_store []) stale_snapshot.
End PersistRaceExamples.
Import ToyCodec PersistExamples PersistRaceExamples.

Lemma concurrent_writes_survive_witness :
  ∃ s' xa xb, @store_open codec merge_by_version (st_disk (pr_store (@prace codec map_order (mkPRace (p1 codec) []) mixed))) = Ok s' ∧
    (store_get s' "a" = Some xa ∧ se_value xa ≡ num 1) ∧ (store_get s' "b" = Some xb ∧ se_value xb ≡ num 2) ∧
    (store_get s' "k" = None ∨ ∃ xk, store_get s' "k" = Some xk ∧ se_value xk = VNull).
Proof.
  destruct (@concurrent_writes_survive codec map_order merge_by_version (p1 codec) mixed) as (s' & Ho & Hs).
  - apply p1_persisted. by left.
  - apply prace_okb_ok. vm_compute. reflexivity.
  - assert (Hd : ∀ k c, c ∈ pr_calls (@prace codec map_order (mkPRace (p1 codec) []) mixed) → dirty c ≠ Some k).
    { intros k. apply Forall_forall. vm_compute. by repeat constructor. }
    assert (Hg : store_get (pr_store (@prace codec map_order (mkPRace (p1 codec) []) mixed)) "a" = Some (mkEntry 3 (num 1)) ∧
      store_get (pr_store (@prace codec map_order (mkPRace (p1 codec) []) mixed)) "b" = Some (mkEntry 2 (num 2)) ∧
      store_get (pr_store (@prace codec map_order (mkPRace (p1 codec) []) mixed)) "k" = None)
      by (split_and!; vm_compute; reflexivity).
    destruct Hg as (Ha & Hb & Hk).
    pose proof (Hs "a" (Hd "a")) as Ha'. pose proof (Hs "b" (Hd "b")) as Hb'. pose proof (Hs "k" (Hd "k")) as Hk'.
    rewrite Ha in Ha'. rewrite Hb in Hb'. rewrite Hk in Hk'. clear Ha Hb Hk Hs Hd.
    destruct Ha' as (xa & Ha). destruct Hb' as (xb & Hb).
    exists s', xa, xb. exact (conj Ho (conj Ha (conj Hb Hk'))).
Defined.

(** A stale snapshot. The compaction of a write takes its snapshot before it takes the
    mutex.  When another write runs to its end in between, with its own compaction, the
    older snapshot replaces the log: both calls have returned, the store holds the
    second write, and a restart does not have it. *)
Theorem stale_snapshot_loses_write :
  pr_calls stale_race = [PDone (Some (2%Z, [delta_add "/" (num 1)])); PDone (Some (3%Z, [delta_add "/" (num 2)]))] ∧
  store_value (pr_store stale_race) "b" = num 2 ∧
  match @store_open codec merge_by_version (st_disk (pr_store stale_race)) with
  | Ok s' => store_get s' "b" = None ∧ store_value s' "a" = num 1
  | Err _ => False
  end.
Proof. vm_compute. done. Qed.
