(* ===== verification/StoreLinear.v ===== *)
(** * Linearizability of the store (src/src/state.rs)

    [apply] and [delete] take no lock across their accesses.  With at most one call per
    key at a time they are still linearizable: whatever the interleaving, versions,
    delta logs and values are those of the same calls run one after the other, each
    returning what it returned.  A write takes effect when it takes its version, a
    deletion likewise (or when it finds its key absent).  StoreRace.v shows that two
    calls on one key are not linearizable. *)

From S2P Require Import Prelude RustStr Json JsonPath Delta Log Store StoreRace StorePersist PersistRace.

Local Open Scope string_scope.

(** ** Sequential runs *)

Section Linear.
Context `{EntryCodec, HashOrder}.

(** A call that runs alone. *)
Definition run_alone (s : StateStore) (c : PCall) : option (Z * list DeltaOp) * StateStore :=
  match c with
  | PStart key v => let '(res, s') := store_apply s key v in (Some res, s')
  | DStart key => store_delete s key
  | _ => (None, s)
  end.

(** The calls of [calls] run one after the other in the order of the trace, with what
    they return. *)
Inductive sequential (s0 : StateStore) (calls : list PCall) :
    list (nat * option (Z * list DeltaOp)) → StateStore → Prop :=
| seq_nil : sequential s0 calls [] s0
| seq_snoc tr s i c res s' :
    sequential s0 calls tr s → calls !! i = Some c → run_alone s c = (res, s') →
    sequential s0 calls (tr ++ [(i, res)]) s'.

Lemma sequential_more s0 calls c tr s :
  sequential s0 calls tr s → sequential s0 (calls ++ [c]) tr s.
Proof.
  induction 1 as [|tr s i d res s' _ IH Hd Hr]; [constructor|].
  econstructor; [exact IH| |exact Hr]. by apply lookup_app_l_Some.
Qed.

Lemma sequential_range s0 calls tr s i :
  sequential s0 calls tr s → i ∈ tr.*1 → i < length calls.
Proof.
  induction 1 as [|tr s j d res s' _ IH Hd Hr]; [by intros ?%elem_of_nil|].
  rewrite fmap_app. intros [Hi| ->%list_elem_of_singleton]%elem_of_app; [by apply IH|]. by eapply lookup_lt_Some.
Qed.

(** ** Concurrent runs *)

(** The calls started by a run. *)
Definition begun (acts : list PAct) : list PCall :=
  omap (λ a, match a with Begin c => Some c | Step _ => None end) acts.

(** Calls are [apply] or [delete], on a key that no running call is at. *)
Definition one_writer (r : PRace) (a : PAct) : Prop :=
  match a with
  | Begin (PStart k _ | DStart k) => ∀ d, d ∈ pr_calls r → call_key d ≠ Some k
  | Begin _ => False
  | Step _ => True
  end.

Fixpoint one_writer_run (r : PRace) (acts : list PAct) : Prop :=
  match acts with [] => True | a :: acts' => one_writer r a ∧ one_writer_run (pact r a) acts' end.

(** ** The invariant *)

(** In memory, [s] and [a] have the same of [k]. *)
Definition agree (s a : StateStore) (k : string) : Prop :=
  st_entries s !! k = st_entries a !! k ∧ st_log s !! k = st_log a !! k.

(** Whether a call has taken effect. *)
Definition taken (c : PCall) : bool :=
  match c with PStart _ _ | DStart _ | DRemoved _ => false | _ => true end.

(** What a call that has taken effect will return. *)
Definition returns (s : StateStore) (c : PCall) (res : option (Z * list DeltaOp)) : Prop :=
  match c with
  | PVersion k v n => res = Some (n, apply_emits s k v)
  | PDiffed _ _ n ops => res = Some (n, ops)
  | PLog e | PAppend e => res = logged e
  | PSnapshot res' | PCompact _ res' | PDone res' => res = res'
  | _ => False
  end.

(** The log of [k] when [ops] have been appended to that of [s]. *)
Definition log_after (s : StateStore) (k : string) (n : Z) (ops : list DeltaOp) : option (list (Z * list DeltaOp)) :=
  match ops with [] => st_log s !! k | _ => dlog_append (st_log s) k n ops !! k end.

(** The store [s] at a call's key, compared with the sequential [a]. *)
Definition stage_ok (c0 : option PCall) (s a : StateStore) (c : PCall) : Prop :=
  match c with
  | PStart k v => c0 = Some (PStart k v) ∧ agree s a k
  | PVersion k v n => st_entries a !! k = Some (mkEntry n v) ∧ st_log a !! k = log_after s k n (apply_emits s k v)
  | PDiffed k v n ops => ops = apply_emits s k v ∧
      st_entries a !! k = Some (mkEntry n v) ∧ st_log a !! k = log_after s k n ops
  | DStart k => c0 = Some (DStart k) ∧ agree s a k
  | DRemoved k => c0 = Some (DStart k) ∧ st_entries s !! k = None ∧ is_Some (st_entries a !! k) ∧
      st_log s !! k = st_log a !! k
  | PLog e => st_entries s !! le_key e = st_entries a !! le_key e ∧
      st_log a !! le_key e = dlog_append (st_log s) (le_key e) (le_version e) (le_ops e) !! le_key e
  | PAppend e => agree s a (le_key e)
  | PSnapshot _ | PCompact _ _ | PDone _ => True
  end.

Record lin_inv (s0 : StateStore) (calls : list PCall) (r : PRace)
    (tr : list (nat * option (Z * list DeltaOp))) (a : StateStore) : Prop := {
  ln_trace : sequential s0 calls tr a;
  ln_length : length calls = length (pr_calls r);
  ln_version : st_version (pr_store r) = st_version a;
  ln_nodup : NoDup tr.*1;
  ln_taken : ∀ i c, pr_calls r !! i = Some c → i ∈ tr.*1 ↔ taken c = true;
  ln_returns : ∀ i res c, (i, res) ∈ tr → pr_calls r !! i = Some c → returns (pr_store r) c res;
  ln_stage : ∀ i c, pr_calls r !! i = Some c → stage_ok (calls !! i) (pr_store r) a c;
  ln_keys : ∀ i j ci cj k, pr_calls r !! i = Some ci → pr_calls r !! j = Some cj →
    call_key ci = Some k → call_key cj = Some k → i = j;
  ln_agree : ∀ k, (∀ c, c ∈ pr_calls r → call_key c ≠ Some k) → agree (pr_store r) a k;
}.

Lemma agree_sym s a k : agree s a k → agree a s k.
Proof. intros [E1 E2]. by split. Qed.

Lemma agree_trans s1 s2 s3 k : agree s1 s2 k → agree s2 s3 k → agree s1 s3 k.
Proof. intros [E1 E2] [E3 E4]. split; congruence. Qed.

Lemma dlog_append_same (l l' : DeltaLog) k n ops : l !! k = l' !! k → dlog_append l k n ops !! k = dlog_append l' k n ops !! k.
Proof. intros E. unfold dlog_append. by rewrite !lookup_insert_eq, E. Qed.

Lemma returns_same s s' c res :
  (∀ k, call_key c = Some k → agree s s' k) → returns s c res → returns s' c res.
Proof.
  intros Ha. destruct c; cbn; try done. destruct (Ha _ eq_refl) as [E _]. unfold apply_emits, store_get. by rewrite E.
Qed.

Lemma stage_same c0 s a s' a' c :
  (∀ k, call_key c = Some k → agree s s' k ∧ agree a a' k) → stage_ok c0 s a c → stage_ok c0 s' a' c.
Proof.
  intros Ha. destruct c; cbn in *; try done;
    destruct (Ha _ eq_refl) as [[E1 E2] [E3 E4]]; unfold agree, apply_emits, store_get, log_after in *;
    rewrite <- ?E1, <- ?E2, <- ?E3, <- ?E4; try done.
  - by rewrite (dlog_append_same (st_log s') (st_log s)).
  - by rewrite (dlog_append_same (st_log s') (st_log s)).
  - by rewrite (dlog_append_same (st_log s') (st_log s)).
Qed.

(** ** One access keeps the invariant *)

(** What the trace becomes when call [i] goes from [c] to [c']: nothing changes, or the
    call takes effect now. *)
Definition extends (calls : list PCall) (s s' : StateStore) (i : nat) (c c' : PCall)
    (tr : list (nat * option (Z * list DeltaOp))) (a : StateStore) tr' a' : Prop :=
  (tr' = tr ∧ a' = a ∧ taken c' = taken c ∧ ∀ res, returns s c res → returns s' c' res) ∨
  (∃ c0 res, calls !! i = Some c0 ∧ run_alone a c0 = (res, a') ∧ tr' = (tr ++ [(i, res)])%list ∧
     taken c = false ∧ taken c' = true ∧ returns s' c' res).

Lemma lin_step s0 calls r tr a i c s' c' tr' a' :
  lin_inv s0 calls r tr a → pr_calls r !! i = Some c →
  extends calls (pr_store r) s' i c c' tr a tr' a' →
  st_version s' = st_version a' →
  (call_key c' = call_key c ∨ call_key c' = None) →
  (∀ k, call_key c ≠ Some k → agree (pr_store r) s' k ∧ agree a a' k) →
  stage_ok (calls !! i) s' a' c' →
  (∀ k, call_key c = Some k → call_key c' = None → agree s' a' k) →
  lin_inv s0 calls (mkPRace s' (<[i := c']> (pr_calls r))) tr' a'.
Proof.
  intros [N1 N2 N3 N4 N5 N6 N7 N8 N9] Hi Hext Hver Hkey Hsame Hstage Hdone.
  assert (Hl : i < length (pr_calls r)) by (by eapply lookup_lt_Some).
  assert (Hcalls : ∀ j d, <[i := c']> (pr_calls r) !! j = Some d →
    (j = i ∧ d = c') ∨ (j ≠ i ∧ pr_calls r !! j = Some d)).
  { intros j d Hj. destruct (decide (j = i)) as [->|Hne]; [|rewrite list_lookup_insert_ne in Hj by done; by right].
    left. rewrite list_lookup_insert_eq in Hj by done. by injection Hj as <-. }
  assert (Hother : ∀ j d k, pr_calls r !! j = Some d → j ≠ i → call_key d = Some k → call_key c ≠ Some k).
  { intros j d k Hj Hne Hd Hck. by apply Hne, (N8 j i d c k). }
  assert (Hret : ∀ j d res, pr_calls r !! j = Some d → j ≠ i → (j, res) ∈ tr → returns s' d res).
  { intros j d res Hj Hne Hin. eapply returns_same; [|by eapply N6]. intros k Hk. by apply Hsame; eapply Hother. }
  split; cbn [pr_store pr_calls]; try done.
  - destruct Hext as [(-> & -> & _)|(c0 & res & Hc0 & Hrun & -> & _)]; [done|by eapply seq_snoc].
  - by rewrite length_insert.
  - destruct Hext as [(-> & _)|(c0 & res & _ & _ & -> & Ht & _)]; [done|].
    rewrite fmap_app. apply NoDup_app. split_and!; [done| |by apply NoDup_singleton].
    intros x Hx ->%list_elem_of_singleton. apply (N5 i c Hi) in Hx. cbn in Hx. congruence.
  - intros j d Hj. destruct Hext as [(-> & _ & Ht & _)|(c0 & res & _ & _ & -> & Ht & Ht' & _)].
    + destruct (Hcalls _ _ Hj) as [[-> ->]|[_ Hj']]; [rewrite Ht|]; by apply N5.
    + rewrite fmap_app, elem_of_app. cbn [fmap list_fmap fst]. rewrite list_elem_of_singleton.
      destruct (Hcalls _ _ Hj) as [[-> ->]|[Hne Hj']]; [naive_solver|]. rewrite (N5 j d Hj'). naive_solver.
  - intros j res d Hin Hj. destruct Hext as [(-> & _ & _ & Hr)|(c0 & res0 & _ & _ & -> & Ht & _ & Hr)].
    + destruct (Hcalls _ _ Hj) as [[-> ->]|[Hne Hj']]; [apply Hr; by eapply N6|by eapply Hret].
    + apply elem_of_app in Hin as [Hin|[= -> ->]%list_elem_of_singleton].
      * destruct (Hcalls _ _ Hj) as [[-> ->]|[Hne Hj']]; [|by eapply Hret].
        assert (Hi' : i ∈ tr.*1) by (apply list_elem_of_fmap; by exists (i, res)). apply (N5 i c Hi) in Hi'. congruence.
      * destruct (Hcalls _ _ Hj) as [[_ ->]|[Hne _]]; done.
  - intros j d Hj. destruct (Hcalls _ _ Hj) as [[-> ->]|[Hne Hj']]; [done|].
    eapply stage_same; [|by apply N7]. intros k Hk. by apply Hsame; eapply Hother.
  - intros x y cx cy k Hx Hy Hkx Hky. destruct (Hcalls _ _ Hx) as [[-> ->]|[Hnx Hx']], (Hcalls _ _ Hy) as [[-> ->]|[Hny Hy']]; try done.
    + destruct Hkey as [E|E]; rewrite E in Hkx; [|done]. by destruct (Hother y cy k Hy' Hny Hky).
    + destruct Hkey as [E|E]; rewrite E in Hky; [|done]. by destruct (Hother x cx k Hx' Hnx Hkx).
    + by eapply N8.
  - intros k Hk. destruct (decide (call_key c = Some k)) as [Ek|Ek].
    + apply Hdone; [done|]. destruct Hkey as [E|E]; [|done]. exfalso.
      apply (Hk c'); [|congruence]. by apply (list_elem_of_lookup_2 _ i), list_lookup_insert_eq.
    + destruct (Hsame k Ek) as [Hs Ha]. apply (agree_trans _ (pr_store r)); [by apply agree_sym|].
      apply (agree_trans _ a); [|done]. apply N9. intros d [j Hj]%list_elem_of_lookup_1.
      destruct (decide (j = i)) as [->|Hne]; [rewrite Hi in Hj; by injection Hj as <-|].
      apply Hk, (list_elem_of_lookup_2 _ j). by rewrite list_lookup_insert_ne.
Qed.

(** ** What the sequential operations do to the memory *)

Lemma apply_memory a k v :
  st_version (store_apply a k v).2 = u64_add (st_version a) 1 ∧
  st_entries (store_apply a k v).2 !! k = Some (mkEntry (u64_add (st_version a) 1) v) ∧
  st_log (store_apply a k v).2 !! k = log_after a k (u64_add (st_version a) 1) (apply_emits a k v) ∧
  ∀ k', k' ≠ k → agree a (store_apply a k v).2 k'.
Proof.
  rewrite store_apply_version. split_and!; [done| | |].
  - by rewrite store_apply_entries, lookup_insert_eq.
  - rewrite store_apply_log. unfold log_after. by destruct (apply_emits a k v).
  - intros k' Hk. split; [by rewrite store_apply_entries, lookup_insert_ne|].
    rewrite store_apply_log. destruct (apply_emits a k v); [done|]. by rewrite dlog_append_ne.
Qed.

Lemma delete_memory a k x :
  store_get a k = Some x →
  (store_delete a k).1 = Some (u64_add (st_version a) 1, [delta_remove "/"]) ∧
  st_version (store_delete a k).2 = u64_add (st_version a) 1 ∧
  st_entries (store_delete a k).2 !! k = None ∧
  st_log (store_delete a k).2 !! k = dlog_append (st_log a) k (u64_add (st_version a) 1) [delta_remove "/"] !! k ∧
  ∀ k', k' ≠ k → agree a (store_delete a k).2 k'.
Proof.
  intros Hx. destruct (store_delete_present a k x Hx) as (-> & He & Hv & Hl). split_and!; [done|done| | |].
  - by rewrite He, lookup_delete_eq.
  - by rewrite Hl.
  - intros k' Hk. split; [by rewrite He, lookup_delete_ne|]. by rewrite Hl, dlog_append_ne.
Qed.

(** A write takes its version. *)
Lemma lin_start s0 calls r tr a i k v :
  lin_inv s0 calls r tr a → pr_calls r !! i = Some (PStart k v) →
  ∃ tr' a', tr `prefix_of` tr' ∧ lin_inv s0 calls (pact r (Step i)) tr' a'.
Proof.
  intros Hv Hi. cbn [pact]. rewrite Hi. cbn [padvance]. set (n := u64_add _ 1).
  destruct (ln_stage _ _ _ _ _ Hv i _ Hi) as [Hc0 [He Hl]]. pose proof (ln_version _ _ _ _ _ Hv) as Hver.
  destruct (apply_memory a k v) as (A1 & A2 & A3 & A4). rewrite <- Hver in A1, A2, A3. fold n in A1, A2, A3.
  assert (Hem : apply_emits (pr_store r) k v = apply_emits a k v) by (unfold apply_emits, store_get; by rewrite He).
  assert (Hla : log_after (with_version (pr_store r) n) k n (apply_emits a k v) = log_after a k n (apply_emits a k v)).
  { unfold log_after. destruct (apply_emits a k v); [done|]. by apply dlog_append_same. }
  eexists _, _. split; [by eexists|]. eapply (lin_step _ _ _ _ _ _ _ _ _ (tr ++ [(i, Some (n, apply_emits a k v))]) (store_apply a k v).2 Hv Hi).
  - right. eexists _, _. split_and!; [exact Hc0| |done|done|done|].
    + cbn [run_alone]. pose proof (store_apply_result a k v) as Hr. rewrite <- Hver in Hr. fold n in Hr.
      destruct (store_apply a k v) as [res a']. cbn in Hr |- *. by rewrite Hr.
    + cbn [returns]. by rewrite <- Hem.
  - done.
  - by left.
  - intros k' Hk'. split; [done|]. apply A4. cbn in Hk'. congruence.
  - cbn [stage_ok]. split; [done|]. rewrite A3, <- Hla.
    change (apply_emits (with_version (pr_store r) n) k v) with (apply_emits (pr_store r) k v). by rewrite Hem.
  - by intros k' _.
Qed.

(** A deletion takes its version. *)
Lemma lin_removed s0 calls r tr a i k :
  lin_inv s0 calls r tr a → pr_calls r !! i = Some (DRemoved k) →
  ∃ tr' a', tr `prefix_of` tr' ∧ lin_inv s0 calls (pact r (Step i)) tr' a'.
Proof.
  intros Hv Hi. cbn [pact]. rewrite Hi. cbn [padvance]. set (n := u64_add _ 1).
  destruct (ln_stage _ _ _ _ _ Hv i _ Hi) as (Hc0 & He & [x Hx] & Hl). pose proof (ln_version _ _ _ _ _ Hv) as Hver.
  destruct (delete_memory a k x Hx) as (A0 & A1 & A2 & A3 & A4). rewrite <- Hver in A0, A1, A3. fold n in A0, A1, A3.
  eexists _, _. split; [by eexists|]. eapply (lin_step _ _ _ _ _ _ _ _ _ (tr ++ [(i, Some (n, [delta_remove "/"]))]) (store_delete a k).2 Hv Hi).
  - right. eexists _, _. split_and!; [exact Hc0| |done|done|done|done].
    cbn [run_alone]. destruct (store_delete a k) as [res a']. cbn in A0 |- *. by rewrite A0.
  - done.
  - by left.
  - intros k' Hk'. split; [done|]. apply A4. cbn in Hk'. congruence.
  - cbn [stage_ok le_key le_version le_ops]. split; [by rewrite A2|]. rewrite A3. by apply dlog_append_same.
  - by intros k' _.
Qed.

(** The other accesses: the sequential store does not move. *)
Lemma lin_silent s0 calls r tr a i c s' c' :
  lin_inv s0 calls r tr a → pr_calls r !! i = Some c →
  st_version s' = st_version (pr_store r) → taken c' = taken c →
  (∀ res, returns (pr_store r) c res → returns s' c' res) →
  (call_key c' = call_key c ∨ call_key c' = None) →
  (∀ k, call_key c ≠ Some k → agree (pr_store r) s' k) →
  stage_ok (calls !! i) s' a c' →
  (∀ k, call_key c = Some k → call_key c' = None → agree s' a k) →
  ∃ tr' a', tr `prefix_of` tr' ∧ lin_inv s0 calls (mkPRace s' (<[i := c']> (pr_calls r))) tr' a'.
Proof.
  intros Hv Hi Hver Ht Hr Hk Hsame Hst Hd. exists tr, a. split; [done|]. eapply (lin_step _ _ _ _ _ _ _ _ _ _ _ Hv Hi); try done.
  - by left.
  - by rewrite Hver, (ln_version _ _ _ _ _ Hv).
  - intros k Hne. split; [by apply Hsame|done].
Qed.

Lemma lin_insert s0 calls r tr a i k v n ops :
  lin_inv s0 calls r tr a → pr_calls r !! i = Some (PDiffed k v n ops) →
  ∃ tr' a', tr `prefix_of` tr' ∧ lin_inv s0 calls (pact r (Step i)) tr' a'.
Proof.
  intros Hv Hi. cbn [pact]. rewrite Hi. cbn [padvance].
  destruct (ln_stage _ _ _ _ _ Hv i _ Hi) as (Hops & He & Hl).
  eapply (lin_silent _ _ _ _ _ _ _ _ _ Hv Hi); [done|by destruct ops|by destruct ops| | | |].
  - by destruct ops; [right|left].
  - intros k' Hk'. split; [|done]. symmetry. apply lookup_insert_ne. cbn in Hk'. congruence.
  - destruct ops; [done|]. cbn [stage_ok le_key le_version le_ops]. split; [|done].
    rewrite He. apply lookup_insert_eq.
  - intros k' [= <-] Hd. destruct ops; [|done]. split; [|done]. rewrite He. apply lookup_insert_eq.
Qed.

Lemma lin_delete s0 calls r tr a i k :
  lin_inv s0 calls r tr a → pr_calls r !! i = Some (DStart k) →
  ∃ tr' a', tr `prefix_of` tr' ∧ lin_inv s0 calls (pact r (Step i)) tr' a'.
Proof.
  intros Hv Hi. cbn [pact]. rewrite Hi. cbn [padvance].
  destruct (ln_stage _ _ _ _ _ Hv i _ Hi) as (Hc0 & He & Hl). unfold store_get. destruct (st_entries (pr_store r) !! k) as [x|] eqn:Ex.
  - eapply (lin_silent _ _ _ _ _ _ _ _ _ Hv Hi); try done; [by left| |].
    + intros k' Hk'. split; [|done]. symmetry. apply lookup_delete_ne. cbn in Hk'. congruence.
    + cbn [stage_ok]. split_and!; [done|by apply lookup_delete_eq|by rewrite <- He|done].
  - eexists _, _. split; [by eexists|]. eapply (lin_step _ _ _ _ _ _ _ _ _ (tr ++ [(i, None)]) a Hv Hi); try done.
    + right. exists (DStart k), None. split_and!; [done| |done..]. cbn [run_alone]. apply store_delete_absent. by symmetry.
    + apply (ln_version _ _ _ _ _ Hv).
    + by right.
    + intros k' [= <-] _. split; [by rewrite Ex|done].
Qed.

Lemma lin_log s0 calls r tr a i e :
  lin_inv s0 calls r tr a → pr_calls r !! i = Some (PLog e) →
  ∃ tr' a', tr `prefix_of` tr' ∧ lin_inv s0 calls (pact r (Step i)) tr' a'.
Proof.
  intros Hv Hi. cbn [pact]. rewrite Hi. cbn [padvance].
  destruct (ln_stage _ _ _ _ _ Hv i _ Hi) as (He & Hl).
  eapply (lin_silent _ _ _ _ _ _ _ _ _ Hv Hi); [done|by destruct (st_plog (pr_store r))|by destruct (st_plog (pr_store r))| | | |].
  - by destruct (st_plog (pr_store r)); [left|right].
  - intros k' Hk'. split; [done|]. symmetry. apply dlog_append_ne. cbn in Hk'. congruence.
  - destruct (st_plog (pr_store r)); [|done]. by split.
  - intros k' [= <-] _. by split.
Qed.

Lemma lin_act s0 calls r tr a i : lin_inv s0 calls r tr a → ∃ tr' a', tr `prefix_of` tr' ∧ lin_inv s0 calls (pact r (Step i)) tr' a'.
Proof.
  intros Hv. destruct (pr_calls r !! i) as [c|] eqn:Hi; [|exists tr, a; cbn; by rewrite Hi].
  pose proof (ln_stage _ _ _ _ _ Hv i _ Hi) as Hs. destruct c as [k v|k v n|k v n ops|k|k|e|e|res|snap res|res].
  - by eapply lin_start.
  - cbn [pact]. rewrite Hi. cbn [padvance]. eapply (lin_silent _ _ _ _ _ _ _ _ _ Hv Hi); try done. by left.
  - by eapply lin_insert.
  - by eapply lin_delete.
  - by eapply lin_removed.
  - by eapply lin_log.
  - cbn [pact]. rewrite Hi. cbn [padvance].
    destruct (st_plog (pr_store r)) as [l|]; [destruct (log_append _ _ _) as [[? l'] disk']; destruct (needs_compact l')|];
      (eapply (lin_silent _ _ _ _ _ _ _ _ _ Hv Hi); try done; [by right|by intros k' [= <-] _]).
  - cbn [pact]. rewrite Hi. cbn [padvance]. eapply (lin_silent _ _ _ _ _ _ _ _ _ Hv Hi); try done. by left.
  - cbn [pact]. rewrite Hi. cbn [padvance].
    destruct (st_plog (pr_store r)) as [l|]; [destruct (log_compact _ _ _) as [[? l'] disk']|];
      (eapply (lin_silent _ _ _ _ _ _ _ _ _ Hv Hi); try done; by left).
  - cbn [pact]. rewrite Hi. cbn [padvance]. eapply (lin_silent _ _ _ _ _ _ _ _ _ Hv Hi); try done. by left.
Qed.

(** A call starts. *)
Lemma lin_begin s0 calls r tr a c :
  lin_inv s0 calls r tr a → one_writer r (Begin c) → lin_inv s0 (calls ++ [c]) (pact r (Begin c)) tr a.
Proof.
  intros [N1 N2 N3 N4 N5 N6 N7 N8 N9] Hw.
  assert (Hc : taken c = false ∧ ∃ k, call_key c = Some k ∧ (∀ d, d ∈ pr_calls r → call_key d ≠ Some k) ∧
    (agree (pr_store r) a k → stage_ok (Some c) (pr_store r) a c)).
  { destruct c; try done; (split; [done|]); eexists; (split; [done|]); (split; [exact Hw|done]). }
  destruct Hc as (Ht & k0 & Hk0 & Hfresh & Hst). split; cbn [pact pr_store pr_calls]; try done.
  - by apply sequential_more.
  - by rewrite !length_app, N2.
  - intros i d [[_ Hi]|[-> <-]]%lookup_snoc_Some; [by apply N5|]. rewrite Ht. split; [|done].
    intros Hin. apply (sequential_range _ _ _ _ _ N1) in Hin. lia.
  - intros i res d Hin [[_ Hi]|[-> <-]]%lookup_snoc_Some; [by eapply N6|]. exfalso.
    assert (Hin' : length (pr_calls r) ∈ tr.*1) by (apply list_elem_of_fmap; by exists (length (pr_calls r), res)).
    apply (sequential_range _ _ _ _ _ N1) in Hin'. lia.
  - intros i d [[Hlt Hi]|[-> <-]]%lookup_snoc_Some.
    + rewrite lookup_app_l by lia. by apply N7.
    + rewrite <- N2, list_lookup_middle by done. by apply Hst, N9.
  - intros i j ci cj k Hi Hj Hki Hkj.
    apply lookup_snoc_Some in Hi as [[_ Hi]|[-> <-]]; apply lookup_snoc_Some in Hj as [[_ Hj]|[-> <-]]; [by eapply N8| | |done].
    + exfalso. apply (Hfresh ci); [by eapply list_elem_of_lookup_2|congruence].
    + exfalso. apply (Hfresh cj); [by eapply list_elem_of_lookup_2|congruence].
  - intros k Hd. apply N9. intros d Hin. apply Hd, elem_of_app. by left.
Qed.

(** ** Real time *)

(** [i] is in the order, and before [j]. *)
Definition precedes (i j : nat) (order : list nat) : Prop :=
  ∃ p, order !! p = Some i ∧ ∀ q, order !! q = Some j → p < q.

Lemma precedes_prefix i j l l' : l `prefix_of` l' → precedes i j l → precedes i j l'.
Proof.
  intros [m ->] (p & Hp & Hq). exists p. split; [by apply lookup_app_l_Some|].
  intros q [Hj|[Hle _]]%lookup_app_Some; [by apply Hq|]. apply lookup_lt_Some in Hp. lia.
Qed.

(** Calls that have returned when a call starts come before it. *)
Definition real_time (r0 : PRace) (acts : list PAct) (order : list nat) : Prop :=
  ∀ acts1 c acts2 i res, acts = (acts1 ++ Begin c :: acts2)%list →
    pr_calls (prace r0 acts1) !! i = Some (PDone res) → precedes i (length (begun acts1)) order.

Lemma real_time_step r0 acts i l l' :
  l `prefix_of` l' → real_time r0 acts l → real_time r0 (acts ++ [Step i])%list l'.
Proof.
  intros Hl Hr acts1 c acts2 j res E Hj. apply (precedes_prefix _ _ _ _ Hl).
  destruct acts2 as [|x acts2 _] using rev_ind; [by apply app_inj_tail in E as [_ ?]|].
  rewrite app_comm_cons, app_assoc in E. apply app_inj_tail in E as [-> _]. by eapply Hr.
Qed.

Lemma real_time_begin r0 acts c l :
  (∀ i res, pr_calls (prace r0 acts) !! i = Some (PDone res) → i ∈ l) → length (begun acts) ∉ l →
  real_time r0 acts l → real_time r0 (acts ++ [Begin c])%list l.
Proof.
  intros Hdone Hnew Hr acts1 d acts2 j res E Hj. destruct acts2 as [|x acts2 _] using rev_ind.
  - apply app_inj_tail in E as [-> _]. apply Hdone, list_elem_of_lookup_1 in Hj as [p Hp].
    exists p. split; [done|]. intros q Hq. by apply list_elem_of_lookup_2 in Hq.
  - rewrite app_comm_cons, app_assoc in E. apply app_inj_tail in E as [-> _]. by eapply Hr.
Qed.

Lemma prace_snoc r acts a : prace r (acts ++ [a])%list = pact (prace r acts) a.
Proof. apply fold_left_app. Qed.

Lemma lin_run s0 past tr a acts :
  let r0 := mkPRace s0 [] in
  lin_inv s0 (begun past) (prace r0 past) tr a → real_time r0 past tr.*1 → one_writer_run (prace r0 past) acts →
  ∃ tr' a', lin_inv s0 (begun (past ++ acts)%list) (prace r0 (past ++ acts)%list) tr' a' ∧ real_time r0 (past ++ acts)%list tr'.*1.
Proof.
  intros r0. revert past tr a. induction acts as [|act acts IH]; intros past tr a Hv Hr Hw.
  - exists tr, a. by rewrite app_nil_r.
  - destruct Hw as [Hw Hws]. rewrite <- prace_snoc in Hws. rewrite (cons_middle act), app_assoc.
    destruct act as [c|i].
    + eapply IH; [| |done].
      * rewrite prace_snoc. unfold begun. rewrite omap_app. by apply lin_begin.
      * apply real_time_begin; [| |done].
        -- intros i res Hi. by apply (ln_taken _ _ _ _ _ Hv i _ Hi).
        -- intros Hin%(sequential_range _ _ _ _ _ (ln_trace _ _ _ _ _ Hv)). lia.
    + destruct (lin_act _ _ _ _ _ i Hv) as (tr' & a' & Hp & Hv'). eapply IH; [| |done].
      * rewrite prace_snoc. unfold begun. rewrite omap_app. cbn [omap list_omap]. rewrite app_nil_r. exact Hv'.
      * eapply real_time_step; [|done]. destruct Hp as [m ->]. rewrite fmap_app. by eexists.
Qed.

Lemma lin_init s0 : lin_inv s0 [] (mkPRace s0 []) [] s0.
Proof. split; cbn; try done. - constructor. - constructor. Qed.

(** C14. Linearizability. Let calls of [apply] and [delete] start at any time and
    interleave access by access (including rotation and compaction of the on-disk
    log), no two running at once on one key.  When all of them have returned, there is
    an order of the calls such that running them one after the other from the initial
    store returns to each the version and the operations it returned, and ends with
    the same values, version counter and delta logs.  A call that had returned when
    another started comes before it in that order. *)
Theorem concurrent_writes_linearizable s0 acts :
  one_writer_run (mkPRace s0 []) acts →
  let r := prace (mkPRace s0 []) acts in
  (∀ c, c ∈ pr_calls r → ∃ res, c = PDone res) →
  ∃ tr s', sequential s0 (begun acts) tr s' ∧ tr.*1 ≡ₚ seq 0 (length (begun acts)) ∧
    real_time (mkPRace s0 []) acts tr.*1 ∧
    (∀ i res, (i, res) ∈ tr → pr_calls r !! i = Some (PDone res)) ∧
    st_entries (pr_store r) = st_entries s' ∧ st_version (pr_store r) = st_version s' ∧
    st_log (pr_store r) = st_log s'.
Proof.
  intros Hw r Hdone. destruct (lin_run s0 [] [] s0 acts (lin_init s0)) as (tr & a & Hv & Hrt); [by intros []|done|].
  cbn [app] in Hv, Hrt. fold r in Hv.
  pose proof Hv as [N1 N2 N3 N4 N5 N6 N7 N8 N9]. exists tr, a.
  assert (Hres : ∀ i, i < length (begun acts) → ∃ res, pr_calls r !! i = Some (PDone res)).
  { intros i Hi. rewrite N2 in Hi. apply lookup_lt_is_Some in Hi as [c Hc].
    destruct (Hdone c) as [res ->]; [by eapply list_elem_of_lookup_2|]. by exists res. }
  assert (Hagree : ∀ k, agree (pr_store r) a k).
  { intros k. apply N9. intros c Hc. by destruct (Hdone c Hc) as [res ->]. }
  split_and!; [done| |done| |by apply map_eq; intros k; apply Hagree|done|by apply map_eq; intros k; apply Hagree].
  - apply NoDup_Permutation; [done|apply NoDup_seq|]. intros i. rewrite elem_of_seq. split.
    + intros Hin. apply (sequential_range _ _ _ _ _ N1) in Hin. lia.
    + intros [_ Hi]. destruct (Hres i ltac:(lia)) as [res Hr]. by apply (N5 i _ Hr).
  - intros i res Hin. destruct (Hres i) as [res' Hr].
    { apply (sequential_range _ _ _ _ _ N1). apply list_elem_of_fmap. by exists (i, res). }
    pose proof (N6 i res _ Hin Hr) as E. cbn in E. by subst.
Qed.
End Linear.

(** ** Examples *)

Module LinearExamples.
Import ToyCodec PersistExamples PersistRaceExamples.

(** Two writes of different keys, interleaved, and a delete of the second when it is
    there. *)
Definition crossing : list PAct :=
  [Begin (PStart "a" (num 1)); Begin (PStart "b" (num 2)); Step 1; Step 0; Step 0; Step 1; Step 0; Step 1; Step 1; Step 0;
   Begin (DStart "b"); Step 2; Step 2; Step 2].
End LinearExamples.
Import ToyCodec LinearExamples.

Lemma concurrent_writes_linearizable_witness :
  let r := @prace codec map_order (mkPRace (store_new ∅) []) crossing in
  ∃ tr s', @sequential codec map_order (store_new ∅) (begun crossing) tr s' ∧
    (2, Some (3%Z, [delta_remove "/"])) ∈ tr ∧ st_entries (pr_store r) = st_entries s'.
Proof.
  intros r. destruct (@concurrent_writes_linearizable codec map_order (store_new ∅) crossing) as (tr & s' & Hs & HP & _ & Hr & He & _).
  - repeat (split; [first [exact I|intros d Hd; vm_compute in Hd;
      repeat (apply elem_of_cons in Hd as [->|Hd]; [vm_compute; congruence|]); by apply elem_of_nil in Hd]|]). exact I.
  - fold r. assert (Hc : pr_calls r = [PDone (Some (2%Z, [delta_add "/" (num 1)])); PDone (Some (1%Z, [delta_add "/" (num 2)]));
      PDone (Some (3%Z, [delta_remove "/"]))]) by (vm_compute; reflexivity).
    intros c Hin. rewrite Hc in Hin. repeat (apply elem_of_cons in Hin as [->|Hin]; [by eexists|]). by apply elem_of_nil in Hin.
  - exists tr, s'. split; [exact Hs|]. split; [|exact He].
    assert (Hin : 2 ∈ tr.*1) by (rewrite HP; apply elem_of_seq; cbn; lia).
    apply list_elem_of_fmap in Hin as ([i res] & E & Hin). cbn in E. subst i.
    assert (Hc : pr_calls r !! 2 = Some (PDone (Some (3%Z, [delta_remove "/"])))) by (vm_compute; reflexivity).
    pose proof (Hr 2 res Hin) as Hc'. change (pr_calls r !! 2 = Some (PDone res)) in Hc'. rewrite Hc in Hc'. by injection Hc' as <-.
Defined.
