(* ===== verification/Session.v ===== *)
(** * Sessions and rate limiting (src/src/session.rs)

    The per-connection state: identity, active watches by stream id, presence
    paths, the two rate limiters and the counters.  Time is an argument: an
    [Instant] is a number of nanoseconds, and each call of [Instant::now] or
    [elapsed] takes the reading of the clock at that point. *)

From S2P Require Import Prelude Json.

Local Open Scope string_scope.

(** ** The rate limiter *)

Definition NANOS_PER_SEC : Z := 1000000000.

Record RateLimiter : Type := mkLimiter {
  max_per_sec : Z;
  count : Z;
  window_start : Z;
}.

Definition limiter_new (max : Z) (now : Z) : RateLimiter := mkLimiter max 0 now.

(** [elapsed().as_secs()]: whole seconds, zero when the clock reads earlier. *)
Definition elapsed_secs (start now : Z) : Z := Z.max 0 (now - start) / NANOS_PER_SEC.

(** [now1] is the reading of [elapsed], [now2] that of [Instant::now]. *)
Definition limiter_allow (r : RateLimiter) (now1 now2 : Z) : bool * RateLimiter :=
  let r1 := if (1 <=? elapsed_secs (window_start r) now1)%Z
            then mkLimiter (max_per_sec r) 0 now2 else r in
  if (count r1 <? max_per_sec r1)%Z
  then (true, mkLimiter (max_per_sec r1) (count r1 + 1) (window_start r1))
  else (false, r1).

(** A sequence of calls; how many are allowed. *)
Fixpoint limiter_run (r : RateLimiter) (calls : list (Z * Z)) : Z * RateLimiter :=
  match calls with
  | [] => (0%Z, r)
  | (now1, now2) :: calls' =>
      let '(ok, r1) := limiter_allow r now1 now2 in
      let '(n, r2) := limiter_run r1 calls' in
      ((if ok then 1 else 0) + n, r2)%Z
  end.

(** ** Session state *)

Record WatchEntry : Type := mkWatch {
  w_state_key : string;
  w_last_seq : Z;
  w_params : option Value;
}.

Record PresenceEntry : Type := mkPresence {
  p_state_key : string;
  p_path : string;
}.

Record Session : Type := mkSession {
  s_id : string;
  s_sub : option string;
  s_claims : Value;
  watches : gmap Z WatchEntry;
  presence : list PresenceEntry;
  write_limiter : option RateLimiter;
  watch_limiter : option RateLimiter;
  next_stream_id : Z;
  seq_counter : Z;
}.

(** [id] is the fresh UUID. *)
Definition session_new (id : string) (write_limit watch_limit : option Z) (now : Z) : Session :=
  mkSession id None (VObject []) ∅ []
    ((λ m, limiter_new m now) <$> write_limit) ((λ m, limiter_new m now) <$> watch_limit) 10 0.

Definition next_seq (s : Session) : Z * Session :=
  let n := u64_add (seq_counter s) 1 in
  (n, mkSession (s_id s) (s_sub s) (s_claims s) (watches s) (presence s)
        (write_limiter s) (watch_limiter s) (next_stream_id s) n).

Definition allocate_stream (s : Session) : Z * Session :=
  (next_stream_id s,
   mkSession (s_id s) (s_sub s) (s_claims s) (watches s) (presence s)
     (write_limiter s) (watch_limiter s) (u32_add (next_stream_id s) 1) (seq_counter s)).

Definition with_watches (s : Session) (w : gmap Z WatchEntry) : Session :=
  mkSession (s_id s) (s_sub s) (s_claims s) w (presence s)
    (write_limiter s) (watch_limiter s) (next_stream_id s) (seq_counter s).

Definition add_watch (s : Session) (stream_id : Z) (state_key : string) (params : option Value) : Session :=
  with_watches s (<[stream_id := mkWatch state_key 0 params]> (watches s)).

Definition remove_watch (s : Session) (stream_id : Z) : option WatchEntry * Session :=
  (watches s !! stream_id, with_watches s (delete stream_id (watches s))).

Definition ack_stream (s : Session) (stream_id sq : Z) : Session :=
  match watches s !! stream_id with
  | Some w => with_watches s (<[stream_id := mkWatch (w_state_key w) sq (w_params w)]> (watches s))
  | None => s
  end.

(** The first watch on the key in the map's iteration order. *)
Definition watch_stream_id `{HashOrder} (s : Session) (state_key : string) : option Z :=
  fst <$> List.find (λ '(_, e), String.eqb (w_state_key e) state_key) (hash_iter (watches s)).

Definition add_presence (s : Session) (state_key path : string) : Session :=
  if existsb (λ e, String.eqb (p_state_key e) state_key && String.eqb (p_path e) path) (presence s)
  then s
  else mkSession (s_id s) (s_sub s) (s_claims s) (watches s)
         (presence s ++ [mkPresence state_key path])%list
         (write_limiter s) (watch_limiter s) (next_stream_id s) (seq_counter s).

(** Using up one request of a limiter, if there is one. *)
Definition allow_opt (l : option RateLimiter) (now1 now2 : Z) : bool * option RateLimiter :=
  match l with
  | None => (true, None)
  | Some r => let '(ok, r') := limiter_allow r now1 now2 in (ok, Some r')
  end.

(** ** Rate limiter properties *)

Definition limiter_ok (r : RateLimiter) : Prop := (0 ≤ count r ≤ max_per_sec r)%Z.

Lemma elapsed_secs_ge start now :
  (1 ≤ elapsed_secs start now ↔ start + NANOS_PER_SEC ≤ now)%Z.
Proof.
  unfold elapsed_secs. split; intros E.
  - destruct (Z.max_spec 0 (now - start)) as [[? Em]|[? Em]]; rewrite Em in E.
    + pose proof (Z.mul_div_le (now - start) NANOS_PER_SEC ltac:(done)). unfold NANOS_PER_SEC in *. lia.
    + by cbv in E.
  - apply Z.div_le_lower_bound; [done|]. unfold NANOS_PER_SEC in *. lia.
Qed.

(** Within less than a second of the window's start there is no reset: at most
    the rest of the window's budget is allowed. *)
Lemma limiter_run_no_reset r calls t :
  limiter_ok r → (t ≤ window_start r)%Z →
  Forall (λ '(now1, _), now1 < t + NANOS_PER_SEC)%Z calls →
  ((limiter_run r calls).1 ≤ max_per_sec r - count r)%Z.
Proof.
  intros Hr Ht Hc. revert r Hr Ht. induction Hc as [|[now1 now2] calls Hn _ IH]; intros r Hr Ht.
  { unfold limiter_ok in Hr. cbn. lia. }
  cbn [limiter_run]. unfold limiter_allow.
  assert ((1 <=? elapsed_secs (window_start r) now1)%Z = false) as ->.
  { apply Z.leb_gt. enough (¬ 1 ≤ elapsed_secs (window_start r) now1)%Z by lia.
    rewrite elapsed_secs_ge. lia. }
  destruct (count r <? max_per_sec r)%Z eqn:E; bool_to_prop; cbn.
  - specialize (IH (mkLimiter (max_per_sec r) (count r + 1) (window_start r))).
    unfold limiter_ok in *. cbn in IH. destruct (limiter_run _ calls). cbn in *.
    specialize (IH ltac:(lia) ltac:(lia)). lia.
  - specialize (IH r Hr Ht). destruct (limiter_run r calls). cbn in *. lia.
Qed.

(** C35. The limiter's bound. However the calls fall, those whose clock readings
    lie in one interval of a second admit at most [2 * max_per_sec] requests. *)
Theorem limiter_two_windows r calls t :
  limiter_ok r →
  Forall (λ '(now1, now2), t ≤ now1 ≤ now2 ∧ now2 < t + NANOS_PER_SEC)%Z calls →
  ((limiter_run r calls).1 ≤ 2 * max_per_sec r)%Z.
Proof.
  intros Hr Hc. enough ((limiter_run r calls).1 ≤ max_per_sec r - count r + max_per_sec r)%Z
    by (unfold limiter_ok in Hr; lia).
  revert r Hr. induction Hc as [|[now1 now2] calls Hn Hc IH]; intros r Hr.
  { unfold limiter_ok in Hr. cbn. lia. }
  cbn [limiter_run]. unfold limiter_allow.
  destruct (1 <=? elapsed_secs (window_start r) now1)%Z eqn:Ereset; bool_to_prop; cbn.
  - assert (Hc' : Forall (λ '(n1, _), n1 < t + NANOS_PER_SEC)%Z calls)
      by (eapply Forall_impl; [exact Hc|]; intros [? ?]; lia).
    unfold limiter_ok in Hr. destruct (0 <? max_per_sec r)%Z eqn:E; bool_to_prop; cbn.
    + pose proof (limiter_run_no_reset (mkLimiter (max_per_sec r) 1 now2) calls t) as Hb.
      unfold limiter_ok in Hb. cbn in Hb.
      destruct (limiter_run _ calls). cbn in *. specialize (Hb ltac:(lia) ltac:(lia) Hc'). lia.
    + pose proof (limiter_run_no_reset (mkLimiter (max_per_sec r) 0 now2) calls t) as Hb.
      unfold limiter_ok in Hb. cbn in Hb.
      destruct (limiter_run _ calls). cbn in *. specialize (Hb ltac:(lia) ltac:(lia) Hc'). lia.
  - unfold limiter_ok in Hr. destruct (count r <? max_per_sec r)%Z eqn:E; bool_to_prop; cbn.
    + specialize (IH (mkLimiter (max_per_sec r) (count r + 1) (window_start r))).
      unfold limiter_ok in IH. cbn in IH. destruct (limiter_run _ calls). cbn in *.
      specialize (IH ltac:(lia)). lia.
    + specialize (IH r Hr). destruct (limiter_run r calls). cbn in *. lia.
Qed.

Lemma limiter_two_windows_witness :
  ((limiter_run (mkLimiter 2 0 0) [(900000000, 900000000); (1100000000, 1100000000)]).1 ≤ 4)%Z.
Proof.
  apply (limiter_two_windows (mkLimiter 2 0 0) _ 500000000); [split; vm_compute; congruence|].
  repeat constructor; vm_compute; congruence.
Defined.

(** After a full second without resets every request up to the limit passes:
    from a limiter whose window has elapsed, [n <= max_per_sec] calls within the
    new window are all allowed. *)
Theorem limiter_fresh_window r calls now1 now2 :
  (0 ≤ max_per_sec r)%Z → (window_start r + NANOS_PER_SEC ≤ now1)%Z →
  Forall (λ '(n1, _), n1 < now2 + NANOS_PER_SEC)%Z calls →
  (Z.of_nat (S (length calls)) ≤ max_per_sec r)%Z →
  (limiter_run r ((now1, now2) :: calls)).1 = Z.of_nat (S (length calls)).
Proof.
  intros Hm Hel Hc Hlen.
  assert (Hrun : ∀ cs k, Forall (λ '(n1, _), n1 < now2 + NANOS_PER_SEC)%Z cs →
    (0 ≤ k)%Z → (k + Z.of_nat (length cs) ≤ max_per_sec r)%Z →
    (limiter_run (mkLimiter (max_per_sec r) k now2) cs).1 = Z.of_nat (length cs)).
  { intros cs k Hcs. revert k. induction Hcs as [|[n1 n2] cs Hn _ IH]; intros k Hk Hl; [done|].
    cbn [limiter_run length] in *. unfold limiter_allow. cbn.
    rewrite (proj2 (Z.leb_gt _ _)).
    2:{ enough (¬ 1 ≤ elapsed_secs now2 n1)%Z by lia. rewrite elapsed_secs_ge. lia. }
    cbn. rewrite (proj2 (Z.ltb_lt _ _)) by lia. specialize (IH (k + 1)%Z ltac:(lia) ltac:(lia)).
    destruct (limiter_run _ cs). cbn in *. lia. }
  cbn [limiter_run]. unfold limiter_allow.
  rewrite (proj2 (Z.leb_le _ _)) by (by apply elapsed_secs_ge). cbn.
  rewrite (proj2 (Z.ltb_lt _ _)) by lia.
  specialize (Hrun calls 1%Z Hc ltac:(lia) ltac:(lia)).
  cbn. destruct (limiter_run _ calls). cbn in *. lia.
Qed.

Lemma limiter_fresh_window_witness :
  (limiter_run (mkLimiter 2 2 0) [(1000000000, 1000000001)%Z; (1500000000, 1500000000)%Z]).1 = 2%Z.
Proof.
  rewrite (limiter_fresh_window (mkLimiter 2 2 0) [(1500000000, 1500000000)%Z]).
  - reflexivity.
  - cbn. lia.
  - cbn. unfold NANOS_PER_SEC. lia.
  - apply Forall_singleton. unfold NANOS_PER_SEC. lia.
  - cbn. lia.
Defined.

(** ** Stream ids *)

(** Ids in use lie between the first subscription stream and the next one. *)
Definition session_inv (s : Session) : Prop :=
  (10 ≤ next_stream_id s ≤ u32_max)%Z ∧ (0 ≤ seq_counter s ≤ u64_max)%Z ∧
  ∀ sid w, watches s !! sid = Some w → (10 ≤ sid < next_stream_id s)%Z.

Lemma session_new_inv id wl rl now : session_inv (session_new id wl rl now).
Proof.
  unfold session_inv. cbn. split_and!; [done..|]. intros sid w. by rewrite lookup_empty.
Qed.

Lemma with_watches_inv s w :
  session_inv s → (∀ sid x, w !! sid = Some x → (10 ≤ sid < next_stream_id s)%Z) →
  session_inv (with_watches s w).
Proof. intros (H1 & H2 & _) Hw. exact (conj H1 (conj H2 Hw)). Qed.

Lemma remove_watch_inv s sid : session_inv s → session_inv (remove_watch s sid).2.
Proof.
  intros Hi. apply with_watches_inv; [done|]. intros k x [_ Hk]%lookup_delete_Some.
  by apply (proj2 (proj2 Hi)) in Hk.
Qed.

Lemma ack_stream_inv s sid sq : session_inv s → session_inv (ack_stream s sid sq).
Proof.
  intros Hi. unfold ack_stream. destruct (watches s !! sid) as [w|] eqn:E; [|done].
  apply with_watches_inv; [done|]. intros k x. pose proof (proj2 (proj2 Hi)) as Hr.
  rewrite lookup_insert_Some. intros [[<- _]|[_ Hk]]; eauto.
Qed.

Lemma u64_add_range a b : (0 ≤ u64_add a b ≤ u64_max)%Z.
Proof. unfold u64_add, u64_max. pose proof (Z.mod_pos_bound (a + b) (2 ^ 64) ltac:(lia)). lia. Qed.

Lemma next_seq_inv s : session_inv s → session_inv (next_seq s).2.
Proof. intros (H1 & _ & H3). split; [done|]. split; [apply u64_add_range|done]. Qed.

Lemma add_presence_inv s k p : session_inv s → session_inv (add_presence s k p).
Proof. unfold add_presence. by case_match. Qed.

(** Opening a subscription. [allocate_stream] followed by [add_watch] uses a
    stream id that no watch of the session has and never will again be handed
    out: the new watch is added, the others stay, and the next id is larger. *)
Theorem allocate_watch_fresh s key params :
  session_inv s → (next_stream_id s < u32_max)%Z →
  let '(sid, s1) := allocate_stream s in
  let s2 := add_watch s1 sid key params in
  watches s !! sid = None ∧ (10 ≤ sid)%Z ∧
  watches s2 = <[sid := mkWatch key 0 params]> (watches s) ∧
  session_inv s2 ∧ (sid < next_stream_id s2)%Z.
Proof.
  intros (H1 & H2 & H3) Hm. cbn. rewrite u32_add_small by (unfold u32_max in *; lia).
  assert (watches s !! next_stream_id s = None) as Hfresh.
  { destruct (watches s !! next_stream_id s) as [w|] eqn:E; [|done]. apply H3 in E. lia. }
  split_and!; [done|lia|done| |lia]. unfold session_inv. cbn.
  split_and!; [unfold u32_max in *; lia..|].
  intros sid w. rewrite lookup_insert_Some. intros [[<- _]|[_ Hk]]; [lia|].
  apply H3 in Hk. lia.
Qed.

Lemma allocate_watch_fresh_witness :
  let s := session_new "id" None None 0 in
  watches s !! 10%Z = None ∧
  watches (add_watch (allocate_stream s).2 10 "k" None) = {[ 10%Z := mkWatch "k" 0 None ]}.
Proof.
  intros s. destruct (allocate_watch_fresh s "k" None (session_new_inv _ _ _ _) eq_refl)
    as (H1 & _ & H2 & _). split; [exact H1|exact H2].
Defined.

(** [watch_stream_id] finds a stream exactly when the session watches the
    key, and the stream it returns is a watch on that key, whatever order the
    hash map iterates in. *)
Lemma watch_stream_lookup `{HashOrder} s key :
  match watch_stream_id s key with
  | Some sid => ∃ w, watches s !! sid = Some w ∧ w_state_key w = key
  | None => ∀ sid w, watches s !! sid = Some w → w_state_key w ≠ key
  end.
Proof.
  unfold watch_stream_id. destruct (List.find _ _) as [[sid w]|] eqn:E; cbn.
  - apply find_Some_elem in E as [Hin Hk]. apply elem_of_hash_iter in Hin. bool_to_prop. eauto.
  - intros sid w Hw Hk. pose proof (find_None_elem _ _ E (sid, w)) as Hn. cbn in Hn.
    rewrite elem_of_hash_iter in Hn. specialize (Hn Hw). bool_to_prop. done.
Qed.

(** Presence registration is idempotent and keeps entries distinct, so the
    cleanup at session end handles each path once. *)
Theorem add_presence_set s key path :
  NoDup (presence s) →
  NoDup (presence (add_presence s key path)) ∧
  mkPresence key path ∈ presence (add_presence s key path) ∧
  add_presence (add_presence s key path) key path = add_presence s key path.
Proof.
  intros Hnd. unfold add_presence.
  set (same e := String.eqb (p_state_key e) key && String.eqb (p_path e) path).
  assert (Hsame : ∀ e, same e = true ↔ e = mkPresence key path).
  { intros [k p]. unfold same. cbn. rewrite andb_true_iff, !String.eqb_eq. split; [by intros [-> ->]|].
    by intros [= -> ->]. }
  destruct (existsb same (presence s)) eqn:E.
  - rewrite E. split_and!; [done| |done].
    apply existsb_elem in E as (e & Hin & ->%Hsame). done.
  - cbn. rewrite existsb_app. cbn. rewrite (proj2 (Hsame _)) by done. rewrite orb_true_r.
    rewrite existsb_not_elem in E. split_and!; [|apply elem_of_app; right; left|done].
    apply NoDup_app. split_and!; [done| |apply NoDup_singleton].
    intros e Hin ->%list_elem_of_singleton. specialize (E _ Hin).
    rewrite (proj2 (Hsame _)) in E; done.
Qed.

Lemma add_presence_set_witness :
  let s := session_new "id" None None 0 in
  mkPresence "k" "/u" ∈ presence (add_presence s "k" "/u").
Proof. intros s. apply (add_presence_set s "k" "/u"). constructor. Defined.
