(* ===== verification/Middleware.v ===== *)
(** * The middleware crate (src/sodp-middleware/src/acl.rs, rate.rs)

    A stand-alone ACL with glob patterns and a rate limiter, for servers that
    embed the protocol.  A [&str] is here the list of its characters (code
    points), because the glob matcher walks characters but slices by byte. *)

From S2P Require Import Prelude Session.

Local Open Scope Z_scope.

(** ** Characters *)

Abbreviation Str := (list Z).

(** The characters of an ASCII literal. *)
Definition chars (s : string) : Str := (λ c, Z.of_N (Ascii.N_of_ascii c)) <$> String.list_ascii_of_string s.

Definition len_utf8 (c : Z) : Z :=
  if c <? 128 then 1 else if c <? 2048 then 2 else if c <? 65536 then 3 else 4.

Definition star : Z := 42.

(** [s.strip_prefix(p)] on characters *)
Fixpoint strip_prefix (p s : Str) : option Str :=
  match p, s with
  | [], _ => Some s
  | a :: p', b :: s' => if a =? b then strip_prefix p' s' else None
  | _ :: _, [] => None
  end.

(** [s.contains(p)] *)
Fixpoint contains (p s : Str) : bool :=
  match strip_prefix p s with
  | Some _ => true
  | None => match s with [] => false | _ :: s' => contains p s' end
  end.

(** [s.replace(p, r)]: left to right, without overlaps; [skip] counts the
    characters of the occurrence being replaced that are still to be passed. *)
Fixpoint replace_at (skip : nat) (p r s : Str) : Str :=
  match s with
  | [] => []
  | c :: s' =>
      match skip with
      | S n => replace_at n p r s'
      | O => match strip_prefix p s with
             | Some _ => (r ++ replace_at (length p - 1) p r s')%list
             | None => c :: replace_at O p r s'
             end
      end
  end.
Definition replace (p r s : Str) : Str := replace_at O p r s.

(** ** Glob matching *)

(** [for i in 0..=s.len()] over byte offsets: [None] when a slice is not at a
    character boundary, which panics. *)
Fixpoint try_suffixes (f : Str → option bool) (s : Str) : option bool :=
  match f s with
  | None => None
  | Some true => Some true
  | Some false =>
      match s with
      | [] => Some false
      | c :: s' => if 1 <? len_utf8 c then None else try_suffixes f s'
      end
  end.

(** [None] when the code panics. *)
Fixpoint glob_match (s pattern : Str) {struct pattern} : option bool :=
  match pattern with
  | [] => Some (match s with [] => true | _ => false end)
  | pc :: rest_pattern =>
      if pc =? star then
        match rest_pattern with
        | [] => Some true
        | _ => try_suffixes (λ rest_s, glob_match rest_s rest_pattern) s
        end
      else match s with
           | sc :: s' => if sc =? pc then glob_match s' rest_pattern else Some false
           | [] => Some false
           end
  end.

(** ** The ACL *)

Inductive Permission : Type :=
| Anyone
| MatchSub
| Specific (fixed : Str).

Definition str_eqb (a b : Str) : bool := bool_decide (a = b).

Definition permission_from_str (s : Str) : Permission :=
  if str_eqb s (chars "*") then Anyone
  else if str_eqb s (chars "{sub}") then MatchSub
  else Specific s.

Definition allows (p : Permission) (caller_sub key_sub : option Str) : bool :=
  match caller_sub with
  | None => false
  | Some caller =>
      match p with
      | Anyone => true
      | MatchSub => bool_decide (Some caller = key_sub)
      | Specific fixed => str_eqb caller fixed
      end
  end.

Record AclRule : Type := mkRule {
  key_pattern : Str;
  r_read : Permission;
  r_write : Permission;
}.

(** The rules of the parsed file: key, read, write. *)
Definition rules_of (raw : list (Str * Str * Str)) : list AclRule :=
  (λ '(k, r, w), mkRule k (permission_from_str r) (permission_from_str w)) <$> raw.

Definition pattern_match (key pattern : Str) (sub : option Str) : option (option (option Str)) :=
  let has := contains (chars "{sub}") pattern in
  let expanded := if has then replace (chars "{sub}") (default [] sub) pattern else pattern in
  let captured := if has then sub else None in
  match glob_match key expanded with
  | None => None
  | Some true => Some (Some captured)
  | Some false => Some None
  end.

Fixpoint check (rules : list AclRule) (key : Str) (sub : option Str) (perm : AclRule → Permission) : option bool :=
  match rules with
  | [] => Some false
  | rule :: rules' =>
      match pattern_match key (key_pattern rule) sub with
      | None => None
      | Some (Some key_sub) => Some (allows (perm rule) sub key_sub)
      | Some None => check rules' key sub perm
      end
  end.

Definition can_read (rules : list AclRule) (key : Str) (sub : option Str) : option bool :=
  check rules key sub r_read.
Definition can_write (rules : list AclRule) (key : Str) (sub : option Str) : option bool :=
  check rules key sub r_write.

(** ** The rate limiter *)

Record Limiter : Type := mkLim {
  m_max : Z;
  m_count : Z;
  m_window : Z;
}.

Definition lim_new (max now : Z) : Limiter := mkLim max 0 now.

Definition lim_allow (r : Limiter) (now1 now2 : Z) : bool * Limiter :=
  let r1 := if 1 <=? elapsed_secs (m_window r) now1 then mkLim (m_max r) 0 now2 else r in
  let n := u32_add (m_count r1) 1 in
  (n <=? m_max r1, mkLim (m_max r1) n (m_window r1)).

Fixpoint lim_run (r : Limiter) (calls : list (Z * Z)) : list bool :=
  match calls with
  | [] => []
  | (now1, now2) :: calls' => let '(ok, r') := lim_allow r now1 now2 in ok :: lim_run r' calls'
  end.

(** The decisions of the server's limiter on the same calls. *)
Fixpoint server_run (r : RateLimiter) (calls : list (Z * Z)) : list bool :=
  match calls with
  | [] => []
  | (now1, now2) :: calls' => let '(ok, r') := limiter_allow r now1 now2 in ok :: server_run r' calls'
  end.

(** ** Glob matching is glob matching *)

(** What a pattern means: a star stands for any characters. *)
Inductive matches : Str → Str → Prop :=
| m_end : matches [] []
| m_star p pre s : matches p s → matches (star :: p) (pre ++ s)
| m_char c p s : c ≠ star → matches p s → matches (c :: p) (c :: s).

Definition is_ascii (c : Z) : Prop := 0 ≤ c < 128.

Lemma try_suffixes_spec f s (P : Str → Prop) :
  Forall is_ascii s → (∀ t, Forall is_ascii t → ∃ b, f t = Some b ∧ (b = true ↔ P t)) →
  ∃ b, try_suffixes f s = Some b ∧ (b = true ↔ ∃ pre t, s = (pre ++ t)%list ∧ P t).
Proof.
  intros Hs Hf. induction Hs as [|c s Hc Hs IH]; cbn [try_suffixes].
  - destruct (Hf [] ltac:(constructor)) as ([] & -> & Hb); (eexists; split; [done|]); split; try done.
    + intros _. exists [], []. split; [done|]. by apply Hb.
    + intros (pre & t & E & HP). symmetry in E. apply app_nil in E as [-> ->]. by apply Hb.
  - destruct (Hf (c :: s) ltac:(by constructor)) as ([] & -> & Hb).
    { exists true. split; [done|]. split; [|done]. intros _. exists [], (c :: s). split; [done|]. by apply Hb. }
    unfold len_utf8. rewrite (proj2 (Z.ltb_lt c 128)) by apply Hc. cbn.
    destruct IH as (b & -> & Hi). exists b. split; [done|]. rewrite Hi. split.
    + intros (pre & t & -> & HP). by exists (c :: pre), t.
    + intros ([|c' pre] & t & E & HP); cbn in E.
      * subst t. apply Hb in HP. done.
      * injection E as _ ->. eauto.
Qed.

Lemma matches_star p s : matches (star :: p) s ↔ ∃ pre t, s = (pre ++ t)%list ∧ matches p t.
Proof.
  split.
  - intros Hm. inversion Hm as [|p' pre t Ht|]; subst; [eauto|done].
  - intros (pre & t & -> & Ht). by constructor.
Qed.

Lemma matches_char c p s : c ≠ star → matches (c :: p) s ↔ ∃ t, s = c :: t ∧ matches p t.
Proof.
  intros Hc. split.
  - intros Hm. inversion Hm; subst; [done|eauto].
  - intros (t & -> & Ht). by constructor.
Qed.

Lemma glob_match_spec s p :
  Forall is_ascii s → ∃ b, glob_match s p = Some b ∧ (b = true ↔ matches p s).
Proof.
  revert s. induction p as [|c p IH]; intros s Hs; cbn [glob_match].
  - exists (match s with [] => true | _ => false end). split; [done|].
    destruct s; split; try done; [constructor|]. intros Hm. inversion Hm.
  - destruct (Z.eqb_spec c star) as [->|Hc].
    + destruct p as [|c' p'].
      { exists true. split; [done|]. split; [|done]. intros _. rewrite <- (app_nil_r s). by repeat constructor. }
      setoid_rewrite matches_star. apply try_suffixes_spec; [done|]. intros t Ht. by apply IH.
    + setoid_rewrite (matches_char c p s Hc). destruct Hs as [|c' s Hc' Hs].
      { exists false. split; [done|]. split; [done|]. by intros (t & ? & _). }
      destruct (Z.eqb_spec c' c) as [->|Hne].
      * destruct (IH s Hs) as (b & -> & Hb). exists b. split; [done|]. rewrite Hb. split; [eauto|].
        by intros (t & [= <-] & ?).
      * exists false. split; [done|]. split; [done|]. intros (t & [= E] & _). congruence.
Qed.

(** C38. Glob matching on ASCII keys. The matcher terminates without a panic and
    answers whether the key is an instance of the pattern, where each star stands
    for any (possibly empty) sequence of characters. *)
Theorem glob_match_correct s p :
  Forall is_ascii s → glob_match s p = Some true ∧ matches p s ∨ glob_match s p = Some false ∧ ¬ matches p s.
Proof.
  intros Hs. destruct (glob_match_spec s p Hs) as ([] & -> & Hb); [left|right]; (split; [done|]).
  - by apply Hb.
  - intros Hm. by apply Hb in Hm.
Qed.

Lemma glob_match_correct_witness : matches (chars "user.*.score") (chars "user.alice.score").
Proof.
  destruct (glob_match_correct (chars "user.alice.score") (chars "user.*.score")) as [[_ Hm]|[Hm _]].
  - cbv. by repeat constructor.
  - exact Hm.
  - discriminate Hm.
Defined.

(** A character beyond ASCII after a star makes the matcher panic: it slices
    the key at a byte offset inside the character.  The key "é" against the
    pattern "*a" is enough; so any key a client names can stop the check. *)
Theorem glob_match_panics c p s :
  128 ≤ c → glob_match (c :: s) p = Some false → p ≠ [] → glob_match (c :: s) (star :: p) = None.
Proof.
  intros Hc Hm Hp. cbn [glob_match]. change (star =? star) with true. cbv iota.
  destruct p as [|c' p']; [done|]. cbn [try_suffixes]. rewrite Hm.
  assert (Hl : 1 <? len_utf8 c = true).
  { unfold len_utf8. rewrite (proj2 (Z.ltb_ge c 128)) by done. by repeat case_match. }
  by rewrite Hl.
Qed.

Lemma glob_match_panics_witness : glob_match [233] (chars "*a") = None.
Proof. by apply (glob_match_panics 233 (chars "a") []). Defined.

(** The caller's name is used as a pattern. With the rule that gives each user
    the keys under their own name, a caller whose [sub] is "*" may write any other
    user's keys, although nobody else may. *)
Theorem acl_sub_is_a_pattern :
  let rules := rules_of [(chars "user.{sub}.*", chars "{sub}", chars "{sub}")] in
  can_write rules (chars "user.alice.score") (Some (chars "alice")) = Some true ∧
  can_write rules (chars "user.alice.score") (Some (chars "bob")) = Some false ∧
  can_write rules (chars "user.alice.score") (Some (chars "*")) = Some true ∧
  can_write rules (chars "user.alice.score") None = Some false.
Proof. vm_compute. done. Qed.

(** An anonymous caller is never allowed. *)
Lemma check_anonymous rules key perm : check rules key None perm ≠ Some true.
Proof.
  induction rules as [|rule rules IH]; [done|]. cbn [check].
  destruct (pattern_match key (key_pattern rule) None) as [[ks|]|]; done.
Qed.

(** ** The two limiters agree *)

(** The middleware's counter runs on past the maximum, the server's stops there. *)
Definition same_window (r : Limiter) (t : RateLimiter) : Prop :=
  m_max r = max_per_sec t ∧ m_window r = window_start t ∧ Z.min (m_count r) (m_max r) = count t ∧
  0 ≤ m_count r ∧ 0 ≤ m_max r.

Lemma lim_allow_agrees r t now1 now2 :
  same_window r t → m_count r < u32_max →
  (lim_allow r now1 now2).1 = (limiter_allow t now1 now2).1 ∧
  same_window (lim_allow r now1 now2).2 (limiter_allow t now1 now2).2 ∧
  m_count (lim_allow r now1 now2).2 ≤ m_count r + 1.
Proof.
  intros (Hm & Hw & Hc & H0 & H1) Hlt. unfold lim_allow, limiter_allow. rewrite <- Hw.
  assert (Hwin : ∃ n w, (if 1 <=? elapsed_secs (m_window r) now1 then mkLim (m_max r) 0 now2 else r) = mkLim (m_max r) n w ∧
    (if 1 <=? elapsed_secs (m_window r) now1 then mkLimiter (max_per_sec t) 0 now2 else t) =
      mkLimiter (m_max r) (Z.min n (m_max r)) w ∧ 0 ≤ n ≤ m_count r).
  { destruct (1 <=? _); [exists 0, now2|exists (m_count r), (m_window r)].
    - rewrite Hm in *. rewrite Z.min_l by lia. split_and!; try done; lia.
    - destruct r, t. cbn in *. subst. split_and!; try done; lia. }
  destruct Hwin as (n & w & -> & -> & Hn). cbn. rewrite u32_add_small by lia.
  assert (Hdec : (n + 1 <=? m_max r) = (Z.min n (m_max r) <? m_max r)).
  { destruct (Z.leb_spec (n + 1) (m_max r)), (Z.ltb_spec (Z.min n (m_max r)) (m_max r)); lia. }
  rewrite Hdec. destruct (Z.ltb_spec (Z.min n (m_max r)) (m_max r)); cbn; split_and!; unfold same_window; cbn; try done; lia.
Qed.

(** The middleware's limiter decides as the server's. On the same sequence of
    calls, shorter than its 32-bit counter can count, the two limiters allow
    exactly the same calls, although they count differently. *)
Theorem limiters_agree max now calls :
  0 ≤ max → Z.of_nat (length calls) ≤ u32_max →
  lim_run (lim_new max now) calls = server_run (limiter_new max now) calls.
Proof.
  intros Hmax Hlen.
  assert (Hgen : ∀ r t, same_window r t → m_count r + Z.of_nat (length calls) ≤ u32_max →
    lim_run r calls = server_run t calls).
  { clear Hlen. induction calls as [|[now1 now2] calls IH]; intros r t Hs Hl; [done|].
    cbn [lim_run server_run length] in *.
    destruct (lim_allow_agrees r t now1 now2 Hs ltac:(lia)) as (Hd & Hs' & Hc).
    destruct (lim_allow r now1 now2) as [ok r'], (limiter_allow t now1 now2) as [ok' t']. cbn in *.
    subst ok'. f_equal. apply IH; [done|lia]. }
  apply Hgen; [|cbn; lia]. split_and!; cbn; try done; lia.
Qed.

Lemma limiters_agree_witness :
  lim_run (lim_new 1 0) [(0, 0); (5, 5); (1000000000, 1000000001)] = [true; false; true].
Proof.
  rewrite (limiters_agree 1 0 [(0, 0); (5, 5); (1000000000, 1000000001)]); [reflexivity|lia|].
  vm_compute. discriminate.
Defined.
