(* ===== verification/WritePool.v ===== *)
(** * Write handles and the write pool (src/src/write_pool.rs)

    A [WriteHandle] is the sending end of a session, shared by the session and
    by every subscription of it (an [Arc]): the model keeps all handles in a
    store and passes references.  The first part models the operations as a
    caller sees them; [Module Pool] models pool mode step by step, with any
    number of senders and workers interleaving between the atomic operations. *)

From S2P Require Import Prelude Json Frame.

Local Open Scope string_scope.

(** ** Data *)

Inductive Message : Type :=
| MBinary (b : list byte)
| MPing
| MPong (data : list byte).

(** [Inner]: how a handle's queue is drained. *)
Inductive Inner : Type :=
| Task
| InPool (in_pool : bool) (pending : Z).

Record WriteHandle : Type := mkHandle {
  h_cancelled : bool;              (* the session's [CancellationToken] *)
  h_inner : Inner;
  h_queue : list OutboundMsg;      (* the bounded channel *)
  h_backpressure : nat;            (* its capacity *)
  h_rx_open : bool;                (* the receiver has not been dropped *)
  h_wire : list Message;           (* what was fed to the socket, in order *)
}.

(** All handles by reference, and the queue of handles the workers serve. *)
Record Net : Type := mkNet {
  handles : gmap nat WriteHandle;
  pool_queue : list nat;
}.

Definition with_handle (n : Net) (r : nat) (h : WriteHandle) : Net :=
  mkNet (<[r := h]> (handles n)) (pool_queue n).

(** ** Creation *)

Inductive WriteMode : Type := ModeTask | ModePool.

(** [make_handle]; [r] is the new reference. *)
Definition make_handle (mode : WriteMode) (n : Net) (r : nat) (backpressure : nat) : Net :=
  with_handle n r
    (mkHandle false (match mode with ModeTask => Task | ModePool => InPool false 0 end)
       [] backpressure true []).

(** ** Sending *)

(** [mpsc::Sender::try_send]: fails when the channel is full or closed. *)
Definition try_send (h : WriteHandle) (msg : OutboundMsg) : option WriteHandle :=
  if h_rx_open h && Nat.ltb (length (h_queue h)) (h_backpressure h)
  then Some (mkHandle (h_cancelled h) (h_inner h) (h_queue h ++ [msg])%list
               (h_backpressure h) (h_rx_open h) (h_wire h))
  else None.

Definition cancel (h : WriteHandle) : WriteHandle :=
  mkHandle true (h_inner h) (h_queue h) (h_backpressure h) (h_rx_open h) (h_wire h).

Definition with_inner (h : WriteHandle) (i : Inner) : WriteHandle :=
  mkHandle (h_cancelled h) i (h_queue h) (h_backpressure h) (h_rx_open h) (h_wire h).

Definition pool_enqueue (n : Net) (r : nat) : Net :=
  match handles n !! r with
  | Some h =>
      match h_inner h with
      | InPool false p =>
          mkNet (<[r := with_inner h (InPool true p)]> (handles n)) (pool_queue n ++ [r])
      | _ => n
      end
  | None => n
  end.

Definition handle_send (n : Net) (r : nat) (msg : OutboundMsg) : bool * Net :=
  match handles n !! r with
  | None => (false, n)
  | Some h =>
      match h_inner h with
      | Task =>
          match try_send h msg with
          | Some h' => (true, with_handle n r h')
          | None => (false, with_handle n r (cancel h))
          end
      | InPool b p =>
          match try_send (with_inner h (InPool b (p + 1))) msg with
          | Some h' => (true, pool_enqueue (with_handle n r h') r)
          | None => (false, with_handle n r (cancel (with_inner h (InPool b (p + 1 - 1)))))
          end
      end
  end.

(** ** Draining *)

Section Drain.
(** rmp_serde on a frame, and whether the socket takes a message. *)
Context (to_vec : Z * Z * Z * Value → result (list byte) string) (feed : Message → bool).

Definition to_ws_msg (outbound : OutboundMsg) : option Message :=
  match outbound with
  | OFrame f => match frame_encode to_vec f with Ok bytes => Some (MBinary bytes) | Err _ => None end
  | OBytes b => Some (MBinary b)
  | OArcDelta sid body_mp => Some (MBinary (delta_bytes sid 0 body_mp))
  | OPing => Some MPing
  | OPong data => Some (MPong data)
  end.

(** Feeding one message: whether the loop goes on, and the socket after. *)
Definition feed_one (wire : list Message) (msg : OutboundMsg) : bool * list Message :=
  match to_ws_msg msg with
  | None => (true, wire)
  | Some m => if feed m then (true, (wire ++ [m])%list) else (false, wire)
  end.

(** [while let Ok(m) = rx.try_recv()]: the queue and socket it leaves. *)
Fixpoint drain_loop (q : list OutboundMsg) (wire : list Message) : list OutboundMsg * list Message :=
  match q with
  | [] => ([], wire)
  | msg :: q' =>
      let '(go, wire') := feed_one wire msg in
      if go then drain_loop q' wire' else (q', wire')
  end.

(** One round of [write_task] when a message is received: [None] ends the task. *)
Definition write_task_round (flush_ok : bool) (msg : OutboundMsg) (q : list OutboundMsg)
    (wire : list Message) : option (list OutboundMsg) * list Message :=
  let '(go, wire1) := feed_one wire msg in
  if negb go then (None, wire1)
  else
    let '(q', wire2) := drain_loop q wire1 in
    (if flush_ok then Some q' else None, wire2).

(** [pool_drain]; every received message decrements [pending]. *)
Definition pool_drain (n : Net) (r : nat) : Net :=
  match handles n !! r with
  | Some h =>
      match h_inner h with
      | InPool _ p =>
          let '(q', wire') := drain_loop (h_queue h) (h_wire h) in
          let p' := (p - Z.of_nat (length (h_queue h) - length q'))%Z in
          let n' := with_handle n r
            (mkHandle (h_cancelled h) (InPool false p') q' (h_backpressure h) (h_rx_open h) wire') in
          if (0 <? p')%Z then pool_enqueue n' r else n'
      | Task => n
      end
  | None => n
  end.
End Drain.

(** ** What a caller relies on *)

(** A message sent reaches the queue exactly when there is room. *)
Definition has_room (h : WriteHandle) : bool :=
  h_rx_open h && Nat.ltb (length (h_queue h)) (h_backpressure h).

Definition queue_of (n : Net) (r : nat) : list OutboundMsg :=
  match handles n !! r with Some h => h_queue h | None => [] end.
Definition room_of (n : Net) (r : nat) : nat :=
  match handles n !! r with
  | Some h => if h_rx_open h then h_backpressure h - length (h_queue h) else 0
  | None => 0
  end.
Definition cancelled_of (n : Net) (r : nat) : bool :=
  match handles n !! r with Some h => h_cancelled h | None => false end.

Lemma pool_enqueue_queue n r r' :
  queue_of (pool_enqueue n r) r' = queue_of n r' ∧ room_of (pool_enqueue n r) r' = room_of n r' ∧
  cancelled_of (pool_enqueue n r) r' = cancelled_of n r' ∧
  (is_Some (handles (pool_enqueue n r) !! r') ↔ is_Some (handles n !! r')).
Proof.
  unfold pool_enqueue, queue_of, room_of, cancelled_of.
  destruct (handles n !! r) as [h|] eqn:E; [|done]. destruct (h_inner h) as [|[] p]; try done.
  cbn. destruct (decide (r' = r)) as [->|Hne]; [|by rewrite lookup_insert_ne].
  rewrite lookup_insert_eq, E. cbn. split_and!; [done..|]. split; eauto.
Qed.

(** [send] seen from outside: acceptance, queue, room, cancellation. *)
Lemma handle_send_spec n r msg r' :
  is_Some (handles n !! r) →
  let '(ok, n') := handle_send n r msg in
  ok = Nat.ltb 0 (room_of n r) ∧
  queue_of n' r' = (queue_of n r' ++ (if decide (r' = r) then if ok then [msg] else [] else []))%list ∧
  room_of n' r' = (if decide (r' = r) then room_of n r' - (if ok then 1 else 0) else room_of n r')%nat ∧
  cancelled_of n' r' = cancelled_of n r' || (if decide (r' = r) then negb ok else false) ∧
  (is_Some (handles n' !! r') ↔ is_Some (handles n !! r')).
Proof.
  intros [h Hh]. unfold handle_send. rewrite Hh.
  assert (Hok : has_room h = Nat.ltb 0 (room_of n r)).
  { unfold has_room, room_of. rewrite Hh. destruct (h_rx_open h); [|done]. rewrite andb_true_l.
    apply eq_true_iff_eq. rewrite !Nat.ltb_lt. lia. }
  assert (Hother : r' ≠ r → ∀ h', queue_of (with_handle n r h') r' = queue_of n r' ∧
    room_of (with_handle n r h') r' = room_of n r' ∧
    cancelled_of (with_handle n r h') r' = cancelled_of n r' ∧
    (is_Some (handles (with_handle n r h') !! r') ↔ is_Some (handles n !! r'))).
  { intros Hne h'. unfold queue_of, room_of, cancelled_of, with_handle. cbn.
    by rewrite lookup_insert_ne. }
  assert (Hself : ∀ h', handles (with_handle n r h') !! r = Some h') by (intros; apply lookup_insert_eq).
  assert (Hp : ∀ h', let n' := pool_enqueue (with_handle n r h') r in
    queue_of n' r' = queue_of (with_handle n r h') r' ∧ room_of n' r' = room_of (with_handle n r h') r' ∧
    cancelled_of n' r' = cancelled_of (with_handle n r h') r' ∧
    (is_Some (handles n' !! r') ↔ is_Some (handles (with_handle n r h') !! r')))
    by (intros h'; apply pool_enqueue_queue).
  destruct (h_inner h) as [|b p]; unfold try_send; cbn [h_rx_open h_queue h_backpressure with_inner];
    fold (has_room h); destruct (has_room h) eqn:Er; (split; [done|]).
  all: try (edestruct Hp as (-> & -> & -> & ->)).
  all: destruct (decide (r' = r)) as [->|Hne];
    [|edestruct (Hother Hne) as (-> & -> & -> & ->); by rewrite app_nil_r, orb_false_r].
  all: unfold queue_of, room_of, cancelled_of; rewrite Hself, Hh; cbn;
    rewrite ?length_app, ?app_nil_r, ?orb_false_r, ?orb_true_r; cbn.
  all: split_and!; try done; try (split; eauto); try (destruct (h_rx_open h); lia).
Qed.

(** Draining in pool mode. When the socket takes every message and [pending]
    counts the queue, [pool_drain] empties the queue, feeds the messages to the
    socket in order (those that encode), and leaves the handle idle, out of the
    workers' queue, with [pending] zero. *)
Theorem pool_drain_fifo to_vec n r h b :
  handles n !! r = Some h → h_inner h = InPool b (Z.of_nat (length (h_queue h))) →
  let n' := pool_drain to_vec (λ _, true) n r in
  pool_queue n' = pool_queue n ∧
  handles n' !! r = Some (mkHandle (h_cancelled h) (InPool false 0) [] (h_backpressure h)
                            (h_rx_open h) (h_wire h ++ omap (to_ws_msg to_vec) (h_queue h))).
Proof.
  intros Hh Hi n'.
  assert (Hdrain : ∀ q wire, drain_loop to_vec (λ _, true) q wire =
    ([], (wire ++ omap (to_ws_msg to_vec) q)%list)).
  { induction q as [|m q IH]; intros wire; [cbn; by rewrite app_nil_r|].
    cbn [drain_loop omap list_omap]. unfold feed_one.
    destruct (to_ws_msg to_vec m); rewrite IH; [by rewrite <- app_assoc|done]. }
  unfold n', pool_drain. rewrite Hh, Hi, Hdrain.
  rewrite Nat.sub_0_r, Z.sub_diag. cbn. by rewrite lookup_insert_eq.
Qed.

Lemma pool_drain_fifo_witness :
  let h := mkHandle false (InPool true 2) [OPing; OBytes [x01]] 8 true [] in
  let n' := pool_drain (λ _, Err "") (λ _, true) (mkNet {[ 0 := h ]} []) 0 in
  (h_wire <$> handles n' !! 0) = Some [MPing; MBinary [x01]].
Proof.
  intros h n'. destruct (pool_drain_fifo (λ _, Err "") (mkNet {[ 0 := h ]} []) 0 h true) as [_ H];
    [reflexivity|reflexivity|]. unfold n'. rewrite H. reflexivity.
Defined.

(** ** Pool mode, step by step *)

Module Pool.
Section Steps.
Context {M : Type} (capacity : nat).

(** Where a thread is: senders in [send] and [pool_enqueue], workers in
    [pool_drain]. *)
Inductive pc : Type :=
| SAdded    (* sender: [pending] incremented *)
| SFailed   (* sender: [try_send] failed *)
| SSent     (* sender: message in the channel, before the compare-exchange *)
| SWon      (* sender: compare-exchange succeeded, before queueing the handle *)
| WTaken    (* worker: took the handle from the pool's queue *)
| WDrain    (* worker: holds the locks, about to [try_recv] *)
| WPopped   (* worker: received a message *)
| WFeed     (* worker: [pending] decremented, about to feed *)
| WFlush    (* worker: loop left, locks still held *)
| WStore    (* worker: locks dropped, about to clear [in_pool] *)
| WLoad     (* worker: about to read [pending] *)
| WAgain    (* worker: [pending] was positive, before the compare-exchange *)
| WWon.     (* worker: compare-exchange succeeded *)

Definition pc_eqb (a b : pc) : bool :=
  match a, b with
  | SAdded, SAdded | SFailed, SFailed | SSent, SSent | SWon, SWon | WTaken, WTaken
  | WDrain, WDrain | WPopped, WPopped | WFeed, WFeed | WFlush, WFlush | WStore, WStore
  | WLoad, WLoad | WAgain, WAgain | WWon, WWon => true
  | _, _ => false
  end.

(** How many threads are at each point. *)
Definition counts := pc → nat.
Definition enter (a : pc) (f : counts) : counts := λ x, if pc_eqb x a then S (f x) else f x.
Definition leave (a : pc) (f : counts) : counts := λ x, if pc_eqb x a then pred (f x) else f x.
Definition move (a b : pc) (f : counts) : counts := enter b (leave a f).

Record state : Type := mkState {
  at_pc : counts;
  queue : list M;            (* the session's channel *)
  pending : Z;
  in_pool : bool;
  pool_q : nat;              (* occurrences of the handle in the pool's queue *)
  held : list M;             (* received by a worker and not yet fed *)
  processed : list (M * bool);    (* fed, and whether the socket took it *)
  accepted : list M;         (* messages for which [send] returned true *)
}.

Definition init : state := mkState (λ _, 0) [] 0 false 0 [] [] [].

(** A step of a thread that is under way. *)
Inductive tstep : state → state → Prop :=
| send_ok f q p b k h d a m :
    f SAdded > 0 → length q < capacity →
    tstep (mkState f q p b k h d a)
         (mkState (move SAdded SSent f) (q ++ [m]) p b k h d (a ++ [m]))
| send_full f q p b k h d a :
    f SAdded > 0 → ¬ length q < capacity →
    tstep (mkState f q p b k h d a) (mkState (move SAdded SFailed f) q p b k h d a)
| send_undo f q p b k h d a :
    f SFailed > 0 →
    tstep (mkState f q p b k h d a) (mkState (leave SFailed f) q (p - 1) b k h d a)
| send_cas_win f q p k h d a :
    f SSent > 0 →
    tstep (mkState f q p false k h d a) (mkState (move SSent SWon f) q p true k h d a)
| send_cas_lose f q p k h d a :
    f SSent > 0 →
    tstep (mkState f q p true k h d a) (mkState (leave SSent f) q p true k h d a)
| send_enqueue f q p b k h d a :
    f SWon > 0 →
    tstep (mkState f q p b k h d a) (mkState (leave SWon f) q p b (S k) h d a)
| work_take f q p b k h d a :
    tstep (mkState f q p b (S k) h d a) (mkState (enter WTaken f) q p b k h d a)
| work_lock f q p b k h d a :
    f WTaken > 0 → f WDrain + f WPopped + f WFeed + f WFlush = 0 →
    tstep (mkState f q p b k h d a) (mkState (move WTaken WDrain f) q p b k h d a)
| work_pop f q p b k h d a m :
    f WDrain > 0 →
    tstep (mkState f (m :: q) p b k h d a) (mkState (move WDrain WPopped f) q p b k (h ++ [m]) d a)
| work_dec f q p b k h d a :
    f WPopped > 0 →
    tstep (mkState f q p b k h d a) (mkState (move WPopped WFeed f) q (p - 1) b k h d a)
| work_feed_ok f q p b k m h d a (taken : bool) :
    (* fed, or skipped because it does not encode *)
    f WFeed > 0 →
    tstep (mkState f q p b k (m :: h) d a) (mkState (move WFeed WDrain f) q p b k h (d ++ [(m, taken)]) a)
| work_feed_fail f q p b k m h d a :
    f WFeed > 0 →
    tstep (mkState f q p b k (m :: h) d a) (mkState (move WFeed WFlush f) q p b k h (d ++ [(m, false)]) a)
| work_empty f p b k h d a :
    f WDrain > 0 →
    tstep (mkState f [] p b k h d a) (mkState (move WDrain WFlush f) [] p b k h d a)
| work_unlock f q p b k h d a :
    f WFlush > 0 →
    tstep (mkState f q p b k h d a) (mkState (move WFlush WStore f) q p b k h d a)
| work_store f q p b k h d a :
    f WStore > 0 →
    tstep (mkState f q p b k h d a) (mkState (move WStore WLoad f) q p false k h d a)
| work_load_zero f q p b k h d a :
    f WLoad > 0 → ¬ (0 < p)%Z →
    tstep (mkState f q p b k h d a) (mkState (leave WLoad f) q p b k h d a)
| work_load_pos f q p b k h d a :
    f WLoad > 0 → (0 < p)%Z →
    tstep (mkState f q p b k h d a) (mkState (move WLoad WAgain f) q p b k h d a)
| work_cas_win f q p k h d a :
    f WAgain > 0 →
    tstep (mkState f q p false k h d a) (mkState (move WAgain WWon f) q p true k h d a)
| work_cas_lose f q p k h d a :
    f WAgain > 0 →
    tstep (mkState f q p true k h d a) (mkState (leave WAgain f) q p true k h d a)
| work_enqueue f q p b k h d a :
    f WWon > 0 →
    tstep (mkState f q p b k h d a) (mkState (leave WWon f) q p b (S k) h d a).

(** A new sender enters [send], or a thread goes on. *)
Inductive step : state → state → Prop :=
| send_add f q p b k h d a :
    step (mkState f q p b k h d a) (mkState (enter SAdded f) q (p + 1) b k h d a)
| thread_step s s' : tstep s s' → step s s'.

Definition reachable (s : state) : Prop := rtc step init s.

(** ** The invariant *)

(** Whoever holds the handle's token: the pool's queue, a thread about to queue
    it, or the worker serving it. *)
Definition tokens (s : state) : nat :=
  pool_q s + at_pc s SWon + at_pc s WWon + at_pc s WTaken + at_pc s WDrain + at_pc s WPopped +
  at_pc s WFeed + at_pc s WFlush + at_pc s WStore.

Record inv (s : state) : Prop := {
  i_token : tokens s = if in_pool s then 1 else 0;
  i_pending : pending s =
    Z.of_nat (length (queue s) + at_pc s SAdded + at_pc s SFailed + at_pc s WPopped);
  i_wake : queue s = [] ∨ in_pool s = true ∨ at_pc s SSent + at_pc s WLoad + at_pc s WAgain > 0;
  i_held : length (held s) = at_pc s WPopped + at_pc s WFeed;
  i_fifo : accepted s = ((fst <$> processed s) ++ held s ++ queue s)%list;
}.

Ltac open_counts :=
  unfold tokens, move, enter, leave in *; cbn [at_pc queue pending in_pool pool_q held processed
    accepted pc_eqb] in *.

Lemma init_inv : inv init.
Proof. split; cbn; auto. Qed.

Lemma tstep_inv s s' : tstep s s' → inv s → inv s'.
Proof.
  intros Hstep [Ht Hp Hw Hh Hf].
  destruct Hstep; open_counts; split; open_counts;
    rewrite ?length_app in *; cbn [length] in *;
    try (rewrite ?fmap_app, ?Hf, <- ?app_assoc; cbn; done);
    try (destruct b; lia); try lia.
  all: try (destruct Hw as [->|[?|?]]; [left; done|right; left; done|right; right; lia]).
  all: try (right; right; lia); try (right; left; done).
  left. apply nil_length_inv. lia.
Qed.

Lemma step_inv s s' : step s s' → inv s → inv s'.
Proof.
  intros [f q p b k h d a|? ? Hs]; [|by apply tstep_inv].
  intros [Ht Hp Hw Hh Hf]. split; open_counts; [done|lia|done..].
Qed.

Lemma reachable_inv s : reachable s → inv s.
Proof.
  unfold reachable. intros Hr. revert Hr. generalize init_inv. generalize init.
  intros s0 Hi Hr. induction Hr as [|x y z Hxy _ IH]; [done|]. eapply IH, step_inv; eauto.
Qed.

(** No thread is inside [send], [pool_enqueue] or [pool_drain], and no worker
    is due to serve the handle. *)
Definition quiescent (s : state) : Prop := (∀ c, at_pc s c = 0) ∧ pool_q s = 0.

Lemma quiescent_settled s :
  inv s → quiescent s →
  queue s = [] ∧ pending s = 0%Z ∧ in_pool s = false ∧ held s = [] ∧
  fst <$> processed s = accepted s.
Proof.
  intros [Ht Hp Hw Hh Hf] [Hpc Hq]. unfold tokens in Ht. rewrite !Hpc, Hq in *.
  destruct (in_pool s) eqn:E; [done|].
  assert (queue s = []) as Hqu by (destruct Hw as [?|[?|?]]; [done|done|lia]).
  assert (held s = []) as Hhe by (apply nil_length_inv; lia).
  rewrite Hqu, Hhe in *. rewrite !app_nil_r in Hf. cbn in Hp. by split_and!.
Qed.

(** C16. No lost wake-up. Whatever the interleaving of senders and workers, when
    every thread has come to rest the channel is empty, [pending] is zero, the
    handle is free to be queued again, and every message accepted by [send] has
    been taken to the socket exactly once, in the order of acceptance. *)
Theorem pool_no_lost_wakeup s :
  reachable s → quiescent s →
  queue s = [] ∧ pending s = 0%Z ∧ in_pool s = false ∧ held s = [] ∧
  fst <$> processed s = accepted s.
Proof. intros Hi%reachable_inv. by apply quiescent_settled. Qed.

(** Mutual exclusion and bounds. At most one worker serves a session at a
    time and the handle is in the pool's queue at most once, so a session's
    messages are never fed by two workers; [pending] never goes below zero. *)
Theorem pool_single_worker s :
  reachable s →
  (pool_q s + at_pc s WTaken + at_pc s WDrain + at_pc s WPopped + at_pc s WFeed + at_pc s WFlush ≤ 1)%nat ∧
  (0 ≤ pending s)%Z ∧ (length (held s) ≤ 1)%nat.
Proof.
  intros [Ht Hp Hw Hh Hf]%reachable_inv. unfold tokens in Ht.
  split_and!; [destruct (in_pool s); lia|lia|destruct (in_pool s); lia].
Qed.

Lemma tstep_at `{!Inhabited M} (s : state) c : at_pc s c > 0 → inv s → ∃ s', tstep s s'.
Proof.
  intros Hc [Ht Hp Hw Hh Hf]. destruct s as [f q p b k h d a]. unfold tokens in Ht. cbn in *.
  assert (Hmax : (f WTaken + f WDrain + f WPopped + f WFeed + f WFlush ≤ 1)%nat) by (destruct b; lia).
  destruct c.
  - destruct (decide (length q < capacity)); eexists; [|by apply send_full].
    by apply (send_ok _ _ _ _ _ _ _ _ inhabitant).
  - eexists. by apply send_undo.
  - destruct b; eexists; [by apply send_cas_lose|by apply send_cas_win].
  - eexists. by apply send_enqueue.
  - eexists. apply work_lock; [done|lia].
  - destruct q; eexists; [by apply work_empty|by apply work_pop].
  - eexists. by apply work_dec.
  - destruct h as [|m h]; [cbn in Hh; lia|]. eexists. by apply (work_feed_ok _ _ _ _ _ _ _ _ _ true).
  - eexists. by apply work_unlock.
  - eexists. by apply work_store.
  - destruct (decide (0 < p)%Z); eexists; [by apply work_load_pos|by apply work_load_zero].
  - destruct b; eexists; [by apply work_cas_lose|by apply work_cas_win].
  - eexists. by apply work_enqueue.
Qed.

Definition all_pcs : list pc :=
  [SAdded; SFailed; SSent; SWon; WTaken; WDrain; WPopped; WFeed; WFlush; WStore; WLoad; WAgain; WWon].

Lemma all_pcs_spec c : c ∈ all_pcs.
Proof. unfold all_pcs. rewrite !elem_of_cons. destruct c; tauto. Qed.

Lemma quiescent_or_steps `{!Inhabited M} s : inv s → quiescent s ∨ ∃ s', tstep s s'.
Proof.
  intros Hi. destruct (decide (pool_q s = 0)) as [Hq|Hq].
  2:{ right. destruct s as [f q p b k h d a]. cbn in Hq. destruct k as [|k]; [done|].
      eexists. apply work_take. }
  destruct (decide (Exists (λ c, 0 < at_pc s c) all_pcs)) as [E|E].
  - right. apply Exists_exists in E as (c & _ & Hc). by eapply tstep_at.
  - left. split; [|done]. intros c. destruct (at_pc s c) eqn:Ec; [done|]. destruct E.
    apply Exists_exists. exists c. split; [apply all_pcs_spec|lia].
Qed.

(** Deadlock freedom. As long as a message waits in the channel, or any thread
    is inside the code, or the handle is queued, some thread can take a step of
    its own, without waiting for another [send]. *)
Theorem pool_progress `{!Inhabited M} s :
  reachable s → queue s ≠ [] ∨ ¬ quiescent s → ∃ s', tstep s s'.
Proof.
  intros Hi%reachable_inv Hor. destruct (quiescent_or_steps s Hi) as [Hq|?]; [|done].
  destruct (quiescent_settled s Hi Hq) as [? _]. tauto.
Qed.

(** ** Termination *)

(** Messages still to be handled, counting a waiting message twice (to be
    received, then to be taken off [pending]). *)
Definition work (s : state) : nat := 2 * length (queue s) + at_pc s WPopped.

Definition threads (s : state) : nat := pool_q s + sum_list_with (at_pc s) all_pcs.

(** How far a thread is from its next useful event: with messages left, from
    the next [try_recv]; with none, from leaving the code. *)
Definition rank (busy : bool) (c : pc) : nat :=
  match c with
  | SAdded | SFailed => 0
  | SSent | WAgain => if busy then 8 else 10
  | SWon | WWon => if busy then 7 else 9
  | WTaken => if busy then 5 else 7
  | WDrain => if busy then 4 else 6
  | WPopped => 13
  | WFeed => if busy then 12 else 7
  | WFlush => if busy then 11 else 5
  | WStore => if busy then 10 else 4
  | WLoad => if busy then 9 else 3
  end.

Definition distance (s : state) : nat :=
  let busy := Nat.ltb 0 (work s) in
  (if busy then 6 else 8) * pool_q s +
  sum_list_with (λ c, rank busy c * at_pc s c) all_pcs.

(** The number of steps the threads under way can still take. *)
Definition step_bound (s : state) : nat := work s * (14 * threads s + 1) + distance s.

(** No [send] is between its increment of [pending] and its [try_send]. *)
Definition no_adder (s : state) : Prop := at_pc s SAdded = 0 ∧ at_pc s SFailed = 0.

Lemma tstep_no_adder s s' : tstep s s' → no_adder s → no_adder s'.
Proof. unfold no_adder. destruct 1; open_counts; lia. Qed.

Lemma distance_le s : (distance s ≤ 13 * threads s)%nat.
Proof.
  unfold distance, threads, all_pcs. destruct (Nat.ltb 0 (work s)); cbn; lia.
Qed.

(** A step handles part of a message, or brings a thread closer to the next
    event; threads only disappear. *)
Lemma tstep_decreases s s' :
  tstep s s' → inv s → no_adder s →
  (threads s' ≤ threads s)%nat ∧
  ((work s' < work s)%nat ∨ work s' = work s ∧ (distance s' < distance s)%nat).
Proof.
  intros Hstep [Ht Hp Hw Hh Hf] [Ha Hb].
  unfold distance, work, threads, all_pcs.
  destruct Hstep; cbn [sum_list_with] in *; open_counts; cbn [length] in *; (split; [try lia|]);
    try (left; lia); try (exfalso; lia); right; (split; [lia|]).
  all: match goal with |- context [Nat.ltb 0 ?x] => destruct (Nat.ltb_spec 0 x) end; cbn [rank]; try lia.
  all: try (destruct b; lia).
Qed.

Lemma tstep_bound s s' :
  tstep s s' → inv s → no_adder s → (step_bound s' < step_bound s)%nat.
Proof.
  intros Hs Hi Hn. destruct (tstep_decreases s s' Hs Hi Hn) as [Ht Hd].
  pose proof (distance_le s') as Hl. unfold step_bound.
  destruct Hd as [Hw|[Hw Hd]].
  - assert (S (work s') * (14 * threads s' + 1) ≤ work s * (14 * threads s + 1))%nat
      by (apply Nat.mul_le_mono; lia). lia.
  - rewrite Hw. assert (work s * (14 * threads s' + 1) ≤ work s * (14 * threads s + 1))%nat
      by (apply Nat.mul_le_mono; lia). lia.
Qed.

(** C17. The pool comes to rest. Once every [send] has done its [try_send], the
    threads under way take at most [step_bound] further steps, whatever the
    interleaving and whichever messages the socket refuses; and a run that can
    go no further has taken every accepted message off the channel, in order,
    and left the handle idle.  (While a sender sits between its increment and its
    [try_send] the workers may requeue the handle any number of times.) *)
Theorem pool_terminates `{!Inhabited M} s :
  reachable s → no_adder s →
  (∀ n s', nsteps tstep n s s' → (n ≤ step_bound s)%nat) ∧
  (∀ s', rtc tstep s s' → (∀ s'', ¬ tstep s' s'') →
     quiescent s' ∧ queue s' = [] ∧ fst <$> processed s' = accepted s' ∧ accepted s' = accepted s).
Proof.
  intros Hr Hn. split.
  - intros n s' Hsteps. apply reachable_inv in Hr.
    induction Hsteps as [|n x y z Hxy _ IH]; [lia|].
    pose proof (tstep_bound x y Hxy Hr Hn).
    specialize (IH (tstep_inv x y Hxy Hr) (tstep_no_adder x y Hxy Hn)). lia.
  - intros s' Hrun Hend.
    assert (Hs' : reachable s' ∧ accepted s' = accepted s).
    { clear Hend. induction Hrun as [x|x y z Hxy _ IH]; [done|].
      destruct IH as [IH1 IH2]; [eapply rtc_r; [done|by apply thread_step]|by eapply tstep_no_adder|].
      split; [done|]. rewrite IH2. destruct Hn as [Hn1 _]. destruct Hxy; cbn in *; try done; lia. }
    destruct Hs' as [Hr' Ha].
    destruct (quiescent_or_steps s' (reachable_inv s' Hr')) as [Hq|[s'' Hs'']]; [|by destruct (Hend s'')].
    destruct (quiescent_settled s' (reachable_inv s' Hr') Hq) as (? & _ & _ & _ & ?).
    by split_and!.
Qed.
End Steps.

(** One message sent and drained, as an execution. *)
Lemma demo_reachable : ∃ s, @reachable nat 1 s ∧ quiescent s ∧ accepted s = [7].
Proof.
  eexists. split; [|split; [split|]].
  - unfold reachable, init.
    eapply rtc_l; [apply send_add|].
    eapply rtc_l; [apply thread_step, (send_ok _ _ _ _ _ _ _ _ _ 7); cbn; lia|].
    eapply rtc_l; [apply thread_step, send_cas_win; cbn; lia|].
    eapply rtc_l; [apply thread_step, send_enqueue; cbn; lia|].
    eapply rtc_l; [apply thread_step, work_take|].
    eapply rtc_l; [apply thread_step, work_lock; cbn; lia|].
    eapply rtc_l; [apply thread_step, work_pop; cbn; lia|].
    eapply rtc_l; [apply thread_step, work_dec; cbn; lia|].
    eapply rtc_l; [apply thread_step, (work_feed_ok _ _ _ _ _ _ _ _ _ _ true); cbn; lia|].
    eapply rtc_l; [apply thread_step, work_empty; cbn; lia|].
    eapply rtc_l; [apply thread_step, work_unlock; cbn; lia|].
    eapply rtc_l; [apply thread_step, work_store; cbn; lia|].
    eapply rtc_l; [apply thread_step, work_load_zero; cbn; lia|].
    apply rtc_refl.
  - intros c. by destruct c.
  - done.
  - done.
Qed.
End Pool.

Lemma pool_no_lost_wakeup_witness :
  ∃ s, @Pool.reachable nat 1 s ∧ fst <$> Pool.processed s = [7] ∧ Pool.queue s = [].
Proof.
  destruct Pool.demo_reachable as (s & Hr & Hq & Ha).
  destruct (Pool.pool_no_lost_wakeup 1 s Hr Hq) as (H1 & _ & _ & _ & H2).
  exists s. rewrite H2. auto.
Defined.

Lemma pool_single_worker_witness :
  ∃ s, @Pool.reachable nat 1 s ∧ (0 ≤ Pool.pending s)%Z.
Proof.
  destruct Pool.demo_reachable as (s & Hr & _).
  destruct (Pool.pool_single_worker 1 s Hr) as (_ & H & _). eauto.
Defined.

Lemma pool_progress_witness :
  ∃ s s', @Pool.reachable nat 1 s ∧ Pool.tstep 1 s s'.
Proof.
  set (s := Pool.mkState (M := nat) (Pool.enter Pool.SAdded (λ _, 0)) [] 1 false 0 [] [] []).
  assert (Pool.reachable 1 s) as Hr by (eapply rtc_l; [apply Pool.send_add|apply rtc_refl]).
  destruct (Pool.pool_progress 1 s Hr) as [s' Hs'].
  - right. intros [Hz _]. specialize (Hz Pool.SAdded). done.
  - eauto.
Defined.

Lemma pool_terminates_witness :
  ∃ s s', @Pool.reachable nat 1 s ∧ Pool.accepted s = [7] ∧ Pool.tstep 1 s s' ∧
    (1 ≤ Pool.step_bound s)%nat ∧ Pool.step_bound s = 38.
Proof.
  set (s := Pool.mkState (M := nat)
    (Pool.move Pool.SAdded Pool.SSent (Pool.enter Pool.SAdded (λ _, 0))) [7] 1 false 0 [] [] [7]).
  assert (Pool.reachable 1 s) as Hr.
  { eapply rtc_l; [apply Pool.send_add|]. eapply rtc_l; [|apply rtc_refl].
    apply Pool.thread_step, (Pool.send_ok 1 _ [] _ _ _ _ _ [] 7); cbn; lia. }
  assert (Hst : Pool.tstep 1 s (Pool.mkState (Pool.move Pool.SSent Pool.SWon (Pool.at_pc s)) [7] 1 true 0 [] [] [7]))
    by (apply Pool.send_cas_win; cbn; lia).
  eexists s, _. split_and!; [done|done|exact Hst| |reflexivity].
  destruct (Pool.pool_terminates 1 s Hr (conj eq_refl eq_refl)) as [H _].
  exact (H 1 _ (nsteps_once _ _ Hst)).
Defined.
