(* ===== verification/Fanout.v ===== *)
(** * The fanout bus (src/src/fanout.rs)

    The registry of subscriptions by state key, and the broadcast of an
    encoded delta to the subscribers of a key.  Subscribers refer to the write
    handles of WritePool.v; the bus and the handles are passed explicitly. *)

From S2P Require Import Prelude Json Delta Frame WritePool.

Local Open Scope string_scope.

(** ** Data *)

Definition DEFAULT_BACKPRESSURE_LIMIT : nat := 1024.

Record Subscriber : Type := mkSubscriber {
  session_id : string;
  sub_stream_id : Z;
  write : nat;              (* reference of the session's write handle *)
}.

Abbreviation FanoutBus := (gmap string (list Subscriber)).

Definition bus_new : FanoutBus := ∅.

(** rmp_serde's [to_vec_named] on the body [{version, ops}]. *)
Class BodyCodec : Type := {
  body_to_vec : Z → list DeltaOp → result (list byte) string;
}.

(** [unwrap_or_default]: an encoding error gives no bytes. *)
Definition encode_delta_body `{BodyCodec} (version : Z) (ops : list DeltaOp) : list byte :=
  match body_to_vec version ops with Ok b => b | Err _ => [] end.

(** ** Subscriptions *)

Definition subscribe (bus : FanoutBus) (state_key : string) (sub : Subscriber) : FanoutBus :=
  <[state_key := (default [] (bus !! state_key) ++ [sub])%list]> bus.

Definition not_session (sid : string) (s : Subscriber) : bool := negb (String.eqb (session_id s) sid).

Definition unsubscribe (bus : FanoutBus) (state_key sid : string) : FanoutBus :=
  match bus !! state_key with
  | Some subs => <[state_key := List.filter (not_session sid) subs]> bus
  | None => bus
  end.

Definition remove_session (bus : FanoutBus) (sid : string) : FanoutBus :=
  List.filter (not_session sid) <$> bus.

Definition subscriber_count (bus : FanoutBus) (state_key : string) : nat :=
  match bus !! state_key with Some subs => length subs | None => 0 end.

(** ** Broadcast *)

(** The sending loop: the sessions whose channel refused, in order. *)
Fixpoint send_loop (net : Net) (body_mp : list byte) (snapshot : list Subscriber) : list string * Net :=
  match snapshot with
  | [] => ([], net)
  | s :: rest =>
      let '(ok, net1) := handle_send net (write s) (OArcDelta (sub_stream_id s) body_mp) in
      let '(slow, net2) := send_loop net1 body_mp rest in
      (if ok then slow else session_id s :: slow, net2)
  end.

Definition not_excluded (exclude : option string) (s : Subscriber) : bool :=
  match exclude with None => true | Some ex => not_session ex s end.

Definition broadcast_encoded (bus : FanoutBus) (net : Net) (state_key : string)
    (body_mp : list byte) (exclude_session : option string) : FanoutBus * Net :=
  match bus !! state_key with
  | None => (bus, net)
  | Some subs =>
      match List.filter (not_excluded exclude_session) subs with
      | [] => (bus, net)
      | snapshot =>
          let '(slow, net') := send_loop net body_mp snapshot in
          match slow with
          | [] => (bus, net')
          | _ =>
              let keep s := negb (existsb (String.eqb (session_id s)) slow) in
              (<[state_key := List.filter keep subs]> bus, net')
          end
      end
  end.

Definition broadcast `{BodyCodec} (bus : FanoutBus) (net : Net) (state_key : string)
    (version : Z) (ops : list DeltaOp) : FanoutBus * Net :=
  match ops with
  | [] => (bus, net)
  | _ =>
      match encode_delta_body version ops with
      | [] => (bus, net)
      | body_mp => broadcast_encoded bus net state_key body_mp None
      end
  end.

(** ** What a broadcast delivers *)

Definition subs_of (bus : FanoutBus) (state_key : string) : list Subscriber :=
  default [] (bus !! state_key).

Lemma subs_of_subscribe bus k sub k' s :
  s ∈ subs_of (subscribe bus k sub) k' ↔ s ∈ subs_of bus k' ∨ (k' = k ∧ s = sub).
Proof.
  unfold subs_of, subscribe. destruct (decide (k' = k)) as [->|Hne].
  - rewrite lookup_insert_eq. cbn. rewrite elem_of_app, list_elem_of_singleton. naive_solver.
  - rewrite lookup_insert_ne by done. naive_solver.
Qed.

Lemma unsubscribe_filter bus key sid k :
  ∃ f : Subscriber → bool, subs_of (unsubscribe bus key sid) k = List.filter f (subs_of bus k).
Proof.
  assert (Hid : ∀ l : list Subscriber, l = List.filter (λ _, true) l).
  { induction l as [|x l IH]; [done|]. cbn. by rewrite <- IH. }
  unfold unsubscribe, subs_of. destruct (bus !! key) as [subs|] eqn:E; [|eauto].
  destruct (decide (k = key)) as [->|Hne].
  - rewrite lookup_insert_eq, E. cbn. eauto.
  - rewrite lookup_insert_ne by done. eauto.
Qed.

Lemma elem_of_unsubscribe bus key sid k s :
  s ∈ subs_of (unsubscribe bus key sid) k ↔ s ∈ subs_of bus k ∧ (k = key → session_id s ≠ sid).
Proof.
  unfold unsubscribe, subs_of. destruct (bus !! key) as [subs|] eqn:E.
  - destruct (decide (k = key)) as [->|Hne].
    + rewrite lookup_insert_eq, E. cbn. rewrite !list_elem_of_In, filter_In. unfold not_session.
      rewrite negb_true_iff, String.eqb_neq. naive_solver.
    + rewrite lookup_insert_ne by done. naive_solver.
  - split; [|naive_solver]. intros Hs. split; [done|]. intros ->. rewrite E in Hs. by apply elem_of_nil in Hs.
Qed.

(** The messages of a broadcast that go to handle [r]. *)
Definition deltas_for (r : nat) (body_mp : list byte) (subs : list Subscriber) : list OutboundMsg :=
  (λ s, OArcDelta (sub_stream_id s) body_mp) <$> filter (λ s, write s = r) subs.

(** Every subscriber's handle exists. *)
Definition handles_known (net : Net) (subs : list Subscriber) : Prop :=
  Forall (λ s, is_Some (handles net !! write s)) subs.

Lemma send_loop_spec net body subs r :
  handles_known net subs →
  let '(slow, net') := send_loop net body subs in
  queue_of net' r = (queue_of net r ++ take (room_of net r) (deltas_for r body subs))%list ∧
  room_of net' r = (room_of net r - length (deltas_for r body subs))%nat ∧
  cancelled_of net' r =
    cancelled_of net r || Nat.ltb (room_of net r) (length (deltas_for r body subs)) ∧
  (is_Some (handles net' !! r) ↔ is_Some (handles net !! r)).
Proof.
  revert net. induction subs as [|s subs IH]; intros net Hk.
  { cbn. rewrite take_nil, app_nil_r, Nat.sub_0_r. cbn. by rewrite orb_false_r. }
  apply Forall_cons in Hk as [Hs Hk]. cbn [send_loop].
  pose proof (λ r', handle_send_spec net (write s) (OArcDelta (sub_stream_id s) body) r' Hs) as Hsend.
  destruct (handle_send net (write s) _) as [ok net1].
  assert (Hk1 : handles_known net1 subs).
  { eapply Forall_impl; [exact Hk|]. cbn. intros s' Hs'.
    destruct (Hsend (write s')) as (_ & _ & _ & _ & Hiff). by apply Hiff. }
  specialize (IH net1 Hk1). destruct (send_loop net1 body subs) as [slow net2].
  destruct IH as (Q & R & C & H). destruct (Hsend r) as (Hok & Q1 & R1 & C1 & H1).
  rewrite Q, R, C, H, Q1, R1, C1, H1. unfold deltas_for. rewrite filter_cons.
  destruct (decide (r = write s)) as [->|Hne].
  - rewrite decide_True by done. cbn [fmap list_fmap length].
    set (ds := (λ s, OArcDelta (sub_stream_id s) body) <$> filter (λ s', write s' = write s) subs).
    fold ds. destruct ok; symmetry in Hok.
    + apply Nat.ltb_lt in Hok. destruct (room_of net (write s)) as [|k] eqn:Er; [lia|].
      cbn [Nat.sub take]. rewrite Nat.sub_0_r, <- app_assoc, orb_false_r. cbn [app]. done.
    + apply Nat.ltb_ge in Hok. replace (room_of net (write s)) with 0 by lia.
      rewrite Nat.sub_0_r. cbn. rewrite !app_nil_r, orb_true_r. split_and!; [done|done| |done].
      by rewrite orb_true_l.
  - rewrite decide_False by congruence. rewrite app_nil_r, orb_false_r. done.
Qed.

(** A handle that cannot take all its messages of the broadcast. *)
Definition overflows (net : Net) (body : list byte) (subs : list Subscriber) (r : nat) : bool :=
  Nat.ltb (room_of net r) (length (deltas_for r body subs)).

(** One handle per session, shared by all its subscriptions. *)
Definition one_handle_per_session (subs : list Subscriber) : Prop :=
  ∀ s1 s2, s1 ∈ subs → s2 ∈ subs → session_id s1 = session_id s2 ↔ write s1 = write s2.

(** One round of the loop, with the facts about the send and the later rounds. *)
Lemma send_loop_cons net body s subs :
  handles_known net (s :: subs) →
  ∃ (ok : bool) (net1 : Net),
    (send_loop net body (s :: subs)).1 =
      (if ok then (send_loop net1 body subs).1 else session_id s :: (send_loop net1 body subs).1) ∧
    handles_known net1 subs ∧ (ok = true ↔ (0 < room_of net (write s))%nat) ∧
    ∀ r, room_of net1 r =
      (if decide (r = write s) then room_of net r - (if ok then 1 else 0) else room_of net r)%nat.
Proof.
  intros [Hs Hk]%Forall_cons. cbn [send_loop].
  pose proof (λ r', handle_send_spec net (write s) (OArcDelta (sub_stream_id s) body) r' Hs) as Hsend.
  destruct (handle_send net (write s) _) as [ok net1]. exists ok, net1. split_and!.
  - destruct (send_loop net1 body subs). by destruct ok.
  - eapply Forall_impl; [exact Hk|]. intros s' Hs'. destruct (Hsend (write s')) as (_ & _ & _ & _ & Hiff).
    by apply Hiff.
  - destruct (Hsend 0) as (-> & _). apply Nat.ltb_lt.
  - intros r. by destruct (Hsend r) as (_ & _ & -> & _).
Qed.

(** The loop reports the sessions of the handles that overflow. *)
Lemma send_loop_slow net body subs sid :
  handles_known net subs →
  sid ∈ (send_loop net body subs).1 →
  ∃ s, s ∈ subs ∧ session_id s = sid ∧ overflows net body subs (write s) = true.
Proof.
  revert net. induction subs as [|s subs IH]; intros net Hk; [by intros ?%elem_of_nil|].
  destruct (send_loop_cons net body s subs Hk) as (ok & net1 & -> & Hk1 & Hok & Hroom).
  assert (Htail : sid ∈ (send_loop net1 body subs).1 → ∃ s0, s0 ∈ s :: subs ∧ session_id s0 = sid ∧
    overflows net body (s :: subs) (write s0) = true).
  { intros (s0 & Hin & Hsid & Ho)%IH; [|done]. exists s0. split; [by right|]. split; [done|].
    unfold overflows, deltas_for in *. rewrite Hroom in Ho. rewrite filter_cons.
    apply Nat.ltb_lt in Ho. apply Nat.ltb_lt. destruct (decide (write s0 = write s)) as [E|E].
    - rewrite decide_True by congruence. cbn [fmap list_fmap length]. destruct ok; lia.
    - rewrite decide_False by congruence. done. }
  destruct ok; [exact Htail|]. intros [->|Hin]%elem_of_cons; [|by apply Htail].
  exists s. split; [by left|]. split; [done|].
  unfold overflows, deltas_for. rewrite filter_cons, decide_True by done. apply Nat.ltb_lt.
  cbn [fmap list_fmap length]. enough (¬ 0 < room_of net (write s))%nat by lia. by rewrite <- Hok.
Qed.

Lemma send_loop_no_overflow net body subs r :
  handles_known net subs →
  (∀ s, s ∈ subs → write s = r → session_id s ∉ (send_loop net body subs).1) →
  overflows net body subs r = false.
Proof.
  revert net. induction subs as [|s subs IH]; intros net Hk Hno; [done|].
  destruct (send_loop_cons net body s subs Hk) as (ok & net1 & Hslow & Hk1 & Hok & Hroom).
  rewrite Hslow in Hno.
  assert (Hno1 : ∀ s0, s0 ∈ subs → write s0 = r → session_id s0 ∉ (send_loop net1 body subs).1).
  { intros s0 Hin Hw. pose proof (Hno s0 ltac:(by right) Hw) as Hn.
    destruct ok; [done|]. by apply not_elem_of_cons in Hn as [_ ?]. }
  specialize (IH net1 Hk1 Hno1). unfold overflows, deltas_for in *. rewrite Hroom in IH.
  rewrite filter_cons. apply Nat.ltb_ge in IH. apply Nat.ltb_ge.
  destruct (decide (write s = r)) as [<-|Hne].
  - rewrite decide_True in IH by done. cbn [fmap list_fmap length].
    destruct ok; [assert (0 < room_of net (write s))%nat by (by apply Hok); lia|].
    destruct (Hno s ltac:(by left) eq_refl). left.
  - by rewrite decide_False in IH by congruence.
Qed.

Lemma filter_all_true {A} (f : A → bool) l : (∀ x, x ∈ l → f x = true) → List.filter f l = l.
Proof.
  induction l as [|x l IH]; intros H; [done|]. cbn. rewrite (H x) by left.
  f_equal. apply IH. intros y Hy. apply H. by right.
Qed.

(** The broadcast in terms of its loop. *)
Lemma broadcast_encoded_loop bus net key body exclude subs :
  bus !! key = Some subs →
  let loop := send_loop net body (List.filter (not_excluded exclude) subs) in
  (broadcast_encoded bus net key body exclude).2 = loop.2 ∧
  (∀ k, k ≠ key → (broadcast_encoded bus net key body exclude).1 !! k = bus !! k) ∧
  subs_of (broadcast_encoded bus net key body exclude).1 key =
    List.filter (λ s, negb (existsb (String.eqb (session_id s)) loop.1)) subs.
Proof.
  intros Hb loop. unfold broadcast_encoded, subs_of, loop. rewrite Hb. clear loop.
  destruct (List.filter (not_excluded exclude) subs) as [|t ts]; cbn [send_loop fst snd].
  - rewrite Hb. cbn. split_and!; [done..|]. symmetry. by apply filter_all_true.
  - destruct (send_loop net body (t :: ts)) as [[|sl slow] net'] eqn:E; cbn [send_loop] in E; rewrite E.
    + cbn [fst snd]. rewrite Hb. split_and!; [done..|]. symmetry. by apply filter_all_true.
    + cbn [fst snd]. rewrite lookup_insert_eq. split_and!; [done| |done].
      intros k Hk. by rewrite lookup_insert_ne.
Qed.

(** The queues after a broadcast. *)
Lemma broadcast_queues bus net key body exclude r :
  handles_known net (subs_of bus key) →
  let net' := (broadcast_encoded bus net key body exclude).2 in
  let targets := List.filter (not_excluded exclude) (subs_of bus key) in
  queue_of net' r = (queue_of net r ++ take (room_of net r) (deltas_for r body targets))%list ∧
  cancelled_of net' r = cancelled_of net r || overflows net body targets r ∧
  (is_Some (handles net' !! r) ↔ is_Some (handles net !! r)).
Proof.
  intros Hk. cbv zeta. unfold subs_of in *. destruct (bus !! key) as [subs|] eqn:E.
  - destruct (broadcast_encoded_loop bus net key body exclude subs E) as (-> & _ & _). cbn in *.
    pose proof (send_loop_spec net body (List.filter (not_excluded exclude) subs) r) as Hspec.
    destruct (send_loop net body _). destruct Hspec as (? & _ & ? & ?); [|done].
    unfold handles_known in *. rewrite Forall_forall in *. intros s Hin.
    apply Hk. apply list_elem_of_In, filter_In in Hin as [? _]. by apply list_elem_of_In.
  - unfold broadcast_encoded. rewrite E. cbn. by rewrite take_nil, app_nil_r, orb_false_r.
Qed.

Lemma broadcast_room bus net key body exclude r :
  handles_known net (subs_of bus key) →
  room_of (broadcast_encoded bus net key body exclude).2 r =
  (room_of net r - length (deltas_for r body (List.filter (not_excluded exclude) (subs_of bus key))))%nat.
Proof.
  intros Hk. unfold subs_of in *. destruct (bus !! key) as [subs|] eqn:E.
  - destruct (broadcast_encoded_loop bus net key body exclude subs E) as (-> & _ & _). cbn in *.
    pose proof (send_loop_spec net body (List.filter (not_excluded exclude) subs) r) as Hspec.
    destruct (send_loop net body _). destruct Hspec as (_ & ? & _); [|done].
    unfold handles_known in *. rewrite Forall_forall in *. intros s Hin.
    apply Hk. apply list_elem_of_In, filter_In in Hin as [? _]. by apply list_elem_of_In.
  - unfold broadcast_encoded. rewrite E. cbn. lia.
Qed.

(** A broadcast adds no subscription. *)
Lemma broadcast_encoded_filter bus net key body exclude k :
  ∃ f : Subscriber → bool,
    subs_of (broadcast_encoded bus net key body exclude).1 k = List.filter f (subs_of bus k).
Proof.
  assert (Hid : ∀ l : list Subscriber, l = List.filter (λ _, true) l)
    by (intros l; symmetry; by apply filter_all_true).
  destruct (bus !! key) as [subs|] eqn:E; [|exists (λ _, true); unfold broadcast_encoded; rewrite E; apply Hid].
  destruct (broadcast_encoded_loop bus net key body exclude subs E) as (_ & Ho & Hs).
  destruct (decide (k = key)) as [->|Hne].
  - rewrite Hs. unfold subs_of. rewrite E. eauto.
  - exists (λ _, true). unfold subs_of. rewrite Ho by done. apply Hid.
Qed.

Lemma broadcast_encoded_subset bus net key body exclude k s :
  s ∈ subs_of (broadcast_encoded bus net key body exclude).1 k → s ∈ subs_of bus k.
Proof.
  destruct (broadcast_encoded_filter bus net key body exclude k) as [f ->].
  rewrite !list_elem_of_In, filter_In. by intros [? _].
Qed.

(** Handles stay in place. *)
Lemma handle_send_handles net h m r :
  is_Some (handles net !! r) → is_Some (handles (handle_send net h m).2 !! r).
Proof.
  intros Hr. destruct (handles net !! h) as [x|] eqn:E; [|unfold handle_send; by rewrite E].
  pose proof (handle_send_spec net h m r ltac:(by rewrite E)) as Hs.
  destruct (handle_send net h m) as [ok net']. by apply Hs.
Qed.

Lemma broadcast_encoded_handles bus net key body exclude r :
  is_Some (handles net !! r) → is_Some (handles (broadcast_encoded bus net key body exclude).2 !! r).
Proof.
  assert (Hl : ∀ subs net, is_Some (handles net !! r) → is_Some (handles (send_loop net body subs).2 !! r)).
  { induction subs as [|s subs IH]; intros net0 Hr; [done|]. cbn [send_loop].
    pose proof (handle_send_handles net0 (write s) (OArcDelta (sub_stream_id s) body) r Hr) as Hs.
    destruct (handle_send net0 (write s) _) as [ok net1]. specialize (IH net1 Hs).
    by destruct (send_loop net1 body subs). }
  intros Hr. unfold broadcast_encoded. destruct (bus !! key) as [subs|]; [|done].
  destruct (List.filter (not_excluded exclude) subs) as [|s rest]; [done|].
  specialize (Hl (s :: rest) net Hr). destruct (send_loop net body (s :: rest)) as [[|i slow] net']; done.
Qed.

(** A subscription is dropped exactly when its own session overflows. *)
Lemma broadcast_keep net body exclude subs s :
  handles_known net subs → one_handle_per_session subs → s ∈ subs →
  let targets := List.filter (not_excluded exclude) subs in
  existsb (String.eqb (session_id s)) (send_loop net body targets).1 =
  not_excluded exclude s && overflows net body targets (write s).
Proof.
  intros Hk H1 Hs targets.
  assert (Hin : ∀ s, s ∈ targets ↔ s ∈ subs ∧ not_excluded exclude s = true).
  { intros s0. unfold targets. by rewrite !list_elem_of_In, filter_In. }
  assert (Hkt : handles_known net targets).
  { unfold handles_known in *. rewrite Forall_forall in *. intros s0 [? _]%Hin. by apply Hk. }
  apply eq_true_iff_eq. rewrite andb_true_iff, existsb_elem. split.
  - intros (sid & Hsid & E). bool_to_prop. subst sid.
    destruct (send_loop_slow net body targets (session_id s) Hkt Hsid) as (s' & Hs' & Hsid' & Ho).
    apply Hin in Hs' as [Hs' Hex]. assert (write s' = write s) as Hw by (by apply H1).
    rewrite <- Hw. split; [|done]. unfold not_excluded, not_session in *. by rewrite <- Hsid'.
  - intros [Hex Ho]. destruct (decide (session_id s ∈ (send_loop net body targets).1)) as [Hs1|Hs1].
    { exists (session_id s). split; [done|]. apply String.eqb_refl. }
    rewrite send_loop_no_overflow in Ho; [done|done|].
    intros s' [Hs' _]%Hin Hw. apply H1 in Hw; [|done|done]. by rewrite Hw.
Qed.

(** A subscription that a broadcast drops is of a cancelled session. *)
Lemma broadcast_dropped bus net key body exclude k s :
  handles_known net (subs_of bus key) → one_handle_per_session (subs_of bus key) → s ∈ subs_of bus k →
  let r := broadcast_encoded bus net key body exclude in
  s ∈ subs_of r.1 k ∨ cancelled_of r.2 (write s) = true.
Proof.
  intros Hk H1 Hs r. destruct (bus !! key) as [subs|] eqn:Eb.
  2:{ left. unfold r, broadcast_encoded. by rewrite Eb. }
  assert (Hsubs : subs_of bus key = subs) by (unfold subs_of; by rewrite Eb).
  pose proof (broadcast_encoded_loop bus net key body exclude subs Eb) as (_ & Ho & Hf). fold r in Ho, Hf.
  destruct (decide (k = key)) as [->|Hne]; [|left; unfold subs_of in *; by rewrite Ho].
  destruct (broadcast_queues bus net key body exclude (write s) Hk) as (_ & Hc & _). fold r in Hc.
  rewrite Hsubs in *. rewrite Hf, Hc. pose proof (broadcast_keep net body exclude subs s Hk H1 Hs) as Hkeep.
  cbv zeta in Hkeep. destruct (overflows net body _ (write s)); [right; apply orb_true_r|left].
  rewrite andb_false_r in Hkeep. apply list_elem_of_In, filter_In.
  split; [by apply list_elem_of_In|]. by rewrite Hkeep.
Qed.

(** C22. What a broadcast does. Every subscriber of the key outside the excluded
    session gets one delta for its stream, in subscription order, as long as its
    session's queue has room; a session whose queue overflows is cancelled and
    loses all its subscriptions to this key, and nobody else does; the other
    keys' subscriptions and the queues of sessions that do not watch the key
    stay as they were. *)
Theorem broadcast_delivers bus net key body exclude subs :
  bus !! key = Some subs → handles_known net subs → one_handle_per_session subs →
  let '(bus', net') := broadcast_encoded bus net key body exclude in
  let targets := List.filter (not_excluded exclude) subs in
  (∀ r, queue_of net' r = (queue_of net r ++ take (room_of net r) (deltas_for r body targets))%list ∧
        cancelled_of net' r = cancelled_of net r || overflows net body targets r) ∧
  (∀ k, k ≠ key → bus' !! k = bus !! k) ∧
  subs_of bus' key =
    List.filter (λ s, negb (not_excluded exclude s && overflows net body targets (write s))) subs.
Proof.
  intros Hb Hk H1. pose proof (broadcast_encoded_loop bus net key body exclude subs Hb) as (_ & Ho & Hs).
  assert (Hsubs : subs_of bus key = subs) by (unfold subs_of; by rewrite Hb).
  pose proof (λ r, broadcast_queues bus net key body exclude r) as Hq. rewrite Hsubs in Hq.
  destruct (broadcast_encoded bus net key body exclude) as [bus' net']. cbn [fst snd] in *.
  cbv zeta in *. split_and!; [|done|].
  - intros r. destruct (Hq r Hk) as (? & ? & _). done.
  - rewrite Hs. apply filter_ext_in. intros s Hin. f_equal.
    apply broadcast_keep; [done|done|by apply list_elem_of_In].
Qed.

(** Two watchers, one of them with a full queue. *)
Lemma broadcast_delivers_witness :
  let h q := mkHandle false Task q 1 true [] in
  let net := mkNet {[ 0 := h []; 1 := h [OPing] ]} [] in
  let subs := [mkSubscriber "a" 10 0; mkSubscriber "b" 11 1] in
  let '(bus', net') := broadcast_encoded {[ "k" := subs ]} net "k" [x01] None in
  queue_of net' 0 = [OArcDelta 10 [x01]] ∧ cancelled_of net' 1 = true ∧
  subs_of bus' "k" = [mkSubscriber "a" 10 0].
Proof.
  intros h net subs.
  pose proof (broadcast_delivers {[ "k" := subs ]} net "k" [x01] None subs) as H.
  destruct (broadcast_encoded {[ "k" := subs ]} net "k" [x01] None) as [bus' net'].
  destruct H as (Hq & _ & Hs).
  - reflexivity.
  - repeat constructor; eauto.
  - intros s1 s2. unfold subs. rewrite !elem_of_cons, !elem_of_nil. naive_solver.
  - split_and!; [destruct (Hq 0) as [-> _]; reflexivity|destruct (Hq 1) as [_ ->]; reflexivity|].
    rewrite Hs. reflexivity.
Defined.

Lemma elem_of_remove_session bus sid key s :
  s ∈ subs_of (remove_session bus sid) key ↔ s ∈ subs_of bus key ∧ session_id s ≠ sid.
Proof.
  unfold remove_session, subs_of. rewrite lookup_fmap. destruct (bus !! key) as [subs|] eqn:E; cbn.
  - rewrite !list_elem_of_In, filter_In. unfold not_session. by rewrite negb_true_iff, String.eqb_neq.
  - rewrite elem_of_nil. tauto.
Qed.

Lemma remove_session_filter bus sid key :
  subs_of (remove_session bus sid) key = List.filter (not_session sid) (subs_of bus key).
Proof. unfold remove_session, subs_of. rewrite lookup_fmap. by destruct (bus !! key). Qed.
