(* ===== verification/Cluster.v ===== *)
(** * Redis-backed clustering (src/src/cluster.rs)

    Each mutation spawns a task that writes the key's (version, value) to the
    Redis hash "sodp:state" and publishes the encoded delta on the key's
    channel; each node delivers the messages of other nodes to its local
    watchers.  Redis is a hash and the list of messages published; the rmp_serde
    encodings of its payloads are parameters.  A spawned task runs whenever the
    runtime schedules it, so a node's tasks are a list executed in any order. *)

From S2P Require Import Prelude RustStr Json Delta Frame Log Store WritePool Fanout.

Local Open Scope string_scope.

(** ** Redis *)

Record Redis : Type := mkRedis {
  r_state : gmap string (list byte);            (* the hash "sodp:state" *)
  r_published : list (string * list byte);      (* (channel, payload), oldest first *)
}.

Definition redis_empty : Redis := mkRedis ∅ [].

(** rmp_serde on the stored tuple [(version, value)] and on the published
    tuple [(node_id, body)]. *)
Class ClusterCodec : Type := {
  cstate_to_vec : Z → Value → result (list byte) string;
  cstate_from_slice : list byte → result (Z * Value) string;
  cmsg_to_vec : string → list byte → result (list byte) string;
  cmsg_from_slice : list byte → result (string * list byte) string;
}.

(** ** Tasks *)

Inductive ClusterTask : Type :=
| TSync (key : string) (version : Z) (value : Value) (body_mp : list byte)
| TSyncDelete (key : string) (body_mp : list byte).

Definition CHANNEL_PREFIX : string := "sodp:delta:".
Definition channel_of (key : string) : string := CHANNEL_PREFIX ++ key.

Section Tasks.
Context `{ClusterCodec}.

(** Whether the two Redis commands of a task succeed; a failure is only logged. *)
Record Outcome : Type := mkOutcome { hset_ok : bool; publish_ok : bool }.

Definition publish_body (node_id key : string) (body_mp : list byte) (ok : bool) (r : Redis) : Redis :=
  match cmsg_to_vec node_id body_mp with
  | Err _ => r
  | Ok msg =>
      if ok then mkRedis (r_state r) (r_published r ++ [(channel_of key, msg)])%list else r
  end.

Definition sync (node_id key : string) (version : Z) (value : Value) (body_mp : list byte)
    (o : Outcome) (r : Redis) : Redis :=
  match cstate_to_vec version value with
  | Err _ => r
  | Ok encoded =>
      let r1 := if hset_ok o then mkRedis (<[key := encoded]> (r_state r)) (r_published r) else r in
      publish_body node_id key body_mp (publish_ok o) r1
  end.

Definition sync_delete (node_id key : string) (body_mp : list byte) (o : Outcome) (r : Redis) : Redis :=
  let r1 := if hset_ok o then mkRedis (delete key (r_state r)) (r_published r) else r in
  publish_body node_id key body_mp (publish_ok o) r1.

Definition run_task (node_id : string) (t : ClusterTask) (o : Outcome) (r : Redis) : Redis :=
  match t with
  | TSync key version value body => sync node_id key version value body o r
  | TSyncDelete key body => sync_delete node_id key body o r
  end.

(** ** Loading *)

(** [HGETALL]: byte strings in some order; [from_utf8] as the standard
    library's [String::from_utf8]. *)
Definition load_state (from_utf8 : list byte → option string)
    (raw : list (list byte * list byte)) : list (string * Z * Value) :=
  omap (λ '(k_bytes, v_bytes),
    from_utf8 k_bytes ≫= λ key,
    match cstate_from_slice v_bytes with
    | Ok (version, value) => Some (key, version, value)
    | Err _ => None
    end) raw.

(** What a node reads of the hash at startup. *)
Definition hgetall `{HashOrder} (to_bytes : string → list byte) (r : Redis) : list (list byte * list byte) :=
  prod_map to_bytes id <$> hash_iter (r_state r).

(** ** Incoming messages *)

Definition handle_pubsub_message (node_id channel : string) (payload : list byte)
    (bus : FanoutBus) (net : Net) : FanoutBus * Net :=
  let key := default channel (str_strip_prefix CHANNEL_PREFIX channel) in
  match cmsg_from_slice payload with
  | Err _ => (bus, net)
  | Ok (sender_id, body_mp) =>
      if String.eqb sender_id node_id then (bus, net)
      else broadcast_encoded bus net key body_mp None
  end.
End Tasks.

(** ** Properties *)

(** The encodings read back what they wrote, for what a task carries. *)
Definition state_codes `{ClusterCodec} (v : Z) (x : Value) : Prop :=
  ∃ bs, cstate_to_vec v x = Ok bs ∧ cstate_from_slice bs = Ok (v, x).
Definition msg_codes `{ClusterCodec} (node : string) (b : list byte) : Prop :=
  ∃ bs, cmsg_to_vec node b = Ok bs ∧ cmsg_from_slice bs = Ok (node, b).

Section Cluster.
Context `{ClusterCodec, HashOrder}.

Definition all_ok : Outcome := mkOutcome true true.

Definition task_ok (node : string) (t : ClusterTask) : Prop :=
  match t with
  | TSync _ v x b => state_codes v x ∧ msg_codes node b
  | TSyncDelete _ b => msg_codes node b
  end.

Definition task_key (t : ClusterTask) : string :=
  match t with TSync k _ _ _ | TSyncDelete k _ => k end.

(** What a task leaves for its key: the value synced, or nothing. *)
Definition task_result (t : ClusterTask) : option (Z * Value) :=
  match t with TSync _ v x _ => Some (v, x) | TSyncDelete _ _ => None end.

(** The decoded entry of a key. *)
Definition redis_entry (r : Redis) (k : string) : option (Z * Value) :=
  r_state r !! k ≫= λ bs, match cstate_from_slice bs with Ok vx => Some vx | Err _ => None end.

Definition run_tasks (node : string) (ts : list ClusterTask) (r : Redis) : Redis :=
  fold_left (λ r t, run_task node t all_ok r) ts r.

Lemma run_task_entry node t r k :
  task_ok node t →
  redis_entry (run_task node t all_ok r) k =
  if String.eqb k (task_key t) then task_result t else redis_entry r k.
Proof.
  intros Hok. unfold redis_entry.
  assert (Hp : ∀ key b r', r_state (publish_body node key b true r') = r_state r').
  { intros key b r'. unfold publish_body. by case_match. }
  destruct t as [key v x b|key b]; cbn [task_key task_result run_task].
  - destruct Hok as [(bs & E & D) _]. unfold sync. rewrite E, Hp. cbn.
    destruct (String.eqb k key) eqn:Ek; bool_to_prop; [subst|by rewrite lookup_insert_ne].
    rewrite lookup_insert_eq. cbn. by rewrite D.
  - unfold sync_delete. rewrite Hp. cbn.
    destruct (String.eqb k key) eqn:Ek; bool_to_prop; [subst|by rewrite lookup_delete_ne].
    by rewrite lookup_delete_eq.
Qed.

Lemma run_tasks_entry node ts r k :
  Forall (task_ok node) ts →
  redis_entry (run_tasks node ts r) k =
  match last (filter (λ t, task_key t = k) ts) with
  | Some t => task_result t
  | None => redis_entry r k
  end.
Proof.
  unfold run_tasks. intros Hts. induction ts as [|t ts IH] using rev_ind; [done|].
  apply Forall_app in Hts as [Hts Ht]. rewrite Forall_singleton in Ht.
  rewrite fold_left_app, filter_app, filter_cons, filter_nil. cbn [fold_left].
  rewrite run_task_entry by done. destruct (decide (task_key t = k)) as [<-|Hne].
  - by rewrite String.eqb_refl, last_snoc.
  - rewrite (proj2 (String.eqb_neq _ _)) by congruence. rewrite app_nil_r. by apply IH.
Qed.

Lemma elem_of_load_state to_bytes from_utf8 r k v x :
  (∀ s, from_utf8 (to_bytes s) = Some s) →
  (k, v, x) ∈ load_state from_utf8 (hgetall to_bytes r) ↔ redis_entry r k = Some (v, x).
Proof.
  intros Hutf. unfold load_state, hgetall, redis_entry. rewrite list_elem_of_omap. split.
  - intros ([kb vb] & Hin & E). apply list_elem_of_fmap in Hin as ([k' vb'] & [= -> ->] & Hin).
    apply elem_of_hash_iter in Hin. rewrite Hutf in E. cbn in E.
    destruct (cstate_from_slice vb') as [[v' x']|] eqn:D; [|done]. injection E as -> -> ->.
    rewrite Hin. cbn. by rewrite D.
  - destruct (r_state r !! k) as [bs|] eqn:Hk; [|done]. cbn.
    destruct (cstate_from_slice bs) as [[v' x']|] eqn:D; [|done]. intros [= -> ->].
    exists (to_bytes k, bs). split.
    + apply list_elem_of_fmap. exists (k, bs). split; [done|]. by apply elem_of_hash_iter.
    + rewrite Hutf. cbn. by rewrite D.
Qed.

(** C34. A node that joins has what the cluster synced. When Redis was empty, no
    Redis command failed and the tasks of a node ran in the order of its mutations,
    a node that loads the hash into its own store ends, for each key, with exactly
    the version and value of the last mutation synced if that version is newer than
    the one it already has; it keeps its own entry otherwise, and for a key whose
    last mutation was a deletion or that was never synced.  Its counter is at
    least its own and each synced version, so its next write is newer than both. *)
Theorem cluster_load_after_sync to_bytes from_utf8 node ts s k :
  (∀ s, from_utf8 (to_bytes s) = Some s) → Forall (task_ok node) ts →
  let synced := last (filter (λ t, task_key t = k) ts) ≫= task_result in
  let s' := load_entries s (load_state from_utf8 (hgetall to_bytes (run_tasks node ts redis_empty))) in
  store_get s' k =
    match synced with
    | Some (v, x) =>
        if (held_version (st_entries s) k <? v)%Z then Some (mkEntry v x) else store_get s k
    | None => store_get s k
    end ∧
  (st_version s ≤ current_version s')%Z ∧
  match synced with Some (v, _) => (v ≤ current_version s')%Z | None => True end.
Proof.
  intros Hutf Hts synced s'.
  assert (Hin : ∀ v x, (k, v, x) ∈ load_state from_utf8 (hgetall to_bytes (run_tasks node ts redis_empty))
    ↔ synced = Some (v, x)).
  { intros v x. rewrite elem_of_load_state, run_tasks_entry by done. unfold synced.
    unfold redis_entry, redis_empty. cbn. rewrite lookup_empty. cbn.
    by destruct (last (filter (λ t, task_key t = k) ts)). }
  destruct (load_entries_newest_wins s
    (load_state from_utf8 (hgetall to_bytes (run_tasks node ts redis_empty))) k) as (_ & _ & _ & Hs & Hv).
  split; [|split; [done|]].
  - unfold store_get, s', load_entries. cbn [st_entries]. destruct synced as [[v x]|].
    + apply load_fold_single; [|by apply Hin]. intros v' x' Hx. apply Hin in Hx. by injection Hx.
    + apply load_fold_stable. intros v x Hx. by apply Hin in Hx.
  - destruct synced as [[v x]|]; [|done].
    by apply (proj1 (Forall_forall _ _) Hv (k, v, x)), Hin.
Qed.

(** Delivery between nodes. A published delta reaches the watchers of the key
    on another node exactly as a local broadcast would, with no session left
    out; the publishing node ignores its own message, having delivered it
    already. *)
Theorem cluster_delivers_to_peers node other key version value body bus net r :
  task_ok node (TSync key version value body) → node ≠ other →
  ∃ payload,
    r_published (sync node key version value body all_ok r) =
      (r_published r ++ [(channel_of key, payload)])%list ∧
    handle_pubsub_message other (channel_of key) payload bus net =
      broadcast_encoded bus net key body None ∧
    handle_pubsub_message node (channel_of key) payload bus net = (bus, net).
Proof.
  intros [(bs & E & _) (pl & Ep & Dp)] Hne. exists pl.
  unfold sync, publish_body, handle_pubsub_message, channel_of. rewrite E, Ep, Dp.
  rewrite str_strip_prefix_app. cbn. rewrite String.eqb_refl.
  by rewrite (proj2 (String.eqb_neq _ _)).
Qed.
End Cluster.

(** ** Concrete instances *)

Module ClusterExamples.

(** One byte of version and one of number; the node and body side by side. *)
#[export] Instance codec : ClusterCodec := {|
  cstate_to_vec v x := match x with VNumber (PosInt n) => Ok [as_u8 v; as_u8 n] | _ => Err "" end;
  cstate_from_slice bs :=
    match bs with [v; n] => Ok (u8_val v, VNumber (PosInt (u8_val n))) | _ => Err "" end;
  cmsg_to_vec node b :=
    match node with String c EmptyString => Ok (Ascii.byte_of_ascii c :: b) | _ => Err "" end;
  cmsg_from_slice bs :=
    match bs with c :: b => Ok (String (Ascii.ascii_of_byte c) "", b) | [] => Err "" end;
|}.

Definition two_writes : list ClusterTask :=
  [TSync "k" 1 (num 5) [x01]; TSync "k" 2 (num 6) [x02]].

Lemma two_writes_ok : Forall (task_ok "n") two_writes.
Proof. repeat constructor; eexists; split; reflexivity. Qed.

(** A store that has an older version of "k" and a key of its own. *)
Definition old_k : StateStore :=
  mkStore {[ "k" := mkEntry 1 (num 5); "own" := mkEntry 1 (num 9) ]} 1 ∅ None ∅.
End ClusterExamples.
Import ClusterExamples.

Lemma cluster_load_after_sync_witness :
  let s' := load_entries old_k (@load_state codec (λ bs, Some (String.string_of_list_byte bs))
    (@hgetall map_order String.list_byte_of_string (run_tasks "n" two_writes redis_empty))) in
  store_get s' "k" = Some (mkEntry 2 (num 6)) ∧ store_get s' "own" = Some (mkEntry 1 (num 9)).
Proof.
  assert (Hutf : ∀ s, Some (String.string_of_list_byte (String.list_byte_of_string s)) = Some s)
    by (intros s; by rewrite String.string_of_list_byte_of_string).
  cbv zeta. split.
  - exact (proj1 (@cluster_load_after_sync codec map_order String.list_byte_of_string
      (λ bs, Some (String.string_of_list_byte bs)) "n" two_writes old_k "k" Hutf two_writes_ok)).
  - exact (proj1 (@cluster_load_after_sync codec map_order String.list_byte_of_string
      (λ bs, Some (String.string_of_list_byte bs)) "n" two_writes old_k "own" Hutf two_writes_ok)).
Defined.

Lemma cluster_delivers_to_peers_witness :
  ∃ payload,
    handle_pubsub_message "m" (channel_of "k") payload ∅ (mkNet ∅ []) = (∅, mkNet ∅ []) ∧
    handle_pubsub_message "n" (channel_of "k") payload ∅ (mkNet ∅ []) = (∅, mkNet ∅ []).
Proof.
  destruct (cluster_delivers_to_peers "n" "m" "k" 1 (num 5) [x01] ∅ (mkNet ∅ []) redis_empty)
    as (payload & _ & H1 & H2).
  - pose proof two_writes_ok as Hw. by apply Forall_cons in Hw as [? _].
  - done.
  - exists payload. split; [exact H1|exact H2].
Defined.

(** The tasks of two mutations of one key are not ordered with each other.
    When the later one runs first, the hash ends with the older version and
    value, which is what a node joining or restarting then loads. *)
Theorem cluster_reordered_sync_is_stale :
  let r := run_tasks "n" (rev two_writes) redis_empty in
  redis_entry r "k" = Some (1%Z, num 5) ∧
  redis_entry (run_tasks "n" two_writes redis_empty) "k" = Some (2%Z, num 6).
Proof. split; reflexivity. Qed.
