(* ===== verification/Server.v ===== *)
(** * The server's connection handlers (src/src/server.rs)

    One connection's view of the server: its session and write handle, and the
    shared world of state store, fanout bus, write handles and cluster tasks.
    The handlers are written in a state monad over both; each is the whole
    handler, with the guards and early returns of the code.  Handlers of one
    connection run one frame at a time; other connections act on the same world
    between frames.  Metrics and tracing are left out. *)

From S2P Require Import Prelude RustStr Json JsonPath Delta Schema Acl Frame Log Store Session WritePool Fanout Cluster.

Local Open Scope string_scope.

(** ** Configuration and state *)

Inductive JwtConfig : Type :=
| Hs256 (secret : string)
| Rs256 (public_key_pem : string).

Record SodpServer : Type := mkServer {
  c_schema : option SchemaRegistry;
  c_acl : option AclRegistry;
  c_jwt_config : option JwtConfig;
  c_max_connections : option Z;
  c_max_frame_bytes : Z;
  c_ws_ping_interval : Z;
  c_rate_writes : option Z;
  c_rate_watches : option Z;
  c_cluster : bool;                    (* [cluster.is_some()] *)
  c_backpressure : nat;
  c_write_mode : WriteMode;
}.

(** What the connections share. *)
Record World : Type := mkWorld {
  w_state : StateStore;
  w_fanout : FanoutBus;
  w_net : Net;
  w_tasks : list ClusterTask;          (* spawned and not yet run, oldest first *)
}.

Record Conn : Type := mkConn {
  c_session : Session;
  c_world : World;
}.

(** ** The handlers' monad *)

Definition M (A : Type) : Type := Conn → A * Conn.

#[global] Instance M_ret : MRet M := λ A a c, (a, c).
#[global] Instance M_bind : MBind M := λ A B f m c, let '(a, c') := m c in f a c'.

Section Handlers.
Context `{EntryCodec, HashOrder, BodyCodec}.
Context (srv : SodpServer) (handle : nat).

Definition get_session : M Session := λ c, (c_session c, c).
Definition put_session (s : Session) : M unit := λ c, (tt, mkConn s (c_world c)).
Definition get_world : M World := λ c, (c_world c, c).
Definition put_world (w : World) : M unit := λ c, (tt, mkConn (c_session c) w).

(** [session.next_seq()] *)
Definition take_seq : M Z := λ c, let '(n, s) := next_seq (c_session c) in (n, mkConn s (c_world c)).

(** [handle.send(msg)], the result ignored *)
Definition send (msg : OutboundMsg) : M unit := λ c,
  let w := c_world c in
  let '(_, net) := handle_send (w_net w) handle msg in
  (tt, mkConn (c_session c) (mkWorld (w_state w) (w_fanout w) net (w_tasks w))).

(** [let seq = session.next_seq(); handle.send(Frame(f(seq)))] *)
Definition reply (f : Z → Frame) : M unit := seq ← take_seq; send (OFrame (f seq)).

(** [broadcast_timed], without the histogram *)
Definition broadcast_timed (key : string) (body_mp : list byte) (exclude : option string) : M unit := λ c,
  let w := c_world c in
  let '(bus, net) := broadcast_encoded (w_fanout w) (w_net w) key body_mp exclude in
  (tt, mkConn (c_session c) (mkWorld (w_state w) bus net (w_tasks w))).

Definition state_apply (key : string) (v : Value) : M (Z * list DeltaOp) := λ c,
  let w := c_world c in
  let '(r, st) := store_apply (w_state w) key v in
  (r, mkConn (c_session c) (mkWorld st (w_fanout w) (w_net w) (w_tasks w))).

Definition state_delete (key : string) : M (option (Z * list DeltaOp)) := λ c,
  let w := c_world c in
  let '(r, st) := store_delete (w_state w) key in
  (r, mkConn (c_session c) (mkWorld st (w_fanout w) (w_net w) (w_tasks w))).

(** [if let Some(cluster) = &self.cluster { cluster.sync(..) }]: a task is spawned *)
Definition cluster_task (t : ClusterTask) : M unit := λ c,
  let w := c_world c in
  (tt, if c_cluster srv
       then mkConn (c_session c) (mkWorld (w_state w) (w_fanout w) (w_net w) (w_tasks w ++ [t])%list)
       else c).

Definition bus_subscribe (key : string) (sub : Subscriber) : M unit := λ c,
  let w := c_world c in
  (tt, mkConn (c_session c) (mkWorld (w_state w) (subscribe (w_fanout w) key sub) (w_net w) (w_tasks w))).

Definition bus_unsubscribe (key sid : string) : M unit := λ c,
  let w := c_world c in
  (tt, mkConn (c_session c) (mkWorld (w_state w) (unsubscribe (w_fanout w) key sid) (w_net w) (w_tasks w))).

(** [lim.allow()] on a limiter of the session; [true] when there is none. *)
Definition write_allowed (now1 now2 : Z) : M bool := λ c,
  let s := c_session c in
  let '(ok, l) := allow_opt (write_limiter s) now1 now2 in
  (ok, mkConn (mkSession (s_id s) (s_sub s) (s_claims s) (watches s) (presence s) l
                 (watch_limiter s) (next_stream_id s) (seq_counter s)) (c_world c)).

Definition watch_allowed (now1 now2 : Z) : M bool := λ c,
  let s := c_session c in
  let '(ok, l) := allow_opt (watch_limiter s) now1 now2 in
  (ok, mkConn (mkSession (s_id s) (s_sub s) (s_claims s) (watches s) (presence s)
                 (write_limiter s) l (next_stream_id s) (seq_counter s)) (c_world c)).

(** ** Access checks: [true] when there is no ACL *)

Definition read_allowed (s : Session) (key : string) : bool :=
  match c_acl srv with None => true | Some acl => can_read acl key (s_sub s) (s_claims s) end.

Definition write_permitted (s : Session) (key : string) : bool :=
  match c_acl srv with None => true | Some acl => can_write acl key (s_sub s) (s_claims s) end.

(** [body.get(k).and_then(|v| v.as_str())] *)
Definition get_str (k : string) (v : Value) : option string := value_get k v ≫= as_str.

(** The [states] array takes priority over the single [state] string. *)
Definition requested_keys (body : Value) : option (list string) :=
  match value_get "states" body ≫= as_array with
  | Some arr => Some (omap as_str arr)
  | None => (λ k, [k]) <$> get_str "state" body
  end.

(** [StateStore::get] with the fallback of STATE_INIT *)
Definition init_of (st : StateStore) (key : string) : Z * Value * bool :=
  match store_get st key with
  | Some e => (se_version e, se_value e, true)
  | None => (0%Z, VNull, false)
  end.

(** ** WATCH and UNWATCH *)

(** Allocate a stream, record the watch and register with the bus. *)
Definition open_stream (state_key : string) (params : option Value) : M Z :=
  s ← get_session;
  let '(sid, s1) := allocate_stream s in
  put_session (add_watch s1 sid state_key params);;
  bus_subscribe state_key (mkSubscriber (s_id s) sid handle);;
  mret sid.

(** The STATE_INIT that concludes WATCH and RESUME. *)
Definition send_init (sid : Z) (state_key : string) (params : option Value) : M unit :=
  w ← get_world;
  let '(version, value, initialized) := init_of (w_state w) state_key in
  reply (λ seq, state_init sid seq state_key version value initialized params).

Definition subscribe_key (state_key : string) (params : option Value) : M unit :=
  sid ← open_stream state_key params;
  send_init sid state_key params.

(** The loop of [handle_watch]. *)
Fixpoint watch_keys (keys : list string) (params : option Value) : M unit :=
  match keys with
  | [] => mret tt
  | k :: keys' =>
      s ← get_session;
      (if read_allowed s k then subscribe_key k params
       else reply (λ seq, error 0 seq 403 ("forbidden: " ++ k)));;
      watch_keys keys' params
  end.

Definition handle_watch (frame : Frame) (now1 now2 : Z) : M unit :=
  ok ← watch_allowed now1 now2;
  if negb ok then reply (λ seq, error (stream_id frame) seq 429 "rate limit exceeded")
  else match requested_keys (body frame) with
       | None => reply (λ seq, error (stream_id frame) seq 400 "WATCH: missing 'state' or 'states' key")
       | Some keys => watch_keys keys (value_get "params" (body frame))
       end.

(** The loop of [handle_unwatch]. *)
Fixpoint unwatch_keys (keys : list string) : M unit :=
  match keys with
  | [] => mret tt
  | k :: keys' =>
      s ← get_session;
      match watch_stream_id s k with
      | Some sid =>
          put_session (remove_watch s sid).2;;
          bus_unsubscribe k (s_id s);;
          unwatch_keys keys'
      | None => unwatch_keys keys'
      end
  end.

Definition handle_unwatch (frame : Frame) : M unit :=
  match requested_keys (body frame) with
  | None => mret tt
  | Some keys => unwatch_keys keys
  end.

(** ** RESUME *)

(** The replay loop: each missed delta with the session's next sequence number. *)
Fixpoint replay_missed (sid : Z) (missed : list (Z * list DeltaOp)) : M unit :=
  match missed with
  | [] => mret tt
  | (version, ops) :: missed' =>
      seq ← take_seq;
      send (OBytes (delta_bytes sid seq (encode_delta_body version ops)));;
      replay_missed sid missed'
  end.

Definition handle_resume (frame : Frame) (now1 now2 : Z) : M unit :=
  ok ← watch_allowed now1 now2;
  if negb ok then reply (λ seq, error (stream_id frame) seq 429 "rate limit exceeded")
  else match get_str "state" (body frame) with
       | None => reply (λ seq, error (stream_id frame) seq 400 "RESUME: missing 'state' key")
       | Some state_key =>
           s ← get_session;
           if negb (read_allowed s state_key)
           then reply (λ seq, error (stream_id frame) seq 403 "forbidden")
           else
             let since_version := default 0%Z (value_get "since_version" (body frame) ≫= as_u64) in
             let params := value_get "params" (body frame) in
             sid ← open_stream state_key params;
             w ← get_world;
             (if (0 <? since_version)%Z
              then replay_missed sid (deltas_since (w_state w) state_key since_version)
              else mret tt);;
             send_init sid state_key params
       end.

(** ** CALL *)

(** Send the delta to this session's own watch on the key, if any. *)
Definition send_own_delta (state_key : string) (body_mp : list byte) : M unit :=
  s ← get_session;
  match watch_stream_id s state_key with
  | Some sid => send (OBytes (delta_bytes sid 0 body_mp))
  | None => mret tt
  end.

(** The fanout of a write: every other watcher, this session, the cluster. *)
Definition publish (state_key : string) (body_mp : list byte) (t : ClusterTask) : M unit :=
  s ← get_session;
  broadcast_timed state_key body_mp (Some (s_id s));;
  send_own_delta state_key body_mp;;
  cluster_task t.

(** The end of every writing method: apply, fan out a non-empty delta. *)
Definition commit (state_key : string) (v : Value) : M Z :=
  r ← state_apply state_key v;
  let '(version, ops) := r in
  (match ops with
   | [] => mret tt
   | _ => let body_mp := encode_delta_body version ops in
          publish state_key body_mp (TSync state_key version v body_mp)
   end);;
  mret version.

Definition version_data (version : Z) : option Value := Some (json_object [("version", json_u64 version)]).

(** The schema's verdict; [Ok] when there is none. *)
Definition schema_check (state_key : string) (v : Value) : result unit string :=
  match c_schema srv with None => Ok tt | Some sch => schema_validate sch state_key v end.

(** Validate, commit, then (for [state.presence]) register, and answer. *)
Definition validated_write (frame : Frame) (call_id state_key : string) (v : Value) (after : M unit) : M unit :=
  match schema_check state_key v with
  | Err msg => reply (λ seq, error (stream_id frame) seq 422 msg)
  | Ok _ =>
      version ← commit state_key v;
      after;;
      reply (λ seq, result_ok (stream_id frame) seq call_id (version_data version))
  end.

Definition extract_state_and_value (args : Value) (ctx : string) : result (string * Value) string :=
  match get_str "state" args with
  | None => Err (ctx ++ ": missing 'state' key")
  | Some k => Ok (k, default VNull (value_get "value" args))
  end.

Definition bad_request (frame : Frame) (msg : string) : M unit :=
  reply (λ seq, error (stream_id frame) seq 400 msg).

Definition call_set (frame : Frame) (call_id : string) (args : Value) : M unit :=
  match extract_state_and_value args "state.set" with
  | Err msg => bad_request frame msg
  | Ok (state_key, new_value) => validated_write frame call_id state_key new_value (mret tt)
  end.

Definition call_patch (frame : Frame) (call_id : string) (args : Value) : M unit :=
  match get_str "state" args with
  | None => bad_request frame "state.patch: missing 'state' key"
  | Some state_key =>
      match value_get "patch" args with
      | Some patch =>
          if is_object patch then
            w ← get_world;
            let current := match store_get (w_state w) state_key with
                           | Some e => se_value e
                           | None => VObject []
                           end in
            validated_write frame call_id state_key (json_merge current patch) (mret tt)
          else bad_request frame "state.patch: 'patch' must be an object"
      | None => bad_request frame "state.patch: 'patch' must be an object"
      end
  end.

(** The common body of [state.set_in] and [state.presence]. *)
Definition call_at_path (name : string) (after : string → string → M unit)
    (frame : Frame) (call_id : string) (args : Value) : M unit :=
  match get_str "state" args with
  | None => bad_request frame (name ++ ": missing 'state' key")
  | Some state_key =>
      match get_str "path" args with
      | None => bad_request frame (name ++ ": missing 'path' key")
      | Some path =>
          let new_val := default VNull (value_get "value" args) in
          w ← get_world;
          let current := match store_get (w_state w) state_key with
                         | Some e => se_value e
                         | None => VNull
                         end in
          match json_set_in current path new_val with
          | Err msg => bad_request frame msg
          | Ok updated => validated_write frame call_id state_key updated (after state_key path)
          end
      end
  end.

Definition call_set_in : Frame → string → Value → M unit :=
  call_at_path "state.set_in" (λ _ _, mret tt).

Definition register_presence (state_key path : string) : M unit :=
  s ← get_session; put_session (add_presence s state_key path).

Definition call_presence : Frame → string → Value → M unit :=
  call_at_path "state.presence" register_presence.

Definition call_delete (frame : Frame) (call_id : string) (args : Value) : M unit :=
  match get_str "state" args with
  | None => bad_request frame "state.delete: missing 'state' key"
  | Some state_key =>
      r ← state_delete state_key;
      version ← match r with
                | Some (version, ops) =>
                    let body_mp := encode_delta_body version ops in
                    publish state_key body_mp (TSyncDelete state_key body_mp);;
                    mret version
                | None => mret 0%Z
                end;
      reply (λ seq, result_ok (stream_id frame) seq call_id (version_data version))
  end.

Definition call_unknown (frame : Frame) (method : string) : M unit :=
  reply (λ seq, error (stream_id frame) seq 404 ("unknown method: " ++ method)).

Definition dispatch_call (frame : Frame) (method call_id : string) (args : Value) : M unit :=
  if String.eqb method "state.set" then call_set frame call_id args
  else if String.eqb method "state.patch" then call_patch frame call_id args
  else if String.eqb method "state.set_in" then call_set_in frame call_id args
  else if String.eqb method "state.delete" then call_delete frame call_id args
  else if String.eqb method "state.presence" then call_presence frame call_id args
  else call_unknown frame method.

Definition handle_call (frame : Frame) (now1 now2 : Z) : M unit :=
  let call_id := default "unknown" (get_str "call_id" (body frame)) in
  match get_str "method" (body frame) with
  | None => bad_request frame "CALL: missing 'method'"
  | Some method =>
      let args := default VNull (value_get "args" (body frame)) in
      ok ← write_allowed now1 now2;
      if negb ok then reply (λ seq, error (stream_id frame) seq 429 "rate limit exceeded")
      else
        s ← get_session;
        let permitted := match get_str "state" args with
                         | Some k => write_permitted s k
                         | None => true
                         end in
        if negb permitted then reply (λ seq, error (stream_id frame) seq 403 "forbidden")
        else dispatch_call frame method call_id args
  end.

(** ** Dispatch *)

Definition handle_frame (frame : Frame) (now1 now2 : Z) : M unit :=
  let t := frame_type frame in
  if (t =? types.WATCH)%Z then handle_watch frame now1 now2
  else if (t =? types.RESUME)%Z then handle_resume frame now1 now2
  else if (t =? types.UNWATCH)%Z then handle_unwatch frame
  else if (t =? types.CALL)%Z then handle_call frame now1 now2
  else if (t =? types.ACK)%Z then
    s ← get_session;
    put_session (ack_stream s (stream_id frame)
                   (default 0%Z (value_get "seq" (body frame) ≫= as_u64)))
  else if (t =? types.HEARTBEAT)%Z then send (OFrame heartbeat)
  else mret tt.

(** ** End of a session *)

(** The presence cleanup loop. *)
Fixpoint presence_cleanup (entries : list PresenceEntry) : M unit :=
  match entries with
  | [] => mret tt
  | e :: rest =>
      w ← get_world;
      (match store_get (w_state w) (p_state_key e) with
       | None => mret tt
       | Some x =>
           let updated := json_remove_in (se_value x) (p_path e) in
           r ← state_apply (p_state_key e) updated;
           let '(version, ops) := r in
           match ops with
           | [] => mret tt
           | _ =>
               let body_mp := encode_delta_body version ops in
               broadcast_timed (p_state_key e) body_mp None;;
               cluster_task (TSync (p_state_key e) version updated body_mp)
           end
       end);;
      presence_cleanup rest
  end.

Definition end_session : M unit :=
  s ← get_session;
  presence_cleanup (presence s);;
  w ← get_world;
  put_world (mkWorld (w_state w) (remove_session (w_fanout w) (s_id s)) (w_net w) (w_tasks w)).
End Handlers.
