(* ===== verification/ServerLogic.v ===== *)
(** * Reasoning about the handlers

    A small program logic for the monad of Server.v: triples, and the actions that
    leave the store and the session's identity alone ("quiet" actions). *)

From S2P Require Import Prelude RustStr Json JsonPath Delta Schema Acl Frame Log Store Session WritePool Fanout Cluster Server.

Local Open Scope string_scope.

(** ** Triples *)

Definition hoare {A} (P : Conn → Prop) (m : M A) (Q : A → Conn → Prop) : Prop :=
  ∀ c, P c → Q (m c).1 (m c).2.

Section Triples.
Context {A B : Type}.
Implicit Types (P : Conn → Prop).

Lemma hoare_ret P (a : A) (Q : A → Conn → Prop) : (∀ c, P c → Q a c) → hoare P (mret a) Q.
Proof. intros HQ c Hc. by apply HQ. Qed.

Lemma hoare_bind P (m : M A) (f : A → M B) (R : A → Conn → Prop) (Q : B → Conn → Prop) :
  hoare P m R → (∀ a, hoare (R a) (f a) Q) → hoare P (m ≫= f) Q.
Proof.
  intros Hm Hf c Hc. specialize (Hm c Hc). unfold mbind, M_bind.
  destruct (m c) as [a c'] eqn:E. cbn in *. by apply Hf.
Qed.

Lemma hoare_conseq P P' (m : M A) (Q Q' : A → Conn → Prop) :
  hoare P' m Q' → (∀ c, P c → P' c) → (∀ a c, Q' a c → Q a c) → hoare P m Q.
Proof. intros Hm HP HQ c Hc. auto. Qed.

(** An action that keeps an invariant, whatever it returns. *)
Definition keeps P (m : M A) : Prop := hoare P m (λ _ c, P c).

Lemma keeps_ret P (a : A) : keeps P (mret a).
Proof. by apply hoare_ret. Qed.
End Triples.

Lemma keeps_bind {A B} (P : Conn → Prop) (m : M A) (f : A → M B) :
  keeps P m → (∀ a, keeps P (f a)) → keeps P (m ≫= f).
Proof. intros Hm Hf. by eapply hoare_bind. Qed.

(** Binding a read of the session or the world: the value read is known. *)
Lemma hoare_get_session {B} (P : Conn → Prop) (f : Session → M B) Q :
  (∀ s, hoare (λ c, P c ∧ c_session c = s) (f s) Q) → hoare P (get_session ≫= f) Q.
Proof. intros Hf c Hc. by apply (Hf (c_session c) c). Qed.

Lemma hoare_get_world {B} (P : Conn → Prop) (f : World → M B) Q :
  (∀ w, hoare (λ c, P c ∧ c_world c = w) (f w) Q) → hoare P (get_world ≫= f) Q.
Proof. intros Hf c Hc. by apply (Hf (c_world c) c). Qed.

Create HintDb server.

(** Compute the monad's plumbing. *)
Ltac run_m :=
  unfold mbind, M_bind, mret, M_ret, get_session, put_session, get_world, put_world; cbn.

(** ** Quiet actions *)

(** Who the session is. *)
Definition same_identity (s s' : Session) : Prop :=
  s_id s' = s_id s ∧ s_sub s' = s_sub s ∧ s_claims s' = s_claims s.

#[global] Instance same_identity_preorder : PreOrder same_identity.
Proof. split; [by intros s|]. intros s1 s2 s3 (? & ? & ?) (? & ? & ?). split_and!; congruence. Qed.

Definition quiet {A} (m : M A) : Prop := ∀ c,
  same_identity (c_session c) (c_session (m c).2) ∧
  w_state (c_world (m c).2) = w_state (c_world c).

Section Quiet.
Context `{EntryCodec, HashOrder, BodyCodec}.
Context (srv : SodpServer) (handle : nat).

Lemma quiet_ret {A} (a : A) : quiet (mret a).
Proof. by intros c. Qed.

Lemma quiet_bind {A B} (m : M A) (f : A → M B) : quiet m → (∀ a, quiet (f a)) → quiet (m ≫= f).
Proof.
  intros Hm Hf c. unfold mbind, M_bind. specialize (Hm c). destruct (m c) as [a c']. cbn in Hm.
  destruct (Hf a c') as [H1' H2']. destruct Hm as [H1'' H2'']. split; [by etrans|by rewrite H2'].
Qed.

Lemma quiet_get_session : quiet get_session.
Proof. by intros c. Qed.
Lemma quiet_get_world : quiet get_world.
Proof. by intros c. Qed.
Lemma quiet_take_seq : quiet take_seq.
Proof. by intros c. Qed.
Lemma quiet_send msg : quiet (send handle msg).
Proof. intros c. unfold send. by case_match. Qed.
Lemma quiet_broadcast k b e : quiet (broadcast_timed k b e).
Proof. intros c. unfold broadcast_timed. by case_match. Qed.
Lemma quiet_cluster_task t : quiet (cluster_task srv t).
Proof. intros c. unfold cluster_task. by case_match. Qed.
Lemma quiet_subscribe k s : quiet (bus_subscribe k s).
Proof. by intros c. Qed.
Lemma quiet_unsubscribe k s : quiet (bus_unsubscribe k s).
Proof. by intros c. Qed.
Lemma quiet_write_allowed n1 n2 : quiet (write_allowed n1 n2).
Proof. intros c. unfold write_allowed. by case_match. Qed.
Lemma quiet_watch_allowed n1 n2 : quiet (watch_allowed n1 n2).
Proof. intros c. unfold watch_allowed. by case_match. Qed.

#[local] Hint Resolve quiet_ret quiet_get_session quiet_get_world quiet_take_seq quiet_send quiet_broadcast
  quiet_cluster_task quiet_subscribe quiet_unsubscribe quiet_write_allowed quiet_watch_allowed : server.

Lemma quiet_reply f : quiet (reply handle f).
Proof. unfold reply. apply quiet_bind; auto with server. Qed.

Lemma quiet_open_stream k p : quiet (open_stream handle k p).
Proof. by intros c. Qed.

Lemma quiet_register k p : quiet (register_presence k p).
Proof. intros c. unfold register_presence. run_m. unfold add_presence. by case_match. Qed.

#[local] Hint Resolve quiet_reply quiet_open_stream quiet_register : server.

Lemma quiet_send_init sid k p : quiet (send_init handle sid k p).
Proof.
  unfold send_init. apply quiet_bind; [auto with server|]. intros w.
  destruct (init_of (w_state w) k) as [[v x] i]. auto with server.
Qed.

#[local] Hint Resolve quiet_send_init : server.

Lemma quiet_subscribe_key k p : quiet (subscribe_key handle k p).
Proof. unfold subscribe_key. apply quiet_bind; auto with server. Qed.

#[local] Hint Resolve quiet_subscribe_key : server.

Lemma quiet_watch_keys ks p : quiet (watch_keys srv handle ks p).
Proof.
  induction ks as [|k ks IH]; cbn [watch_keys]; [auto with server|].
  apply quiet_bind; [auto with server|]. intros s.
  apply quiet_bind; [case_match; auto with server|auto].
Qed.

Lemma quiet_unwatch_keys ks : quiet (unwatch_keys ks).
Proof.
  induction ks as [|k ks IH]; cbn [unwatch_keys]; [auto with server|].
  intros c. run_m. destruct (watch_stream_id (c_session c) k) as [sid|]; [|apply IH].
  match goal with |- context [unwatch_keys ks ?c'] => destruct (IH c') as [H1' H2'] end.
  split; [exact H1'|exact H2'].
Qed.

Lemma quiet_replay_missed sid l : quiet (replay_missed handle sid l).
Proof.
  induction l as [|[v ops] l IH]; cbn [replay_missed]; [auto with server|].
  apply quiet_bind; [auto with server|]. intros n. apply quiet_bind; auto with server.
Qed.

Lemma quiet_send_own k b : quiet (send_own_delta handle k b).
Proof. unfold send_own_delta. apply quiet_bind; [auto with server|]. intros s. case_match; auto with server. Qed.

#[local] Hint Resolve quiet_watch_keys quiet_unwatch_keys quiet_replay_missed quiet_send_own : server.

Lemma quiet_publish k b t : quiet (publish srv handle k b t).
Proof.
  unfold publish. apply quiet_bind; [auto with server|]. intros s.
  repeat (apply quiet_bind; [auto with server|intros _]). auto with server.
Qed.

Lemma quiet_handle_watch fr n1 n2 : quiet (handle_watch srv handle fr n1 n2).
Proof.
  unfold handle_watch. apply quiet_bind; [auto with server|]. intros ok.
  repeat case_match; auto with server.
Qed.

Lemma quiet_handle_resume fr n1 n2 : quiet (handle_resume srv handle fr n1 n2).
Proof.
  unfold handle_resume. apply quiet_bind; [auto with server|]. intros ok.
  destruct (negb ok); [auto with server|]. destruct (get_str "state" (body fr)) as [key|]; [|auto with server].
  apply quiet_bind; [auto with server|]. intros s. case_match; [auto with server|].
  apply quiet_bind; [auto with server|]. intros sid. apply quiet_bind; [auto with server|]. intros w.
  apply quiet_bind; [case_match; auto with server|auto with server].
Qed.

Lemma quiet_handle_unwatch fr : quiet (handle_unwatch fr).
Proof. unfold handle_unwatch. case_match; auto with server. Qed.
End Quiet.

#[export] Hint Resolve quiet_ret quiet_get_session quiet_get_world quiet_take_seq quiet_send quiet_broadcast
  quiet_cluster_task quiet_subscribe quiet_unsubscribe quiet_write_allowed quiet_watch_allowed
  quiet_reply quiet_open_stream quiet_register quiet_send_init quiet_subscribe_key
  quiet_watch_keys quiet_unwatch_keys quiet_replay_missed quiet_send_own quiet_publish
  quiet_handle_watch quiet_handle_resume quiet_handle_unwatch : server.
