(* ===== verification/ServerSafety.v ===== *)
(** * Safety of the handlers: access control and schema conformance *)

From S2P Require Import Prelude RustStr Json JsonPath Delta Schema Acl Frame Log Store Session WritePool Fanout Cluster Server ServerLogic.

Local Open Scope string_scope.

(** ** Actions that write only certain keys with certain values *)

Section Writes.
Context (K : string → Prop) (V : string → Value → Prop).

(** What may differ between two states of the store. *)
Definition changed_within (st st' : StateStore) : Prop := ∀ k,
  store_get st' k = store_get st k ∨
  (K k ∧ match store_get st' k with Some e => V k (se_value e) | None => True end).

Lemma changed_within_refl st : changed_within st st.
Proof. by left. Qed.

Lemma changed_within_trans st1 st2 st3 :
  changed_within st1 st2 → changed_within st2 st3 → changed_within st1 st3.
Proof.
  intros H1 H2 k. destruct (H2 k) as [E|?]; [|by right]. rewrite E. apply H1.
Qed.

Definition writes {A} (m : M A) : Prop := ∀ c,
  same_identity (c_session c) (c_session (m c).2) ∧
  changed_within (w_state (c_world c)) (w_state (c_world (m c).2)).

Lemma quiet_writes {A} (m : M A) : quiet m → writes m.
Proof. intros Hm c. destruct (Hm c) as [H1 H2]. split; [done|]. rewrite H2. apply changed_within_refl. Qed.

Lemma writes_bind {A B} (m : M A) (f : A → M B) : writes m → (∀ a, writes (f a)) → writes (m ≫= f).
Proof.
  intros Hm Hf c. unfold mbind, M_bind. specialize (Hm c). destruct (m c) as [a c']. cbn in Hm.
  destruct (Hf a c') as [H1' H2']. destruct Hm as [H1'' H2''].
  split; [by etrans|by eapply changed_within_trans].
Qed.
End Writes.

Section CallWrites.
Context `{EntryCodec, HashOrder, BodyCodec}.
Context (srv : SodpServer) (handle : nat) (K : string → Prop).

(** Values a validated write may store. *)
Definition conformant (k : string) (v : Value) : Prop := schema_check srv k v = Ok tt.

#[local] Hint Resolve quiet_writes : server.

Lemma writes_state_apply k v : K k → conformant k v → writes K conformant (state_apply k v).
Proof.
  intros Hk Hv c. unfold state_apply. pose proof (store_apply_entries (w_state (c_world c)) k v) as He.
  destruct (store_apply _ k v) as [r st]. cbn in *. split; [done|]. intros k'. unfold store_get.
  rewrite He. destruct (decide (k' = k)) as [->|Hne]; [|left; by apply lookup_insert_ne].
  right. by rewrite lookup_insert_eq.
Qed.

Lemma writes_state_delete k : K k → writes K conformant (state_delete k).
Proof.
  intros Hk c. unfold state_delete. set (st := w_state (c_world c)).
  destruct (store_get st k) as [x|] eqn:E.
  - destruct (store_delete_present st k x E) as (_ & He & _).
    destruct (store_delete st k) as [r st']. cbn in *. split; [done|]. intros k'. unfold store_get.
    rewrite He. destruct (decide (k' = k)) as [->|Hne]; [|left; by apply lookup_delete_ne].
    right. by rewrite lookup_delete_eq.
  - rewrite store_delete_absent by done. cbn. split; [done|]. by left.
Qed.

Lemma writes_validated fr id k v (after : M unit) :
  K k → quiet after → writes K conformant (validated_write srv handle fr id k v after).
Proof.
  intros Hk Ha. unfold validated_write. destruct (schema_check srv k v) as [[]|msg] eqn:E;
    [|auto with server].
  unfold commit. apply writes_bind; [|intros; apply writes_bind; auto with server].
  apply writes_bind; [by apply writes_state_apply|]. intros [version ops].
  apply writes_bind; [case_match; auto with server|auto with server].
Qed.

#[local] Hint Resolve writes_validated : server.

Lemma writes_at_path name after fr id args :
  (∀ k, get_str "state" args = Some k → K k) → (∀ k p, quiet (after k p)) →
  writes K conformant (call_at_path srv handle name after fr id args).
Proof.
  intros Hk Ha. unfold call_at_path, bad_request.
  destruct (get_str "state" args) as [k|]; [|auto with server].
  destruct (get_str "path" args) as [p|]; [|auto with server].
  apply writes_bind; [auto with server|]. intros w. case_match; auto with server.
Qed.

Lemma writes_set fr id args :
  (∀ k, get_str "state" args = Some k → K k) → writes K conformant (call_set srv handle fr id args).
Proof.
  intros Hk. unfold call_set, extract_state_and_value, bad_request.
  destruct (get_str "state" args) as [k|]; auto with server.
Qed.

Lemma writes_patch fr id args :
  (∀ k, get_str "state" args = Some k → K k) → writes K conformant (call_patch srv handle fr id args).
Proof.
  intros Hk. unfold call_patch, bad_request.
  destruct (get_str "state" args) as [k|]; [|auto with server].
  destruct (value_get "patch" args) as [p|]; [|auto with server].
  destruct (is_object p); [|auto with server].
  apply writes_bind; auto with server.
Qed.

Lemma writes_delete fr id args :
  (∀ k, get_str "state" args = Some k → K k) → writes K conformant (call_delete srv handle fr id args).
Proof.
  intros Hk. unfold call_delete, bad_request.
  destruct (get_str "state" args) as [k|]; [|auto with server].
  apply writes_bind; [by apply writes_state_delete, Hk|]. intros r.
  apply writes_bind; [|auto with server].
  destruct r as [[version ops]|]; [apply writes_bind; auto with server|auto with server].
Qed.

Lemma writes_dispatch fr method id args :
  (∀ k, get_str "state" args = Some k → K k) →
  writes K conformant (dispatch_call srv handle fr method id args).
Proof.
  intros Hk. unfold dispatch_call, call_unknown, call_set_in, call_presence.
  repeat case_goal; auto using writes_set, writes_patch, writes_delete with server;
    apply writes_at_path; auto with server.
Qed.
End CallWrites.

(** ** Access control *)

(** The key a CALL frame addresses. *)
Definition call_target (frame : Frame) : option string :=
  get_str "state" (default VNull (value_get "args" (body frame))).

Section Access.
Context `{EntryCodec, HashOrder, BodyCodec}.
Context (srv : SodpServer) (handle : nat).

Lemma write_permitted_identity s s' k :
  same_identity s s' → write_permitted srv s' k = write_permitted srv s k.
Proof. intros (_ & E1 & E2). unfold write_permitted. by rewrite E1, E2. Qed.

Lemma read_allowed_identity s s' k :
  same_identity s s' → read_allowed srv s' k = read_allowed srv s k.
Proof. intros (_ & E1 & E2). unfold read_allowed. by rewrite E1, E2. Qed.

(** The keys that a CALL frame of session [s] may change. *)
Definition writable (s : Session) (frame : Frame) (k : string) : Prop :=
  call_target frame = Some k ∧ write_permitted srv s k = true.

Lemma handle_call_writes fr n1 n2 c :
  let c' := (handle_call srv handle fr n1 n2 c).2 in
  same_identity (c_session c) (c_session c') ∧
  changed_within (writable (c_session c) fr) (conformant srv)
    (w_state (c_world c)) (w_state (c_world c')).
Proof.
  unfold handle_call, bad_request.
  destruct (get_str "method" (body fr)) as [method|]; [|by apply quiet_writes; auto with server].
  unfold mbind, M_bind. pose proof (quiet_write_allowed n1 n2 c) as [Hid Hst].
  destruct (write_allowed n1 n2 c) as [ok c1]. cbn [fst snd] in *. rewrite <- Hst.
  assert (Hquiet : ∀ m : M unit, quiet m →
    same_identity (c_session c) (c_session (m c1).2) ∧
    changed_within (writable (c_session c) fr) (conformant srv)
      (w_state (c_world c1)) (w_state (c_world (m c1).2))).
  { intros m Hm. destruct (quiet_writes (writable (c_session c) fr) (conformant srv) m Hm c1).
    split; [by etrans|done]. }
  destruct (negb ok); [by apply Hquiet; auto with server|].
  unfold get_session. case_match eqn:Hperm; [by apply Hquiet; auto with server|].
  bool_to_prop. fold (call_target fr) in *.
  destruct (writes_dispatch srv handle (writable (c_session c) fr) fr method
    (default "unknown" (get_str "call_id" (body fr))) (default VNull (value_get "args" (body fr)))) with (c := c1)
    as [H1' H2'].
  - intros k Hk. fold (call_target fr) in Hk. rewrite Hk in Hperm.
    split; [done|]. by rewrite <- (write_permitted_identity _ _ k Hid).
  - split; [by etrans|done].
Qed.

Lemma handle_frame_writes fr n1 n2 c :
  let c' := (handle_frame srv handle fr n1 n2 c).2 in
  same_identity (c_session c) (c_session c') ∧
  changed_within (λ k, frame_type fr = types.CALL ∧ writable (c_session c) fr k) (conformant srv)
    (w_state (c_world c)) (w_state (c_world c')).
Proof.
  unfold handle_frame.
  repeat (case_goal; [try by apply quiet_writes; auto with server|]).
  - bool_to_prop. pose proof (handle_call_writes fr n1 n2 c) as [Hid Hch]. split; [done|].
    intros k. destruct (Hch k) as [?|[? ?]]; [by left|right; done].
  - run_m. split; [|by left]. unfold ack_stream. by case_match.
  - by apply quiet_writes; auto with server.
Qed.

(** C4. Only an authorised CALL changes state. Whatever frame a client sends, a key
    of the store changes only if the frame is a CALL that names this key in
    [args.state] and the ACL (when there is one) lets the session write it; and
    the value it then has conforms to the key's schema (when there is one). *)
Theorem frame_writes_authorized fr n1 n2 c k :
  let st := w_state (c_world c) in
  let st' := w_state (c_world (handle_frame srv handle fr n1 n2 c).2) in
  store_get st' k = store_get st k ∨
  (frame_type fr = types.CALL ∧ call_target fr = Some k ∧
   write_permitted srv (c_session c) k = true ∧
   match store_get st' k with Some e => schema_check srv k (se_value e) = Ok tt | None => True end).
Proof.
  cbv zeta. destruct (handle_frame_writes fr n1 n2 c) as [_ Hch].
  destruct (Hch k) as [?|[(? & ? & ?) ?]]; [by left|by right].
Qed.

(** Every value of the store conforms to its schema. *)
Definition schema_inv (st : StateStore) : Prop :=
  ∀ k e, store_get st k = Some e → schema_check srv k (se_value e) = Ok tt.

(** Schema conformance is an invariant of the frames: if every stored value
    conforms to the schema of its key, so it does after any frame of any session. *)
Theorem frame_preserves_schema fr n1 n2 c :
  schema_inv (w_state (c_world c)) →
  schema_inv (w_state (c_world (handle_frame srv handle fr n1 n2 c).2)).
Proof.
  intros Hi k e He. destruct (handle_frame_writes fr n1 n2 c) as [_ Hch].
  destruct (Hch k) as [E|[_ HV]]; [rewrite E in He; eauto|]. by rewrite He in HV.
Qed.
End Access.

(** ** Read access *)

Section Level.
Context `{EntryCodec, HashOrder, BodyCodec}.
Context (srv : SodpServer) (handle : nat).

(** Actions on the store, the handles, the tasks and the session's counters. *)
Definition same_access (c c' : Conn) : Prop :=
  same_identity (c_session c) (c_session c') ∧
  watches (c_session c') = watches (c_session c) ∧
  next_stream_id (c_session c') = next_stream_id (c_session c) ∧
  (∀ k sub, sub ∈ subs_of (w_fanout (c_world c')) k → sub ∈ subs_of (w_fanout (c_world c)) k) ∧
  (∀ r, is_Some (handles (w_net (c_world c)) !! r) → is_Some (handles (w_net (c_world c')) !! r)).

Definition level {A} (m : M A) : Prop := ∀ c, same_access c (m c).2.

Lemma level_ret {A} (a : A) : level (mret a).
Proof. by intros c. Qed.

Lemma level_bind {A B} (m : M A) (f : A → M B) : level m → (∀ a, level (f a)) → level (m ≫= f).
Proof.
  intros Hm Hf c. unfold mbind, M_bind. destruct (Hm c) as (I1 & W1 & N1 & S1 & H1'). destruct (m c) as [a c'].
  destruct (Hf a c') as (I2 & W2 & N2 & S2 & H2'). cbn in *. split_and!; [by etrans|congruence|congruence|auto..].
Qed.

Lemma level_get_session : level get_session.
Proof. by intros c. Qed.
Lemma level_get_world : level get_world.
Proof. by intros c. Qed.
Lemma level_take_seq : level take_seq.
Proof. intros c. done. Qed.
Lemma level_send msg : level (send handle msg).
Proof.
  intros c. unfold send. pose proof (handle_send_handles (w_net (c_world c)) handle msg) as Hh.
  destruct (handle_send _ _ _). by split_and!.
Qed.
Lemma level_broadcast k b e : level (broadcast_timed k b e).
Proof.
  intros c. unfold broadcast_timed.
  pose proof (broadcast_encoded_subset (w_fanout (c_world c)) (w_net (c_world c)) k b e) as Hs.
  pose proof (λ r, broadcast_encoded_handles (w_fanout (c_world c)) (w_net (c_world c)) k b e r) as Hh.
  destruct (broadcast_encoded _ _ k b e). by split_and!.
Qed.
Lemma level_cluster_task t : level (cluster_task srv t).
Proof. intros c. unfold cluster_task. case_match; done. Qed.
Lemma level_state_apply k v : level (state_apply k v).
Proof. intros c. unfold state_apply. case_match. done. Qed.
Lemma level_state_delete k : level (state_delete k).
Proof. intros c. unfold state_delete. case_match. done. Qed.
Lemma level_write_allowed n1 n2 : level (write_allowed n1 n2).
Proof. intros c. unfold write_allowed. case_match. done. Qed.
Lemma level_watch_allowed n1 n2 : level (watch_allowed n1 n2).
Proof. intros c. unfold watch_allowed. case_match. done. Qed.
Lemma level_register k p : level (register_presence k p).
Proof.
  intros c. unfold register_presence. run_m. unfold add_presence, same_access. cbn. by case_match.
Qed.

#[local] Hint Resolve level_ret level_get_session level_get_world level_take_seq
  level_send level_broadcast level_cluster_task level_state_apply level_state_delete
  level_write_allowed level_watch_allowed level_register : server.

Lemma level_reply f : level (reply handle f).
Proof. unfold reply. apply level_bind; auto with server. Qed.

#[local] Hint Resolve level_reply : server.

Lemma level_send_init sid k p : level (send_init handle sid k p).
Proof.
  unfold send_init. apply level_bind; [auto with server|]. intros w.
  destruct (init_of (w_state w) k) as [[v x] i]. auto with server.
Qed.

Lemma level_replay sid l : level (replay_missed handle sid l).
Proof.
  induction l as [|[v ops] l IH]; cbn [replay_missed]; [auto with server|].
  apply level_bind; [auto with server|]. intros n. apply level_bind; auto with server.
Qed.

#[local] Hint Resolve level_send_init level_replay : server.

Lemma level_publish k b t : level (publish srv handle k b t).
Proof.
  unfold publish, send_own_delta. apply level_bind; [auto with server|]. intros s.
  apply level_bind; [auto with server|intros _].
  apply level_bind; [|auto with server]. apply level_bind; [auto with server|].
  intros s'. case_match; auto with server.
Qed.

#[local] Hint Resolve level_publish : server.

Lemma level_validated fr id k v (after : M unit) :
  level after → level (validated_write srv handle fr id k v after).
Proof.
  intros Ha. unfold validated_write, commit. case_match; [|auto with server].
  apply level_bind; [|intros; apply level_bind; auto with server].
  apply level_bind; [auto with server|]. intros [version ops].
  apply level_bind; [case_match; auto with server|auto with server].
Qed.

#[local] Hint Resolve level_validated : server.

Lemma level_delete fr id args : level (call_delete srv handle fr id args).
Proof.
  unfold call_delete, bad_request. case_match; [|auto with server].
  apply level_bind; [auto with server|]. intros r. apply level_bind; [|auto with server].
  destruct r as [[version ops]|]; [apply level_bind|]; auto with server.
Qed.

Lemma level_at_path name after fr id args :
  (∀ k p, level (after k p)) → level (call_at_path srv handle name after fr id args).
Proof.
  intros Ha. unfold call_at_path, bad_request. repeat (case_goal; [|solve [auto with server]]).
  apply level_bind; [auto with server|]. intros w. case_match; auto with server.
Qed.

Lemma level_patch fr id args : level (call_patch srv handle fr id args).
Proof.
  unfold call_patch, bad_request. repeat (case_goal; [|solve [auto with server]]).
  apply level_bind; auto with server.
Qed.

#[local] Hint Resolve level_delete level_at_path level_patch : server.

Lemma level_dispatch fr method id args : level (dispatch_call srv handle fr method id args).
Proof.
  unfold dispatch_call, call_unknown, call_set_in, call_presence, call_set, bad_request.
  repeat case_goal; auto with server.
Qed.

Lemma level_handle_call fr n1 n2 : level (handle_call srv handle fr n1 n2).
Proof.
  unfold handle_call, bad_request. case_match; [|auto with server].
  apply level_bind; [auto with server|]. intros ok. case_match; [auto with server|].
  apply level_bind; [auto with server|]. intros s0. case_match; auto using level_dispatch with server.
Qed.
End Level.

#[export] Hint Resolve level_ret level_get_session level_get_world level_take_seq level_send level_broadcast level_cluster_task level_state_apply level_state_delete level_write_allowed level_watch_allowed level_register level_reply level_send_init level_replay level_publish level_validated level_delete level_at_path level_patch level_dispatch level_handle_call : server.

Section ReadAccess.
Context `{EntryCodec, HashOrder, BodyCodec}.
Context (srv : SodpServer) (handle : nat) (K : string → Prop).

(** Watches and subscriptions of [c'] that are new are on keys of [K], and
    the subscriptions are this session's. *)
Record grants (c c' : Conn) : Prop := {
  g_identity : same_identity (c_session c) (c_session c');
  g_watches : ∀ sid w', watches (c_session c') !! sid = Some w' →
    K (w_state_key w') ∨
    ∃ w, watches (c_session c) !! sid = Some w ∧ w_state_key w = w_state_key w';
  g_subs : ∀ k sub, sub ∈ subs_of (w_fanout (c_world c')) k →
    sub ∈ subs_of (w_fanout (c_world c)) k ∨
    (K k ∧ session_id sub = s_id (c_session c) ∧ write sub = handle);
}.

#[local] Instance grants_preorder : PreOrder grants.
Proof.
  split.
  - intros c. split; [done| |]; [intros sid w; eauto|by left].
  - intros c1 c2 c3 [I1 W1 S1] [I2 W2 S2]. split; [by etrans| |].
    + intros sid w3 [?|(w2 & Hw2 & <-)]%W2; [by left|]. by apply W1.
    + intros k sub [Hs|(? & E & ?)]%S2; [by apply S1|]. right. split_and!; [done| |done].
      destruct I1 as [I1 _]. congruence.
Qed.

Definition granting {A} (m : M A) : Prop := ∀ c, grants c (m c).2.

Lemma granting_bind {A B} (m : M A) (f : A → M B) :
  granting m → (∀ a, granting (f a)) → granting (m ≫= f).
Proof.
  intros Hm Hf c. unfold mbind, M_bind. specialize (Hm c). destruct (m c) as [a c']. cbn in Hm.
  etrans; [exact Hm|apply Hf].
Qed.

Lemma granting_level {A} (m : M A) : level m → granting m.
Proof. intros Hm c. destruct (Hm c) as (Hi & Hw & _ & Hs & _). split; [done| |]; [intros sid w; rewrite Hw; eauto|eauto]. Qed.

(** The one action that opens access, on an allowed key. *)
Lemma granting_open_stream k p : K k → granting (open_stream handle k p).
Proof.
  intros Hk c. unfold open_stream, bus_subscribe. run_m. split; cbn; [done| |].
  - intros sid w. rewrite lookup_insert_Some. intros [[_ <-]|[_ ?]]; [by left|eauto].
  - intros k' sub. rewrite subs_of_subscribe. intros [?|[-> ->]]; [by left|by right].
Qed.

Lemma granting_unwatch ks : granting (unwatch_keys ks).
Proof.
  induction ks as [|k ks IH]; cbn [unwatch_keys]; [apply granting_level, level_ret|].
  intros c. run_m. destruct (watch_stream_id (c_session c) k) as [sid|]; [|apply IH].
  etrans; [|apply IH]. split; cbn; [done| |].
  - intros sid' w [_ Hw]%lookup_delete_Some. eauto.
  - intros k' sub [? _]%elem_of_unsubscribe. by left.
Qed.

End ReadAccess.

Section ReadAccessFrames.
Context `{EntryCodec, HashOrder, BodyCodec}.
Context (srv : SodpServer) (handle : nat).

#[local] Existing Instance grants_preorder.

(** Keys the session [s] may read. *)
Definition readable (s : Session) (k : string) : Prop := read_allowed srv s k = true.

Lemma watch_keys_grants s0 ks p c :
  same_identity s0 (c_session c) →
  grants handle (readable s0) c (watch_keys srv handle ks p c).2.
Proof.
  revert c. induction ks as [|k ks IH]; intros c Hid; cbn [watch_keys]; [reflexivity|].
  unfold mbind, M_bind, get_session.
  set (step := if read_allowed srv (c_session c) k then _ else _).
  assert (Hs : grants handle (readable s0) c (step c).2).
  { unfold step. destruct (read_allowed srv (c_session c) k) eqn:E.
    - apply granting_bind; [|intros; apply granting_level, level_send_init].
      apply granting_open_stream. unfold readable. by rewrite <- (read_allowed_identity srv s0 (c_session c)).
    - apply granting_level, level_reply. }
  destruct (step c) as [[] c1]. cbn in Hs. etrans; [exact Hs|]. apply IH.
  etrans; [exact Hid|apply Hs].
Qed.

Lemma handle_frame_grants fr n1 n2 c :
  grants handle (readable (c_session c)) c (handle_frame srv handle fr n1 n2 c).2.
Proof.
  unfold handle_frame. repeat case_goal; try (apply granting_level; solve [auto with server]).
  - unfold handle_watch, mbind, M_bind.
    pose proof (granting_level handle (readable (c_session c)) _ (level_watch_allowed n1 n2) c) as Hg.
    destruct (watch_allowed n1 n2 c) as [ok c1]. cbn in Hg. etrans; [exact Hg|].
    destruct (negb ok); [apply granting_level, level_reply|].
    destruct (requested_keys (body fr)); [|apply granting_level, level_reply]. apply watch_keys_grants, Hg.
  - unfold handle_resume, mbind at 1, M_bind at 1.
    pose proof (granting_level handle (readable (c_session c)) _ (level_watch_allowed n1 n2) c) as Hg.
    destruct (watch_allowed n1 n2 c) as [ok c1]. cbn in Hg. etrans; [exact Hg|].
    destruct (negb ok); [apply granting_level, level_reply|].
    destruct (get_str "state" (body fr)) as [key|]; [|apply granting_level, level_reply].
    unfold mbind at 1, M_bind at 1, get_session at 1.
    destruct (read_allowed srv (c_session c1) key) eqn:E; cbn [negb]; [|apply granting_level, level_reply].
    apply granting_bind.
    + apply granting_open_stream. unfold readable. rewrite <- E.
      symmetry. apply read_allowed_identity, Hg.
    + intros sid. apply granting_bind; [apply granting_level, level_get_world|]. intros w.
      apply granting_bind; [|intros; apply granting_level, level_send_init].
      case_match; [apply granting_level, level_replay|apply granting_level, level_ret].
  - unfold handle_unwatch. case_match; [apply granting_unwatch|apply granting_level, level_ret].
  - run_m. unfold ack_stream. destruct (watches (c_session c) !! stream_id fr) as [w|] eqn:E; [|by destruct c].
    split; cbn; [done| |by left]. intros sid w'. rewrite lookup_insert_Some.
    intros [[<- <-]|[_ ?]]; right; eauto.
Qed.

(** C10. Only keys a session may read are delivered to it. After any frame, a watch
    of the session is one it had before on the same key, or is on a key the ACL
    lets it read; and a subscription on the bus was there before, or is this
    session's own on a key it may read. *)
Theorem frame_reads_authorized fr n1 n2 c :
  let c' := (handle_frame srv handle fr n1 n2 c).2 in
  (∀ sid w', watches (c_session c') !! sid = Some w' →
     readable (c_session c) (w_state_key w') ∨
     ∃ w, watches (c_session c) !! sid = Some w ∧ w_state_key w = w_state_key w') ∧
  (∀ k sub, sub ∈ subs_of (w_fanout (c_world c')) k →
     sub ∈ subs_of (w_fanout (c_world c)) k ∨
     (readable (c_session c) k ∧
      session_id sub = s_id (c_session c) ∧ write sub = handle)).
Proof. destruct (handle_frame_grants fr n1 n2 c) as [_ Hw Hs]. by split. Qed.
End ReadAccessFrames.

(** ** Concrete instances *)

Module ServerExamples.

#[export] Instance ex_codec : EntryCodec := ToyCodec.codec.
#[export] Instance ex_order : HashOrder := map_order.

(** One root operation with a number: version, kind, number. *)
#[export] Instance ex_body : BodyCodec := {|
  body_to_vec v ops :=
    match ops with
    | [mkDeltaOp Add "/" (Some (VNumber (PosInt n)))] => Ok [as_u8 v; x01; as_u8 n]
    | [mkDeltaOp Update "/" (Some (VNumber (PosInt n)))] => Ok [as_u8 v; x02; as_u8 n]
    | _ => Ok [as_u8 v]
    end;
|}.

Definition server_with (schema : option SchemaRegistry) (acl : option AclRegistry) : SodpServer :=
  mkServer schema acl None None 1048576 25 None None false 8 ModeTask.

Definition handle0 : WriteHandle := mkHandle false Task [] 8 true [].
Definition world0 : World := mkWorld (store_new ∅) ∅ (mkNet {[ 0 := handle0; 1 := handle0 ]} []) [].
Definition conn0 : Conn := mkConn (session_new "a" None None 0) world0.

Definition call_frame (method : string) (args : list (string * Value)) : Frame :=
  mkFrame types.CALL 1 0
    (json_object [("call_id", VString "c1"); ("method", VString method); ("args", json_object args)]).

(** Key "room" must be an object with a string field "u". *)
Definition room_schema : SchemaRegistry :=
  mkSchemaRegistry {[ "room" := Full "Object" false [("u", Simple "String")] ]}.

Definition presence_frame : Frame :=
  call_frame "state.presence" [("state", VString "room"); ("path", VString "/u"); ("value", VString "x")].

Definition present : Conn :=
  (handle_frame (server_with (Some room_schema) None) 0 presence_frame 0 0 conn0).2.
End ServerExamples.
Import ServerExamples.

Lemma frame_preserves_schema_witness :
  schema_inv (server_with (Some room_schema) None) (w_state (c_world present)).
Proof.
  apply (frame_preserves_schema (server_with (Some room_schema) None) 0 presence_frame 0 0 conn0).
  intros k e. by unfold store_get; cbn; rewrite lookup_empty.
Defined.

(** The cleanup at the end of a session is not validated. A session that set
    a presence path required by the key's schema ends, and the store is left
    with a value that the schema rejects and that no CALL could have written. *)
Theorem presence_cleanup_skips_schema :
  let srv := server_with (Some room_schema) None in
  let ended := (end_session srv present).2 in
  store_get (w_state (c_world present)) "room" = Some (mkEntry 1 (VObject [("u", VString "x")])) ∧
  store_get (w_state (c_world ended)) "room" = Some (mkEntry 2 (VObject [])) ∧
  is_ok (schema_check srv "room" (VObject [("u", VString "x")])) = true ∧
  is_ok (schema_check srv "room" (VObject [])) = false.
Proof. vm_compute. done. Qed.
