(* ===== verification/HandlerRace.v ===== *)
(** * Handlers of several connections, interleaved (src/src/server.rs)

    The frame handlers as programs whose atoms are single accesses to what the connections
    share: a read of the store, [apply] or [delete], a broadcast, a message to a write
    handle, a subscription, a spawned task.  (The inside of [apply], of a broadcast and of
    the pool is interleaved in PersistRace.v, WatchRace.v and WritePool.v.)  Between
    two atoms any other connection may run.  A program that runs alone is the handler of
    Server.v. *)

From S2P Require Import Prelude RustStr Json JsonPath Delta Schema Acl Frame Log Store Session WritePool Fanout Cluster Server ServerLogic ServerSafety.

Local Open Scope string_scope.

(** ** Programs *)

Inductive Prog (A : Type) : Type :=
| Ret (a : A)
| Atom (X : Type) (m : M X) (k : X → Prog A).
Arguments Ret {A} a.
Arguments Atom {A X} m k.

Fixpoint prog_bind {A B} (f : A → Prog B) (p : Prog A) : Prog B :=
  match p with Ret a => f a | Atom m k => Atom m (λ x, prog_bind f (k x)) end.

#[global] Instance Prog_ret : MRet Prog := @Ret.
#[global] Instance Prog_bind : MBind Prog := @prog_bind.

Definition atom {X} (m : M X) : Prog X := Atom m Ret.

(** Without interruption. *)
Fixpoint run_prog {A} (p : Prog A) : M A :=
  match p with Ret a => mret a | Atom m k => x ← m; run_prog (k x) end.

(** ** The handlers *)

Section Programs.
Context `{EntryCodec, HashOrder, BodyCodec}.
Context (srv : SodpServer) (handle : nat).

(** One message with the session's next sequence number. *)
Definition answer (f : Z → Frame) : Prog unit := atom (reply handle f).

Definition p_send_init (sid : Z) (state_key : string) (params : option Value) : Prog unit :=
  w ← atom get_world;
  let '(version, value, initialized) := init_of (w_state w) state_key in
  answer (λ seq, state_init sid seq state_key version value initialized params).

Definition p_subscribe_key (state_key : string) (params : option Value) : Prog unit :=
  sid ← atom (open_stream handle state_key params);
  p_send_init sid state_key params.

Fixpoint p_watch_keys (keys : list string) (params : option Value) : Prog unit :=
  match keys with
  | [] => mret tt
  | k :: keys' =>
      s ← atom get_session;
      (if read_allowed srv s k then p_subscribe_key k params
       else answer (λ seq, error 0 seq 403 ("forbidden: " ++ k)));;
      p_watch_keys keys' params
  end.

Definition p_handle_watch (frame : Frame) (now1 now2 : Z) : Prog unit :=
  ok ← atom (watch_allowed now1 now2);
  if negb ok then answer (λ seq, error (stream_id frame) seq 429 "rate limit exceeded")
  else match requested_keys (body frame) with
       | None => answer (λ seq, error (stream_id frame) seq 400 "WATCH: missing 'state' or 'states' key")
       | Some keys => p_watch_keys keys (value_get "params" (body frame))
       end.

Fixpoint p_unwatch_keys (keys : list string) : Prog unit :=
  match keys with
  | [] => mret tt
  | k :: keys' => atom (unwatch_keys [k]);; p_unwatch_keys keys'
  end.

Definition p_handle_unwatch (frame : Frame) : Prog unit :=
  match requested_keys (body frame) with
  | None => mret tt
  | Some keys => p_unwatch_keys keys
  end.

Fixpoint p_replay_missed (sid : Z) (missed : list (Z * list DeltaOp)) : Prog unit :=
  match missed with
  | [] => mret tt
  | (version, ops) :: missed' =>
      seq ← atom take_seq;
      atom (send handle (OBytes (delta_bytes sid seq (encode_delta_body version ops))));;
      p_replay_missed sid missed'
  end.

Definition p_handle_resume (frame : Frame) (now1 now2 : Z) : Prog unit :=
  ok ← atom (watch_allowed now1 now2);
  if negb ok then answer (λ seq, error (stream_id frame) seq 429 "rate limit exceeded")
  else match get_str "state" (body frame) with
       | None => answer (λ seq, error (stream_id frame) seq 400 "RESUME: missing 'state' key")
       | Some state_key =>
           s ← atom get_session;
           if negb (read_allowed srv s state_key)
           then answer (λ seq, error (stream_id frame) seq 403 "forbidden")
           else
             let since_version := default 0%Z (value_get "since_version" (body frame) ≫= as_u64) in
             let params := value_get "params" (body frame) in
             sid ← atom (open_stream handle state_key params);
             w ← atom get_world;
             (if (0 <? since_version)%Z
              then p_replay_missed sid (deltas_since (w_state w) state_key since_version)
              else mret tt);;
             p_send_init sid state_key params
       end.

Definition p_publish (state_key : string) (body_mp : list byte) (t : ClusterTask) : Prog unit :=
  s ← atom get_session;
  atom (broadcast_timed state_key body_mp (Some (s_id s)));;
  atom (send_own_delta handle state_key body_mp);;
  atom (cluster_task srv t).

Definition p_commit (state_key : string) (v : Value) : Prog Z :=
  r ← atom (state_apply state_key v);
  let '(version, ops) := r in
  (match ops with
   | [] => mret tt
   | _ => let body_mp := encode_delta_body version ops in
          p_publish state_key body_mp (TSync state_key version v body_mp)
   end);;
  mret version.

Definition p_validated_write (frame : Frame) (call_id state_key : string) (v : Value) (after : M unit) : Prog unit :=
  match schema_check srv state_key v with
  | Err msg => answer (λ seq, error (stream_id frame) seq 422 msg)
  | Ok _ =>
      version ← p_commit state_key v;
      atom after;;
      answer (λ seq, result_ok (stream_id frame) seq call_id (version_data version))
  end.

Definition p_bad_request (frame : Frame) (msg : string) : Prog unit :=
  answer (λ seq, error (stream_id frame) seq 400 msg).

Definition p_call_set (frame : Frame) (call_id : string) (args : Value) : Prog unit :=
  match extract_state_and_value args "state.set" with
  | Err msg => p_bad_request frame msg
  | Ok (state_key, new_value) => p_validated_write frame call_id state_key new_value (mret tt)
  end.

(** [state.patch]: the value is read, merged with the patch and applied; another write
    may come in between. *)
Definition p_call_patch (frame : Frame) (call_id : string) (args : Value) : Prog unit :=
  match get_str "state" args with
  | None => p_bad_request frame "state.patch: missing 'state' key"
  | Some state_key =>
      match value_get "patch" args with
      | Some patch =>
          if is_object patch then
            w ← atom get_world;
            let current := match store_get (w_state w) state_key with
                           | Some e => se_value e
                           | None => VObject []
                           end in
            p_validated_write frame call_id state_key (json_merge current patch) (mret tt)
          else p_bad_request frame "state.patch: 'patch' must be an object"
      | None => p_bad_request frame "state.patch: 'patch' must be an object"
      end
  end.

Definition p_call_at_path (name : string) (after : string → string → M unit)
    (frame : Frame) (call_id : string) (args : Value) : Prog unit :=
  match get_str "state" args with
  | None => p_bad_request frame (name ++ ": missing 'state' key")
  | Some state_key =>
      match get_str "path" args with
      | None => p_bad_request frame (name ++ ": missing 'path' key")
      | Some path =>
          let new_val := default VNull (value_get "value" args) in
          w ← atom get_world;
          let current := match store_get (w_state w) state_key with
                         | Some e => se_value e
                         | None => VNull
                         end in
          match json_set_in current path new_val with
          | Err msg => p_bad_request frame msg
          | Ok updated => p_validated_write frame call_id state_key updated (after state_key path)
          end
      end
  end.

Definition p_call_delete (frame : Frame) (call_id : string) (args : Value) : Prog unit :=
  match get_str "state" args with
  | None => p_bad_request frame "state.delete: missing 'state' key"
  | Some state_key =>
      r ← atom (state_delete state_key);
      version ← match r with
                | Some (version, ops) =>
                    let body_mp := encode_delta_body version ops in
                    p_publish state_key body_mp (TSyncDelete state_key body_mp);;
                    mret version
                | None => mret 0%Z
                end;
      answer (λ seq, result_ok (stream_id frame) seq call_id (version_data version))
  end.

Definition p_dispatch_call (frame : Frame) (method call_id : string) (args : Value) : Prog unit :=
  if String.eqb method "state.set" then p_call_set frame call_id args
  else if String.eqb method "state.patch" then p_call_patch frame call_id args
  else if String.eqb method "state.set_in" then p_call_at_path "state.set_in" (λ _ _, mret tt) frame call_id args
  else if String.eqb method "state.delete" then p_call_delete frame call_id args
  else if String.eqb method "state.presence" then p_call_at_path "state.presence" register_presence frame call_id args
  else answer (λ seq, error (stream_id frame) seq 404 ("unknown method: " ++ method)).

Definition p_handle_call (frame : Frame) (now1 now2 : Z) : Prog unit :=
  let call_id := default "unknown" (get_str "call_id" (body frame)) in
  match get_str "method" (body frame) with
  | None => p_bad_request frame "CALL: missing 'method'"
  | Some method =>
      let args := default VNull (value_get "args" (body frame)) in
      ok ← atom (write_allowed now1 now2);
      if negb ok then answer (λ seq, error (stream_id frame) seq 429 "rate limit exceeded")
      else
        s ← atom get_session;
        let permitted := match get_str "state" args with
                         | Some k => write_permitted srv s k
                         | None => true
                         end in
        if negb permitted then answer (λ seq, error (stream_id frame) seq 403 "forbidden")
        else p_dispatch_call frame method call_id args
  end.

Definition p_ack (frame : Frame) : M unit :=
  s ← get_session;
  put_session (ack_stream s (stream_id frame) (default 0%Z (value_get "seq" (body frame) ≫= as_u64))).

Definition p_handle_frame (frame : Frame) (now1 now2 : Z) : Prog unit :=
  let t := frame_type frame in
  if (t =? types.WATCH)%Z then p_handle_watch frame now1 now2
  else if (t =? types.RESUME)%Z then p_handle_resume frame now1 now2
  else if (t =? types.UNWATCH)%Z then p_handle_unwatch frame
  else if (t =? types.CALL)%Z then p_handle_call frame now1 now2
  else if (t =? types.ACK)%Z then atom (p_ack frame)
  else if (t =? types.HEARTBEAT)%Z then atom (send handle (OFrame heartbeat))
  else mret tt.
End Programs.

(** ** Alone, a program is its handler *)

Definition implements {A} (p : Prog A) (m : M A) : Prop := ∀ c, run_prog p c = m c.

Create HintDb implements.

Lemma implements_ret {A} (a : A) : implements (mret a) (mret a).
Proof. by intros c. Qed.

Lemma implements_atom {X} (m : M X) : implements (atom m) m.
Proof. intros c. cbn. unfold mbind, M_bind. by destruct (m c). Qed.

Lemma run_prog_bind {A B} (p : Prog A) (f : A → Prog B) c :
  run_prog (p ≫= f) c = (run_prog p ≫= λ a, run_prog (f a)) c.
Proof.
  revert c. unfold mbind, Prog_bind, M_bind. induction p as [a|X m k IH]; intros c; [done|].
  cbn [prog_bind run_prog]. unfold mbind, M_bind. destruct (m c) as [x c']. apply IH.
Qed.

Lemma implements_bind {A B} (p : Prog A) (m : M A) (f : A → Prog B) (g : A → M B) :
  implements p m → (∀ a, implements (f a) (g a)) → implements (p ≫= f) (m ≫= g).
Proof.
  intros Hp Hf c. rewrite run_prog_bind. unfold mbind, M_bind. rewrite Hp. destruct (m c) as [a c']. apply Hf.
Qed.

#[export] Hint Resolve implements_ret implements_atom : implements.

(** Case analysis on what the two sides look at, and [implements_bind]. *)
Ltac implements_tac := repeat first [progress intros|progress auto with implements|apply implements_bind|case_match].

Section Alone.
Context `{EntryCodec, HashOrder, BodyCodec}.
Context (srv : SodpServer) (handle : nat).

Lemma alone_answer f : implements (answer handle f) (reply handle f).
Proof. apply implements_atom. Qed.
#[local] Hint Resolve alone_answer : implements.

Lemma alone_send_init sid k p : implements (p_send_init handle sid k p) (send_init handle sid k p).
Proof.
  unfold p_send_init, send_init. apply implements_bind; [auto with implements|]. intros w.
  destruct (init_of _ _) as [[? ?] ?]. auto with implements.
Qed.
#[local] Hint Resolve alone_send_init : implements.

Lemma alone_watch_keys ks p : implements (p_watch_keys srv handle ks p) (watch_keys srv handle ks p).
Proof. induction ks; cbn [p_watch_keys watch_keys]; unfold p_subscribe_key, subscribe_key; implements_tac. Qed.

Lemma alone_unwatch_keys ks : implements (p_unwatch_keys ks) (unwatch_keys ks).
Proof.
  induction ks as [|k ks IH]; cbn [p_unwatch_keys]; [auto with implements|]. intros c.
  rewrite run_prog_bind. unfold mbind, M_bind. rewrite implements_atom. cbn [unwatch_keys].
  unfold mbind, M_bind, get_session. destruct (watch_stream_id (c_session c) k) as [sid|]; cbn; apply IH.
Qed.

Lemma alone_replay sid l : implements (p_replay_missed handle sid l) (replay_missed handle sid l).
Proof. induction l as [|[v ops] l IH]; cbn [p_replay_missed replay_missed]; implements_tac. Qed.
#[local] Hint Resolve alone_watch_keys alone_unwatch_keys alone_replay : implements.

Lemma alone_publish k b t : implements (p_publish srv handle k b t) (publish srv handle k b t).
Proof. unfold p_publish, publish. implements_tac. Qed.
#[local] Hint Resolve alone_publish : implements.

Lemma alone_commit k v : implements (p_commit srv handle k v) (commit srv handle k v).
Proof. unfold p_commit, commit. apply implements_bind; [auto with implements|]. intros [version ops]. implements_tac. Qed.
#[local] Hint Resolve alone_commit : implements.

Lemma alone_validated fr id k v after :
  implements (p_validated_write srv handle fr id k v after) (validated_write srv handle fr id k v after).
Proof. unfold p_validated_write, validated_write. implements_tac. Qed.
#[local] Hint Resolve alone_validated : implements.

Lemma alone_dispatch fr method id args :
  implements (p_dispatch_call srv handle fr method id args) (dispatch_call srv handle fr method id args).
Proof.
  unfold p_dispatch_call, dispatch_call, p_call_set, call_set, p_call_patch, call_patch, call_set_in, call_presence,
    p_call_at_path, call_at_path, p_call_delete, call_delete, call_unknown, p_bad_request, bad_request.
  implements_tac.
Qed.
#[local] Hint Resolve alone_dispatch : implements.

(** The programs refine to the handlers. A frame whose program runs without
    interruption does what [handle_frame] does. *)
Theorem alone_handle_frame fr n1 n2 :
  implements (p_handle_frame srv handle fr n1 n2) (handle_frame srv handle fr n1 n2).
Proof.
  unfold p_handle_frame, handle_frame, p_handle_watch, handle_watch, p_handle_resume, handle_resume,
    p_handle_unwatch, handle_unwatch, p_handle_call, handle_call, p_bad_request, bad_request, p_ack.
  implements_tac.
Qed.
End Alone.

(** ** Every atom keeps to what its session may do *)

Section Safe.
Context `{EntryCodec, HashOrder, BodyCodec}.
Context (srv : SodpServer) (handle : nat).
Context (s0 : Session) (K : string → Prop).

(** Only keys of [K] change, to conformant values; only keys [s0] may read are
    watched or subscribed to. *)
Definition atom_ok (c c' : Conn) : Prop :=
  changed_within K (conformant srv) (w_state (c_world c)) (w_state (c_world c')) ∧
  grants handle (readable srv s0) c c'.

(** Whatever the others do in between: they change the world and not the session. *)
Fixpoint safe {A} (p : Prog A) : Prop :=
  match p with
  | Ret _ => True
  | Atom m k => ∀ c, same_identity s0 (c_session c) → atom_ok c (m c).2 ∧ safe (k (m c).1)
  end.

Lemma safe_bind {A B} (p : Prog A) (f : A → Prog B) : safe p → (∀ a, safe (f a)) → safe (p ≫= f).
Proof.
  intros Hp Hf. unfold mbind, Prog_bind. induction p as [a|X m k IH]; cbn; [apply Hf|].
  intros c Hc. destruct (Hp c Hc) as [Hm Hk]. split; [done|by apply IH].
Qed.

Lemma safe_quiet {X} (m : M X) : quiet m → granting handle (readable srv s0) m → safe (atom m).
Proof.
  intros Hq Hg c _. split; [|done]. split; [|apply Hg]. destruct (Hq c) as [_ ->]. apply changed_within_refl.
Qed.

Lemma safe_get_session {A} (f : Session → Prog A) :
  (∀ s, same_identity s0 s → safe (f s)) → safe (atom get_session ≫= f).
Proof.
  intros Hf c Hc. split; [|by apply Hf]. split; [apply changed_within_refl|apply granting_level, level_get_session].
Qed.

Lemma safe_apply k v : K k → conformant srv k v → safe (atom (state_apply k v)).
Proof.
  intros Hk Hv c _. split; [|done]. split; [|apply granting_level, level_state_apply].
  by apply (writes_state_apply srv K k v Hk Hv).
Qed.

Lemma safe_delete k : K k → safe (atom (state_delete k)).
Proof.
  intros Hk c _. split; [|done]. split; [|apply granting_level, level_state_delete]. by apply (writes_state_delete srv K k Hk).
Qed.

Lemma safe_answer f : safe (answer handle f).
Proof. apply safe_quiet; [apply quiet_reply|apply granting_level, level_reply]. Qed.

Lemma safe_open_stream k p : readable srv s0 k → safe (atom (open_stream handle k p)).
Proof. intros Hk. apply safe_quiet; [apply quiet_open_stream|by apply granting_open_stream]. Qed.

Lemma safe_send_init sid k p : safe (p_send_init handle sid k p).
Proof.
  apply safe_bind; [apply safe_quiet; [apply quiet_get_world|apply granting_level, level_get_world]|]. intros w.
  destruct (init_of _ _) as [[? ?] ?]. apply safe_answer.
Qed.

Lemma safe_watch_keys ks p : safe (p_watch_keys srv handle ks p).
Proof.
  induction ks as [|k ks IH]; cbn [p_watch_keys]; [done|]. apply safe_get_session. intros s Hs.
  apply safe_bind; [|done]. destruct (read_allowed srv s k) eqn:E; [|apply safe_answer].
  apply safe_bind; [|intros; apply safe_send_init]. apply safe_open_stream. unfold readable.
  by rewrite <- (read_allowed_identity srv s0 s).
Qed.

Lemma safe_unwatch_keys ks : safe (p_unwatch_keys ks).
Proof.
  induction ks as [|k ks IH]; cbn [p_unwatch_keys]; [done|]. apply safe_bind; [|done].
  apply safe_quiet; [apply quiet_unwatch_keys|apply granting_unwatch].
Qed.

Lemma safe_replay sid l : safe (p_replay_missed handle sid l).
Proof.
  induction l as [|[v ops] l IH]; cbn [p_replay_missed]; [done|].
  apply safe_bind; [apply safe_quiet; [apply quiet_take_seq|apply granting_level, level_take_seq]|]. intros n.
  apply safe_bind; [apply safe_quiet; [apply quiet_send|apply granting_level, level_send]|done].
Qed.

Lemma granting_own k b : granting handle (readable srv s0) (send_own_delta handle k b).
Proof.
  apply granting_bind; [apply granting_level, level_get_session|]. intros s. case_match; [apply granting_level, level_send|apply granting_level, level_ret].
Qed.

Lemma safe_publish k b t : safe (p_publish srv handle k b t).
Proof.
  apply safe_get_session. intros s _.
  apply safe_bind; [apply safe_quiet; [apply quiet_broadcast|apply granting_level, level_broadcast]|]. intros _.
  apply safe_bind; [apply safe_quiet; [apply quiet_send_own|apply granting_own]|]. intros _.
  apply safe_quiet; [apply quiet_cluster_task|apply granting_level, level_cluster_task].
Qed.

Lemma safe_validated fr id k v after :
  K k → quiet after → granting handle (readable srv s0) after → safe (p_validated_write srv handle fr id k v after).
Proof.
  intros Hk Hq Hg. unfold p_validated_write. destruct (schema_check srv k v) as [[]|msg] eqn:E; [|apply safe_answer].
  apply safe_bind; [|intros version; apply safe_bind; [by apply safe_quiet|intros _; apply safe_answer]].
  apply safe_bind; [by apply safe_apply|]. intros [version ops]. apply safe_bind; [|done].
  destruct ops; [done|apply safe_publish].
Qed.

Lemma safe_get_world {A} (f : World → Prog A) : (∀ w, safe (f w)) → safe (atom get_world ≫= f).
Proof. apply safe_bind, safe_quiet; [apply quiet_get_world|apply granting_level, level_get_world]. Qed.

Lemma safe_nothing fr id k v : K k → safe (p_validated_write srv handle fr id k v (mret tt)).
Proof. intros Hk. apply safe_validated; [done|apply quiet_ret|apply granting_level, level_ret]. Qed.

Lemma safe_dispatch fr method id args :
  (∀ k, get_str "state" args = Some k → K k) → safe (p_dispatch_call srv handle fr method id args).
Proof.
  intros HK. unfold p_dispatch_call, p_call_set, p_call_patch, p_call_at_path, p_call_delete, p_bad_request, extract_state_and_value.
  destruct (get_str "state" args) as [k|]; [|by repeat case_match; simplify_eq; apply safe_answer].
  specialize (HK k eq_refl). repeat case_goal; try apply safe_answer; try (by apply safe_nothing).
  - apply safe_get_world. intros w. by apply safe_nothing.
  - apply safe_get_world. intros w. case_goal; [by apply safe_nothing|apply safe_answer].
  - apply safe_bind; [by apply safe_delete|]. intros r. apply safe_bind; [|intros; apply safe_answer].
    destruct r as [[version ops]|]; [|done]. apply safe_bind; [apply safe_publish|done].
  - apply safe_get_world. intros w. case_goal; [|apply safe_answer].
    apply safe_validated; [done|apply quiet_register|apply granting_level, level_register].
Qed.
Lemma safe_handle_call fr n1 n2 :
  (∀ k, writable srv s0 fr k → K k) → safe (p_handle_call srv handle fr n1 n2).
Proof.
  intros HK. unfold p_handle_call, p_bad_request. destruct (get_str "method" (body fr)) as [method|]; [|apply safe_answer].
  apply safe_bind; [apply safe_quiet; [apply quiet_write_allowed|apply granting_level, level_write_allowed]|]. intros ok.
  destruct ok; [|apply safe_answer]. apply safe_get_session. intros s Hs. cbn [negb]. fold (call_target fr).
  case_goal; [apply safe_answer|]. apply safe_dispatch. fold (call_target fr). intros k Hk. apply HK. split; [done|].
  rewrite Hk in *. rewrite <- (write_permitted_identity srv s0 s k Hs). by apply negb_false_iff.
Qed.

Lemma safe_handle_frame fr n1 n2 :
  (∀ k, frame_type fr = types.CALL → writable srv s0 fr k → K k) → safe (p_handle_frame srv handle fr n1 n2).
Proof.
  intros HK. unfold p_handle_frame. repeat case_goal; [| | | | | |done].
  - apply safe_bind; [apply safe_quiet; [apply quiet_watch_allowed|apply granting_level, level_watch_allowed]|]. intros ok.
    repeat case_goal; try apply safe_answer. apply safe_watch_keys.
  - apply safe_bind; [apply safe_quiet; [apply quiet_watch_allowed|apply granting_level, level_watch_allowed]|]. intros ok.
    destruct ok; [|apply safe_answer]. cbn [negb]. case_goal; [|apply safe_answer].
    apply safe_get_session. intros s1 Hs. destruct (read_allowed srv s1 s) eqn:E; [|apply safe_answer]. cbn [negb].
    apply safe_bind; [apply safe_open_stream; unfold readable; by rewrite <- (read_allowed_identity srv s0 s1)|].
    intros sid. apply safe_get_world. intros w. apply safe_bind; [|intros; apply safe_send_init].
    case_goal; [apply safe_replay|done].
  - unfold p_handle_unwatch. case_goal; [apply safe_unwatch_keys|done].
  - apply safe_handle_call. intros k. apply HK. by bool_to_prop.
  - apply safe_quiet.
    + intros c. unfold p_ack. run_m. split; [|done]. unfold ack_stream. by case_match.
    + intros c. unfold p_ack. run_m. unfold ack_stream. destruct (watches (c_session c) !! stream_id fr) as [w|] eqn:E; [|split; cbn; [done|eauto|by left]].
      split; cbn; [done| |by left]. intros sid w'. rewrite lookup_insert_Some. intros [[<- <-]|[_ ?]]; right; eauto.
  - apply safe_quiet; [apply quiet_send|apply granting_level, level_send].
Qed.
End Safe.

(** ** Interleaved connections *)

Record RConn : Type := mkRConn {
  rc_session : Session;
  rc_prog : Prog unit;       (* what is left of the frame being handled *)
}.

(** Connections by write handle, and what they share. *)
Record RNode : Type := mkRNode {
  rn_conns : gmap nat RConn;
  rn_world : World;
}.

Inductive RAct : Type :=
| RFrame (h : nat) (frame : Frame) (now1 now2 : Z)   (* an idle connection takes a frame *)
| RStep (h : nat)                                    (* a connection makes its next access *)
| RNet (net : Net).                                  (* the write tasks and sockets go on, in whatever way *)

Section Interleaved.
Context `{EntryCodec, HashOrder, BodyCodec}.
Context (srv : SodpServer).

Definition ract (n : RNode) (a : RAct) : RNode :=
  match a with
  | RFrame h frame now1 now2 =>
      match rn_conns n !! h with
      | Some (mkRConn s (Ret _)) =>
          mkRNode (<[h := mkRConn s (p_handle_frame srv h frame now1 now2)]> (rn_conns n)) (rn_world n)
      | _ => n
      end
  | RStep h =>
      match rn_conns n !! h with
      | Some (mkRConn s (Atom m k)) =>
          let '(x, c') := m (mkConn s (rn_world n)) in
          mkRNode (<[h := mkRConn (c_session c') (k x)]> (rn_conns n)) (c_world c')
      | _ => n
      end
  | RNet net =>
      let w := rn_world n in mkRNode (rn_conns n) (mkWorld (w_state w) (w_fanout w) net (w_tasks w))
  end.

Definition rrun (n : RNode) (acts : list RAct) : RNode := fold_left ract acts n.

(** The writes that the frames of [acts] ask for and the ACL allows. *)
Definition asked (n0 : RNode) (acts : list RAct) (k : string) : Prop :=
  ∃ h c fr now1 now2, rn_conns n0 !! h = Some c ∧ RFrame h fr now1 now2 ∈ acts ∧
    frame_type fr = types.CALL ∧ writable srv (rc_session c) fr k.

(** A subscription of a connection on a key it may read. *)
Definition entitled (n0 : RNode) (k : string) (sub : Subscriber) : Prop :=
  ∃ h c, rn_conns n0 !! h = Some c ∧ readable srv (rc_session c) k ∧
    session_id sub = s_id (rc_session c) ∧ write sub = h.

Record race_ok (n0 : RNode) (K : string → Prop) (n : RNode) : Prop := {
  ro_conns : ∀ h c, rn_conns n !! h = Some c → ∃ c0, rn_conns n0 !! h = Some c0 ∧
    same_identity (rc_session c0) (rc_session c) ∧ safe srv h (rc_session c0) K (rc_prog c);
  ro_store : changed_within K (conformant srv) (w_state (rn_world n0)) (w_state (rn_world n));
  ro_subs : ∀ k sub, sub ∈ subs_of (w_fanout (rn_world n)) k →
    sub ∈ subs_of (w_fanout (rn_world n0)) k ∨ entitled n0 k sub;
}.

Lemma ract_ok n0 all K n a :
  (∀ k, asked n0 all k → K k) → a ∈ all → race_ok n0 K n → race_ok n0 K (ract n a).
Proof.
  intros HK Ha [Hc Hst Hsub]. destruct a as [h fr now1 now2|h|net]; cbn [ract]; [| |by split].
  - destruct (rn_conns n !! h) as [[s [a|X m k]]|] eqn:Eh; [|by split..].
    split; cbn [rn_conns rn_world]; [|done..]. intros h' c [[<- <-]|[_ Hc']]%lookup_insert_Some; [|by apply Hc].
    destruct (Hc _ _ Eh) as (c0 & H0' & Hid & _). exists c0. split_and!; [done|done|]. cbn [rc_prog].
    apply safe_handle_frame. intros k Ht Hw. apply HK. by exists h, c0, fr, now1, now2.
  - destruct (rn_conns n !! h) as [[s [a|X m k]]|] eqn:Eh; [by split| |by split].
    destruct (Hc _ _ Eh) as (c0 & H0' & Hid & Hs). cbn [rc_prog rc_session safe] in Hid, Hs.
    destruct (Hs (mkConn s (rn_world n)) Hid) as [[Hch [Gi _ Gs]] Hk].
    destruct (m (mkConn s (rn_world n))) as [x c']. cbn [fst snd c_world c_session] in *.
    split; cbn [rn_conns rn_world].
    + intros h' c [[<- <-]|[_ Hc']]%lookup_insert_Some; [|by apply Hc]. exists c0. split_and!; [done| |done]. by etrans.
    + by eapply changed_within_trans.
    + intros k' sub [Hin|(Hr & Hi & Hh)]%Gs; [by apply Hsub|]. right. exists h, c0. split_and!; [done|done| |done].
      destruct Hid as [Hid _]. congruence.
Qed.

Lemma rrun_ok n0 all K n acts :
  (∀ k, asked n0 all k → K k) → (∀ a, a ∈ acts → a ∈ all) → race_ok n0 K n → race_ok n0 K (rrun n acts).
Proof.
  intros HK. revert n. induction acts as [|a acts IH]; intros n Ha Hn; [done|]. apply IH.
  - intros b Hb. apply Ha. by right.
  - eapply ract_ok; [done|by apply Ha; left|done].
Qed.

(** C9. Access control and schema under every interleaving. Any number of connections
    handle any frames, switching between any two accesses to what they share.  A key of
    the store has changed only if some connection took a CALL that names it and its
    session may write it, and then its value conforms to the schema; a new
    subscription is some connection's own, on a key its session may read; and a store
    that conforms to the schema still does. *)
Theorem interleaved_frames_safe n0 acts :
  (∀ h c, rn_conns n0 !! h = Some c → rc_prog c = Ret tt) →
  let n := rrun n0 acts in
  (∀ k, store_get (w_state (rn_world n)) k = store_get (w_state (rn_world n0)) k ∨
     (asked n0 acts k ∧
      match store_get (w_state (rn_world n)) k with Some e => schema_check srv k (se_value e) = Ok tt | None => True end)) ∧
  (∀ k sub, sub ∈ subs_of (w_fanout (rn_world n)) k →
     sub ∈ subs_of (w_fanout (rn_world n0)) k ∨ entitled n0 k sub) ∧
  (schema_inv srv (w_state (rn_world n0)) → schema_inv srv (w_state (rn_world n))).
Proof.
  intros Hidle n. assert (Hok : race_ok n0 (asked n0 acts) n).
  { apply (rrun_ok n0 acts); [done|done|]. split; [|apply changed_within_refl|by left].
    intros h c Hc. exists c. split_and!; [done|done|]. by rewrite (Hidle h c Hc). }
  destruct Hok as [_ Hst Hsub]. split_and!; [apply Hst|apply Hsub|].
  intros Hi k e He. destruct (Hst k) as [E|[_ HV]]; [rewrite E in He; eauto|]. by rewrite He in HV.
Qed.
End Interleaved.

(** ** Examples *)

Module RaceExamples.
Import ServerExamples.

Definition two_conns : RNode :=
  mkRNode {[ 0 := mkRConn (session_new "a" None None 0) (Ret tt); 1 := mkRConn (session_new "b" None None 0) (Ret tt) ]} world0.

Definition set_in (key path : string) (v : Value) : Frame :=
  call_frame "state.set_in" [("state", VString key); ("path", VString path); ("value", v)].

Definition plain : SodpServer := server_with None None.

(** Each connection in turn makes one access, [n] times. *)
Definition turns (n : nat) : list RAct := concat (repeat [RStep 0; RStep 1] n).

(** Each sets two fields of its own key. *)
Definition own_keys : list RAct :=
  ([RFrame 0 (set_in "r" "/a" (num 1)) 0 0; RFrame 1 (set_in "s" "/b" (num 2)) 0 0] ++ turns 10 ++
   [RFrame 0 (set_in "r" "/c" (num 3)) 0 0; RFrame 1 (set_in "s" "/d" (num 4)) 0 0] ++ turns 10)%list.

(** Both set a field of one key. *)
Definition same_key : list RAct :=
  ([RFrame 0 (set_in "r" "/a" (num 1)) 0 0; RFrame 1 (set_in "r" "/b" (num 2)) 0 0] ++ turns 10)%list.
End RaceExamples.
Import ServerExamples RaceExamples.

Lemma two_conns_idle g c : rn_conns two_conns !! g = Some c → rc_prog c = Ret tt.
Proof. cbn. rewrite lookup_insert_Some. intros [[_ <-]|[_ [_ <-]%lookup_singleton_Some]]; done. Qed.

(** Both register in the room, whose schema wants a field "u". *)
Lemma interleaved_frames_safe_witness :
  let srv := server_with (Some room_schema) None in
  schema_inv srv (w_state (rn_world (rrun srv two_conns
    ([RFrame 0 presence_frame 0 0; RFrame 1 presence_frame 0 0] ++ turns 4)%list))).
Proof.
  intros srv. destruct (interleaved_frames_safe srv two_conns
    ([RFrame 0 presence_frame 0 0; RFrame 1 presence_frame 0 0] ++ turns 4)%list two_conns_idle) as (_ & _ & Hs).
  apply Hs. intros k e. by unfold store_get; cbn; rewrite lookup_empty.
Defined.
