(* ===== verification/HandlerSerial.v ===== *)
(** * Interleaved handlers without write conflicts (src/src/server.rs)

    [state.patch], [state.set_in] and [state.presence] read a value and write another one
    back, and other connections may run in between (HandlerRace.v).  When no key is
    written by two connections this does not show: each connection leaves in its keys
    what it would have left on its own.

    The proof compares two runs of one program from states that are [similar] to it: the
    session is the same up to its sequence counter, and so are the values of the keys
    the connection writes.  Versions, deltas and other keys may differ. *)

From S2P Require Import Prelude RustStr Json JsonPath Delta Schema Acl Frame Log Store Session WritePool Fanout Cluster Server ServerLogic ServerSafety HandlerRace.

Local Open Scope string_scope.

(** ** What a connection can tell apart *)

Definition core (s : Session) : Session :=
  mkSession (s_id s) (s_sub s) (s_claims s) (watches s) (presence s) (write_limiter s) (watch_limiter s) (next_stream_id s) 0.

(** The value of a key, if it is there. *)
Definition stored (st : StateStore) (k : string) : option Value := se_value <$> store_get st k.

(** A result that does not matter. *)
Abbreviation any := (λ _ _, True).

Section Similar.
Context (O : string → Prop).

Record similar (c c' : Conn) : Prop := {
  sm_session : core (c_session c) = core (c_session c');
  sm_values : ∀ k, O k → stored (w_state (c_world c)) k = stored (w_state (c_world c')) k;
}.

#[global] Instance similar_equivalence : Equivalence similar.
Proof.
  split.
  - by intros c.
  - intros c c' [H1 H2]. split; [done|]. intros k Hk. symmetry. by apply H2.
  - intros c1 c2 c3 [H1 H2] [H3 H4]. split; [congruence|]. intros k Hk. rewrite H2 by done. by apply H4.
Qed.

(** Actions that do nothing of this. *)
Definition calm {A} (m : M A) : Prop := ∀ c, similar c (m c).2.

Lemma quiet_calm {A} (m : M A) :
  (∀ c, core (c_session (m c).2) = core (c_session c)) → (∀ c, w_state (c_world (m c).2) = w_state (c_world c)) → calm m.
Proof. intros Hs Hw c. split; [by rewrite Hs|]. by rewrite Hw. Qed.

(** Programs of which all atoms are calm. *)
Fixpoint idle {A} (p : Prog A) : Prop :=
  match p with Ret _ => True | Atom m k => calm m ∧ ∀ x, idle (k x) end.

Lemma idle_bind {A B} (p : Prog A) (f : A → Prog B) : idle p → (∀ a, idle (f a)) → idle (p ≫= f).
Proof.
  intros Hp Hf. unfold mbind, Prog_bind. induction p as [a|X m k IH]; cbn; [apply Hf|].
  destruct Hp as [Hm Hk]. split; [done|]. intros x. by apply IH.
Qed.

Lemma idle_atom {X} (m : M X) : calm m → idle (atom m).
Proof. by intros Hm. Qed.

Lemma idle_run {A} (p : Prog A) c : idle p → similar c (run_prog p c).2.
Proof.
  revert c. induction p as [a|X m k IH]; intros c Hp; [reflexivity|]. destruct Hp as [Hm Hk].
  cbn [run_prog]. unfold mbind, M_bind. specialize (Hm c). destruct (m c) as [x c']. etrans; [exact Hm|by apply IH].
Qed.

(** ** Two runs *)

(** From similar states, results related by [R] and similar states. *)
Definition sim {A} (R : A → A → Prop) (p p' : Prog A) : Prop := ∀ c c', similar c c' →
  R (run_prog p c).1 (run_prog p' c').1 ∧ similar (run_prog p c).2 (run_prog p' c').2.

(** The same program, started now or from any point it can get to. *)
Fixpoint steady {A} (R : A → A → Prop) (p : Prog A) : Prop :=
  sim R p p ∧ match p with Ret _ => True | Atom m k => ∀ x, steady R (k x) end.

Lemma steady_sim {A} (R : A → A → Prop) p : steady R p → sim R p p.
Proof. destruct p; by intros []. Qed.

Lemma steady_next {A X} (R : A → A → Prop) (m : M X) k x : steady R (Atom m k) → steady R (k x).
Proof. intros [_ Hk]. apply Hk. Qed.

Lemma sim_bind {A B} (R : A → A → Prop) (S : B → B → Prop) p p' f f' :
  sim R p p' → (∀ x x', R x x' → sim S (f x) (f' x')) → sim S (p ≫= f) (p' ≫= f').
Proof.
  intros Hp Hf c c' Hc. rewrite !run_prog_bind. unfold mbind, M_bind. destruct (Hp c c' Hc) as [HR Hs].
  destruct (run_prog p c) as [x d], (run_prog p' c') as [x' d']. by apply Hf.
Qed.

Lemma steady_bind {A B} (R : A → A → Prop) (S : B → B → Prop) (p : Prog A) (f : A → Prog B) :
  steady R p → (∀ x x', R x x' → sim S (f x) (f x')) → (∀ x, steady S (f x)) → steady S (p ≫= f).
Proof.
  intros Hp Hf Hs. induction p as [a|X m k IH]; [apply Hs|].
  split; [exact (sim_bind R S _ _ f f (steady_sim _ _ Hp) Hf)|]. intros x. by apply IH, (steady_next R m).
Qed.

Lemma sim_idle {A} (p p' : Prog A) : idle p → idle p' → sim any p p'.
Proof.
  intros Hp Hp' c c' Hc. split; [done|]. rewrite <- (idle_run p c Hp), <- (idle_run p' c' Hp'). exact Hc.
Qed.

Lemma steady_idle {A} (p : Prog A) : idle p → steady any p.
Proof.
  induction p as [a|X m k IH]; intros Hp; (split; [by apply sim_idle|]); [done|]. intros x. apply IH, Hp.
Qed.

Lemma steady_atom {X} (R : X → X → Prop) (m : M X) :
  (∀ x, R x x) → (∀ c c', similar c c' → R (m c).1 (m c').1 ∧ similar (m c).2 (m c').2) → steady R (atom m).
Proof.
  intros HR Hm. split; [|by intros x; split]. change (sim R (atom m) (atom m)).
  intros c c' Hc. rewrite !implements_atom. by apply Hm.
Qed.

(** Whatever comes first, an idle rest. *)
Lemma steady_then_idle {A} (R : A → A → Prop) (p : Prog A) (f : A → Prog unit) :
  steady R p → (∀ x, idle (f x)) → steady any (p ≫= f).
Proof.
  intros Hp Hf. apply (steady_bind R); [done| |].
  - intros x x' _. by apply sim_idle.
  - intros x. by apply steady_idle.
Qed.

(** The rest only depends on what the related results have in common. *)
Lemma steady_bind_same {A} (R : A → A → Prop) (p : Prog A) (f : A → Prog unit) :
  steady R p → (∀ x x', R x x' → f x = f x') → (∀ x, steady any (f x)) → steady any (p ≫= f).
Proof.
  intros Hp Hf Hs. apply (steady_bind R); [done| |done].
  intros x x' Hx. rewrite <- (Hf _ _ Hx). by apply steady_sim.
Qed.
End Similar.

(** ** The handlers *)

Section Handlers.
Context `{EntryCodec, HashOrder, BodyCodec}.
Context (srv : SodpServer) (handle : nat) (O : string → Prop).

Abbreviation calm := (calm O).
Abbreviation idle := (idle O).
Abbreviation steady := (steady O).
Abbreviation similar := (similar O).

Lemma calm_ret {A} (a : A) : calm (mret a).
Proof. intros c. reflexivity. Qed.
Lemma calm_get_session : calm get_session.
Proof. intros c. reflexivity. Qed.
Lemma calm_get_world : calm get_world.
Proof. intros c. reflexivity. Qed.
Lemma calm_take_seq : calm take_seq.
Proof. by apply quiet_calm. Qed.
Lemma calm_send msg : calm (send handle msg).
Proof. apply quiet_calm; intros c; unfold send; by case_match. Qed.
Lemma calm_broadcast k b e : calm (broadcast_timed k b e).
Proof. apply quiet_calm; intros c; unfold broadcast_timed; by case_match. Qed.
Lemma calm_cluster_task t : calm (cluster_task srv t).
Proof. apply quiet_calm; intros c; unfold cluster_task; by case_match. Qed.
Lemma calm_bind {A B} (m : M A) (f : A → M B) : calm m → (∀ a, calm (f a)) → calm (m ≫= f).
Proof.
  intros Hm Hf c. unfold mbind, M_bind. specialize (Hm c). destruct (m c) as [a c']. etrans; [exact Hm|apply Hf].
Qed.
Lemma calm_reply f : calm (reply handle f).
Proof. apply calm_bind; [apply calm_take_seq|]. intros n. apply calm_send. Qed.
Lemma calm_send_own k b : calm (send_own_delta handle k b).
Proof. apply calm_bind; [apply calm_get_session|]. intros s. case_match; [apply calm_send|apply calm_ret]. Qed.

Create HintDb calm.
#[local] Hint Resolve calm_ret calm_get_session calm_get_world calm_take_seq calm_send calm_broadcast calm_cluster_task
  calm_reply calm_send_own idle_atom : calm.

Ltac idle_tac := repeat first [progress intros|done|progress auto with calm|apply idle_bind|case_goal].

Lemma idle_answer f : idle (answer handle f).
Proof. apply idle_atom, calm_reply. Qed.
#[local] Hint Resolve idle_answer : calm.
Lemma idle_send_init sid k p : idle (p_send_init handle sid k p).
Proof. unfold p_send_init. idle_tac. Qed.
Lemma idle_replay sid l : idle (p_replay_missed handle sid l).
Proof. induction l as [|[v ops] l IH]; cbn [p_replay_missed]; idle_tac. Qed.
Lemma idle_publish k b t : idle (p_publish srv handle k b t).
Proof. unfold p_publish. idle_tac. Qed.
#[local] Hint Resolve idle_send_init idle_replay idle_publish : calm.

(** Reading the session and the store. *)
Definition same_session (s s' : Session) : Prop := core s = core s'.
Definition same_values (w w' : World) : Prop := ∀ k, O k → stored (w_state w) k = stored (w_state w') k.

Lemma steady_get_session : steady same_session (atom get_session).
Proof. apply steady_atom; [done|]. intros c c' Hc. split; [apply Hc|exact Hc]. Qed.
Lemma steady_get_world : steady same_values (atom get_world).
Proof. apply steady_atom; [done|]. intros c c' Hc. split; [exact (sm_values O _ _ Hc)|exact Hc]. Qed.

(** Actions on the session, whose result and effect depend on its core. *)
Lemma steady_session {X} (m : M X) (g : Session → X * Session) :
  (∀ c, (m c).1 = (g (core (c_session c))).1 ∧ core (c_session (m c).2) = core (g (core (c_session c))).2 ∧
     w_state (c_world (m c).2) = w_state (c_world c)) →
  steady eq (atom m).
Proof.
  intros Hm. apply steady_atom; [done|]. intros c c' [Hs Hv].
  destruct (Hm c) as (-> & E1 & E2), (Hm c') as (-> & E3 & E4). split; [by rewrite Hs|].
  split; [by rewrite E1, E3, Hs|]. by rewrite E2, E4.
Qed.

Lemma steady_write_allowed n1 n2 : steady eq (atom (write_allowed n1 n2)).
Proof.
  apply (steady_session _ (λ s, let '(ok, l) := allow_opt (write_limiter s) n1 n2 in
    (ok, mkSession (s_id s) (s_sub s) (s_claims s) (watches s) (presence s) l (watch_limiter s) (next_stream_id s) 0))).
  intros c. unfold write_allowed. cbn. by destruct (allow_opt _ _ _).
Qed.
Lemma steady_watch_allowed n1 n2 : steady eq (atom (watch_allowed n1 n2)).
Proof.
  apply (steady_session _ (λ s, let '(ok, l) := allow_opt (watch_limiter s) n1 n2 in
    (ok, mkSession (s_id s) (s_sub s) (s_claims s) (watches s) (presence s) (write_limiter s) l (next_stream_id s) 0))).
  intros c. unfold watch_allowed. cbn. by destruct (allow_opt _ _ _).
Qed.
Lemma steady_open_stream k p : steady eq (atom (open_stream handle k p)).
Proof.
  by apply (steady_session _ (λ s, let '(sid, s1) := allocate_stream s in (sid, add_watch s1 sid k p))).
Qed.
Lemma steady_register k p : steady eq (atom (register_presence k p)).
Proof.
  apply (steady_session _ (λ s, (tt, add_presence s k p))). intros c. split_and!; [done| |done].
  unfold register_presence. run_m. unfold add_presence. cbn. by case_match.
Qed.
Lemma steady_ack fr : steady eq (atom (p_ack fr)).
Proof.
  apply (steady_session _ (λ s, (tt, ack_stream s (stream_id fr) (default 0%Z (value_get "seq" (body fr) ≫= as_u64))))).
  intros c. split_and!; [done| |done]. unfold p_ack. run_m. unfold ack_stream. cbn. by case_match.
Qed.
Lemma steady_unwatch k : steady eq (atom (unwatch_keys [k])).
Proof.
  apply (steady_session _ (λ s, (tt, match watch_stream_id s k with Some sid => (remove_watch s sid).2 | None => s end))).
  intros c. cbn [unwatch_keys]. unfold mbind, M_bind, get_session.
  change (watch_stream_id (core (c_session c)) k) with (watch_stream_id (c_session c) k).
  by destruct (watch_stream_id (c_session c) k).
Qed.
(** Writing a key of the connection's own. *)
Lemma stored_apply st k v k' :
  stored (store_apply st k v).2 k' = if decide (k' = k) then Some v else stored st k'.
Proof.
  unfold stored, store_get. rewrite store_apply_entries. case_decide as E; [subst; by rewrite lookup_insert_eq|].
  by rewrite lookup_insert_ne.
Qed.

Lemma stored_delete st k k' :
  stored (store_delete st k).2 k' = if decide (k' = k) then None else stored st k'.
Proof.
  unfold stored. destruct (store_get st k) as [e|] eqn:E.
  - destruct (store_delete_present st k e E) as (_ & He & _). unfold store_get. rewrite He.
    case_decide as Ek; [subst; by rewrite lookup_delete_eq|by rewrite lookup_delete_ne].
  - rewrite store_delete_absent by done. case_decide as Ek; [subst; cbn; by rewrite E|done].
Qed.

Lemma steady_apply k v : steady any (atom (state_apply k v)).
Proof.
  apply steady_atom; [done|]. intros c c' [Hs Hv]. split; [done|]. unfold state_apply.
  pose proof (stored_apply (w_state (c_world c)) k v) as E1. pose proof (stored_apply (w_state (c_world c')) k v) as E2.
  destruct (store_apply _ k v) as [r st], (store_apply _ k v) as [r' st']. cbn [snd] in E1, E2. split; cbn; [done|].
  intros k' Hk'. rewrite E1, E2. case_decide; [done|by apply Hv].
Qed.

Lemma steady_delete k : steady any (atom (state_delete k)).
Proof.
  apply steady_atom; [done|]. intros c c' [Hs Hv]. split; [done|]. unfold state_delete.
  pose proof (stored_delete (w_state (c_world c)) k) as E1. pose proof (stored_delete (w_state (c_world c')) k) as E2.
  destruct (store_delete _ k) as [r st], (store_delete _ k) as [r' st']. cbn [snd] in E1, E2. split; cbn; [done|].
  intros k' Hk'. rewrite E1, E2. case_decide; [done|by apply Hv].
Qed.

(** One steady program after another. *)
Lemma steady_seq {A} (R : A → A → Prop) (p : Prog A) (q : Prog unit) :
  steady R p → steady any q → steady any (p ≫= λ _, q).
Proof. intros Hp Hq. by apply (steady_bind_same O R). Qed.

Lemma steady_watch_keys ks p : steady any (p_watch_keys srv handle ks p).
Proof.
  induction ks as [|k ks IH]; cbn [p_watch_keys]; [by apply steady_idle|].
  apply (steady_bind_same O same_session); [apply steady_get_session| |].
  - intros s s' Hs. unfold read_allowed. injection Hs as _ Hsub Hcl _ _ _ _ _. by rewrite Hsub, Hcl.
  - intros s. apply (steady_seq any); [|done]. case_goal; [|apply steady_idle; auto with calm].
    apply (steady_then_idle O eq); [apply steady_open_stream|]. intros sid. auto with calm.
Qed.

Lemma steady_unwatch_keys ks : steady any (p_unwatch_keys ks).
Proof.
  induction ks as [|k ks IH]; cbn [p_unwatch_keys]; [by apply steady_idle|].
  apply (steady_seq eq); [apply steady_unwatch|done].
Qed.

Lemma steady_validated fr id k v after :
  steady eq (atom after) → steady any (p_validated_write srv handle fr id k v after).
Proof.
  intros Ha. unfold p_validated_write. case_goal; [|apply steady_idle; auto with calm].
  unfold p_commit. eapply (steady_bind O any); [|intros n n' _|intros n].
  - apply (steady_bind O any); [apply steady_apply|intros r r' _|intros r].
    + apply sim_idle; idle_tac.
    + apply steady_idle. idle_tac.
  - apply (sim_bind O eq); [by apply steady_sim|]. intros ? ? _. apply sim_idle; auto with calm.
  - apply (steady_then_idle O eq); [done|]. auto with calm.
Qed.

Lemma steady_dispatch fr method id args :
  (∀ k, get_str "state" args = Some k → O k) → steady any (p_dispatch_call srv handle fr method id args).
Proof.
  intros HO. unfold p_dispatch_call, p_call_set, p_call_patch, p_call_at_path, p_call_delete, p_bad_request, extract_state_and_value.
  assert (Hans : ∀ f, steady any (answer handle f)) by (intros f; apply steady_idle; auto with calm).
  assert (Hnone : ∀ fr id k v, steady any (p_validated_write srv handle fr id k v (mret tt))).
  { intros. apply steady_validated, steady_atom; [done|]. by intros c c' Hc. }
  destruct (get_str "state" args) as [k|]; [|by repeat case_match; simplify_eq; apply Hans].
  specialize (HO k eq_refl). assert (Hcur : ∀ w w' d, same_values w w' →
    match store_get (w_state w) k with Some e => se_value e | None => d end =
    match store_get (w_state w') k with Some e => se_value e | None => d end).
  { intros w w' d Hw. specialize (Hw k HO). unfold stored in Hw.
    destruct (store_get (w_state w) k), (store_get (w_state w') k); cbn in Hw; congruence. }
  repeat case_goal; try apply Hans; try apply Hnone.
  - apply (steady_bind_same O same_values); [apply steady_get_world| |intros w; apply Hnone].
    intros w w' Hw. by rewrite (Hcur w w' _ Hw).
  - apply (steady_bind_same O same_values); [apply steady_get_world| |intros w; case_goal; [apply Hnone|apply Hans]].
    intros w w' Hw. by rewrite (Hcur w w' _ Hw).
  - apply (steady_then_idle O any); [apply steady_delete|]. idle_tac.
  - apply (steady_bind_same O same_values); [apply steady_get_world| |].
    + intros w w' Hw. by rewrite (Hcur w w' _ Hw).
    + intros w. case_goal; [|apply Hans]. apply steady_validated, steady_register.
Qed.
Lemma steady_handle_call fr n1 n2 :
  (∀ k, call_target fr = Some k → O k) → steady any (p_handle_call srv handle fr n1 n2).
Proof.
  intros HO. unfold p_handle_call, p_bad_request. case_goal; [|apply steady_idle; auto with calm].
  apply (steady_bind_same O eq); [apply steady_write_allowed|by intros ok ok' ->|]. intros ok.
  case_goal; [apply steady_idle; auto with calm|].
  apply (steady_bind_same O same_session); [apply steady_get_session| |].
  - intros s' s'' Hs. unfold write_permitted. injection Hs as _ Hsub Hcl _ _ _ _ _. by rewrite Hsub, Hcl.
  - intros s'. case_goal; [apply steady_idle; auto with calm|by apply steady_dispatch].
Qed.

Lemma steady_handle_frame fr n1 n2 :
  (∀ k, frame_type fr = types.CALL → call_target fr = Some k → O k) → steady any (p_handle_frame srv handle fr n1 n2).
Proof.
  intros HO. unfold p_handle_frame. repeat case_goal.
  - apply (steady_bind_same O eq); [apply steady_watch_allowed|by intros ok ok' ->|]. intros ok.
    repeat case_goal; [apply steady_idle; auto with calm|apply steady_watch_keys|apply steady_idle; auto with calm].
  - apply (steady_bind_same O eq); [apply steady_watch_allowed|by intros ok ok' ->|]. intros ok.
    case_goal; [apply steady_idle; auto with calm|]. case_goal; [|apply steady_idle; auto with calm].
    apply (steady_bind_same O same_session); [apply steady_get_session| |].
    + intros s' s'' Hs. unfold read_allowed. injection Hs as _ Hsub Hcl _ _ _ _ _. by rewrite Hsub, Hcl.
    + intros s'. case_goal; [apply steady_idle; auto with calm|].
      apply (steady_then_idle O eq); [apply steady_open_stream|]. idle_tac.
  - unfold p_handle_unwatch. case_goal; [apply steady_unwatch_keys|by apply steady_idle].
  - apply steady_handle_call. intros k. apply HO. by bool_to_prop.
  - apply (steady_bind_same O eq (atom (p_ack fr)) (λ _, Ret tt)); [apply steady_ack|done|by intros _; apply steady_idle].
  - apply steady_idle. auto with calm.
  - by apply steady_idle.
Qed.
End Handlers.

(** ** Interleaved and alone *)

Section Serial.
Context `{EntryCodec, HashOrder, BodyCodec}.
Context (srv : SodpServer).

(** The keys that the CALLs of the connections name. *)
Definition named (acts : list RAct) : list (nat * string) :=
  omap (λ a, match a with
             | RFrame h fr _ _ => if (frame_type fr =? types.CALL)%Z then (λ k, (h, k)) <$> call_target fr else None
             | _ => None
             end) acts.

Definition targets (acts : list RAct) (h : nat) (k : string) : Prop := (h, k) ∈ named acts.

Lemma targets_frame acts h fr now1 now2 k :
  RFrame h fr now1 now2 ∈ acts → frame_type fr = types.CALL → call_target fr = Some k → targets acts h k.
Proof.
  intros Hin Ht Hk. apply list_elem_of_omap. exists (RFrame h fr now1 now2). split; [done|]. by rewrite Ht, Hk.
Qed.

(** No key is named by two connections. *)
Definition one_owner (acts : list RAct) : bool :=
  forallb (λ p, forallb (λ q, implb (String.eqb p.2 q.2) (Nat.eqb p.1 q.1)) (named acts)) (named acts).

Lemma one_owner_spec acts :
  one_owner acts = true → ∀ g g' k, targets acts g k → targets acts g' k → g = g'.
Proof.
  unfold one_owner, targets. intros Ho g g' k H1' H2'.
  pose proof (forallb_elem _ _ _ (forallb_elem _ _ _ Ho H1') H2') as Hq. cbn in Hq. rewrite String.eqb_refl in Hq. by apply Nat.eqb_eq.
Qed.

(** The frame that connection [h] takes, if any: a busy connection takes none. *)
Definition accepted (n : RNode) (a : RAct) (h : nat) : list (Frame * Z * Z) :=
  match a with
  | RFrame g fr now1 now2 =>
      match rn_conns n !! g with
      | Some (mkRConn _ (Ret _)) => if decide (g = h) then [(fr, now1, now2)] else []
      | _ => []
      end
  | _ => []
  end.

Fixpoint took (n : RNode) (acts : list RAct) (h : nat) : list (Frame * Z * Z) :=
  match acts with
  | [] => []
  | a :: acts' => accepted n a h ++ took (ract srv n a) acts' h
  end%list.

(** The frames one after the other, nobody else running. *)
Definition solo (h : nat) (frames : list (Frame * Z * Z)) (c : Conn) : Conn :=
  fold_left (λ c '(fr, now1, now2), (handle_frame srv h fr now1 now2 c).2) frames c.

(** What connection [h] will have done when it has finished its frame. *)
Definition outlook (w : World) (c : RConn) : Conn := (run_prog (rc_prog c) (mkConn (rc_session c) w)).2.

Section Run.
Context (n0 : RNode) (all : list RAct).
Hypothesis Hdisjoint : ∀ h g k, targets all h k → targets all g k → h = g.

Record on_track (h : nat) (frames : list (Frame * Z * Z)) (w : World) (c0 c : RConn) : Prop := {
  tr_identity : same_identity (rc_session c0) (rc_session c);
  tr_safe : safe srv h (rc_session c0) (targets all h) (rc_prog c);
  tr_steady : steady (targets all h) any (rc_prog c);
  tr_outlook : similar (targets all h) (outlook w c) (solo h frames (mkConn (rc_session c0) (rn_world n0)));
}.

(** The others may go on: they do not touch the keys of [h]. *)
Lemma on_track_world h frames w w' c0 c :
  on_track h frames w c0 c → (∀ k, targets all h k → stored (w_state w) k = stored (w_state w') k) →
  on_track h frames w' c0 c.
Proof.
  intros [Hid Hsafe Hst Ho] Hw. split; [done..|]. etrans; [|exact Ho]. symmetry.
  destruct (steady_sim _ _ _ Hst (mkConn (rc_session c) w) (mkConn (rc_session c) w')) as [_ Hs]; [by split|]. exact Hs.
Qed.

Lemma changed_stored K V st st' k : changed_within K V st st' → ¬ K k → stored st k = stored st' k.
Proof. intros Hc Hk. unfold stored. destruct (Hc k) as [->|[? _]]; done. Qed.

Definition tracked (frames : nat → list (Frame * Z * Z)) (n : RNode) : Prop :=
  ∀ h c, rn_conns n !! h = Some c → ∃ c0, rn_conns n0 !! h = Some c0 ∧ on_track h (frames h) (rn_world n) c0 c.

Lemma tracked_frame frames n h fr now1 now2 :
  RFrame h fr now1 now2 ∈ all → tracked frames n →
  tracked (λ g, frames g ++ accepted n (RFrame h fr now1 now2) g)%list (ract srv n (RFrame h fr now1 now2)).
Proof.
  intros Ha Ht. cbn [accepted ract].
  destruct (rn_conns n !! h) as [[s [[]|X m k]]|] eqn:Eh.
  2, 3: intros g c Hg; rewrite app_nil_r; by apply Ht.
  intros g c. cbn [rn_conns rn_world]. intros [[<- <-]|[Hne Hc]]%lookup_insert_Some.
  2:{ rewrite decide_False by done. rewrite app_nil_r. by apply Ht. }
  rewrite decide_True by done. destruct (Ht _ _ Eh) as (c0 & H0' & [Hid _ _ Ho]). exists c0. split; [done|].
  assert (Hst : steady (targets all h) any (p_handle_frame srv h fr now1 now2)).
  { apply steady_handle_frame. intros k Hk Hct. by eapply targets_frame. }
  split; cbn [rc_session rc_prog]; [done| |done|].
  - apply safe_handle_frame. intros k Hk [Hct _]. by eapply targets_frame.
  - unfold solo in *. rewrite fold_left_app. cbn [fold_left]. rewrite <- (alone_handle_frame srv h fr now1 now2).
    apply (steady_sim _ _ _ Hst), Ho.
Qed.

Lemma tracked_step frames n h : tracked frames n → tracked frames (ract srv n (RStep h)).
Proof.
  intros Ht. cbn [ract]. destruct (rn_conns n !! h) as [[s [a|X m k]]|] eqn:Eh; [done| |done].
  destruct (Ht _ _ Eh) as (c0 & H0' & [Hid Hsafe Hst Ho]). cbn [rc_session rc_prog safe] in *.
  destruct (Hsafe (mkConn s (rn_world n)) Hid) as [[Hch [Gi _ _]] Hk].
  unfold outlook in Ho. cbn [rc_prog rc_session run_prog] in Ho. unfold mbind, M_bind in Ho.
  destruct (m (mkConn s (rn_world n))) as [x c']. cbn [fst snd c_session c_world] in *.
  intros g c. cbn [rn_conns rn_world]. intros [[<- <-]|[Hne Hc]]%lookup_insert_Some.
  - exists c0. split; [done|]. split; cbn [rc_session rc_prog]; [by etrans|done|by apply (steady_next _ any m)|].
    unfold outlook. cbn [rc_prog rc_session]. by destruct c'.
  - destruct (Ht _ _ Hc) as (c0' & H0'' & Htr). exists c0'. split; [done|].
    eapply on_track_world; [exact Htr|]. intros k' Hk'. eapply changed_stored; [exact Hch|].
    intros Hk''. apply Hne. by apply (Hdisjoint h g k').
Qed.

Lemma tracked_net frames n net : tracked frames n → tracked frames (ract srv n (RNet net)).
Proof.
  intros Ht h c Hc. destruct (Ht h c Hc) as (c0 & H0' & Htr). exists c0. split; [done|]. by eapply on_track_world.
Qed.

Lemma tracked_run frames n acts :
  (∀ a, a ∈ acts → a ∈ all) → tracked frames n → tracked (λ g, frames g ++ took n acts g)%list (rrun srv n acts).
Proof.
  revert frames n. induction acts as [|a acts IH]; intros frames n Ha Ht.
  { intros h c Hc. rewrite app_nil_r. by apply Ht. }
  assert (Hstep : tracked (λ g, frames g ++ accepted n a g)%list (ract srv n a)).
  { destruct a as [h fr now1 now2|h|net]; [apply tracked_frame; [apply Ha; by left|done]| |];
      cbn [accepted]; intros g c Hc; rewrite app_nil_r; revert g c Hc; [by apply tracked_step|by apply tracked_net]. }
  intros h c Hc. destruct (IH _ _ (λ b Hb, Ha b (list_elem_of_further _ _ _ Hb)) Hstep h c Hc) as (c0 & H0' & Htr).
  exists c0. split; [done|]. revert Htr. cbn [took]. by rewrite <- app_assoc.
Qed.
End Run.

(** C8. Handlers of connections that write different keys are serializable. Any number
    of connections handle frames, switching between any two accesses to what they
    share, and no key is named by the CALLs of two of them.  When a connection is idle
    again, its session (its sequence counter aside) and the values of its keys are
    those it would have had if it had handled the frames it took with nobody else
    running, each as [handle_frame] does. *)
Theorem interleaved_frames_serial n0 acts h c0 c :
  (∀ g c, rn_conns n0 !! g = Some c → rc_prog c = Ret tt) →
  (∀ g g' k, targets acts g k → targets acts g' k → g = g') →
  let n := rrun srv n0 acts in
  rn_conns n0 !! h = Some c0 → rn_conns n !! h = Some c → rc_prog c = Ret tt →
  let alone := solo h (took n0 acts h) (mkConn (rc_session c0) (rn_world n0)) in
  core (rc_session c) = core (c_session alone) ∧
  ∀ k, targets acts h k → stored (w_state (rn_world n)) k = stored (w_state (c_world alone)) k.
Proof.
  intros Hidle Hd n H0' Hc Hp alone. assert (Ht : tracked n0 acts (λ _, []) n0).
  { intros g d Hg. exists d. split; [done|]. split; [done|by rewrite (Hidle _ _ Hg)..|].
    unfold outlook. rewrite (Hidle _ _ Hg). reflexivity. }
  destruct (tracked_run n0 acts Hd (λ _, []) n0 acts (λ _ Ha, Ha) Ht h c Hc) as (c0' & H0'' & [_ _ _ Ho]).
  rewrite H0' in H0''. injection H0'' as <-. unfold outlook in Ho. rewrite Hp in Ho. destruct Ho as [Hs Hv]. done.
Qed.
End Serial.

(** ** Examples *)

Import ServerExamples RaceExamples.

Lemma interleaved_frames_serial_witness :
  stored (w_state (rn_world (rrun plain two_conns own_keys))) "s" = Some (VObject [("b", num 2); ("d", num 4)]).
Proof.
  set (c0 := mkRConn (session_new "b" None None 0) (Ret tt)).
  set (n := rrun plain two_conns own_keys).
  assert (Hc : ∃ c, rn_conns n !! 1 = Some c ∧ rc_prog c = Ret tt) by (eexists; split; vm_compute; reflexivity).
  destruct Hc as (c & Hc & Hp).
  destruct (interleaved_frames_serial plain two_conns own_keys 1 c0 c two_conns_idle) as [_ Hv]; [|done|exact Hc|exact Hp|].
  - clear. apply one_owner_spec. vm_compute. reflexivity.
  - fold n in Hv. rewrite Hv; [vm_compute; reflexivity|]. apply elem_of_cons. right. by left.
Defined.

(** On one key it does show: both CALLs are finished and the field of one is lost. *)
Theorem interleaved_set_in_loses_field :
  rc_prog <$> rn_conns (rrun plain two_conns same_key) !! 0 = Some (Ret tt) ∧
  rc_prog <$> rn_conns (rrun plain two_conns same_key) !! 1 = Some (Ret tt) ∧
  stored (w_state (rn_world (rrun plain two_conns same_key))) "r" = Some (VObject [("b", num 2)]).
Proof. split_and!; vm_compute; reflexivity. Qed.
