(* ===== verification/ServerWatch.v ===== *)
(** * Watchers see the store

    What a watching client knows is a fold over the messages queued for its
    stream.  The invariant [sys_ok] says that for every subscription on the bus
    (whose session has not been evicted) this view equals the stored value; it
    is kept by every frame that any connection processes, in any order.  The
    client's decoder of delta bodies is a parameter. *)

From S2P Require Import Prelude RustStr Json JsonPath Delta Schema Acl Frame Log Store Session WritePool Fanout Cluster Server ServerLogic.

Local Open Scope string_scope.

(** ** What a CALL asks for *)

Inductive Intent : Type :=
| IBad (code : Z) (msg : string)
| IWrite (key : string) (v : Value) (presence_path : option string)
| IDelete (key : string).

Definition stored_or (st : StateStore) (key : string) (d : Value) : Value :=
  match store_get st key with Some e => se_value e | None => d end.

Definition intent_at_path (st : StateStore) (name : string) (bind : bool) (args : Value) : Intent :=
  match get_str "state" args, get_str "path" args with
  | None, _ => IBad 400 (name ++ ": missing 'state' key")
  | Some _, None => IBad 400 (name ++ ": missing 'path' key")
  | Some key, Some path =>
      match json_set_in (stored_or st key VNull) path (default VNull (value_get "value" args)) with
      | Err msg => IBad 400 msg
      | Ok v => IWrite key v (if bind then Some path else None)
      end
  end.

Definition call_intent (st : StateStore) (method : string) (args : Value) : Intent :=
  if String.eqb method "state.set" then
    match get_str "state" args with
    | None => IBad 400 "state.set: missing 'state' key"
    | Some key => IWrite key (default VNull (value_get "value" args)) None
    end
  else if String.eqb method "state.patch" then
    match get_str "state" args with
    | None => IBad 400 "state.patch: missing 'state' key"
    | Some key =>
        match value_get "patch" args with
        | Some patch =>
            if is_object patch then IWrite key (json_merge (stored_or st key (VObject [])) patch) None
            else IBad 400 "state.patch: 'patch' must be an object"
        | None => IBad 400 "state.patch: 'patch' must be an object"
        end
    end
  else if String.eqb method "state.set_in" then intent_at_path st "state.set_in" false args
  else if String.eqb method "state.delete" then
    match get_str "state" args with
    | None => IBad 400 "state.delete: missing 'state' key"
    | Some key => IDelete key
    end
  else if String.eqb method "state.presence" then intent_at_path st "state.presence" true args
  else IBad 404 ("unknown method: " ++ method).

Section Intents.
Context `{EntryCodec, HashOrder, BodyCodec}.
Context (srv : SodpServer) (handle : nat).

Definition run_intent (fr : Frame) (id : string) (i : Intent) : M unit :=
  match i with
  | IBad code msg => reply handle (λ seq, error (stream_id fr) seq code msg)
  | IWrite key v pres =>
      validated_write srv handle fr id key v
        (match pres with Some path => register_presence key path | None => mret tt end)
  | IDelete key =>
      r ← state_delete key;
      version ← match r with
                | Some (version, ops) =>
                    let body_mp := encode_delta_body version ops in
                    publish srv handle key body_mp (TSyncDelete key body_mp);;
                    mret version
                | None => mret 0%Z
                end;
      reply handle (λ seq, result_ok (stream_id fr) seq id (version_data version))
  end.

(** The dispatcher is its intent, run. *)
Lemma dispatch_intent fr method id args c :
  dispatch_call srv handle fr method id args c =
  run_intent fr id (call_intent (w_state (c_world c)) method args) c.
Proof.
  unfold dispatch_call, call_intent.
  destruct (String.eqb method "state.set").
  { unfold call_set, extract_state_and_value. by destruct (get_str "state" args). }
  destruct (String.eqb method "state.patch").
  { unfold call_patch. destruct (get_str "state" args); [|done].
    destruct (value_get "patch" args) as [p|]; [|done]. by destruct (is_object p). }
  assert (Hpath : ∀ name bind after,
    (∀ key path, after key path =
       match (if bind : bool then Some path else None) with
       | Some path => register_presence key path | None => mret tt end) →
    call_at_path srv handle name after fr id args c =
    run_intent fr id (intent_at_path (w_state (c_world c)) name bind args) c).
  { intros name bind after Hafter. unfold call_at_path, intent_at_path.
    destruct (get_str "state" args) as [key|]; [|done]. destruct (get_str "path" args) as [path|]; [|done].
    run_m. unfold stored_or. destruct (json_set_in _ path _); [|done]. cbn. by rewrite Hafter. }
  destruct (String.eqb method "state.set_in"); [by apply Hpath|].
  destruct (String.eqb method "state.delete").
  { unfold call_delete. by destruct (get_str "state" args). }
  destruct (String.eqb method "state.presence"); [by apply Hpath|]. done.
Qed.
End Intents.

(** ** The client's view *)

(** A client's decoder of delta bodies. *)
Class BodyDecoder : Type := {
  body_from_slice : list byte → option (Z * list DeltaOp);
}.

(** Encoder and decoder agree. *)
Class BodyLaw `{BodyCodec, BodyDecoder} : Prop := {
  body_roundtrip : ∀ version ops, ∃ b,
    body_to_vec version ops = Ok b ∧ body_from_slice b = Some (version, ops);
}.

Section View.
Context `{BodyDecoder}.

Definition apply_body (v : Value) (b : list byte) : Value :=
  match body_from_slice b with Some (_, ops) => Replica.apply_ops v ops | None => v end.

(** What one message does to the client's value of stream [sid]. *)
Definition client_step (sid : Z) (v : Value) (msg : OutboundMsg) : Value :=
  match msg with
  | OFrame f =>
      if (frame_type f =? types.STATE_INIT)%Z && (stream_id f =? sid)%Z
      then default VNull (value_get "value" (body f)) else v
  | OArcDelta s b => if (s =? sid)%Z then apply_body v b else v
  | OBytes bs =>
      match read_header bs with
      | Some (t, s, _, b) => if (t =? types.DELTA)%Z && (s =? sid)%Z then apply_body v b else v
      | None => v
      end
  | _ => v
  end.

(** The client's value of the stream after [msgs], from [v0]. *)
Definition client_view (v0 : Value) (sid : Z) (msgs : list OutboundMsg) : Value :=
  fold_left (client_step sid) msgs v0.

Lemma client_view_snoc v0 sid msgs m :
  client_view v0 sid (msgs ++ [m]) = client_step sid (client_view v0 sid msgs) m.
Proof. unfold client_view. by rewrite fold_left_app. Qed.

Lemma client_view_app v0 sid msgs1 msgs2 :
  client_view v0 sid (msgs1 ++ msgs2) = fold_left (client_step sid) msgs2 (client_view v0 sid msgs1).
Proof. apply fold_left_app. Qed.

(** A message that concerns no stream, or only stream [sid]. *)
Definition concerns (m : OutboundMsg) (sid : Z) : Prop := ∀ s v, s ≠ sid → client_step s v m = v.
Definition harmless (m : OutboundMsg) : Prop := ∀ s v, client_step s v m = v.

Lemma harmless_frame f : frame_type f ≠ types.STATE_INIT → harmless (OFrame f).
Proof. intros Hf s v. cbn. by rewrite (proj2 (Z.eqb_neq _ _) Hf). Qed.

Lemma concerns_init sid sq key version v i p : concerns (OFrame (state_init sid sq key version v i p)) sid.
Proof. intros s x Hs. cbn. by rewrite (proj2 (Z.eqb_neq sid s)) by congruence. Qed.

Lemma client_step_init sid sq key version v i p x :
  client_step sid x (OFrame (state_init sid sq key version v i p)) = v.
Proof. cbn [client_step state_init frame_type stream_id body]. rewrite !Z.eqb_refl. by destruct p. Qed.

Lemma client_step_bytes sid sq b s v :
  (0 ≤ sid ≤ u32_max)%Z → (0 ≤ sq ≤ u64_max)%Z →
  client_step s v (OBytes (delta_bytes sid sq b)) = if (sid =? s)%Z then apply_body v b else v.
Proof. intros Hs Hq. cbn [client_step]. by rewrite read_delta_bytes. Qed.

#[global] Instance apply_body_proper : Proper ((≡) ==> (=) ==> (≡)) apply_body.
Proof. intros v v' Hv b ? <-. unfold apply_body. destruct (body_from_slice b) as [[? ops]|]; [|done]. by rewrite Hv. Qed.

(** A batch of deltas of one broadcast: at most one is for stream [sid]. *)
Lemma view_deltas sid v b r subs :
  (∀ s1 s2, s1 ∈ subs → s2 ∈ subs → write s1 = r → write s2 = r →
     sub_stream_id s1 = sid → sub_stream_id s2 = sid → s1 = s2) → NoDup subs →
  fold_left (client_step sid) (deltas_for r b subs) v =
  if decide (Exists (λ s, write s = r ∧ sub_stream_id s = sid) subs) then apply_body v b else v.
Proof.
  unfold deltas_for. revert v. induction subs as [|s subs IH]; intros v Hone Hnd.
  { rewrite decide_False; [done|]. intros E. inversion E. }
  apply NoDup_cons in Hnd as [Hnew Hnd]. rewrite filter_cons.
  assert (Hone' : ∀ s1 s2, s1 ∈ subs → s2 ∈ subs → write s1 = r → write s2 = r →
     sub_stream_id s1 = sid → sub_stream_id s2 = sid → s1 = s2)
    by (intros; apply Hone; try (by right); done).
  destruct (decide (write s = r ∧ sub_stream_id s = sid)) as [[Hw Hs]|Hno].
  - rewrite decide_True by done. rewrite decide_True by (by left).
    cbn [fmap list_fmap fold_left client_step]. rewrite (proj2 (Z.eqb_eq _ _) Hs).
    rewrite IH by done. rewrite decide_False; [done|].
    intros (s' & Hs' & Hw' & Hsid')%Exists_exists.
    assert (s = s') as <- by (apply Hone; [left|by right|done..]). done.
  - assert (Hiff : Exists (λ s, write s = r ∧ sub_stream_id s = sid) (s :: subs) ↔
      Exists (λ s, write s = r ∧ sub_stream_id s = sid) subs) by (rewrite Exists_cons; tauto).
    rewrite (decide_ext _ _ _ _ Hiff). destruct (decide (write s = r)) as [Hw|Hw]; [|by apply IH].
    cbn [fmap list_fmap fold_left client_step].
    rewrite (proj2 (Z.eqb_neq _ _)) by tauto. by apply IH.
Qed.
End View.

(** ** The system invariant *)

(** Sessions by their write handle. *)
Abbreviation Conns := (gmap nat Session).

Section System.
Context `{EntryCodec, HashOrder, BodyCodec, BodyDecoder}.

(** What the client of a handle holds for a stream, from the messages that were
    delivered to it; the ones still queued come on top. *)
Context (seen : nat → Z → Value).

(** [tgt sub k] is what the client of [sub] on key [k] should see; [None]: anything. *)
Record sys_with (tgt : Subscriber → string → option Value) (conns : Conns) (w : World) : Prop := {
  so_store : store_inv (w_state w);
  so_safe : ∀ k, pointer_safe (store_value (w_state w) k) = true;
  so_handles : ∀ h s, conns !! h = Some s → is_Some (handles (w_net w) !! h);
  so_ids : ∀ h1 h2 s1 s2, conns !! h1 = Some s1 → conns !! h2 = Some s2 → s_id s1 = s_id s2 → h1 = h2;
  so_sessions : ∀ h s, conns !! h = Some s → session_inv s;
  so_once : ∀ h s i j wi wj, conns !! h = Some s → watches s !! i = Some wi → watches s !! j = Some wj →
    w_state_key wi = w_state_key wj → i = j;
  so_subs : ∀ k sub, sub ∈ subs_of (w_fanout w) k → ∃ s wt,
    conns !! write sub = Some s ∧ session_id sub = s_id s ∧
    watches s !! sub_stream_id sub = Some wt ∧ w_state_key wt = k;
  so_nodup : ∀ k, NoDup (subs_of (w_fanout w) k);
  so_sync : ∀ k sub v, sub ∈ subs_of (w_fanout w) k → tgt sub k = Some v →
    cancelled_of (w_net w) (write sub) = true ∨
    client_view (seen (write sub) (sub_stream_id sub)) (sub_stream_id sub)
      (queue_of (w_net w) (write sub)) ≡ v;
  so_watched : ∀ h s sid wt, conns !! h = Some s → watches s !! sid = Some wt →
    cancelled_of (w_net w) h = true ∨
    mkSubscriber (s_id s) sid h ∈ subs_of (w_fanout w) (w_state_key wt);
}.

Definition sys_ok (conns : Conns) (w : World) : Prop :=
  sys_with (λ _ k, Some (store_value (w_state w) k)) conns w.

Implicit Types (tgt : Subscriber → string → option Value) (conns : Conns) (w : World).

Definition with_net w net : World := mkWorld (w_state w) (w_fanout w) net (w_tasks w).

(** Two subscriptions of one session on one stream are the same. *)
Lemma so_stream tgt conns w k1 k2 s1 s2 :
  sys_with tgt conns w → s1 ∈ subs_of (w_fanout w) k1 → s2 ∈ subs_of (w_fanout w) k2 →
  write s1 = write s2 → sub_stream_id s1 = sub_stream_id s2 → k1 = k2 ∧ s1 = s2.
Proof.
  intros Hi (t1 & w1 & C1 & I1 & W1 & K1)%(so_subs _ _ _ Hi) (t2 & w2 & C2 & I2 & W2 & K2)%(so_subs _ _ _ Hi) Hw Hs.
  rewrite Hw in C1. rewrite C1 in C2. injection C2 as <-. rewrite Hs in W1. rewrite W1 in W2.
  injection W2 as <-. split; [congruence|]. destruct s1, s2. cbn in *. congruence.
Qed.

Lemma so_known tgt conns w k : sys_with tgt conns w → handles_known (w_net w) (subs_of (w_fanout w) k).
Proof.
  intros Hi. apply Forall_forall. intros sub (s & wt & Hc & _)%(so_subs _ _ _ Hi).
  by eapply so_handles.
Qed.

Lemma so_one_handle tgt conns w k : sys_with tgt conns w → one_handle_per_session (subs_of (w_fanout w) k).
Proof.
  intros Hi s1 s2 (t1 & w1 & C1 & I1 & _)%(so_subs _ _ _ Hi) (t2 & w2 & C2 & I2 & _)%(so_subs _ _ _ Hi). split.
  - intros E. eapply (so_ids _ _ _ Hi); eauto. congruence.
  - intros E. rewrite E in C1. congruence.
Qed.

(** *** Sending to one session *)

Lemma sys_send tgt tgt' conns w h s m :
  sys_with tgt conns w → conns !! h = Some s →
  (∀ sub k v, sub ∈ subs_of (w_fanout w) k → write sub ≠ h → tgt' sub k = Some v → tgt sub k = Some v) →
  (∀ sub k v, sub ∈ subs_of (w_fanout w) k → write sub = h → tgt' sub k = Some v →
     (∀ x, client_step (sub_stream_id sub) x m ≡ v) ∨
     ∃ y, tgt sub k = Some y ∧ ∀ x, x ≡ y → client_step (sub_stream_id sub) x m ≡ v) →
  sys_with tgt' conns (with_net w (handle_send (w_net w) h m).2).
Proof.
  intros Hi Hh Hother Hown. pose proof (so_handles _ _ _ Hi h s Hh) as Hsome.
  pose proof (λ r', handle_send_spec (w_net w) h m r' Hsome) as Hspec.
  destruct (handle_send (w_net w) h m) as [ok net]. cbn [snd].
  destruct Hi as [I1 I2 I3 I4 I5 I6 I7 I8 I9 I10]. split; try done.
  - intros h' s' Hc. destruct (Hspec h') as (_ & _ & _ & _ & Hiff). apply Hiff. by eapply I3.
  - cbn. intros k sub v Hsub Ht. destruct (Hspec (write sub)) as (_ & Hq & _ & Hc & _).
    rewrite Hq, Hc. destruct (decide (write sub = h)) as [Hw|Hw].
    + destruct ok; [|left; cbn; by rewrite orb_true_r].
      destruct (Hown sub k v Hsub Hw Ht) as [Hreset|(y & Hy & Hstep)].
      { right. by rewrite client_view_snoc. }
      destruct (I9 k sub y Hsub Hy) as [->|Hv]; [by left|]. right. rewrite client_view_snoc. by apply Hstep.
    + rewrite app_nil_r, orb_false_r. eapply I9; eauto.
  - cbn. intros h' s' sid wt Hc Hwt. destruct (Hspec h') as (_ & _ & _ & Hcc & _). rewrite Hcc.
    destruct (I10 h' s' sid wt Hc Hwt) as [->|?]; [by left|by right].
Qed.

Lemma sys_send_harmless tgt conns w h s m :
  sys_with tgt conns w → conns !! h = Some s → harmless m →
  sys_with tgt conns (with_net w (handle_send (w_net w) h m).2).
Proof.
  intros Hi Hh Hm. eapply sys_send; [done..|].
  intros sub k v _ _ Ht. right. exists v. split; [done|]. intros x Hx. by rewrite Hm.
Qed.

(** *** Broadcasting *)

Lemma sys_broadcast tgt tgt' conns w key b ex :
  sys_with tgt conns w →
  (∀ sub k v, sub ∈ subs_of (w_fanout w) k → tgt' sub k = Some v →
     if decide (k = key ∧ not_excluded ex sub = true)
     then ∃ y, tgt sub k = Some y ∧ ∀ x, x ≡ y → apply_body x b ≡ v
     else tgt sub k = Some v) →
  let r := broadcast_encoded (w_fanout w) (w_net w) key b ex in
  sys_with tgt' conns (mkWorld (w_state w) r.1 r.2 (w_tasks w)).
Proof.
  intros Hi Ht r. pose proof (so_known tgt conns w key Hi) as Hk.
  pose proof (λ k s, broadcast_dropped (w_fanout w) (w_net w) key b ex k s Hk (so_one_handle tgt conns w key Hi)) as Hdrop.
  fold r in Hdrop.
  pose proof (λ x, broadcast_queues (w_fanout w) (w_net w) key b ex x Hk) as Hq. fold r in Hq.
  pose proof (broadcast_encoded_subset (w_fanout w) (w_net w) key b ex) as Hsub. fold r in Hsub.
  set (targets := List.filter (not_excluded ex) (subs_of (w_fanout w) key)) in *.
  assert (Hin : ∀ s, s ∈ targets ↔ s ∈ subs_of (w_fanout w) key ∧ not_excluded ex s = true).
  { intros s. unfold targets. by rewrite !list_elem_of_In, filter_In. }
  pose proof (λ k1 k2 s1 s2, so_stream tgt conns w k1 k2 s1 s2 Hi) as Hstream.
  destruct Hi as [I1 I2 I3 I4 I5 I6 I7 I8 I9 I10]. split; try done.
  - intros h s Hc. destruct (Hq h) as (_ & _ & Hiff). apply Hiff. by eapply I3.
  - intros k sub Hs%Hsub. eauto.
  - intros k. cbn. destruct (broadcast_encoded_filter (w_fanout w) (w_net w) key b ex k) as [f Hf].
    fold r in Hf. rewrite Hf. by apply NoDup_ListNoDup, List.NoDup_filter, NoDup_ListNoDup.
  - cbn. intros k sub v Hs%Hsub Hv. destruct (Hq (write sub)) as (-> & -> & _).
    destruct (overflows (w_net w) b targets (write sub)) eqn:Eo; [left; by rewrite orb_true_r|].
    rewrite orb_false_r. unfold overflows in Eo. apply Nat.ltb_ge in Eo. rewrite take_ge by done.
    specialize (Ht sub k v Hs Hv). rewrite client_view_app, view_deltas.
    2:{ intros s1 s2 [H1' _]%Hin [H2' _]%Hin Hw1 Hw2 Hi1 Hi2.
        eapply Hstream; [done|done|congruence|congruence]. }
    2:{ by apply NoDup_ListNoDup, List.NoDup_filter, NoDup_ListNoDup. }
    assert (Hex : Exists (λ s, write s = write sub ∧ sub_stream_id s = sub_stream_id sub) targets ↔
      k = key ∧ not_excluded ex sub = true).
    { rewrite Exists_exists. split.
      - intros (s & [Hs' He]%Hin & Hw & Hi). by destruct (Hstream _ _ _ _ Hs' Hs Hw Hi) as [-> ->].
      - intros [-> He]. exists sub. split; [by apply Hin|done]. }
    rewrite (decide_ext _ _ _ _ Hex). destruct (decide _) as [Hd|Hd].
    + destruct Ht as (y & Hy & Hap). destruct (I9 k sub y Hs Hy) as [?|Hview]; [by left|].
      right. by apply Hap.
    + by eapply I9.
  - cbn. intros h s sid wt Hc Hwt. destruct (Hq h) as (_ & Hcc & _).
    destruct (I10 h s sid wt Hc Hwt) as [Hx|Hin']; [left; rewrite Hcc, Hx; done|].
    destruct (Hdrop _ _ Hin') as [?|?]; [by right|by left].
Qed.

(** *** Session, store and subscription changes *)

Definition watches_once (s : Session) : Prop := ∀ i j wi wj,
  watches s !! i = Some wi → watches s !! j = Some wj → w_state_key wi = w_state_key wj → i = j.

(** Replacing one session and the bus. *)
Lemma sys_rewatch tgt tgt' conns w h s s' bus' :
  sys_with tgt conns w → conns !! h = Some s → s_id s' = s_id s → session_inv s' → watches_once s' →
  (∀ k sub, sub ∈ subs_of bus' k →
     (sub ∈ subs_of (w_fanout w) k ∧ write sub ≠ h) ∨
     (write sub = h ∧ session_id sub = s_id s ∧
      ∃ wt, watches s' !! sub_stream_id sub = Some wt ∧ w_state_key wt = k)) →
  (∀ k, NoDup (subs_of bus' k)) →
  (∀ k sub v, sub ∈ subs_of bus' k → tgt' sub k = Some v →
     sub ∈ subs_of (w_fanout w) k ∧ tgt sub k = Some v) →
  (∀ k sub, sub ∈ subs_of (w_fanout w) k → write sub ≠ h → sub ∈ subs_of bus' k) →
  (∀ sid wt', watches s' !! sid = Some wt' →
     let sub := mkSubscriber (s_id s) sid h in
     sub ∈ subs_of bus' (w_state_key wt') ∨
     ∃ wt, watches s !! sid = Some wt ∧
           (sub ∈ subs_of (w_fanout w) (w_state_key wt) → sub ∈ subs_of bus' (w_state_key wt'))) →
  sys_with tgt' (<[h := s']> conns) (mkWorld (w_state w) bus' (w_net w) (w_tasks w)).
Proof.
  intros [I1 I2 I3 I4 I5 I6 I7 I8 I9 I10] Hh Hid Hinv Honce Hbus Hnd Hsync Hkeep Hwatch.
  assert (Hlook : ∀ h' t, <[h := s']> conns !! h' = Some t →
    ∃ t0, conns !! h' = Some t0 ∧ s_id t = s_id t0).
  { intros h' t. rewrite lookup_insert_Some. intros [[<- <-]|[_ ?]]; eauto. }
  split; cbn; try done.
  - intros h' t (t0 & Ht & _)%Hlook. eauto.
  - intros h1 h2 t1 t2 (u1 & Hu1 & E1)%Hlook (u2 & Hu2 & E2)%Hlook E.
    eapply I4; eauto. congruence.
  - intros h' t. rewrite lookup_insert_Some. intros [[_ <-]|[_ ?]]; [done|eauto].
  - intros h' t i j wi wj. rewrite lookup_insert_Some. intros [[_ <-]|[_ ?]]; [apply Honce|by eapply I6].
  - intros k sub [[Hin Hw]|(Hw & Hs & wt & Hwt)]%Hbus.
    + destruct (I7 k sub Hin) as (t & wt & Hc & ?). exists t, wt. by rewrite lookup_insert_ne.
    + exists s', wt. rewrite Hw, lookup_insert_eq. rewrite Hid. done.
  - intros k sub v Hin Ht. destruct (Hsync k sub v Hin Ht). by eapply I9.
  - intros h' t sid wt'. rewrite lookup_insert_Some. intros [[<- <-]|[Hne Hc]] Hwt.
    + rewrite Hid. destruct (Hwatch sid wt' Hwt) as [?|(wt & Hwt0 & Himp)]; [by right|].
      destruct (I10 h s sid wt Hh Hwt0) as [?|?]; [by left|right; auto].
    + destruct (I10 h' t sid wt' Hc Hwt) as [?|?]; [by left|right]. by apply Hkeep.
Qed.

Lemma sys_once tgt conns w h s : sys_with tgt conns w → conns !! h = Some s → watches_once s.
Proof. intros Hi Hh i j wi wj. by eapply so_once. Qed.

Lemma sys_session tgt conns w h s s' :
  sys_with tgt conns w → conns !! h = Some s → s_id s' = s_id s → watches s' = watches s →
  session_inv s' → sys_with tgt (<[h := s']> conns) w.
Proof.
  intros Hi Hh Hid Hw Hinv.
  destruct w as [st bus net ts]. eapply (sys_rewatch tgt tgt conns (mkWorld st bus net ts)); try done.
  - unfold watches_once. rewrite Hw. by eapply sys_once.
  - intros k sub Hin. destruct (decide (write sub = h)) as [E|E]; [right|by left].
    destruct (so_subs _ _ _ Hi k sub Hin) as (t & wt & Hc & Hs & Hwt & Hk).
    rewrite E, Hh in Hc. injection Hc as <-. split_and!; [done..|]. exists wt. by rewrite Hw.
  - apply (so_nodup _ _ _ Hi).
  - intros sid wt. rewrite Hw. intros Hwt. right. eauto.
Qed.

Lemma sys_tgt tgt tgt' conns w :
  sys_with tgt conns w →
  (∀ sub k v, sub ∈ subs_of (w_fanout w) k → tgt' sub k = Some v → ∃ y, tgt sub k = Some y ∧ y ≡ v) →
  sys_with tgt' conns w.
Proof.
  intros [I1 I2 I3 I4 I5 I6 I7 I8 I9 I10] Ht. split; try done.
  intros k sub v Hs Hv. destruct (Ht sub k v Hs Hv) as (y & Hy & Heq).
  destruct (I9 k sub y Hs Hy) as [?|Hview]; [by left|right]. by rewrite Hview.
Qed.

Definition with_state w st : World := mkWorld st (w_fanout w) (w_net w) (w_tasks w).

Lemma sys_store tgt conns w st :
  sys_with tgt conns w → store_inv st → (∀ k, pointer_safe (store_value st k) = true) →
  sys_with tgt conns (with_state w st).
Proof. intros [I1 I2 I3 I4 I5 I6 I7 I8 I9 I10] Hi Hs. by split. Qed.

Lemma sys_tasks tgt conns w ts :
  sys_with tgt conns w → sys_with tgt conns (mkWorld (w_state w) (w_fanout w) (w_net w) ts).
Proof. intros [I1 I2 I3 I4 I5 I6 I7 I8 I9 I10]. by split. Qed.

(** A subscription belongs to the session whose handle it has. *)
Lemma so_owner tgt conns w k sub h s :
  sys_with tgt conns w → conns !! h = Some s → sub ∈ subs_of (w_fanout w) k →
  session_id sub = s_id s ↔ write sub = h.
Proof.
  intros Hi Hh Hs. destruct (so_subs _ _ _ Hi k sub Hs) as (t & wt & Hc & Hid & _). split.
  - intros E. eapply (so_ids _ _ _ Hi); eauto. congruence.
  - intros <-. congruence.
Qed.

(** The watch behind one's own subscription. *)
Lemma so_own_watch tgt conns w k sub h s :
  sys_with tgt conns w → conns !! h = Some s → sub ∈ subs_of (w_fanout w) k → write sub = h →
  session_id sub = s_id s ∧ ∃ wt, watches s !! sub_stream_id sub = Some wt ∧ w_state_key wt = k.
Proof.
  intros Hi Hh Hs <-. destruct (so_subs _ _ _ Hi k sub Hs) as (t & wt & Hc & Hid & Hwt).
  rewrite Hh in Hc. injection Hc as <-. eauto.
Qed.

(** The stream on which a session that watches [key] is subscribed to it. *)
Lemma so_own_stream tgt conns w k sub h s key :
  sys_with tgt conns w → conns !! h = Some s → sub ∈ subs_of (w_fanout w) k → write sub = h →
  match watch_stream_id s key with
  | Some sid => k = key ↔ sub_stream_id sub = sid
  | None => k ≠ key
  end.
Proof.
  intros Hi Hh Hs <-. destruct (so_subs _ _ _ Hi k sub Hs) as (t & wt & Hc & _ & Hwt & Hk).
  rewrite Hh in Hc. injection Hc as <-. pose proof (watch_stream_lookup s key) as Hw.
  destruct (watch_stream_id s key) as [sid|].
  - destruct Hw as (w' & Hw' & Hk'). split.
    + intros ->. eapply (so_once _ _ _ Hi); eauto. congruence.
    + intros E. congruence.
  - intros ->. by eapply Hw.
Qed.
End System.

(** ** The handlers keep the invariant *)

Section Handlers.
Context `{EntryCodec, HashOrder, BodyCodec, BodyDecoder, !BodyLaw}.
Context (srv : SodpServer) (seen : nat → Z → Value) (h : nat) (others : Conns).
Implicit Types (tgt : Subscriber → string → option Value).

(** The invariant for the acting connection among the others. *)
Definition J tgt (c : Conn) : Prop := sys_with seen tgt (<[h := c_session c]> others) (c_world c).

(** Every client should see [f k] for key [k]. *)
Definition seeing (f : string → Value) : Subscriber → string → option Value := λ _ k, Some (f k).

Lemma J_self tgt c : J tgt c → <[h := c_session c]> others !! h = Some (c_session c).
Proof. intros _. apply lookup_insert_eq. Qed.

(** An action on the session that keeps its id and watches. *)
Lemma J_session tgt c s' :
  J tgt c → s_id s' = s_id (c_session c) → watches s' = watches (c_session c) → session_inv s' →
  J tgt (mkConn s' (c_world c)).
Proof.
  intros Hj Hid Hw Hi. unfold J in *. cbn.
  rewrite <- (insert_insert_eq others h s' (c_session c)).
  eapply sys_session; [exact Hj|apply lookup_insert_eq|done..].
Qed.

Lemma J_session_inv tgt c : J tgt c → session_inv (c_session c).
Proof. intros Hj. eapply (so_sessions seen _ _ _ Hj), lookup_insert_eq. Qed.

Lemma J_take_seq tgt : hoare (J tgt) take_seq (λ n c, J tgt c ∧ (0 ≤ n ≤ u64_max)%Z).
Proof.
  intros c Hj. split; [|apply u64_add_range].
  apply (J_session tgt c (next_seq (c_session c)).2); [done..|].
  by eapply next_seq_inv, J_session_inv.
Qed.

Lemma J_send_harmless tgt m : harmless m → keeps (J tgt) (send h m).
Proof.
  intros Hm c Hj. unfold send. pose proof (sys_send_harmless seen tgt _ (c_world c) h (c_session c) m Hj
    (lookup_insert_eq _ _ _) Hm) as Hs.
  destruct (handle_send (w_net (c_world c)) h m) as [ok net]. exact Hs.
Qed.

Lemma J_reply tgt f : (∀ seq, frame_type (f seq) ≠ types.STATE_INIT) → keeps (J tgt) (reply h f).
Proof.
  intros Hf. unfold reply. eapply hoare_bind; [apply J_take_seq|]. intros n.
  eapply hoare_conseq; [apply J_send_harmless, harmless_frame, Hf|by intros c [? _]|done].
Qed.

Lemma J_write_allowed tgt n1 n2 : keeps (J tgt) (write_allowed n1 n2).
Proof.
  intros c Hj. unfold write_allowed. destruct (allow_opt _ n1 n2) as [ok l].
  apply (J_session tgt c); [done..|]. apply (J_session_inv _ _ Hj).
Qed.

Lemma J_watch_allowed tgt n1 n2 : keeps (J tgt) (watch_allowed n1 n2).
Proof.
  intros c Hj. unfold watch_allowed. destruct (allow_opt _ n1 n2) as [ok l].
  apply (J_session tgt c); [done..|]. apply (J_session_inv _ _ Hj).
Qed.

Lemma J_register tgt k p : keeps (J tgt) (register_presence k p).
Proof.
  intros c Hj. unfold register_presence. run_m.
  apply J_session; [done|unfold add_presence; by case_match..|].
  apply add_presence_inv, (J_session_inv _ _ Hj).
Qed.

Lemma J_cluster tgt t : keeps (J tgt) (cluster_task srv t).
Proof.
  intros c Hj. unfold cluster_task. cbn. destruct (c_cluster srv); [|done].
  by apply sys_tasks.
Qed.

(** *** Publishing a write *)

(** Clients of session [me] still see [f], the others [f']. *)
Definition half (me : string) (f f' : string → Value) : Subscriber → string → option Value :=
  λ sub k, Some (if String.eqb (session_id sub) me then f k else f' k).

Section Publish.
Context (key : string) (b : list byte) (f f' : string → Value).
Hypothesis body_ok : ∀ x, x ≡ f key → apply_body x b ≡ f' key.
Hypothesis frame_ok : ∀ k, k ≠ key → f k = f' k.

Lemma J_broadcast_half c :
  J (seeing f) c → J (half (s_id (c_session c)) f f') (broadcast_timed key b (Some (s_id (c_session c))) c).2.
Proof.
  intros Hj. unfold broadcast_timed.
  pose proof (sys_broadcast seen (seeing f) (half (s_id (c_session c)) f f') _ (c_world c) key b
    (Some (s_id (c_session c))) Hj) as Hs.
  destruct (broadcast_encoded _ _ key b _) as [bus net]. cbn in Hs. apply Hs.
  intros sub k v Hsub. unfold half, seeing, not_excluded, not_session.
  destruct (String.eqb (session_id sub) (s_id (c_session c))) eqn:E; intros [= <-].
  - rewrite decide_False; [done|]. intros [_ ?]. done.
  - destruct (decide _) as [[-> _]|Hno]; [eauto|]. rewrite frame_ok; [done|].
    intros ->. apply Hno. done.
Qed.

Lemma J_send_own c :
  J (half (s_id (c_session c)) f f') c → J (seeing f') (send_own_delta h key b c).2.
Proof.
  intros Hj. unfold send_own_delta. run_m.
  pose proof (lookup_insert_eq others h (c_session c)) as Hself.
  pose proof (λ k sub, so_owner seen _ _ _ k sub h (c_session c) Hj Hself) as Hown.
  pose proof (λ k sub, so_own_stream seen _ _ _ k sub h (c_session c) key Hj Hself) as Hstream.
  assert (Hother : ∀ sub k, sub ∈ subs_of (w_fanout (c_world c)) k → write sub ≠ h →
    half (s_id (c_session c)) f f' sub k = Some (f' k)).
  { intros sub k Hsub Hw. unfold half. rewrite (proj2 (String.eqb_neq _ _)); [done|].
    rewrite Hown by done. done. }
  assert (Hmine : ∀ sub k, sub ∈ subs_of (w_fanout (c_world c)) k → write sub = h →
    half (s_id (c_session c)) f f' sub k = Some (f k)).
  { intros sub k Hsub Hw. unfold half. by rewrite (proj2 (String.eqb_eq _ _)) by (by eapply Hown). }
  destruct (watch_stream_id (c_session c) key) as [sid|] eqn:Ew.
  - pose proof (watch_stream_lookup (c_session c) key) as Hsid. rewrite Ew in Hsid.
    destruct Hsid as (wt & Hwt & _). destruct (J_session_inv _ _ Hj) as (Hr1 & _ & Hr2).
    apply Hr2 in Hwt.
    assert (Hstep : ∀ s x, client_step s x (OBytes (delta_bytes sid 0 b)) =
      if (sid =? s)%Z then apply_body x b else x).
    { intros. apply client_step_bytes; unfold u64_max; lia. }
    unfold send. pose proof (sys_send seen (half (s_id (c_session c)) f f') (seeing f') _ (c_world c) h (c_session c)
      (OBytes (delta_bytes sid 0 b)) Hj Hself) as Hs.
    destruct (handle_send (w_net (c_world c)) h _) as [ok net]. apply Hs; clear Hs.
    + intros sub k v Hsub Hw [= <-]. by apply Hother.
    + intros sub k v Hsub Hw [= <-]. right. exists (f k). split; [by apply Hmine|].
      intros x Hx. rewrite Hstep. specialize (Hstream k sub Hsub Hw).
      destruct (sid =? sub_stream_id sub)%Z eqn:Es; bool_to_prop.
      * rewrite (proj2 Hstream) in * by done. by apply body_ok.
      * rewrite <- frame_ok; [done|]. intros ->. apply Es. symmetry. by apply Hstream.
  - apply (sys_tgt seen (half (s_id (c_session c)) f f')); [done|]. intros sub k v Hsub [= <-].
    destruct (decide (write sub = h)) as [Hw|Hw]; [|exists (f' k); by rewrite Hother].
    exists (f k). rewrite Hmine by done. split; [done|]. by rewrite frame_ok by (by eapply Hstream).
Qed.

Lemma J_publish t : hoare (J (seeing f)) (publish srv h key b t) (λ _, J (seeing f')).
Proof.
  intros c Hj. unfold publish. unfold mbind, M_bind, get_session.
  pose proof (J_broadcast_half c Hj) as H1'.
  pose proof (quiet_broadcast key b (Some (s_id (c_session c))) c) as [(Hid & _) _].
  destruct (broadcast_timed key b (Some (s_id (c_session c))) c) as [[] c1]. cbn [fst snd] in *.
  rewrite <- Hid in H1'. pose proof (J_send_own c1 H1') as H2'.
  destruct (send_own_delta h key b c1) as [[] c2]. by apply J_cluster.
Qed.
End Publish.

(** *** Writes *)

(** Every client sees the store. *)
Definition Jok (c : Conn) : Prop := J (seeing (store_value (w_state (c_world c)))) c.

Lemma Jok_quiet {A} (m : M A) : quiet m → (∀ tgt, keeps (J tgt) m) → keeps Jok m.
Proof. intros Hq Hk c Hc. unfold Jok. destruct (Hq c) as [_ ->]. by apply Hk. Qed.

Lemma Jok_reply f : (∀ seq, frame_type (f seq) ≠ types.STATE_INIT) → keeps Jok (reply h f).
Proof. intros Hf. apply Jok_quiet; [auto with server|]. intros tgt. by apply J_reply. Qed.

Lemma apply_body_encode x version ops :
  apply_body x (encode_delta_body version ops) = Replica.apply_ops x ops.
Proof.
  unfold apply_body, encode_delta_body. destruct (body_roundtrip version ops) as (b & -> & ->). done.
Qed.

(** Replacing the store: the clients still see the old values. *)
Lemma J_store f c st :
  J (seeing f) c → store_inv st → (∀ k, pointer_safe (store_value st k) = true) →
  J (seeing f) (mkConn (c_session c) (with_state (c_world c) st)).
Proof. intros Hj Hi Hs. by apply sys_store. Qed.

(** A write followed by its publication; [st] is the store after the write. *)
Lemma J_write_publish c st key version ops t :
  Jok c → store_inv st → (∀ k, pointer_safe (store_value st k) = true) →
  (∀ k, k ≠ key → store_value (w_state (c_world c)) k = store_value st k) →
  (∀ x, x ≡ store_value (w_state (c_world c)) key → Replica.apply_ops x ops ≡ store_value st key) →
  Jok (publish srv h key (encode_delta_body version ops) t
         (mkConn (c_session c) (with_state (c_world c) st))).2.
Proof.
  intros Hj Hi Hs Hframe Hops. unfold Jok.
  set (c1 := mkConn (c_session c) (with_state (c_world c) st)).
  destruct (quiet_publish srv h key (encode_delta_body version ops) t c1) as [_ ->].
  eapply (J_publish key _ (store_value (w_state (c_world c)))); [|done|].
  - intros x Hx. rewrite apply_body_encode. by apply Hops.
  - by apply J_store.
Qed.

Lemma Jok_commit key v c :
  Jok c → wf_value v = true → pointer_safe v = true →
  (st_version (w_state (c_world c)) < u64_max)%Z → Jok (commit srv h key v c).2.
Proof.
  intros Hj Hwf Hsafe Hm. pose proof (so_store seen _ _ _ Hj) as Hi. pose proof (so_safe seen _ _ _ Hj) as Hs.
  set (st := w_state (c_world c)) in *.
  pose proof (store_apply_inv st key v Hi Hwf Hm) as Hi'.
  assert (Hs' : ∀ k, pointer_safe (store_value (store_apply st key v).2 k) = true).
  { intros k. destruct (decide (k = key)) as [->|Hne]; [by rewrite store_value_apply|].
    rewrite store_value_other by done. apply Hs. }
  unfold commit, state_apply, mbind, M_bind. fold st.
  pose proof (store_apply_result st key v) as Hr. pose proof (store_value_apply st key v) as Hv.
  pose proof (λ k, store_value_other st key v k) as Hother.
  destruct (store_apply st key v) as [[version ops] st']. cbn [fst snd] in *. injection Hr as -> ->.
  destruct (apply_emits st key v) as [|op ops] eqn:Eops; cbn [mret M_ret snd].
  - apply (sys_tgt seen (seeing (store_value st))); [by apply J_store|].
    intros sub k x Hsub [= <-]. eexists. split; [done|]. cbn.
    destruct (decide (k = key)) as [->|Hne]; [|by rewrite Hother].
    rewrite Hv. unfold store_value. apply (apply_emits_nil st key v Hi Hwf) in Eops as (e & -> & He). done.
  - rewrite <- Eops.
    match goal with |- context [publish srv h key ?b ?t ?c1] =>
      pose proof (J_write_publish c st' key (u64_add (st_version st) 1) (apply_emits st key v) t Hj Hi' Hs') as Hp;
      destruct (publish srv h key b t c1) as [[] c2] eqn:Ep end.
    unfold with_state in Hp. rewrite Ep in Hp. apply Hp.
    + intros k Hk. by rewrite Hother.
    + intros x Hx. rewrite Hx, Hv. by apply apply_emits_sound.
Qed.

Lemma Jok_delete key c :
  Jok c → (st_version (w_state (c_world c)) < u64_max)%Z →
  let '(r, c1) := state_delete key c in
  Jok (match r with
       | Some (version, ops) =>
           publish srv h key (encode_delta_body version ops)
             (TSyncDelete key (encode_delta_body version ops)) c1
       | None => (tt, c1)
       end).2.
Proof.
  intros Hj Hm. pose proof (so_store seen _ _ _ Hj) as Hi. pose proof (so_safe seen _ _ _ Hj) as Hs.
  unfold state_delete. set (st := w_state (c_world c)) in *.
  destruct (store_get st key) as [e|] eqn:E.
  - pose proof (store_delete_inv st key Hi Hm) as Hi'.
    destruct (store_delete_present st key e E) as (Hr & Hen & _).
    destruct (store_delete st key) as [r st']. cbn [fst snd] in *. subst r.
    assert (Hv : store_value st' key = VNull)
      by (unfold store_value, store_get; by rewrite Hen, lookup_delete_eq).
    assert (Hother : ∀ k, k ≠ key → store_value st k = store_value st' k)
      by (intros k Hk; unfold store_value, store_get; by rewrite Hen, lookup_delete_ne).
    apply J_write_publish; [done|done| |done|].
    + intros k. destruct (decide (k = key)) as [->|Hne]; [by rewrite Hv|]. rewrite <- Hother by done. apply Hs.
    + intros x Hx. by rewrite Hv.
  - rewrite store_delete_absent by done. by destruct c as [? []].
Qed.

(** What the values of an intent must be. *)
Definition intent_ok (i : Intent) : Prop :=
  match i with IWrite _ v _ => wf_value v = true ∧ pointer_safe v = true | _ => True end.

Lemma Jok_intent fr id i c :
  Jok c → intent_ok i → (st_version (w_state (c_world c)) < u64_max)%Z →
  Jok (run_intent srv h fr id i c).2.
Proof.
  intros Hj Hi Hm. destruct i as [code msg|key v pres|key]; cbn [run_intent].
  - by apply Jok_reply.
  - destruct Hi as [Hwf Hs]. unfold validated_write. destruct (schema_check srv key v); [|by apply Jok_reply].
    unfold mbind, M_bind. pose proof (Jok_commit key v c Hj Hwf Hs Hm) as Hc.
    destruct (commit srv h key v c) as [version c1]. cbn in Hc.
    assert (Hafter : Jok ((match pres with Some p => register_presence key p | None => mret tt end) c1).2).
    { destruct pres; [|done]. apply Jok_quiet; [auto with server| |done]. intros; apply J_register. }
    destruct ((match pres with Some p => register_presence key p | None => mret tt end) c1) as [[] c2].
    by apply Jok_reply.
  - unfold mbind, M_bind. pose proof (Jok_delete key c Hj Hm) as Hd.
    destruct (state_delete key c) as [[[version ops]|] c1].
    + destruct (publish srv h key _ _ c1) as [[] c2]. by apply Jok_reply.
    + by apply Jok_reply.
Qed.

(** *** Opening and closing streams *)

(** As [seeing], but nothing is promised yet on stream [sid] of this session. *)
Definition except (sid : Z) (f : string → Value) : Subscriber → string → option Value :=
  λ sub k, if decide (write sub = h ∧ sub_stream_id sub = sid) then None else Some (f k).

Definition unwatched (s : Session) (key : string) : Prop :=
  ∀ sid w, watches s !! sid = Some w → w_state_key w ≠ key.

Lemma J_open_stream f key p c :
  J (seeing f) c → unwatched (c_session c) key → (next_stream_id (c_session c) < u32_max)%Z →
  let '(sid, c') := open_stream h key p c in
  J (except sid f) c' ∧ sid = next_stream_id (c_session c) ∧
  c_session c' = add_watch (allocate_stream (c_session c)).2 sid key p ∧
  next_stream_id (c_session c') = (sid + 1)%Z ∧ (0 ≤ sid ≤ u32_max)%Z ∧
  w_state (c_world c') = w_state (c_world c).
Proof.
  intros Hj Hun Hm. unfold open_stream, bus_subscribe. run_m.
  pose proof (J_session_inv _ _ Hj) as Hsi. set (s := c_session c) in *. set (sid := next_stream_id s).
  destruct Hsi as (Hn & Hq & Hw). assert (Hadd : u32_add sid 1 = (sid + 1)%Z)
    by (apply u32_add_small; unfold sid, u32_max in *; lia).
  split_and!; [|done|done|done|unfold sid; lia..|done].
  assert (Hnew : ∀ wt, watches s !! sid ≠ Some wt) by (intros wt E%Hw; unfold sid in E; lia).
  pose proof (lookup_insert_eq others h s) as Hself.
  pose proof (λ k sub, so_own_watch seen _ _ _ k sub h s Hj Hself) as Hownw.
  unfold J. cbn. rewrite <- (insert_insert_eq others h _ s).
  eapply (sys_rewatch seen (seeing f)); [exact Hj|exact Hself|done| | | | | | |].
  - unfold session_inv. cbn. fold sid. rewrite Hadd. unfold sid, u32_max in *.
    split_and!; [lia..|]. intros i wi. rewrite lookup_insert_Some. intros [[<- _]|[_ Hi]]; [lia|].
    apply Hw in Hi. lia.
  - intros i j wi wj. cbn. rewrite !lookup_insert_Some.
    intros [[<- <-]|[_ Hwi]] [[<- <-]|[_ Hwj]] Hk; cbn in Hk; try done.
    + symmetry in Hk. by apply Hun in Hwj.
    + by apply Hun in Hwi.
    + by eapply (sys_once seen _ _ _ h s Hj).
  - intros k sub. rewrite subs_of_subscribe. intros [Hin|[-> ->]]; [|right; cbn; split_and!; [done..|]; eexists; split; [apply lookup_insert_eq|done]].
    destruct (decide (write sub = h)) as [E|E]; [right|by left].
    destruct (Hownw k sub Hin E) as (Hid & wt & Hwt & Hk). split_and!; [done..|]. exists wt.
    split; [|done]. cbn. rewrite lookup_insert_ne; [done|]. intros Es. rewrite <- Es in Hwt. by apply Hnew in Hwt.
  - intros k. unfold subs_of, subscribe. destruct (decide (k = key)) as [->|Hne].
    + rewrite lookup_insert_eq. cbn. fold (subs_of (w_fanout (c_world c)) key).
      apply NoDup_app. split_and!; [apply (so_nodup seen _ _ _ Hj)| |apply NoDup_singleton].
      intros sub Hin ->%list_elem_of_singleton. destruct (Hownw key _ Hin eq_refl) as (_ & wt & Hwt & _).
      by apply Hnew in Hwt.
    + rewrite lookup_insert_ne by done. apply (so_nodup seen _ _ _ Hj).
  - intros k sub v. rewrite subs_of_subscribe. unfold except.
    intros [Hin|[-> ->]]; [|by rewrite decide_True]. by destruct (decide _).
  - intros k sub Hin _. apply subs_of_subscribe. by left.
  - intros i wt'. cbn. rewrite lookup_insert_Some. intros [[<- <-]|[_ Hwt]].
    + left. apply subs_of_subscribe. by right.
    + right. exists wt'. split; [done|]. intros ?. apply subs_of_subscribe. by left.
Qed.

(** Actions that leave the watches and the stream counter alone. *)
Definition keeps_watches {A} (m : M A) : Prop := ∀ c,
  watches (c_session (m c).2) = watches (c_session c) ∧
  next_stream_id (c_session (m c).2) = next_stream_id (c_session c).

Lemma keeps_watches_reply f : keeps_watches (reply h f).
Proof. intros c. unfold reply, send. run_m. by destruct (handle_send _ _ _). Qed.

Lemma keeps_watches_send_init sid key p : keeps_watches (send_init h sid key p).
Proof.
  intros c. unfold send_init. run_m.
  destruct (init_of (w_state (c_world c)) key) as [[v x] i]. apply (keeps_watches_reply _ c).
Qed.

Lemma init_of_value st key : (init_of st key).1.2 = store_value st key.
Proof. unfold init_of, store_value. by destruct (store_get st key). Qed.

(** Streams are opened for clients that should see [f]; the store need only have [f]'s
    value of the key (on a node that does not follow its peers' writes it may differ
    elsewhere). *)
Lemma J_send_init f sid key p c :
  J (except sid f) c → f key ≡ store_value (w_state (c_world c)) key →
  (∃ wt, watches (c_session c) !! sid = Some wt ∧ w_state_key wt = key) →
  J (seeing f) (send_init h sid key p c).2.
Proof.
  intros Hj Hf (wt & Hwt & Hkey). unfold send_init, mbind at 1, M_bind at 1, get_world.
  pose proof (init_of_value (w_state (c_world c)) key) as Hval.
  destruct (init_of (w_state (c_world c)) key) as [[version v] init]. cbn in Hval. subst v.
  unfold reply, mbind, M_bind. destruct (J_take_seq _ c Hj) as [Hj1 _].
  destruct (take_seq c) as [seq c1] eqn:Et. cbn [fst snd] in *.
  assert (Hc1 : watches (c_session c1) = watches (c_session c) ∧ c_world c1 = c_world c)
    by (unfold take_seq in Et; cbn in Et; by injection Et as _ <-).
  destruct Hc1 as [Hw1 Hworld]. unfold send.
  pose proof (lookup_insert_eq others h (c_session c1)) as Hself.
  match goal with |- context [handle_send _ h ?m] =>
    pose proof (sys_send seen _ (seeing f) _ (c_world c1) h (c_session c1) m Hj1 Hself) as Hs;
    destruct (handle_send (w_net (c_world c1)) h m) as [ok net] end.
  apply Hs; clear Hs.
  - intros sub k v Hsub Hw [= <-]. unfold except. rewrite decide_False by tauto. done.
  - intros sub k v Hsub Hw [= <-].
    destruct (so_own_watch seen _ _ _ k sub h (c_session c1) Hj1 Hself Hsub Hw) as (_ & wt' & Hwt' & Hk').
    destruct (decide (sub_stream_id sub = sid)) as [Hs|Hs].
    + left. intros x. rewrite Hs, client_step_init. rewrite Hs, Hw1, Hwt in Hwt'. injection Hwt' as <-.
      by rewrite <- Hk', Hkey.
    + right. exists (f k). unfold except. rewrite decide_False by tauto.
      split; [done|]. intros x Hx. by rewrite concerns_init.
Qed.

Lemma J_subscribe_key f key p c :
  J (seeing f) c → f key ≡ store_value (w_state (c_world c)) key →
  unwatched (c_session c) key → (next_stream_id (c_session c) < u32_max)%Z →
  let c' := (subscribe_key h key p c).2 in
  J (seeing f) c' ∧ next_stream_id (c_session c') = (next_stream_id (c_session c) + 1)%Z ∧
  ∀ k, k ≠ key → unwatched (c_session c) k → unwatched (c_session c') k.
Proof.
  intros Hj Hf Hun Hm. unfold subscribe_key, mbind, M_bind.
  pose proof (J_open_stream _ key p c Hj Hun Hm) as Ho. destruct (open_stream h key p c) as [sid c1].
  destruct Ho as (Hj1 & -> & Hs1 & Hn1 & _ & Hst).
  assert (Hwt : watches (c_session c1) !! next_stream_id (c_session c) = Some (mkWatch key 0 p))
    by (rewrite Hs1; apply lookup_insert_eq).
  destruct (keeps_watches_send_init (next_stream_id (c_session c)) key p c1) as [Hw2 Hn2].
  split_and!.
  - apply J_send_init; [done|by rewrite Hst|]. eauto.
  - by rewrite Hn2, Hn1.
  - intros k Hk Hunk sid w. rewrite Hw2, Hs1. cbn. rewrite lookup_insert_Some.
    intros [[_ <-]|[_ Hw]]; [cbn; congruence|by eapply Hunk].
Qed.

Lemma J_watch_keys f ks p c :
  J (seeing f) c → (∀ k, k ∈ ks → f k ≡ store_value (w_state (c_world c)) k) → NoDup ks → (∀ k, k ∈ ks → unwatched (c_session c) k) →
  (next_stream_id (c_session c) + Z.of_nat (length ks) ≤ u32_max)%Z →
  J (seeing f) (watch_keys srv h ks p c).2.
Proof.
  revert c. induction ks as [|k ks IH]; intros c Hj Hf Hnd Hun Hn; [done|].
  apply NoDup_cons in Hnd as [Hk Hnd]. cbn [watch_keys length] in *.
  unfold mbind, M_bind, get_session. destruct (read_allowed srv (c_session c) k).
  - destruct (J_subscribe_key f k p c Hj (Hf k ltac:(left)) (Hun k ltac:(left)) ltac:(lia)) as (Hj1 & Hn1 & Hun1).
    destruct (quiet_subscribe_key h k p c) as [_ Hst].
    destruct (subscribe_key h k p c) as [[] c1]. cbn [snd] in *.
    apply IH; [done|intros k' Hk'; rewrite Hst; apply Hf; by right|done| |lia].
    intros k' Hk'. apply Hun1; [by intros ->|]. apply Hun. by right.
  - pose proof (J_reply (seeing f) (λ seq, error 0 seq 403 ("forbidden: " ++ k)) ltac:(done) c Hj) as Hj1.
    pose proof (keeps_watches_reply (λ seq, error 0 seq 403 ("forbidden: " ++ k)) c) as [Hw1 Hn1].
    destruct (quiet_reply h (λ seq, error 0 seq 403 ("forbidden: " ++ k)) c) as [_ Hst].
    destruct (reply h _ c) as [[] c1]. cbn [snd] in *.
    apply IH; [done|intros k' Hk'; rewrite Hst; apply Hf; by right|done| |lia].
    intros k' Hk'. unfold unwatched. rewrite Hw1. apply Hun. by right.
Qed.

(** The replay of RESUME only concerns the new stream. *)
Lemma J_replay_missed sid f l :
  (0 ≤ sid ≤ u32_max)%Z → keeps (J (except sid f)) (replay_missed h sid l).
Proof.
  intros Hsid. induction l as [|[version ops] l IH]; cbn [replay_missed]; [apply keeps_ret|].
  eapply hoare_bind; [apply J_take_seq|]. intros seq.
  apply (hoare_bind _ _ _ (λ _ c, J (except sid f) c)); [|done].
  intros c [Hj Hseq]. unfold send. pose proof (lookup_insert_eq others h (c_session c)) as Hself.
  match goal with |- context [handle_send _ h ?m] =>
    pose proof (sys_send seen _ (except sid f) _ (c_world c) h (c_session c) m Hj Hself) as Hs;
    destruct (handle_send (w_net (c_world c)) h m) as [ok net] end.
  apply Hs; clear Hs; [done|]. intros sub k v Hsub Hw Hv. right. exists v. split; [done|].
  intros x Hx. rewrite client_step_bytes by done. unfold except in Hv.
  destruct (decide _) as [|Hno]; [done|]. rewrite (proj2 (Z.eqb_neq _ _)); [done|].
  intros ->. by apply Hno.
Qed.

Lemma keeps_watches_replay sid l : keeps_watches (replay_missed h sid l).
Proof.
  induction l as [|[version ops] l IH]; intros c; [done|]. cbn [replay_missed].
  unfold mbind, M_bind, take_seq. cbn. unfold send. cbn. destruct (handle_send _ _ _) as [ok net].
  match goal with |- context [replay_missed h sid l ?c'] => apply (IH c') end.
Qed.

(** *** Frames *)

Lemma value_get_wf k v x : wf_value v = true → value_get k v = Some x → wf_value x = true.
Proof. destruct v; try done. cbn [value_get]. intros Hw Hg. by eapply wf_object_get. Qed.

Lemma default_get_wf k v : wf_value v = true → wf_value (default VNull (value_get k v)) = true.
Proof. intros Hw. destruct (value_get k v) eqn:E; [|done]. by eapply value_get_wf. Qed.

Definition values_wf (st : StateStore) : Prop :=
  ∀ k e, store_get st k = Some e → wf_value (se_value e) = true.

Lemma store_inv_values st : store_inv st → values_wf st.
Proof. intros Hi k e Hk. by apply (si_entries st Hi) in Hk as [_ ?]. Qed.

Lemma stored_or_wf st key d : values_wf st → wf_value d = true → wf_value (stored_or st key d) = true.
Proof. intros Hi Hd. unfold stored_or. destruct (store_get st key) eqn:E; [by eapply Hi|done]. Qed.

(** An intent's value is well formed. *)
Lemma intent_wf st method args key v pres :
  values_wf st → wf_value args = true → call_intent st method args = IWrite key v pres → wf_value v = true.
Proof.
  intros Hi Ha.
  assert (Hpath : ∀ name bind, intent_at_path st name bind args = IWrite key v pres → wf_value v = true).
  { intros name bind. unfold intent_at_path. destruct (get_str "state" args) as [k|]; [|done].
    destruct (get_str "path" args) as [path|]; [|done].
    destruct (json_set_in (stored_or st k VNull) path _) as [u|] eqn:E; [|done]. intros [= _ <- _].
    unfold json_set_in in E. destruct (String.eqb path "/").
    - injection E as <-. by apply default_get_wf.
    - destruct (negb _); [done|]. injection E as <-.
      apply set_in_wf; [by apply stored_or_wf|by apply default_get_wf]. }
  unfold call_intent. destruct (String.eqb method "state.set").
  { destruct (get_str "state" args); [|done]. intros [= _ <- _]. by apply default_get_wf. }
  destruct (String.eqb method "state.patch").
  { destruct (get_str "state" args) as [k|]; [|done]. destruct (value_get "patch" args) as [p|] eqn:E; [|done].
    destruct (is_object p); [|done]. intros [= _ <- _].
    apply json_merge_wf; [by apply stored_or_wf|by eapply value_get_wf]. }
  destruct (String.eqb method "state.set_in"); [apply Hpath|].
  destruct (String.eqb method "state.delete"); [by destruct (get_str "state" args)|].
  destruct (String.eqb method "state.presence"); [apply Hpath|done].
Qed.

(** What is asked of a frame: a well-formed body; a CALL that writes no key name
    a path cannot carry; a WATCH or RESUME of keys the session does not watch
    yet; and counters that are not exhausted.  Nothing is asked of an UNWATCH. *)
Record frame_ok (c : Conn) (fr : Frame) : Prop := {
  fo_body : wf_value (body fr) = true;
  fo_version : (st_version (w_state (c_world c)) < u64_max)%Z;
  fo_call : frame_type fr = types.CALL → ∀ method, get_str "method" (body fr) = Some method →
    match call_intent (w_state (c_world c)) method (default VNull (value_get "args" (body fr))) with
    | IWrite _ v _ => pointer_safe v = true
    | _ => True
    end;
  fo_watch : frame_type fr = types.WATCH → ∀ ks, requested_keys (body fr) = Some ks →
    NoDup ks ∧ (∀ k, k ∈ ks → unwatched (c_session c) k) ∧
    (next_stream_id (c_session c) + Z.of_nat (length ks) ≤ u32_max)%Z;
  fo_resume : frame_type fr = types.RESUME → ∀ k, get_str "state" (body fr) = Some k →
    unwatched (c_session c) k ∧ (next_stream_id (c_session c) < u32_max)%Z;
}.

Lemma Jok_handle_call fr n1 n2 c :
  Jok c → wf_value (body fr) = true → (st_version (w_state (c_world c)) < u64_max)%Z →
  (∀ method, get_str "method" (body fr) = Some method →
    match call_intent (w_state (c_world c)) method (default VNull (value_get "args" (body fr))) with
    | IWrite _ v _ => pointer_safe v = true
    | _ => True
    end) →
  Jok (handle_call srv h fr n1 n2 c).2.
Proof.
  intros Hj Hwf Hm Hsafe. unfold handle_call, bad_request.
  destruct (get_str "method" (body fr)) as [method|]; [|by apply Jok_reply].
  specialize (Hsafe method eq_refl). unfold mbind, M_bind.
  pose proof (Jok_quiet _ (quiet_write_allowed n1 n2) (λ tgt, J_write_allowed tgt n1 n2) c Hj) as Hj1.
  pose proof (quiet_write_allowed n1 n2 c) as [_ Hst].
  destruct (write_allowed n1 n2 c) as [ok c1]. cbn [fst snd] in *.
  destruct (negb ok); [by apply Jok_reply|]. unfold get_session.
  match goal with |- context [if negb ?b then _ else _] => destruct (negb b) end; [by apply Jok_reply|].
  rewrite dispatch_intent.
  apply Jok_intent; [done| |by rewrite Hst]. rewrite Hst.
  destruct (call_intent (w_state (c_world c)) method _) as [|key v pres|] eqn:E; try done.
  split; [|done]. eapply intent_wf; [apply store_inv_values, (so_store seen _ _ _ Hj)|by apply default_get_wf|exact E].
Qed.

Lemma J_handle_watch f fr n1 n2 c :
  J (seeing f) c → (∀ ks, requested_keys (body fr) = Some ks →
    NoDup ks ∧ (∀ k, k ∈ ks → unwatched (c_session c) k) ∧
    (next_stream_id (c_session c) + Z.of_nat (length ks) ≤ u32_max)%Z) →
  (∀ ks k, requested_keys (body fr) = Some ks → k ∈ ks → f k ≡ store_value (w_state (c_world c)) k) →
  J (seeing f) (handle_watch srv h fr n1 n2 c).2.
Proof.
  intros Hj Hks Hf. unfold handle_watch, mbind, M_bind.
  pose proof (J_watch_allowed (seeing f) n1 n2 c Hj) as Hj1. pose proof (quiet_watch_allowed n1 n2 c) as [_ Hst].
  assert (Hs : watches (c_session (watch_allowed n1 n2 c).2) = watches (c_session c) ∧
    next_stream_id (c_session (watch_allowed n1 n2 c).2) = next_stream_id (c_session c))
    by (unfold watch_allowed; by destruct (allow_opt _ n1 n2)).
  destruct (watch_allowed n1 n2 c) as [ok c1]. cbn [snd] in *. destruct Hs as [Hw Hn].
  destruct (negb ok); [by apply J_reply|].
  destruct (requested_keys (body fr)) as [ks|]; [|by apply J_reply].
  destruct (Hks ks eq_refl) as (H1' & H2' & H3'). rewrite <- Hst in Hf.
  apply J_watch_keys; [done|intros k Hk; by eapply Hf|done| |by rewrite Hn].
  intros k Hk. unfold unwatched. rewrite Hw. by apply H2'.
Qed.

Lemma J_handle_resume f fr n1 n2 c :
  J (seeing f) c → (∀ k, get_str "state" (body fr) = Some k →
    unwatched (c_session c) k ∧ (next_stream_id (c_session c) < u32_max)%Z) →
  (∀ k, get_str "state" (body fr) = Some k → f k ≡ store_value (w_state (c_world c)) k) →
  J (seeing f) (handle_resume srv h fr n1 n2 c).2.
Proof.
  intros Hj Hk Hf. unfold handle_resume, mbind, M_bind.
  pose proof (J_watch_allowed (seeing f) n1 n2 c Hj) as Hj1. pose proof (quiet_watch_allowed n1 n2 c) as [_ Hst1].
  assert (Hs : watches (c_session (watch_allowed n1 n2 c).2) = watches (c_session c) ∧
    next_stream_id (c_session (watch_allowed n1 n2 c).2) = next_stream_id (c_session c))
    by (unfold watch_allowed; by destruct (allow_opt _ n1 n2)).
  destruct (watch_allowed n1 n2 c) as [ok c1]. cbn [snd] in *. destruct Hs as [Hw Hn].
  destruct (negb ok); [by apply J_reply|].
  destruct (get_str "state" (body fr)) as [key|]; [|by apply J_reply].
  unfold get_session. destruct (negb (read_allowed srv (c_session c1) key)); [by apply J_reply|].
  destruct (Hk key eq_refl) as [Hun Hm].
  pose proof (J_open_stream _ key (value_get "params" (body fr)) c1 Hj1) as Ho.
  destruct (open_stream h key _ c1) as [sid c2].
  destruct Ho as (Hj2 & Hsid & Hs2 & _ & Hr & Hst); [unfold unwatched; by rewrite Hw|by rewrite Hn|].
  assert (Hwt : watches (c_session c2) !! sid = Some (mkWatch key 0 (value_get "params" (body fr))))
    by (rewrite Hs2; apply lookup_insert_eq).
  unfold get_world.
  set (replay := if (0 <? _)%Z then replay_missed h sid _ else mret tt).
  assert (Hrep : keeps (J (except sid f)) replay ∧ keeps_watches replay ∧ quiet replay).
  { unfold replay. case_match; [|split_and!; [apply keeps_ret|by intros ?|auto with server]].
    split_and!; [by apply J_replay_missed|apply keeps_watches_replay|auto with server]. }
  destruct Hrep as (Hkeep & Hkw & Hquiet). specialize (Hkeep c2 Hj2). specialize (Hkw c2).
  destruct (Hquiet c2) as [_ Hst2]. destruct (replay c2) as [[] c3]. cbn [fst snd] in *.
  apply J_send_init; [done|rewrite Hst2, Hst, Hst1; by apply Hf|]. rewrite (proj1 Hkw). eauto.
Qed.

Lemma J_unwatch f ks : keeps (J (seeing f)) (unwatch_keys ks).
Proof.
  induction ks as [|k ks IH]; cbn [unwatch_keys]; [apply keeps_ret|].
  intros c Hj. run_m. pose proof (watch_stream_lookup (c_session c) k) as Hsid.
  destruct (watch_stream_id (c_session c) k) as [sid|]; [|by apply IH].
  destruct Hsid as (wt & Hwt & Hk). apply IH. unfold J. cbn.
  set (s := c_session c) in *. pose proof (lookup_insert_eq others h s) as Hself.
  rewrite <- (insert_insert_eq others h _ s).
  eapply (sys_rewatch seen (seeing f)); [exact Hj|exact Hself|done| | | | | | |].
  - by apply (remove_watch_inv s sid), (J_session_inv _ _ Hj).
  - intros i j wi wj. cbn. rewrite !lookup_delete_Some. intros [_ Hi] [_ Hjj].
    by eapply (sys_once seen _ _ _ h s Hj Hself).
  - intros k' sub [Hin Hne]%elem_of_unsubscribe.
    destruct (decide (write sub = h)) as [E|E]; [right|by left].
    destruct (so_own_watch seen _ _ _ k' sub h s Hj Hself Hin E) as (Hid & wt' & Hwt' & Hk').
    split_and!; [done..|]. exists wt'. split; [|done]. cbn. rewrite lookup_delete_ne; [done|].
    intros ->. rewrite Hwt in Hwt'. injection Hwt' as <-. apply Hne; congruence.
  - intros k'. destruct (unsubscribe_filter (w_fanout (c_world c)) k (s_id s) k') as [keep ->].
    apply NoDup_ListNoDup, List.NoDup_filter, NoDup_ListNoDup, (so_nodup seen _ _ _ Hj).
  - intros k' sub v [Hin _]%elem_of_unsubscribe Hv. done.
  - intros k' sub Hin Hne. apply elem_of_unsubscribe. split; [done|]. intros _ E. apply Hne.
    by eapply (so_owner seen _ _ _ k' sub h s Hj Hself).
  - intros i wt'. cbn. rewrite lookup_delete_Some. intros [Hne Hwt']. right. exists wt'.
    split; [done|]. intros Hin. apply elem_of_unsubscribe. split; [done|]. intros E. destruct Hne.
    eapply (sys_once seen _ _ _ h s Hj Hself); eauto. congruence.
Qed.

Lemma J_ack f sid sq c : J (seeing f) c → J (seeing f) (mkConn (ack_stream (c_session c) sid sq) (c_world c)).
Proof.
  intros Hj. unfold J. cbn. unfold ack_stream. set (s := c_session c) in *.
  destruct (watches s !! sid) as [w|] eqn:E; [|done].
  pose proof (lookup_insert_eq others h s) as Hself.
  assert (Hkeys : ∀ i wi, <[sid := mkWatch (w_state_key w) sq (w_params w)]> (watches s) !! i = Some wi →
    ∃ w0, watches s !! i = Some w0 ∧ w_state_key w0 = w_state_key wi).
  { intros i wi. rewrite lookup_insert_Some. intros [[<- <-]|[_ ?]]; eauto. }
  rewrite <- (insert_insert_eq others h _ s). destruct c as [s0 [st bus net ts]]. cbn in *.
  eapply (sys_rewatch seen (seeing f)) with (w := mkWorld st bus net ts);
    [exact Hj|exact Hself|done| | | |apply (so_nodup seen _ _ _ Hj)|done|done|].
  - pose proof (ack_stream_inv s sid sq (J_session_inv _ _ Hj)) as Hi.
    unfold ack_stream in Hi. subst s. by rewrite E in Hi.
  - intros i j wi wj (u & Hu & Ku)%Hkeys (u' & Hu' & Ku')%Hkeys Hk.
    eapply (sys_once seen _ _ _ h s Hj Hself); eauto. congruence.
  - intros k sub Hin. destruct (decide (write sub = h)) as [Ew|Ew]; [right|by left].
    destruct (so_own_watch seen _ _ _ k sub h s Hj Hself Hin Ew) as (Hid & wt & Hwt & Hk).
    split_and!; [done..|]. cbn. destruct (decide (sub_stream_id sub = sid)) as [Es|Hne].
    + rewrite Es, lookup_insert_eq. eexists. split; [done|]. subst s. cbn. congruence.
    + exists wt. by rewrite lookup_insert_ne.
  - intros i wt' (u & Hu & Ku)%Hkeys. right. exists u. by rewrite Ku.
Qed.

(** The keys a WATCH or RESUME asks for. *)
Definition asks_for (fr : Frame) (k : string) : Prop :=
  (frame_type fr = types.WATCH ∧ ∃ ks, requested_keys (body fr) = Some ks ∧ k ∈ ks) ∨
  (frame_type fr = types.RESUME ∧ get_str "state" (body fr) = Some k).

(** Frames other than CALL. *)
Lemma J_handle_frame f fr n1 n2 c :
  J (seeing f) c → frame_ok c fr → frame_type fr ≠ types.CALL →
  (∀ k, asks_for fr k → f k ≡ store_value (w_state (c_world c)) k) →
  J (seeing f) (handle_frame srv h fr n1 n2 c).2.
Proof.
  intros Hj [Hb Hv Hc Hw Hr] Hnc Hf. unfold handle_frame. repeat case_goal; bool_to_prop; [| | |done| | |done].
  - apply J_handle_watch; [done|by apply Hw|]. intros ks k Hks Hk. apply Hf. left. eauto.
  - apply J_handle_resume; [done|by apply Hr|]. intros k Hk. apply Hf. by right.
  - unfold handle_unwatch. case_match; [by apply J_unwatch|done].
  - run_m. by apply J_ack.
  - refine (J_send_harmless (seeing f) _ _ c Hj). by apply harmless_frame.
Qed.

Lemma quiet_handle_frame fr n1 n2 : frame_type fr ≠ types.CALL → quiet (handle_frame srv h fr n1 n2).
Proof.
  intros Hnc. unfold handle_frame. repeat case_goal; auto with server; [bool_to_prop; done|].
  intros c. run_m. unfold ack_stream. by case_match.
Qed.

Lemma Jok_handle_frame fr n1 n2 c : Jok c → frame_ok c fr → Jok (handle_frame srv h fr n1 n2 c).2.
Proof.
  intros Hj Hok. destruct (decide (frame_type fr = types.CALL)) as [Ht|Hnc].
  - unfold handle_frame. rewrite Ht. cbn. destruct Hok as [Hb Hv Hc _ _]. apply Jok_handle_call; [done..|]. by apply Hc.
  - unfold Jok. destruct (quiet_handle_frame fr n1 n2 Hnc c) as [_ ->]. by apply J_handle_frame.
Qed.
End Handlers.
