(* ===== verification/ServerReply.v ===== *)
(** * Every CALL is answered once

    What a CALL puts into the caller's own queue: at most one delta for its own
    watch of the written key, then exactly one RESULT or ERROR, which tells what
    happened to the store. *)

From S2P Require Import Prelude RustStr Json JsonPath Delta Schema Acl Frame Log Store Session WritePool Fanout Cluster Server ServerLogic ServerSafety ServerWatch.

Local Open Scope string_scope.

Section Replies.
Context `{EntryCodec, HashOrder, BodyCodec}.
Context (srv : SodpServer) (h : nat).

(** The subscriptions with handle [h] are those of the connection's session. *)
Definition own_handle (c : Conn) : Prop :=
  is_Some (handles (w_net (c_world c)) !! h) ∧
  ∀ k sub, sub ∈ subs_of (w_fanout (c_world c)) k →
    is_Some (handles (w_net (c_world c)) !! write sub) ∧
    (write sub = h → session_id sub = s_id (c_session c)).

Definition room (c : Conn) : nat := room_of (w_net (c_world c)) h.
Definition queue (c : Conn) : list OutboundMsg := queue_of (w_net (c_world c)) h.

(** From [c] to [c'] exactly [msgs] were queued for [h], and there was room. *)
Record queued (c c' : Conn) (msgs : list OutboundMsg) : Prop := {
  q_own : own_handle c';
  q_queue : queue c' = (queue c ++ msgs)%list;
  q_room : (room c' + length msgs = room c)%nat;
  q_id : s_id (c_session c') = s_id (c_session c);
}.

Lemma queued_refl c : own_handle c → queued c c [].
Proof. intros Ho. split; [done|by rewrite app_nil_r|cbn; lia|done]. Qed.

Lemma queued_trans c1 c2 c3 l1 l2 : queued c1 c2 l1 → queued c2 c3 l2 → queued c1 c3 (l1 ++ l2).
Proof.
  intros [O1 Q1 R1 I1] [O2 Q2 R2 I2]. split; [done|by rewrite Q2, Q1, app_assoc|rewrite length_app; lia|congruence].
Qed.

Lemma queued_nil_l c1 c2 c3 l : queued c1 c2 [] → queued c2 c3 l → queued c1 c3 l.
Proof. apply (queued_trans c1 c2 c3 [] l). Qed.

Lemma queued_nil_r c1 c2 c3 l : queued c1 c2 l → queued c2 c3 [] → queued c1 c3 l.
Proof. rewrite <- (app_nil_r l) at 2. apply queued_trans. Qed.

(** A session change that keeps the id. *)
Lemma queued_session c s :
  own_handle c → s_id s = s_id (c_session c) → queued c (mkConn s (c_world c)) [].
Proof.
  intros [H1' H2'] Hs. split; [|by rewrite app_nil_r|cbn; unfold room; cbn; lia|done].
  split; [done|]. cbn. by rewrite Hs.
Qed.

Lemma queued_state c st :
  own_handle c → queued c (mkConn (c_session c) (with_state (c_world c) st)) [].
Proof. intros Ho. split; [done|by rewrite app_nil_r|unfold room; cbn; lia|done]. Qed.

Lemma queued_send m c : own_handle c → (0 < room c)%nat → queued c (send h m c).2 [m].
Proof.
  intros [Hh Hs] Hr. unfold send. pose proof (λ r, handle_send_spec (w_net (c_world c)) h m r Hh) as Hspec.
  destruct (handle_send (w_net (c_world c)) h m) as [ok net].
  destruct (Hspec h) as (Hok & Hq & Hroom & _). rewrite decide_True in Hq by done. rewrite decide_True in Hroom by done.
  unfold room in Hr. rewrite (proj2 (Nat.ltb_lt _ _) Hr) in Hok. subst ok. split; [|done| |done].
  - split; [by apply (Hspec h)|]. intros k sub Hin. destruct (Hs k sub Hin). split; [by apply (Hspec (write sub))|done].
  - unfold room in *. cbn in *. lia.
Qed.

Lemma queued_reply f c :
  own_handle c → (0 < room c)%nat → queued c (reply h f c).2 [OFrame (f (u64_add (seq_counter (c_session c)) 1))].
Proof.
  intros Ho Hr. unfold reply. run_m.
  set (c1 := mkConn _ (c_world c)).
  assert (H1' : queued c c1 []) by (by apply queued_session).
  eapply queued_nil_l; [exact H1'|]. apply queued_send; [apply H1'|done].
Qed.

(** A broadcast that excludes the own session queues nothing for it. *)
Lemma queued_broadcast k b c :
  own_handle c → queued c (broadcast_timed k b (Some (s_id (c_session c))) c).2 [].
Proof.
  intros [Hh Hs]. unfold broadcast_timed. set (w := c_world c) in *. set (ex := Some (s_id (c_session c))).
  assert (Hk : handles_known (w_net w) (subs_of (w_fanout w) k)).
  { apply Forall_forall. intros sub Hin. by apply (Hs k). }
  pose proof (λ r, broadcast_queues (w_fanout w) (w_net w) k b ex r Hk) as Hq.
  pose proof (broadcast_room (w_fanout w) (w_net w) k b ex h Hk) as Hr.
  pose proof (λ k' s, broadcast_encoded_subset (w_fanout w) (w_net w) k b ex k' s) as Hsub.
  assert (Hnone : deltas_for h b (List.filter (not_excluded ex) (subs_of (w_fanout w) k)) = []).
  { unfold deltas_for. enough (E : filter (λ s, write s = h) (List.filter (not_excluded ex) (subs_of (w_fanout w) k)) = [])
      by (by rewrite E).
    apply elem_of_nil_inv. intros sub [Hw Hin]%list_elem_of_filter.
    apply list_elem_of_In, filter_In in Hin as [Hin%list_elem_of_In Hex]. destruct (Hs k sub Hin) as [_ Hid].
    cbn in Hex. unfold not_session in Hex. rewrite (Hid Hw), String.eqb_refl in Hex. done. }
  destruct (broadcast_encoded (w_fanout w) (w_net w) k b ex) as [bus net]. cbn in *.
  destruct (Hq h) as (Hqh & _ & Hh'). rewrite Hnone, take_nil, app_nil_r in Hqh. rewrite Hnone in Hr. split.
  - split; [by apply Hh'|]. cbn. intros k' sub Hin%Hsub. destruct (Hs k' sub Hin). split; [|done].
    by apply (Hq (write sub)).
  - unfold queue. cbn. by rewrite Hqh, app_nil_r.
  - unfold room. cbn in *. fold w. lia.
  - done.
Qed.

Lemma queued_cluster t c : own_handle c → queued c (cluster_task srv t c).2 [].
Proof.
  intros Ho. unfold cluster_task. cbn. destruct (c_cluster srv); [|by apply queued_refl].
  split; [done|by rewrite app_nil_r|unfold room; cbn; lia|done].
Qed.

(** The delta of a mutation of [k] on the session's own watch of it, if it has one. *)
Definition own_delta (s : Session) (k : string) (body : list byte) : list OutboundMsg :=
  match watch_stream_id s k with Some sid => [OBytes (delta_bytes sid 0 body)] | None => [] end.

Lemma own_delta_length s k b : (length (own_delta s k b) ≤ 1)%nat.
Proof. unfold own_delta. case_match; cbn; lia. Qed.

Lemma broadcast_timed_session k b ex c : c_session (broadcast_timed k b ex c).2 = c_session c.
Proof. unfold broadcast_timed. by case_match. Qed.

(** Publishing queues exactly the own delta. *)
Lemma queued_publish k b t c :
  own_handle c → (0 < room c)%nat → queued c (publish srv h k b t c).2 (own_delta (c_session c) k b).
Proof.
  intros Ho Hr. unfold publish, send_own_delta, own_delta. run_m.
  pose proof (queued_broadcast k b c Ho) as Hb.
  pose proof (broadcast_timed_session k b (Some (s_id (c_session c))) c) as Hs.
  destruct (broadcast_timed k b _ c) as [[] c1]. cbn in Hb, Hs. rewrite Hs.
  assert (Hr1 : (0 < room c1)%nat) by (pose proof (q_room _ _ _ Hb) as E; cbn in E; lia).
  destruct (watch_stream_id (c_session c) k) as [sid|].
  - pose proof (queued_send (OBytes (delta_bytes sid 0 b)) c1 (q_own _ _ _ Hb) Hr1) as Hq.
    destruct (send h _ c1) as [[] c2]. eapply queued_nil_r; [|apply queued_cluster, Hq].
    by eapply queued_nil_l.
  - eapply queued_nil_r; [exact Hb|apply queued_cluster, Hb].
Qed.

Lemma handle_frame_call fr n1 n2 c :
  frame_type fr = types.CALL → handle_frame srv h fr n1 n2 c = handle_call srv h fr n1 n2 c.
Proof. intros Ht. unfold handle_frame. by rewrite Ht. Qed.

(** *** Which error a CALL gets *)

(** An intent that cannot be carried out: bad arguments (400), an unknown method
    (404), or a value the schema rejects (422). *)
Definition intent_error (i : Intent) : option (Z * string) :=
  match i with
  | IBad code msg => Some (code, msg)
  | IWrite key v _ => match schema_check srv key v with Err msg => Some (422%Z, msg) | Ok _ => None end
  | IDelete _ => None
  end.

(** The first of: no method, over the rate limit, no write access to the key
    named, and what is wrong with the request itself. *)
Definition call_error (s : Session) (st : StateStore) (in_rate : bool) (b : Value) : option (Z * string) :=
  match get_str "method" b with
  | None => Some (400%Z, "CALL: missing 'method'")
  | Some method =>
      let args := default VNull (value_get "args" b) in
      if negb in_rate then Some (429%Z, "rate limit exceeded")
      else if match get_str "state" args with Some k => negb (write_permitted srv s k) | None => false end
      then Some (403%Z, "forbidden")
      else intent_error (call_intent st method args)
  end.

(** What a CALL asks of the store. *)
Definition frame_intent (st : StateStore) (b : Value) : Intent :=
  call_intent st (default "" (get_str "method" b)) (default VNull (value_get "args" b)).

(** What carrying an intent out does: the key it is about, the version answered, the
    delta to publish, if any, and the store it leaves. *)
Record Effect : Type := mkEffect {
  ef_key : string; ef_version : Z; ef_body : option (list byte); ef_store : StateStore;
}.

Definition intent_effect (st : StateStore) (i : Intent) : option Effect :=
  match i with
  | IBad _ _ => None
  | IWrite key v _ =>
      let '((version, ops), st') := store_apply st key v in
      Some (mkEffect key version
        (match ops with [] => None | _ => Some (encode_delta_body version ops) end) st')
  | IDelete key =>
      Some (match store_delete st key with
            | (Some (version, ops), st') => mkEffect key version (Some (encode_delta_body version ops)) st'
            | (None, st') => mkEffect key 0 None st'
            end)
  end.

Definition own_deltas (s : Session) (e : Effect) : list OutboundMsg :=
  match ef_body e with Some b => own_delta s (ef_key e) b | None => [] end.

(** The caller's queue and the store after a CALL: the error alone, and the store as
    it was; or the effect of the intent, its delta on the caller's own watch, and a
    RESULT with the version. *)
Definition answered (fr : Frame) (id : string) (err : option (Z * string)) (i : Intent) (c c' : Conn) : Prop :=
  match err with
  | Some (code, msg) =>
      w_state (c_world c') = w_state (c_world c) ∧
      ∃ seq, queue c' = (queue c ++ [OFrame (error (stream_id fr) seq code msg)])%list
  | None =>
      ∃ e, intent_effect (w_state (c_world c)) i = Some e ∧ w_state (c_world c') = ef_store e ∧
      ∃ seq, queue c' = (queue c ++ own_deltas (c_session c) e ++
        [OFrame (result_ok (stream_id fr) seq id (version_data (ef_version e)))])%list
  end.

(** Nothing but the write limiter changed before. *)
Lemma answered_after fr id err i c c1 c' :
  queued c c1 [] → w_state (c_world c1) = w_state (c_world c) → watches (c_session c1) = watches (c_session c) →
  answered fr id err i c1 c' → answered fr id err i c c'.
Proof.
  intros Hq Hst Hw. unfold answered. rewrite (q_queue _ _ _ Hq), app_nil_r, Hst.
  unfold own_deltas, own_delta, watch_stream_id. by rewrite Hw.
Qed.

Lemma answered_error fr id i c code msg :
  own_handle c → (1 < room c)%nat →
  answered fr id (Some (code, msg)) i c (reply h (λ seq, error (stream_id fr) seq code msg) c).2.
Proof.
  intros Ho Hr. split; [apply (quiet_reply h)|].
  eexists. apply (q_queue _ _ _ (queued_reply (λ seq, error (stream_id fr) seq code msg) c Ho ltac:(lia))).
Qed.

(** The end of a request that was carried out. *)
Lemma answered_reply fr id i c c1 e :
  intent_effect (w_state (c_world c)) i = Some e → (1 < room c)%nat →
  queued c c1 (own_deltas (c_session c) e) → w_state (c_world c1) = ef_store e →
  answered fr id None i c (reply h (λ seq, result_ok (stream_id fr) seq id (version_data (ef_version e))) c1).2.
Proof.
  intros He Hr Hq Hst. exists e. set (f := λ seq, result_ok _ seq _ _).
  pose proof (q_room _ _ _ Hq) as Hroom.
  assert (Hl : (length (own_deltas (c_session c) e) ≤ 1)%nat)
    by (unfold own_deltas; case_match; [apply own_delta_length|cbn; lia]).
  pose proof (queued_reply f c1 (q_own _ _ _ Hq) ltac:(lia)) as Hrep.
  split_and!; [done|by rewrite (proj2 (quiet_reply h f c1))|].
  eexists. exact (q_queue _ _ _ (queued_trans _ _ _ _ _ Hq Hrep)).
Qed.

Lemma answered_write fr id key v pres c :
  own_handle c → (1 < room c)%nat →
  answered fr id (intent_error (IWrite key v pres)) (IWrite key v pres) c
    (run_intent srv h fr id (IWrite key v pres) c).2.
Proof.
  intros Ho Hr. cbn [run_intent intent_error].
  unfold validated_write. destruct (schema_check srv key v); [|by apply answered_error].
  set (after := match pres with Some path => register_presence key path | None => mret tt end).
  assert (Hafter : ∀ c2, own_handle c2 → queued c2 (after c2).2 [] ∧ w_state (c_world (after c2).2) = w_state (c_world c2)).
  { intros c2 Ho2. unfold after. destruct pres as [path|]; [|split; [by apply queued_refl|done]].
    unfold register_presence. run_m. split; [|done]. apply queued_session; [done|]. unfold add_presence. by case_match. }
  clearbody after. unfold commit, state_apply, mbind, M_bind.
  destruct (store_apply (w_state (c_world c)) key v) as [[version ops] st'] eqn:Ea.
  set (c1 := mkConn (c_session c) _). pose proof (queued_state c st' Ho) as Hq1. fold c1 in Hq1.
  set (e := mkEffect key version (match ops with [] => None | _ => Some (encode_delta_body version ops) end) st').
  assert (He : intent_effect (w_state (c_world c)) (IWrite key v pres) = Some e) by (cbn; by rewrite Ea).
  assert (Hend : ∀ c2, queued c c2 (own_deltas (c_session c) e) → w_state (c_world c2) = st' →
    answered fr id None (IWrite key v pres) c (let '(_, c3) := after c2 in
      reply h (λ seq, result_ok (stream_id fr) seq id (version_data version)) c3).2).
  { intros c2 Hq2 Hst. destruct (Hafter c2 (q_own _ _ _ Hq2)) as [Hq3 Hst3].
    pose proof (queued_nil_r _ _ _ _ Hq2 Hq3) as Hq4. destruct (after c2) as [[] c3]. cbn [fst snd] in *.
    eapply (answered_reply fr id _ c c3 e); [done..|]. by rewrite Hst3. }
  destruct ops as [|o ops]; [by apply (Hend c1)|].
  set (b := encode_delta_body version (o :: ops)).
  pose proof (queued_publish key b (TSync key version v b) c1 (q_own _ _ _ Hq1)) as Hp.
  pose proof (quiet_publish srv h key b (TSync key version v b) c1) as [_ Hst].
  destruct (publish srv h key _ _ c1) as [[] c2]. cbn [fst snd] in *.
  apply (Hend c2); [|done]. eapply queued_nil_l; [exact Hq1|]. apply Hp. unfold room in *. cbn. lia.
Qed.

Lemma answered_delete fr id key c :
  own_handle c → (1 < room c)%nat →
  answered fr id None (IDelete key) c (run_intent srv h fr id (IDelete key) c).2.
Proof.
  intros Ho Hr. cbn [run_intent]. unfold state_delete, mbind, M_bind.
  destruct (store_delete (w_state (c_world c)) key) as [res st'] eqn:Ed.
  set (c1 := mkConn (c_session c) _). pose proof (queued_state c st' Ho) as Hq1. fold c1 in Hq1.
  destruct res as [[version ops]|].
  - set (b := encode_delta_body version ops).
    pose proof (queued_publish key b (TSyncDelete key b) c1 (q_own _ _ _ Hq1)) as Hp.
    pose proof (quiet_publish srv h key b (TSyncDelete key b) c1) as [_ Hst].
    destruct (publish srv h key _ _ c1) as [[] c2]. cbn [fst snd] in *.
    eapply (answered_reply fr id _ c c2 (mkEffect key version (Some b) st')); [cbn; by rewrite Ed|done| |done].
    eapply queued_nil_l; [exact Hq1|]. apply Hp. unfold room in *. cbn. lia.
  - apply (answered_reply fr id (IDelete key) c c1 (mkEffect key 0 None st')); [cbn; by rewrite Ed|done..].
Qed.

Lemma answered_intent fr id i c :
  own_handle c → (1 < room c)%nat → answered fr id (intent_error i) i c (run_intent srv h fr id i c).2.
Proof.
  intros Ho Hr. destruct i as [code msg|key v pres|key];
    [by apply answered_error|by apply answered_write|by apply answered_delete].
Qed.

(** C19. Every CALL is answered exactly once, with the right verdict. When the
    caller's queue has room for two messages, a CALL frame either queues for the
    caller just the ERROR that [call_error] gives, on the frame's stream, with nothing
    stored; or, when it gives none, the store becomes what [apply] or [delete] makes of
    it for the key and the value that the method and its arguments call for, and the
    caller's queue gets the delta of that mutation, when there is one and the caller
    watches the key, on the stream of its watch with sequence number 0, and then a RESULT
    with the frame's [call_id] and the version of the mutation (zero for the deletion
    of an absent key). *)
Theorem call_answered_once fr n1 n2 c :
  frame_type fr = types.CALL → own_handle c → (1 < room c)%nat →
  answered fr (default "unknown" (get_str "call_id" (body fr)))
    (call_error (c_session c) (w_state (c_world c)) (allow_opt (write_limiter (c_session c)) n1 n2).1 (body fr))
    (frame_intent (w_state (c_world c)) (body fr))
    c (handle_frame srv h fr n1 n2 c).2.
Proof.
  intros Ht Ho Hr. rewrite handle_frame_call by done.
  unfold handle_call, bad_request, call_error, frame_intent.
  destruct (get_str "method" (body fr)) as [method|]; [cbn [default]|by apply answered_error].
  unfold mbind, M_bind, write_allowed. destruct (allow_opt _ n1 n2) as [ok l]. set (c1 := mkConn _ (c_world c)).
  assert (Hq : queued c c1 []) by (by apply queued_session).
  pose proof (q_own _ _ _ Hq) as Ho1. pose proof (q_room _ _ _ Hq) as Hr1. cbn in Hr1. rewrite Nat.add_0_r in Hr1.
  apply (answered_after _ _ _ _ c c1); [done..|]. cbn [fst].
  destruct (negb ok); [apply answered_error; [done|lia]|]. unfold get_session.
  change (write_permitted srv (c_session c1)) with (write_permitted srv (c_session c)).
  destruct (get_str "state" _) as [k|]; [destruct (write_permitted srv (c_session c) k)|]; cbn [negb];
    try (apply answered_error; [done|lia]); rewrite dispatch_intent; (apply answered_intent; [done|lia]).
Qed.

(** *** A refused CALL does nothing else *)

(** From [c] to [c'] one message was queued for [h], and nothing but the session's
    sequence counter and write limiter changed. *)
Record only_queued (c c' : Conn) (m : OutboundMsg) : Prop := {
  oq_own : queue c' = (queue c ++ [m])%list;
  oq_others : ∀ r, r ≠ h → queue_of (w_net (c_world c')) r = queue_of (w_net (c_world c)) r ∧
    cancelled_of (w_net (c_world c')) r = cancelled_of (w_net (c_world c)) r;
  oq_state : w_state (c_world c') = w_state (c_world c);
  oq_bus : w_fanout (c_world c') = w_fanout (c_world c);
  oq_tasks : w_tasks (c_world c') = w_tasks (c_world c);
  oq_watches : watches (c_session c') = watches (c_session c);
  oq_presence : presence (c_session c') = presence (c_session c);
  oq_identity : same_identity (c_session c) (c_session c');
}.

Lemma reply_only f c :
  is_Some (handles (w_net (c_world c)) !! h) → (0 < room c)%nat → ∃ seq, only_queued c (reply h f c).2 (OFrame (f seq)).
Proof.
  intros Hh Hr. unfold reply. run_m. set (q := u64_add (seq_counter (c_session c)) 1). exists q.
  unfold send. cbn. pose proof (λ r, handle_send_spec (w_net (c_world c)) h (OFrame (f q)) r Hh) as Hspec.
  destruct (handle_send (w_net (c_world c)) h _) as [ok net].
  destruct (Hspec h) as (Hok & Hq & _). rewrite decide_True in Hq by done.
  unfold room in Hr. rewrite (proj2 (Nat.ltb_lt _ _) Hr) in Hok. subst ok. split; try done.
  cbn. intros r Hne. destruct (Hspec r) as (_ & Hqr & _ & Hc & _).
  rewrite decide_False in Hqr by done. rewrite decide_False in Hc by done.
  by rewrite app_nil_r in Hqr; rewrite orb_false_r in Hc.
Qed.

(** C20. A refused CALL has no other effect. When [call_error] gives an error (400 for a
    missing method, else 429 over the rate limit, else 403 without write access to the
    key named, else the 400 of bad arguments or the 404 of an unknown method, else the
    422 of the schema) and the caller's queue has room for one message, the
    CALL queues exactly that ERROR for the caller, on the frame's stream; no other
    session's queue changes, and the store, the subscriptions, the cluster's tasks
    and the session's watches, presence entries and identity are what they were. *)
Theorem refused_call_no_effect fr n1 n2 c code msg :
  frame_type fr = types.CALL → is_Some (handles (w_net (c_world c)) !! h) → (0 < room c)%nat →
  call_error (c_session c) (w_state (c_world c)) (allow_opt (write_limiter (c_session c)) n1 n2).1 (body fr) =
    Some (code, msg) →
  ∃ seq, only_queued c (handle_frame srv h fr n1 n2 c).2 (OFrame (error (stream_id fr) seq code msg)).
Proof.
  intros Ht Hh Hr. rewrite handle_frame_call by done. unfold handle_call, bad_request, call_error.
  destruct (get_str "method" (body fr)) as [method|].
  2:{ intros [= <- <-]. by apply (reply_only (λ seq, error _ seq _ _)). }
  unfold mbind, M_bind, write_allowed. destruct (allow_opt _ n1 n2) as [ok l]. set (c1 := mkConn _ (c_world c)).
  assert (Hgo : ∀ code' msg', (code', msg') = (code, msg) →
    ∃ seq, only_queued c (reply h (λ seq, error (stream_id fr) seq code' msg') c1).2 (OFrame (error (stream_id fr) seq code msg))).
  { intros code' msg' [= -> ->]. destruct (reply_only (λ seq, error (stream_id fr) seq code msg) c1) as [q Hq]; [done..|].
    exists q. destruct Hq. by split. }
  cbn [fst]. destruct (negb ok); [intros [= E1 E2]; apply Hgo; congruence|]. unfold get_session.
  change (write_permitted srv (c_session c1)) with (write_permitted srv (c_session c)).
  set (args := default VNull (value_get "args" (body fr))).
  assert (Hi : ∀ i, intent_error i = Some (code, msg) →
    ∃ seq, only_queued c (run_intent srv h fr (default "unknown" (get_str "call_id" (body fr))) i c1).2
      (OFrame (error (stream_id fr) seq code msg))).
  { intros [code' msg'|key v pres|key]; cbn [intent_error run_intent]; [intros [= E1 E2]; apply Hgo; congruence| |done].
    unfold validated_write. destruct (schema_check srv key v) as [|m']; [done|]. intros [= E1 E2]. apply Hgo. congruence. }
  destruct (get_str "state" args) as [k|]; [destruct (write_permitted srv (c_session c) k)|]; cbn [negb];
    try (intros [= E1 E2]; apply Hgo; congruence); rewrite dispatch_intent; apply Hi.
Qed.
End Replies.

(** ** Concrete runs *)

Import ServerExamples.

Lemma refused_call_no_effect_witness :
  ∃ seq, only_queued 0 conn0 (handle_frame (server_with None None) 0 (call_frame "state.drop" []) 0 0 conn0).2
    (OFrame (error 1 seq 404 "unknown method: state.drop")).
Proof.
  apply (refused_call_no_effect (server_with None None) 0 (call_frame "state.drop" []) 0 0 conn0).
  - reflexivity.
  - vm_compute. by eexists.
  - vm_compute. lia.
  - vm_compute. reflexivity.
Defined.

(** A WATCH or UNWATCH of "k", and its setting to a number. *)
Definition watch_k : Frame := mkFrame types.WATCH 1 0 (VObject [("state", VString "k")]).
Definition unwatch_k : Frame := mkFrame types.UNWATCH 1 0 (VObject [("state", VString "k")]).
Definition set_k (n : Z) : Frame := call_frame "state.set" [("state", VString "k"); ("value", num n)].

Definition run_frames (frs : list Frame) (c : Conn) : Conn :=
  fold_left (λ c fr, (handle_frame (server_with None None) 0 fr 0 0 c).2) frs c.

(** A session that watches "k" sets it: its own delta, then the RESULT. *)
Lemma call_answered_once_witness :
  let c := run_frames [watch_k] conn0 in
  let c' := run_frames [set_k 1] c in
  ∃ seq, queue 0 c' = (queue 0 c ++ [OBytes (delta_bytes 10 0 (encode_delta_body 1 [mkDeltaOp Add "/" (Some (num 1))]));
    OFrame (result_ok 1 seq "c1" (version_data 1))])%list.
Proof.
  destruct (call_answered_once (server_with None None) 0 (set_k 1) 0 0 (run_frames [watch_k] conn0))
    as (e & He & _ & seq & Hq).
  - reflexivity.
  - split; [vm_compute; by eexists|]. intros k sub.
    replace (w_fanout _) with (<["k" := [mkSubscriber "a" 10 0]]> ∅ : FanoutBus) by (vm_compute; reflexivity).
    unfold subs_of. destruct (decide (k = "k")) as [->|Hk].
    + rewrite lookup_insert_eq. intros ->%list_elem_of_singleton. split; [vm_compute; by eexists|].
      intros _. vm_compute. reflexivity.
    + rewrite lookup_insert_ne, lookup_empty by congruence. by intros ?%elem_of_nil.
  - vm_compute. lia.
  - exists seq. vm_compute in He. injection He as <-. vm_compute in Hq |- *. exact Hq.
Defined.

(** Watching a key twice goes wrong. A session that watches the same key on two
    streams gets its own writes on one of them only; and one UNWATCH drops both
    subscriptions but only one of the two watches, so that the other stream stays
    open on the session and never gets another update. *)
Theorem double_watch_starves :
  let twice := run_frames [watch_k; watch_k] conn0 in
  let wrote := run_frames [set_k 1] twice in
  let dropped := run_frames [unwatch_k] twice in
  map_to_list (w_state_key <$> watches (c_session twice)) = [(11, "k"); (10, "k")]%Z ∧
  omap (λ m, match m with OBytes b => read_header b | _ => None end) (queue_of (w_net (c_world wrote)) 0) =
    [(types.DELTA, 11, 0, [x01; x01; x01])]%Z ∧
  map_to_list (w_state_key <$> watches (c_session dropped)) = [(10, "k")]%Z ∧
  subs_of (w_fanout (c_world dropped)) "k" = [].
Proof. vm_compute. done. Qed.
