(* ===== verification/Connection.v ===== *)
(** * Connections: configuration, handshake, event loop (src/src/server.rs)

    [listen], [handle_connection] and [auth_handshake], with the environment
    variables they are configured from.  The WebSocket stream is the list of
    inbound messages it yields, the schedule of [tokio::select!] is the sequence
    of events the loop sees, and the JWT library and rmp_serde are parameters. *)

From S2P Require Import Prelude RustStr Json JsonPath Delta Schema Acl Frame Log Store Session WritePool Fanout Cluster Server ServerLogic ServerSafety.

Local Open Scope string_scope.

(** ** Configuration *)

Section Config.
(** [std::env::var(name).ok()] and [std::fs::read_to_string(path)] *)
Context (env : string → option string) (read_file : string → result string string).

(** [parse::<usize>()] on a 64-bit target and [parse::<u64>()] are [parse_u64]. *)
Definition parse_u32 (s : string) : option Z :=
  parse_u64 s ≫= λ n, if (n <=? u32_max)%Z then Some n else None.

Definition read_limits : option Z * Z * Z * option Z * option Z * Z :=
  let max_connections := env "SODP_MAX_CONNECTIONS" ≫= parse_u64 in
  let max_frame_bytes := default 1048576%Z (env "SODP_MAX_FRAME_BYTES" ≫= parse_u64) in
  let ws_ping_interval := default 25%Z (env "SODP_WS_PING_INTERVAL" ≫= parse_u64) in
  let rate_writes := env "SODP_RATE_WRITES_PER_SEC" ≫= parse_u32 in
  let rate_watches := env "SODP_RATE_WATCHES_PER_SEC" ≫= parse_u32 in
  let backpressure_limit :=
    default (Z.of_nat DEFAULT_BACKPRESSURE_LIMIT) (env "SODP_BACKPRESSURE_LIMIT" ≫= parse_u64) in
  (max_connections, max_frame_bytes, ws_ping_interval, rate_writes, rate_watches, backpressure_limit).

(** [pem.replace("\\n", "\n")]: a backslash and an n become a newline. *)
Fixpoint unescape_newlines (s : string) : string :=
  match s with
  | String a (String b s' as t) =>
      if Ascii.eqb a "\"%char && Ascii.eqb b "n"%char
      then String "010"%char (unescape_newlines s')
      else String a (unescape_newlines t)
  | _ => s
  end.

Definition read_jwt_config : option JwtConfig :=
  match env "SODP_JWT_PUBLIC_KEY" with
  | Some pem => Some (Rs256 (unescape_newlines pem))
  | None =>
      let fallback := Hs256 <$> env "SODP_JWT_SECRET" in
      match env "SODP_JWT_PUBLIC_KEY_FILE" with
      | Some path =>
          match read_file path with
          | Ok pem => Some (Rs256 pem)
          | Err _ => fallback
          end
      | None => fallback
      end
  end.
End Config.

(** Seconds until [exp], zero when past; [now] in seconds. *)
Definition exp_remaining (exp now : Z) : Z := if (now <? exp)%Z then (exp - now)%Z else 0%Z.

(** The sentinel of a timer that is switched off: a year. *)
Definition NEVER : Z := 365 * 24 * 3600.

Record Claims : Type := mkClaims {
  cl_sub : string;
  cl_exp : Z;
  cl_extra : list (string * Value);
}.

(** ** The accept loop *)

(** [Accept]: a TCP connection arrives; [Done]: a connection's task ends. *)
Inductive ListenEvent : Type := Accept | Done.

(** [connections] and the tasks that were spawned and have not ended. *)
Record Listener : Type := mkListener {
  l_connections : Z;
  l_tasks : nat;
}.

Definition listen_step (max_connections : option Z) (l : Listener) (ev : ListenEvent) : Listener :=
  match ev with
  | Accept =>
      if match max_connections with Some limit => (limit <=? l_connections l)%Z | None => false end
      then l
      else mkListener (l_connections l + 1) (S (l_tasks l))
  | Done =>
      match l_tasks l with
      | O => l
      | S n => mkListener (l_connections l - 1) n
      end
  end.

(** ** Inbound messages and the loop's events *)

Inductive InMsg : Type :=
| InBinary (bytes : list byte)
| InPing (data : list byte)
| InPong
| InClose
| InError                      (* [Some(Err(_))] *)
| InOther.                     (* text *)

Inductive Event : Type :=
| EvMessage (m : option InMsg)   (* [ws_rx.next()]; [None] at the end *)
| EvShutdown
| EvTokenExpiry
| EvTick
| EvSlowConsumer.

Section Connection.
Context `{EntryCodec, HashOrder, BodyCodec}.
Context (to_vec : Z * Z * Z * Value → result (list byte) string)
  (from_slice : list byte → result (Z * Z * Z * Value) string).
(** jsonwebtoken: keys and decoding (which checks the signature and [exp]). *)
Context {DecodingKey : Type} (from_secret : string → DecodingKey)
  (from_rsa_pem : string → result DecodingKey string)
  (jwt_decode : bool → DecodingKey → string → result Claims string).
(** Whether a direct send on the socket succeeds. *)
Context (sink : Message → bool).
Context (srv : SodpServer).

(** [true] is HS256, [false] RS256. *)
Definition validate_jwt (token : string) (config : JwtConfig) : result Claims string :=
  let? ka := match config with
             | Hs256 secret => Ok (from_secret secret, true)
             | Rs256 pem =>
                 match from_rsa_pem pem with
                 | Ok key => Ok (key, false)
                 | Err e => Err ("RS256 key error: " ++ e)
                 end
             end in
  match jwt_decode ka.2 ka.1 token with
  | Ok claims => Ok claims
  | Err e => Err ("JWT error: " ++ e)
  end.

(** Encode and send on the socket: an encoding error, or whether it was sent
    and everything sent so far. *)
Definition push (sent : list Message) (f : Frame) : result (bool * list Message) string :=
  match frame_encode to_vec f with
  | Err e => Err e
  | Ok b => Ok (if sink (MBinary b) then (true, (sent ++ [MBinary b])%list) else (false, sent))
  end.

(** Send an ERROR frame, then fail with [err]. *)
Definition reject (sent : list Message) (code : Z) (msg err : string)
    : list Message * result (Claims * list InMsg) string :=
  match push sent (error 0 0 code msg) with
  | Err e => (sent, Err e)
  | Ok (_, sent') => (sent', Err err)
  end.

(** The claims come with the messages that are left in the stream. *)
Fixpoint auth_handshake (config : JwtConfig) (msgs : list InMsg) (sent : list Message)
    : list Message * result (Claims * list InMsg) string :=
  match msgs with
  | [] => (sent, Err "connection closed before auth")
  | InBinary bytes :: msgs' =>
      if (c_max_frame_bytes srv <? Z.of_nat (length bytes))%Z
      then reject sent 413 "frame too large"
             ("frame too large during auth (" ++ to_dec 20 (Z.of_nat (length bytes)) "" ++ " B)")
      else match frame_decode from_slice bytes with
           | Err e => reject sent 401 "bad frame during auth" e
           | Ok frame =>
               if (frame_type frame =? types.HEARTBEAT)%Z then
                 match push sent heartbeat with
                 | Err e => (sent, Err e)
                 | Ok (_, sent') => auth_handshake config msgs' sent'
                 end
               else if (frame_type frame =? types.AUTH)%Z then
                 let token := default "" (get_str "token" (body frame)) in
                 match validate_jwt token config with
                 | Ok claims =>
                     match push sent (auth_ok (cl_sub claims)) with
                     | Err e => (sent, Err e)
                     | Ok (true, sent') => (sent', Ok (claims, msgs'))
                     | Ok (false, sent') => (sent', Err "send failed")
                     end
                 | Err e => let msg := "auth failed: " ++ e in reject sent 401 msg msg
                 end
               else reject sent 401 "auth required" "auth required — unexpected frame before AUTH"
           end
  | InPing _ :: msgs' =>
      match push sent heartbeat with
      | Err e => (sent, Err e)
      | Ok (_, sent') => auth_handshake config msgs' sent'
      end
  | (InClose | InError) :: _ => (sent, Err "connection closed before auth")
  | (InPong | InOther) :: msgs' => auth_handshake config msgs' sent
  end.

(** ** Opening a connection *)

Definition opt_u64 (n : option Z) : Value := match n with Some n => json_u64 n | None => VNull end.

Definition capabilities : Value :=
  json_object [("rate_limit_writes", opt_u64 (c_rate_writes srv));
               ("rate_limit_watches", opt_u64 (c_rate_watches srv));
               ("multi_watch", VBool true); ("params", VBool true); ("resume", VBool true);
               ("backpressure_limit", json_u64 (Z.of_nat (c_backpressure srv)))].

Definition authenticate (s : Session) (claims : Claims) : Session :=
  mkSession (s_id s) (Some (cl_sub claims)) (VObject (cl_extra claims)) (watches s) (presence s)
    (write_limiter s) (watch_limiter s) (next_stream_id s) (seq_counter s).

(** [handle_connection] up to the loop: what was sent and, unless the connection
    ended already, the session and the seconds until its token expires. *)
Definition open_connection (id : string) (now now_secs : Z) (msgs : list InMsg)
    : list Message * option (Session * Z) :=
  let session := session_new id (c_rate_writes srv) (c_rate_watches srv) now in
  match push [] (hello (match c_jwt_config srv with Some _ => true | None => false end) capabilities) with
  | Err _ => ([], None)
  | Ok (false, sent) => (sent, None)
  | Ok (true, sent) =>
      match c_jwt_config srv with
      | None => (sent, Some (session, NEVER))
      | Some config =>
          match auth_handshake config msgs sent with
          | (sent', Ok (claims, _)) =>
              (sent', Some (authenticate session claims, exp_remaining (cl_exp claims) now_secs))
          | (sent', Err _) => (sent', None)
          end
      end
  end.

(** ** The event loop *)

(** One turn: [None] breaks out of the loop, otherwise the new [awaiting_pong]. *)
Definition on_event (handle : nat) (awaiting_pong : bool) (ev : Event) (now1 now2 : Z) : M (option bool) :=
  match ev with
  | EvMessage (Some (InBinary bytes)) =>
      if (c_max_frame_bytes srv <? Z.of_nat (length bytes))%Z
      then send handle (OFrame (error 0 0 413 "frame too large"));; mret None
      else match frame_decode from_slice bytes with
           | Ok f => handle_frame srv handle f now1 now2;; mret (Some awaiting_pong)
           | Err _ => mret (Some awaiting_pong)
           end
  | EvMessage (Some (InPing data)) => send handle (OPong data);; mret (Some awaiting_pong)
  | EvMessage (Some InPong) => mret (Some false)
  | EvMessage (Some InClose) | EvMessage None | EvMessage (Some InError) => mret None
  | EvMessage (Some InOther) => mret (Some awaiting_pong)
  | EvShutdown => mret None
  | EvTokenExpiry => send handle (OFrame (error 0 0 401 "token expired"));; mret None
  | EvTick => if awaiting_pong then mret None else send handle OPing;; mret (Some true)
  | EvSlowConsumer => mret None
  end.

(** The loop over a schedule; each event comes with the clock's readings. *)
Fixpoint connection_loop (handle : nat) (awaiting_pong : bool) (evs : list (Event * Z * Z)) : M (option bool) :=
  match evs with
  | [] => mret (Some awaiting_pong)
  | (ev, now1, now2) :: evs' =>
      r ← on_event handle awaiting_pong ev now1 now2;
      match r with
      | None => mret None
      | Some awaiting => connection_loop handle awaiting evs'
      end
  end.

Inductive Outcome : Type :=
| Refused                      (* ended before the loop *)
| Running (c : Conn) (awaiting_pong : bool)
| Ended (c : Conn).

(** The whole of [handle_connection]; [handle] is the new write handle. *)
Definition handle_connection (id : string) (now now_secs : Z) (msgs : list InMsg)
    (handle : nat) (evs : list (Event * Z * Z)) (w : World) : Outcome :=
  match (open_connection id now now_secs msgs).2 with
  | None => Refused
  | Some (session, _) =>
      let net := make_handle (c_write_mode srv) (w_net w) handle (c_backpressure srv) in
      let c := mkConn session (mkWorld (w_state w) (w_fanout w) net (w_tasks w)) in
      match connection_loop handle false evs c with
      | (Some awaiting, c') => Running c' awaiting
      | (None, c') => Ended (end_session srv c').2
      end
  end.
End Connection.

(** ** The accept loop's bound *)

Definition listen_run (limit : option Z) (evs : list ListenEvent) (l : Listener) : Listener :=
  fold_left (listen_step limit) evs l.

Definition listener_ok (limit : option Z) (l : Listener) : Prop :=
  l_connections l = Z.of_nat (l_tasks l) ∧ (∀ n, limit = Some n → (l_connections l ≤ n)%Z).

Lemma listen_step_ok limit l ev : listener_ok limit l → listener_ok limit (listen_step limit l ev).
Proof.
  intros [Hc Hl]. destruct ev; cbn.
  - destruct limit as [n|]; [|split; cbn; [lia|done]].
    specialize (Hl n eq_refl). destruct (Z.leb_spec n (l_connections l)); split; cbn; try lia; intros m [= <-]; lia.
  - destruct (l_tasks l) eqn:E; [by split; rewrite ?E|]. split; cbn; [lia|]. intros m Hm. specialize (Hl m Hm). lia.
Qed.

(** The connection limit. Whatever sequence of accepts and task ends, the
    connection counter is the number of live connection tasks and never exceeds
    the configured limit. *)
Theorem listen_limit limit evs :
  (∀ n, limit = Some n → 0 ≤ n)%Z →
  let l := listen_run limit evs (mkListener 0 0) in
  l_connections l = Z.of_nat (l_tasks l) ∧ (∀ n, limit = Some n → (l_connections l ≤ n)%Z).
Proof.
  intros Hn. unfold listen_run. change (listener_ok limit (fold_left (listen_step limit) evs (mkListener 0 0))).
  assert (H0 : listener_ok limit (mkListener 0 0)) by (split; [done|apply Hn]).
  revert H0. generalize (mkListener 0 0) as l. induction evs as [|ev evs IH]; intros l Hl; [done|].
  by apply IH, listen_step_ok.
Qed.

Lemma listen_limit_witness :
  (l_connections (listen_run (Some 1%Z) [Accept; Accept; Done; Accept; Accept] (mkListener 0 0)) ≤ 1)%Z.
Proof.
  apply (listen_limit (Some 1%Z) [Accept; Accept; Done; Accept; Accept]); [|done].
  intros n [= <-]. lia.
Defined.

(** ** The loop *)

Section LoopFacts.
Context `{EntryCodec, HashOrder, BodyCodec}.
Context (to_vec : Z * Z * Z * Value → result (list byte) string)
  (from_slice : list byte → result (Z * Z * Z * Value) string).
Context {DecodingKey : Type} (from_secret : string → DecodingKey)
  (from_rsa_pem : string → result DecodingKey string)
  (jwt_decode : bool → DecodingKey → string → result Claims string).
Context (sink : Message → bool).
Context (srv : SodpServer) (handle : nat).

Abbreviation on_event := (on_event from_slice srv handle).
Abbreviation connection_loop := (connection_loop from_slice srv handle).

(** Only a pong resets the flag, only a tick sets it. *)
Lemma on_event_awaiting awaiting ev n1 n2 c :
  match (on_event awaiting ev n1 n2 c).1 with
  | Some a => a = match ev with EvMessage (Some InPong) => false | EvTick => true | _ => awaiting end
  | None => True
  end.
Proof.
  destruct ev as [[[]|]| | | |]; try done; cbn [Connection.on_event]; unfold mbind, M_bind.
  - destruct (_ <? _)%Z; [by destruct (send _ _ c)|].
    destruct (frame_decode _ _) as [f|]; [by destruct (handle_frame srv handle f n1 n2 c)|done].
  - by destruct (send _ _ c).
  - by destruct (send _ _ c).
  - destruct awaiting; [done|]. by destruct (send _ _ c).
Qed.

Lemma on_event_identity awaiting ev n1 n2 c :
  same_identity (c_session c) (c_session (on_event awaiting ev n1 n2 c).2).
Proof.
  assert (Hsend : ∀ m a, same_identity (c_session c) (c_session ((send handle m;; mret (M := M) a : M (option bool)) c).2)).
  { intros m a. unfold mbind, M_bind. pose proof (quiet_send handle m c) as [Hs _]. by destruct (send handle m c). }
  destruct ev as [[[]|]| | | |]; try done; cbn [Connection.on_event]; try apply Hsend.
  - destruct (_ <? _)%Z; [apply Hsend|]. destruct (frame_decode _ _) as [f|]; [|done].
    unfold mbind, M_bind. pose proof (handle_frame_grants srv handle f n1 n2 c) as [Hs _ _].
    by destruct (handle_frame srv handle f n1 n2 c).
  - destruct awaiting; [done|apply Hsend].
Qed.

Lemma connection_loop_identity awaiting evs c :
  same_identity (c_session c) (c_session (connection_loop awaiting evs c).2).
Proof.
  revert awaiting c. induction evs as [|[[ev n1] n2] evs IH]; intros awaiting c; [done|].
  cbn [Connection.connection_loop]. unfold mbind, M_bind.
  pose proof (on_event_identity awaiting ev n1 n2 c) as Hs.
  destruct (on_event awaiting ev n1 n2 c) as [[a|] c']; [|done]. by etrans; [exact Hs|].
Qed.

Definition not_pong (e : Event * Z * Z) : Prop := e.1.1 ≠ EvMessage (Some InPong).

(** C37. Zombie connections end. If no pong arrives between two ticks of the ping
    timer, the loop has ended by the second tick, whatever else happens in
    between. *)
Theorem ping_timeout awaiting evs t1 t2 t1' t2' c :
  Forall not_pong evs →
  (connection_loop awaiting ((EvTick, t1, t2) :: evs ++ [(EvTick, t1', t2')]) c).1 = None.
Proof.
  intros Hevs.
  assert (Hloop : ∀ c, (connection_loop true (evs ++ [(EvTick, t1', t2')]) c).1 = None).
  { clear c. induction Hevs as [|[[ev n1] n2] evs Hev Hevs IH]; intros c; [done|].
    cbn [app Connection.connection_loop]. unfold mbind, M_bind.
    pose proof (on_event_awaiting true ev n1 n2 c) as Ha.
    destruct (on_event true ev n1 n2 c) as [[a|] c']; [|done]. cbn in Ha.
    replace a with true; [apply IH|]. subst a. unfold not_pong in Hev. cbn in Hev.
    by destruct ev as [[[]|]| | | |]. }
  cbn [Connection.connection_loop]. unfold mbind, M_bind.
  pose proof (on_event_awaiting awaiting EvTick t1 t2 c) as Ha.
  destruct (on_event awaiting EvTick t1 t2 c) as [[a|] c']; [|done]. cbn in Ha. subst a. apply Hloop.
Qed.
End LoopFacts.

(** ** The end of a session *)

Section EndFacts.
Context `{EntryCodec, HashOrder, BodyCodec}.
Context (srv : SodpServer).

(** One turn of the cleanup: the session stays, one key may lose a path. *)
Definition cleaned (e : PresenceEntry) (c : Conn) : Conn := (presence_cleanup srv [e] c).2.

Lemma presence_cleanup_cons e es c :
  (presence_cleanup srv (e :: es) c).2 = (presence_cleanup srv es (cleaned e c)).2.
Proof.
  unfold cleaned. cbn [presence_cleanup]. unfold mbind, M_bind. cbn [get_world].
  match goal with |- context [let '(a, c') := ?m in _] => destruct m as [[] c'] end. done.
Qed.

Lemma cleaned_spec e c :
  same_identity (c_session c) (c_session (cleaned e c)) ∧
  presence (c_session (cleaned e c)) = presence (c_session c) ∧
  ∀ k, store_value (w_state (c_world (cleaned e c))) k =
       if decide (k = p_state_key e) then
         match store_get (w_state (c_world c)) k with
         | Some x => json_remove_in (se_value x) (p_path e)
         | None => VNull
         end
       else store_value (w_state (c_world c)) k.
Proof.
  set (st := w_state (c_world c)). unfold cleaned. cbn [presence_cleanup]. unfold mbind, M_bind, get_world. fold st.
  destruct (store_get st (p_state_key e)) as [x|] eqn:Ex.
  2:{ split_and!; [done..|]. intros k. cbn. fold st. case_decide as Hk; [|done]. subst k.
      unfold store_value. by rewrite Ex. }
  set (v := json_remove_in (se_value x) (p_path e)). unfold state_apply. fold st.
  pose proof (store_value_apply st (p_state_key e) v) as Hv.
  pose proof (λ k, store_value_other st (p_state_key e) v k) as Ho.
  destruct (store_apply st (p_state_key e) v) as [[version ops] st']. cbn [snd] in Hv, Ho.
  assert (Hval : ∀ k, store_value st' k = if decide (k = p_state_key e) then
    match store_get st k with Some x => json_remove_in (se_value x) (p_path e) | None => VNull end
    else store_value st k).
  { intros k. case_decide as Hk; [|by apply Ho]. subst k. by rewrite Ex. }
  destruct ops as [|o ops]; [done|].
  set (c1 := mkConn (c_session c) _).
  pose proof (quiet_broadcast (p_state_key e) (encode_delta_body version (o :: ops)) None c1) as [_ Hb].
  assert (Hbs : c_session (broadcast_timed (p_state_key e) (encode_delta_body version (o :: ops)) None c1).2 = c_session c)
    by (unfold broadcast_timed; by destruct (broadcast_encoded _ _ _ _ _)).
  destruct (broadcast_timed _ _ None c1) as [[] c2]. cbn [snd] in Hb, Hbs.
  assert (Hc : ∀ t, c_session (cluster_task srv t c2).2 = c_session c ∧ w_state (c_world (cluster_task srv t c2).2) = st').
  { intros t. unfold cluster_task. by destruct (c_cluster srv). }
  specialize (Hc (TSync (p_state_key e) version v (encode_delta_body version (o :: ops)))).
  destruct (cluster_task srv _ c2) as [[] c3]. cbn in *. destruct Hc as [-> ->]. done.
Qed.

Lemma presence_cleanup_session es c :
  same_identity (c_session c) (c_session (presence_cleanup srv es c).2).
Proof.
  revert c. induction es as [|e es IH]; intros c; [done|]. rewrite presence_cleanup_cons.
  etrans; [apply (cleaned_spec e c)|apply IH].
Qed.

Lemma end_session_identity c : same_identity (c_session c) (c_session (end_session srv c).2).
Proof.
  unfold end_session. run_m. pose proof (presence_cleanup_session (presence (c_session c)) c) as Hs.
  by destruct (presence_cleanup srv _ c) as [[] c'].
Qed.

(** Nothing at the path of the entry; nothing at all for the root path. *)
Definition path_gone (path : string) (v : Value) : Prop :=
  if String.eqb path "" || String.eqb path "/" then v = VNull
  else str_starts_with slash path = true → value_at (path_parts path) v = None.

Lemma path_gone_null path : path_gone path VNull.
Proof.
  unfold path_gone. case_goal; [done|]. intros _. apply value_at_null.
  unfold path_parts. by destruct (str_split_cons slash (str_trim_start_matches slash path)) as (? & ? & ->).
Qed.

Lemma path_gone_remove path v : path_gone path (json_remove_in v path).
Proof.
  unfold path_gone, json_remove_in. destruct (_ || _); [done|]. intros ->. cbn.
  unfold path_parts. destruct (str_split_cons slash (str_trim_start_matches slash path)) as (part & rest & ->).
  apply value_at_remove_in.
Qed.

(** Removing another path brings nothing back. *)
Lemma value_at_remove_none q v part rest :
  value_at q v = None → value_at q (remove_in_recursive v part rest) = None.
Proof.
  revert v part rest. induction q as [|k q IH]; intros v part rest; [done|]. cbn [value_at].
  rewrite value_get_remove_in. case_decide as Hk; [subst|done].
  destruct rest as [|next rest]; [done|]. destruct (value_get part v) as [x|]; [|done]. cbn. apply IH.
Qed.

Lemma path_gone_remove_other path path' v : path_gone path v → path_gone path (json_remove_in v path').
Proof.
  intros Hv. unfold json_remove_in. destruct (_ || _); [apply path_gone_null|].
  destruct (negb _); [done|]. destruct (path_parts path') as [|part rest]; [done|].
  unfold path_gone in *. destruct (_ || _); [by subst v; destruct rest|].
  intros Hs. by apply value_at_remove_none, Hv.
Qed.

Lemma cleaned_gone e c : path_gone (p_path e) (store_value (w_state (c_world (cleaned e c))) (p_state_key e)).
Proof.
  destruct (cleaned_spec e c) as (_ & _ & ->). rewrite decide_True by done.
  destruct (store_get _ _); [apply path_gone_remove|apply path_gone_null].
Qed.

Lemma cleanup_keeps_gone es key path c :
  path_gone path (store_value (w_state (c_world c)) key) →
  path_gone path (store_value (w_state (c_world (presence_cleanup srv es c).2)) key).
Proof.
  revert c. induction es as [|e es IH]; intros c Hg; [done|]. rewrite presence_cleanup_cons. apply IH.
  destruct (cleaned_spec e c) as (_ & _ & ->). case_decide; [|done].
  unfold store_value in Hg. destruct (store_get (w_state (c_world c)) key); [|apply path_gone_null].
  by apply path_gone_remove_other.
Qed.

Lemma cleanup_gone es e c :
  e ∈ es → path_gone (p_path e) (store_value (w_state (c_world (presence_cleanup srv es c).2)) (p_state_key e)).
Proof.
  revert c. induction es as [|e' es IH]; intros c Hin; [by apply not_elem_of_nil in Hin|].
  rewrite presence_cleanup_cons. apply elem_of_cons in Hin as [->|Hin]; [|by apply IH].
  apply cleanup_keeps_gone, cleaned_gone.
Qed.

(** C24. A session leaves no trace. When a connection ends, nothing is left in the
    store at any presence path the session had registered (the root path: the
    key is null), nothing else is written to other keys, and no subscription of
    the session remains on the bus. *)
Theorem end_session_clean c :
  let w' := c_world (end_session srv c).2 in
  (∀ e, e ∈ presence (c_session c) → path_gone (p_path e) (store_value (w_state w') (p_state_key e))) ∧
  (∀ k, k ∉ p_state_key <$> presence (c_session c) → store_value (w_state w') k = store_value (w_state (c_world c)) k) ∧
  (∀ k sub, sub ∈ subs_of (w_fanout w') k → session_id sub ≠ s_id (c_session c)).
Proof.
  unfold end_session. run_m. set (es := presence (c_session c)).
  pose proof (λ e, cleanup_gone es e c) as Hg.
  assert (Hk : ∀ k, k ∉ p_state_key <$> es →
    store_value (w_state (c_world (presence_cleanup srv es c).2)) k = store_value (w_state (c_world c)) k).
  { intros k. clear Hg. generalize es as l. intros l. clear es. revert c. induction l as [|e l IH]; intros c Hk; [done|].
    rewrite presence_cleanup_cons. rewrite fmap_cons, not_elem_of_cons in Hk. rewrite IH by tauto.
    destruct (cleaned_spec e c) as (_ & _ & ->). by rewrite decide_False by tauto. }
  destruct (presence_cleanup srv es c) as [[] c']. cbn in *. split_and!; [done..|].
  intros k sub [_ Hs]%elem_of_remove_session. done.
Qed.
End EndFacts.

(** ** Authentication *)

Section AuthFacts.
Context `{EntryCodec, HashOrder, BodyCodec}.
Context (to_vec : Z * Z * Z * Value → result (list byte) string)
  (from_slice : list byte → result (Z * Z * Z * Value) string).
Context {DecodingKey : Type} (from_secret : string → DecodingKey)
  (from_rsa_pem : string → result DecodingKey string)
  (jwt_decode : bool → DecodingKey → string → result Claims string).
Context (sink : Message → bool).
Context (srv : SodpServer).

Abbreviation validate_jwt := (validate_jwt from_secret from_rsa_pem jwt_decode).
Abbreviation auth_handshake := (auth_handshake to_vec from_slice from_secret from_rsa_pem jwt_decode sink srv).

(** Messages that may precede AUTH. *)
Definition idle (m : InMsg) : Prop :=
  match m with
  | InBinary bytes => (Z.of_nat (length bytes) ≤ c_max_frame_bytes srv)%Z ∧
      ∃ f, frame_decode from_slice bytes = Ok f ∧ frame_type f = types.HEARTBEAT
  | InPing _ | InPong | InOther => True
  | InClose | InError => False
  end.

(** The stream carries an AUTH frame with [token] before any other request. *)
Definition presented (msgs : list InMsg) (token : string) : Prop := ∃ pre bytes post f,
  msgs = (pre ++ InBinary bytes :: post)%list ∧ Forall idle pre ∧
  (Z.of_nat (length bytes) ≤ c_max_frame_bytes srv)%Z ∧
  frame_decode from_slice bytes = Ok f ∧ frame_type f = types.AUTH ∧
  token = default "" (get_str "token" (body f)).

Lemma presented_cons m msgs token : idle m → presented msgs token → presented (m :: msgs) token.
Proof.
  intros Hm (pre & bytes & post & f & -> & Hp & Hf). exists (m :: pre), bytes, post, f.
  split; [done|]. split; [by constructor|done].
Qed.

Lemma reject_fails sent code msg err s r : reject to_vec sink sent code msg err ≠ (s, Ok r).
Proof. unfold reject. by destruct (push to_vec sink sent _) as [[]|]. Qed.

Lemma handshake_sound config msgs sent sent' claims rest :
  auth_handshake config msgs sent = (sent', Ok (claims, rest)) →
  ∃ token, presented msgs token ∧ validate_jwt token config = Ok claims.
Proof.
  revert sent. induction msgs as [|m msgs IH]; intros sent; [done|]. cbn [Connection.auth_handshake].
  assert (Hskip : idle m → ∀ s, auth_handshake config msgs s = (sent', Ok (claims, rest)) →
    ∃ token, presented (m :: msgs) token ∧ validate_jwt token config = Ok claims).
  { intros Hm s (token & Ht & Hv)%IH. exists token. split; [by apply presented_cons|done]. }
  destruct m as [bytes| | | | |]; try done; try (by apply Hskip).
  - destruct (_ <? _)%Z eqn:El; [by intros ?%reject_fails|]. bool_to_prop.
    destruct (frame_decode from_slice bytes) as [f|] eqn:Ef; [|by intros ?%reject_fails].
    destruct (frame_type f =? types.HEARTBEAT)%Z eqn:Et; bool_to_prop.
    { destruct (push to_vec sink sent heartbeat) as [[? s]|]; [|done]. apply Hskip. split; [done|]. by exists f. }
    destruct (frame_type f =? types.AUTH)%Z eqn:Ea; bool_to_prop; [|by intros ?%reject_fails].
    destruct (validate_jwt _ config) as [cl|] eqn:Ev; [|by intros ?%reject_fails].
    destruct (push to_vec sink sent _) as [[[] s]|]; try done. intros [= _ <- _].
    eexists. split; [|exact Ev]. exists [], bytes, msgs, f. done.
  - destruct (push to_vec sink sent heartbeat) as [[? s]|]; [|done]. by apply Hskip.
Qed.

Lemma push_ok sent f :
  (∀ x, ∃ b, to_vec x = Ok b) → (∀ m, sink m = true) → ∃ sent', push to_vec sink sent f = Ok (true, sent').
Proof.
  intros Hv Hs. unfold push, frame_encode. destruct (Hv (frame_type f, stream_id f, seq f, body f)) as [b ->].
  rewrite Hs. eauto.
Qed.

Lemma handshake_complete config msgs sent token claims :
  (∀ x, ∃ b, to_vec x = Ok b) → (∀ m, sink m = true) →
  presented msgs token → validate_jwt token config = Ok claims →
  ∃ sent' rest, auth_handshake config msgs sent = (sent', Ok (claims, rest)).
Proof.
  intros Hv Hs (pre & bytes & post & f & -> & Hp & Hl & Hf & Ht & ->) Hj.
  revert sent. induction Hp as [|m pre Hm _ IH]; intros sent; cbn [app Connection.auth_handshake].
  - rewrite (proj2 (Z.ltb_ge _ _) Hl), Hf, Ht. cbn [Z.eqb]. change (types.AUTH =? types.HEARTBEAT)%Z with false.
    change (types.AUTH =? types.AUTH)%Z with true. cbn. rewrite Hj.
    destruct (push_ok sent (auth_ok (cl_sub claims)) Hv Hs) as [sent' ->]. eauto.
  - destruct (push_ok sent heartbeat Hv Hs) as [sent' Hh].
    destruct m as [b| | | | |]; try done; [|rewrite Hh; apply IH|apply IH..].
    destruct Hm as (Hl' & g & -> & Hg). rewrite (proj2 (Z.ltb_ge _ _) Hl'), Hg.
    change (types.HEARTBEAT =? types.HEARTBEAT)%Z with true. cbn. rewrite Hh. apply IH.
Qed.

Lemma open_authenticated config id now secs msgs s ttl :
  c_jwt_config srv = Some config →
  (open_connection to_vec from_slice from_secret from_rsa_pem jwt_decode sink srv id now secs msgs).2 = Some (s, ttl) →
  ∃ token claims, presented msgs token ∧ validate_jwt token config = Ok claims ∧
    s_sub s = Some (cl_sub claims) ∧ s_claims s = VObject (cl_extra claims) ∧
    ttl = exp_remaining (cl_exp claims) secs.
Proof.
  intros Hc. unfold open_connection. rewrite Hc. destruct (push _ _ _ _) as [[[] sent]|]; try done.
  destruct (auth_handshake config msgs sent) as [sent' [[claims rest]|]] eqn:E; [|done].
  intros [= <- <-]. apply handshake_sound in E as (token & ? & ?). by exists token, claims.
Qed.

(** C18. The authentication gate. With JWT configured and a working socket, a
    connection gets past the handshake exactly when its first request (after
    heartbeats, pings and the like) is an AUTH frame, within the size limit,
    whose token the JWT library accepts under the configured key. *)
Theorem auth_gate config id now secs msgs :
  c_jwt_config srv = Some config → (∀ x, ∃ b, to_vec x = Ok b) → (∀ m, sink m = true) →
  is_Some (open_connection to_vec from_slice from_secret from_rsa_pem jwt_decode sink srv id now secs msgs).2 ↔
  ∃ token claims, presented msgs token ∧ validate_jwt token config = Ok claims.
Proof.
  intros Hc Hv Hs. split.
  - intros [[s ttl] (token & claims & ? & ? & _)%(open_authenticated config)]; [eauto|done].
  - intros (token & claims & Hp & Hj). unfold open_connection. rewrite Hc.
    destruct (push_ok [] (hello true (capabilities srv)) Hv Hs) as [sent ->].
    destruct (handshake_complete config msgs sent token claims Hv Hs Hp Hj) as (sent' & rest & ->). eauto.
Qed.

(** C23. A session is who its token says. With JWT configured, at every point of a
    connection's life past the handshake the session's [sub] and claims, which
    every access check uses, are those of a token that was presented on this
    connection and accepted. *)
Theorem session_identity config id now secs msgs handle evs w c :
  c_jwt_config srv = Some config →
  (let out := handle_connection to_vec from_slice from_secret from_rsa_pem jwt_decode sink srv
                id now secs msgs handle evs w in
   (∃ awaiting, out = Running c awaiting) ∨ out = Ended c) →
  ∃ token claims, presented msgs token ∧ validate_jwt token config = Ok claims ∧
    s_sub (c_session c) = Some (cl_sub claims) ∧ s_claims (c_session c) = VObject (cl_extra claims).
Proof.
  intros Hc. unfold handle_connection.
  destruct (open_connection _ _ _ _ _ _ _ _ _ _ _).2 as [[s ttl]|] eqn:Eo; [|intros [[? ?]|?]; done].
  destruct (open_authenticated _ _ _ _ _ _ _ Hc Eo) as (token & claims & Hp & Hj & Hsub & Hcl & _).
  set (c0 := mkConn s _). pose proof (connection_loop_identity from_slice srv handle false evs c0) as (_ & Hs1 & Hs2).
  destruct (connection_loop from_slice srv handle false evs c0) as [[a|] c1]; cbn in Hs1, Hs2.
  - intros [[? [= <- _]]|?]; [|done]. exists token, claims. split_and!; [done..|congruence|congruence].
  - intros [[? ?]|[= <-]]; [done|]. destruct (end_session_identity srv c1) as (_ & Hs3 & Hs4).
    exists token, claims. split_and!; [done..|congruence|congruence].
Qed.
End AuthFacts.

(** ** Concrete instances *)

Module ConnectionExamples.
Export ServerExamples.

(** Byte 0b is an AUTH frame with token "t", byte 09 a heartbeat. *)
Definition ex_from_slice (b : list byte) : result (Z * Z * Z * Value) string :=
  match b with
  | [x0b] => Ok (types.AUTH, 0, 0, VObject [("token", VString "t")])%Z
  | [x09] => Ok (types.HEARTBEAT, 0, 0, VNull)%Z
  | _ => Err "bad frame"
  end.
Definition ex_to_vec (x : Z * Z * Z * Value) : result (list byte) string := Ok [as_u8 x.1.1.1].
Definition ex_jwt (_ : bool) (key token : string) : result Claims string :=
  if String.eqb key "k" && String.eqb token "t" then Ok (mkClaims "alice" 100 []) else Err "InvalidSignature".
Definition ex_server : SodpServer := mkServer None None (Some (Hs256 "k")) None 16 25 None None false 8 ModeTask.
Definition ex_msgs : list InMsg := [InBinary [x09]; InBinary [x0b]].

Definition ex_out : Outcome :=
  handle_connection ex_to_vec ex_from_slice (λ s, s) (λ _, Err "no key") ex_jwt (λ _, true) ex_server
    "s1" 0 40 ex_msgs 0 [(EvTick, 0, 0)%Z] world0.
Definition ex_conn : Conn := match ex_out with Running c _ => c | _ => conn0 end.
End ConnectionExamples.
Import ConnectionExamples.

Lemma ping_timeout_witness :
  (connection_loop ex_from_slice ex_server 0 false [(EvTick, 0, 0); (EvMessage (Some InOther), 1, 1); (EvTick, 2, 2)]%Z conn0).1 = None.
Proof.
  apply (ping_timeout ex_from_slice ex_server 0 false [(EvMessage (Some InOther), 1, 1)]%Z 0 0 2 2 conn0).
  by repeat constructor.
Defined.

Lemma auth_gate_witness :
  is_Some (open_connection ex_to_vec ex_from_slice (λ s, s) (λ _, Err "no key") ex_jwt (λ _, true) ex_server
             "s1" 0 40 ex_msgs).2.
Proof.
  apply (auth_gate ex_to_vec ex_from_slice (λ s, s) (λ _, Err "no key") ex_jwt (λ _, true) ex_server (Hs256 "k"));
    [done|eauto|done|].
  exists "t", (mkClaims "alice" 100 []). split; [|done].
  exists [InBinary [x09]], [x0b], [], (mkFrame types.AUTH 0 0 (VObject [("token", VString "t")])).
  split_and!; [done| |by cbn|done..]. constructor; [|constructor]. split; [by cbn|]. by eexists.
Defined.

Lemma session_identity_witness : s_sub (c_session ex_conn) = Some "alice".
Proof.
  destruct (session_identity ex_to_vec ex_from_slice (λ s, s) (λ _, Err "no key") ex_jwt (λ _, true) ex_server
    (Hs256 "k") "s1" 0 40 ex_msgs 0 [(EvTick, 0, 0)%Z] world0 ex_conn) as (token & claims & Hp & Hv & -> & _).
  - done.
  - left. exists true. vm_compute. done.
  - revert Hv. unfold validate_jwt, ex_jwt. cbn. destruct (String.eqb token "t"); [|done]. by intros [= <-].
Defined.

(** Authentication fails open. When the configured public key file cannot be
    read and no shared secret is set, the server runs without authentication:
    every connection is accepted as an anonymous session. *)
Theorem jwt_config_fails_open env read_file path :
  env "SODP_JWT_PUBLIC_KEY" = None → env "SODP_JWT_SECRET" = None →
  env "SODP_JWT_PUBLIC_KEY_FILE" = Some path → is_ok (read_file path) = false →
  read_jwt_config env read_file = None.
Proof.
  intros H1 H2 H3 Hf. unfold read_jwt_config. rewrite H1, H2, H3. by destruct (read_file path).
Qed.

Lemma jwt_config_fails_open_witness :
  read_jwt_config (λ k, if String.eqb k "SODP_JWT_PUBLIC_KEY_FILE" then Some "/key.pem" else None)
    (λ _, Err "permission denied") = None.
Proof. by apply (jwt_config_fails_open _ _ "/key.pem"). Defined.
