(* ===== verification/ServerSystem.v ===== *)
(** * The whole server: connections come and go

    A transition system of one node: connections open, process frames, have
    their queued messages delivered and end, in any order and number.  In every
    reachable state each live subscription's client is in sync with the store. *)

From S2P Require Import Prelude RustStr Json JsonPath Delta Schema Acl Frame Log Store Session WritePool Fanout Cluster Server ServerLogic ServerSafety ServerWatch Connection.

Local Open Scope string_scope.

(** ** Presence removal keeps values addressable *)

Lemma keys_ok_spec m :
  keys_ok (VObject m) = true ↔ ∀ k v, (k, v) ∈ m → key_ok k = true ∧ keys_ok v = true.
Proof.
  cbn [keys_ok]. rewrite forallb_forall. split.
  - intros Hm k v Hin. apply list_elem_of_In, Hm in Hin. cbn in Hin. bool_to_prop. done.
  - intros Hm [k v] Hin. apply list_elem_of_In in Hin. destruct (Hm k v Hin) as [H1 H2]. cbn. by rewrite H1, H2.
Qed.

Lemma remove_in_keys_ok node part rest :
  keys_ok node = true → keys_ok (remove_in_recursive node part rest) = true.
Proof.
  revert node part. induction rest as [|next rest IH]; intros [| | | | |m] part Hn; try done;
    cbn [remove_in_recursive]; rewrite keys_ok_spec in Hn.
  - apply keys_ok_spec. intros k v Hin%bt_elem_remove. by apply Hn.
  - destruct (bt_get part m) as [child|] eqn:E; apply keys_ok_spec; intros k v.
    + destruct (Hn part child (bt_get_elem _ _ _ E)).
      intros [[= -> ->]|Hin%bt_elem_remove]%bt_elem_insert; [auto|by apply Hn].
    + intros Hin%bt_elem_remove. by apply Hn.
Qed.

Lemma json_remove_in_safe v path :
  pointer_safe v = true → pointer_safe (json_remove_in v path) = true.
Proof.
  unfold pointer_safe, json_remove_in. intros Hv. destruct (_ || _); [done|].
  destruct (negb _); [done|]. destruct (path_parts path) as [|part rest]; [done|].
  bool_to_prop. rewrite remove_in_keys_ok by done. cbn [andb].
  destruct v as [| | | | |m]; try (by destruct rest). cbn [value_get] in *.
  destruct (bt_get "" m) eqn:E; [done|].
  destruct rest as [|next rest]; cbn [remove_in_recursive value_get].
  - rewrite bt_get_remove. by case_decide; rewrite ?E.
  - destruct (bt_get part m) as [child|] eqn:Ep; cbn [value_get].
    + assert (part ≠ "") by congruence.
      rewrite bt_get_insert_ne, bt_get_remove by done. by case_decide; rewrite ?E.
    + rewrite bt_get_remove. by case_decide; rewrite ?E.
Qed.

Lemma json_remove_in_wf v path : wf_value v = true → wf_value (json_remove_in v path) = true.
Proof.
  intros Hv. unfold json_remove_in. destruct (_ || _); [done|]. destruct (negb _); [done|].
  destruct (path_parts path); [done|]. by apply remove_in_wf.
Qed.

(** ** The end of a session *)

Section EndSession.
Context `{EntryCodec, HashOrder, BodyCodec, BodyDecoder, !BodyLaw}.
Context (srv : SodpServer) (seen : nat → Z → Value) (h : nat) (others : Conns).

Abbreviation Jok := (Jok seen h others).
Abbreviation J := (J seen h others).

(** A broadcast to everybody. *)
Lemma J_broadcast_all key b f f' c :
  (∀ x, x ≡ f key → apply_body x b ≡ f' key) → (∀ k, k ≠ key → f k = f' k) →
  J (seeing f) c → J (seeing f') (broadcast_timed key b None c).2.
Proof.
  intros Hb Hf Hj. unfold broadcast_timed.
  pose proof (sys_broadcast seen (seeing f) (seeing f') _ (c_world c) key b None Hj) as Hs.
  destruct (broadcast_encoded _ _ key b None) as [bus net]. cbn in Hs. apply Hs.
  intros sub k v Hsub [= <-]. destruct (decide _) as [[-> _]|Hno]; [unfold seeing; eauto|].
  unfold seeing. rewrite Hf; [done|]. intros ->. by apply Hno.
Qed.

Lemma Jok_cleanup entries c :
  Jok c → (st_version (w_state (c_world c)) + Z.of_nat (length entries) ≤ u64_max)%Z →
  Jok (presence_cleanup srv entries c).2.
Proof.
  revert c. induction entries as [|e entries IH]; intros c Hj Hm; [done|].
  cbn [presence_cleanup length] in *. unfold mbind, M_bind, get_world.
  set (st := w_state (c_world c)) in *. set (key := p_state_key e).
  destruct (store_get st key) as [x|] eqn:Ex; [|apply IH; [done|fold st; lia]].
  pose proof (so_store seen _ _ _ Hj) as Hi. pose proof (so_safe seen _ _ _ Hj) as Hs. fold st in Hi, Hs.
  assert (Hx : store_value st key = se_value x) by (unfold store_value; by rewrite Ex).
  set (v := json_remove_in (se_value x) (p_path e)).
  assert (Hwf : wf_value v = true) by (apply json_remove_in_wf; rewrite <- Hx; by apply store_value_wf).
  assert (Hsafe : pointer_safe v = true) by (apply json_remove_in_safe; rewrite <- Hx; apply Hs).
  pose proof (store_apply_inv st key v Hi Hwf ltac:(lia)) as Hi'.
  pose proof (λ k, store_value_other st key v k) as Hother.
  pose proof (store_apply_result st key v) as Hr. pose proof (store_value_apply st key v) as Hv.
  pose proof (store_apply_version st key v) as Hver. rewrite u64_add_small in Hver by (pose proof (si_version st Hi); lia).
  unfold state_apply. fold st. destruct (store_apply st key v) as [[version ops] st']. cbn [fst snd] in *.
  injection Hr as _ ->.
  assert (Hs' : ∀ k, pointer_safe (store_value st' k) = true).
  { intros k. destruct (decide (k = key)) as [->|Hne]; [by rewrite Hv|]. rewrite Hother by done. apply Hs. }
  assert (Hj1 : J (seeing (store_value st)) (mkConn (c_session c) (with_state (c_world c) st')))
    by (by apply J_store).
  assert (Hj2 : apply_emits st key v = [] → J (seeing (store_value st')) (mkConn (c_session c) (with_state (c_world c) st'))).
  { intros Hn. apply (sys_tgt seen (seeing (store_value st))); [done|]. intros sub k y Hsub [= <-].
    eexists. split; [done|]. destruct (decide (k = key)) as [->|Hne]; [|by rewrite Hother].
    rewrite Hv, Hx. apply (apply_emits_nil st key v Hi Hwf) in Hn as (e' & He' & ?). congruence. }
  destruct (apply_emits st key v) as [|op ops] eqn:Eops; [apply IH; [by apply Hj2|cbn; lia]|].
  pose proof (J_broadcast_all key (encode_delta_body version (op :: ops)) (store_value st) (store_value st')
    (mkConn (c_session c) (with_state (c_world c) st'))) as Hb.
  pose proof (quiet_broadcast key (encode_delta_body version (op :: ops)) None
    (mkConn (c_session c) (with_state (c_world c) st'))) as [_ Hst].
  unfold with_state in *. destruct (broadcast_timed key _ None _) as [[] c2]. cbn [fst snd] in *.
  assert (Hjb : Jok c2).
  { unfold ServerWatch.Jok. rewrite Hst. apply Hb; [|intros k Hk; by rewrite Hother|done].
    intros y Hy. rewrite apply_body_encode, Hv, Hy, <- Eops. by apply apply_emits_sound. }
  pose proof (Jok_quiet seen h others _ (quiet_cluster_task srv (TSync key version v (encode_delta_body version (op :: ops))))
    (λ tgt, J_cluster srv seen h others tgt _) c2 Hjb) as Hjc.
  pose proof (quiet_cluster_task srv (TSync key version v (encode_delta_body version (op :: ops))) c2) as [_ Hst2].
  destruct (cluster_task srv _ c2) as [[] c3]. cbn [fst snd] in *.
  apply IH; [done|]. rewrite Hst2, Hst. cbn. lia.
Qed.

(** Removing an ended connection. *)
Lemma sys_remove tgt conns w s :
  sys_with seen tgt conns w → conns !! h = Some s →
  sys_with seen tgt (delete h conns)
    (mkWorld (w_state w) (remove_session (w_fanout w) (s_id s)) (w_net w) (w_tasks w)).
Proof.
  intros Hi Hh. pose proof (λ k sub, so_owner seen tgt conns w k sub h s Hi Hh) as Hown.
  destruct Hi as [I1 I2 I3 I4 I5 I6 I7 I8 I9 I10]. split; cbn; try done.
  - intros h' s' [_ Hc]%lookup_delete_Some. eauto.
  - intros h1 h2 s1 s2 [_ Hc1]%lookup_delete_Some [_ Hc2]%lookup_delete_Some. eauto.
  - intros h' s' [_ Hc]%lookup_delete_Some. eauto.
  - intros h' s' i j wi wj [_ Hc]%lookup_delete_Some. eauto.
  - intros k sub [Hin Hne]%elem_of_remove_session. destruct (I7 k sub Hin) as (t & wt & Hc & Hrest).
    exists t, wt. split; [|done]. rewrite lookup_delete_ne; [done|]. intros E. by apply Hne, (Hown k sub Hin).
  - intros k. rewrite remove_session_filter. by apply NoDup_ListNoDup, List.NoDup_filter, NoDup_ListNoDup.
  - intros k sub v [Hin _]%elem_of_remove_session. by apply I9.
  - intros h' s' sid wt [Hne Hc]%lookup_delete_Some Hwt. destruct (I10 h' s' sid wt Hc Hwt) as [?|Hin]; [by left|right].
    apply elem_of_remove_session. split; [done|]. cbn. intros E. by apply Hne, (I4 h h' s s').
Qed.

Lemma end_session_ok c :
  Jok c → (st_version (w_state (c_world c)) + Z.of_nat (length (presence (c_session c))) ≤ u64_max)%Z →
  sys_ok seen (delete h others) (c_world (end_session srv c).2).
Proof.
  intros Hj Hm. pose proof (Jok_cleanup (presence (c_session c)) c Hj Hm) as Hc.
  pose proof (presence_cleanup_session srv (presence (c_session c)) c) as (Hid & _).
  unfold end_session. run_m. destruct (presence_cleanup srv _ c) as [[] c']. cbn in *.
  rewrite <- (delete_insert_eq others h (c_session c')), <- Hid.
  apply (sys_remove (seeing (store_value (w_state (c_world c')))) _ (c_world c')); [exact Hc|apply lookup_insert_eq].
Qed.
End EndSession.

(** ** Network steps *)

Section Network.
Context `{BodyDecoder}.

(** The writer of [h] takes the oldest message and feeds it to the socket. *)
Definition take_oldest (wh : WriteHandle) (q : list OutboundMsg) (wire : list Message) : WriteHandle :=
  mkHandle (h_cancelled wh)
    (match h_inner wh with Task => Task | InPool b p => InPool b (p - 1) end)
    q (h_backpressure wh) (h_rx_open wh) wire.

(** The receiver is dropped: nothing is delivered any more, sends fail. *)
Definition close_rx (wh : WriteHandle) : WriteHandle :=
  mkHandle (h_cancelled wh) (h_inner wh) (h_queue wh) (h_backpressure wh) false (h_wire wh).

Definition receive (seen : nat → Z → Value) (h : nat) (m : OutboundMsg) : nat → Z → Value :=
  λ r sid, if decide (r = h) then client_step sid (seen r sid) m else seen r sid.

(** A network step that changes no client's eventual view. *)
Lemma sys_net seen seen' tgt conns w net' :
  sys_with seen tgt conns w →
  (∀ r, is_Some (handles (w_net w) !! r) → is_Some (handles net' !! r)) →
  (∀ r, cancelled_of (w_net w) r = true → cancelled_of net' r = true) →
  (∀ r sid, is_Some (handles (w_net w) !! r) →
     client_view (seen' r sid) sid (queue_of net' r) = client_view (seen r sid) sid (queue_of (w_net w) r)) →
  sys_with seen' tgt conns (with_net w net').
Proof.
  intros [I1 I2 I3 I4 I5 I6 I7 I8 I9 I10] Hk Hc Hv. split; cbn; try done.
  - intros h s Hh. eauto.
  - intros k sub v Hin Ht. destruct (I9 k sub v Hin Ht) as [?|Hview]; [left; auto|right].
    destruct (I7 k sub Hin) as (s & wt & Hs & _). rewrite Hv; [done|by eapply I3].
  - intros h s sid wt Hs Hwt. destruct (I10 h s sid wt Hs Hwt) as [?|?]; auto.
Qed.

Lemma sys_deliver seen tgt conns w h wh m q wire :
  sys_with seen tgt conns w → handles (w_net w) !! h = Some wh → h_queue wh = m :: q →
  sys_with (receive seen h m) tgt conns (with_net w (with_handle (w_net w) h (take_oldest wh q wire))).
Proof.
  intros Hi Hh Hq.
  assert (Hl : ∀ r, r ≠ h → handles (with_handle (w_net w) h (take_oldest wh q wire)) !! r = handles (w_net w) !! r)
    by (intros; by apply lookup_insert_ne).
  assert (Hs : handles (with_handle (w_net w) h (take_oldest wh q wire)) !! h = Some (take_oldest wh q wire))
    by apply lookup_insert_eq.
  apply (sys_net seen); [done|..]; unfold cancelled_of, queue_of, receive.
  - intros r Hr. destruct (decide (r = h)) as [->|]; [rewrite Hs; eauto|by rewrite Hl].
  - intros r. destruct (decide (r = h)) as [->|]; [by rewrite Hs, Hh|by rewrite Hl].
  - intros r sid _. destruct (decide (r = h)) as [->|]; [|by rewrite Hl]. by rewrite Hs, Hh, Hq.
Qed.

Lemma sys_close_rx seen tgt conns w h wh :
  sys_with seen tgt conns w → handles (w_net w) !! h = Some wh →
  sys_with seen tgt conns (with_net w (with_handle (w_net w) h (close_rx wh))).
Proof.
  intros Hi Hh.
  assert (Hl : ∀ r, r ≠ h → handles (with_handle (w_net w) h (close_rx wh)) !! r = handles (w_net w) !! r)
    by (intros; by apply lookup_insert_ne).
  assert (Hs : handles (with_handle (w_net w) h (close_rx wh)) !! h = Some (close_rx wh)) by apply lookup_insert_eq.
  apply (sys_net seen); [done|..]; unfold cancelled_of, queue_of; intros r; (destruct (decide (r = h)) as [->|];
    [rewrite ?Hs, ?Hh; cbn; eauto|by rewrite Hl]).
Qed.
End Network.

(** ** The transition system *)

(** The connections past the handshake by write handle (an ending one stays
    until its cleanup is done); those still in the event loop, with their
    [awaiting_pong]; the shared world; and what the clients hold. *)
Record System : Type := mkSys {
  sy_conns : Conns;
  sy_loop : gmap nat bool;
  sy_world : World;
  sy_seen : nat → Z → Value;
}.

Section Node.
Context `{EntryCodec, HashOrder, BodyCodec, BodyDecoder, !BodyLaw}.
Context (to_vec : Z * Z * Z * Value → result (list byte) string)
  (from_slice : list byte → result (Z * Z * Z * Value) string).
Context {DecodingKey : Type} (from_secret : string → DecodingKey)
  (from_rsa_pem : string → result DecodingKey string)
  (jwt_decode : bool → DecodingKey → string → result Claims string).
Context (sink : Message → bool).
Context (srv : SodpServer).

(** [frame_ok] of the frame an event carries, if it carries one. *)
Definition event_ok (c : Conn) (ev : Event) : Prop :=
  match ev with
  | EvMessage (Some (InBinary bytes)) => ∀ f, frame_decode from_slice bytes = Ok f → frame_ok c f
  | _ => True
  end.

(** Steps of a node whose clients send what [allow] accepts. *)
Inductive sys_step_by (allow : Conn → Event → Prop) : System → System → Prop :=
(** A connection completes its handshake; session ids are unique, handles new. *)
| step_connect conns loop w seen h id now secs msgs s ttl :
    handles (w_net w) !! h = None →
    (∀ h' s', conns !! h' = Some s' → s_id s' ≠ id) →
    (open_connection to_vec from_slice from_secret from_rsa_pem jwt_decode sink srv id now secs msgs).2 = Some (s, ttl) →
    sys_step_by allow (mkSys conns loop w seen)
      (mkSys (<[h := s]> conns) (<[h := false]> loop)
         (with_net w (make_handle (c_write_mode srv) (w_net w) h (c_backpressure srv))) seen)
(** A connection's loop handles an event. *)
| step_event conns loop w seen h s awaiting ev n1 n2 r c' :
    conns !! h = Some s → loop !! h = Some awaiting →
    allow (mkConn s w) ev →
    on_event from_slice srv h awaiting ev n1 n2 (mkConn s w) = (r, c') →
    sys_step_by allow (mkSys conns loop w seen)
      (mkSys (<[h := c_session c']> conns)
         (match r with Some a => <[h := a]> loop | None => delete h loop end) (c_world c') seen)
(** A connection that left its loop cleans up and is gone. *)
| step_end conns loop w seen h s :
    conns !! h = Some s → loop !! h = None →
    (st_version (w_state w) + Z.of_nat (length (presence s)) ≤ u64_max)%Z →
    sys_step_by allow (mkSys conns loop w seen)
      (mkSys (delete h conns) loop (c_world (end_session srv (mkConn s w)).2) seen)
(** A writer takes the oldest message: the client gets it, unless it did not encode. *)
| step_deliver conns loop w seen h wh m q wire :
    handles (w_net w) !! h = Some wh → h_rx_open wh = true → h_queue wh = m :: q →
    feed_one to_vec (λ _, true) (h_wire wh) m = (true, wire) →
    sys_step_by allow (mkSys conns loop w seen)
      (mkSys conns loop (with_net w (with_handle (w_net w) h (take_oldest wh q wire)))
         (match to_ws_msg to_vec m with Some _ => receive seen h m | None => seen end))
(** A writer's socket fails. *)
| step_socket_fails conns loop w seen h wh :
    handles (w_net w) !! h = Some wh →
    sys_step_by allow (mkSys conns loop w seen)
      (mkSys conns loop (with_net w (with_handle (w_net w) h (close_rx wh))) seen).

Definition sys_step : System → System → Prop := sys_step_by event_ok.

(** A node starts without connections, on any store the code can have loaded. *)
Record sys_init (y : System) : Prop := {
  in_conns : sy_conns y = ∅;
  in_loop : sy_loop y = ∅;
  in_bus : w_fanout (sy_world y) = ∅;
  in_store : store_inv (w_state (sy_world y));
  in_safe : ∀ k, pointer_safe (store_value (w_state (sy_world y)) k) = true;
}.

Definition reachable (y0 y : System) : Prop := rtc sys_step y0 y.

Definition sy_ok (y : System) : Prop := sys_ok (sy_seen y) (sy_conns y) (sy_world y).

Lemma sys_init_ok y : sys_init y → sy_ok y.
Proof.
  intros [Hc _ Hb Hi Hs]. unfold sy_ok. rewrite Hc. split; try done.
  - intros k sub. rewrite Hb. unfold subs_of. rewrite lookup_empty. by intros ?%elem_of_nil.
  - intros k. rewrite Hb. unfold subs_of. rewrite lookup_empty. constructor.
  - intros k sub v. rewrite Hb. unfold subs_of. rewrite lookup_empty. by intros ?%elem_of_nil.
Qed.

(** A new session. *)
Lemma open_connection_new id now secs msgs s ttl :
  (open_connection to_vec from_slice from_secret from_rsa_pem jwt_decode sink srv id now secs msgs).2 = Some (s, ttl) →
  s_id s = id ∧ watches s = ∅ ∧ next_stream_id s = 10%Z ∧ seq_counter s = 0%Z.
Proof.
  unfold open_connection. destruct (push _ _ _ _) as [[[] sent]|]; [|done|done].
  destruct (c_jwt_config srv); [|by intros [= <- _]].
  destruct (auth_handshake _ _ _ _ _ _ _ _ _ _) as [sent' [[claims rest]|]]; [|done]. by intros [= <- _].
Qed.

Lemma connect_ok seen tgt conns w h id s n :
  sys_with seen tgt conns w → handles (w_net w) !! h = None → (∀ h' s', conns !! h' = Some s' → s_id s' ≠ id) →
  s_id s = id → watches s = ∅ → next_stream_id s = 10%Z → seq_counter s = 0%Z →
  sys_with seen tgt (<[h := s]> conns) (with_net w (make_handle (c_write_mode srv) (w_net w) h n)).
Proof.
  intros [I1 I2 I3 I4 I5 I6 I7 I8 I9 I10] Hh Hid Hs Hw Hn Hq. unfold make_handle, with_handle. set (wh := mkHandle _ _ _ _ _ _).
  assert (Hfree : ∀ h' t, conns !! h' = Some t → h' ≠ h).
  { intros h' t Ht ->. destruct (I3 h t Ht) as [? ?]. congruence. }
  assert (Hlook : ∀ h', h' ≠ h → cancelled_of (mkNet (<[h := wh]> (handles (w_net w))) (pool_queue (w_net w))) h' =
    cancelled_of (w_net w) h' ∧
    queue_of (mkNet (<[h := wh]> (handles (w_net w))) (pool_queue (w_net w))) h' = queue_of (w_net w) h').
  { intros h' Hne. unfold cancelled_of, queue_of. cbn. by rewrite lookup_insert_ne. }
  split; cbn; try done.
  - intros h' t [[<- _]|[Hne Ht]]%lookup_insert_Some; [rewrite lookup_insert_eq; eauto|].
    rewrite lookup_insert_ne by done. eauto.
  - intros h1 h2 t1 t2 [[<- <-]|[_ H1']]%lookup_insert_Some [[<- <-]|[_ H2']]%lookup_insert_Some E; try done.
    + destruct (Hid _ _ H2'). congruence.
    + destruct (Hid _ _ H1'). congruence.
    + eauto.
  - intros h' t [[_ <-]|[_ Ht]]%lookup_insert_Some; [|eauto]. unfold session_inv. rewrite Hn, Hq.
    split_and!; unfold u32_max, u64_max; try lia. intros sid wt. by rewrite Hw, lookup_empty.
  - intros h' t i j wi wj [[_ <-]|[_ Ht]]%lookup_insert_Some; [by rewrite Hw, lookup_empty|eauto].
  - intros k sub Hin. destruct (I7 k sub Hin) as (t & wt & Hc & Hrest). exists t, wt. split; [|done].
    rewrite lookup_insert_ne; [done|]. intros E. by destruct (Hfree _ _ Hc).
  - intros k sub v Hin Hv. destruct (I7 k sub Hin) as (t & wt & Hc & _).
    destruct (Hlook (write sub) (Hfree _ _ Hc)) as [-> ->]. eauto.
  - intros h' t sid wt [[_ <-]|[Hne Ht]]%lookup_insert_Some Hwt; [by rewrite Hw, lookup_empty in Hwt|].
    destruct (Hlook h' ltac:(congruence)) as [-> _]. eauto.
Qed.

(** What sends of messages without a value and the handlers of frames keep, events keep. *)
Lemma on_event_keeps (P : Conn → Prop) h awaiting ev n1 n2 c :
  P c → (∀ m, harmless m → P (send h m c).2) →
  (∀ bytes f, ev = EvMessage (Some (InBinary bytes)) → frame_decode from_slice bytes = Ok f →
     P (handle_frame srv h f n1 n2 c).2) →
  P (on_event from_slice srv h awaiting ev n1 n2 c).2.
Proof.
  intros Hc Hs Hf. assert (Hsend : ∀ m (a : option bool), harmless m → P ((send h m;; mret a) c).2).
  { intros m a Hm. unfold mbind, M_bind. specialize (Hs m Hm). by destruct (send h m c). }
  destruct ev as [[[bytes| | | | |]|]| | | |]; try done; cbn [on_event].
  - destruct (_ <? _)%Z; [by apply Hsend, harmless_frame|].
    destruct (frame_decode from_slice bytes) as [f|] eqn:Ef; [|done].
    unfold mbind, M_bind. specialize (Hf bytes f eq_refl Ef). by destruct (handle_frame srv h f n1 n2 c).
  - by apply Hsend.
  - by apply Hsend, harmless_frame.
  - destruct awaiting; [done|]. by apply Hsend.
Qed.

Lemma on_event_ok seen conns w h s awaiting ev n1 n2 :
  sys_ok seen conns w → conns !! h = Some s → event_ok (mkConn s w) ev →
  let c' := (on_event from_slice srv h awaiting ev n1 n2 (mkConn s w)).2 in
  sys_ok seen (<[h := c_session c']> conns) (c_world c').
Proof.
  intros Hi Hh He. set (c := mkConn s w).
  assert (Hj : Jok seen h conns c) by (unfold Jok, J; cbn; by rewrite insert_id).
  apply (on_event_keeps (Jok seen h conns)); [done| |].
  - intros m Hm. by apply (Jok_quiet seen h conns (send h m) (quiet_send h m) (λ tgt, J_send_harmless seen h conns tgt m Hm)).
  - intros bytes f -> Hf. by apply Jok_handle_frame, He.
Qed.

Lemma sys_step_ok y y' :
  (∀ x, ∃ b, to_vec x = Ok b) → sys_step y y' → sy_ok y → sy_ok y'.
Proof.
  intros Hv Hstep Hok. unfold sy_ok in *. destruct Hstep as
    [conns loop w seen h id now secs msgs s ttl Hh Hid Ho|conns loop w seen h s awaiting ev n1 n2 r c' Hh _ He Hc
    |conns loop w seen h s Hh _ Hm|conns loop w seen h wh m q wire Hh _ Hq _|conns loop w seen h wh Hh]; cbn in *.
  - destruct (open_connection_new _ _ _ _ _ _ Ho) as (? & ? & ? & ?). by eapply connect_ok.
  - pose proof (on_event_ok seen conns w h s awaiting ev n1 n2 Hok Hh He) as Hj. by rewrite Hc in Hj.
  - apply end_session_ok; [|done]. unfold Jok, J. cbn. by rewrite insert_id.
  - replace (match to_ws_msg to_vec m with Some _ => receive seen h m | None => seen end) with (receive seen h m).
    + by apply (sys_deliver seen).
    + destruct m; try done. cbn. unfold frame_encode.
      destruct (Hv (frame_type f, stream_id f, Frame.seq f, body f)) as [b ->]. done.
  - by apply (sys_close_rx seen).
Qed.

Lemma reachable_ok y0 y :
  (∀ x, ∃ b, to_vec x = Ok b) → sys_init y0 → reachable y0 y → sy_ok y.
Proof.
  intros Hv Hi%sys_init_ok Hr. induction Hr as [y|y1 y2 y3 Hstep _ IH]; [done|].
  by apply IH, (sys_step_ok y1).
Qed.

(** What the invariant says of a watch. *)
Lemma sy_ok_watch y h s sid wt :
  sy_ok y → sy_conns y !! h = Some s → watches s !! sid = Some wt →
  cancelled_of (w_net (sy_world y)) h = true ∨
  (mkSubscriber (s_id s) sid h ∈ subs_of (w_fanout (sy_world y)) (w_state_key wt) ∧
   client_view (sy_seen y h sid) sid (queue_of (w_net (sy_world y)) h) ≡
     store_value (w_state (sy_world y)) (w_state_key wt)).
Proof.
  intros Hok Hh Hw. destruct (so_watched _ _ _ _ Hok h s sid wt Hh Hw) as [?|Hin]; [by left|].
  destruct (so_sync _ _ _ _ Hok _ _ _ Hin eq_refl) as [?|Hview]; [by left|]. by right.
Qed.

(** C1. Watchers are in sync. Connections open, handle frames, have messages
    delivered, lose their socket and end, in any order and number.  In every
    reachable state, for every watch of every live session that has not been
    evicted: the session is subscribed on the bus, and the value its client holds
    for the stream, once the messages still queued for it are applied (STATE_INIT
    replaces it, each DELTA is applied to it), equals the stored value of the
    watched key.  A client whose queue is drained holds the stored value.  What this
    supposes ([event_ok]): handlers run one at a time (WatchRace.v and HandlerRace.v
    let them interleave); no session watches a key again before it has unwatched it
    (double_watch_starves shows why); values written have field names that a path can
    carry (no "/" in one, no empty one at the top); the version counter and the stream
    counters are not exhausted.  UNWATCH, RESUME and every other frame are free. *)
Theorem watchers_in_sync y0 y h s sid wt :
  (∀ x, ∃ b, to_vec x = Ok b) → sys_init y0 → reachable y0 y →
  sy_conns y !! h = Some s → watches s !! sid = Some wt →
  cancelled_of (w_net (sy_world y)) h = true ∨
  (mkSubscriber (s_id s) sid h ∈ subs_of (w_fanout (sy_world y)) (w_state_key wt) ∧
   client_view (sy_seen y h sid) sid (queue_of (w_net (sy_world y)) h) ≡
     store_value (w_state (sy_world y)) (w_state_key wt)).
Proof. intros Hv Hi Hr. apply sy_ok_watch. by eapply reachable_ok. Qed.

End Node.

(** ** A concrete lawful codec *)

Module SystemExamples.
Export ConnectionExamples.

(** Values, operations and bodies as trees of booleans, integers and strings. *)
Abbreviation Leaf := (bool + (Z + string))%type.
Abbreviation Tree := (gen_tree Leaf).
Definition leaf_b (b : bool) : Tree := GenLeaf (inl b).
Definition leaf_z (z : Z) : Tree := GenLeaf (inr (inl z)).
Definition leaf_s (s : string) : Tree := GenLeaf (inr (inr s)).

Fixpoint tree_of (v : Value) : Tree :=
  match v with
  | VNull => GenNode 0 []
  | VBool b => GenNode 1 [leaf_b b]
  | VNumber (PosInt n) => GenNode 2 [leaf_z n]
  | VNumber (NegInt n) => GenNode 3 [leaf_z n]
  | VNumber (Float b n) => GenNode 4 [leaf_b b; leaf_z n]
  | VString s => GenNode 5 [leaf_s s]
  | VArray l => GenNode 6 (List.map tree_of l)
  | VObject m => GenNode 7 (List.map (λ '(k, v), GenNode 8 [leaf_s k; tree_of v]) m)
  end.

Fixpoint value_of (t : Tree) : Value :=
  match t with
  | GenNode 1 [GenLeaf (inl b)] => VBool b
  | GenNode 2 [GenLeaf (inr (inl n))] => VNumber (PosInt n)
  | GenNode 3 [GenLeaf (inr (inl n))] => VNumber (NegInt n)
  | GenNode 4 [GenLeaf (inl b); GenLeaf (inr (inl n))] => VNumber (Float b n)
  | GenNode 5 [GenLeaf (inr (inr s))] => VString s
  | GenNode 6 l => VArray (List.map value_of l)
  | GenNode 7 l => VObject (List.map (λ t, match t with
                                           | GenNode _ [GenLeaf (inr (inr k)); t'] => (k, value_of t')
                                           | _ => ("", VNull)
                                           end) l)
  | _ => VNull
  end.

Lemma value_of_tree v : value_of (tree_of v) = v.
Proof.
  induction v as [|b|n|s|l IH|m IH] using value_induction; cbn [tree_of value_of]; try done.
  - by destruct n.
  - f_equal. rewrite map_map. induction IH as [|x l Hx _ IHl]; [done|]. cbn. by rewrite Hx, IHl.
  - f_equal. rewrite map_map. induction IH as [|[k x] l Hx _ IHl]; [done|]. cbn in *. by rewrite Hx, IHl.
Qed.

Definition tree_of_op (o : DeltaOp) : Tree :=
  GenNode (match op o with Add => 0 | Update => 1 | Remove => 2 end)
    (leaf_s (op_path o) :: match op_value o with Some v => [tree_of v] | None => [] end).

Definition op_of_tree (t : Tree) : DeltaOp :=
  match t with
  | GenNode n (GenLeaf (inr (inr p)) :: vs) =>
      mkDeltaOp (match n with 0 => Add | 1 => Update | _ => Remove end) p (value_of <$> head vs)
  | _ => mkDeltaOp Add "" None
  end.

Lemma op_of_tree_of o : op_of_tree (tree_of_op o) = o.
Proof. destruct o as [[] p [v|]]; cbn; by rewrite ?value_of_tree. Qed.

Fixpoint bytes_of_pos (p : positive) : list byte :=
  match p with xH => [] | xO p => x00 :: bytes_of_pos p | xI p => x01 :: bytes_of_pos p end.
Fixpoint pos_of_bytes (b : list byte) : positive :=
  match b with [] => 1 | x00 :: b => xO (pos_of_bytes b) | _ :: b => xI (pos_of_bytes b) end%positive.

Lemma pos_of_bytes_of p : pos_of_bytes (bytes_of_pos p) = p.
Proof. induction p; cbn; congruence. Qed.

#[export] Instance tree_body : BodyCodec := {|
  body_to_vec version ops := Ok (bytes_of_pos (encode (GenNode 9 (leaf_z version :: List.map tree_of_op ops))));
|}.

#[export] Instance tree_decoder : BodyDecoder := {|
  body_from_slice b :=
    match decode (pos_of_bytes b) with
    | Some (GenNode _ (GenLeaf (inr (inl version)) :: ops)) => Some (version, List.map op_of_tree ops)
    | _ => None
    end;
|}.

#[export] Instance tree_law : BodyLaw.
Proof.
  constructor. intros version ops. eexists. split; [done|]. cbn -[encode decode].
  rewrite pos_of_bytes_of, decode_encode. cbn -[op_of_tree tree_of_op].
  by rewrite map_map, (map_ext _ id op_of_tree_of), map_id.
Qed.

(** Byte 02 is a WATCH of "k", byte 03 an UNWATCH of it, byte 05 a CALL setting it to 1. *)
Definition sys_from_slice (b : list byte) : result (Z * Z * Z * Value) string :=
  match b with
  | [x02] => Ok (types.WATCH, 0, 0, VObject [("state", VString "k")])%Z
  | [x03] => Ok (types.UNWATCH, 0, 0, VObject [("state", VString "k")])%Z
  | [x05] => Ok (types.CALL, 1, 0,
      VObject [("args", VObject [("state", VString "k"); ("value", num 1)]); ("method", VString "state.set")])%Z
  | _ => Err "bad frame"
  end.
Definition sys_server : SodpServer := server_with None None.

Abbreviation ex_step := (sys_step ex_to_vec sys_from_slice (λ s : string, s) (λ _, Err "no key") ex_jwt (λ _, true)).
Abbreviation ex_reachable := (reachable ex_to_vec sys_from_slice (λ s : string, s) (λ _, Err "no key") ex_jwt (λ _, true)).

Definition y0 : System := mkSys ∅ ∅ (mkWorld (store_new ∅) ∅ (mkNet ∅ []) []) (λ _ _, VNull).

(** Two steps as functions: a client without a token connects, a connection
    receives one byte. *)
Definition connect (srv : SodpServer) (y : System) (h : nat) (id : string) : System :=
  let w := sy_world y in
  mkSys (<[h := session_new id (c_rate_writes srv) (c_rate_watches srv) 0]> (sy_conns y)) (<[h := false]> (sy_loop y))
    (with_net w (make_handle (c_write_mode srv) (w_net w) h (c_backpressure srv))) (sy_seen y).

Definition event (srv : SodpServer) (y : System) (h : nat) (b : byte) : System :=
  match sy_conns y !! h with
  | Some s =>
      let c' := (on_event sys_from_slice srv h false (EvMessage (Some (InBinary [b]))) 0 0 (mkConn s (sy_world y))).2 in
      mkSys (<[h := c_session c']> (sy_conns y)) (<[h := false]> (sy_loop y)) (c_world c') (sy_seen y)
  | None => y
  end.

Definition y_connected : System := connect sys_server (connect sys_server y0 0 "a") 1 "b".
Definition y_watching : System := event sys_server y_connected 0 x02.
Definition y_written : System := event sys_server y_watching 1 x05.

Lemma ex_connect srv y h id :
  c_jwt_config srv = None →
  handles (w_net (sy_world y)) !! h = None → (∀ h' s', sy_conns y !! h' = Some s' → s_id s' ≠ id) →
  ex_step srv y (connect srv y h id).
Proof.
  intros Hj Hh Hid. destruct y.
  apply step_connect with (id := id) (now := 0%Z) (secs := 0%Z) (msgs := []) (ttl := NEVER); [done..|].
  unfold open_connection. by rewrite Hj.
Qed.

Lemma ex_event srv y h b s f :
  (1 <= c_max_frame_bytes srv)%Z →
  sy_conns y !! h = Some s → sy_loop y !! h = Some false →
  frame_decode sys_from_slice [b] = Ok f → frame_ok (mkConn s (sy_world y)) f →
  ex_step srv y (event srv y h b).
Proof.
  intros Hmax Hs Hl Hf Hok. unfold event. rewrite Hs. destruct y as [conns loop w seen]. cbn in *.
  eapply (step_event ex_to_vec sys_from_slice (λ s : string, s) (λ _, Err "no key") ex_jwt (λ _, true) srv
    (event_ok sys_from_slice) conns loop w seen h s false (EvMessage (Some (InBinary [b]))) 0 0 (Some false)); [done|done| |].
  - cbn. intros f' Hf'. rewrite Hf in Hf'. by injection Hf' as <-.
  - unfold on_event. cbn [length]. rewrite Hf.
    rewrite (proj2 (Z.ltb_ge (c_max_frame_bytes srv) (Z.of_nat 1))) by lia.
    unfold mbind, M_bind. cbv iota. by destruct (handle_frame srv h f 0 0 (mkConn s w)).
Qed.

(** The two frames are acceptable to a connection without watches. *)
Lemma ex_watch_ok id s w :
  s = session_new id None None 0 → (st_version (w_state w) < u64_max)%Z →
  frame_ok (mkConn s w) (mkFrame types.WATCH 0 0 (VObject [("state", VString "k")])).
Proof.
  intros -> Hv. assert (Hun : ∀ k, unwatched (session_new id None None 0) k)
    by (intros k sid wt; cbn; by rewrite lookup_empty).
  split; try done. intros _ ks. cbn. intros [= <-]. split_and!; [apply NoDup_singleton|auto|by cbn].
Qed.

Lemma y_init : sys_init y0.
Proof.
  split; [done..|apply store_new_inv|]. intros k. unfold store_value, store_get. cbn. by rewrite lookup_empty.
Qed.

Lemma y_reach_watching : ex_reachable sys_server y0 y_watching.
Proof.
  eapply rtc_l; [apply (ex_connect sys_server y0 0 "a"); [done..|intros h' s'; cbn; by rewrite lookup_empty]|].
  eapply rtc_l; [apply (ex_connect sys_server _ 1 "b"); [done..|]|].
  { intros h' s'. cbn. rewrite lookup_insert_Some, lookup_empty. by intros [[_ <-]|[_ ?]]. }
  eapply rtc_l; [|apply rtc_refl].
  eapply (ex_event sys_server _ 0 x02); [done|reflexivity|reflexivity|reflexivity|by eapply ex_watch_ok].
Qed.

Lemma y_reach : ex_reachable sys_server y0 y_written.
Proof.
  eapply rtc_r; [apply y_reach_watching|].
  eapply (ex_event sys_server _ 1 x05); [done|reflexivity|reflexivity|reflexivity|].
  split; try done. intros _ method. cbn. by intros [= <-].
Qed.
End SystemExamples.
Import SystemExamples.

Lemma watchers_in_sync_witness :
  cancelled_of (w_net (sy_world y_written)) 0 = true ∨
  (mkSubscriber "a" 10 0 ∈ subs_of (w_fanout (sy_world y_written)) "k" ∧
   client_view VNull 10 (queue_of (w_net (sy_world y_written)) 0) ≡ num 1).
Proof.
  apply (watchers_in_sync ex_to_vec sys_from_slice (λ s : string, s) (λ _, Err "no key") ex_jwt (λ _, true) sys_server
    y0 y_written 0 (c_session (handle_frame sys_server 0 (mkFrame types.WATCH 0 0 (VObject [("state", VString "k")])) 0 0
      (mkConn (session_new "a" None None 0) (sy_world y_connected))).2) 10 (mkWatch "k" 0 None)).
  - intros x. by eexists.
  - apply y_init.
  - apply y_reach.
  - vm_compute. reflexivity.
  - vm_compute. reflexivity.
Defined.
