(* ===== verification/Subscriptions.v ===== *)
(** * Who is subscribed (src/src/server.rs, src/src/fanout.rs)

    Whatever clients send, in whatever order: keys watched twice, UNWATCH, values that no
    path can address, undecodable frames.  A subscription on the bus is always that of a
    live session and of one of its watches.  (ServerSystem.v shows more, what
    the subscriber holds, and asks more of the clients.) *)

From S2P Require Import Prelude RustStr Json JsonPath Delta Schema Acl Frame Log Store Session WritePool Fanout Cluster Server ServerLogic ServerSafety ServerWatch Connection ServerSystem.

Local Open Scope string_scope.

(** ** Frames *)

Section Frames.
Context `{EntryCodec, HashOrder, BodyCodec}.
Context (srv : SodpServer) (h : nat).
Context (id : string) (base : string → Subscriber → Prop) (known : nat → Prop).

(** The session [id] on handle [h], with its next stream number [n]: its subscriptions
    have their watches, and those of other sessions are among [base]. *)
Record tidy (n : Z) (c : Conn) : Prop := {
  td_id : s_id (c_session c) = id;
  td_next : next_stream_id (c_session c) = n;
  td_watches : ∀ sid wt, watches (c_session c) !! sid = Some wt → (sid < n)%Z;
  td_own : ∀ k sub, sub ∈ subs_of (w_fanout (c_world c)) k → session_id sub = id →
    write sub = h ∧ ∃ wt, watches (c_session c) !! sub_stream_id sub = Some wt ∧ w_state_key wt = k;
  td_others : ∀ k sub, sub ∈ subs_of (w_fanout (c_world c)) k → session_id sub ≠ id → base k sub;
  td_handles : ∀ r, known r → is_Some (handles (w_net (c_world c)) !! r);
}.

Lemma tidy_level {A} (m : M A) n : level m → keeps (tidy n) m.
Proof.
  intros Hm c [I1 I2 I3 I4 I5 I6]. destruct (Hm c) as ((Hi & _) & Hw & Hn & Hs & Hh). cbn.
  split; rewrite ?Hw; try congruence; eauto.
Qed.

Lemma tidy_open_stream k p n :
  (0 ≤ n < u32_max)%Z → hoare (tidy n) (open_stream h k p) (λ _, tidy (n + 1)).
Proof.
  intros Hn c [I1 I2 I3 I4 I5 I6]. unfold open_stream, bus_subscribe. run_m.
  assert (Hadd : u32_add (next_stream_id (c_session c)) 1 = (n + 1)%Z).
  { rewrite I2. unfold u32_add. unfold u32_max in Hn. rewrite Z.mod_small; lia. }
  split; cbn; [done|done| | | |done].
  - intros sid wt. rewrite lookup_insert_Some. intros [[<- _]|[_ Hw%I3]]; lia.
  - intros k' sub [Hin|[-> ->]]%subs_of_subscribe Hid; cbn.
    + destruct (I4 k' sub Hin Hid) as (Hh & wt & Hw & Hk). split; [done|]. exists wt. split; [|done].
      rewrite lookup_insert_ne; [done|]. apply I3 in Hw. lia.
    + split; [done|]. rewrite lookup_insert_eq. eauto.
  - intros k' sub [Hin|[-> ->]]%subs_of_subscribe Hid; [by apply I5|done].
Qed.

Lemma tidy_watch_keys ks p n c :
  tidy n c → (0 ≤ n)%Z → (n + Z.of_nat (length ks) ≤ u32_max)%Z →
  ∃ n', tidy n' (watch_keys srv h ks p c).2 ∧ (0 ≤ n')%Z.
Proof.
  revert n c. induction ks as [|k ks IH]; intros n c Hc H0' Hn; cbn [watch_keys length] in *; [eauto|].
  unfold mbind, M_bind, get_session. destruct (read_allowed srv (c_session c) k).
  - unfold subscribe_key, mbind, M_bind.
    pose proof (tidy_open_stream k p n ltac:(lia) c Hc) as Ho. destruct (open_stream h k p c) as [sid c1].
    pose proof (tidy_level (send_init h sid k p) (n + 1) ltac:(auto with server) c1 Ho) as Hs.
    destruct (send_init h sid k p c1) as [[] c2]. apply (IH (n + 1)%Z); [done|lia..].
  - match goal with |- context [reply h ?f c] =>
      pose proof (tidy_level (reply h f) n ltac:(auto with server) c Hc) as Hs; destruct (reply h f c) as [[] c1] end.
    apply (IH n); [done|lia..].
Qed.

Lemma tidy_unwatch ks n : keeps (tidy n) (unwatch_keys ks).
Proof.
  induction ks as [|k ks IH]; cbn [unwatch_keys]; [apply keeps_ret|]. intros c Hc. run_m.
  pose proof (watch_stream_lookup (c_session c) k) as Hw. destruct (watch_stream_id (c_session c) k) as [sid|]; [|by apply IH].
  destruct Hw as (w0 & Hw0 & Hk0). apply IH. destruct Hc as [I1 I2 I3 I4 I5 I6]. split; cbn; [done|done| | | |done].
  - intros sid' wt [_ ?]%lookup_delete_Some. eauto.
  - intros k' sub [Hin Hne]%elem_of_unsubscribe Hid. destruct (I4 k' sub Hin Hid) as (Hh & wt & Hwt & Hk).
    split; [done|]. exists wt. split; [|done]. rewrite lookup_delete_ne; [done|]. intros ->.
    rewrite Hw0 in Hwt. injection Hwt as <-. apply Hne; congruence.
  - intros k' sub [Hin _]%elem_of_unsubscribe. by apply I5.
Qed.

Lemma tidy_ack n sid sq c : tidy n c → tidy n (mkConn (ack_stream (c_session c) sid sq) (c_world c)).
Proof.
  intros [I1 I2 I3 I4 I5 I6]. unfold ack_stream. destruct (watches (c_session c) !! sid) as [w0|] eqn:E; [|by destruct c].
  split; cbn; [done|done| | |done|done].
  - intros sid' wt. rewrite lookup_insert_Some. intros [[<- _]|[_ ?]]; eauto.
  - intros k sub Hin Hid. destruct (I4 k sub Hin Hid) as (Hh & wt & Hwt & Hk). split; [done|].
    destruct (decide (sub_stream_id sub = sid)) as [<-|Hne]; [|rewrite lookup_insert_ne by done; eauto].
    rewrite lookup_insert_eq. eexists. split; [done|]. cbn. rewrite E in Hwt. by injection Hwt as <-.
Qed.

(** All that is asked of a frame: the stream counter of the session does not wrap
    around on it. *)
Definition frame_fits (s : Session) (fr : Frame) : Prop :=
  if (frame_type fr =? types.WATCH)%Z then
    (next_stream_id s + Z.of_nat (length (default [] (requested_keys (body fr)))) ≤ u32_max)%Z
  else (next_stream_id s < u32_max)%Z.

Lemma tidy_handle_frame fr n1 n2 n c :
  tidy n c → (0 ≤ n)%Z → frame_fits (c_session c) fr → ∃ n', tidy n' (handle_frame srv h fr n1 n2 c).2 ∧ (0 ≤ n')%Z.
Proof.
  intros Hc H0' Hf. assert (Hlevel : ∀ m : M unit, level m → ∃ n', tidy n' (m c).2 ∧ (0 ≤ n')%Z).
  { intros m Hm. exists n. split; [by apply tidy_level|done]. }
  unfold frame_fits in Hf. rewrite (td_next n c Hc) in Hf.
  pose proof (tidy_level (watch_allowed n1 n2) n ltac:(auto with server) c Hc) as Hc1.
  assert (Hlevel1 : ∀ m : M unit, level m → ∃ n', tidy n' (m (watch_allowed n1 n2 c).2).2 ∧ (0 ≤ n')%Z).
  { intros m Hm. exists n. split; [by apply tidy_level|done]. }
  unfold handle_frame. repeat case_goal; try (apply Hlevel; solve [auto with server]).
  - unfold handle_watch, mbind, M_bind. destruct (watch_allowed n1 n2 c) as [ok c1]. cbn [snd] in *.
    destruct (negb ok); [apply Hlevel1; auto with server|].
    destruct (requested_keys (body fr)) as [ks|]; [|apply Hlevel1; auto with server]. by apply (tidy_watch_keys _ _ n).
  - unfold handle_resume, mbind at 1, M_bind at 1. destruct (watch_allowed n1 n2 c) as [ok c1]. cbn [snd] in *.
    destruct (negb ok); [apply Hlevel1; auto with server|].
    destruct (get_str "state" (body fr)) as [k|]; [|apply Hlevel1; auto with server].
    unfold mbind at 1, M_bind at 1, get_session at 1. destruct (negb (read_allowed srv (c_session c1) k)); [apply Hlevel1; auto with server|].
    exists (n + 1)%Z. split; [|lia]. refine ((_ : hoare (tidy n) _ (λ _, tidy (n + 1))) c1 Hc1).
    eapply hoare_bind; [apply tidy_open_stream; lia|]. intros sid.
    apply tidy_level. apply level_bind; [auto with server|]. intros w.
    apply level_bind; [case_match; auto with server|auto with server].
  - exists n. split; [|done]. unfold handle_unwatch. case_match; [by apply tidy_unwatch|done].
  - exists n. split; [|done]. run_m. by apply tidy_ack.
Qed.
End Frames.

(** ** The node *)

Section Node.
Context `{EntryCodec, HashOrder, BodyCodec, BodyDecoder}.
Context (to_vec : Z * Z * Z * Value → result (list byte) string)
  (from_slice : list byte → result (Z * Z * Z * Value) string).
Context {DecodingKey : Type} (from_secret : string → DecodingKey)
  (from_rsa_pem : string → result DecodingKey string)
  (jwt_decode : bool → DecodingKey → string → result Claims string).
Context (sink : Message → bool).
Context (srv : SodpServer).

Definition event_fits (c : Conn) (ev : Event) : Prop :=
  match ev with
  | EvMessage (Some (InBinary bytes)) => ∀ f, frame_decode from_slice bytes = Ok f → frame_fits (c_session c) f
  | _ => True
  end.

(** Any events, as long as no stream counter wraps around. *)
Abbreviation free_step := (sys_step_by to_vec from_slice from_secret from_rsa_pem jwt_decode sink srv event_fits).

Record subs_ok (y : System) : Prop := {
  sk_ids : ∀ h1 h2 s1 s2, sy_conns y !! h1 = Some s1 → sy_conns y !! h2 = Some s2 → s_id s1 = s_id s2 → h1 = h2;
  sk_handles : ∀ h s, sy_conns y !! h = Some s → is_Some (handles (w_net (sy_world y)) !! h);
  sk_streams : ∀ h s, sy_conns y !! h = Some s → (0 ≤ next_stream_id s)%Z ∧
    ∀ sid wt, watches s !! sid = Some wt → (sid < next_stream_id s)%Z;
  sk_subs : ∀ k sub, sub ∈ subs_of (w_fanout (sy_world y)) k →
    ∃ s wt, sy_conns y !! write sub = Some s ∧ session_id sub = s_id s ∧
      watches s !! sub_stream_id sub = Some wt ∧ w_state_key wt = k;
}.

(** What a connection's handlers see of [subs_ok], and what they have to leave. *)
Definition of_others (conns : Conns) (h : nat) (k : string) (sub : Subscriber) : Prop :=
  write sub ≠ h ∧ ∃ s wt, conns !! write sub = Some s ∧ session_id sub = s_id s ∧
    watches s !! sub_stream_id sub = Some wt ∧ w_state_key wt = k.

Abbreviation seen_by h s conns := (tidy h (s_id s) (of_others conns h) (λ r, is_Some (conns !! r))).

Lemma subs_ok_tidy conns loop w seen h s :
  subs_ok (mkSys conns loop w seen) → conns !! h = Some s →
  seen_by h s conns (next_stream_id s) (mkConn s w) ∧ (0 ≤ next_stream_id s)%Z.
Proof.
  intros [I1 I2 I3 I4] Hh. cbn in *. destruct (I3 h s Hh) as [Hn Hw]. split; [|done]. split; cbn; try done.
  - intros k sub Hin Hid. destruct (I4 k sub Hin) as (s' & wt & Hs' & Hid' & Hwt & Hk).
    assert (write sub = h) as E by (eapply I1; [exact Hs'|exact Hh|congruence]). split; [done|].
    rewrite E, Hh in Hs'. injection Hs' as <-. eauto.
  - intros k sub Hin Hid. destruct (I4 k sub Hin) as (s' & wt & Hs' & Hid' & Hrest). split; [|by exists s', wt].
    intros E. rewrite E, Hh in Hs'. injection Hs' as <-. congruence.
  - intros r [s' Hr]. eauto.
Qed.

Lemma tidy_subs_ok conns loop loop' w seen h s n c :
  subs_ok (mkSys conns loop w seen) → conns !! h = Some s → seen_by h s conns n c → (0 ≤ n)%Z →
  subs_ok (mkSys (<[h := c_session c]> conns) loop' (c_world c) seen).
Proof.
  intros [I1 I2 I3 I4] Hh [T1 T2 T3 T4 T5 T6] Hn. cbn in *. split; cbn.
  - intros h1 h2 s1 s2 [[<- <-]|[_ H1']]%lookup_insert_Some [[<- <-]|[_ H2']]%lookup_insert_Some E; try done;
      eapply I1; eauto; congruence.
  - intros h' s' [[<- _]|[_ ?]]%lookup_insert_Some; apply T6; eauto.
  - intros h' s' [[_ <-]|[_ ?]]%lookup_insert_Some; [rewrite T2; auto|eauto].
  - intros k sub Hin. destruct (decide (session_id sub = s_id s)) as [E|E].
    + destruct (T4 k sub Hin E) as (-> & wt & Hwt & Hk). exists (c_session c), wt.
      split_and!; [by rewrite lookup_insert_eq|congruence|done..].
    + destruct (T5 k sub Hin E) as (Hne & s' & wt & Hs' & Hrest). exists s', wt. by rewrite lookup_insert_ne.
Qed.

Lemma level_cleanup entries : level (presence_cleanup srv entries).
Proof.
  induction entries as [|e entries IH]; cbn [presence_cleanup]; [auto with server|].
  apply level_bind; [auto with server|]. intros w. apply level_bind; [|intros; apply IH].
  case_match; [|auto with server]. apply level_bind; [auto with server|]. intros [version ops].
  destruct ops; [auto with server|]. apply level_bind; auto with server.
Qed.

Lemma tidy_event h s conns n c awaiting ev n1 n2 :
  seen_by h s conns n c → (0 ≤ n)%Z → event_fits c ev →
  ∃ n', seen_by h s conns n' (on_event from_slice srv h awaiting ev n1 n2 c).2 ∧ (0 ≤ n')%Z.
Proof.
  intros Hc Hn Hf. apply (on_event_keeps _ _ (λ c, ∃ n', seen_by h s conns n' c ∧ (0 ≤ n')%Z)); [eauto| |].
  - intros m _. exists n. split; [apply tidy_level; auto with server|done].
  - intros bytes f -> Ef. by apply (tidy_handle_frame srv h (s_id s) _ _ f n1 n2 n c Hc Hn), Hf.
Qed.

(** Only the network changes, and no handle disappears. *)
Lemma subs_ok_net conns loop w seen net seen' :
  subs_ok (mkSys conns loop w seen) → (∀ r, is_Some (handles (w_net w) !! r) → is_Some (handles net !! r)) →
  subs_ok (mkSys conns loop (with_net w net) seen').
Proof. intros [I1 I2 I3 I4] Hr. split; cbn in *; eauto. Qed.

Lemma with_handle_known net h wh r : is_Some (handles net !! r) → is_Some (handles (with_handle net h wh) !! r).
Proof. intros Hr. cbn. destruct (decide (r = h)) as [->|]; [rewrite lookup_insert_eq; eauto|by rewrite lookup_insert_ne]. Qed.

Lemma connect_subs conns loop loop' w seen h s :
  subs_ok (mkSys conns loop w seen) → handles (w_net w) !! h = None →
  (∀ h' s', conns !! h' = Some s' → s_id s' ≠ s_id s) → watches s = ∅ → next_stream_id s = 10%Z →
  subs_ok (mkSys (<[h := s]> conns) loop' (with_net w (make_handle (c_write_mode srv) (w_net w) h (c_backpressure srv))) seen).
Proof.
  intros [I1 I2 I3 I4] Hnew Hid Hw Hn. cbn in *.
  assert (Hh : ∀ h' s', conns !! h' = Some s' → h' ≠ h).
  { intros h' s' Hc ->. apply I2 in Hc as [? ?]. congruence. }
  split; cbn.
  - intros h1 h2 s1 s2 [[<- <-]|[_ H1']]%lookup_insert_Some [[<- <-]|[_ H2']]%lookup_insert_Some E; try done; [| |by eapply I1].
    + by destruct (Hid _ _ H2').
    + by destruct (Hid _ _ H1').
  - intros h' s' [[<- _]|[? ?]]%lookup_insert_Some; [rewrite lookup_insert_eq; eauto|]. rewrite lookup_insert_ne by done. eauto.
  - intros h' s' [[_ <-]|[_ ?]]%lookup_insert_Some; [|eauto]. rewrite Hw, Hn. split; [lia|]. intros sid wt. by rewrite lookup_empty.
  - intros k sub Hin. destruct (I4 k sub Hin) as (s' & wt & Hs' & Hrest). exists s', wt. split; [|done].
    rewrite lookup_insert_ne; [done|]. intros E. by apply (Hh _ _ Hs').
Qed.

Lemma end_subs conns loop w seen h s :
  subs_ok (mkSys conns loop w seen) → conns !! h = Some s →
  subs_ok (mkSys (delete h conns) loop (c_world (end_session srv (mkConn s w)).2) seen).
Proof.
  intros Hok Hh. destruct (subs_ok_tidy _ _ _ _ _ _ Hok Hh) as [Hc Hn].
  apply (tidy_level h _ _ _ _ _ (level_cleanup (presence s))) in Hc.
  unfold end_session. run_m. destruct (presence_cleanup srv _ (mkConn s w)) as [[] c]. cbn in *.
  pose proof (td_id _ _ _ _ _ _ Hc) as Hid.
  destruct (tidy_subs_ok conns loop loop w seen h s _ c Hok Hh Hc Hn) as [I1 I2 I3 I4]. cbn in *. split; cbn.
  - intros h1 h2 s1 s2 [? H1']%lookup_delete_Some [? H2']%lookup_delete_Some.
    apply I1; by rewrite lookup_insert_ne.
  - intros h' s' [? Hs']%lookup_delete_Some. apply (I2 h' s'). by rewrite lookup_insert_ne.
  - intros h' s' [? Hs']%lookup_delete_Some. apply (I3 h' s'). by rewrite lookup_insert_ne.
  - intros k sub [Hin Hne]%elem_of_remove_session. destruct (I4 k sub Hin) as (s' & wt & Hs' & Hid' & Hrest).
    exists s', wt. split; [|done]. apply lookup_delete_Some.
    apply lookup_insert_Some in Hs' as [[_ <-]|[? ?]]; [|done]. congruence.
Qed.

Lemma free_step_ok y y' : free_step y y' → subs_ok y → subs_ok y'.
Proof.
  intros Hstep Hok. destruct Hstep as
    [conns loop w seen h id now secs msgs s ttl Hh Hid Ho|conns loop w seen h s awaiting ev n1 n2 r c' Hh _ He Hc
    |conns loop w seen h s Hh _ _|conns loop w seen h wh m q wire Hh _ Hq _|conns loop w seen h wh Hh].
  - destruct (open_connection_new _ _ _ _ _ _ _ _ _ _ _ _ _ Ho) as (<- & ? & ? & _). by eapply connect_subs.
  - destruct (subs_ok_tidy _ _ _ _ _ _ Hok Hh) as [Ht Hn].
    destruct (tidy_event h s conns _ _ awaiting ev n1 n2 Ht Hn He) as (n' & Ht' & Hn'). rewrite Hc in Ht'.
    by eapply tidy_subs_ok.
  - by apply end_subs.
  - eapply subs_ok_net; [done|]. intros r. apply with_handle_known.
  - eapply subs_ok_net; [done|]. intros r. apply with_handle_known.
Qed.

(** C29. Every subscription is accounted for. Clients connect, send whatever frames they
    like (a key watched twice, UNWATCH, any values), receive, fail and disconnect in any
    order; the only conditions are that no session's 32-bit stream counter wraps around, that
    the version counter has room for the clean-up of a session that ends, and that session
    ids, which are UUIDs, are new.  In every reachable state a subscription on the bus belongs
    to a live session, whose handle it carries, and to a watch that session has
    on that key and stream: UNWATCH, eviction and the end of a session leave
    none behind. *)
Theorem subscriptions_owned y0 y k sub :
  sy_conns y0 = ∅ → w_fanout (sy_world y0) = ∅ → rtc free_step y0 y →
  sub ∈ subs_of (w_fanout (sy_world y)) k →
  ∃ s wt, sy_conns y !! write sub = Some s ∧ session_id sub = s_id s ∧
    watches s !! sub_stream_id sub = Some wt ∧ w_state_key wt = k.
Proof.
  intros Hc Hb Hr. assert (Hok : subs_ok y0).
  { split; rewrite ?Hc.
    - intros h1 h2 s1 s2. by rewrite lookup_empty.
    - intros h s. by rewrite lookup_empty.
    - intros h s. by rewrite lookup_empty.
    - intros k' sub'. rewrite Hb. unfold subs_of. rewrite lookup_empty. by intros ?%elem_of_nil. }
  assert (subs_ok y) as [_ _ _ Hs]; [|by apply Hs].
  clear Hc Hb. induction Hr as [|y1 y2 y3 Hstep _ IH]; [done|]. by eapply IH, free_step_ok.
Qed.
End Node.

(** ** Example: watch, watch again, unwatch, watch *)

Import SystemExamples.

Lemma ex_free_event y h b s f :
  sy_conns y !! h = Some s → sy_loop y !! h = Some false →
  frame_decode sys_from_slice [b] = Ok f → frame_fits s f →
  sys_step_by ex_to_vec sys_from_slice (λ s : string, s) (λ _, Err "no key") ex_jwt (λ _, true) sys_server
    (event_fits sys_from_slice) y (event sys_server y h b).
Proof.
  intros Hs Hl Hf Hok. unfold event. rewrite Hs. destruct y as [conns loop w seen]. cbn in *.
  eapply (step_event ex_to_vec sys_from_slice (λ s : string, s) (λ _, Err "no key") ex_jwt (λ _, true) sys_server
    (event_fits sys_from_slice) conns loop w seen h s false (EvMessage (Some (InBinary [b]))) 0 0 (Some false)); [done|done| |].
  - cbn. intros f' Hf'. rewrite Hf in Hf'. by injection Hf' as <-.
  - unfold on_event. cbn [length c_max_frame_bytes sys_server server_with]. change (1048576 <? Z.of_nat 1)%Z with false. rewrite Hf. unfold mbind, M_bind.
    by destruct (handle_frame sys_server h f 0 0 (mkConn s w)).
Qed.

Definition rewatched : System :=
  let e y := event sys_server y 0 in e (e (e (e (connect sys_server y0 0 "a") x02) x02) x03) x02.

Lemma subscriptions_owned_witness :
  ∃ s wt, sy_conns rewatched !! 0 = Some s ∧ "a" = s_id s ∧ watches s !! 12%Z = Some wt ∧ w_state_key wt = "k".
Proof.
  apply (subscriptions_owned ex_to_vec sys_from_slice (λ s : string, s) (λ _, Err "no key") ex_jwt (λ _, true) sys_server
    y0 rewatched "k" (mkSubscriber "a" 12 0)); [done|done| |vm_compute; by left].
  eapply rtc_l.
  { apply step_connect with (id := "a") (now := 0%Z) (secs := 0%Z) (msgs := []) (ttl := NEVER); [done| |done].
    intros h' s'. by rewrite lookup_empty. }
  eapply rtc_l; [eapply (ex_free_event (connect sys_server y0 0 "a") 0 x02); [reflexivity..|vm_compute; congruence]|].
  eapply rtc_l; [eapply (ex_free_event _ 0 x02); [reflexivity..|vm_compute; congruence]|].
  eapply rtc_l; [eapply (ex_free_event _ 0 x03); [reflexivity..|vm_compute; congruence]|].
  eapply rtc_l; [eapply (ex_free_event _ 0 x02); [reflexivity..|vm_compute; congruence]|]. apply rtc_refl.
Defined.
