(* ===== verification/WatchRace.v ===== *)
(** * A WATCH racing with writes (src/src/server.rs, src/src/fanout.rs)

    Connections run as tasks of their own and share the store and the bus.
    [subscribe_key] subscribes, reads the store and queues STATE_INIT; a write
    applies to the store, takes a snapshot of the subscribers, then queues the
    DELTA subscriber by subscriber, and last the DELTA of the writer's own watch.  No
    lock spans these accesses.  Here each of them is one action, on one key, and any
    number of watches and writes interleave between them.  A session may both
    watch the key and write it; its task does one after the other. *)

From S2P Require Import Prelude RustStr Json JsonPath Delta Schema Acl Frame Log Store Session WritePool Fanout Cluster Server ServerLogic ServerSafety ServerWatch Connection ServerSystem.

Local Open Scope string_scope.

(** ** State *)

(** How far a call of [subscribe_key] is. *)
Inductive WatchStage : Type :=
| Unsubscribed
| Subscribed
| HasRead (version : Z) (v : Value) (initialized : bool)
| Told.

(** A write of session [me] in flight: applied; in the loop of [broadcast_encoded] with
    the rest of the snapshot and the slow sessions so far; or fanned out, its own delta
    still to be sent. *)
Inductive Write : Type :=
| Applied (me : string) (body_mp : list byte)
| Sending (me : string) (body_mp : list byte) (rest : list Subscriber) (slow : list string)
| Fanned (me : string) (body_mp : list byte).

Definition writer_of (w : Write) : string :=
  match w with Applied me _ | Sending me _ _ _ | Fanned me _ => me end.

Record Watching : Type := mkWatching {
  wr_store : StateStore;
  wr_bus : FanoutBus;
  wr_net : Net;
  wr_writes : list Write;
  wr_watches : list (Subscriber * WatchStage);
  wr_seen : nat → Z → Value;      (* what the clients got so far *)
}.

Inductive Act : Type :=
| ASet (me : string) (v : Value)
| ADelete (me : string)
| ASnapshot (j : nat)
| ASend (j : nat)
| AFinish (j : nat)
| AOwn (j : nat)
| ASubscribe (i : nat)
| ARead (i : nat)
| AInit (i : nat) (seq : Z) (params : option Value)
| ADeliver (h : nat).

Section Race.
Context `{EntryCodec, HashOrder, BodyCodec, BodyDecoder}.
Context (key : string).

Implicit Types r : Watching.

Definition with_writes r ws : Watching :=
  mkWatching (wr_store r) (wr_bus r) (wr_net r) ws (wr_watches r) (wr_seen r).
Definition with_wnet r net : Watching :=
  mkWatching (wr_store r) (wr_bus r) net (wr_writes r) (wr_watches r) (wr_seen r).
Definition with_wbus r bus : Watching :=
  mkWatching (wr_store r) bus (wr_net r) (wr_writes r) (wr_watches r) (wr_seen r).
Definition with_stage r i sub st : Watching :=
  mkWatching (wr_store r) (wr_bus r) (wr_net r) (wr_writes r) (<[i := (sub, st)]> (wr_watches r)) (wr_seen r).

(** The store after a write, and the write's fan-out if it has one. *)
Definition begin_write r st (w : option Write) : Watching :=
  mkWatching st (wr_bus r) (wr_net r) (wr_writes r ++ option_list w)%list (wr_watches r) (wr_seen r).

(** [retain] of the sessions that are not slow. *)
Definition drop_slow (bus : FanoutBus) (slow : list string) : FanoutBus :=
  match slow, bus !! key with
  | [], _ | _, None => bus
  | _, Some subs => <[key := List.filter (λ s, negb (existsb (String.eqb (session_id s)) slow)) subs]> bus
  end.

(** [session.watch_stream_id] of the writer: its watch on the key, if it has begun. *)
Definition own_watch r (me : string) : option Subscriber :=
  fst <$> List.find (λ w, String.eqb (session_id w.1) me && match w.2 with Unsubscribed => false | _ => true end)
            (wr_watches r).

(** One action; [None] when it is not enabled. *)
Definition act r (a : Act) : option Watching :=
  match a with
  | ASet me v =>
      let '((version, ops), st) := store_apply (wr_store r) key v in
      Some (begin_write r st (match ops with [] => None | _ => Some (Applied me (encode_delta_body version ops)) end))
  | ADelete me =>
      let '(res, st) := store_delete (wr_store r) key in
      Some (begin_write r st ((λ '(version, ops), Applied me (encode_delta_body version ops)) <$> res))
  | ASnapshot j =>
      match wr_writes r !! j with
      | Some (Applied me b) =>
          Some (with_writes r (<[j := Sending me b (List.filter (not_excluded (Some me)) (subs_of (wr_bus r) key)) []]> (wr_writes r)))
      | _ => None
      end
  | ASend j =>
      match wr_writes r !! j with
      | Some (Sending me b (s :: rest) slow) =>
          let '(ok, net) := handle_send (wr_net r) (write s) (OArcDelta (sub_stream_id s) b) in
          Some (with_writes (with_wnet r net)
                  (<[j := Sending me b rest (if ok then slow else slow ++ [session_id s])%list]> (wr_writes r)))
      | _ => None
      end
  | AFinish j =>
      match wr_writes r !! j with
      | Some (Sending me b [] slow) =>
          Some (with_writes (with_wbus r (drop_slow (wr_bus r) slow)) (<[j := Fanned me b]> (wr_writes r)))
      | _ => None
      end
  | AOwn j =>
      match wr_writes r !! j with
      | Some (Fanned me b) =>
          let net := match own_watch r me with
                     | Some s => (handle_send (wr_net r) (write s) (OBytes (delta_bytes (sub_stream_id s) 0 b))).2
                     | None => wr_net r
                     end in
          Some (with_writes (with_wnet r net) (delete j (wr_writes r)))
      | _ => None
      end
  | ASubscribe i =>
      match wr_watches r !! i with
      | Some (sub, Unsubscribed) => Some (with_stage (with_wbus r (subscribe (wr_bus r) key sub)) i sub Subscribed)
      | _ => None
      end
  | ARead i =>
      match wr_watches r !! i with
      | Some (sub, Subscribed) =>
          let '(version, v, initialized) := init_of (wr_store r) key in
          Some (with_stage r i sub (HasRead version v initialized))
      | _ => None
      end
  | AInit i seq params =>
      match wr_watches r !! i with
      | Some (sub, HasRead version v initialized) =>
          let msg := OFrame (state_init (sub_stream_id sub) seq key version v initialized params) in
          Some (with_stage (with_wnet r (handle_send (wr_net r) (write sub) msg).2) i sub Told)
      | _ => None
      end
  | ADeliver h =>
      match handles (wr_net r) !! h with
      | Some wh =>
          match h_queue wh with
          | m :: q =>
              Some (mkWatching (wr_store r) (wr_bus r) (with_handle (wr_net r) h (take_oldest wh q (h_wire wh)))
                      (wr_writes r) (wr_watches r) (receive (wr_seen r) h m))
          | [] => None
          end
      | None => None
      end
  end.

(** A run of actions, all of which [ok] accepts. *)
Fixpoint race (ok : Watching → Act → bool) r (acts : list Act) : option Watching :=
  match acts with
  | [] => Some r
  | a :: acts' => if ok r a then match act r a with Some r' => race ok r' acts' | None => None end else None
  end.

(** ** Schedules *)

Definition same_stream (a b : Subscriber) : bool :=
  Nat.eqb (write a) (write b) && (sub_stream_id a =? sub_stream_id b)%Z.

Definition at_rest (st : WatchStage) : bool := match st with Unsubscribed | Told => true | _ => false end.

(** The task of session [me] is not in the middle of its own watch, *)
Definition between_frames r (me : string) : bool :=
  forallb (λ w, negb (String.eqb (session_id w.1) me) || at_rest w.2) (wr_watches r).

(** nor in the middle of a write. *)
Definition not_writing r (i : nat) : bool :=
  match wr_watches r !! i with
  | Some (sub, _) => forallb (λ w, negb (String.eqb (writer_of w) (session_id sub))) (wr_writes r)
  | None => true
  end.

(** What is asked of a schedule: written values are well formed with field names a path can
    carry, the version counter does not overflow, and a connection's task
    handles one frame after the other. *)
Definition valid r (a : Act) : bool :=
  match a with
  | ASet me v => wf_value v && pointer_safe v && (st_version (wr_store r) <? u64_max)%Z && between_frames r me
  | ADelete me => (st_version (wr_store r) <? u64_max)%Z && between_frames r me
  | ASubscribe i | ARead i | AInit i _ _ => not_writing r i
  | _ => true
  end.

Definition has_read (st : WatchStage) : bool := match st with HasRead _ _ _ => true | _ => false end.

(** One write at a time, and no DELTA queued for a stream between its watch's
    read of the store and its STATE_INIT. *)
Definition calm r (a : Act) : bool :=
  match a with
  | ASet _ _ | ADelete _ => match wr_writes r with [] => true | _ => false end
  | ASend j =>
      match wr_writes r !! j with
      | Some (Sending _ _ (s :: _) _) => forallb (λ w, negb (same_stream s w.1 && has_read w.2)) (wr_watches r)
      | _ => true
      end
  | _ => true
  end.

Definition valid_calm r (a : Act) : bool := valid r a && calm r a.

(** ** The invariant *)

(** What the client of a watch holds, or will hold when STATE_INIT is queued. *)
Definition shown r (sub : Subscriber) (st : WatchStage) : option Value :=
  match st with
  | HasRead _ v _ => Some v
  | Told => Some (client_view (wr_seen r (write sub) (sub_stream_id sub)) (sub_stream_id sub)
                    (queue_of (wr_net r) (write sub)))
  | _ => None
  end.

Definition live r (sub : Subscriber) : Prop := cancelled_of (wr_net r) (write sub) = false.

(** A DELTA for [sub] is still to be queued. *)
Definition owed r (sub : Subscriber) : Prop :=
  match wr_writes r with
  | Applied _ _ :: _ => True
  | Sending me _ rest _ :: _ => sub ∈ rest ∨ session_id sub = me
  | Fanned me _ :: _ => session_id sub = me
  | [] => False
  end.

(** The writer is not in the middle of a watch. *)
Definition rests r (me : string) : Prop :=
  ∀ i sub st, wr_watches r !! i = Some (sub, st) → session_id sub = me → at_rest st = true.

(** What holds of the only write in flight, whose delta leads from [old] to the
    stored value [new]. *)
Definition write_ok r (old new : Value) : Prop :=
  let law b := (∀ x, x ≡ old → apply_body x b ≡ new) ∧ (∀ x, x ≡ new → apply_body x b ≡ new) in
  match wr_writes r with
  | [] => True
  | [Applied me b] | [Fanned me b] => law b ∧ rests r me
  | [Sending me b rest slow] =>
      law b ∧ rests r me ∧
      (∀ sub, sub ∈ rest → session_id sub ≠ me ∧ ∃ i st, wr_watches r !! i = Some (sub, st)) ∧
      (∀ i sub st, wr_watches r !! i = Some (sub, st) → session_id sub ∈ slow → ¬ live r sub)
  | _ => False
  end.

(** The watches are of distinct sessions, on handles that exist. *)
Record watches_ok (ws : list (Subscriber * WatchStage)) (net : Net) : Prop := {
  wo_once : ∀ i j a b, ws !! i = Some a → ws !! j = Some b → session_id a.1 = session_id b.1 → i = j;
  wo_streams : ∀ i a, ws !! i = Some a → (0 ≤ sub_stream_id a.1 ≤ u32_max)%Z;
  wo_sessions : ∀ i j a b, ws !! i = Some a → ws !! j = Some b →
    session_id a.1 = session_id b.1 ↔ write a.1 = write b.1;
  wo_handles : ∀ i a, ws !! i = Some a → is_Some (handles net !! write a.1);
}.

Record race_ok r : Prop := {
  ro_store : store_inv (wr_store r);
  ro_safe : pointer_safe (store_value (wr_store r) key) = true;
  ro_watches : watches_ok (wr_watches r) (wr_net r);
  ro_bus : ∀ sub, sub ∈ subs_of (wr_bus r) key → ∃ i st, wr_watches r !! i = Some (sub, st);
  ro_subscribed : ∀ i sub st, wr_watches r !! i = Some (sub, st) → st ≠ Unsubscribed → live r sub →
    sub ∈ subs_of (wr_bus r) key;
  ro_views : ∃ old, write_ok r old (store_value (wr_store r) key) ∧
    ∀ i sub st x, wr_watches r !! i = Some (sub, st) → live r sub → shown r sub st = Some x →
      x ≡ store_value (wr_store r) key ∨ (x ≡ old ∧ owed r sub);
}.

(** ** Preservation *)

Implicit Types (sub : Subscriber) (st : WatchStage).

Lemma same_stream_spec a b :
  same_stream a b = true ↔ write a = write b ∧ sub_stream_id a = sub_stream_id b.
Proof. unfold same_stream. rewrite andb_true_iff, Nat.eqb_eq, Z.eqb_eq. done. Qed.

Lemma wo_distinct ws net i j a b :
  watches_ok ws net → ws !! i = Some a → ws !! j = Some b → same_stream a.1 b.1 = true → i = j.
Proof.
  intros [W1 _ W3 _] Hi Hj [Hw _]%same_stream_spec. apply (W1 i j a b Hi Hj). by apply (W3 i j a b Hi Hj).
Qed.

Lemma between_frames_rests r me : between_frames r me = true → rests r me.
Proof.
  intros Hb i sub st Hi Hs. pose proof (forallb_elem _ _ _ Hb (list_elem_of_lookup_2 _ _ _ Hi)) as Hw. cbn in Hw.
  by rewrite Hs, String.eqb_refl in Hw.
Qed.

(** A write takes effect on the store while no other is in flight. *)
Lemma begin_ok r s w :
  race_ok r → wr_writes r = [] → store_inv s → pointer_safe (store_value s key) = true →
  match w with
  | None => store_value (wr_store r) key ≡ store_value s key
  | Some (Applied me b) =>
      rests r me ∧
      (∀ x, x ≡ store_value (wr_store r) key → apply_body x b ≡ store_value s key) ∧
      (∀ x, x ≡ store_value s key → apply_body x b ≡ store_value s key)
  | Some _ => False
  end →
  race_ok (begin_write r s w).
Proof.
  intros [Hs Hp Hw Hb Hsu (old & _ & Hv)] Hn Hs' Hp' Hlaw. unfold owed in Hv. rewrite Hn in Hv.
  split; [done..|]. cbn. exists (store_value (wr_store r) key).
  unfold write_ok, owed, begin_write, shown, live. cbn. rewrite Hn.
  destruct w as [[me b| |]|]; cbn; [|done|done|].
  - destruct Hlaw as (Hf & Hl). split; [done|]. intros i sub st x Hi Hlv Hx.
    destruct (Hv i sub st x Hi Hlv Hx) as [?|[_ []]]; auto.
  - split; [done|]. intros i sub st x Hi Hlv Hx. left.
    destruct (Hv i sub st x Hi Hlv Hx) as [E|[_ []]]. by rewrite E.
Qed.

Context `{!BodyLaw}.

Lemma set_ok r me v r' :
  race_ok r → valid_calm r (ASet me v) = true → act r (ASet me v) = Some r' → race_ok r'.
Proof.
  intros Hr Hok Hact. unfold valid_calm, valid, calm in Hok. bool_to_prop.
  destruct (wr_writes r) eqn:Hn; [|done].
  pose proof (ro_store r Hr) as Hi. pose proof (ro_safe r Hr) as Hp. cbn [act] in Hact.
  pose proof (store_apply_result (wr_store r) key v) as Hres.
  pose proof (store_value_apply (wr_store r) key v) as Hv.
  pose proof (store_apply_inv (wr_store r) key v Hi ltac:(done) ltac:(lia)) as Hi'.
  destruct (store_apply (wr_store r) key v) as [[version ops] s]. cbn [fst snd] in *.
  injection Hres as _ ->. injection Hact as <-. apply begin_ok; rewrite ?Hv; try done.
  destruct (apply_emits (wr_store r) key v) as [|o ops] eqn:E.
  - apply apply_emits_nil in E as (e & He & Heq); [|done..]. unfold store_value. by rewrite He.
  - rewrite <- E. split; [by apply between_frames_rests|]. split; intros x Hx; rewrite apply_body_encode, Hx;
      [by apply apply_emits_sound|by apply apply_emits_again].
Qed.

Lemma delete_ok r me r' :
  race_ok r → valid_calm r (ADelete me) = true → act r (ADelete me) = Some r' → race_ok r'.
Proof.
  intros Hr Hok Hact. unfold valid_calm, valid, calm in Hok. bool_to_prop.
  destruct (wr_writes r) eqn:Hn; [|done].
  pose proof (ro_store r Hr) as Hi. cbn [act] in Hact.
  pose proof (store_delete_inv (wr_store r) key Hi ltac:(lia)) as Hi'.
  destruct (store_get (wr_store r) key) as [e|] eqn:E.
  - destruct (store_delete_present (wr_store r) key e E) as (Hres & Hen & _).
    destruct (store_delete (wr_store r) key) as [res s]. cbn [fst snd] in *. subst res.
    assert (Hv : store_value s key = VNull)
      by (unfold store_value, store_get; by rewrite Hen, lookup_delete_eq).
    injection Hact as <-. cbn. apply begin_ok; rewrite ?Hv; try done. split; [by apply between_frames_rests|].
    split; intros x Hx; by rewrite apply_body_encode.
  - rewrite store_delete_absent in Hact, Hi' by done. injection Hact as <-.
    apply begin_ok; try done. by apply ro_safe.
Qed.

Lemma writes_one r j w :
  race_ok r → wr_writes r !! j = Some w → j = 0 ∧ wr_writes r = [w].
Proof.
  intros Hr Hj. destruct (ro_views r Hr) as (old & Hw & _). unfold write_ok in Hw.
  destruct (wr_writes r) as [|[] []]; try done; destruct j; try done; cbn in Hj; by injection Hj as <-.
Qed.

Lemma snapshot_ok r j r' : race_ok r → act r (ASnapshot j) = Some r' → race_ok r'.
Proof.
  intros Hr Hact. cbn [act] in Hact. destruct (wr_writes r !! j) as [[me b| |]|] eqn:Ej; try done.
  destruct (writes_one r j _ Hr Ej) as [-> Hws]. injection Hact as <-. rewrite Hws.
  destruct Hr as [Hs Hp Hw Hb Hsu (old & Hwo & Hv)]. unfold write_ok in Hwo. rewrite Hws in Hwo.
  destruct Hwo as [Hlaw Hf]. split; [done..|]. exists old. split.
  - unfold write_ok. cbn. split_and!; [apply Hlaw|apply Hlaw|exact Hf| |].
    + intros sub [Hin Hne]%list_elem_of_In%filter_In. split; [|by apply Hb, list_elem_of_In].
      cbn in Hne. unfold not_session in Hne. by apply negb_true_iff, String.eqb_neq in Hne.
    + intros i sub st _ Hin. by apply elem_of_nil in Hin.
  - intros i sub st x Hi Hl Hx. destruct (Hv i sub st x Hi Hl Hx) as [?|[? _]]; [by left|right].
    split; [done|]. unfold owed. cbn. destruct (decide (session_id sub = me)) as [->|Hne]; [by right|left].
    apply list_elem_of_In, filter_In. split.
    + apply list_elem_of_In. apply (Hsu i sub st Hi); [by destruct st|done].
    + cbn. unfold not_session. by apply negb_true_iff, String.eqb_neq.
Qed.

Lemma finish_ok r j r' : race_ok r → act r (AFinish j) = Some r' → race_ok r'.
Proof.
  intros Hr Hact. cbn [act] in Hact. destruct (wr_writes r !! j) as [[|me b [] slow|]|] eqn:Ej; try done.
  destruct (writes_one r j _ Hr Ej) as [-> Hws]. injection Hact as <-. rewrite Hws.
  destruct Hr as [Hs Hp Hw Hb Hsu (old & Hwo & Hv)]. unfold write_ok in Hwo. rewrite Hws in Hwo.
  destruct Hwo as (Hlaw & Hrest & Hin & Hslow).
  assert (Hsub : ∀ sub, sub ∈ subs_of (drop_slow (wr_bus r) slow) key ↔
    sub ∈ subs_of (wr_bus r) key ∧ session_id sub ∉ slow).
  { intros sub. unfold drop_slow, subs_of. destruct slow as [|i0 slow].
    { rewrite elem_of_nil. naive_solver. }
    destruct (wr_bus r !! key) as [subs|] eqn:E; [|rewrite E; cbn; rewrite elem_of_nil; naive_solver].
    rewrite lookup_insert_eq. cbn [default from_option id].
    rewrite list_elem_of_In, filter_In, negb_true_iff, <- not_true_iff_false, existsb_exists, <- list_elem_of_In.
    split; intros [? Hno]; (split; [done|]).
    - intros Hsl. apply Hno. exists (session_id sub). split; [by apply list_elem_of_In|apply String.eqb_refl].
    - intros (y & Hy & E1). apply String.eqb_eq in E1 as <-. by apply Hno, list_elem_of_In. }
  split; [done..| | |].
  - intros sub [? _]%Hsub. by apply Hb.
  - intros i sub st Hi Hst Hl. apply Hsub. split; [by eapply Hsu|]. intros Hsl. by eapply Hslow.
  - exists old. split; [done|]. intros i sub st x Hi Hl Hx.
    destruct (Hv i sub st x Hi Hl Hx) as [?|[? Ho]]; [by left|right]. split; [done|].
    unfold owed in *. rewrite Hws in Ho. cbn. destruct Ho as [Ho|Ho]; [by apply elem_of_nil in Ho|done].
Qed.

(** A message for one handle: who is still live was live, and sees it last. *)
Lemma send_effect net h m (r0 : nat) :
  is_Some (handles net !! h) → cancelled_of (handle_send net h m).2 r0 = false →
  cancelled_of net r0 = false ∧
  queue_of (handle_send net h m).2 r0 = (queue_of net r0 ++ (if decide (r0 = h) then [m] else []))%list.
Proof.
  intros Hh. pose proof (handle_send_spec net h m r0 Hh) as Hspec.
  destruct (handle_send net h m) as [ok net']. destruct Hspec as (_ & Hq & _ & Hc & _). cbn.
  rewrite Hc, Hq. intros [-> Hok]%orb_false_iff. split; [done|].
  destruct (decide (r0 = h)); [|done]. by destruct ok.
Qed.

Lemma send_watches_ok ws net h m : watches_ok ws net → is_Some (handles net !! h) → watches_ok ws (handle_send net h m).2.
Proof.
  intros [W1 W0 W2 W3] Hh. split; [done..|]. intros i a Hi.
  pose proof (handle_send_spec net h m (write a.1) Hh) as Hspec.
  destruct (handle_send net h m) as [ok net']. apply Hspec. by eapply W3.
Qed.

(** A DELTA for [s], for the view of [sub]. *)
Lemma view_delta x0 q h s sub b :
  write s = h →
  client_view x0 (sub_stream_id sub) (q ++ (if decide (write sub = h) then [OArcDelta (sub_stream_id s) b] else []))%list =
  let x := client_view x0 (sub_stream_id sub) q in
  if same_stream s sub then apply_body x b else x.
Proof.
  intros <-. unfold same_stream. destruct (decide (write sub = write s)) as [Hw|Hw].
  - rewrite client_view_snoc, Hw, Nat.eqb_refl. done.
  - rewrite app_nil_r. by rewrite (proj2 (Nat.eqb_neq (write s) (write sub))) by congruence.
Qed.

Lemma send_ok r j r' :
  race_ok r → valid_calm r (ASend j) = true → act r (ASend j) = Some r' → race_ok r'.
Proof.
  intros Hr Hok Hact. unfold valid_calm, valid, calm in Hok. cbn [act andb] in Hok, Hact.
  destruct (wr_writes r !! j) as [[|me b [|s rest] slow|]|] eqn:Ej; try done.
  destruct (writes_one r j _ Hr Ej) as [-> Hws]. rewrite Hws in Hact. cbn in Hact.
  destruct Hr as [Hs Hp Hw Hb Hsu (old & Hwo & Hv)]. unfold write_ok in Hwo. rewrite Hws in Hwo.
  destruct Hwo as ([Hl1 Hl2] & Hrest & Hin & Hslow).
  destruct (Hin s) as (Hsme & i0 & st0 & Hi0); [left|].
  assert (Hh : is_Some (handles (wr_net r) !! write s)) by apply (wo_handles _ _ Hw _ _ Hi0).
  pose proof (λ n : nat, send_effect (wr_net r) (write s) (OArcDelta (sub_stream_id s) b) n Hh) as Heff.
  pose proof (send_watches_ok _ _ (write s) (OArcDelta (sub_stream_id s) b) Hw Hh) as Hw'.
  pose proof (handle_send_spec (wr_net r) (write s) (OArcDelta (sub_stream_id s) b) (write s) Hh) as Hspec.
  destruct (handle_send (wr_net r) (write s) _) as [ok net]. cbn [snd] in *. injection Hact as <-.
  destruct Hspec as (_ & _ & _ & Hcs & _). rewrite decide_True in Hcs by done.
  split; [done..| |].
  - intros i sub st Hi Hst Hl. eapply Hsu; [done..|]. by apply Heff.
  - exists old. split.
    + unfold write_ok. cbn. split_and!; [done|done|exact Hrest|intros sub Hsub; apply Hin; by right|].
      intros i sub st Hi Hsl Hl. pose proof (proj1 (Heff _ Hl)) as Hl0.
      assert (session_id sub ∈ slow ∨ ok = false ∧ session_id sub = session_id s) as [Hsl'|[-> Hid]].
      { destruct ok; [by left|]. apply elem_of_app in Hsl as [?|?%list_elem_of_singleton]; auto. }
      * by eapply Hslow.
      * apply (wo_sessions _ _ Hw i i0 _ _ Hi Hi0) in Hid. cbn in Hid. unfold live in Hl. cbn in Hl.
        rewrite Hid, Hcs in Hl. cbn in Hl. by rewrite orb_true_r in Hl.
    + intros i sub st x Hi Hl Hx. change (wr_watches r !! i = Some (sub, st)) in Hi.
      destruct (Heff _ Hl) as [Hl0 Hq].
      destruct (same_stream s sub) eqn:Hss.
      * assert (i0 = i) as <- by (by apply (wo_distinct _ _ i0 i _ _ Hw Hi0 Hi)).
        rewrite Hi0 in Hi. injection Hi as <- <-.
        rewrite forallb_forall in Hok. specialize (Hok (s, st0)). cbn in Hok.
        rewrite Hss in Hok. left. destruct st0; cbn in Hx; try done.
        { cbn in Hok. by specialize (Hok ltac:(by eapply list_elem_of_In, list_elem_of_lookup_2)). }
        injection Hx as <-. rewrite Hq, view_delta, Hss by done. cbv zeta.
        destruct (Hv i0 s Told _ Hi0 Hl0 eq_refl) as [?|[? _]]; auto.
      * assert (Hx0 : shown r sub st = Some x).
        { destruct st; try done. cbn in *. rewrite Hq, view_delta, Hss in Hx by done. exact Hx. }
        destruct (Hv i sub st x Hi Hl0 Hx0) as [?|[? Ho]]; [by left|right]. split; [done|].
        unfold owed in *. cbn. rewrite Hws in Ho. destruct Ho as [Ho|?]; [|by right].
        apply elem_of_cons in Ho as [->|?]; [|by left]. exfalso. apply not_true_iff_false in Hss. by apply Hss, same_stream_spec.
Qed.

Lemma own_watch_spec r me :
  match own_watch r me with
  | Some s => ∃ i st, wr_watches r !! i = Some (s, st) ∧ session_id s = me ∧ st ≠ Unsubscribed
  | None => ∀ i s st, wr_watches r !! i = Some (s, st) → session_id s = me → st = Unsubscribed
  end.
Proof.
  unfold own_watch. destruct (List.find _ (wr_watches r)) as [[s st]|] eqn:E; cbn.
  - apply find_Some_elem in E as [[i Hi]%list_elem_of_lookup_1 Hk]. cbn in Hk. bool_to_prop.
    exists i, st. split_and!; [done|done|by intros ->].
  - intros i s st Hi Hs. pose proof (find_None_elem _ _ E (s, st) (list_elem_of_lookup_2 _ _ _ Hi)) as Hn. cbn in Hn.
    rewrite Hs, String.eqb_refl in Hn. by destruct st.
Qed.

Lemma own_delta_ok r j r' : race_ok r → act r (AOwn j) = Some r' → race_ok r'.
Proof.
  intros Hr Hact. cbn [act] in Hact. destruct (wr_writes r !! j) as [[| |me b]|] eqn:Ej; try done.
  destruct (writes_one r j _ Hr Ej) as [-> Hws]. rewrite Hws in Hact. injection Hact as <-.
  destruct Hr as [Hs Hp Hw Hb Hsu (old & Hwo & Hv)]. unfold write_ok in Hwo. rewrite Hws in Hwo.
  destruct Hwo as ([Hl1 Hl2] & Hrest). unfold owed in Hv. rewrite Hws in Hv.
  pose proof (own_watch_spec r me) as Ho. destruct (own_watch r me) as [s|].
  - destruct Ho as (i0 & st0 & Hi0 & Hme & Hst0).
    assert (st0 = Told) as -> by (pose proof (Hrest i0 s st0 Hi0 Hme); by destruct st0).
    assert (Hh : is_Some (handles (wr_net r) !! write s)) by apply (wo_handles _ _ Hw _ _ Hi0).
    set (m := OBytes _). pose proof (λ n : nat, send_effect (wr_net r) (write s) m n Hh) as Heff.
    split; [done|done|by apply send_watches_ok|done| |].
    + intros i sub st Hi Hst Hl. eapply Hsu; [done..|]. by apply Heff.
    + exists old. split; [done|]. intros i sub st x Hi Hl Hx. left. change (wr_watches r !! i = Some (sub, st)) in Hi.
      destruct (Heff _ Hl) as [Hl0 Hq]. destruct (decide (i = i0)) as [->|Hne].
      * rewrite Hi0 in Hi. injection Hi as <- <-. cbn in Hx. injection Hx as <-.
        pose proof (wo_streams _ _ Hw _ _ Hi0) as Hrange. cbn in Hrange.
        rewrite Hq, decide_True, client_view_snoc by done. unfold m.
        rewrite client_step_bytes, Z.eqb_refl by (done || unfold u64_max; lia).
        destruct (Hv i0 s Told _ Hi0 Hl0 eq_refl) as [?|[? _]]; auto.
      * assert (Hother : session_id sub ≠ me) by (intros E; apply Hne; eapply (wo_once _ _ Hw); [exact Hi|exact Hi0|by cbn; congruence]).
        assert (Hx0 : shown r sub st = Some x).
        { destruct st; try done. cbn in *. rewrite Hq, decide_False, app_nil_r in Hx; [done|].
          intros E. apply (wo_sessions _ _ Hw _ _ _ _ Hi Hi0) in E. cbn in E. congruence. }
        by destruct (Hv i sub st x Hi Hl0 Hx0) as [?|[_ ?]].
  - split; [done..|]. exists old. split; [done|]. intros i sub st x Hi Hl Hx. left. change (wr_watches r !! i = Some (sub, st)) in Hi.
    destruct (Hv i sub st x Hi Hl Hx) as [?|[_ Hme]]; [done|]. by rewrite (Ho i sub st Hi Hme) in Hx.
Qed.

(** Actions of watches and clients leave the store and the writes alone. *)
Lemma same_subs_lookup (ws ws' : list (Subscriber * WatchStage)) i a :
  ws'.*1 = ws.*1 → ws' !! i = Some a → ∃ st, ws !! i = Some (a.1, st).
Proof.
  intros E Hi. assert (ws.*1 !! i = Some a.1) as Hf by (rewrite <- E, list_lookup_fmap, Hi; done).
  rewrite list_lookup_fmap in Hf. destruct (ws !! i) as [[sub st]|]; [|done]. injection Hf as ->. eauto.
Qed.

Lemma stage_subs (ws : list (Subscriber * WatchStage)) i sub st st' :
  ws !! i = Some (sub, st) → (<[i := (sub, st')]> ws).*1 = ws.*1.
Proof.
  intros Hi. rewrite list_fmap_insert. apply list_insert_id. by rewrite list_lookup_fmap, Hi.
Qed.

Lemma stage_lookup (ws : list (Subscriber * WatchStage)) i j sub st st' a :
  ws !! i = Some (sub, st) → <[i := (sub, st')]> ws !! j = Some a →
  (j = i ∧ a = (sub, st')) ∨ (j ≠ i ∧ ws !! j = Some a).
Proof.
  intros Hi Hj. destruct (decide (j = i)) as [->|Hne]; [left|right; by rewrite list_lookup_insert_ne in Hj].
  rewrite list_lookup_insert_eq in Hj by (by eapply lookup_lt_Some). by injection Hj as <-.
Qed.

Lemma keep_ok r r' :
  race_ok r → wr_store r' = wr_store r → wr_writes r' = wr_writes r →
  (wr_watches r').*1 = (wr_watches r).*1 →
  (∀ w, w ∈ wr_writes r → rests r (writer_of w) → rests r' (writer_of w)) →
  (∀ h, is_Some (handles (wr_net r) !! h) → is_Some (handles (wr_net r') !! h)) →
  (∀ sub, live r' sub → live r sub) →
  (∀ sub, sub ∈ subs_of (wr_bus r') key → ∃ i st, wr_watches r !! i = Some (sub, st)) →
  (∀ i sub st, wr_watches r' !! i = Some (sub, st) → st ≠ Unsubscribed → live r' sub →
     sub ∈ subs_of (wr_bus r') key) →
  (∀ i sub st x, wr_watches r' !! i = Some (sub, st) → live r' sub → shown r' sub st = Some x →
     x ≡ store_value (wr_store r) key ∨
     ∃ st0, wr_watches r !! i = Some (sub, st0) ∧ shown r sub st0 = Some x) →
  race_ok r'.
Proof.
  intros [Hs Hp [W1 W0 W2 W3] Hb Hsu (old & Hwo & Hv)] Est Ews Esub Hrests Hh Hl Hb' Hsu' Hv'.
  assert (Hback : ∀ i a, wr_watches r' !! i = Some a → ∃ st, wr_watches r !! i = Some (a.1, st))
    by (intros i a; by apply same_subs_lookup).
  assert (Hfwd : ∀ i a, wr_watches r !! i = Some a → ∃ st, wr_watches r' !! i = Some (a.1, st))
    by (intros i a; by apply same_subs_lookup).
  split; rewrite ?Est; [done|done| | |done|].
  - split.
    + intros i j a b (s1 & Hi)%Hback (s2 & Hj)%Hback. by apply (W1 i j (a.1, s1) (b.1, s2)).
    + intros i a (s1 & Hi)%Hback. by apply (W0 i (a.1, s1)).
    + intros i j a b (s1 & Hi)%Hback (s2 & Hj)%Hback. by apply (W2 i j (a.1, s1) (b.1, s2)).
    + intros i a (s1 & Hi)%Hback. apply Hh, (W3 i (a.1, s1) Hi).
  - intros sub (i & st & Hi)%Hb'. apply Hfwd in Hi as [st' Hi]. eauto.
  - exists old. split.
    + unfold write_ok in *. rewrite Ews. destruct (wr_writes r) as [|w0 ws]; [done|].
      specialize (Hrests w0 ltac:(left)). destruct w0 as [me b|me b rest slow|me b], ws; try done; cbn in Hrests.
      * destruct Hwo as [? ?]. auto.
      * destruct Hwo as (? & ? & Hrest & Hslow). split; [done|]. split; [by apply Hrests|]. split.
        { intros sub [? (i & st & Hi)]%Hrest. apply Hfwd in Hi as [st' Hi]. eauto. }
        intros i sub st (st' & Hi)%Hback Hin Hlive. by apply (Hslow i sub st' Hi Hin), Hl.
      * destruct Hwo as [? ?]. auto.
    + intros i sub st x Hi Hlive Hx. destruct (Hv' i sub st x Hi Hlive Hx) as [?|(st0 & Hi0 & Hx0)]; [by left|].
      unfold owed in *. rewrite Ews. apply (Hv i sub st0 x Hi0); [by apply Hl|done].
Qed.

(** A watch that moves on does not disturb a writer of another session. *)
Lemma rests_stage r r' i sub st st' :
  wr_watches r !! i = Some (sub, st) → not_writing r i = true → wr_watches r' = <[i := (sub, st')]> (wr_watches r) →
  ∀ w, w ∈ wr_writes r → rests r (writer_of w) → rests r' (writer_of w).
Proof.
  intros Hi Hn E w Hw Hr j s t Hj Hs. rewrite E in Hj. unfold not_writing in Hn. rewrite Hi in Hn.
  destruct (stage_lookup _ _ _ _ _ _ _ Hi Hj) as [[-> [= -> ->]]|[_ Hj']]; [|by eapply Hr].
  pose proof (forallb_elem _ _ _ Hn Hw) as Hne. cbn in Hne. apply negb_true_iff, String.eqb_neq in Hne. congruence.
Qed.

Lemma subscribe_ok r i r' : race_ok r → valid_calm r (ASubscribe i) = true → act r (ASubscribe i) = Some r' → race_ok r'.
Proof.
  intros Hr Hval Hact. apply andb_true_iff in Hval as [Hval _].
  cbn [act] in Hact. destruct (wr_watches r !! i) as [[sub []]|] eqn:Ei; try done.
  injection Hact as <-. apply (keep_ok r); cbn; try done.
  - by eapply stage_subs.
  - by eapply rests_stage.
  - intros s [Hin|[_ ->]]%subs_of_subscribe; [by apply (ro_bus r Hr)|eauto].
  - intros j s st Hj Hst Hl. apply subs_of_subscribe.
    destruct (stage_lookup _ _ _ _ _ _ _ Ei Hj) as [[-> [= -> ->]]|[_ Hj']]; [by right|left].
    by eapply (ro_subscribed r Hr).
  - intros j s st x Hj Hl Hx. right. destruct (stage_lookup _ _ _ _ _ _ _ Ei Hj) as [[-> [= -> ->]]|[_ Hj']]; [done|eauto].
Qed.

Lemma read_ok r i r' : race_ok r → valid_calm r (ARead i) = true → act r (ARead i) = Some r' → race_ok r'.
Proof.
  intros Hr Hval Hact. apply andb_true_iff in Hval as [Hval _].
  cbn [act] in Hact. destruct (wr_watches r !! i) as [[sub []]|] eqn:Ei; try done.
  pose proof (init_of_value (wr_store r) key) as Hv.
  destruct (init_of (wr_store r) key) as [[version v] ini]. cbn in Hv. subst v.
  injection Hact as <-. apply (keep_ok r); cbn; try done.
  - by eapply stage_subs.
  - by eapply rests_stage.
  - apply (ro_bus r Hr).
  - intros j s st Hj Hst Hl. destruct (stage_lookup _ _ _ _ _ _ _ Ei Hj) as [[-> [= -> ->]]|[_ Hj']];
      by eapply (ro_subscribed r Hr).
  - intros j s st x Hj Hl Hx. destruct (stage_lookup _ _ _ _ _ _ _ Ei Hj) as [[-> [= -> ->]]|[_ Hj']]; [left|eauto].
    cbn in Hx. by injection Hx as <-.
Qed.

Lemma init_ok r i seq params r' :
  race_ok r → valid_calm r (AInit i seq params) = true → act r (AInit i seq params) = Some r' → race_ok r'.
Proof.
  intros Hr Hval Hact. apply andb_true_iff in Hval as [Hval _].
  cbn [act] in Hact. destruct (wr_watches r !! i) as [[sub []]|] eqn:Ei; try done.
  set (msg := OFrame _) in Hact. injection Hact as <-. pose proof (ro_watches r Hr) as Hw.
  assert (Hh : is_Some (handles (wr_net r) !! write sub)) by apply (wo_handles _ _ Hw _ _ Ei).
  pose proof (λ n : nat, send_effect (wr_net r) (write sub) msg n Hh) as Heff.
  apply (keep_ok r); cbn; try done.
  - by eapply stage_subs.
  - by eapply rests_stage.
  - intros h Hsome. pose proof (handle_send_spec (wr_net r) (write sub) msg h Hh) as Hspec.
    destruct (handle_send _ _ _). by apply Hspec.
  - intros s Hl. by apply Heff.
  - apply (ro_bus r Hr).
  - intros j s st Hj Hst Hl. pose proof (proj1 (Heff _ Hl)) as Hl0.
    destruct (stage_lookup _ _ _ _ _ _ _ Ei Hj) as [[-> [= -> ->]]|[_ Hj']]; by eapply (ro_subscribed r Hr).
  - intros j s st x Hj Hl Hx. destruct (Heff _ Hl) as [Hl0 Hq]. right.
    destruct (stage_lookup _ _ _ _ _ _ _ Ei Hj) as [[-> [= -> ->]]|[Hne Hj']].
    + eexists. split; [done|]. cbn in *. rewrite Hq, decide_True, client_view_snoc in Hx by done.
      unfold msg in Hx. by rewrite client_step_init in Hx.
    + exists st. split; [done|]. destruct st; try done. cbn in *. rewrite Hq in Hx.
      destruct (decide (write s = write sub)) as [E|]; [|by rewrite app_nil_r in Hx].
      rewrite client_view_snoc in Hx. unfold msg in Hx. rewrite concerns_init in Hx; [done|].
      intros Es. apply Hne. apply (wo_distinct _ _ j i _ _ Hw Hj' Ei). by apply same_stream_spec.
Qed.

Lemma deliver_ok r h r' : race_ok r → act r (ADeliver h) = Some r' → race_ok r'.
Proof.
  intros Hr Hact. cbn [act] in Hact. destruct (handles (wr_net r) !! h) as [wh|] eqn:Eh; [|done].
  destruct (h_queue wh) as [|m q] eqn:Eq; [done|]. injection Hact as <-.
  assert (Hlive : ∀ n, cancelled_of (with_handle (wr_net r) h (take_oldest wh q (h_wire wh))) n = cancelled_of (wr_net r) n).
  { intros n. unfold cancelled_of, with_handle. cbn. destruct (decide (n = h)) as [->|];
      [by rewrite lookup_insert_eq, Eh|by rewrite lookup_insert_ne]. }
  apply (keep_ok r); unfold live; cbn; try done.
  - intros n Hn. destruct (decide (n = h)) as [->|]; [rewrite lookup_insert_eq; eauto|by rewrite lookup_insert_ne].
  - intros s. by rewrite Hlive.
  - apply (ro_bus r Hr).
  - intros j s st Hj Hst. rewrite Hlive. by eapply (ro_subscribed r Hr).
  - intros j s st x Hj Hl Hx. right. exists st. split; [done|]. destruct st; try done. cbn in *.
    rewrite <- Hx. f_equal. unfold receive, queue_of, with_handle. cbn.
    destruct (decide (write s = h)) as [->|]; [|by rewrite lookup_insert_ne].
    by rewrite lookup_insert_eq, Eh, Eq.
Qed.

Lemma act_ok r a r' : race_ok r → valid_calm r a = true → act r a = Some r' → race_ok r'.
Proof.
  destruct a; eauto using set_ok, delete_ok, snapshot_ok, send_ok, finish_ok, own_delta_ok, subscribe_ok, read_ok, init_ok,
    deliver_ok.
Qed.

(** ** Theorems *)

(** The start: no write in flight, no watch begun. *)
Record race_init r : Prop := {
  rn_store : store_inv (wr_store r);
  rn_safe : pointer_safe (store_value (wr_store r) key) = true;
  rn_bus : subs_of (wr_bus r) key = [];
  rn_writes : wr_writes r = [];
  rn_watches : watches_ok (wr_watches r) (wr_net r);
  rn_stages : Forall (λ w, w.2 = Unsubscribed) (wr_watches r);
}.

Lemma race_init_ok r : race_init r → race_ok r.
Proof.
  intros [Hs Hp Hb Hws Hw Hst]. rewrite Forall_forall in Hst.
  assert (Hun : ∀ i sub st, wr_watches r !! i = Some (sub, st) → st = Unsubscribed)
    by (intros i sub st Hi; apply (Hst (sub, st)); by eapply list_elem_of_lookup_2).
  split; [done..| | |].
  - intros sub. rewrite Hb. by intros ?%elem_of_nil.
  - intros i sub st Hi%Hun. done.
  - exists VNull. split; [unfold write_ok; by rewrite Hws|]. intros i sub st x Hi%Hun. by subst st.
Qed.

Lemma race_run_ok r acts r' : race_ok r → race valid_calm r acts = Some r' → race_ok r'.
Proof.
  revert r. induction acts as [|a acts IH]; intros r Hr Hrun; cbn in Hrun; [by injection Hrun as <-|].
  destruct (valid_calm r a) eqn:Ha; [|done]. destruct (act r a) as [r1|] eqn:E; [|done].
  eapply IH; [|exact Hrun]. by eapply act_ok.
Qed.

(** C7. Watches racing with writes. Subscribing, reading and announcing a watch,
    and applying, snapshotting and sending a write (the delta of the writer's own watch
    included) interleave freely, between any number of sessions that watch the key at most
    once and may write it, each handling one frame after the other.  It is asked that one write is in flight at a time, that no
    DELTA is queued for a stream between its watch's read of the store and its
    STATE_INIT, that written values have field names a path can carry, and that the
    version counter does not overflow.  Then, whenever no write is in flight, every announced watch that
    was not evicted holds the stored value (with the queued messages applied),
    whether the write came before, between or after the steps of the watch. *)
Theorem racing_watch_in_sync r0 acts r i sub :
  race_init r0 → race valid_calm r0 acts = Some r →
  wr_writes r = [] → wr_watches r !! i = Some (sub, Told) →
  cancelled_of (wr_net r) (write sub) = true ∨
  (sub ∈ subs_of (wr_bus r) key ∧
   client_view (wr_seen r (write sub) (sub_stream_id sub)) (sub_stream_id sub)
     (queue_of (wr_net r) (write sub)) ≡ store_value (wr_store r) key).
Proof.
  intros Hi Hrun Hw Hwatch. pose proof (race_run_ok r0 acts r (race_init_ok r0 Hi) Hrun) as Hr.
  destruct (cancelled_of (wr_net r) (write sub)) eqn:Hl; [by left|right].
  split; [by eapply (ro_subscribed r Hr)|].
  destruct (ro_views r Hr) as (old & _ & Hv). unfold owed in Hv. rewrite Hw in Hv.
  by destruct (Hv i sub Told _ Hwatch Hl eq_refl) as [?|[_ []]].
Qed.
End Race.

(** ** The steps run alone *)

Section Alone.
Context `{EntryCodec, HashOrder, BodyCodec, BodyDecoder}.
Context (key : string).

Abbreviation any := (λ (_ : Watching) (_ : Act), true).

Lemma race_app ok r acts1 acts2 :
  race key ok r (acts1 ++ acts2) = match race key ok r acts1 with Some r' => race key ok r' acts2 | None => None end.
Proof.
  revert r. induction acts1 as [|a acts1 IH]; intros r; [done|]. cbn.
  destruct (ok r a); [|done]. destruct (act key r a); [apply IH|done].
Qed.

Lemma race_sends r me b snapshot slow ws :
  wr_writes r = Sending me b snapshot slow :: ws →
  race key any r (replicate (length snapshot) (ASend 0)) =
  let '(slow', net) := send_loop (wr_net r) b snapshot in
  Some (with_writes (with_wnet r net) (Sending me b [] (slow ++ slow') :: ws)).
Proof.
  revert r slow. induction snapshot as [|s snapshot IH]; intros r slow Hw.
  - cbn. rewrite app_nil_r, <- Hw. by destruct r.
  - cbn [length replicate race act]. rewrite Hw. cbn [lookup list_lookup send_loop].
    destruct (handle_send (wr_net r) (write s) _) as [ok net]. cbn.
    rewrite (IH _ (if ok then slow else slow ++ [session_id s])%list) by done. cbn.
    destruct (send_loop net b snapshot) as [slow' net']. destruct ok; [done|]. by rewrite <- app_assoc.
Qed.

(** The fan-out steps refine [broadcast_encoded]. A write whose snapshot,
    sends and clean-up run without interruption leaves the bus and the queues
    [broadcast_encoded] leaves. *)
Theorem alone_is_broadcast r me b ws :
  wr_writes r = Applied me b :: ws →
  let n := length (List.filter (not_excluded (Some me)) (subs_of (wr_bus r) key)) in
  race key any r (ASnapshot 0 :: replicate n (ASend 0) ++ [AFinish 0]) =
  let '(bus, net) := broadcast_encoded (wr_bus r) (wr_net r) key b (Some me) in
  Some (mkWatching (wr_store r) bus net (Fanned me b :: ws) (wr_watches r) (wr_seen r)).
Proof.
  intros Hw n. cbn [race act]. rewrite Hw. cbn [lookup list_lookup insert list_insert].
  rewrite race_app. unfold n. rewrite (race_sends _ me b _ [] ws) by done. cbn [wr_net with_writes].
  unfold broadcast_encoded, subs_of. destruct (wr_bus r !! key) as [subs|] eqn:E;
    [change (default [] (Some subs)) with subs|].
  2:{ cbn. by destruct r. }
  destruct (List.filter (not_excluded (Some me)) subs) as [|s snapshot]; [cbn; by destruct r|].
  destruct (send_loop (wr_net r) b (s :: snapshot)) as [slow net].
  destruct slow as [|i slow]; cbn; unfold drop_slow; by rewrite ?E.
Qed.
End Alone.

(** ** Concrete races *)

Module RaceExamples.
Export SystemExamples.

Definition watcher : Subscriber := mkSubscriber "a" 10 0.
Definition start : Watching :=
  mkWatching (store_apply (store_new ∅) "k" (num 1)).2 ∅ (make_handle ModeTask (mkNet ∅ []) 0 8) []
    [(watcher, Unsubscribed)] (λ _ _, VNull).

Abbreviation race_k := (race "k").
Abbreviation valid_k := valid.

Lemma start_init : race_init "k" start.
Proof.
  split; try done.
  - apply store_apply_inv; [apply store_new_inv|done|done].
  - split.
    + intros [|i] [|j] a b; try done.
    + intros [|i] a; try done. cbn. by intros [= <-].
    + intros [|i] [|j] a b; try done. cbn. by intros [= <-] [= <-].
    + intros [|i] a; try done. cbn. intros [= <-]. by eexists.
  - by repeat constructor.
Qed.

(** The write lands between the watch's read and its STATE_INIT. *)
Definition late_init : list Act :=
  [ASubscribe 0; ARead 0; ASet "b" (num 2); ASnapshot 0; ASend 0; AFinish 0; AOwn 0; AInit 0 1 None].

(** The write is snapshotted before, and sent after, the STATE_INIT; then the watcher
    writes the key itself. *)
Definition early_init : list Act :=
  [ASubscribe 0; ARead 0; ASet "b" (num 2); ASnapshot 0; AInit 0 1 None; ASend 0; AFinish 0; AOwn 0; ADeliver 0;
   ASet "a" (num 3); ASnapshot 0; AFinish 0; AOwn 0].

(** Two writes; the second is sent first. *)
Definition crossed_writes : list Act :=
  [ASubscribe 0; ARead 0; AInit 0 1 None;
   ASet "b" (num 2); ASet "c" (num 3); ASnapshot 1; ASend 1; AFinish 1; AOwn 1; ASnapshot 0; ASend 0; AFinish 0; AOwn 0].

(** What is left of a race: the value the client of the watch holds once its
    queue is drained, the stored value, and whether it is at rest and live. *)
Definition outcome (r : option Watching) : option (Value * Value * bool) :=
  (λ r, (client_view (wr_seen r 0 10) 10 (queue_of (wr_net r) 0), store_value (wr_store r) "k",
         match wr_writes r with [] => negb (cancelled_of (wr_net r) 0) | _ => false end)) <$> r.
End RaceExamples.
Import RaceExamples.

Lemma racing_watch_in_sync_witness :
  ∃ r, race "k" valid_calm start early_init = Some r ∧
    (cancelled_of (wr_net r) 0 = true ∨ (watcher ∈ subs_of (wr_bus r) "k" ∧
     client_view (wr_seen r 0 10) 10 (queue_of (wr_net r) 0) ≡ store_value (wr_store r) "k")).
Proof.
  destruct (race "k" valid_calm start early_init) as [r|] eqn:E; [|vm_compute in E; done].
  exists r. split; [done|].
  apply (racing_watch_in_sync "k" start early_init r 0 watcher start_init E).
  - vm_compute in E. by injection E as <-.
  - vm_compute in E. by injection E as <-.
Defined.

(** Two orders that lose a change. Without the two conditions the client stays
    behind for good: when a write's DELTA is queued between a watch's read and its
    STATE_INIT, the STATE_INIT (the old value) comes last and the client keeps it;
    and when two writes send their deltas in the opposite order of their versions,
    the client keeps the earlier value.  In both runs the session is live, nothing
    is in flight and the stored value is another one. *)
Theorem watch_race_loses_write :
  outcome (race "k" valid start late_init) = Some (num 1, num 2, true) ∧
  outcome (race "k" valid start crossed_writes) = Some (num 2, num 3, true).
Proof. split; vm_compute; reflexivity. Qed.
