(* ===== verification/Startup.v ===== *)
(** * Starting a node (src/src/main.rs, the constructors of src/src/server.rs,
    [WriteMode::from_env] of src/src/write_pool.rs)

    From the arguments, the environment and the files to a configured server on
    an opened store, joined to the cluster if there is one; and the responses of
    the health and metrics endpoints.  The environment, the files, the JSON
    parsers, Redis and the outcome of binding the address are parameters.  Spawning the
    endpoints' tasks, signals and logging are left out. *)

From S2P Require Import Prelude RustStr Json JsonPath Delta Schema Acl Frame Log Store StorePersist Session WritePool Fanout Cluster Server ServerLogic ServerSafety ServerWatch Connection ServerSystem.

Local Open Scope string_scope.

(** ** Strings *)

(** [str::eq_ignore_ascii_case] *)
Definition ascii_lower (c : ascii) : ascii :=
  let n := Ascii.N_of_ascii c in
  if (65 <=? n)%N && (n <=? 90)%N then Ascii.ascii_of_N (n + 32) else c.

Fixpoint eq_ignore_ascii_case (a b : string) : bool :=
  match a, b with
  | EmptyString, EmptyString => true
  | String x a', String y b' => Ascii.eqb (ascii_lower x) (ascii_lower y) && eq_ignore_ascii_case a' b'
  | _, _ => false
  end.

Definition parse_u16 (s : string) : option Z :=
  parse_u64 s ≫= λ n, if (n <=? 65535)%Z then Some n else None.

(** [.filter(|s| !s.is_empty())] *)
Definition non_empty (s : option string) : option string :=
  s ≫= λ x, if String.eqb x "" then None else Some x.

(** ** The server *)

(** A new node: no subscriptions, connections or tasks. *)
Definition empty_world (st : StateStore) : World := mkWorld st bus_new (mkNet ∅ []) [].

Section Start.
Context `{EntryCodec, HashOrder, VersionSort, ClusterCodec}.

(** [std::env::var(..).ok()], [read_to_string], the two serde_json parsers, and
    [available_parallelism().ok()] *)
Context (env : string → option string) (read_file : string → result string string)
  (acl_from_str : string → result AclFile string)
  (schema_from_str : string → result (gmap string SchemaNode) string)
  (cores : option Z).
(** The files of a log directory, or the error of creating, listing or reading it; and
    [TcpListener::bind]. *)
Context (disk : string → result Dir string) (bind : string → result unit string).
(** [RedisCluster::connect], whose success gives the outcome of HGETALL, and
    [String::from_utf8] *)
Context (connect : string → result (result (list (list byte * list byte)) string) string)
  (from_utf8 : list byte → option string).

Definition read_acl : option AclRegistry :=
  env "SODP_ACL_FILE" ≫= λ path,
  match acl_from_file read_file acl_from_str path with Ok acl => Some acl | Err _ => None end.

(** The mode, and the number of workers of a pool. *)
Definition write_mode_from_env : WriteMode * option Z :=
  let mode := default "" (env "SODP_WRITE_MODE") in
  if eq_ignore_ascii_case mode "pool" then
    let n := default 4%Z cores in
    let pool_size := Z.max (default (n * 2)%Z (env "SODP_WRITE_POOL_SIZE" ≫= parse_u64)) 2 in
    (ModePool, Some pool_size)
  else (ModeTask, None).

(** The fields the three constructors share. *)
Definition server_config (schema : option SchemaRegistry) : SodpServer :=
  let '(max_connections, max_frame_bytes, ws_ping_interval, rate_writes, rate_watches, backpressure_limit) :=
    read_limits env in
  mkServer schema read_acl (read_jwt_config env read_file) max_connections max_frame_bytes
    ws_ping_interval rate_writes rate_watches false (Z.to_nat backpressure_limit) write_mode_from_env.1.

Definition server_new : SodpServer * World :=
  (server_config None, empty_world (store_new ∅)).

(** [StateStore::open] of a directory by name. *)
Definition open_store (log_dir : string) : result StateStore string :=
  let? dir := disk log_dir in store_open dir.

Definition server_new_persistent (log_dir : string) : result (SodpServer * World) string :=
  let? st := open_store log_dir in
  Ok (server_config None, empty_world st).

Definition server_with_schema (log_dir : option string) (schema_path : string) :
    result (SodpServer * World) string :=
  let? schema := schema_from_file read_file schema_from_str schema_path in
  let? st := match log_dir with
             | Some dir => open_store dir
             | None => Ok (store_new ∅)
             end in
  Ok (server_config (Some schema), empty_world st).

(** ** [main] *)

Definition arg_addr (args : list string) : string := default "0.0.0.0:7777" (args !! 1).
Definition arg_log_dir (args : list string) : option string := non_empty (args !! 2).
Definition arg_schema_file (args : list string) : option string := non_empty (args !! 3).

Definition main_server (args : list string) : result (SodpServer * World) string :=
  match arg_schema_file args with
  | Some sf => server_with_schema (arg_log_dir args) sf
  | None =>
      match arg_log_dir args with
      | Some dir => server_new_persistent dir
      | None => Ok server_new
      end
  end.

Definition with_cluster (srv : SodpServer) : SodpServer :=
  mkServer (c_schema srv) (c_acl srv) (c_jwt_config srv) (c_max_connections srv) (c_max_frame_bytes srv)
    (c_ws_ping_interval srv) (c_rate_writes srv) (c_rate_watches srv) true (c_backpressure srv) (c_write_mode srv).

(** The Redis block; every failure is logged and the node goes on alone. *)
Definition join_cluster (node : SodpServer * World) : SodpServer * World :=
  let '(srv, w) := node in
  match env "SODP_REDIS_URL" with
  | None => node
  | Some url =>
      match connect url with
      | Err _ => node
      | Ok reply =>
          match reply with
          | Err _ => node
          | Ok raw =>
              (with_cluster srv,
               mkWorld (load_entries (w_state w) (load_state from_utf8 raw)) (w_fanout w) (w_net w) (w_tasks w))
          end
      end
  end.

(** The node whose accept loop [main] gets to run: [listen] starts with [bind]. *)
Definition main_node (args : list string) : result (SodpServer * World) string :=
  let? node := main_server args in
  let joined := join_cluster node in
  let? _ := bind (arg_addr args) in
  Ok joined.

Definition health_port : option Z := env "SODP_HEALTH_PORT" ≫= parse_u16.
Definition metrics_port : option Z := env "SODP_METRICS_PORT" ≫= parse_u16.

(** ** When a node starts *)

Definition err_of {A} (r : result A string) : option string :=
  match r with Ok _ => None | Err e => Some e end.

Definition schema_error (args : list string) : option string :=
  arg_schema_file args ≫= λ sf, err_of (schema_from_file read_file schema_from_str sf).
Definition log_error (args : list string) : option string :=
  arg_log_dir args ≫= λ dir, err_of (open_store dir).
Definition bind_error (args : list string) : option string := err_of (bind (arg_addr args)).

(** C26. When a node starts. [main] returns an error before it serves exactly when the
    schema file named by the third argument cannot be read or parsed, or else the log
    directory named by the second cannot be opened, or else the address cannot be bound,
    and with the first of these errors; an ACL file, a JWT key or a Redis server
    that cannot be read never stop it. *)
Theorem start_error args e :
  main_node args = Err e ↔ head (omap id [schema_error args; log_error args; bind_error args]) = Some e.
Proof.
  unfold main_node, main_server, schema_error, log_error, bind_error, server_with_schema, server_new_persistent.
  destruct (bind (arg_addr args)) as [[]|eb]; (destruct (arg_schema_file args) as [sf|]; cbn;
    [destruct (schema_from_file read_file schema_from_str sf) as [sch|e']; cbn; [|naive_solver]|]);
    (destruct (arg_log_dir args) as [dir|]; cbn; [destruct (open_store dir); cbn|]); naive_solver.
Qed.

(** ** What a started node serves *)

(** The directory was left by a history of writes and restarts, of values with
    addressable keys. *)
Definition left_by_store (dir : Dir) : Prop :=
  ∃ s, persisted s ∧ dir = st_disk s ∧ ∀ k, pointer_safe (store_value s k) = true.

(** The cluster's hash holds [u64] versions and such values. *)
Definition shared_ok (es : list (string * Z * Value)) : Prop :=
  load_ok es ∧ Forall (λ '(_, _, x), pointer_safe x = true) es.

Definition safe_store (st : StateStore) : Prop :=
  store_inv st ∧ ∀ k, pointer_safe (store_value st k) = true.

Lemma safe_store_new : safe_store (store_new ∅).
Proof. split; [apply store_new_inv|]. intros k. unfold store_value, store_get. cbn. by rewrite lookup_empty. Qed.

Lemma safe_store_open dir st : left_by_store dir → store_open dir = Ok st → safe_store st.
Proof.
  intros (s & Hp%persisted_inv & -> & Hs) Ho.
  destruct (store_open_recovers s Hp) as (s' & Ho' & [Hi _] & Hr & _). rewrite Ho in Ho'. injection Ho' as <-.
  split; [done|]. intros k. specialize (Hr k). specialize (Hs k). unfold store_value in *.
  destruct (store_get s k) as [x|].
  - destruct Hr as (x' & -> & Hv & _). by rewrite Hv.
  - destruct Hr as [->|(x' & -> & ->)]; done.
Qed.

Lemma safe_store_load st es : safe_store st → shared_ok es → safe_store (load_entries st es).
Proof.
  intros [Hi Hs] [Hl Hsafe]. split; [by apply load_entries_inv|]. intros k.
  destruct (load_fold_spec es (st_entries st) k) as (_ & _ & H3). specialize (Hs k).
  unfold store_value, store_get, load_entries in *. cbn.
  destruct (fold_left load_entry es (st_entries st) !! k) as [e|]; [|done].
  destruct (H3 e eq_refl) as [E|Hin]; [by rewrite E in Hs|].
  rewrite Forall_forall in Hsafe. apply (Hsafe _ Hin).
Qed.

Lemma main_server_safe args srv w :
  (∀ dir files, arg_log_dir args = Some dir → disk dir = Ok files → left_by_store files) →
  main_server args = Ok (srv, w) → safe_store (w_state w) ∧ w = empty_world (w_state w).
Proof.
  intros Hd. unfold main_server, server_with_schema, server_new_persistent, server_new.
  assert (Hopen : ∀ dir st, arg_log_dir args = Some dir → open_store dir = Ok st → safe_store st).
  { intros dir st Ha. unfold open_store. destruct (disk dir) as [files|] eqn:Ef; cbn; [|done]. by eapply safe_store_open, Hd. }
  pose proof safe_store_new as Hn.
  destruct (arg_schema_file args) as [sf|]; [destruct (schema_from_file _ _ _); cbn; [|done]|];
    destruct (arg_log_dir args) as [dir|]; cbn; try (by intros [= <- <-]);
    destruct (open_store dir) as [st|] eqn:E; cbn; try done; intros [= <- <-]; eauto.
Qed.

Lemma main_node_safe args srv w :
  (∀ dir files, arg_log_dir args = Some dir → disk dir = Ok files → left_by_store files) →
  (∀ url raw, env "SODP_REDIS_URL" = Some url → connect url = Ok (Ok raw) → shared_ok (load_state from_utf8 raw)) →
  main_node args = Ok (srv, w) → safe_store (w_state w) ∧ w = empty_world (w_state w).
Proof.
  intros Hd Hc. unfold main_node. destruct (main_server args) as [[srv0 w0]|] eqn:E; [|done]. cbn.
  destruct (main_server_safe args srv0 w0 Hd E) as [Hs Hw]. destruct (bind (arg_addr args)); cbn; [|done].
  destruct (env "SODP_REDIS_URL") as [url|]; [|by intros [= <- <-]].
  destruct (connect url) as [[raw|]|] eqn:Ec; try (by intros [= <- <-]).
  intros [= <- <-]. cbn. rewrite Hw. split; [|done]. apply safe_store_load; [done|by eapply Hc].
Qed.
End Start.

Section Serve.
Context `{EntryCodec, HashOrder, VersionSort, ClusterCodec, BodyCodec, BodyDecoder, !BodyLaw}.
Context (env : string → option string) (read_file : string → result string string)
  (acl_from_str : string → result AclFile string)
  (schema_from_str : string → result (gmap string SchemaNode) string) (cores : option Z)
  (disk : string → result Dir string) (bind : string → result unit string)
  (connect : string → result (result (list (list byte * list byte)) string) string)
  (from_utf8 : list byte → option string).
Context (to_vec : Z * Z * Z * Value → result (list byte) string)
  (from_slice : list byte → result (Z * Z * Z * Value) string).
Context {DecodingKey : Type} (from_secret : string → DecodingKey)
  (from_rsa_pem : string → result DecodingKey string)
  (jwt_decode : bool → DecodingKey → string → result Claims string).
Context (sink : Message → bool).

End Serve.

(** ** The health and metrics endpoints *)

Definition CR : ascii := "013"%char.
Definition LF : ascii := "010"%char.
Definition crlf : string := String CR (String LF "").
Definition quoted (s : string) : string := String "034"%char (s ++ String "034"%char "").

(** [Display] of an integer. *)
Definition display (n : Z) : string := to_dec 20 n "".

Definition http_ok (content_type body : string) : string :=
  "HTTP/1.1 200 OK" ++ crlf ++ "Content-Type: " ++ content_type ++ crlf ++
  "Content-Length: " ++ display (Z.of_nat (String.length body)) ++ crlf ++ crlf ++ body.

Definition health_body (connections : Z) : string :=
  "{" ++ quoted "status" ++ ":" ++ quoted "ok" ++ "," ++ quoted "connections" ++ ":" ++ display connections ++
  "," ++ quoted "version" ++ ":" ++ quoted "0.1" ++ "}".

(** What every accepted connection of [run_health_server] gets, and of
    [run_metrics_server] for a rendered exposition. *)
Definition health_response (connections : Z) : string := http_ok "application/json" (health_body connections).
Definition metrics_response (rendered : string) : string := http_ok "text/plain; version=0.0.4" rendered.

(** *** An HTTP client *)

(** The line up to the first CR LF, and what follows. *)
Fixpoint read_line (s : string) : option (string * string) :=
  match s with
  | EmptyString => None
  | String a t =>
      match t with
      | String b u => if Ascii.eqb a CR && Ascii.eqb b LF then Some ("", u)
                      else (λ '(l, r), (String a l, r)) <$> read_line t
      | EmptyString => None
      end
  end.

(** The headers up to the empty line, and the body after it. *)
Fixpoint read_headers (fuel : nat) (s : string) : option (list string * string) :=
  match fuel with
  | O => None
  | S f =>
      match read_line s with
      | Some (EmptyString, rest) => Some ([], rest)
      | Some (l, rest) => (λ '(ls, b), (l :: ls, b)) <$> read_headers f rest
      | None => None
      end
  end.

Definition header (name : string) (ls : list string) : option string :=
  head (omap (str_strip_prefix (name ++ ": ")) ls).

(** Status line, content type and body; the body must have the length announced. *)
Definition http_read (s : string) : option (string * string * string) :=
  match read_line s with
  | Some (status, rest) =>
      match read_headers (String.length rest) rest with
      | Some (ls, body) =>
          match header "Content-Type" ls, header "Content-Length" ls ≫= parse_u64 with
          | Some ctype, Some n =>
              if (n =? Z.of_nat (String.length body))%Z then Some (status, ctype, body) else None
          | _, _ => None
          end
      | None => None
      end
  | None => None
  end.

Lemma read_line_app l r : str_contains CR l = false → read_line (l ++ crlf ++ r) = Some (l, r).
Proof.
  induction l as [|a l IH]; [done|]. cbn [str_contains]. intros [Ha Hl]%orb_false_iff. specialize (IH Hl).
  cbn [String.append]. destruct (l ++ crlf ++ r) as [|b u] eqn:Et; [by destruct l|].
  cbn [read_line] in *. rewrite Ha, IH. done.
Qed.

Lemma read_headers_line f l r :
  str_contains CR l = false → l ≠ "" →
  read_headers (S f) (l ++ crlf ++ r) = (λ '(ls, b), (l :: ls, b)) <$> read_headers f r.
Proof. intros Hl Hne. cbn [read_headers]. rewrite read_line_app by done. by destruct l. Qed.

Lemma read_headers_end f r : read_headers (S f) (crlf ++ r) = Some ([], r).
Proof. done. Qed.

(** The HTTP responses read back. Whatever the body, a client that reads the
    status line, the headers up to the empty line and then exactly the announced
    number of bytes gets the body and the content type that were sent: the
    Content-Length is the body's length. *)
Theorem http_ok_reads_back content_type body :
  str_contains CR content_type = false → (Z.of_nat (String.length body) ≤ u64_max)%Z →
  http_read (http_ok content_type body) = Some ("HTTP/1.1 200 OK", content_type, body).
Proof.
  intros Hc Hb. unfold http_read, http_ok. set (n := Z.of_nat (String.length body)).
  rewrite read_line_app by done.
  assert (Hf : ∃ f, String.length ("Content-Type: " ++ content_type ++ crlf ++ "Content-Length: " ++ display n ++ crlf ++ crlf ++ body)
     = S (S (S f))) by (cbn; eauto).
  destruct Hf as [f ->].
  rewrite (str_app_assoc "Content-Type: "), read_headers_line by (done || by rewrite str_contains_app, Hc).
  rewrite (str_app_assoc "Content-Length: "), read_headers_line, read_headers_end; [|..|done].
  2:{ unfold display. by rewrite str_contains_app, to_dec_contains by (done || lia). }
  cbn [fmap option_fmap option_map]. unfold header. cbn [omap list_omap].
  rewrite str_strip_prefix_app. cbn [head].
  assert (Hx : ∀ x, str_strip_prefix ("Content-Length" ++ ": ") ("Content-Type: " ++ x) = None) by done.
  rewrite Hx. rewrite (str_strip_prefix_app "Content-Length: "). cbn [head mbind option_bind].
  unfold display. rewrite parse_u64_to_dec by lia. unfold n. by rewrite Z.eqb_refl.
Qed.

Lemma http_ok_reads_back_witness :
  http_read (health_response 3) = Some ("HTTP/1.1 200 OK", "application/json", health_body 3).
Proof. apply (http_ok_reads_back "application/json" (health_body 3)); [reflexivity|vm_compute; congruence]. Defined.

(** ** A node started on a log directory and a cluster *)

Module StartupExamples.
Export SystemExamples PersistExamples.

(** The directory holds "k" = 5; the hash of the cluster holds "j" = 7. *)
Definition st_env (name : string) : option string :=
  if String.eqb name "SODP_REDIS_URL" then Some "redis://r" else None.
Definition st_disk_of (_ : string) : result Dir string := Ok (st_disk (p1 ToyCodec.codec)).
Definition st_bind (_ : string) : result unit string := Ok tt.
Definition st_connect (_ : string) : result (result (list (list byte * list byte)) string) string :=
  Ok (Ok [(String.list_byte_of_string "j", [x02; x07])]).
Definition st_utf8 (b : list byte) : option string := Some (String.string_of_list_byte b).
Definition st_args : list string := ["sodp-server"; "0.0.0.0:7777"; "/log"].

Definition st_main : result (SodpServer * World) string :=
  @main_node ToyCodec.codec merge_by_version ClusterExamples.codec st_env (λ _, Err "no file") (λ _, Err "no acl")
    (λ _, Err "no schema") None st_disk_of st_bind st_connect st_utf8 st_args.

Definition st_node : SodpServer * World := match st_main with Ok n => n | Err _ => (sys_server, world0) end.
Abbreviation st_srv := st_node.1.

(** One client connects and watches "k". *)
Definition st_start : System := mkSys ∅ ∅ st_node.2 (λ _ _, VNull).
Definition st_watching : System := event st_srv (connect st_srv st_start 0 "a") 0 x02.

Lemma st_reach : ex_reachable st_srv st_start st_watching.
Proof.
  assert (Hj : c_jwt_config st_srv = None) by (vm_compute; reflexivity).
  assert (Hm : (1 <= c_max_frame_bytes st_srv)%Z) by (vm_compute; congruence).
  assert (Hr1 : c_rate_writes st_srv = None) by (vm_compute; reflexivity).
  assert (Hr2 : c_rate_watches st_srv = None) by (vm_compute; reflexivity).
  assert (Hv : (st_version (w_state st_node.2) < u64_max)%Z) by (vm_compute; reflexivity).
  assert (Hh : handles (w_net st_node.2) = ∅) by (vm_compute; reflexivity).
  unfold st_watching, st_start. generalize dependent (st_node.2). generalize dependent st_srv.
  intros srv Hj Hm Hr1 Hr2 w Hv Hh.
  eapply rtc_l; [apply (ex_connect srv _ 0 "a"); [done|by cbn; rewrite Hh|by intros h' s'; cbn; rewrite lookup_empty]|].
  eapply rtc_l; [|apply rtc_refl].
  eapply (ex_event srv _ 0 x02); [done|apply lookup_insert_eq|apply lookup_insert_eq|reflexivity|].
  apply (ex_watch_ok "a"); [by rewrite Hr1, Hr2|done].
Qed.
End StartupExamples.
Import StartupExamples.

