(* ===== verification/Shutdown.v ===== *)
(** * The process and its shutdown (src/src/main.rs, [listen] of src/src/server.rs)

    The process as [main] runs it: the accept loop, one task per connection, and the
    task that waits for a signal and cancels the shutdown token.  A task starts with
    the handshake, in which it does not look at the token; a connection that
    sees the token in its loop leaves it and cleans up; [listen] returns when it
    sees the token, [main] returns with it, and the runtime drops the tasks that are
    left.  The health and metrics servers are loops of the same shape. *)

From S2P Require Import Prelude RustStr Json JsonPath Delta Frame Log Store StorePersist Session WritePool Fanout Cluster Server ServerLogic ServerWatch Connection ServerSystem Startup.

Local Open Scope string_scope.

(** ** The process *)

Record Process : Type := mkProc {
  pc_node : System;          (* the connections and what they share *)
  pc_opening : nat;          (* the tasks that are still in the handshake *)
  pc_listener : Listener;    (* the connection counter and the tasks *)
  pc_cancelled : bool;       (* the shutdown token *)
  pc_main : bool;            (* [main] is still in [listen] *)
}.

Inductive ProcAct : Type :=
| Signal                                          (* Ctrl-C or SIGTERM *)
| AcceptConn
| HandshakeEnd (h : nat) (id : string) (now secs : Z) (msgs : list InMsg)
| SessionEvent (h : nat) (ev : Event) (now1 now2 : Z)
| SessionEnd (h : nat)                            (* cleanup, and the task's end *)
| ListenStops.                                    (* the shutdown branch of [listen] *)

Section Process.
Context `{EntryCodec, HashOrder, BodyCodec}.
Context (to_vec : Z * Z * Z * Value → result (list byte) string)
  (from_slice : list byte → result (Z * Z * Z * Value) string).
Context {DecodingKey : Type} (from_secret : string → DecodingKey)
  (from_rsa_pem : string → result DecodingKey string)
  (jwt_decode : bool → DecodingKey → string → result Claims string).
Context (sink : Message → bool).
Context (srv : SodpServer).

Definition proc_start (node : System) : Process := mkProc node 0 (mkListener 0 0) false true.

Definition with_node (p : Process) (y : System) : Process :=
  mkProc y (pc_opening p) (pc_listener p) (pc_cancelled p) (pc_main p).

(** [listen]: a connection over the limit is dropped; otherwise it is counted and its
    task starts. *)
Definition accept_conn (p : Process) : Process :=
  let l := listen_step (c_max_connections srv) (pc_listener p) Accept in
  if Nat.eqb (l_tasks l) (l_tasks (pc_listener p)) then p
  else mkProc (pc_node p) (S (pc_opening p)) l (pc_cancelled p) (pc_main p).

(** The handshake of a task ends, after the messages [msgs], whether or not the token is
    cancelled: a failure ends the task, a success makes it a session with a write
    handle [h]. *)
Definition handshake_end (p : Process) (h : nat) (id : string) (now secs : Z) (msgs : list InMsg) : Process :=
  let y := pc_node p in
  match pc_opening p with
  | O => p
  | S n =>
      match (open_connection to_vec from_slice from_secret from_rsa_pem jwt_decode sink srv id now secs msgs).2 with
      | None => mkProc y n (listen_step (c_max_connections srv) (pc_listener p) Done) (pc_cancelled p) (pc_main p)
      | Some (s, _) =>
          let w := sy_world y in
          mkProc (mkSys (<[h := s]> (sy_conns y)) (<[h := false]> (sy_loop y))
                    (with_net w (make_handle (c_write_mode srv) (w_net w) h (c_backpressure srv))) (sy_seen y))
            n (pc_listener p) (pc_cancelled p) (pc_main p)
      end
  end.

(** One turn of the loop of connection [h]; the shutdown branch is ready when the token
    is cancelled. *)
Definition session_event (p : Process) (h : nat) (ev : Event) (now1 now2 : Z) : Process :=
  let y := pc_node p in
  match sy_conns y !! h, sy_loop y !! h with
  | Some s, Some awaiting =>
      if match ev with EvShutdown => pc_cancelled p | _ => true end then
        let '(r, c') := on_event from_slice srv h awaiting ev now1 now2 (mkConn s (sy_world y)) in
        with_node p (mkSys (<[h := c_session c']> (sy_conns y))
          (match r with Some a => <[h := a]> (sy_loop y) | None => delete h (sy_loop y) end) (c_world c') (sy_seen y))
      else p
  | _, _ => p
  end.

(** The connection's cleanup, after which its task gives its place back. *)
Definition session_end (p : Process) (h : nat) : Process :=
  let y := pc_node p in
  match sy_conns y !! h, sy_loop y !! h with
  | Some s, None =>
      mkProc (mkSys (delete h (sy_conns y)) (sy_loop y) (c_world (end_session srv (mkConn s (sy_world y))).2) (sy_seen y))
        (pc_opening p) (listen_step (c_max_connections srv) (pc_listener p) Done) (pc_cancelled p) (pc_main p)
  | _, _ => p
  end.

(** Once [main] has returned nothing runs any more. *)
Definition proc_act (p : Process) (a : ProcAct) : Process :=
  if negb (pc_main p) then p else
  match a with
  | Signal => mkProc (pc_node p) (pc_opening p) (pc_listener p) true true
  | AcceptConn => accept_conn p
  | HandshakeEnd h id now secs msgs =>
      match sy_conns (pc_node p) !! h, handles (w_net (sy_world (pc_node p))) !! h with
      | None, None => handshake_end p h id now secs msgs
      | _, _ => p
      end
  | SessionEvent h ev now1 now2 => session_event p h ev now1 now2
  | SessionEnd h => session_end p h
  | ListenStops => if pc_cancelled p then mkProc (pc_node p) (pc_opening p) (pc_listener p) true false else p
  end.

Definition proc_run (p : Process) (acts : list ProcAct) : Process := fold_left proc_act acts p.

(** ** The counter counts the connections *)

Definition counted (p : Process) : Prop :=
  l_tasks (pc_listener p) = (size (sy_conns (pc_node p)) + pc_opening p)%nat ∧
  l_connections (pc_listener p) = Z.of_nat (l_tasks (pc_listener p)).

Lemma accept_counted p : counted p → counted (accept_conn p).
Proof.
  intros [Hs Hc]. unfold accept_conn, listen_step.
  destruct (match c_max_connections srv with Some _ => _ | None => _ end).
  { rewrite Nat.eqb_refl. by split. }
  cbn [l_tasks l_connections]. replace (S _ =? _)%nat with false by (symmetry; apply Nat.eqb_neq; lia).
  split; cbn; lia.
Qed.

Lemma handshake_counted p h id now secs msgs :
  sy_conns (pc_node p) !! h = None → counted p → counted (handshake_end p h id now secs msgs).
Proof.
  intros Hh [Hs Hc]. unfold handshake_end. destruct (pc_opening p) as [|n] eqn:En; [split; lia|].
  destruct (open_connection _ _ _ _ _ _ _ _ _ _ _).2 as [[s ttl]|]; unfold counted; cbn.
  - rewrite map_size_insert_None by done. lia.
  - destruct (l_tasks (pc_listener p)) as [|m] eqn:El; cbn; lia.
Qed.

Lemma event_counted p h ev now1 now2 : counted p → counted (session_event p h ev now1 now2).
Proof.
  intros [Hs Hc]. unfold session_event. destruct (sy_conns (pc_node p) !! h) as [s|] eqn:Eh; [|by split].
  destruct (sy_loop (pc_node p) !! h) as [awaiting|]; [|by split].
  destruct (match ev with EvShutdown => _ | _ => _ end); [|by split].
  destruct (on_event _ _ _ _ _ _ _ _) as [r c']. split; [|done]. cbn.
  by rewrite map_size_insert_Some by eauto.
Qed.

Lemma end_counted p h : counted p → counted (session_end p h).
Proof.
  intros [Hs Hc]. unfold session_end. destruct (sy_conns (pc_node p) !! h) as [s|] eqn:Eh; [|by split].
  destruct (sy_loop (pc_node p) !! h); [by split|]. unfold counted. cbn.
  assert (Hne : size (sy_conns (pc_node p)) ≠ 0) by (intros E%map_size_empty_inv; by rewrite E, lookup_empty in Eh).
  rewrite map_size_delete, Eh. destruct (l_tasks (pc_listener p)) as [|n] eqn:El; cbn; lia.
Qed.

Lemma act_counted p a : counted p → counted (proc_act p a).
Proof.
  intros Hp. unfold proc_act. destruct (pc_main p); [|done]. cbn. destruct a; try done.
  - by apply accept_counted.
  - destruct (sy_conns (pc_node p) !! h) eqn:Eh; [done|]. destruct (handles _ !! h); [done|]. by apply handshake_counted.
  - by apply event_counted.
  - by apply end_counted.
  - by destruct (pc_cancelled p).
Qed.

Lemma run_counted p acts : counted p → counted (proc_run p acts).
Proof. revert p. induction acts as [|a acts IH]; intros p Hp; [done|]. by apply IH, act_counted. Qed.

Lemma proc_run_app p acts acts' : proc_run p (acts ++ acts') = proc_run (proc_run p acts) acts'.
Proof. apply fold_left_app. Qed.

(** ** Cleaning up *)

Abbreviation ended s w := (c_world (end_session srv (mkConn s w)).2).

(** Nothing is left of a session: its presence paths and its subscriptions. *)
Definition clean (s : Session) (w : World) : Prop :=
  (∀ e, e ∈ presence s → path_gone (p_path e) (store_value (w_state w) (p_state_key e))) ∧
  (∀ k sub, sub ∈ subs_of (w_fanout w) k → session_id sub ≠ s_id s).

Lemma cleaned_subs e c k sub :
  sub ∈ subs_of (w_fanout (c_world (cleaned srv e c))) k → sub ∈ subs_of (w_fanout (c_world c)) k.
Proof.
  unfold cleaned. cbn [presence_cleanup]. unfold mbind, M_bind, get_world.
  destruct (store_get _ _) as [x|]; [|done]. unfold state_apply. destruct (store_apply _ _ _) as [[version ops] st'].
  destruct ops as [|o ops]; [done|]. unfold broadcast_timed. cbn [c_world c_session w_fanout w_net].
  pose proof (broadcast_encoded_subset (w_fanout (c_world c)) (w_net (c_world c)) (p_state_key e)
    (encode_delta_body version (o :: ops)) None k sub) as Hsub.
  destruct (broadcast_encoded _ _ _ _ _) as [bus net]. unfold cluster_task. by destruct (c_cluster srv).
Qed.

Lemma cleanup_subs es c k sub :
  sub ∈ subs_of (w_fanout (c_world (presence_cleanup srv es c).2)) k → sub ∈ subs_of (w_fanout (c_world c)) k.
Proof.
  revert c. induction es as [|e es IH]; intros c; [done|]. rewrite presence_cleanup_cons.
  intros Hin%IH. by eapply cleaned_subs.
Qed.

Lemma ended_world s w :
  ended s w = let w' := c_world (presence_cleanup srv (presence s) (mkConn s w)).2 in
    mkWorld (w_state w') (remove_session (w_fanout w') (s_id s)) (w_net w') (w_tasks w').
Proof. unfold end_session. run_m. by destruct (presence_cleanup srv _ _) as [[] c']. Qed.

Lemma ended_subs s w k sub :
  sub ∈ subs_of (w_fanout (ended s w)) k → session_id sub ≠ s_id s ∧ sub ∈ subs_of (w_fanout w) k.
Proof. rewrite ended_world. intros [Hin Hne]%elem_of_remove_session. split; [done|]. by apply cleanup_subs in Hin. Qed.

Lemma ended_clean s w : clean s (ended s w).
Proof.
  split; [|by intros k sub [? _]%ended_subs]. intros e He. rewrite ended_world. by apply cleanup_gone.
Qed.

Lemma clean_ended s s' w : clean s w → clean s (ended s' w).
Proof.
  intros [Hp Hs]. split; [|intros k sub [_ Hin]%ended_subs; by eapply Hs].
  intros e He. rewrite ended_world. by apply cleanup_keeps_gone, Hp.
Qed.

(** ** Draining *)

(** What is left to do once the token is cancelled: handshakes end, connections see
    the token, and clean up. *)
Definition draining (a : ProcAct) : Prop :=
  match a with
  | SessionEvent _ EvShutdown _ _ | SessionEnd _ | HandshakeEnd _ _ _ _ _ => True
  | _ => False
  end.

(** Every session of [conns] is still there, or nothing is left of it. *)
Definition cleared (conns : Conns) (y : System) : Prop :=
  ∀ h s, conns !! h = Some s → sy_conns y !! h = Some s ∨ clean s (sy_world y).

Lemma draining_step conns p a :
  draining a → cleared conns (pc_node p) → cleared conns (pc_node (proc_act p a)).
Proof.
  intros Ha Hc. unfold proc_act. destruct (pc_main p); [|done]. cbn [negb].
  destruct a as [| |h id now secs msgs|h ev n1 n2|h|]; try done.
  - destruct (sy_conns (pc_node p) !! h) as [?|] eqn:Eh; [done|]. destruct (handles _ !! h); [done|].
    unfold handshake_end. destruct (pc_opening p) as [|n]; [done|].
    destruct (open_connection _ _ _ _ _ _ _ _ _ _ _).2 as [[s ttl]|]; [|done].
    intros h' s' Hs'. cbn. destruct (Hc h' s' Hs') as [Hin|Hcl]; [left|by right].
    rewrite lookup_insert_ne; [done|]. intros ->. congruence.
  - destruct ev; try done. unfold session_event. destruct (sy_conns (pc_node p) !! h) as [s|] eqn:Eh; [|done].
    destruct (sy_loop (pc_node p) !! h); [|done]. destruct (pc_cancelled p); [|done].
    cbn. by rewrite insert_id.
  - unfold session_end. destruct (sy_conns (pc_node p) !! h) as [s|] eqn:Eh; [|done].
    destruct (sy_loop (pc_node p) !! h); [done|]. intros h' s' Hs'. cbn [pc_node sy_conns sy_world].
    destruct (Hc h' s' Hs') as [Hin|Hcl]; [|right; by apply clean_ended].
    destruct (decide (h' = h)) as [->|Hne]; [|left; by rewrite lookup_delete_ne].
    right. rewrite Eh in Hin. injection Hin as ->. apply ended_clean.
Qed.

Lemma draining_run conns p acts :
  Forall draining acts → cleared conns (pc_node p) → cleared conns (pc_node (proc_run p acts)).
Proof.
  intros Ha. revert p. induction Ha as [|a acts Ha _ IH]; intros p Hc; [done|]. by apply IH, draining_step.
Qed.

(** The two steps of one session. *)
Definition drain (h : nat) : list ProcAct := [SessionEvent h EvShutdown 0 0; SessionEnd h].

(** A connection that sees the token leaves its loop; nothing else changes. *)
Lemma shutdown_seen p h :
  pc_main p = true → pc_cancelled p = true →
  let y := pc_node p in
  ∃ loop', proc_act p (SessionEvent h EvShutdown 0 0) = with_node p (mkSys (sy_conns y) loop' (sy_world y) (sy_seen y)) ∧
    (is_Some (sy_conns y !! h) → loop' !! h = None).
Proof.
  intros Hm Hk y. unfold proc_act. rewrite Hm. cbn [negb]. unfold session_event. fold y.
  assert (Hp : p = with_node p (mkSys (sy_conns y) (sy_loop y) (sy_world y) (sy_seen y))) by (by destruct p as [[] ? ? ? ?]).
  destruct (sy_conns y !! h) as [s|] eqn:Eh; [|exists (sy_loop y); by split; [|intros []]].
  destruct (sy_loop y !! h) as [a|] eqn:El; [|by exists (sy_loop y)].
  exists (delete h (sy_loop y)). rewrite Hk. cbn. split; [by rewrite insert_id|]. intros _. apply lookup_delete_eq.
Qed.

Lemma drain_one p h :
  pc_main p = true → pc_cancelled p = true →
  let p' := proc_run p (drain h) in
  pc_main p' = true ∧ pc_cancelled p' = true ∧ sy_conns (pc_node p') = delete h (sy_conns (pc_node p)).
Proof.
  intros Hm Hk. cbn zeta. destruct (shutdown_seen p h Hm Hk) as (loop' & E & Hl).
  unfold proc_run, drain. cbn [fold_left]. rewrite E. unfold proc_act. cbn [pc_main with_node]. rewrite Hm. cbn [negb].
  unfold session_end. cbn [pc_node with_node sy_conns sy_loop].
  destruct (sy_conns (pc_node p) !! h) as [s|] eqn:Eh; [by rewrite Hl|]. split_and!; [done..|]. by rewrite delete_id.
Qed.

Lemma drain_all p order :
  pc_main p = true → pc_cancelled p = true →
  (∀ h s, sy_conns (pc_node p) !! h = Some s → h ∈ order) →
  sy_conns (pc_node (proc_run p (flat_map drain order))) = ∅.
Proof.
  revert p. induction order as [|h order IH]; intros p Hm Hk Hin.
  - apply map_empty. intros h. destruct (sy_conns (pc_node p) !! h) as [s|] eqn:E; [|done].
    by apply Hin, elem_of_nil in E.
  - cbn [flat_map]. rewrite proc_run_app. destruct (drain_one p h Hm Hk) as (Hm' & Hk' & Hc). apply IH; [done..|].
    intros h' s. rewrite Hc. intros [Hne Hs]%lookup_delete_Some. apply Hin in Hs.
    by apply elem_of_cons in Hs as [->|].
Qed.

Lemma signalled p : pc_main (proc_act p Signal) = true → pc_cancelled (proc_act p Signal) = true.
Proof. unfold proc_act. destruct (pc_main p) eqn:E; cbn; [done|congruence]. Qed.

(** C25. A shutdown that is awaited leaves nothing behind. Whatever the process did
    before the signal: if only shutdown branches, cleanups and the ends of handshakes run
    from then on, in any order, and the last session is gone, then the connection counter
    is the number of connections still in the handshake (zero when there is none) and
    nothing is left of any session that was open, neither at a presence path
    nor on the bus.  And giving each session its two steps, in any order, gets
    there. *)
Theorem shutdown_drains node before :
  sy_conns node = ∅ →
  let p := proc_run (proc_start node) (before ++ [Signal]) in
  pc_main p = true →
  (∀ acts, Forall draining acts → let p' := proc_run p acts in
     sy_conns (pc_node p') = ∅ →
     l_connections (pc_listener p') = Z.of_nat (pc_opening p') ∧
     ∀ h s, sy_conns (pc_node p) !! h = Some s → clean s (sy_world (pc_node p'))) ∧
  (∀ order, order ≡ₚ (map_to_list (sy_conns (pc_node p))).*1 →
     Forall draining (flat_map drain order) ∧ sy_conns (pc_node (proc_run p (flat_map drain order))) = ∅).
Proof.
  intros Hn p Hm. assert (Hp : counted p).
  { apply run_counted. split; [|done]. cbn. by rewrite Hn, map_size_empty. }
  split.
  - intros acts Ha p' He. split.
    + destruct (run_counted p acts Hp) as [Hs Hc]. fold p' in Hs, Hc. rewrite Hc, Hs, He, map_size_empty. done.
    + intros h s Hs. destruct (draining_run (sy_conns (pc_node p)) p acts Ha) with (h := h) (s := s) as [Hin|Hc]; [by left|done| |done].
      fold p' in Hin. by rewrite He, lookup_empty in Hin.
  - intros order Ho. split; [apply Forall_flat_map, Forall_forall; intros h _; repeat constructor|].
    apply drain_all; [done| |].
    + unfold p in Hm |- *. rewrite proc_run_app in Hm |- *. by apply signalled.
    + intros h s Hs. rewrite Ho. apply list_elem_of_fmap. exists (h, s). split; [done|]. by apply elem_of_map_to_list.
Qed.
End Process.

(** ** The health and metrics servers *)

(** What the loop's [select!] yields: a connection with what its answer reports (the
    connection counter, the rendered metrics), an accept error, or the token. *)
Inductive HttpEvent (A : Type) : Type :=
| HAccept (report : A)
| HAcceptError
| HShutdown.
Arguments HAccept {A} report.
Arguments HAcceptError {A}.
Arguments HShutdown {A}.

(** The responses written, and whether the loop still runs. *)
Fixpoint http_loop {A} (respond : A → string) (evs : list (HttpEvent A)) : list string * bool :=
  match evs with
  | [] => ([], true)
  | HAccept report :: evs' => let '(rs, live) := http_loop respond evs' in (respond report :: rs, live)
  | HAcceptError :: evs' => http_loop respond evs'
  | HShutdown :: _ => ([], false)
  end.

(** [run_health_server] and [run_metrics_server]; [bound]: the port could be bound. *)
Definition run_health_server (bound : bool) (evs : list (HttpEvent Z)) : list string * bool :=
  if bound then http_loop health_response evs else ([], false).

Definition run_metrics_server (bound : bool) (evs : list (HttpEvent string)) : list string * bool :=
  if bound then http_loop metrics_response evs else ([], false).

Definition reported {A} (ev : HttpEvent A) : option A :=
  match ev with HAccept report => Some report | _ => None end.

(** Every connection accepted before the token is answered, none after it. *)
Theorem http_loop_answers {A} (respond : A → string) evs later :
  Forall (λ ev, ev ≠ HShutdown) evs →
  http_loop respond (evs ++ HShutdown :: later)%list = (respond <$> omap reported evs, false).
Proof.
  induction 1 as [|ev evs Hev _ IH]; [done|]. cbn [app http_loop omap list_omap].
  destruct ev; cbn [reported]; [by rewrite IH|done|done].
Qed.

Lemma http_loop_answers_witness :
  run_health_server true [HAccept 0%Z; HAcceptError; HAccept 3%Z; HShutdown; HAccept 4%Z] =
  ([health_response 0; health_response 3], false).
Proof. apply (http_loop_answers health_response [HAccept 0%Z; HAcceptError; HAccept 3%Z]). repeat constructor; done. Defined.

(** ** Examples *)

Module ShutdownExamples.
Import SystemExamples PersistExamples.

(** Log entries as trees, so that any value can be stored. *)
#[export] Instance tree_entries : EntryCodec := {|
  entry_to_vec e := Ok (bytes_of_pos (encode (GenNode 9
    (leaf_z (le_version e) :: leaf_s (le_key e) :: tree_of (le_value e) :: List.map tree_of_op (le_ops e)))));
  entry_from_slice bs :=
    match decode (pos_of_bytes bs) with
    | Some (GenNode _ (GenLeaf (inr (inl version)) :: GenLeaf (inr (inr key)) :: v :: ops)) =>
        Ok (mkLogEntry version key (List.map op_of_tree ops) (value_of v))
    | _ => Err "bad entry"
    end;
|}.

(** Any bytes are a CALL that registers the client's presence in a room. *)
Definition enter_frame (_ : list byte) : result (Z * Z * Z * Value) string :=
  Ok (types.CALL, 1, 0, VObject [("args", VObject [("path", VString "/a"); ("state", VString "r"); ("value", VBool true)]);
        ("method", VString "state.presence")])%Z.

Definition persistent_node : System :=
  mkSys ∅ ∅ (empty_world (open0 tree_entries)) (λ _ _, VNull).

Definition room_run (p : Process) (acts : list ProcAct) : Process :=
  @proc_run tree_entries map_order tree_body ex_to_vec enter_frame string (λ s, s) (λ _, Err "no key") ex_jwt (λ _, true)
    sys_server p acts.

(** A client connects and registers. *)
Definition entering : list ProcAct :=
  [AcceptConn; HandshakeEnd 0 "a" 0 0 []; SessionEvent 0 (EvMessage (Some (InBinary [x01]))) 0 0].

Definition room_value (p : Process) : Value := store_value (w_state (sy_world (pc_node p))) "r".

Definition room_after_restart (p : Process) : option Value :=
  match @store_open tree_entries merge_by_version (st_disk (w_state (sy_world (pc_node p)))) with
  | Ok s => Some (store_value s "r")
  | Err _ => None
  end.
End ShutdownExamples.
Import ShutdownExamples SystemExamples.

Example presence_entered : room_value (room_run (proc_start persistent_node) entering) = VObject [("a", VBool true)].
Proof. vm_compute. reflexivity. Qed.

Lemma shutdown_drains_witness :
  room_value (room_run (proc_start persistent_node) ((entering ++ [Signal]) ++ drain 0)%list) = VObject [] ∧
  l_connections (pc_listener (room_run (proc_start persistent_node) ((entering ++ [Signal]) ++ drain 0)%list)) = 0%Z.
Proof.
  split; [vm_compute; reflexivity|].
  destruct (@shutdown_drains tree_entries map_order tree_body ex_to_vec enter_frame string (λ s, s) (λ _, Err "no key") ex_jwt
    (λ _, true) sys_server persistent_node entering) as [Hd Ho]; [done|vm_compute; reflexivity|].
  destruct (Ho [0]) as [Ha He]; [by vm_compute|]. destruct (Hd _ Ha He) as [Hl _].
  unfold room_run. rewrite proc_run_app. etrans; [exact Hl|]. vm_compute. reflexivity.
Defined.

(** The shutdown is not awaited. [listen] returns as soon as it sees the token and [main]
    with it; the runtime drops the connection tasks.  A client registered its presence,
    the signal comes, and the process ends before the client's task has run: its entry
    is on disk and comes back with the restart, with no session that would ever
    remove it. *)
Theorem shutdown_abandons_presence :
  let p := room_run (proc_start persistent_node) (entering ++ [Signal; ListenStops])%list in
  pc_main p = false ∧ room_run p (drain 0) = p ∧ room_after_restart p = Some (VObject [("a", VBool true)]).
Proof. split_and!; vm_compute; reflexivity. Qed.
