(* ===== verification/UnitTests.v ===== *)
(** * The repository's unit tests, on the model

    The tests of src/src/delta.rs, src/src/acl.rs, src/src/log.rs and of the middleware
    crate, each as a boolean: the conjunction of its assertions, [false] where the test
    would panic.  They are evaluated on the definitions of this development; the
    compaction test, which writes 300 001 entries, is proved instead, for
    any number of entries and any codec that reads back what it writes. *)

From S2P Require Import Prelude RustStr Json JsonPath Delta Acl Frame Log Store StorePersist Middleware ServerSystem Shutdown.

Local Open Scope string_scope.

(** [json!] *)
Abbreviation n_ z := (VNumber (PosInt z)).
Abbreviation s_ s := (VString s).
Abbreviation o_ l := (json_object l).
Abbreviation a_ l := (VArray l).

(** ** delta.rs *)

Module DeltaTests.

Definition no_change_produces_empty_diff : bool :=
  let v := o_ [("x", n_ 1%Z); ("y", s_ "hello")] in
  bool_decide (diff v v = []).

Definition simple_field_update : bool :=
  match diff (o_ [("likes", n_ 10%Z)]) (o_ [("likes", n_ 11%Z)]) with
  | [o] => bool_decide (op o = Update) && String.eqb (op_path o) "/likes" && bool_decide (op_value o = Some (n_ 11%Z))
  | _ => false
  end.

Definition field_added : bool :=
  match diff (o_ [("title", s_ "hello")]) (o_ [("title", s_ "hello"); ("body", s_ "world")]) with
  | [o] => bool_decide (op o = Add) && String.eqb (op_path o) "/body"
  | _ => false
  end.

Definition field_removed : bool :=
  match diff (o_ [("a", n_ 1%Z); ("b", n_ 2%Z)]) (o_ [("a", n_ 1%Z)]) with
  | [o] => bool_decide (op o = Remove) && String.eqb (op_path o) "/b"
  | _ => false
  end.

Definition nested_object_recurses : bool :=
  match diff (o_ [("post", o_ [("likes", n_ 10%Z); ("title", s_ "x")])])
             (o_ [("post", o_ [("likes", n_ 11%Z); ("title", s_ "x")])]) with
  | [o] => String.eqb (op_path o) "/post/likes" && bool_decide (op o = Update)
  | _ => false
  end.

Definition multiple_changes_in_one_diff : bool :=
  Nat.eqb (length (diff (o_ [("a", n_ 1%Z); ("b", n_ 2%Z); ("c", n_ 3%Z)])
                        (o_ [("a", n_ 99%Z); ("b", n_ 2%Z); ("d", n_ 4%Z)]))) 3.

Definition root_scalar_replacement : bool :=
  match diff (n_ 42%Z) (n_ 43%Z) with
  | [o] => String.eqb (op_path o) "/" && bool_decide (op o = Update)
  | _ => false
  end.

Definition all : list bool :=
  [no_change_produces_empty_diff; simple_field_update; field_added; field_removed; nested_object_recurses;
   multiple_changes_in_one_diff; root_scalar_replacement].
End DeltaTests.

(** ** acl.rs *)

Module AclTests.

(** [registry], on the parsed file. *)
Definition registry (preset : option string) (claims : list (string * string)) (rules : list Acl.AclRule) : AclRegistry :=
  acl_from_parsed (mkAclFile preset (list_to_map claims) rules).

Definition no_claims : Value := o_ [].

Definition wildcard_star_is_suffix : bool :=
  is_some (match_pattern "public.*" "public.doc") &&
  is_some (match_pattern "public.*" "public.doc.nested") &&
  negb (is_some (match_pattern "public.*" "public")) &&
  negb (is_some (match_pattern "public.*" "other.doc")).

Definition sub_placeholder_captures : bool :=
  bool_decide (match_pattern "user.{sub}.profile" "user.alice.profile" = Some (Some "alice")) &&
  negb (is_some (match_pattern "user.{sub}.profile" "user.alice.other")).

Definition exact_literal : bool :=
  is_some (match_pattern "collab.doc" "collab.doc") &&
  negb (is_some (match_pattern "collab.doc" "collab.cursors")) &&
  negb (is_some (match_pattern "collab.doc" "collab.doc.extra")).

Definition open_public : bool :=
  let acl := registry None [] [Acl.mkAclRule "public.*" "*" "*"] in
  Acl.can_read acl "public.doc" None no_claims &&
  Acl.can_write acl "public.doc" (Some "alice") no_claims &&
  negb (Acl.can_read acl "secret.doc" (Some "alice") no_claims).

Definition sub_scoped_key : bool :=
  let acl := registry None [] [Acl.mkAclRule "user.{sub}.*" "{sub}" "{sub}"; Acl.mkAclRule "public.*" "*" "*"] in
  Acl.can_read acl "user.alice.notes" (Some "alice") no_claims &&
  negb (Acl.can_read acl "user.alice.notes" (Some "bob") no_claims) &&
  Acl.can_read acl "public.board" (Some "bob") no_claims.

Definition literal_sub_permission : bool :=
  let acl := registry None [] [Acl.mkAclRule "admin.*" "admin" "admin"] in
  Acl.can_read acl "admin.config" (Some "admin") no_claims &&
  negb (Acl.can_read acl "admin.config" (Some "alice") no_claims) &&
  negb (Acl.can_read acl "admin.config" None no_claims).

Definition first_rule_wins : bool :=
  let acl := registry None [] [Acl.mkAclRule "*" "*" "*"; Acl.mkAclRule "admin.*" "admin" "admin"] in
  Acl.can_read acl "admin.secret" (Some "alice") no_claims.

Definition role_check_keycloak : bool :=
  let acl := registry (Some "keycloak") [] [Acl.mkAclRule "admin.*" "role:admin" "role:admin"] in
  let admin_claims := o_ [("realm_access", o_ [("roles", a_ [s_ "user"; s_ "admin"])])] in
  let user_claims := o_ [("realm_access", o_ [("roles", a_ [s_ "user"])])] in
  Acl.can_read acl "admin.config" (Some "alice") admin_claims &&
  negb (Acl.can_read acl "admin.config" (Some "alice") user_claims) &&
  negb (Acl.can_read acl "admin.config" (Some "alice") no_claims).

Definition group_check_generic : bool :=
  let acl := registry (Some "generic") [] [Acl.mkAclRule "editors.*" "group:editors" "group:editors"] in
  let editor := o_ [("groups", a_ [s_ "viewers"; s_ "editors"])] in
  let viewer := o_ [("groups", a_ [s_ "viewers"])] in
  Acl.can_read acl "editors.doc" (Some "alice") editor &&
  negb (Acl.can_read acl "editors.doc" (Some "bob") viewer).

Definition tenant_scoped_key : bool :=
  let acl := registry (Some "generic") [] [Acl.mkAclRule "tenant.{sub}.*" "tenant:{sub}" "tenant:{sub}"] in
  let acme := o_ [("tenant_id", s_ "acme")] in
  let other := o_ [("tenant_id", s_ "other-corp")] in
  Acl.can_read acl "tenant.acme.docs" (Some "alice") acme &&
  negb (Acl.can_read acl "tenant.acme.docs" (Some "alice") other) &&
  negb (Acl.can_read acl "tenant.acme.docs" (Some "alice") no_claims).

Definition auth0_namespaced_claim_override : bool :=
  let acl := registry (Some "auth0") [("role", "https://myapp.com/roles")] [Acl.mkAclRule "admin.*" "role:admin" "role:admin"] in
  let claims := o_ [("https://myapp.com/roles", a_ [s_ "admin"; s_ "user"])] in
  Acl.can_read acl "admin.config" (Some "alice") claims &&
  negb (Acl.can_read acl "admin.config" (Some "alice") (o_ [("roles", a_ [s_ "admin"])])).

Definition cognito_groups : bool :=
  let acl := registry (Some "cognito") [] [Acl.mkAclRule "admin.*" "role:Admins" "role:Admins"] in
  Acl.can_read acl "admin.config" (Some "alice") (o_ [("cognito:groups", a_ [s_ "Admins"; s_ "Users"])]).

Definition permission_claim_auth0 : bool :=
  let acl := registry (Some "auth0") [] [Acl.mkAclRule "docs.*" "perm:read:docs" "perm:write:docs"] in
  let claims := o_ [("permissions", a_ [s_ "read:docs"; s_ "delete:posts"])] in
  Acl.can_read acl "docs.spec" (Some "alice") claims &&
  negb (Acl.can_write acl "docs.spec" (Some "alice") claims).

Definition custom_claim_mapping : bool :=
  let acl := registry None [("dept", "department")] [Acl.mkAclRule "hr.*" "dept:HR" "dept:HR"] in
  Acl.can_read acl "hr.records" (Some "alice") (o_ [("department", s_ "HR")]) &&
  negb (Acl.can_read acl "hr.records" (Some "bob") (o_ [("department", s_ "Engineering")])).

Definition resolve_claim_dot_traversal : bool :=
  let claims := o_ [("realm_access", o_ [("roles", a_ [s_ "admin"])])] in
  bool_decide (resolve_claim claims "realm_access.roles" = Some (a_ [s_ "admin"])).

Definition resolve_claim_direct_key_with_special_chars : bool :=
  let claims := o_ [("https://myapp.com/roles", a_ [s_ "admin"]); ("cognito:groups", a_ [s_ "Admins"])] in
  is_some (resolve_claim claims "https://myapp.com/roles") && is_some (resolve_claim claims "cognito:groups").

Definition keycloak_full_scenario : bool :=
  let acl := registry (Some "keycloak") []
    [Acl.mkAclRule "public.*" "*" "*"; Acl.mkAclRule "tenant.{sub}.*" "tenant:{sub}" "tenant:{sub}";
     Acl.mkAclRule "admin.*" "role:admin" "role:admin"; Acl.mkAclRule "user.{sub}.*" "{sub}" "{sub}"] in
  let alice := o_ [("realm_access", o_ [("roles", a_ [s_ "user"])]); ("tenant_id", s_ "acme")] in
  let admin := o_ [("realm_access", o_ [("roles", a_ [s_ "user"; s_ "admin"])]); ("tenant_id", s_ "acme")] in
  Acl.can_read acl "public.board" (Some "alice") alice &&
  Acl.can_write acl "tenant.acme.docs" (Some "alice") alice &&
  negb (Acl.can_write acl "tenant.other.docs" (Some "alice") alice) &&
  negb (Acl.can_read acl "admin.config" (Some "alice") alice) &&
  Acl.can_read acl "admin.config" (Some "admin_user") admin &&
  Acl.can_write acl "user.alice.notes" (Some "alice") alice &&
  negb (Acl.can_write acl "user.bob.notes" (Some "alice") alice).

Definition all : list bool :=
  [wildcard_star_is_suffix; sub_placeholder_captures; exact_literal; open_public; sub_scoped_key; literal_sub_permission;
   first_rule_wins; role_check_keycloak; group_check_generic; tenant_scoped_key; auth0_namespaced_claim_override;
   cognito_groups; permission_claim_auth0; custom_claim_mapping; resolve_claim_dot_traversal;
   resolve_claim_direct_key_with_special_chars; keycloak_full_scenario].
End AclTests.

(** ** The middleware crate *)

Module MiddlewareTests.

Definition glob_exact : bool :=
  bool_decide (glob_match (chars "foo.bar") (chars "foo.bar") = Some true) &&
  bool_decide (glob_match (chars "foo.baz") (chars "foo.bar") = Some false).

Definition glob_trailing_star : bool :=
  bool_decide (glob_match (chars "user.alice.score") (chars "user.*") = Some true) &&
  bool_decide (glob_match (chars "admin.secret") (chars "user.*") = Some false).

(** The outer option of [pattern_match] is [None] when the code panics. *)
Definition sub_substitution : bool :=
  match pattern_match (chars "user.alice.score") (chars "user.{sub}.*") (Some (chars "alice")),
        pattern_match (chars "user.alice.score") (chars "user.{sub}.*") (Some (chars "bob")) with
  | Some (Some _), Some None => true
  | _, _ => false
  end.

(** Four calls at the instant the limiter was made. *)
Definition allows_up_to_limit : bool :=
  let r := lim_new 3 0 in
  let '(a1, r) := lim_allow r 0 0 in
  let '(a2, r) := lim_allow r 0 0 in
  let '(a3, r) := lim_allow r 0 0 in
  let '(a4, _) := lim_allow r 0 0 in
  a1 && a2 && a3 && negb a4.

Definition all : list bool := [glob_exact; glob_trailing_star; sub_substitution; allows_up_to_limit].
End MiddlewareTests.

(** ** log.rs *)

Module LogTests.

Section Tests.
Context `{EntryCodec}.

Definition entry (key : string) (version : Z) (val : Value) : LogEntry :=
  mkLogEntry version key [delta_add "/" val] val.

(** [open(..).unwrap()] and [append(..).unwrap()]: a failure panics, which fails the
    test. *)
Definition opened (dir : Dir) (test : SegmentedLog → list LogEntry → Dir → bool) : bool :=
  match log_open dir with Ok (l, replayed, dir') => test l replayed dir' | Err _ => false end.

Definition appended (l : SegmentedLog) (dir : Dir) (e : LogEntry) (test : SegmentedLog → Dir → bool) : bool :=
  match log_append l dir e with (Ok _, l', dir') => test l' dir' | _ => false end.

Fixpoint appended_all (l : SegmentedLog) (dir : Dir) (es : list LogEntry) (test : SegmentedLog → Dir → bool) : bool :=
  match es with
  | [] => test l dir
  | e :: es' => appended l dir e (λ l' dir', appended_all l' dir' es' test)
  end.

Definition write_and_replay_single_entry : bool :=
  opened ∅ (λ l replayed dir, bool_decide (replayed = []) &&
    appended l dir (entry "k1" 1 (o_ [("x", n_ 1%Z)])) (λ _ dir',
      opened dir' (λ _ replayed _,
        match replayed with
        | [e] => String.eqb (le_key e) "k1" && (le_version e =? 1)%Z && bool_decide (le_value e = o_ [("x", n_ 1%Z)])
        | _ => false
        end))).

Definition write_and_replay_many_keys : bool :=
  opened ∅ (λ l _ dir,
    appended_all l dir
      ((λ i : nat, entry ("key." ++ to_dec 20 (Z.of_nat i) "") (Z.of_nat i + 1) (n_ (Z.of_nat i))) <$> List.seq 0 100)
      (λ _ dir', opened dir' (λ _ replayed _,
         Nat.eqb (length replayed) 100 && bool_decide (le_version <$> replayed = (λ i : nat, Z.of_nat i + 1)%Z <$> List.seq 0 100)))).

(** [set_len] on the segment. *)
Definition truncated_by (n : nat) (dir : Dir) : Dir :=
  match dir !! segment_path 0 with
  | Some content => <[segment_path 0 := take (length content - n) content]> dir
  | None => dir
  end.

Definition truncated_last_record_is_dropped_and_file_healed : bool :=
  opened ∅ (λ l _ dir, appended_all l dir [entry "a" 1 (n_ 1%Z); entry "b" 2 (n_ 2%Z)] (λ _ dir1,
    opened (truncated_by 3 dir1) (λ _ replayed dir2,
      match replayed with [e] => String.eqb (le_key e) "a" | _ => false end &&
      opened dir2 (λ l2 _ dir3, appended l2 dir3 (entry "c" 3 (n_ 3%Z)) (λ _ dir4,
        opened dir4 (λ _ replayed2 _,
          match replayed2 with [_; e] => String.eqb (le_key e) "c" | _ => false end)))))).

Definition rotation_creates_new_segment_file : bool :=
  opened ∅ (λ l _ dir,
    appended (mkLog (current_seg l) (writer l) MAX_ENTRIES_PER_SEGMENT (segment_count l)) dir
      (entry "trigger" 1 (s_ "rotate")) (λ _ dir',
        Nat.eqb (length (list_segments dir')) 2 &&
        opened dir' (λ _ replayed _, match replayed with [e] => String.eqb (le_key e) "trigger" | _ => false end))).

Definition numbered (i : nat) : LogEntry :=
  entry ("k" ++ to_dec 20 (Z.of_nat i) "") (Z.of_nat i + 1) (n_ (Z.of_nat i)).

Definition snapshotted (i : nat) : LogEntry :=
  mkLogEntry (Z.of_nat i + 1) ("k" ++ to_dec 20 (Z.of_nat i) "") [] (n_ (Z.of_nat i)).

(** With [total] entries; the test has [MAX_ENTRIES_PER_SEGMENT * 3 + 1]. *)
Definition compaction_reduces_to_two_segments_and_data_survives (total : nat) : bool :=
  opened ∅ (λ l _ dir, appended_all l dir (numbered <$> List.seq 0 total) (λ l1 dir1,
    match log_compact l1 dir1 (snapshotted <$> List.seq 0 total) with
    | (Ok _, _, dir2) =>
        Nat.eqb (length (list_segments dir2)) 2 && opened dir2 (λ _ replayed _, Nat.eqb (length replayed) total)
    | _ => false
    end)).
End Tests.

Section StoreTests.
Context `{EntryCodec, HashOrder, VersionSort}.

Definition store_opened (dir : Dir) (test : StateStore → bool) : bool :=
  match store_open dir with Ok s => test s | Err _ => false end.

Definition statestore_open_reconstructs_state : bool :=
  store_opened ∅ (λ s,
    let s := (store_apply s "game.score" (o_ [("score", n_ 42%Z)])).2 in
    let s := (store_apply s "game.player" (o_ [("name", s_ "Alice")])).2 in
    let s := (store_apply s "game.score" (o_ [("score", n_ 99%Z)])).2 in
    store_opened (st_disk s) (λ s',
      match store_get s' "game.score", store_get s' "game.player" with
      | Some score, Some player =>
          bool_decide (se_value score = o_ [("score", n_ 99%Z)]) && bool_decide (se_value player = o_ [("name", s_ "Alice")])
      | _, _ => false
      end)).

Definition statestore_deltas_survive_restart : bool :=
  store_opened ∅ (λ s,
    let s := (store_apply s "x" (n_ 1%Z)).2 in
    let s := (store_apply s "x" (n_ 2%Z)).2 in
    let s := (store_apply s "x" (n_ 3%Z)).2 in
    store_opened (st_disk s) (λ s',
      let deltas := deltas_since s' "x" 0 in
      Nat.eqb (length deltas) 3 && bool_decide (fst <$> deltas !! 2 = se_version <$> store_get s' "x"))).
End StoreTests.

Import ShutdownExamples PersistExamples.

Definition all : list bool :=
  [write_and_replay_single_entry; write_and_replay_many_keys; truncated_last_record_is_dropped_and_file_healed;
   rotation_creates_new_segment_file;
   @statestore_open_reconstructs_state tree_entries map_order merge_by_version;
   @statestore_deltas_survive_restart tree_entries map_order merge_by_version].
End LogTests.

Section Compaction.
Context `{EntryCodec}.
Import LogTests.

Lemma opened_empty test :
  ∃ l dir, opened ∅ test = test l [] dir ∧ log_inv l dir [] [] ∧ current_seg l = 0%Z.
Proof.
  destruct log_open_empty as (l & dir & Ho & Hi). unfold opened. rewrite Ho.
  exists l, dir. split_and!; [done|done|]. vm_compute in Ho. by simplify_eq.
Qed.

Lemma appended_all_ok new l dir old es test :
  log_inv l dir old es → Forall enc_ok new → (current_seg l + Z.of_nat (length new) ≤ u64_max)%Z →
  ∃ l' dir' old' es', appended_all l dir new test = test l' dir' ∧ log_inv l' dir' old' es' ∧
    (current_seg l' ≤ current_seg l + Z.of_nat (length new))%Z.
Proof.
  intros Hi Hnew. revert l dir old es Hi. induction Hnew as [|e new He _ IH]; cbn; intros l dir old es Hi Hm.
  - eexists _, _, _, _. split_and!; [done|done|lia].
  - destruct (log_append_ok l dir old es e Hi He ltac:(lia)) as (l1 & dir1 & old1 & es1 & Ha & Hi1 & _ & Hc & _).
    unfold appended. rewrite Ha.
    destruct (IH l1 dir1 old1 es1 Hi1 ltac:(lia)) as (l2 & dir2 & old2 & es2 & -> & Hi2 & Hc2).
    eexists _, _, _, _. split_and!; [done|done|lia].
Qed.

(** The compaction test passes, at its 300 001 entries as at any other number and
    with any codec that reads back the entries it writes: every append succeeds, through
    all the rotations, [compact] leaves two segments, and reopening the
    directory returns as many entries as the snapshot had. *)
Theorem compaction_test_passes total :
  Forall enc_ok (numbered <$> List.seq 0 total) → Forall enc_ok (snapshotted <$> List.seq 0 total) →
  (Z.of_nat total + 2 ≤ u64_max)%Z →
  compaction_reduces_to_two_segments_and_data_survives total = true.
Proof.
  intros Hnum Hsnap Hm. unfold compaction_reduces_to_two_segments_and_data_survives.
  match goal with |- opened ∅ ?t = _ => destruct (opened_empty t) as (l & dir & -> & Hi & H0) end.
  match goal with |- appended_all _ _ ?es ?t = _ =>
    destruct (appended_all_ok es l dir [] [] t) as (l1 & dir1 & old & es1 & -> & Hi1 & Hc)
  end;
    [done|done|rewrite length_fmap, length_seq; lia|].
  rewrite length_fmap, length_seq in Hc.
  destruct (log_compact_ok l1 dir1 old es1 _ Hi1 Hsnap ltac:(lia)) as (dir2 & -> & Hi2).
  unfold opened. rewrite (li_names _ _ _ _ Hi2), (log_reopen _ _ _ _ Hi2). cbn.
  unfold log_entries. cbn. rewrite !app_nil_r, length_fmap, length_seq. apply Nat.eqb_refl.
Qed.
End Compaction.

Import ShutdownExamples PersistExamples.

Lemma compaction_test_passes_witness :
  LogTests.compaction_reduces_to_two_segments_and_data_survives 3 = true.
Proof.
  apply (compaction_test_passes 3);
    [apply ToyCodec.enc_eval_all; repeat constructor; vm_compute; split_and!; done..|vm_compute; congruence].
Defined.

(** The definitions pass the repository's unit tests: the seven of the structural
    diff, those of the access control registry, of the middleware crate's glob
    patterns and rate limiter, and those of the segmented log and of the store over
    it (the compaction test apart), each evaluated with the test's own inputs. *)
Theorem unit_tests_pass :
  Forall (λ b, b = true) (DeltaTests.all ++ AclTests.all ++ MiddlewareTests.all ++ LogTests.all)%list.
Proof. vm_compute. repeat constructor. Qed.
