(* ===== verification/ClusterSystem.v ===== *)
(** * Two nodes and Redis

    A node that serves connections and writes, its sync tasks and Redis, and a
    peer that serves its own connections and whose subscriber task delivers the published
    deltas to its watchers.  Both nodes are the whole transition system of
    [ServerSystem.v]; the writing node's tasks run oldest first, and
    the peer's clients only read. *)

From S2P Require Import Prelude RustStr Json JsonPath Delta Schema Acl Frame Log Store Session WritePool Fanout Cluster Server ServerLogic ServerSafety ServerWatch Connection ServerSystem.

Local Open Scope string_scope.

(** ** Values that follow a list of deltas *)

Section Chases.
Context `{BodyDecoder}.
Implicit Types (f g : string → Value) (l : list (string * list byte)).

(** Applying the deltas of [l] in order leads from the values [f] to [g]. *)
Fixpoint chases f l g : Prop :=
  match l with
  | [] => ∀ k, f k ≡ g k
  | (key, b) :: l' => ∃ f', (∀ x, x ≡ f key → apply_body x b ≡ f' key) ∧
      (∀ k, k ≠ key → f k = f' k) ∧ chases f' l' g
  end.

Lemma chases_ext f l g g' : chases f l g → (∀ k, g k ≡ g' k) → chases f l g'.
Proof.
  revert f. induction l as [|[key b] l IH]; intros f Hc Hg; cbn in *.
  - intros k. by rewrite Hc.
  - destruct Hc as (f' & ? & ? & ?). exists f'. eauto.
Qed.

Lemma chases_snoc f l g g' key b :
  chases f l g → (∀ x, x ≡ g key → apply_body x b ≡ g' key) → (∀ k, k ≠ key → g k = g' k) →
  chases f (l ++ [(key, b)])%list g'.
Proof.
  intros Hc Hb Hk. revert f Hc. induction l as [|[key0 b0] l IH]; intros f Hc; cbn in *.
  - exists (λ k, if decide (k = key) then g' key else f k). split_and!.
    + intros x Hx. rewrite decide_True by done. apply Hb. by rewrite Hx.
    + intros k Hne. by rewrite decide_False.
    + intros k. case_decide as E; [by subst|]. rewrite Hc. by rewrite Hk.
  - destruct Hc as (f' & ? & ? & ?). exists f'. eauto.
Qed.
End Chases.

(** ** What a handler adds to the tasks *)

Definition task_body (t : ClusterTask) : list byte :=
  match t with TSync _ _ _ b | TSyncDelete _ b => b end.
Definition task_msg (t : ClusterTask) : string * list byte := (task_key t, task_body t).

(** Actions that leave the store and the tasks alone. *)
Definition still {A} (m : M A) : Prop := ∀ c,
  w_state (c_world (m c).2) = w_state (c_world c) ∧ w_tasks (c_world (m c).2) = w_tasks (c_world c).

Create HintDb still.

Section Still.
Context `{EntryCodec, HashOrder, BodyCodec}.
Context (srv : SodpServer) (handle : nat).

Lemma still_ret {A} (a : A) : still (mret a).
Proof. by intros c. Qed.
Lemma still_bind {A B} (m : M A) (f : A → M B) : still m → (∀ a, still (f a)) → still (m ≫= f).
Proof.
  intros Hm Hf c. unfold mbind, M_bind. specialize (Hm c). destruct (m c) as [a c']. cbn in Hm.
  destruct (Hf a c') as [-> ->]. exact Hm.
Qed.
Lemma still_get_session : still get_session.
Proof. by intros c. Qed.
Lemma still_put_session s : still (put_session s).
Proof. by intros c. Qed.
Lemma still_get_world : still get_world.
Proof. by intros c. Qed.
Lemma still_take_seq : still take_seq.
Proof. by intros c. Qed.
Lemma still_send msg : still (send handle msg).
Proof. intros c. unfold send. by case_match. Qed.
Lemma still_broadcast k b e : still (broadcast_timed k b e).
Proof. intros c. unfold broadcast_timed. by case_match. Qed.
Lemma still_subscribe k s : still (bus_subscribe k s).
Proof. by intros c. Qed.
Lemma still_unsubscribe k s : still (bus_unsubscribe k s).
Proof. by intros c. Qed.
Lemma still_write_allowed n1 n2 : still (write_allowed n1 n2).
Proof. intros c. unfold write_allowed. by case_match. Qed.
Lemma still_watch_allowed n1 n2 : still (watch_allowed n1 n2).
Proof. intros c. unfold watch_allowed. by case_match. Qed.
Lemma still_register k p : still (register_presence k p).
Proof. by intros c. Qed.
Lemma still_open_stream k p : still (open_stream handle k p).
Proof. by intros c. Qed.

#[local] Hint Resolve still_ret still_get_session still_put_session still_get_world still_take_seq still_send
  still_broadcast still_subscribe still_unsubscribe still_write_allowed still_watch_allowed still_register
  still_open_stream : still.

Ltac still_tac := repeat first [progress intros|progress auto with still|apply still_bind|case_match].

Lemma still_reply f : still (reply handle f).
Proof. unfold reply. still_tac. Qed.
#[local] Hint Resolve still_reply : still.
Lemma still_send_init sid k p : still (send_init handle sid k p).
Proof. unfold send_init. apply still_bind; [auto with still|]. intros w. destruct (init_of _ _) as [[] ]. still_tac. Qed.
#[local] Hint Resolve still_send_init : still.
Lemma still_watch_keys ks p : still (watch_keys srv handle ks p).
Proof. induction ks; cbn [watch_keys]; unfold subscribe_key; still_tac. Qed.
Lemma still_unwatch_keys ks : still (unwatch_keys ks).
Proof. induction ks; cbn [unwatch_keys]; still_tac. Qed.
Lemma still_replay_missed sid l : still (replay_missed handle sid l).
Proof. induction l as [|[] l IH]; cbn [replay_missed]; still_tac. Qed.
Lemma still_send_own k b : still (send_own_delta handle k b).
Proof. unfold send_own_delta. still_tac. Qed.
#[local] Hint Resolve still_watch_keys still_unwatch_keys still_replay_missed still_send_own : still.
Lemma still_handle_watch fr n1 n2 : still (handle_watch srv handle fr n1 n2).
Proof. unfold handle_watch. still_tac. Qed.
Lemma still_handle_resume fr n1 n2 : still (handle_resume srv handle fr n1 n2).
Proof. unfold handle_resume. still_tac. Qed.
Lemma still_handle_unwatch fr : still (handle_unwatch fr).
Proof. unfold handle_unwatch. still_tac. Qed.

(** A publication spawns its task and leaves the store. *)
Lemma publish_tasks k b t c :
  c_cluster srv = true →
  w_state (c_world (publish srv handle k b t c).2) = w_state (c_world c) ∧
  w_tasks (c_world (publish srv handle k b t c).2) = (w_tasks (c_world c) ++ [t])%list.
Proof.
  intros Hc. unfold publish. unfold mbind, M_bind, get_session.
  pose proof (still_broadcast k b (Some (s_id (c_session c))) c) as [H1' H2'].
  destruct (broadcast_timed k b _ c) as [[] c1]. cbn in *.
  pose proof (still_send_own k b c1) as [H3 H4]. destruct (send_own_delta handle k b c1) as [[] c2]. cbn in *.
  unfold cluster_task. rewrite Hc. cbn. split; congruence.
Qed.
End Still.

#[export] Hint Resolve still_ret still_get_session still_put_session still_get_world still_take_seq still_send
  still_broadcast still_subscribe still_unsubscribe still_write_allowed still_watch_allowed still_register
  still_open_stream still_reply still_send_init still_watch_keys still_unwatch_keys still_replay_missed
  still_send_own still_handle_watch still_handle_resume still_handle_unwatch : still.

(** ** A node's tasks follow its store *)

Section Follows.
Context `{EntryCodec, HashOrder, BodyCodec, BodyDecoder, !BodyLaw}.
Context (srv : SodpServer) (h : nat).
Context (clustered : c_cluster srv = true).
(** What the peers hold, and the deltas published and not yet received. *)
Context (f : string → Value) (pre : list (string * list byte)).

Definition follows (w : World) : Prop :=
  chases f (pre ++ (task_msg <$> w_tasks w)) (store_value (w_state w)).

Lemma follows_still {A} (m : M A) c : still m → follows (c_world c) → follows (c_world (m c).2).
Proof. intros Hm Hf. destruct (Hm c) as [Hs Ht]. unfold follows. by rewrite Hs, Ht. Qed.

Definition ready (st : StateStore) : Prop :=
  store_inv st ∧ ∀ k, pointer_safe (store_value st k) = true.

(** A write of the store and the task that goes with it. *)
Lemma follows_task w w' t :
  follows w → w_tasks w' = (w_tasks w ++ [t])%list →
  (∀ x, x ≡ store_value (w_state w) (task_key t) →
     apply_body x (task_body t) ≡ store_value (w_state w') (task_key t)) →
  (∀ k, k ≠ task_key t → store_value (w_state w) k = store_value (w_state w') k) →
  follows w'.
Proof.
  unfold follows. intros Hf Ht Hb Hk. rewrite Ht, fmap_app, app_assoc. by eapply chases_snoc.
Qed.

Lemma apply_follows st key v version ops :
  ready st → wf_value v = true → pointer_safe v = true → ops = apply_emits st key v →
  let st' := (store_apply st key v).2 in
  (ops = [] → ∀ k, store_value st k ≡ store_value st' k) ∧
  (∀ x, x ≡ store_value st key → apply_body x (encode_delta_body version ops) ≡ store_value st' key) ∧
  (∀ k, k ≠ key → store_value st k = store_value st' k).
Proof.
  intros [Hi Hs] Hwf Hsafe -> st'. unfold st'. split_and!.
  - intros Hn k. destruct (decide (k = key)) as [->|Hne]; [|by rewrite store_value_other].
    rewrite store_value_apply. apply apply_emits_nil in Hn as (e & He & Heq); [|done..].
    unfold store_value. by rewrite He.
  - intros x Hx. rewrite apply_body_encode, Hx, store_value_apply. by apply apply_emits_sound.
  - intros k Hne. by rewrite store_value_other.
Qed.

Lemma follows_commit key v c :
  ready (w_state (c_world c)) → wf_value v = true → pointer_safe v = true →
  follows (c_world c) → follows (c_world (commit srv h key v c).2).
Proof.
  intros Hr Hwf Hsafe Hf. unfold commit, state_apply, mbind, M_bind.
  pose proof (store_apply_result (w_state (c_world c)) key v) as Hres.
  pose proof (λ n, apply_follows (w_state (c_world c)) key v n _ Hr Hwf Hsafe eq_refl) as Ha.
  destruct (store_apply (w_state (c_world c)) key v) as [[version ops] st']. cbn [fst snd] in *.
  injection Hres as _ ->. destruct (Ha version) as (Hnil & Hb & Hother).
  destruct (apply_emits _ key v) as [|o ops] eqn:E; cbn [mret M_ret snd].
  - unfold follows. cbn. eapply chases_ext; [exact Hf|auto].
  - rewrite <- E in *.
    match goal with |- context [publish srv h ?k ?b ?t ?c1] =>
      destruct (publish_tasks srv h k b t c1 clustered) as [Hst Hts];
      destruct (publish srv h k b t c1) as [[] c2]; cbn in Hst, Hts |- *;
      apply (follows_task (c_world c) (c_world c2) t Hf Hts) end; cbn; by rewrite Hst.
Qed.

Lemma follows_delete key c :
  ready (w_state (c_world c)) → follows (c_world c) →
  let '(r, c1) := state_delete key c in
  follows (c_world (match r with
                    | Some (version, ops) =>
                        publish srv h key (encode_delta_body version ops)
                          (TSyncDelete key (encode_delta_body version ops)) c1
                    | None => (tt, c1)
                    end).2).
Proof.
  intros [Hi Hs] Hf. unfold state_delete.
  destruct (store_get (w_state (c_world c)) key) as [e|] eqn:E.
  - destruct (store_delete_present _ key e E) as (Hr & Hen & _).
    destruct (store_delete (w_state (c_world c)) key) as [r st']. cbn [fst snd] in *. subst r.
    match goal with |- context [publish srv h ?k ?b ?t ?c1] =>
      destruct (publish_tasks srv h k b t c1 clustered) as [Hst Hts];
      apply (follows_task (c_world c) _ t Hf Hts) end; cbn; rewrite Hst; cbn.
    + intros x _. rewrite apply_body_encode. unfold store_value, store_get. by rewrite Hen, lookup_delete_eq.
    + intros k Hk. unfold store_value, store_get. by rewrite Hen, lookup_delete_ne.
  - rewrite store_delete_absent by done. exact Hf.
Qed.

Lemma follows_intent fr id i c :
  ready (w_state (c_world c)) → intent_ok i → follows (c_world c) →
  follows (c_world (run_intent srv h fr id i c).2).
Proof.
  intros Hr Hi Hf. destruct i as [code msg|key v pres|key]; cbn [run_intent].
  - apply follows_still; auto with still.
  - destruct Hi as [Hwf Hs]. unfold validated_write.
    destruct (schema_check srv key v); [|apply follows_still; auto with still].
    unfold mbind, M_bind. pose proof (follows_commit key v c Hr Hwf Hs Hf) as Hc.
    destruct (commit srv h key v c) as [version c1]. cbn in Hc.
    set (after := match pres with Some p => register_presence key p | None => mret tt end).
    assert (Ha : still after) by (unfold after; destruct pres; auto with still).
    pose proof (follows_still after c1 Ha Hc) as Hc2. destruct (after c1) as [[] c2].
    apply follows_still; auto with still.
  - unfold mbind, M_bind. pose proof (follows_delete key c Hr Hf) as Hd.
    destruct (state_delete key c) as [[[version ops]|] c1].
    + destruct (publish srv h key _ _ c1) as [[] c2]. apply follows_still; auto with still.
    + apply follows_still; auto with still.
Qed.

Lemma follows_handle_frame fr n1 n2 c :
  ready (w_state (c_world c)) → frame_ok c fr → follows (c_world c) →
  follows (c_world (handle_frame srv h fr n1 n2 c).2).
Proof.
  intros Hr [Hb Hv Hc _ _] Hf. unfold handle_frame. repeat case_goal.
  - apply follows_still; auto with still.
  - apply follows_still; auto with still.
  - apply follows_still; auto with still.
  - unfold handle_call, bad_request. destruct (get_str "method" (body fr)) as [method|];
      [|apply follows_still; auto with still].
    specialize (Hc ltac:(by apply Z.eqb_eq) method eq_refl). unfold mbind, M_bind.
    pose proof (follows_still _ c (still_write_allowed n1 n2) Hf) as Hf1.
    pose proof (still_write_allowed n1 n2 c) as [Hst _].
    destruct (write_allowed n1 n2 c) as [ok c1]. cbn [fst snd] in *.
    destruct (negb ok); [apply follows_still; auto with still|]. unfold get_session.
    match goal with |- context [if negb ?b then _ else _] => destruct (negb b) end;
      [apply follows_still; auto with still|].
    rewrite dispatch_intent. apply follows_intent; rewrite ?Hst; [done| |done].
    destruct (call_intent _ method _) as [|key v pres|] eqn:E; try done.
    split; [|done]. eapply intent_wf; [apply store_inv_values, Hr|by apply default_get_wf|exact E].
  - apply (follows_still (s ← get_session; put_session _)); [|done].
    apply still_bind; [auto with still|]. intros s. auto with still.
  - apply follows_still; auto with still.
  - done.
Qed.

Lemma follows_cleanup entries c :
  ready (w_state (c_world c)) →
  (st_version (w_state (c_world c)) + Z.of_nat (length entries) ≤ u64_max)%Z →
  follows (c_world c) → follows (c_world (presence_cleanup srv entries c).2).
Proof.
  revert c. induction entries as [|e entries IH]; intros c Hr Hm Hf; [done|].
  cbn [presence_cleanup length] in *. unfold mbind, M_bind, get_world.
  set (st := w_state (c_world c)) in *. set (key := p_state_key e).
  destruct (store_get st key) as [x|] eqn:Ex; [|apply IH; [done|fold st; lia|done]].
  assert (Hx : store_value st key = se_value x) by (unfold store_value; by rewrite Ex).
  set (v := json_remove_in (se_value x) (p_path e)).
  assert (Hwf : wf_value v = true) by (apply json_remove_in_wf; rewrite <- Hx; apply store_value_wf, Hr).
  assert (Hsafe : pointer_safe v = true) by (apply json_remove_in_safe; rewrite <- Hx; apply Hr).
  pose proof (store_apply_inv st key v (proj1 Hr) Hwf ltac:(lia)) as Hi'.
  pose proof (store_apply_result st key v) as Hres. pose proof (store_value_apply st key v) as Hv.
  pose proof (store_apply_version st key v) as Hver.
  rewrite u64_add_small in Hver by (pose proof (si_version st (proj1 Hr)); lia).
  pose proof (λ n, apply_follows st key v n _ Hr Hwf Hsafe eq_refl) as Ha.
  unfold state_apply. fold st. destruct (store_apply st key v) as [[version ops] st']. cbn [fst snd] in *.
  injection Hres as _ ->. destruct (Ha version) as (Hnil & Hb & Hother).
  assert (Hr' : ready st').
  { split; [done|]. intros k. destruct (decide (k = key)) as [->|Hne]; [by rewrite Hv|].
    rewrite <- Hother by done. apply Hr. }
  destruct (apply_emits st key v) as [|o ops] eqn:E.
  - apply IH; cbn; [done|lia|]. unfold follows. cbn. eapply chases_ext; [exact Hf|auto].
  - rewrite <- E in *. set (b := encode_delta_body version _) in *. set (c1 := mkConn _ _).
    destruct (still_broadcast key b None c1) as [Hs1 Ht1].
    destruct (broadcast_timed key b None c1) as [[] c2]. cbn [fst snd] in *.
    unfold cluster_task. rewrite clustered. apply IH; cbn; rewrite ?Hs1; cbn; [done|lia|].
    eapply (follows_task (c_world c)); [exact Hf|cbn; by rewrite Ht1|exact Hb|exact Hother].
Qed.

Lemma follows_end_session c :
  ready (w_state (c_world c)) →
  (st_version (w_state (c_world c)) + Z.of_nat (length (presence (c_session c))) ≤ u64_max)%Z →
  follows (c_world c) → follows (c_world (end_session srv c).2).
Proof.
  intros Hr Hm Hf. pose proof (follows_cleanup (presence (c_session c)) c Hr Hm Hf) as Hc.
  unfold end_session. run_m. by destruct (presence_cleanup srv _ c) as [[] c'].
Qed.
End Follows.

(** ** The two nodes *)

Record Pair : Type := mkPair {
  cl_writer : System;               (* the node that writes *)
  cl_redis : Redis;
  cl_next : nat;                    (* published messages the peer has received *)
  cl_peer : System;                 (* the node that follows *)
}.

(** *** A node whose clients do not write *)

Definition unpresent (c : Conn) : Prop := presence (c_session c) = [].

Create HintDb unpresent.

Section Unpresent.
Context `{EntryCodec, HashOrder, BodyCodec}.
Context (srv : SodpServer) (handle : nat).

Lemma unpresent_ret {A} (a : A) : keeps unpresent (mret a).
Proof. by intros c. Qed.
Lemma unpresent_get_session : keeps unpresent get_session.
Proof. by intros c. Qed.
Lemma unpresent_get_world : keeps unpresent get_world.
Proof. by intros c. Qed.
Lemma unpresent_take_seq : keeps unpresent take_seq.
Proof. by intros c. Qed.
Lemma unpresent_send msg : keeps unpresent (send handle msg).
Proof. intros c. unfold send. by case_match. Qed.
Lemma unpresent_watch_allowed n1 n2 : keeps unpresent (watch_allowed n1 n2).
Proof. intros c. unfold watch_allowed. by case_match. Qed.
Lemma unpresent_open_stream k p : keeps unpresent (open_stream handle k p).
Proof. by intros c. Qed.

#[local] Hint Resolve unpresent_ret unpresent_get_session unpresent_get_world unpresent_take_seq unpresent_send
  unpresent_watch_allowed unpresent_open_stream : unpresent.

Lemma unpresent_reply f : keeps unpresent (reply handle f).
Proof. unfold reply. apply keeps_bind; auto with unpresent. Qed.
#[local] Hint Resolve unpresent_reply : unpresent.
Lemma unpresent_send_init sid k p : keeps unpresent (send_init handle sid k p).
Proof.
  unfold send_init. apply keeps_bind; [auto with unpresent|]. intros w.
  destruct (init_of _ _) as [[? ?] ?]. auto with unpresent.
Qed.
#[local] Hint Resolve unpresent_send_init : unpresent.
Lemma unpresent_watch_keys ks p : keeps unpresent (watch_keys srv handle ks p).
Proof.
  induction ks; cbn [watch_keys]; [auto with unpresent|]. apply keeps_bind; [auto with unpresent|]. intros s.
  apply keeps_bind; [|done]. case_match; [|auto with unpresent]. unfold subscribe_key. apply keeps_bind; auto with unpresent.
Qed.
Lemma unpresent_unwatch ks : keeps unpresent (unwatch_keys ks).
Proof.
  induction ks as [|k ks IH]; cbn [unwatch_keys]; [auto with unpresent|]. intros c Hc. run_m.
  destruct (watch_stream_id _ _); by apply IH.
Qed.
Lemma unpresent_replay sid l : keeps unpresent (replay_missed handle sid l).
Proof.
  induction l as [|[v ops] l IH]; cbn [replay_missed]; [auto with unpresent|].
  apply keeps_bind; [auto with unpresent|]. intros n. apply keeps_bind; auto with unpresent.
Qed.
#[local] Hint Resolve unpresent_watch_keys unpresent_unwatch unpresent_replay : unpresent.

Lemma unpresent_handle_watch fr n1 n2 : keeps unpresent (handle_watch srv handle fr n1 n2).
Proof. unfold handle_watch. apply keeps_bind; [auto with unpresent|]. intros ok. repeat case_match; auto with unpresent. Qed.

Lemma unpresent_handle_resume fr n1 n2 : keeps unpresent (handle_resume srv handle fr n1 n2).
Proof.
  unfold handle_resume. apply keeps_bind; [auto with unpresent|]. intros ok. destruct (negb ok); [auto with unpresent|].
  destruct (get_str "state" (body fr)) as [k|]; [|auto with unpresent].
  apply keeps_bind; [auto with unpresent|]. intros s0. destruct (negb _); [auto with unpresent|].
  apply keeps_bind; [auto with unpresent|]. intros sid. apply keeps_bind; [auto with unpresent|]. intros w.
  apply keeps_bind; [case_match|]; auto with unpresent.
Qed.
#[local] Hint Resolve unpresent_handle_watch unpresent_handle_resume : unpresent.

Lemma unpresent_handle_frame fr n1 n2 :
  frame_type fr ≠ types.CALL → keeps unpresent (handle_frame srv handle fr n1 n2).
Proof.
  intros Hnc. unfold handle_frame, handle_unwatch. repeat case_goal; bool_to_prop; try done; auto with unpresent.
  intros c. run_m. unfold unpresent, ack_stream. by case_match.
Qed.
End Unpresent.

Section Cluster.
Context `{EntryCodec, HashOrder, ClusterCodec, BodyCodec, BodyDecoder, !BodyLaw}.
Context (to_vec : Z * Z * Z * Value → result (list byte) string)
  (from_slice : list byte → result (Z * Z * Z * Value) string).
Context {DecodingKey : Type} (from_secret : string → DecodingKey)
  (from_rsa_pem : string → result DecodingKey string)
  (jwt_decode : bool → DecodingKey → string → result Claims string).
Context (sink : Message → bool).
Context (srv peer_srv : SodpServer).
Context (writer_id peer_id : string).

Definition with_tasks (y : System) (ts : list ClusterTask) : System :=
  let w := sy_world y in
  mkSys (sy_conns y) (sy_loop y) (mkWorld (w_state w) (w_fanout w) (w_net w) ts) (sy_seen y).

Definition with_bus (y : System) (bus : FanoutBus) (net : Net) : System :=
  let w := sy_world y in
  mkSys (sy_conns y) (sy_loop y) (mkWorld (w_state w) bus net (w_tasks w)) (sy_seen y).

(** No delta of the key is among these messages. *)
Definition untouched (received : list (string * list byte)) (k : string) : Prop :=
  ∀ pub, pub ∈ received → pub.1 ≠ channel_of k.

(** What the peer's clients do: no CALLs, and they start to watch a key before
    the peer has received a delta for it (afterwards the peer's own store is behind,
    see [peer_store_stays_behind]). *)
Definition peer_allows (received : list (string * list byte)) (c : Conn) (ev : Event) : Prop :=
  event_ok from_slice c ev ∧
  ∀ bytes fr, ev = EvMessage (Some (InBinary bytes)) → frame_decode from_slice bytes = Ok fr →
    frame_type fr ≠ types.CALL ∧ ∀ k, asks_for fr k → untouched received k.

Abbreviation node_step := (sys_step to_vec from_slice from_secret from_rsa_pem jwt_decode sink srv).
Abbreviation peer_step received :=
  (sys_step_by to_vec from_slice from_secret from_rsa_pem jwt_decode sink peer_srv (peer_allows received)).

Inductive pair_step : Pair → Pair → Prop :=
(** The writing node serves its connections. *)
| pair_serve y y' r n z :
    node_step y y' → pair_step (mkPair y r n z) (mkPair y' r n z)
(** Its oldest sync task runs. *)
| pair_sync y r n z t ts :
    w_tasks (sy_world y) = t :: ts →
    pair_step (mkPair y r n z) (mkPair (with_tasks y ts) (run_task writer_id t all_ok r) n z)
(** The peer's subscriber task handles the next message. *)
| pair_receive y r n z channel payload bus net :
    r_published r !! n = Some (channel, payload) →
    handle_pubsub_message peer_id channel payload (w_fanout (sy_world z)) (w_net (sy_world z)) = (bus, net) →
    pair_step (mkPair y r n z) (mkPair y r (S n) (with_bus z bus net))
(** The peer serves its connections. *)
| pair_peer y r n z z' :
    peer_step (take n (r_published r)) z z' → pair_step (mkPair y r n z) (mkPair y r n z').

(** Two nodes without connections that hold the same values; nothing published yet. *)
Record pair_init (p : Pair) : Prop := {
  pi_writer : sys_init (cl_writer p);
  pi_tasks : w_tasks (sy_world (cl_writer p)) = [];
  pi_published : r_published (cl_redis p) = [];
  pi_next : cl_next p = 0;
  pi_peer : sys_init (cl_peer p);
  pi_agree : ∀ k, store_value (w_state (sy_world (cl_peer p))) k ≡ store_value (w_state (sy_world (cl_writer p))) k;
}.

(** A published message that stands for a delta. *)
Definition stands_for (pub : string * list byte) (msg : string * list byte) : Prop :=
  pub.1 = channel_of msg.1 ∧ cmsg_from_slice pub.2 = Ok (writer_id, msg.2).

(** The peer: its clients see [f], which its store has too where nothing was received;
    nobody is present on it. *)
Record peer_ok (received : list (string * list byte)) (f : string → Value) (z : System) : Prop := {
  pe_sys : sys_with (sy_seen z) (seeing f) (sy_conns z) (sy_world z);
  pe_store : ∀ k, untouched received k → f k ≡ store_value (w_state (sy_world z)) k;
  pe_present : ∀ h s, sy_conns z !! h = Some s → presence s = [];
}.

Record pair_ok (p : Pair) : Prop := {
  po_writer : sy_ok (cl_writer p);
  po_next : (cl_next p ≤ length (r_published (cl_redis p)))%nat;
  po_chase : ∃ f msgs,
    peer_ok (take (cl_next p) (r_published (cl_redis p))) f (cl_peer p) ∧
    Forall2 stands_for (drop (cl_next p) (r_published (cl_redis p))) msgs ∧
    follows f msgs (sy_world (cl_writer p));
}.

Lemma pair_init_ok p : pair_init p → pair_ok p.
Proof.
  intros [Hw Ht Hpub Hn Hp Ha]. split; [by apply sys_init_ok|rewrite Hn; lia|].
  exists (store_value (w_state (sy_world (cl_peer p)))), []. rewrite Hn, Hpub. split_and!; [|constructor|].
  - split; [by apply sys_init_ok|done|]. intros h s. rewrite (in_conns _ Hp). by rewrite lookup_empty.
  - unfold follows. by rewrite Ht.
Qed.

(** A session past the handshake has no presence entries. *)
Lemma open_connection_present id now secs msgs s ttl :
  (open_connection to_vec from_slice from_secret from_rsa_pem jwt_decode sink peer_srv id now secs msgs).2 = Some (s, ttl) →
  presence s = [].
Proof.
  unfold open_connection. destruct (push _ _ _ _) as [[[] sent]|]; [|done|done].
  destruct (c_jwt_config peer_srv); [|by intros [= <- _]].
  destruct (auth_handshake _ _ _ _ _ _ _ _ _ _) as [sent' [[claims rest]|]]; [|done]. by intros [= <- _].
Qed.

Lemma peer_event received f conns loop loop' w seen h s awaiting ev n1 n2 :
  peer_ok received f (mkSys conns loop w seen) → conns !! h = Some s → peer_allows received (mkConn s w) ev →
  let c' := (on_event from_slice peer_srv h awaiting ev n1 n2 (mkConn s w)).2 in
  peer_ok received f (mkSys (<[h := c_session c']> conns) loop' (c_world c') seen).
Proof.
  intros [Hs Hst Hpr] Hh [Hok Hfr]. cbn in *. set (c := mkConn s w).
  assert (Hj : J seen h conns (seeing f) c) by (unfold J; cbn; by rewrite insert_id).
  apply (on_event_keeps _ _ (λ c', peer_ok received f (mkSys (<[h := c_session c']> conns) loop' (c_world c') seen))).
  - split; cbn; [exact Hj|done|]. intros h' s' [[_ <-]|[_ ?]]%lookup_insert_Some; eauto.
  - intros m Hm. split; cbn.
    + exact (J_send_harmless seen h conns (seeing f) m Hm c Hj).
    + destruct (quiet_send h m c) as [_ ->]. done.
    + pose proof (unpresent_send h m c) as Hp. intros h' s' [[_ <-]|[_ ?]]%lookup_insert_Some; [|eauto]. apply Hp. by eapply Hpr.
  - intros bytes fr -> Ef. destruct (Hfr bytes fr eq_refl Ef) as [Hnc Hk]. split; cbn.
    + apply J_handle_frame; [done|by apply (Hok fr Ef)|done|]. intros k Hask. apply Hst. by apply Hk.
    + destruct (quiet_handle_frame peer_srv h fr n1 n2 Hnc c) as [_ ->]. done.
    + pose proof (unpresent_handle_frame peer_srv h fr n1 n2 Hnc c) as Hp.
      intros h' s' [[_ <-]|[_ ?]]%lookup_insert_Some; [|eauto]. apply Hp. by eapply Hpr.
Qed.

Lemma peer_step_ok received f z z' :
  (∀ x, ∃ b, to_vec x = Ok b) → peer_step received z z' → peer_ok received f z → peer_ok received f z'.
Proof.
  intros Hv Hstep Hok. destruct Hstep as
    [conns loop w seen h id now secs msgs s ttl Hh Hid Ho|conns loop w seen h s awaiting ev n1 n2 r c' Hh _ He Hc
    |conns loop w seen h s Hh _ Hm|conns loop w seen h wh m q wire Hh _ Hq _|conns loop w seen h wh Hh].
  - pose proof (open_connection_present _ _ _ _ _ _ Ho) as Hp.
    destruct (open_connection_new _ _ _ _ _ _ _ _ _ _ _ _ _ Ho) as (? & ? & ? & ?). destruct Hok as [Hs Hst Hpr].
    split; cbn; [by eapply connect_ok|done|]. intros h' s' [[_ <-]|[_ ?]]%lookup_insert_Some; [done|]. by eapply Hpr.
  - pose proof (peer_event received f conns loop
      (match r with Some a => <[h := a]> loop | None => delete h loop end) w seen h s awaiting ev n1 n2 Hok Hh He) as Hj.
    by rewrite Hc in Hj.
  - destruct Hok as [Hs Hst Hpr]. cbn in *. unfold end_session. run_m. rewrite (Hpr h s Hh). cbn.
    split; cbn; [by apply sys_remove|done|]. intros h' s' [_ ?]%lookup_delete_Some. by eapply Hpr.
  - destruct Hok as [Hs Hst Hpr].
    replace (match to_ws_msg to_vec m with Some _ => receive seen h m | None => seen end) with (receive seen h m).
    + split; cbn; [by apply (sys_deliver seen)|done|done].
    + destruct m; try done. cbn. unfold frame_encode.
      destruct (Hv (frame_type f0, stream_id f0, Frame.seq f0, body f0)) as [b ->]. done.
  - destruct Hok as [Hs Hst Hpr]. split; cbn; [by apply (sys_close_rx seen)|done|done].
Qed.

Lemma run_task_publishes t r :
  task_ok writer_id t →
  ∃ payload, r_published (run_task writer_id t all_ok r) = (r_published r ++ [(channel_of (task_key t), payload)])%list ∧
    cmsg_from_slice payload = Ok (writer_id, task_body t).
Proof.
  assert (Hp : ∀ key b r0, msg_codes writer_id b → ∃ payload,
    r_published (publish_body writer_id key b true r0) = (r_published r0 ++ [(channel_of key, payload)])%list ∧
    cmsg_from_slice payload = Ok (writer_id, b)).
  { intros key b r0 (pl & E & D). exists pl. unfold publish_body. by rewrite E. }
  destruct t as [key v x b|key b]; cbn [run_task task_key task_body].
  - intros [(bs & E & _) Hm]. unfold sync. rewrite E. exact (Hp key b (mkRedis _ (r_published r)) Hm).
  - intros Hm. exact (Hp key b (mkRedis _ (r_published r)) Hm).
Qed.

Lemma follows_step f msgs y y' :
  c_cluster srv = true → sy_ok y → node_step y y' →
  follows f msgs (sy_world y) → follows f msgs (sy_world y').
Proof.
  intros Hcl Hok Hstep Hf.
  assert (Hready : ready (w_state (sy_world y))) by (split; [apply (so_store _ _ _ _ Hok)|apply (so_safe _ _ _ _ Hok)]).
  destruct Hstep as
    [conns loop w seen h id now secs msgs' s ttl Hh Hid Ho|conns loop w seen h s awaiting ev n1 n2 r c' Hh _ He Hc
    |conns loop w seen h s Hh _ Hm|conns loop w seen h wh m q wire Hh _ Hq _|conns loop w seen h wh Hh]; cbn in *; try done.
  - replace c' with (on_event from_slice srv h awaiting ev n1 n2 (mkConn s w)).2 by (by rewrite Hc).
    apply (on_event_keeps _ _ (λ c, follows f msgs (c_world c))); [done| |].
    + intros m _. apply follows_still; auto with still.
    + intros bytes fr -> Ef. by apply (follows_handle_frame srv h Hcl f msgs fr n1 n2 (mkConn s w) Hready (He fr Ef)).
  - by apply (follows_end_session srv Hcl f msgs (mkConn s w)).
Qed.

Lemma sy_ok_tasks y ts : sy_ok y → sy_ok (with_tasks y ts).
Proof. intros Hok. unfold sy_ok, with_tasks. cbn. by apply sys_tasks. Qed.

Lemma sync_ok y r n z t ts :
  (∀ t, task_ok writer_id t) → w_tasks (sy_world y) = t :: ts →
  pair_ok (mkPair y r n z) → pair_ok (mkPair (with_tasks y ts) (run_task writer_id t all_ok r) n z).
Proof.
  intros Hcodes Ht [Hw Hn (f & msgs & Hp & Hpub & Hf)]. cbn in *.
  destruct (run_task_publishes t r (Hcodes t)) as (payload & Hr & Hpl).
  split; cbn; [by apply sy_ok_tasks|rewrite Hr, length_app; lia|].
  exists f, (msgs ++ [task_msg t])%list. rewrite Hr, take_app_le, drop_app_le by done. split_and!; [done| |].
  - apply Forall2_app; [done|]. repeat constructor. exact Hpl.
  - unfold follows in *. rewrite Ht in Hf. cbn in *. by rewrite <- app_assoc.
Qed.

Lemma receive_ok y r n z channel payload bus net :
  writer_id ≠ peer_id →
  r_published r !! n = Some (channel, payload) →
  handle_pubsub_message peer_id channel payload (w_fanout (sy_world z)) (w_net (sy_world z)) = (bus, net) →
  pair_ok (mkPair y r n z) → pair_ok (mkPair y r (S n) (with_bus z bus net)).
Proof.
  intros Hne Hpub Hm [Hw Hn (f & msgs & [Hp Hst Hpr] & Hstand & Hf)]. cbn in *.
  rewrite (drop_S _ _ _ Hpub) in Hstand.
  apply Forall2_cons_inv_l in Hstand as ([key b] & msgs' & [Hch Hpl] & Hstand & ->).
  cbn [fst snd] in *. subst channel.
  unfold handle_pubsub_message, channel_of in Hm. rewrite str_strip_prefix_app, Hpl in Hm. cbn in Hm.
  rewrite (proj2 (String.eqb_neq _ _)) in Hm by done.
  destruct Hf as (f' & Hb & Hother & Hf). split; cbn; [done|by apply lookup_lt_Some in Hpub|].
  exists f', msgs'. split_and!; [|done|exact Hf]. split; cbn; [| |done].
  - pose proof (sys_broadcast (sy_seen z) (seeing f) (seeing f') (sy_conns z) (sy_world z) key b None Hp) as Hs.
    rewrite Hm in Hs. apply Hs.
    intros sub k v Hsub [= <-]. destruct (decide _) as [[-> _]|Hno]; [unfold seeing; eauto|].
    unfold seeing. rewrite Hother; [done|]. intros ->. by apply Hno.
  - rewrite (take_S_r _ _ _ Hpub). intros k Hk. rewrite <- Hother.
    + apply Hst. intros pub Hin. apply Hk, elem_of_app. by left.
    + intros ->. apply (Hk (channel_of key, payload)); [|done]. apply elem_of_app. right. by apply list_elem_of_singleton.
Qed.

Lemma pair_step_ok p p' :
  c_cluster srv = true → writer_id ≠ peer_id → (∀ t, task_ok writer_id t) → (∀ x, ∃ b, to_vec x = Ok b) →
  pair_step p p' → pair_ok p → pair_ok p'.
Proof.
  intros Hcl Hne Hcodes Hv Hstep Hok.
  destruct Hstep as [y y' r n z Hy|y r n z t ts Ht|y r n z ch pl bus net Hpub Hm|y r n z z' Hz].
  - destruct Hok as [Hw Hn (f & msgs & Hp & Hstand & Hf)]. cbn in *. split; cbn; [|done|].
    + by eapply sys_step_ok.
    + exists f, msgs. split_and!; [done..|]. by eapply follows_step.
  - by apply sync_ok.
  - by eapply receive_ok.
  - destruct Hok as [Hw Hn (f & msgs & Hp & Hstand & Hf)]. cbn in *. split; cbn; [done..|].
    exists f, msgs. split_and!; [by eapply peer_step_ok|done..].
Qed.

Definition pair_reachable : Pair → Pair → Prop := rtc pair_step.

Lemma pair_reachable_ok p0 p :
  c_cluster srv = true → writer_id ≠ peer_id → (∀ t, task_ok writer_id t) → (∀ x, ∃ b, to_vec x = Ok b) →
  pair_init p0 → pair_reachable p0 p → pair_ok p.
Proof.
  intros Hcl Hne Hcodes Hv Hi%pair_init_ok Hr. induction Hr as [p|p1 p2 p3 Hstep _ IH]; [done|].
  by eapply IH, pair_step_ok.
Qed.

(** C6. Watchers on a peer follow the writing node. Two nodes start with the same
    values and no connections.  Clients of one connect, watch, write, delete and disconnect (with
    presence clean-up) in any order; its sync tasks run oldest first, without a failure of
    Redis; clients of the other connect, watch, unwatch and disconnect, and its subscriber
    receives what was published; all of it interleaved.  The peer's clients make no
    CALLs and start to watch a key before the peer received a delta for it; frames
    are as [frame_ok] asks.  Once the tasks have run and the messages are received, every watch of a live
    session of the peer that was not evicted is subscribed and its client holds the
    value stored on the writing node (up to the messages still queued for it). *)
Theorem cluster_watchers_follow p0 p h s sid wt :
  c_cluster srv = true → writer_id ≠ peer_id → (∀ t, task_ok writer_id t) → (∀ x, ∃ b, to_vec x = Ok b) →
  pair_init p0 → pair_reachable p0 p →
  w_tasks (sy_world (cl_writer p)) = [] → cl_next p = length (r_published (cl_redis p)) →
  sy_conns (cl_peer p) !! h = Some s → watches s !! sid = Some wt →
  cancelled_of (w_net (sy_world (cl_peer p))) h = true ∨
  (mkSubscriber (s_id s) sid h ∈ subs_of (w_fanout (sy_world (cl_peer p))) (w_state_key wt) ∧
   client_view (sy_seen (cl_peer p) h sid) sid (queue_of (w_net (sy_world (cl_peer p))) h) ≡
     store_value (w_state (sy_world (cl_writer p))) (w_state_key wt)).
Proof.
  intros Hcl Hne Hcodes Hv Hi Hr Ht Hn Hh Hw.
  destruct (pair_reachable_ok p0 p Hcl Hne Hcodes Hv Hi Hr) as [_ _ (f & msgs & [Hp _ _] & Hstand & Hf)].
  rewrite Hn, drop_all in Hstand. apply Forall2_nil_inv_l in Hstand as ->.
  unfold follows in Hf. rewrite Ht in Hf. cbn in Hf.
  destruct (so_watched _ _ _ _ Hp h s sid wt Hh Hw) as [?|Hin]; [by left|].
  destruct (so_sync _ _ _ _ Hp _ _ _ Hin eq_refl) as [?|Hview]; [by left|right].
  split; [done|]. cbn in Hview. by rewrite Hview.
Qed.
End Cluster.

(** ** Concrete pairs of nodes *)

Module PairExamples.
Export SystemExamples.

(** A lawful encoding of what Redis holds. *)
#[export] Instance tree_cluster : ClusterCodec := {|
  cstate_to_vec v x := Ok (bytes_of_pos (encode (GenNode 0 [leaf_z v; tree_of x])));
  cstate_from_slice b :=
    match (decode (pos_of_bytes b) : option Tree) with
    | Some (GenNode _ [GenLeaf (inr (inl v)); t]) => Ok (v, value_of t)
    | _ => Err "bad state"
    end;
  cmsg_to_vec node b :=
    Ok (bytes_of_pos (encode (GenNode 0 [leaf_s node; leaf_s (String.string_of_list_byte b)] : Tree)));
  cmsg_from_slice bs :=
    match (decode (pos_of_bytes bs) : option Tree) with
    | Some (GenNode _ [GenLeaf (inr (inr node)); GenLeaf (inr (inr b))]) => Ok (node, String.list_byte_of_string b)
    | _ => Err "bad message"
    end;
|}.

Lemma tree_codes node t : task_ok node t.
Proof.
  assert (Hm : ∀ b, msg_codes node b).
  { intros b. eexists. split; [done|]. cbn -[encode decode]. rewrite pos_of_bytes_of, decode_encode. cbn.
    by rewrite String.list_byte_of_string_of_list_byte. }
  destruct t as [key v x b|key b]; [split; [|apply Hm]|apply Hm].
  eexists. split; [done|]. cbn -[encode decode]. rewrite pos_of_bytes_of, decode_encode. cbn. by rewrite value_of_tree.
Qed.

Definition cl_server : SodpServer := mkServer None None None None 1048576 25 None None true 8 ModeTask.

(** The writer is "n", the peer "m"; a client of the peer watches "k". *)
Definition p_start : Pair := mkPair y0 redis_empty 0 y0.

Definition m_watching : System := event cl_server (connect cl_server y0 0 "a") 0 x02.
Definition n_wrote : System := event cl_server (connect cl_server y0 1 "b") 1 x05.
Definition n_task : ClusterTask := default (TSyncDelete "" []) (head (w_tasks (sy_world n_wrote))).
Definition p_redis : Redis := run_task "n" n_task all_ok redis_empty.
Definition p_received : FanoutBus * Net :=
  let w := sy_world m_watching in
  match r_published p_redis with
  | (channel, payload) :: _ => handle_pubsub_message "m" channel payload (w_fanout w) (w_net w)
  | [] => (w_fanout w, w_net w)
  end.

(** The write synced and received. *)
Definition p_end : Pair :=
  mkPair (with_tasks n_wrote []) p_redis 1 (with_bus m_watching p_received.1 p_received.2).

Abbreviation ex_pair_step :=
  (pair_step ex_to_vec sys_from_slice (λ s : string, s) (λ _, Err "no key") ex_jwt (λ _, true) cl_server cl_server "n" "m").

Lemma p_start_init : pair_init p_start.
Proof. split; [apply y_init|done|done|done|apply y_init|]. intros k. reflexivity. Qed.

Lemma p_reach : rtc ex_pair_step p_start p_end.
Proof.
  assert (Hnone : ∀ h' s' id, sy_conns y0 !! h' = Some s' → s_id s' ≠ id) by (intros h' s' id; cbn; by rewrite lookup_empty).
  eapply rtc_l; [apply pair_peer|].
  { apply step_connect with (h := 0) (id := "a") (now := 0%Z) (secs := 0%Z) (msgs := []) (ttl := NEVER); [done|by intros; eapply Hnone|done]. }
  eapply rtc_l; [apply pair_peer|].
  { eapply (step_event _ _ _ _ _ _ _ _ _ _ _ _ 0 _ false (EvMessage (Some (InBinary [x02]))) 0 0 (Some false)); [reflexivity..| |].
    - split.
      + cbn. intros f [= <-]. by eapply (ex_watch_ok "a").
      + intros bytes fr [= <-] [= <-]. split; [done|]. intros k _ pub Hin. by apply elem_of_nil in Hin.
    - reflexivity. }
  eapply rtc_l; [apply pair_serve, (ex_connect cl_server y0 1 "b"); [done..|by intros; eapply Hnone]|].
  eapply rtc_l.
  { apply pair_serve. eapply (ex_event cl_server _ 1 x05); [done|reflexivity|reflexivity|reflexivity|].
    split; try done. intros _ method. cbn. by intros [= <-]. }
  eapply rtc_l; [apply (pair_sync _ _ _ _ _ _ _ _ _ _ n_wrote redis_empty 0) with (t := n_task) (ts := []); vm_compute; reflexivity|].
  eapply rtc_l; [|apply rtc_refl].
  destruct (r_published p_redis) as [|[channel payload] rest] eqn:E; [vm_compute in E; done|].
  apply (pair_receive _ _ _ _ _ _ _ _ _ _ (with_tasks n_wrote []) p_redis 0 m_watching channel payload).
  - by rewrite E.
  - unfold p_received. rewrite E. by destruct (handle_pubsub_message _ _ _ _ _).
Qed.
End PairExamples.
Import PairExamples.

Lemma cluster_watchers_follow_witness :
  client_view VNull 10 (queue_of (w_net (sy_world (cl_peer p_end))) 0) ≡ store_value (w_state (sy_world n_wrote)) "k" ∧
  store_value (w_state (sy_world n_wrote)) "k" = num 1.
Proof.
  destruct (cluster_watchers_follow ex_to_vec sys_from_slice (λ s : string, s) (λ _, Err "no key") ex_jwt (λ _, true)
    cl_server cl_server "n" "m" p_start p_end 0 (default (session_new "a" None None 0) (sy_conns m_watching !! 0)) 10
    (mkWatch "k" 0 None)) as [Hc|[_ Hv]].
  - reflexivity.
  - done.
  - apply tree_codes.
  - intros x. by eexists.
  - apply p_start_init.
  - apply p_reach.
  - vm_compute. reflexivity.
  - vm_compute. reflexivity.
  - vm_compute. reflexivity.
  - vm_compute. reflexivity.
  - exfalso. vm_compute in Hc. done.
  - split; [exact Hv|vm_compute; reflexivity].
Defined.

(** A WATCH of "k" on the peer, after the write was synced and received. *)
Definition late_watch : Conn :=
  (handle_frame sys_server 1 (mkFrame types.WATCH 0 0 (VObject [("state", VString "k")])) 0 0
     (mkConn (session_new "b" None None 0) (sy_world (connect cl_server (cl_peer p_end) 1 "b")))).2.

Definition call (method : string) (args : Value) : Frame :=
  mkFrame types.CALL 1 0 (VObject [("args", args); ("method", VString method)]).

(** One node sets "doc" to an object; then, with everything synced, the other
    patches another field of it. *)
Definition set_doc : World :=
  c_world (handle_frame cl_server 1
    (call "state.set" (VObject [("state", VString "doc"); ("value", VObject [("a", num 1)])])) 0 0
    (mkConn (session_new "b" None None 0) (sy_world (connect cl_server y0 1 "b")))).2.
Definition doc_redis : Redis := run_tasks "n" (w_tasks set_doc) redis_empty.
Definition doc_peer : World :=
  let w := sy_world (cl_peer p_end) in
  let '(bus, net) := fold_left (λ '(bus, net) '(channel, payload), handle_pubsub_message "m" channel payload bus net)
    (r_published doc_redis) (w_fanout w, w_net w) in
  mkWorld (w_state w) bus net (w_tasks w).
Definition patch_doc : World :=
  c_world (handle_frame cl_server 1
    (call "state.patch" (VObject [("patch", VObject [("b", num 2)]); ("state", VString "doc")])) 0 0
    (mkConn (session_new "b" None None 0) doc_peer)).2.

(** A peer's own store does not follow. The subscriber task only forwards
    deltas to watchers: when everything is synced and received, a client that
    starts watching on the peer is told the peer's old value (here: none) although
    the writing node stores another; and a patch through the peer is computed on
    that old value, so it overwrites the fields other nodes wrote, in Redis too. *)
Theorem peer_store_stays_behind :
  client_view VNull 10 (queue_of (w_net (c_world late_watch)) 1) = VNull ∧
  store_value (w_state (sy_world (cl_writer p_end))) "k" = num 1 ∧
  redis_entry doc_redis "doc" = Some (1%Z, VObject [("a", num 1)]) ∧
  redis_entry (run_tasks "m" (w_tasks patch_doc) doc_redis) "doc" = Some (1%Z, VObject [("b", num 2)]).
Proof. split_and!; vm_compute; reflexivity. Qed.
