(* ===== verification/Subscriber.v ===== *)
(** * The subscriber task (src/src/cluster.rs, [spawn_subscriber])

    The background task that relays the deltas of peer nodes: it opens a Pub/Sub
    connection, subscribes, handles messages until the stream ends, and starts again
    two seconds later.  Shutdown is a token that [tokio::select!] polls beside the
    connection, but not beside the pause.

    Every event carries the time at which it happens.  Redis delivers a
    message to the connections subscribed at that moment, and to no other. *)

From S2P Require Import Prelude RustStr Json Delta Log Store Session WritePool Fanout Cluster Server ServerWatch Connection ServerSystem ClusterSystem.

Local Open Scope string_scope.

(** ** The task *)

Inductive SubState : Type :=
| Connecting                 (* [get_async_pubsub] *)
| Subscribing                (* [psubscribe] *)
| Listening                  (* [stream.next()] *)
| Sleeping (until : Z)       (* [sleep(Duration::from_secs(2))], in milliseconds *)
| Stopped.

Definition PAUSE : Z := 2000.

(** [redis::Msg]: the channel and the payload, which may fail to convert. *)
Record Msg : Type := mkMsg {
  m_channel : result string string;
  m_payload : result (list byte) string;
}.

Inductive SubEvent : Type :=
| Opened (ok : bool)
| Subscribed (ok : bool)
| Received (msg : Msg)
| StreamEnded
| Cancelled                  (* the shutdown token *)
| Polled.                    (* the executor polls the task *)

Record Sub : Type := mkSub {
  sb_state : SubState;
  sb_cancelled : bool;
  sb_bus : FanoutBus;
  sb_net : Net;
}.

Section Task.
Context `{ClusterCodec} (node_id : string).

(** [handle_pubsub_message], with the conversions that come first. *)
Definition handle_msg (msg : Msg) (bus : FanoutBus) (net : Net) : FanoutBus * Net :=
  match m_channel msg, m_payload msg with
  | Ok channel, Ok payload => handle_pubsub_message node_id channel payload bus net
  | _, _ => (bus, net)
  end.

(** [run_subscriber_loop] returned: the outer loop stops or pauses. *)
Definition disconnected (now : Z) (sb : Sub) : Sub :=
  mkSub (if sb_cancelled sb then Stopped else Sleeping (now + PAUSE)) (sb_cancelled sb) (sb_bus sb) (sb_net sb).

Definition goto (st : SubState) (sb : Sub) : Sub := mkSub st (sb_cancelled sb) (sb_bus sb) (sb_net sb).

(** An event that does not concern the task in its state is ignored. *)
Definition sub_step (sb : Sub) (ev : Z * SubEvent) : Sub :=
  let '(now, e) := ev in
  match e, sb_state sb with
  | Cancelled, st => mkSub st true (sb_bus sb) (sb_net sb)
  | Opened true, Connecting => goto Subscribing sb
  | Opened false, Connecting => disconnected now sb
  | Subscribed true, Subscribing => goto Listening sb
  | Subscribed false, Subscribing => disconnected now sb
  | Received msg, Listening =>
      let '(bus, net) := handle_msg msg (sb_bus sb) (sb_net sb) in mkSub Listening (sb_cancelled sb) bus net
  | StreamEnded, Listening => disconnected now sb
  | Polled, (Connecting | Subscribing | Listening) => if sb_cancelled sb then goto Stopped sb else sb
  | Polled, Sleeping until =>
      if (until <=? now)%Z then goto (if sb_cancelled sb then Stopped else Connecting) sb else sb
  | _, _ => sb
  end.

Definition sub_run (sb : Sub) (evs : list (Z * SubEvent)) : Sub := fold_left sub_step evs sb.

(** [spawn_subscriber] *)
Definition sub_start (bus : FanoutBus) (net : Net) : Sub := mkSub Connecting false bus net.

(** ** While it listens it relays everything *)

Definition relay (msgs : list Msg) (bus : FanoutBus) (net : Net) : FanoutBus * Net :=
  fold_left (λ bn msg, handle_msg msg bn.1 bn.2) msgs (bus, net).

Definition heard (ev : Z * SubEvent) : option Msg :=
  match ev.2 with Received msg => Some msg | _ => None end.

Lemma listening_relays sb evs :
  sb_state sb = Listening → sb_cancelled sb = false →
  Forall (λ ev, match ev.2 with StreamEnded | Cancelled => False | _ => True end) evs →
  sb_state (sub_run sb evs) = Listening ∧
  (sb_bus (sub_run sb evs), sb_net (sub_run sb evs)) = relay (omap heard evs) (sb_bus sb) (sb_net sb).
Proof.
  revert sb. induction evs as [|[t e] evs IH]; intros sb Hs Hc Hevs; [done|].
  apply Forall_cons in Hevs as [He Hevs]. unfold sub_run. cbn [fold_left].
  fold (sub_run (sub_step sb (t, e)) evs).
  destruct sb as [st c bus net]. cbn in Hs, Hc. subst st c. destruct e as [[]|[]|msg| | |]; try done; cbn [sub_step sb_state goto sb_cancelled sb_bus sb_net].
  1, 2, 3, 4, 6: by apply IH.
  unfold relay. cbn [omap list_omap heard snd fold_left fst].
  destruct (handle_msg msg bus net) as [bus' net'] eqn:Eh. by apply IH.
Qed.

(** ** Shutdown *)

(** The pause of a cancelled task ends by [t]; it does not start another one. *)
Definition winding_down (t : Z) (sb : Sub) : Prop :=
  sb_cancelled sb = true ∧ match sb_state sb with Sleeping until => (until ≤ t)%Z | _ => True end.

Definition pause_bounded (t : Z) (sb : Sub) : Prop :=
  match sb_state sb with Sleeping until => (until ≤ t + PAUSE)%Z | _ => True end.

Lemma sub_step_pause t sb ev :
  pause_bounded t sb → (t ≤ ev.1)%Z → pause_bounded ev.1 (sub_step sb ev).
Proof.
  destruct ev as [now e], sb as [st c bus net]. unfold pause_bounded. cbn. intros Hp Ht.
  assert (Hpause : match st with Sleeping u => (u ≤ now + PAUSE)%Z | _ => True end) by (destruct st; try done; lia).
  destruct e as [[]|[]|msg| | |], st; cbn; try done; try (destruct c; cbn; try done; lia).
  - by destruct (handle_msg msg bus net).
  - destruct (_ <=? _)%Z, c; cbn; try done; lia.
Qed.

Lemma sub_run_pause t sb evs :
  pause_bounded t sb → StronglySorted Z.le (t :: evs.*1) →
  pause_bounded (default t (last evs.*1)) (sub_run sb evs).
Proof.
  revert t sb. induction evs as [|ev evs IH]; intros t sb Hp Hs; [done|]. cbn in Hs.
  apply StronglySorted_inv in Hs as [Hs Hle]. apply Forall_cons in Hle as [Hle _].
  pose proof (IH _ (sub_step sb ev) (sub_step_pause t sb ev Hp Hle) Hs) as Hrun.
  unfold sub_run. cbn [fold_left]. fold (sub_run (sub_step sb ev) evs).
  rewrite fmap_cons, last_cons. destruct (last evs.*1); exact Hrun.
Qed.

Lemma sub_step_down t sb ev : winding_down t sb → winding_down t (sub_step sb ev).
Proof.
  destruct ev as [now e], sb as [st c bus net]. unfold winding_down. cbn. intros [-> Hst].
  destruct e as [[]|[]|msg| | |], st; cbn; try done.
  - by destruct (handle_msg msg bus net).
  - by destruct (_ <=? _)%Z.
Qed.

Lemma sub_run_down t sb evs : winding_down t sb → winding_down t (sub_run sb evs).
Proof. revert sb. induction evs as [|ev evs IH]; intros sb Hd; [done|]. by apply IH, sub_step_down. Qed.

Lemma down_polled t sb now : winding_down t sb → (t ≤ now)%Z → sb_state (sub_step sb (now, Polled)) = Stopped.
Proof.
  destruct sb as [st c bus net]. unfold winding_down. cbn. intros [-> Hst] Ht.
  destruct st; try done. cbn. by rewrite (proj2 (Z.leb_le _ _)) by lia.
Qed.

Lemma stopped_run sb evs : sb_state sb = Stopped →
  sb_state (sub_run sb evs) = Stopped ∧ sb_bus (sub_run sb evs) = sb_bus sb ∧ sb_net (sub_run sb evs) = sb_net sb.
Proof.
  revert sb. induction evs as [|[t e] evs IH]; intros sb Hs; [done|]. unfold sub_run. cbn [fold_left].
  fold (sub_run (sub_step sb (t, e)) evs). destruct sb as [st c bus net]. cbn in Hs. subst st.
  destruct (IH (sub_step (mkSub Stopped c bus net) (t, e))) as (? & -> & ->); destruct e as [[]|[]|msg| | |]; done.
Qed.

Lemma sub_run_app sb e1 e2 : sub_run sb (e1 ++ e2) = sub_run (sub_run sb e1) e2.
Proof. apply fold_left_app. Qed.

(** C36. The subscriber stops. Whatever happened before the shutdown token was cancelled
    at time [t] (connections opened or refused, messages, disconnections, pauses), and
    whatever happens after, the task has stopped when it is polled two seconds later
    or at any time after that, and delivers nothing any more. *)
Theorem subscriber_stops bus net before t after now later :
  StronglySorted Z.le (before.*1 ++ [t]) → (t + PAUSE ≤ now)%Z →
  let sb := sub_run (sub_start bus net) (before ++ [(t, Cancelled)] ++ after ++ [(now, Polled)]) in
  let sb' := sub_run sb later in
  sb_state sb = Stopped ∧ sb_state sb' = Stopped ∧ sb_bus sb' = sb_bus sb ∧ sb_net sb' = sb_net sb.
Proof.
  intros Hs Hnow sb sb'. assert (Hstop : sb_state sb = Stopped).
  { unfold sb. rewrite !sub_run_app. set (sb1 := sub_run (sub_start bus net) before).
    assert (Hp : pause_bounded t sb1).
    { destruct before as [|[t0 e0] before]; [done|].
      assert (Hb : pause_bounded (default t0 (last ((t0, e0) :: before).*1)) sb1).
      { apply sub_run_pause; [done|]. constructor; [by eapply StronglySorted_app_1_l|].
        apply StronglySorted_app_1_l in Hs. cbn in Hs. apply StronglySorted_inv in Hs as [_ Hs].
        constructor; [apply Z.le_refl|done]. }
      destruct (last ((t0, e0) :: before).*1) as [tl|] eqn:El; [|by apply last_None in El].
      assert (Hle : (tl ≤ t)%Z).
      { apply (StronglySorted_app_1_elem_of Z.le _ _ tl t Hs); [by apply last_Some_elem_of|by left]. }
      unfold pause_bounded in *. change (default t0 (Some tl)) with tl in Hb. destruct (sb_state sb1); try done. lia. }
    apply (down_polled (t + PAUSE)); [|done]. apply sub_run_down. split; [done|].
    unfold pause_bounded in Hp. by destruct sb1 as [st c b n], st. }
  destruct (stopped_run sb later Hstop) as (? & ? & ?). done.
Qed.
End Task.

(** ** Examples *)

Module SubscriberExamples.
Import PairExamples.

(** The writing node sets "k" to an object, changes its field "a", then adds "b". *)
Definition gap_conn : Conn :=
  let run c fr := (handle_frame cl_server 1 fr 0 0 c).2 in
  run (run (run (mkConn (session_new "b" None None 0) (sy_world (connect cl_server y0 1 "b")))
    (call "state.set" (VObject [("state", VString "k"); ("value", VObject [("a", num 1)])])))
    (call "state.patch" (VObject [("patch", VObject [("a", num 2)]); ("state", VString "k")])))
    (call "state.patch" (VObject [("patch", VObject [("b", num 3)]); ("state", VString "k")])).

Definition gap_messages : list Msg :=
  (λ '(channel, payload), mkMsg (Ok channel) (Ok payload)) <$>
    r_published (run_tasks "n" (w_tasks (c_world gap_conn)) redis_empty).

(** The peer hears the first message, loses the connection before the second, and is
    back for the third. *)
Definition gap_events : list (Z * SubEvent) :=
  match gap_messages with
  | [m1; m2; m3] =>
      [(0, Opened true); (1, Subscribed true); (2, Received m1); (3, StreamEnded); (4, Received m2);
       (5, Polled); (2003, Polled); (2004, Opened true); (2005, Subscribed true); (2006, Received m3)]%Z
  | _ => []
  end.

Definition gap_peer : Sub :=
  let w := sy_world y_watching in sub_run "m" (sub_start (w_fanout w) (w_net w)) gap_events.
End SubscriberExamples.
Import PairExamples SubscriberExamples.

Lemma subscriber_stops_witness :
  let w := sy_world y_watching in
  sb_state (sub_run "m" (sub_start (w_fanout w) (w_net w))
    ([(0, Opened true); (7, Subscribed false); (9, Polled)]%Z ++ [(10, Cancelled)]%Z ++ [(100, Polled)]%Z ++ [(2010, Polled)]%Z)%list) = Stopped.
Proof.
  intros w. destruct (subscriber_stops "m" (w_fanout w) (w_net w)
    [(0, Opened true); (7, Subscribed false); (9, Polled)]%Z 10 [(100, Polled)]%Z 2010 []) as [Hs _].
  - cbn. repeat constructor; done.
  - done.
  - exact Hs.
Defined.

(** Messages in the gap are lost. A peer that reconnects does not ask for what was
    published while it was away: the next delta is applied to the old value, and its
    watcher holds a value the writing node never stored, for good. *)
Theorem subscriber_gap_diverges :
  sb_state gap_peer = Listening ∧
  client_view VNull 10 (queue_of (sb_net gap_peer) 0) = VObject [("a", num 1); ("b", num 3)] ∧
  store_value (w_state (c_world gap_conn)) "k" = VObject [("a", num 2); ("b", num 3)].
Proof. split_and!; vm_compute; reflexivity. Qed.
