(* ===== verification/Bench.v ===== *)
(** * The benchmark program's workload and statistics (src/src/bin/bench.rs)

    The object the benchmark writes, the statistics it reports and the helpers of
    its clients: how subscriptions are spread over connections, how events are cut out
    of a byte stream.  Its reference servers and the RESUME smoke test are in BenchRun.v; the
    measuring clients (sockets, tasks, clocks) and the tables it prints are left out. *)

From S2P Require Import Prelude RustStr Json JsonPath Delta Frame Log.

Local Open Scope string_scope.

(** ** The workload *)

Definition test_object (n : Z) : Value :=
  json_object [("counter", json_u64 n);
    ("field_a", VString "aaaaaaaaaaaaaaaaaaaa"); ("field_b", VString "bbbbbbbbbbbbbbbbbbbb");
    ("field_c", VString "cccccccccccccccccccc"); ("field_d", VString "dddddddddddddddddddd");
    ("field_e", VString "eeeeeeeeeeeeeeeeeeee"); ("field_f", VString "ffffffffffffffffffff");
    ("field_g", VString "gggggggggggggggggggg"); ("field_h", VString "hhhhhhhhhhhhhhhhhhhh");
    ("field_i", VString "iiiiiiiiiiiiiiiiiiii"); ("field_j", VString "jjjjjjjjjjjjjjjjjjjj")].

(** A round of the benchmark sends one changed field out of eleven. *)
Theorem workload_delta n m :
  n ≠ m → diff (test_object n) (test_object m) = [delta_update "/counter" (json_u64 m)].
Proof.
  intros Hne. assert (E : (n =? m)%Z = false) by (by apply Z.eqb_neq).
  unfold test_object, json_object, json_u64. vm_compute bt_insert. cbn. by rewrite E.
Qed.

(** ** Statistics *)

(** [sort_unstable] on integers, then the element at the rank. *)
Definition percentile (data : list Z) (p : nat) : Z :=
  match data with
  | [] => 0%Z
  | _ =>
      let sorted := merge_sort Z.le data in
      default 0%Z (sorted !! Nat.min (length sorted * p / 100) (length sorted - 1))
  end.

Definition avg_bytes (bytes : list Z) : Z :=
  match bytes with [] => 0%Z | _ => (foldr Z.add 0 bytes / Z.of_nat (length bytes))%Z end.

(** Index of the first minimum. *)
Fixpoint min_from (i : nat) (best : nat * Z) (vals : list Z) : nat * Z :=
  match vals with
  | [] => best
  | v :: vs => min_from (S i) (if (v <? best.2)%Z then (i, v) else best) vs
  end.

Definition winner_min (vals : list Z) : nat :=
  match vals with [] => 0 | v :: vs => (min_from 1 (0, v) vs).1 end.

Definition scale_rounds (watchers : Z) (quick : bool) : Z :=
  if quick then
    if (watchers =? 0)%Z then 200
    else if (watchers <=? 100)%Z then 30
    else if (watchers <=? 500)%Z then 10
    else 5
  else
    if (watchers =? 0)%Z then 500
    else if (watchers <=? 10)%Z then 200
    else if (watchers <=? 100)%Z then 100
    else if (watchers <=? 500)%Z then 30
    else 15.

(** The receipts of one round; [None]: the wait timed out or the channel closed. *)
Fixpoint collect_receipts (want : nat) (events : list (option (Z * Z))) (send_time max_us total : Z) : Z * Z :=
  match want, events with
  | S want', Some (recv_time, bytes) :: events' =>
      let lat := (recv_time - send_time)%Z in
      collect_receipts want' events' send_time (if (max_us <? lat)%Z then lat else max_us) (total + bytes)
  | _, _ => (max_us, total)
  end.

(** ** Text *)

Definition newline : byte := x0a.

(** [windows(2).position(..)] *)
Fixpoint find_double_newline (buf : list byte) : option nat :=
  match buf with
  | a :: (b :: _) as t =>
      if Byte.eqb a newline && Byte.eqb b newline then Some 0 else S <$> find_double_newline t
  | _ => None
  end.

(** The loop of [fmt_ops]: a comma before every third digit from the right. *)
Fixpoint group_digits (first : bool) (s : string) : string :=
  match s with
  | EmptyString => ""
  | String c rest =>
      let out := String c (group_digits false rest) in
      if negb first && Nat.eqb (Nat.modulo (String.length s) 3) 0 then String "," out else out
  end.

(** For the rounded rate. *)
Definition fmt_ops (n : Z) : string := group_digits true (to_dec 20 n "").

(** ** Properties *)

Definition count (P : Z → bool) (l : list Z) : nat := length (List.filter P l).

Lemma count_app P l1 l2 : count P (l1 ++ l2) = (count P l1 + count P l2)%nat.
Proof. unfold count. by rewrite List.filter_app, length_app. Qed.

Lemma count_perm P l1 l2 : l1 ≡ₚ l2 → count P l1 = count P l2.
Proof. intros Hp. unfold count. induction Hp; cbn; repeat case_match; cbn; congruence. Qed.

Lemma count_all P l : Forall (λ x, P x = true) l → count P l = length l.
Proof. unfold count. induction 1 as [|x l Hx _ IH]; [done|]. cbn. rewrite Hx. cbn. by rewrite IH. Qed.

Lemma count_none P l : Forall (λ x, P x = false) l → count P l = 0.
Proof. unfold count. induction 1 as [|x l Hx _ IH]; [done|]. cbn. by rewrite Hx. Qed.

Lemma sorted_around l i x :
  StronglySorted Z.le l → l !! i = Some x →
  Forall (λ y, y ≤ x)%Z (take (S i) l) ∧ Forall (λ y, x ≤ y)%Z (drop i l).
Proof.
  revert i. induction l as [|y l IH]; intros i Hs Hi; [done|]. apply StronglySorted_inv in Hs as [Hs Hy].
  destruct i as [|i]; cbn in *.
  - injection Hi as ->. split; [constructor; [lia|constructor]|constructor; [lia|done]].
  - destruct (IH i Hs Hi) as [H1 H2]. split; [|done]. constructor; [|done].
    rewrite Forall_forall in Hy. apply Hy. by eapply list_elem_of_lookup_2.
Qed.

(** Percentiles. For a non-empty sample and a percentage up to 100, the value
    reported is one of the sample, at least p percent of the sample is at most it,
    and at most p percent is below it. *)
Theorem percentile_rank data p :
  data ≠ [] → (p ≤ 100)%nat →
  percentile data p ∈ data ∧
  (length data * p ≤ 100 * count (λ x, (x <=? percentile data p)%Z) data)%nat ∧
  (100 * count (λ x, (x <? percentile data p)%Z) data ≤ length data * p)%nat.
Proof.
  intros Hne Hp. unfold percentile. destruct data as [|d data0]; [done|]. set (data := d :: data0) in *.
  set (sorted := merge_sort Z.le data). pose proof (merge_sort_Permutation Z.le data) as Hperm. fold sorted in Hperm.
  assert (Hs : StronglySorted Z.le sorted) by apply (StronglySorted_merge_sort Z.le).
  assert (Hl : length sorted = length data) by (by rewrite Hperm).
  assert (Hpos : (0 < length data)%nat) by (cbn; lia).
  set (i := Nat.min (length sorted * p / 100) (length sorted - 1)).
  destruct (lookup_lt_is_Some_2 sorted i) as [x Hx]; [unfold i; lia|]. rewrite Hx. change (default 0%Z (Some x)) with x.
  destruct (sorted_around sorted i x Hs Hx) as [Hle Hge].
  pose proof (Nat.div_mod (length sorted * p) 100 ltac:(lia)) as Hdm.
  pose proof (Nat.mod_upper_bound (length sorted * p) 100 ltac:(lia)) as Hmod.
  assert (Hi : (i < length sorted)%nat) by (unfold i; lia).
  rewrite <- Hl, <- !(count_perm _ _ _ Hperm). split_and!.
  - rewrite <- Hperm. by eapply list_elem_of_lookup_2.
  - rewrite <- (take_drop (S i) sorted) at 2. rewrite count_app, (count_all _ (take (S i) sorted)).
    + rewrite length_take. assert ((i = length sorted - 1)%nat ∨ (i = length sorted * p / 100)%nat) as [->| ->] by (unfold i; lia).
      * rewrite Nat.min_r by lia. nia.
      * rewrite Nat.min_l by lia. lia.
    + eapply Forall_impl; [exact Hle|]. intros y Hy. by apply Z.leb_le.
  - rewrite <- (take_drop i sorted) at 1. rewrite count_app, (count_none _ (drop i sorted)).
    + assert (count (λ x0 : Z, (x0 <? x)%Z) (take i sorted) ≤ i)%nat.
      { unfold count. etrans; [apply List.filter_length_le|]. rewrite length_take. lia. }
      assert (i ≤ length sorted * p / 100)%nat by (unfold i; lia). lia.
    + eapply Forall_impl; [exact Hge|]. intros y Hy. by apply Z.ltb_ge.
Qed.

Lemma percentile_rank_witness :
  percentile [30; 10; 20; 40]%Z 50 ∈ [30; 10; 20; 40]%Z ∧ percentile [30; 10; 20; 40]%Z 50 = 30%Z.
Proof.
  split; [|vm_compute; reflexivity].
  apply (percentile_rank [30; 10; 20; 40]%Z 50); [done|lia].
Defined.

Lemma min_from_spec pre vals best :
  pre !! best.1 = Some best.2 →
  (∀ j w, pre !! j = Some w → (best.2 ≤ w)%Z ∧ ((j < best.1)%nat → (best.2 < w)%Z)) →
  let r := min_from (length pre) best vals in
  (pre ++ vals)%list !! r.1 = Some r.2 ∧
  ∀ j w, (pre ++ vals)%list !! j = Some w → (r.2 ≤ w)%Z ∧ ((j < r.1)%nat → (r.2 < w)%Z).
Proof.
  revert pre best. induction vals as [|v vals IH]; intros pre best Hb Hmin; cbn [min_from].
  { rewrite app_nil_r. auto. }
  specialize (IH (pre ++ [v])%list (if (v <? best.2)%Z then (length pre, v) else best)).
  rewrite <- app_assoc, length_app, Nat.add_1_r in IH. apply IH.
  - destruct (v <? best.2)%Z; cbn [fst snd]; [by rewrite lookup_app_r, Nat.sub_diag by lia|].
    rewrite lookup_app_l; [done|]. by apply lookup_lt_Some in Hb.
  - intros j w Hj. pose proof (lookup_lt_Some _ _ _ Hb) as Hlb.
    apply lookup_app_Some in Hj as [Hj|[Hj Hw]].
    + destruct (Hmin j w Hj) as [H1 H2]. pose proof (lookup_lt_Some _ _ _ Hj).
      destruct (v <? best.2)%Z eqn:E; bool_to_prop; cbn [fst snd]; [split; intros; lia|done].
    + assert (j = length pre ∧ w = v) as [-> ->].
      { destruct (j - length pre)%nat as [|n] eqn:E; [|by destruct n]. injection Hw as ->. split; [lia|done]. }
      destruct (v <? best.2)%Z eqn:E; bool_to_prop; cbn [fst snd]; split; intros; lia.
Qed.

(** [winner_min] is the index of the first minimum. *)
Theorem winner_min_first vals :
  vals ≠ [] →
  ∃ v, vals !! winner_min vals = Some v ∧
    ∀ j w, vals !! j = Some w → (v ≤ w)%Z ∧ ((j < winner_min vals)%nat → (v < w)%Z).
Proof.
  destruct vals as [|v vals]; [done|]. intros _. eexists.
  apply (min_from_spec [v] vals (0, v)); [done|]. intros [|[]] w; try done. cbn. intros [= ->]. split; [lia|]. intros; lia.
Qed.

(** [find_double_newline] is the first such position. *)
Theorem find_double_newline_first buf i :
  find_double_newline buf = Some i →
  buf !! i = Some newline ∧ buf !! S i = Some newline ∧
  ∀ j, (j < i)%nat → ¬ (buf !! j = Some newline ∧ buf !! S j = Some newline).
Proof.
  revert i. induction buf as [|a buf IH]; intros i Hi; [done|]. cbn [find_double_newline] in Hi.
  destruct buf as [|b buf]; [done|]. destruct (Byte.eqb a newline && Byte.eqb b newline) eqn:E.
  - injection Hi as <-. apply andb_true_iff in E as [Ea Eb].
    apply Byte.byte_dec_bl in Ea as ->. apply Byte.byte_dec_bl in Eb as ->. split_and!; [done|done|]. intros j Hj. lia.
  - destruct (find_double_newline (b :: buf)) as [k|]; [|done]. injection Hi as <-.
    destruct (IH k eq_refl) as (H1 & H2 & H3). split_and!; [done|done|]. intros [|j] Hj [E1 E2]; [|by apply (H3 j); [lia|]].
    injection E1 as ->. injection E2 as ->. done.
Qed.

Fixpoint without_commas (s : string) : string :=
  match s with
  | EmptyString => ""
  | String c s' => if Ascii.eqb c "," then without_commas s' else String c (without_commas s')
  end.

Lemma group_digits_strip first s :
  str_contains "," s = false → without_commas (group_digits first s) = s.
Proof.
  revert first. induction s as [|c s IH]; intros first Hc; [done|]. cbn [str_contains] in Hc.
  apply orb_false_iff in Hc as [Hc Hs]. cbn [group_digits].
  assert (E : without_commas (String c (group_digits false s)) = String c s).
  { cbn. by rewrite Hc, IH. }
  destruct (negb first && _); [|done]. exact E.
Qed.

(** The printed rate, without its separators, reads back as the number. *)
Theorem fmt_ops_reads_back n :
  (0 ≤ n ≤ u64_max)%Z → parse_u64 (without_commas (fmt_ops n)) = Some n.
Proof.
  intros Hn. unfold fmt_ops. rewrite group_digits_strip; [by apply parse_u64_to_dec|].
  by rewrite to_dec_contains by (done || lia).
Qed.

Example fmt_ops_samples : fmt_ops 52559 = "52,559" ∧ fmt_ops 1850 = "1,850" ∧ fmt_ops 380 = "380".
Proof. vm_compute. done. Qed.

(** ** The clients of the fan-out benchmark *)

(** [bench_fanout_sodp_at]: [watchers] subscriptions on connections that carry [mux]
    each; the last one carries the rest. *)
Definition conns_of (watchers mux : Z) : Z :=
  let mux := Z.max mux 1 in ((watchers + mux - 1) / mux)%Z.

Definition subs_on (watchers mux c : Z) : Z :=
  let mux := Z.max mux 1 in
  if ((c + 1) * mux <=? watchers)%Z then mux else (watchers - c * mux)%Z.

Definition all_subs (watchers mux : Z) : list Z :=
  (λ c, subs_on watchers mux (Z.of_nat c)) <$> List.seq 0 (Z.to_nat (conns_of watchers mux)).

Lemma conns_of_bounds watchers mux :
  (0 ≤ watchers)%Z → let m := Z.max mux 1 in let n := conns_of watchers mux in
  (0 ≤ n ∧ (n - 1) * m < watchers ∧ watchers ≤ n * m)%Z.
Proof.
  intros Hw m n. unfold n, conns_of. fold m. assert (Hm : (0 < m)%Z) by lia.
  pose proof (Z.div_mod (watchers + m - 1) m ltac:(lia)) as Hd.
  pose proof (Z.mod_pos_bound (watchers + m - 1) m Hm) as Hb.
  set (q := ((watchers + m - 1) / m)%Z) in *. split_and!; nia.
Qed.

(** The first connections together carry what fits, up to all of them. *)
Lemma subs_prefix watchers mux n :
  (0 ≤ watchers)%Z → (Z.of_nat n ≤ conns_of watchers mux)%Z →
  foldr Z.add 0%Z ((λ c, subs_on watchers mux (Z.of_nat c)) <$> List.seq 0 n) = Z.min (Z.of_nat n * Z.max mux 1) watchers.
Proof.
  intros Hw. destruct (conns_of_bounds watchers mux Hw) as (_ & Hc & _).
  induction n as [|n IH]; intros Hn; [cbn; lia|].
  assert (Hsum : ∀ l x, foldr Z.add 0%Z (l ++ [x])%list = (foldr Z.add 0%Z l + x)%Z)
    by (intros l x; induction l as [|y l IHl]; cbn; lia).
  rewrite seq_S, fmap_app. cbn [fmap list_fmap Nat.add]. rewrite Hsum, IH by lia. unfold subs_on.
  assert (Hlt : (Z.of_nat n * Z.max mux 1 ≤ watchers)%Z).
  { nia. }
  destruct (Z.leb_spec ((Z.of_nat n + 1) * Z.max mux 1) watchers); nia.
Qed.

(** Every connection gets between one and [mux] subscriptions, so that nothing
    underflows, and all of them together get [watchers]: the number of receipts a
    round waits for. *)
Theorem subs_partition watchers mux :
  (0 ≤ watchers)%Z →
  foldr Z.add 0%Z (all_subs watchers mux) = watchers ∧
  Forall (λ n, 1 ≤ n ≤ Z.max mux 1)%Z (all_subs watchers mux).
Proof.
  intros Hw. destruct (conns_of_bounds watchers mux Hw) as (H0 & Hc & Hn). unfold all_subs. split.
  - rewrite subs_prefix by lia. rewrite Z2Nat.id by lia. lia.
  - apply Forall_fmap, Forall_forall. intros c [_ Hlt]%elem_of_seq. unfold compose, subs_on.
    assert (Hcn : (Z.of_nat c ≤ conns_of watchers mux - 1)%Z) by lia.
    destruct (Z.leb_spec ((Z.of_nat c + 1) * Z.max mux 1) watchers); [lia|].
    nia.
Qed.

Lemma subs_partition_witness : all_subs 12 5 = [5; 5; 2]%Z ∧ foldr Z.add 0%Z (all_subs 12 5) = 12%Z.
Proof. split; [vm_compute; reflexivity|]. by apply subs_partition. Defined.

(** The watcher of [bench_fanout_rest]: [while let Some(pos) = find_double_newline(&buf)].
    Every round takes at least two bytes; [fuel] is the length of the buffer. *)
Fixpoint sse_events (fuel : nat) (buf : list byte) : list nat * list byte :=
  match fuel, find_double_newline buf with
  | S fuel', Some pos =>
      let event_len := (pos + 2)%nat in
      let '(lens, rest) := sse_events fuel' (drop event_len buf) in (event_len :: lens, rest)
  | _, _ => ([], buf)
  end.

(** A chunk arrives. *)
Definition sse_feed (st : list nat * list byte) (chunk : list byte) : list nat * list byte :=
  let buf := (st.2 ++ chunk)%list in
  let '(lens, rest) := sse_events (length buf) buf in (st.1 ++ lens, rest)%list.

Definition sse_watch (chunks : list (list byte)) : list nat * list byte := fold_left sse_feed chunks ([], []).

Lemma find_double_newline_cons a b buf :
  find_double_newline (a :: b :: buf) =
  if Byte.eqb a newline && Byte.eqb b newline then Some 0 else S <$> find_double_newline (b :: buf).
Proof. done. Qed.

Lemma find_double_newline_app buf more i :
  find_double_newline buf = Some i → find_double_newline (buf ++ more) = Some i ∧ (i + 2 ≤ length buf)%nat.
Proof.
  revert i. induction buf as [|a buf IH]; intros i Hi; [done|]. destruct buf as [|b buf]; [done|].
  rewrite <- !app_comm_cons. rewrite find_double_newline_cons in Hi |- *.
  destruct (Byte.eqb a newline && Byte.eqb b newline); [injection Hi as <-; split; [done|cbn; lia]|].
  destruct (find_double_newline (b :: buf)) as [k|] eqn:E; [|done]. injection Hi as <-.
  destruct (IH k eq_refl) as [Hk Hl]. rewrite <- app_comm_cons in Hk. rewrite Hk. split; [done|cbn in *; lia].
Qed.

Lemma sse_events_found n buf pos :
  find_double_newline buf = Some pos →
  sse_events (S n) buf = let '(lens, rest) := sse_events n (drop (pos + 2) buf) in ((pos + 2)%nat :: lens, rest).
Proof. cbn [sse_events]. by intros ->. Qed.

(** More fuel changes nothing. *)
Lemma sse_events_fuel n m buf :
  (length buf ≤ n)%nat → (length buf ≤ m)%nat → sse_events n buf = sse_events m buf.
Proof.
  revert m buf. induction n as [|n IH]; intros m buf Hn Hm.
  - destruct buf; [|cbn in Hn; lia]. by destruct m.
  - destruct m as [|m]; [destruct buf; [done|cbn in Hm; lia]|]. cbn [sse_events].
    destruct (find_double_newline buf) as [pos|] eqn:E; [|done].
    destruct (find_double_newline_app buf [] pos E) as [_ Hl].
    by rewrite (IH m) by (rewrite length_drop; lia).
Qed.

(** Reading on from what is left is reading from the start. *)
Lemma sse_events_app n buf more :
  (length (buf ++ more) ≤ n)%nat →
  sse_events n (buf ++ more) =
  let '(lens, rest) := sse_events n buf in
  let '(lens', rest') := sse_events n (rest ++ more) in (lens ++ lens', rest')%list.
Proof.
  intros Hn. rewrite (sse_events_fuel n (length buf) buf) by (rewrite length_app in Hn; lia).
  remember (length buf) as k eqn:Hk. assert (Hle : (length buf ≤ k)%nat) by lia. clear Hk.
  revert n buf Hn Hle. induction k as [|k IH]; intros n buf Hn Hle.
  { destruct buf; [|cbn in Hle; lia]. cbn. by destruct (sse_events n more). }
  cbn [sse_events]. destruct (find_double_newline buf) as [pos|] eqn:E.
  2:{ by destruct (sse_events n (buf ++ more)). }
  destruct (find_double_newline_app buf more pos E) as [E' Hl]. rewrite length_app in Hn.
  destruct n as [|n]; [lia|]. rewrite (sse_events_found n _ _ E'), drop_app_le by done.
  rewrite (sse_events_fuel n (S n)) by (rewrite length_app, length_drop; lia).
  rewrite (IH (S n)) by (rewrite ?length_app, length_drop; lia).
  destruct (sse_events k (drop (pos + 2) buf)) as [lens rest]. by destruct (sse_events (S n) (rest ++ more)).
Qed.

Lemma sse_events_rest n buf : (length (sse_events n buf).2 ≤ length buf)%nat.
Proof.
  revert buf. induction n as [|n IH]; intros buf; [done|]. cbn [sse_events].
  destruct (find_double_newline buf) as [pos|]; [|done]. pose proof (IH (drop (pos + 2) buf)) as Hr.
  destruct (sse_events n _) as [lens rest]. cbn in *. rewrite length_drop in Hr. lia.
Qed.

(** Chunks do not matter. However the stream is cut into chunks, the watcher reports the
    events of the whole stream, each once and with its length. *)
Theorem sse_watch_chunks chunks :
  sse_watch chunks = sse_events (length (concat chunks)) (concat chunks).
Proof.
  unfold sse_watch. induction chunks as [|c chunks IH] using rev_ind; [done|].
  rewrite fold_left_app. cbn [fold_left]. rewrite IH, concat_app. cbn [concat]. rewrite app_nil_r.
  set (buf := concat chunks) in *. rewrite (sse_events_app _ buf c) by done.
  rewrite (sse_events_fuel (length (buf ++ c)) (length buf) buf) by (rewrite ?length_app; lia).
  pose proof (sse_events_rest (length buf) buf) as Hr. unfold sse_feed.
  destruct (sse_events (length buf) buf) as [lens rest]. cbn [fst snd] in *.
  rewrite (sse_events_fuel (length (rest ++ c)) (length (buf ++ c))) by (rewrite ?length_app; lia). done.
Qed.
