(* ===== verification/BenchRun.v ===== *)
(** * The benchmark's reference servers and its RESUME smoke test (src/src/bin/bench.rs)

    The REST and gRPC servers the benchmark compares SODP with: a map, a version
    counter and a [tokio::sync::broadcast] channel, which keeps the last 1024 messages
    and makes a slow receiver skip.  And [test_resume], run as a client of the model of
    the server: the frames it sends and what it takes from its sockets. *)

From S2P Require Import Prelude RustStr Json JsonPath Delta Frame Log Store Session WritePool Fanout Cluster Server ServerWatch Connection ServerSystem.

Local Open Scope string_scope.

(** ** The broadcast channel *)

Definition CHANNEL_CAPACITY : nat := 1024.

(** What was sent, oldest first.  A receiver is the index of its next message. *)
Abbreviation Update := (string * Z * list byte)%type.

Inductive RecvRes : Type :=
| Value_ (u : Update)
| Lagged
| Empty.

(** [Receiver::recv] on a channel of the given capacity, as tokio documents it: the next
    message, or [Lagged] with the receiver moved to the oldest message kept. *)
Class Broadcast : Type := {
  recv : list Update → nat → RecvRes * nat;
  recv_lagged sent pos : (pos < length sent - CHANNEL_CAPACITY)%nat → recv sent pos = (Lagged, (length sent - CHANNEL_CAPACITY)%nat);
  recv_value sent pos u : (length sent - CHANNEL_CAPACITY ≤ pos)%nat → sent !! pos = Some u → recv sent pos = (Value_ u, S pos);
  recv_empty sent pos : (length sent ≤ pos)%nat → recv sent pos = (Empty, pos);
}.

(** ** The servers *)

Record RestState : Type := mkRest {
  r_store : gmap string (list byte);
  r_version : Z;
  r_sent : list Update;
}.

Definition rest_set_state (key : string) (body : list byte) (state : RestState) : Z * RestState :=
  let v := u64_add (r_version state) 1 in
  (v, mkRest (<[key := body]> (r_store state)) v (r_sent state ++ [(key, v, body)])%list).

Section Watch.
Context `{Broadcast}.

(** The stream of [rest_sse_state] and [watch_state], from a receiver at [pos]: the
    events it has produced when it waits for the next message.  Every round of the
    loop moves the receiver; [fuel] is what is left to receive, and one more for a
    lag. *)
Fixpoint watch_events (fuel : nat) (key : string) (sent : list Update) (pos : nat) : list Update * nat :=
  match fuel with
  | O => ([], pos)
  | S fuel' =>
      match recv sent pos with
      | (Empty, p) => ([], p)
      | (Lagged, p) => watch_events fuel' key sent p
      | (Value_ (k, v, val), p) =>
          let '(evs, p') := watch_events fuel' key sent p in
          (if String.eqb k key then (k, v, val) :: evs else evs, p')
      end
  end.

Definition drain (key : string) (sent : list Update) (pos : nat) : list Update * nat :=
  watch_events (S (length sent - pos)%nat) key sent pos.

(** [subscribe]: a receiver starts after everything sent so far. *)
Definition subscribe_rx (state : RestState) : nat := length (r_sent state).

Definition of_update (key : string) (u : Update) : bool := String.eqb u.1.1 key.

Lemma watch_events_exact fuel key sent pos :
  (length sent - CHANNEL_CAPACITY ≤ pos ≤ length sent)%nat → (length sent - pos < fuel)%nat →
  watch_events fuel key sent pos = (List.filter (of_update key) (drop pos sent), length sent).
Proof.
  revert pos. induction fuel as [|fuel IH]; intros pos Hp Hf; [lia|]. cbn [watch_events].
  destruct (sent !! pos) as [[[k v] val]|] eqn:E.
  - pose proof (lookup_lt_Some _ _ _ E). rewrite (recv_value sent pos (k, v, val)), IH by (done || lia). rewrite (drop_S _ _ _ E). unfold of_update. cbn.
    by destruct (String.eqb k key).
  - apply lookup_ge_None in E. rewrite recv_empty by done. replace pos with (length sent) by lia. by rewrite drop_all.
Qed.

(** What a watcher of the reference servers gets. A receiver that is at most 1024
    messages behind gets every update of its key, in order; one that is further behind
    gets those among the last 1024, and no error.  Either way the loop comes to rest
    with everything received. *)
Theorem reference_watch_events key sent pos :
  (pos ≤ length sent)%nat →
  drain key sent pos =
  (List.filter (of_update key) (drop (Nat.max pos (length sent - CHANNEL_CAPACITY)%nat) sent), length sent).
Proof.
  intros Hp. unfold drain. destruct (decide (pos < length sent - CHANNEL_CAPACITY)%nat) as [Hlag|Hok].
  - cbn [watch_events]. rewrite recv_lagged by done. rewrite Nat.max_r by lia. apply watch_events_exact; unfold CHANNEL_CAPACITY in *; lia.
  - rewrite Nat.max_l by lia. apply watch_events_exact; lia.
Qed.

End Watch.

(** The two servers do the same: [set_state] of the gRPC service. *)
Definition grpc_set_state (key : string) (value : list byte) (state : RestState) : Z * RestState :=
  let v := u64_add (r_version state) 1 in
  (v, mkRest (<[key := value]> (r_store state)) v (r_sent state ++ [(key, v, value)])%list).

(** ** The RESUME smoke test *)

Section Resume.
Context `{EntryCodec, HashOrder, BodyCodec, BodyDecoder}.
Context (srv : SodpServer).

(** A new connection without a token, after its HELLO, which the handshake writes to the
    socket itself and the test reads first. *)
Definition open_socket (h : nat) (id : string) (w : World) : Session * World :=
  (session_new id (c_rate_writes srv) (c_rate_watches srv) 0,
   with_net w (make_handle (c_write_mode srv) (w_net w) h (c_backpressure srv))).

(** The client's frame is handled by the connection's loop. *)
Definition send_frame (h : nat) (fr : Frame) (sw : Session * World) : Session * World :=
  let c := (handle_frame srv h fr 0 0 (mkConn sw.1 sw.2)).2 in (c_session c, c_world c).

(** [ws.next()]: the oldest message queued for the connection. *)
Definition next (h : nat) (w : World) : option OutboundMsg * World :=
  match handles (w_net w) !! h with
  | Some wh =>
      match h_queue wh with
      | m :: q => (Some m, with_net w (with_handle (w_net w) h (take_oldest wh q (h_wire wh))))
      | [] => (None, w)
      end
  | None => (None, w)
  end.

(** [drop(watcher)]: the connection's loop ends. *)
Definition drop_socket (sw : Session * World) : World := c_world (end_session srv (mkConn sw.1 sw.2)).2.

(** What the test reads of a frame: its type and the version in its body. *)
Definition frame_version (m : OutboundMsg) : option (Z * Z) :=
  match m with
  | OFrame f => Some (frame_type f, default 0%Z (value_get "version" (body f) ≫= as_u64))
  | OArcDelta _ b => Some (types.DELTA, default 0%Z (fst <$> body_from_slice b))
  | OBytes bs =>
      match read_header bs with
      | Some (t, _, _, b) => Some (t, default 0%Z (fst <$> body_from_slice b))
      | None => None
      end
  | _ => None
  end.

(** [set_state]: the CALL, then the version in its RESULT. *)
Definition set_state (h : nat) (seq : Z) (value : Z) (sw : Session * World) : Z * (Session * World) :=
  let '(s, w) := send_frame h (mkFrame types.CALL 0 seq
    (json_object [("call_id", VString (to_dec 20 seq "")); ("method", VString "state.set");
                  ("args", json_object [("state", VString "test.resume"); ("value", json_object [("n", json_u64 value)])])])) sw in
  let '(m, w') := next h w in
  (match m with
   | Some (OFrame f) => default 0%Z ((value_get "data" (body f) ≫= value_get "version") ≫= as_u64)
   | _ => 0%Z
   end, (s, w')).

(** The loop that collects frames until STATE_INIT, or until nothing more is queued or
    something else than a frame comes. *)
Fixpoint collect (fuel : nat) (h : nat) (w : World) (replayed : list Z) : list Z * Z :=
  match fuel with
  | O => (replayed, 0%Z)
  | S fuel' =>
      match next h w with
      | (Some m, w') =>
          match frame_version m with
          | Some (t, v) =>
              if (t =? types.DELTA)%Z then collect fuel' h w' (replayed ++ [v])
              else if (t =? types.STATE_INIT)%Z then (replayed, v)
              else collect fuel' h w' replayed
          | None => (replayed, 0%Z)
          end
      | (None, _) => (replayed, 0%Z)
      end
  end.

(** [test_resume] from the world [w]: the versions replayed, the final version, what
    they are compared with, and the verdict. *)
Definition test_resume (w : World) : list Z * Z * Z * bool :=
  let '(writer, w1) := open_socket 1 "writer" w in
  let '(watcher, w2) := open_socket 2 "watcher" w1 in
  let '(watcher, w3) := send_frame 2 (mkFrame types.WATCH 0 0 (json_object [("state", VString "test.resume")])) (watcher, w2) in
  let w4 := (next 2 w3).2 in
  let '(_, (writer, w5)) := set_state 1 1 1 (writer, w4) in let w5' := (next 2 w5).2 in
  let '(_, (writer, w6)) := set_state 1 2 2 (writer, w5') in let w6' := (next 2 w6).2 in
  let '(v_c, (writer, w7)) := set_state 1 3 3 (writer, w6') in let w7' := (next 2 w7).2 in
  let w8 := drop_socket (watcher, w7') in
  let '(_, (writer, w9)) := set_state 1 4 4 (writer, w8) in
  let '(v_e, (writer, w10)) := set_state 1 5 5 (writer, w9) in
  let '(resumed, w11) := open_socket 3 "resumed" w10 in
  let '(resumed, w12) := send_frame 3 (mkFrame types.RESUME 0 0
    (json_object [("state", VString "test.resume"); ("since_version", json_u64 v_c)])) (resumed, w11) in
  let '(replayed, final) := collect 10 3 w12 [] in
  (replayed, final, v_e, Nat.eqb (length replayed) 2 && (final =? v_e)%Z).
End Resume.

(** ** Examples *)

(** A channel that does what the laws say. *)
#[local] Instance ring : Broadcast.
Proof.
  refine {| recv sent pos :=
    let oldest := (length sent - CHANNEL_CAPACITY)%nat in
    if Nat.ltb pos oldest then (Lagged, oldest)
    else match sent !! pos with Some u => (Value_ u, S pos) | None => (Empty, pos) end |}.
  - intros sent pos Hp. cbn zeta. by rewrite (proj2 (Nat.ltb_lt _ _)).
  - intros sent pos u Hp Hu. cbn zeta. rewrite (proj2 (Nat.ltb_ge _ _)) by done. by rewrite Hu.
  - intros sent pos Hp. cbn zeta. rewrite (proj2 (Nat.ltb_ge _ _)) by lia. by rewrite lookup_ge_None_2.
Defined.

Lemma reference_watch_events_witness :
  drain "k" [("k", 1%Z, [x01]); ("j", 2%Z, [x02]); ("k", 3%Z, [x03])] 0 = ([("k", 1%Z, [x01]); ("k", 3%Z, [x03])], 3).
Proof. rewrite (reference_watch_events "k"); [reflexivity|cbn; lia]. Defined.

Import SystemExamples.

(** The smoke test passes: on a new server the client that last saw version 3 is
    sent the deltas of versions 4 and 5 and then a STATE_INIT at version 5; also when the
    key was written before. *)
Theorem resume_smoke_test_passes :
  test_resume sys_server (sy_world y0) = ([4; 5], 5, 5, true)%Z ∧
  test_resume sys_server (c_world (handle_frame sys_server 0
    (mkFrame types.CALL 0 0 (json_object [("call_id", VString "0"); ("method", VString "state.set");
       ("args", json_object [("state", VString "test.resume"); ("value", VNull)])])) 0 0
    (mkConn (session_new "a" None None 0) (sy_world (connect sys_server y0 0 "a")))).2) = ([5; 6], 6, 6, true)%Z.
Proof. split; vm_compute; reflexivity. Qed.
